(* ===== verification/_CoqProject ===== *)
-Q . S2P
Prelude.v
SocketId.v
Fifo.v
SocketTypes.v
CommandQueue.v
RuntimeState.v
Entries.v
Invariant.v
Rules.v
Handled.v
Slots.v
Udp.v
Writes.v
Connections.v
Lifecycle.v
Runtime.v
Loop.v
Steps.v
Opening.v
Safety.v
Scripts.v
SocketProperties.v
SocketBehaviour.v
SocketInterface.v
SocketFindings.v
SocketInfo.v
InfoList.v
SocketServer.v
RuntimeLife.v
RuntimeRelease.v
ClientRuntime.v
ClientInvariant.v
ClientSafety.v
ClientCalls.v
ClientFrame.v
ClientProperties.v
ClientSend.v
ClientWitness.v
ClientStart.v
ClientMonitor.v
ClientReady.v
ClientStdin.v
StdinLines.v
Doubles.v
Lua.v
ClientLua.v
ClientLuaTimes.v
ClientLuaSafety.v
ClientLuaSelect.v
ClientLuaLoop.v
ClientLuaProperties.v
Memory.v
MemoryProperties.v
MemoryInterface.v
MemoryPosix.v
Atomic.v
AtomicMsvc.v
AtomicNative.v
Spinlock.v
AtomicCompat.v
Time.v
Threads.v
ThreadLife.v
PthreadNames.v
Dlfcn.v
Paths.v
PathProperties.v
Launcher.v
Config.v
Daemon.v
DaemonProtocol.v
DaemonSafety.v
Strsep.v
Glue.v
