(* ===== verification/Prelude.v ===== *)
(** * skyuv: a verification of the portable Skynet runtime

    skyuv runs Skynet on libuv.  The development models the parts of it that hold
    state of their own or compute something, as functions on that state, and proves
    what makes them correct.

    ** The program and its model

    - The socket runtime (src/src/socket/socket_internal.c and .h).  Worker
      threads call [skyuv_socket_runtime_*], which reserve a slot for a socket
      where needed and queue a command; the network thread runs a libuv loop,
      whose async callback takes the commands and whose other callbacks report
      connections, data and completed writes; it polls the events that result.
      [SocketId] models the ids, [Fifo] and [CommandQueue] the queue of commands,
      [SocketTypes] and [RuntimeState] the structures, [Entries] the slot table,
      [Writes], [Connections] and [Udp] the callbacks and handlers, [Runtime] the
      loop, the polling and the public calls, [SocketInfo] the list of sockets and
      [InfoList] the linked nodes it is copied into, [RuntimeLife] creation and
      release.
    - Skynet's socket server on top of it (src/src/socket/socket_server_compat.c):
      [SocketServer], [SocketInfo] for [socket_server_info], [RuntimeLife] for
      create and release.
    - The client's connections (src/src/client/client_runtime.c): another loop on
      another thread, driven by blocking calls.  [ClientRuntime]; [ClientStart]
      for the thread itself, [ClientMonitor] for the wait for a revision.
    - The client's standard input (src/src/client/client_stdin.c): a reading
      thread, a ring of lines and the Lua side.  [ClientStdin].
    - The client's Lua module (src/src/client/client_lua.c): every function of
      client.socket, on the client's runtime and on Lua.  [ClientLua]; [Lua] is the
      interface of the C API of Lua, [Doubles] the arithmetic of its numbers.
    - The memory interface (src/src/memory/memory.c, src/include/skyuv/memory.h):
      [Memory] is the implementation for Windows, [MemoryPosix] the other one,
      [MemoryInterface] what both promise, with the allocator that Lua states get
      from it (src/src/compat/skynet/skyuv_runtime.c).
    - Atomics (src/src/platform/atomic.c, src/include/skyuv/atomic.h): [Atomic] is
      the interface, a class of laws, with the pointer and size operations built
      on it; [AtomicMsvc] and [AtomicNative] are the two implementations.  The spin
      lock of Skynet over them (src/src/compat/skynet/spinlock.h): [Spinlock]; the
      names Skynet has for them (src/src/compat/skynet/atomic.h): [AtomicCompat].
    - Clocks (src/src/platform/time.c, src/src/compat/skynet/skyuv_time.h): [Time].
    - Threads, locks, thread-local keys and dynamic libraries
      (src/src/platform/thread.c, dynamic.c): [Threads].  The names Skynet has for
      them (start/pthread.h, tls/pthread.h and dynamic/dlfcn.h of
      src/src/compat/skynet): [Threads], [PthreadNames], [Dlfcn].
    - Paths (src/src/platform/runtime_paths.c), the launcher that resolves them
      from the command line (src/src/runtime/launcher.c) and the configuration that
      completes them (src/src/runtime/config.c): [Paths], [Launcher], [Config].
    - The daemon and its pid file (src/src/platform/daemon.c): [Daemon].
    - Splitting a string in place (src/src/compat/skynet/skyuv_string.h): [Strsep].
      Functions that stand between Skynet, the client and the system, the logger
      and the request to reopen it among them: [Glue].

    A function of the source is a Rocq function of the same name, in a state monad
    over the record of its component ([M] below) where it has state.  The record has
    the fields of the C structure, an explicit heap for what is allocated, and a few
    fields that only record (buffers taken over and released, requests completed,
    what was given to [uv_write]).
    Undefined behaviour, a use of a released object, a mutex locked twice,
    [uv_close] on a closing handle, an access outside an array, an order that an
    atomic operation does not admit, is a [fault].  Results of libuv, of the
    allocators, of Lua and of the platform are parameters (the classes [Env],
    [ClientEnv], [StdinEnv], [LuaApi], [LuaHost], [ProcessHeap], [PosixHeap],
    [CreateEnv], [NodeAlloc], [StartEnv], [PlatformEnv], [DlMessages], [Clocks],
    [FileSystem], [Platform], [ConfigEnv] and those of [Glue]): the theorems hold
    for all of them, under laws that state documented behaviour ([EnvLaws],
    [ClientEnvLaws], [LuaLaws], [HostLaws], [ProcessHeapLaws], [PosixHeapLaws],
    [MkdirLaws]).  Between parts of the program the classes are [FifoLaws],
    [AtomicLaws], [ClientWait] and [MemoryContract]: clients are proved against
    them, and each implementation is an instance.  Integers are [Z] with the
    wrap-around of the C type written out where it can happen.  The daemon, whose
    correctness is a matter of files and locks, is a program over system calls on a
    model of the file system with its locks and processes.

    Concurrency is interleaving: of callbacks, polls, calls and, for the calls that
    open a socket, the stages between which the network thread can run, for the socket
    runtime ([Steps], [Opening], [Safety]), of callbacks and serialised calls for the
    client ([ClientInvariant]), of the steps of the two threads between their critical
    sections while the client starts and stops ([ClientStart]), of single calls on the
    mutex and the condition for the wait ([ClientMonitor]), of critical sections for
    standard input ([StdinLines]), of single accesses for the atomics and the spin
    lock, of single system calls for the daemons ([DaemonProtocol]).  Within one
    callback, stage or other call of the socket runtime nothing else runs: such a call
    takes what it needs under one lock and submits one command.  Other processes may
    make and remove directories before each call of the system; the laws of
    [MkdirLaws] count the removals.

    ** What is proved

    - [Invariant], [Rules], [Handled], [Slots], [Lifecycle], [Loop], [Opening],
      [Safety]: the invariant of the socket runtime and its preservation by every
      handler, callback, call and stage of a call; [SocketProperties]: it holds in
      every reachable state, callbacks fault only under one exact condition, and
      calls only when a stage finds its entry released, every buffer is accounted
      for, commands are processed, ids resolve uniquely, the exit protocol ends.
    - [RuntimeRelease]: creation gives back everything on every error path; release
      from any reachable state ends and leaves nothing.
    - [CommandQueue]: the linked list refines a list, through the interface [Fifo].
    - [SocketBehaviour], [SocketInterface]: what single handlers do on every
      branch, ownership of buffers, refusals, round trips of pausing and of
      datagram addresses.  [SocketServer], [SocketInfo]: the protocol of send
      buffers, the translation of events, the list of sockets.
    - [ClientSafety], [ClientCalls], [ClientFrame], [ClientProperties],
      [ClientSend]: the client never faults, completes every request, loses no
      byte of a stream, gives long buffers to libuv whole and ends its loop;
      [ClientStart]: its thread starts and ends without deadlock or leak;
      [ClientMonitor]: no change of the revision is missed; [ClientReady]: between
      calls a connection that is ready stays so.
    - [ClientLuaSafety], [ClientLuaSelect], [ClientLuaLoop], [ClientLuaTimes],
      [ClientLuaProperties]: every function of the Lua module, given any arguments
      (for [select] tables of at most INT_MAX entries together), runs without
      undefined behaviour and with its results on the stack; [select] reports
      exactly ready sockets, misses none of a sequence, does not report the end of
      the time early and ends; durations stay in the range of the C type and are
      rounded the way the code means.
    - [StdinLines]: the lines that are read are those of a reference definition,
      under every interleaving.  [MemoryProperties], [MemoryPosix]: alignment,
      disjointness, overflow checks, release and move, on both platforms, which keep
      one contract; where it leaves a choice, for a resize of nothing to nothing,
      they differ.
    - [AtomicNative]: both implementations of the atomics refine a variable of the
      C type, and the loop that one of them needs for a conjunction is atomic.
      [Spinlock]: exclusion and progress from the laws of the atomics alone.
    - [Time]: the value of every clock reading, exact where it fits.  [ThreadLife]:
      every object and the block it owns correspond, errors leave no trace but the
      message of a library, nothing leaks.  [PthreadNames], [Dlfcn]: the same
      through the names of Skynet, where objects are passed by value and the last
      error is one text.
    - [PathProperties], [Launcher], [Config]: installation roots, what resolving a
      path means, directories made while others are removed; the grammar of the
      command line; where roots and output files end up.
    - [DaemonProtocol], [DaemonSafety]: at most one process owns a pid file, by rely
      and guarantee.
    - [Strsep]: repeated calls split a string at every delimiter.
    - [SocketFindings] (a graceful close that strands data, ends twice or is
      announced twice, the race of opening a socket, the lost scope of a datagram's
      sender), [udp_dial_leaks_socket] of [SocketServer], [ready_overflow] of
      [ClientLuaSelect], [realtime_wraps] of [Time], [lalloc_nothing] of
      [MemoryPosix] and [dlopen_silent] of [Dlfcn]: where the code does not do what
      it means to.
    - [Scripts], [ClientWitness] and the ends of other files: concrete runs that
      instantiate the statements.

    ** Bounds

    Loops over lists recurse on the list.  Loops with fuel fail with [OutOfFuel], and
    the fuel is proved sufficient: the loops of the async callback by the length of
    the queues, [send_loop] by the number of parts, the wait of [ClientSend] by the 7
    callbacks a connection can have left, [skyuv_path_mkdir] by the length of the path
    and three, times one more than the removals of directories to come,
    [socket_info_release] by the length of the list, [strsep_all] by the length of the
    string.  For the loop of [select] with a time-out, which ends when the clock has
    passed it, [select_ends] gives the fuel from the clock; without one it waits for a
    socket and may wait for ever.  The compare and exchange loop of [fetch_and]
    recurses on what the other threads do, and is shown to return as soon as they
    leave the word alone once.  The retries of the daemon after EINTR are bounded by
    any number, and running out of them is a state from which nothing follows.  The
    number of slot bits is any value the build permits; examples use small tables.

    ** Not modelled

    NULL handles and out-parameters of the socket runtime and of the client, which
    return at once; signals on systems other than POSIX; libuv's own scheduling,
    which is left open; the order of memory accesses below mutexes and weaker than
    one order of all accesses to an atomic.  Of what is left, the registration of
    the Lua modules is data; src/src/compat/skynet/skyuv_memory.c and skyuv_daemon.c,
    signal.h and the other headers of src/src/compat/skynet/start return constants
    or call the system; lua-control.c and [localtime_r] of skyuv_runtime.c pass their
    arguments on; the example of src/examples/cmake-consumer only calls the library,
    and the other lines of headers are declarations. *)
From stdpp Require Export base gmap list strings pretty.
From Stdlib Require Export ZArith Lia.

Declare Scope skyuv_scope.
Delimit Scope skyuv_scope with skyuv.
#[global] Open Scope Z_scope.
#[global] Open Scope skyuv_scope.

(** ** Machine integers

    A [w]-bit C integer is a [Z] together with the explicit reduction the C
    conversion performs. *)

Definition uwrap (w z : Z) : Z := z mod 2 ^ w.

Definition swrap (w z : Z) : Z :=
  if uwrap w z <? 2 ^ (w - 1) then uwrap w z else uwrap w z - 2 ^ w.

Definition u8 : Z → Z := uwrap 8.
Definition u16 : Z → Z := uwrap 16.
Definition u32 : Z → Z := uwrap 32.
Definition u64 : Z → Z := uwrap 64.
Definition i32 : Z → Z := swrap 32.

Definition INT_MAX : Z := 2147483647.
Definition UINT_MAX : Z := 4294967295.
Definition SIZE_MAX : Z := 18446744073709551615.
Definition INT64_MAX : Z := 9223372036854775807.

(** ** Record update

    [r <| f := v |>] replaces the field [f] of [r], [r <| f ::= g |>] applies
    [g] to it.  Every field that is updated has a [Setter] instance, built by
    [mk_setter] from the eta expansion of the record. *)

Class Setter {R E : Type} (proj : R → E) : Type := upd_field : (E → E) → R → R.
Arguments upd_field {R E} proj {_} _ _ : assert.

Ltac mk_setter eta :=
  lazymatch goal with
  | |- @Setter ?R ?E ?proj =>
      exact (fun (f : E → E) (r : R) =>
        ltac:(let t := eval cbv beta delta [eta] in (eta r) in
              lazymatch t with
              | context C [proj r] => let t' := context C [f (proj r)] in exact t'
              end))
  end.

Notation "r '<|' proj := v '|>'" := (upd_field proj (fun _ => v) r)
  (at level 1, left associativity, proj constr at level 9) : skyuv_scope.
Notation "r '<|' proj '::=' f '|>'" := (upd_field proj f r)
  (at level 1, left associativity, proj constr at level 9) : skyuv_scope.

(** ** Faults and the state monad

    The C functions are sequences of effects on one shared structure.  [M S A]
    is a computation on a state of type [S] that returns an [A], or stops at a
    fault: an action whose behaviour C, the platform mutex or libuv leaves
    undefined.  Proving a computation fault free is proving that the code
    never performs such an action. *)

Inductive fault :=
| UseAfterFree       (** a pointer to a released object is dereferenced *)
| LockHeld           (** a non-recursive mutex is locked by its holder *)
| UnlockFree         (** a mutex is unlocked that nobody holds *)
| CloseUninitialized (** [uv_close] on a handle that was never initialised *)
| CloseClosing       (** [uv_close] on a handle that is already closing *)
| OutOfBounds        (** an array is accessed outside its bounds *)
| InvalidOrder       (** an atomic operation is given an order it does not admit *)
| StaleRequest       (** libuv calls back for a request it does not hold *)
| OutOfFuel.         (** a loop of the model ran past its bound *)

#[export] Instance fault_eq_dec : EqDecision fault.
Proof. solve_decision. Defined.

Inductive outcome (S A : Type) :=
| Ret (a : A) (s : S)
| Fault (f : fault).
Arguments Ret {S A} _ _.
Arguments Fault {S A} _.

Definition M (S A : Type) : Type := S → outcome S A.

#[export] Instance M_ret S : MRet (M S) := λ A a s, Ret a s.
#[export] Instance M_bind S : MBind (M S) := λ A B k m s,
  match m s with
  | Ret a s' => k a s'
  | Fault f => Fault f
  end.

Definition throw {S A} (f : fault) : M S A := λ _, Fault f.
Definition gets {S A} (f : S → A) : M S A := λ s, Ret (f s) s.
Definition modify {S} (f : S → S) : M S unit := λ s, Ret tt (f s).
Definition skip {S} : M S unit := mret tt.

(** [C]'s [if] without an [else]. *)
Definition whenM {S} (b : bool) (m : M S unit) : M S unit := if b then m else skip.

(** A [for] loop whose body runs once per element of a list. *)
Fixpoint forM {S A} (l : list A) (f : A → M S unit) : M S unit :=
  match l with
  | [] => skip
  | x :: l => f x ;; forM l f
  end.

(** A computation on a part of the state. *)
Definition zoom {S T A} (get : S → T) (set : T → S → S) (m : M T A) : M S A := λ s,
  match m (get s) with
  | Ret a t => Ret a (set t s)
  | Fault f => Fault f
  end.

(** The state a computation ends in, for concrete runs. *)
Definition exec {S A} (m : M S A) (s : S) : option S :=
  match m s with Ret _ s' => Some s' | Fault _ => None end.

(** [wp m Q s]: run from [s], [m] does not fault and its result and final
    state satisfy [Q]. *)
Definition wp {S A} (m : M S A) (Q : A → S → Prop) (s : S) : Prop :=
  match m s with
  | Ret a s' => Q a s'
  | Fault _ => False
  end.

(** [faults m f s]: run from [s], [m] stops at the fault [f]. *)
Definition faults {S A} (m : M S A) (f : fault) (s : S) : Prop := m s = Fault f.

(** [0; 1; ...; n-1], the values of the counter of a C [for] loop. *)
Definition counter (n : Z) : list Z := seqZ 0 n.

(** ** Lemmas shared by the components *)

Section wp_rules.
Context {S : Type}.

Lemma wp_ret {A} (a : A) (Q : A → S → Prop) s : Q a s → wp (mret a) Q s.
Proof. done. Qed.

Lemma wp_skip (Q : unit → S → Prop) s : Q tt s → wp skip Q s.
Proof. done. Qed.

Lemma wp_bind {A B} (m : M S A) (k : A → M S B) Q s :
  wp m (λ a s', wp (k a) Q s') s → wp (m ≫= k) Q s.
Proof. unfold wp, mbind, M_bind. by destruct (m s). Qed.

Lemma wp_bind_inv {A B} (m : M S A) (k : A → M S B) Q s :
  wp (m ≫= k) Q s → wp m (λ a s', wp (k a) Q s') s.
Proof. unfold wp, mbind, M_bind. by destruct (m s). Qed.

Lemma wp_gets {A} (f : S → A) (Q : A → S → Prop) s : Q (f s) s → wp (gets f) Q s.
Proof. done. Qed.

Lemma wp_modify (f : S → S) (Q : unit → S → Prop) s : Q tt (f s) → wp (modify f) Q s.
Proof. done. Qed.

Lemma wp_mono {A} (m : M S A) (P Q : A → S → Prop) s :
  wp m P s → (∀ a s', P a s' → Q a s') → wp m Q s.
Proof. unfold wp. destruct (m s); naive_solver. Qed.

Lemma wp_and {A} (m : M S A) (P Q : A → S → Prop) s :
  wp m P s → wp m Q s → wp m (λ a s', P a s' ∧ Q a s') s.
Proof. unfold wp. by destruct (m s). Qed.

Lemma wp_whenM b (m : M S unit) Q s :
  (b = true → wp m Q s) → (b = false → Q tt s) → wp (whenM b m) Q s.
Proof. intros. destruct b; [auto|apply wp_skip; auto]. Qed.

Lemma wp_Ret {A} (m : M S A) (Q : A → S → Prop) s :
  wp m Q s → ∃ a s', m s = Ret a s' ∧ Q a s'.
Proof. unfold wp. destruct (m s); naive_solver. Qed.

Lemma wp_of_Ret {A} (m : M S A) (Q : A → S → Prop) s a s' :
  m s = Ret a s' → Q a s' → wp m Q s.
Proof. unfold wp. by intros ->. Qed.

Lemma wp_zoom {T A} (get : S → T) (set : T → S → S) (m : M T A) Q s :
  wp m (λ a t, Q a (set t s)) (get s) → wp (zoom get set m) Q s.
Proof. unfold wp, zoom. by destruct (m (get s)). Qed.

Lemma bind_Ret {A B} (m : M S A) (k : A → M S B) s a s' :
  m s = Ret a s' → (m ≫= k) s = k a s'.
Proof. unfold mbind, M_bind. by intros ->. Qed.

Lemma bind_Ret_inv {A B} (m : M S A) (k : A → M S B) s b s'' :
  (m ≫= k) s = Ret b s'' → ∃ a s', m s = Ret a s' ∧ k a s' = Ret b s''.
Proof. unfold mbind, M_bind. destruct (m s); naive_solver. Qed.

(** A fault after a prefix that runs through. *)
Lemma faults_bind {A B} (m : M S A) (k : A → M S B) f s :
  wp m (λ a s', faults (k a) f s') s → faults (m ≫= k) f s.
Proof. unfold wp, faults, mbind, M_bind. by destruct (m s). Qed.

(** An invariant of the loop body is an invariant of the loop. *)
Lemma wp_forM {A} (l : list A) (f : A → M S unit) (I : S → Prop) s :
  I s → (∀ x s', x ∈ l → I s' → wp (f x) (λ _, I) s') → wp (forM l f) (λ _, I) s.
Proof.
  revert s. induction l as [|x l IH]; intros s Hs Hf; [by apply wp_skip|].
  apply wp_bind. eapply wp_mono; [apply Hf; [set_solver|done]|].
  intros [] s' Hs'. apply IH; [done|]. intros y s'' Hy. apply Hf. set_solver.
Qed.

End wp_rules.

Section integers.

Lemma uwrap_range w z : 0 ≤ w → 0 ≤ uwrap w z < 2 ^ w.
Proof. intros. apply Z.mod_pos_bound. lia. Qed.

Lemma uwrap_small w z : 0 ≤ z < 2 ^ w → uwrap w z = z.
Proof. apply Z.mod_small. Qed.

Lemma uwrap_add_l w a b : 0 ≤ w → uwrap w (uwrap w a + b) = uwrap w (a + b).
Proof. intros. unfold uwrap. rewrite Zplus_mod_idemp_l. done. Qed.

Lemma uwrap_sub_l w a b : 0 ≤ w → uwrap w (uwrap w a - b) = uwrap w (a - b).
Proof. intros. unfold uwrap. rewrite Zminus_mod_idemp_l. done. Qed.

Lemma uwrap_idemp w a : 0 ≤ w → uwrap w (uwrap w a) = uwrap w a.
Proof. intros. apply Z.mod_mod. lia. Qed.

Lemma swrap_uwrap w z : 0 ≤ w → swrap w (uwrap w z) = swrap w z.
Proof. intros. unfold swrap. by rewrite uwrap_idemp. Qed.

Lemma uwrap_swrap w z : 0 ≤ w → uwrap w (swrap w z) = uwrap w z.
Proof.
  intros. unfold swrap. case_match; [by apply uwrap_idemp|].
  rewrite uwrap_sub_l by done. unfold uwrap. rewrite Zminus_mod, Z_mod_same_full, Z.sub_0_r.
  apply Z.mod_mod. lia.
Qed.

Lemma swrap_range w z : 0 < w → -2 ^ (w - 1) ≤ swrap w z < 2 ^ (w - 1).
Proof.
  intros. unfold swrap. pose proof (uwrap_range w z ltac:(lia)).
  assert (2 ^ w = 2 * 2 ^ (w - 1)) by (rewrite <-Z.pow_succ_r by lia; f_equal; lia).
  case_match; lia.
Qed.

Lemma swrap_small w z : 0 < w → -2 ^ (w - 1) ≤ z < 2 ^ (w - 1) → swrap w z = z.
Proof.
  intros. assert (2 ^ w = 2 * 2 ^ (w - 1)) by (rewrite <-Z.pow_succ_r by lia; f_equal; lia).
  unfold swrap. destruct (decide (0 ≤ z)).
  - rewrite uwrap_small by lia. case_match; lia.
  - assert (uwrap w z = z + 2 ^ w) as ->.
    { unfold uwrap. symmetry. apply (Z.mod_unique z (2 ^ w) (-1)); lia. }
    case_match; lia.
Qed.

Lemma uwrap_land w a b : 0 ≤ w → uwrap w (Z.land a b) = Z.land (uwrap w a) (uwrap w b).
Proof.
  intros. unfold uwrap. rewrite <-!Z.land_ones by done.
  apply Z.bits_inj'. intros. rewrite !Z.land_spec.
  by destruct (Z.testbit a _), (Z.testbit b _), (Z.testbit (Z.ones w) _).
Qed.

Lemma land_signed_range w a b :
  0 ≤ w → -2 ^ w ≤ a < 2 ^ w → -2 ^ w ≤ b < 2 ^ w → -2 ^ w ≤ Z.land a b < 2 ^ w.
Proof.
  intros Hw. rewrite !Z.bounded_iff_bits by done. intros Ha Hb l Hl.
  rewrite Z.land_spec, Ha, Hb by done. rewrite <-bool_decide_and.
  apply bool_decide_ext. symmetry. apply Z.land_neg.
Qed.

Lemma i32_small z : 0 ≤ z ≤ INT_MAX → i32 z = z.
Proof.
  unfold i32, swrap, INT_MAX. intros. rewrite uwrap_small by lia.
  destruct (Z.ltb_spec z (2 ^ (32 - 1))); lia.
Qed.

End integers.

(** ** Automation

    [skyuv] collects the rules that step through a computation; [wp_step]
    applies the first one that fits. *)

Create HintDb skyuv.
#[export] Hint Resolve wp_ret wp_skip wp_gets wp_modify : skyuv.

Ltac wp_pure :=
  lazymatch goal with
  | |- wp (mret _) _ _ => apply wp_ret
  | |- wp skip _ _ => apply wp_skip
  | |- wp (mbind _ _) _ _ => apply wp_bind
  | |- wp (gets _) _ _ => apply wp_gets
  | |- wp (modify _) _ _ => apply wp_modify
  end.
