(* ===== verification/SocketId.v ===== *)
(** * Socket ids

    A socket id packs a slot number and a generation in a positive 31-bit
    integer (src/src/socket/socket_internal.c, the [skyuv_socket_id_*]
    functions).  The slot addresses the slot table, the generation tells the
    successive users of one slot apart.  The number of slot bits is a build
    constant between 1 and 16. *)
From S2P Require Import Prelude.

(** [SKYUV_SOCKET_SLOT_BITS], with the range the header enforces by [#error]. *)
Class SlotConfig := {
  SKYUV_SOCKET_SLOT_BITS : Z;
  slot_bits_range : 1 ≤ SKYUV_SOCKET_SLOT_BITS ≤ 16;
}.

(** The default build, and a build with four slots for the concrete runs. *)
Definition default_slots : SlotConfig.
Proof. refine {| SKYUV_SOCKET_SLOT_BITS := 16 |}. lia. Defined.
Definition small_slots : SlotConfig.
Proof. refine {| SKYUV_SOCKET_SLOT_BITS := 2 |}. lia. Defined.

Definition SKYUV_SOCKET_GENERATION_MAX : Z := 32767.

Inductive skyuv_socket_state :=
| SKYUV_SOCKET_STATE_INVALID
| SKYUV_SOCKET_STATE_RESERVED
| SKYUV_SOCKET_STATE_LISTEN_PENDING
| SKYUV_SOCKET_STATE_LISTENING
| SKYUV_SOCKET_STATE_CONNECTING
| SKYUV_SOCKET_STATE_ACCEPTED_PAUSED
| SKYUV_SOCKET_STATE_CONNECTED
| SKYUV_SOCKET_STATE_CONNECTED_PAUSED
| SKYUV_SOCKET_STATE_HALFCLOSE_READ
| SKYUV_SOCKET_STATE_UDP
| SKYUV_SOCKET_STATE_CLOSING.

#[export] Instance skyuv_socket_state_eq_dec : EqDecision skyuv_socket_state.
Proof. solve_decision. Defined.

Definition skyuv_socket_state_can_receive (state : skyuv_socket_state) : bool :=
  bool_decide (state = SKYUV_SOCKET_STATE_LISTENING) ||
  bool_decide (state = SKYUV_SOCKET_STATE_CONNECTED).

Definition skyuv_socket_state_is_live (state : skyuv_socket_state) : bool :=
  bool_decide (state ≠ SKYUV_SOCKET_STATE_INVALID) &&
  bool_decide (state ≠ SKYUV_SOCKET_STATE_CLOSING).

Section ids.
Context {cfg : SlotConfig}.

Definition SKYUV_SOCKET_SLOT_COUNT : Z := Z.shiftl 1 SKYUV_SOCKET_SLOT_BITS.

Definition skyuv_socket_id_slot (id : Z) : Z :=
  u16 (Z.land (u32 id) (SKYUV_SOCKET_SLOT_COUNT - 1)).

Definition skyuv_socket_id_generation (id : Z) : Z :=
  u16 (Z.land (Z.shiftr (u32 id) SKYUV_SOCKET_SLOT_BITS) SKYUV_SOCKET_GENERATION_MAX).

Definition skyuv_socket_id_next_generation (generation : Z) : Z :=
  let generation := u16 (generation + 1) in
  if (generation =? 0) || (SKYUV_SOCKET_GENERATION_MAX <? generation) then 1 else generation.

Definition skyuv_socket_id_make (slot generation : Z) : Z :=
  if (generation =? 0) || (SKYUV_SOCKET_GENERATION_MAX <? generation) then -1
  else if (SKYUV_SOCKET_SLOT_BITS <? 16) && (SKYUV_SOCKET_SLOT_COUNT <=? slot) then -1
  else i32 (Z.lor (Z.shiftl generation SKYUV_SOCKET_SLOT_BITS) slot).

(** A generation that has been handed out. *)
Definition generation_ok (g : Z) : Prop := 1 ≤ g ≤ SKYUV_SOCKET_GENERATION_MAX.

(** The generation of the [n]-th user of a slot whose current one is [g]. *)
Definition nth_generation (n : nat) (g : Z) : Z :=
  Nat.iter n skyuv_socket_id_next_generation g.

Lemma slot_count_pow : SKYUV_SOCKET_SLOT_COUNT = 2 ^ SKYUV_SOCKET_SLOT_BITS.
Proof. pose proof slot_bits_range. unfold SKYUV_SOCKET_SLOT_COUNT. rewrite Z.shiftl_mul_pow2; lia. Qed.

Lemma slot_count_range : 2 ≤ SKYUV_SOCKET_SLOT_COUNT ≤ 65536.
Proof.
  pose proof slot_bits_range as H. rewrite slot_count_pow. split.
  - change 2 with (2 ^ 1) at 1. apply Z.pow_le_mono_r; lia.
  - change 65536 with (2 ^ 16). apply Z.pow_le_mono_r; lia.
Qed.

Lemma slot_mask x : Z.land x (SKYUV_SOCKET_SLOT_COUNT - 1) = x mod SKYUV_SOCKET_SLOT_COUNT.
Proof.
  pose proof slot_bits_range. rewrite slot_count_pow.
  rewrite <- Z.land_ones by lia. f_equal. rewrite Z.ones_equiv. lia.
Qed.

Lemma id_slot_mod id : skyuv_socket_id_slot id = id mod SKYUV_SOCKET_SLOT_COUNT.
Proof.
  pose proof slot_count_range. pose proof slot_bits_range.
  unfold skyuv_socket_id_slot, u16. rewrite slot_mask.
  pose proof (Z.mod_pos_bound (u32 id) SKYUV_SOCKET_SLOT_COUNT ltac:(lia)).
  rewrite uwrap_small by lia. unfold u32, uwrap.
  rewrite slot_count_pow.
  replace (2 ^ 32) with (2 ^ SKYUV_SOCKET_SLOT_BITS * 2 ^ (32 - SKYUV_SOCKET_SLOT_BITS))
    by (rewrite <- Z.pow_add_r by lia; f_equal; lia).
  rewrite Z.rem_mul_r by lia.
  rewrite Z.mul_comm, Z_mod_plus_full. apply Z.mod_mod. lia.
Qed.

(** The slot of any [int], also of one no [id_make] produced, is an index of
    the slot table. *)
Lemma id_slot_range id : 0 ≤ skyuv_socket_id_slot id < SKYUV_SOCKET_SLOT_COUNT.
Proof.
  pose proof slot_count_range. rewrite id_slot_mod. apply Z.mod_pos_bound. lia.
Qed.

Lemma next_generation_ok g : generation_ok (skyuv_socket_id_next_generation g).
Proof.
  unfold generation_ok, skyuv_socket_id_next_generation, SKYUV_SOCKET_GENERATION_MAX.
  pose proof (uwrap_range 16 (g + 1)). unfold u16.
  destruct (Z.eqb_spec (uwrap 16 (g + 1)) 0), (Z.ltb_spec 32767 (uwrap 16 (g + 1)));
    simpl; lia.
Qed.

(** The packed integer as arithmetic. *)
Lemma id_make_eq slot g :
  0 ≤ slot < SKYUV_SOCKET_SLOT_COUNT → generation_ok g →
  skyuv_socket_id_make slot g = g * SKYUV_SOCKET_SLOT_COUNT + slot ∧
  0 < g * SKYUV_SOCKET_SLOT_COUNT + slot ≤ INT_MAX.
Proof.
  unfold generation_ok, SKYUV_SOCKET_GENERATION_MAX. intros Hs Hg.
  pose proof slot_count_range. pose proof slot_bits_range.
  assert (0 < g * SKYUV_SOCKET_SLOT_COUNT + slot ≤ INT_MAX) as Hr by (unfold INT_MAX; nia).
  split; [|done]. unfold skyuv_socket_id_make, SKYUV_SOCKET_GENERATION_MAX.
  destruct (Z.eqb_spec g 0); [lia|]. destruct (Z.ltb_spec 32767 g); [lia|]. simpl.
  destruct (Z.leb_spec SKYUV_SOCKET_SLOT_COUNT slot); [lia|].
  rewrite andb_false_r.
  assert (Z.lor (Z.shiftl g SKYUV_SOCKET_SLOT_BITS) slot = g * SKYUV_SOCKET_SLOT_COUNT + slot) as ->.
  { rewrite Z.shiftl_mul_pow2, <- slot_count_pow by lia.
    rewrite <- Z.add_lor_land.
    assert (Z.land (g * SKYUV_SOCKET_SLOT_COUNT) slot = 0) as ->; [|lia].
    apply Z.bits_inj'. intros k Hk. rewrite Z.land_spec, Z.bits_0.
    rewrite slot_count_pow. destruct (Z.ltb_spec k SKYUV_SOCKET_SLOT_BITS).
    - rewrite Z.mul_pow2_bits_low by lia. done.
    - rewrite (Z.bits_above_log2 slot); [by rewrite andb_false_r|lia|].
      destruct (decide (slot = 0)) as [->|]; [simpl; lia|].
      apply Z.log2_lt_pow2; [lia|]. rewrite slot_count_pow in Hs.
      eapply Z.lt_le_trans; [apply Hs|]. apply Z.pow_le_mono_r; lia. }
  apply i32_small. lia.
Qed.

Lemma id_slot_make slot g :
  0 ≤ slot < SKYUV_SOCKET_SLOT_COUNT → generation_ok g →
  skyuv_socket_id_slot (skyuv_socket_id_make slot g) = slot.
Proof.
  intros Hs Hg. destruct (id_make_eq slot g) as [-> _]; [done..|].
  rewrite id_slot_mod, Z.add_comm, Z_mod_plus_full. by apply Z.mod_small.
Qed.

Lemma id_generation_make slot g :
  0 ≤ slot < SKYUV_SOCKET_SLOT_COUNT → generation_ok g →
  skyuv_socket_id_generation (skyuv_socket_id_make slot g) = g.
Proof.
  intros Hs Hg. destruct (id_make_eq slot g) as [-> Hr]; [done..|].
  pose proof slot_count_range. pose proof slot_bits_range.
  unfold generation_ok, SKYUV_SOCKET_GENERATION_MAX, INT_MAX in *.
  unfold skyuv_socket_id_generation, u32, u16.
  rewrite (uwrap_small 32) by lia.
  rewrite Z.shiftr_div_pow2, <- slot_count_pow by lia.
  rewrite Z.div_add_l, (Z.div_small slot) by lia. rewrite Z.add_0_r.
  change SKYUV_SOCKET_GENERATION_MAX with (Z.ones 15).
  rewrite Z.land_ones by lia. rewrite Z.mod_small by lia. apply uwrap_small. lia.
Qed.

Lemma id_make_inj slot slot' g g' :
  0 ≤ slot < SKYUV_SOCKET_SLOT_COUNT → generation_ok g →
  0 ≤ slot' < SKYUV_SOCKET_SLOT_COUNT → generation_ok g' →
  skyuv_socket_id_make slot g = skyuv_socket_id_make slot' g' → slot = slot' ∧ g = g'.
Proof.
  intros Hs Hg Hs' Hg' Heq. split.
  - rewrite <- (id_slot_make slot g), <- (id_slot_make slot' g'); congruence.
  - rewrite <- (id_generation_make slot g), <- (id_generation_make slot' g'); congruence.
Qed.

(** The counter of generations, without the wrap-around test. *)
Lemma next_generation_mod g :
  generation_ok g → skyuv_socket_id_next_generation g = g mod SKYUV_SOCKET_GENERATION_MAX + 1.
Proof.
  unfold generation_ok, skyuv_socket_id_next_generation, SKYUV_SOCKET_GENERATION_MAX. intros Hg.
  unfold u16. rewrite uwrap_small by lia.
  destruct (Z.eqb_spec (g + 1) 0); [lia|]. destruct (Z.ltb_spec 32767 (g + 1)); simpl.
  - assert (g = 32767) as -> by lia. done.
  - rewrite Z.mod_small; lia.
Qed.

Lemma nth_generation_mod n g :
  generation_ok g →
  nth_generation n g = (g - 1 + Z.of_nat n) mod SKYUV_SOCKET_GENERATION_MAX + 1.
Proof.
  intros Hg. unfold nth_generation. induction n as [|n IH].
  - simpl. unfold generation_ok, SKYUV_SOCKET_GENERATION_MAX in *. rewrite Z.mod_small; lia.
  - rewrite Nat.iter_succ, next_generation_mod.
    + rewrite IH. rewrite Zplus_mod_idemp_l. do 2 f_equal. lia.
    + rewrite IH. unfold generation_ok, SKYUV_SOCKET_GENERATION_MAX.
      pose proof (Z.mod_pos_bound (g - 1 + Z.of_nat n) 32767 ltac:(lia)). lia.
Qed.

(** C1: packing and unpacking.  For every slot of the table and every
    generation the runtime hands out, [skyuv_socket_id_make] gives a positive
    [int] from which [skyuv_socket_id_slot] and [skyuv_socket_id_generation]
    recover the two parts, in every build (1 to 16 slot bits). *)
Theorem skyuv_socket_id_roundtrip (slot generation : Z) :
  0 ≤ slot < SKYUV_SOCKET_SLOT_COUNT →
  1 ≤ generation ≤ SKYUV_SOCKET_GENERATION_MAX →
  let id := skyuv_socket_id_make slot generation in
  0 < id ≤ INT_MAX ∧
  skyuv_socket_id_slot id = slot ∧
  skyuv_socket_id_generation id = generation.
Proof.
  intros Hs Hg id. destruct (id_make_eq slot generation Hs Hg) as [Heq Hr].
  unfold id. split; [by rewrite Heq|]. auto using id_slot_make, id_generation_make.
Qed.

(** C2: how long a stale id stays stale.  Two users of one slot that are fewer
    than 32767 reservations apart have different ids, and after exactly 32767
    reservations the first id comes back. *)
Theorem skyuv_socket_id_reuse (slot g : Z) (n m : nat) :
  0 ≤ slot < SKYUV_SOCKET_SLOT_COUNT → generation_ok g → (n ≤ m)%nat →
  (skyuv_socket_id_make slot (nth_generation n g) =
   skyuv_socket_id_make slot (nth_generation m g)
   ↔ (SKYUV_SOCKET_GENERATION_MAX | Z.of_nat m - Z.of_nat n)).
Proof.
  intros Hs Hg Hnm.
  assert (∀ k, generation_ok (nth_generation k g)) as Hok.
  { intros k. rewrite nth_generation_mod by done.
    pose proof (Z.mod_pos_bound (g - 1 + Z.of_nat k) SKYUV_SOCKET_GENERATION_MAX).
    unfold generation_ok, SKYUV_SOCKET_GENERATION_MAX in *. lia. }
  trans (nth_generation n g = nth_generation m g).
  { split; [|by intros ->]. intros Heq. by apply id_make_inj in Heq as [_ ?]. }
  rewrite !nth_generation_mod by done. rewrite <- Z.mod_divide by done.
  unfold SKYUV_SOCKET_GENERATION_MAX in *. split; intros H.
  - assert ((g - 1 + Z.of_nat n) mod 32767 = (g - 1 + Z.of_nat m) mod 32767) as H' by lia.
    replace (Z.of_nat m - Z.of_nat n)
      with ((g - 1 + Z.of_nat m) - (g - 1 + Z.of_nat n)) by lia.
    rewrite Zminus_mod, H', Z.sub_diag. done.
  - f_equal. replace (g - 1 + Z.of_nat m)
      with ((g - 1 + Z.of_nat n) + (Z.of_nat m - Z.of_nat n)) by lia.
    rewrite (Zplus_mod (g - 1 + Z.of_nat n)), H, Z.add_0_r, Z.mod_mod; lia.
Qed.

End ids.

(** The full-size table: the last slot at the last generation. *)
Lemma skyuv_socket_id_roundtrip_witness :
  let id := @skyuv_socket_id_make default_slots 65535 32767 in
  id = INT_MAX ∧ 0 < id ≤ INT_MAX ∧
  @skyuv_socket_id_slot default_slots id = 65535 ∧
  @skyuv_socket_id_generation default_slots id = 32767.
Proof.
  split; [reflexivity|].
  apply (@skyuv_socket_id_roundtrip default_slots 65535 32767);
    vm_compute; split; congruence.
Defined.

Lemma skyuv_socket_id_reuse_witness :
  @skyuv_socket_id_make small_slots 3 (nth_generation 0 5) ≠
  @skyuv_socket_id_make small_slots 3 (nth_generation 7 5).
Proof.
  intros H.
  apply (@skyuv_socket_id_reuse small_slots 3 5 0 7) in H;
    [|vm_compute; split; congruence..|lia].
  apply Z.mod_divide in H; [|done]. vm_compute in H. congruence.
Defined.
