(* ===== verification/Fifo.v ===== *)
(** * Intrusive FIFO queues

    The runtime keeps its commands, its events, the two write queues of a
    socket and the pump list in singly linked lists with a head and a tail
    pointer, the link being a field of the element
    (src/src/socket/socket_internal.c, [queue_push_locked] and
    [skyuv_socket_command_queue_pop]).  [Fifo] is what their clients rely on;
    it is discharged here once by the linked list at the level of pointers and
    once by a plain list, the form the other files compute with. *)
From S2P Require Import Prelude.

(** ** The interface *)

(** Operations of a queue of [A] kept in a state [Q]. *)
Class Fifo (Q A : Type) := {
  fifo_init : Q;
  fifo_push : A → M Q unit;
  fifo_pop : M Q (option A);
  fifo_take : M Q (list A);
}.

(** [fifo_rep q l]: the state [q] holds the elements [l], oldest first. *)
Class FifoLaws (Q A : Type) `{!Fifo Q A} := {
  fifo_rep : Q → list A → Prop;
  fifo_rep_inj q l l' : fifo_rep q l → fifo_rep q l' → l = l';
  fifo_init_rep : fifo_rep fifo_init [];
  fifo_push_rep a q l : fifo_rep q l → wp (fifo_push a) (λ _ q', fifo_rep q' (l ++ [a])) q;
  fifo_pop_rep q l : fifo_rep q l →
    wp fifo_pop (λ r q', r = head l ∧ fifo_rep q' (tail l)) q;
  fifo_take_rep q l : fifo_rep q l → wp fifo_take (λ r q', r = l ∧ fifo_rep q' []) q;
}.

(** ** Lists *)

Section list_fifo.
Context {A : Type}.

#[export] Instance list_fifo : Fifo (list A) A := {|
  fifo_init := [];
  fifo_push a := modify (λ l, l ++ [a]);
  fifo_pop := l ← gets id; modify tail;; mret (head l);
  fifo_take := l ← gets id; modify (λ _, []);; mret l;
|}.

#[export] Instance list_fifo_laws : FifoLaws (list A) A.
Proof.
  refine {| fifo_rep q l := q = l |}; unfold wp; simpl; [congruence|done|..];
    intros; by simplify_eq.
Defined.

End list_fifo.

(** ** Linked lists *)

(** An element with its link; addresses are positive numbers, [None] is NULL. *)
Record node (A : Type) := Node { node_value : A; node_next : option positive }.
Arguments Node {A} _ _.
Arguments node_value {A} _.
Arguments node_next {A} _.

(** The part of the heap that holds the nodes, and the two pointers. *)
Record linked (A : Type) := Linked {
  lq_heap : gmap positive (node A);
  lq_head : option positive;
  lq_tail : option positive;
}.
Arguments Linked {A} _ _ _.
Arguments lq_heap {A} _.
Arguments lq_head {A} _.
Arguments lq_tail {A} _.

Section linked_fifo.
Context {A : Type}.
Implicit Types (q : linked A) (p : positive) (ps : list positive) (l : list A).

Definition eta_linked q : linked A := Linked (lq_heap q) (lq_head q) (lq_tail q).
#[export] Instance set_lq_heap : Setter lq_heap := ltac:(mk_setter eta_linked).
#[export] Instance set_lq_head : Setter lq_head := ltac:(mk_setter eta_linked).
#[export] Instance set_lq_tail : Setter lq_tail := ltac:(mk_setter eta_linked).

(** [p->...], a fault when [p] is not allocated. *)
Definition load (p : positive) : M (linked A) (node A) := λ q,
  match lq_heap q !! p with Some n => Ret n q | None => Fault UseAfterFree end.

Definition store (p : positive) (n : node A) : M (linked A) unit := λ q,
  match lq_heap q !! p with
  | Some _ => Ret tt (q <| lq_heap ::= <[p := n]> |>)
  | None => Fault UseAfterFree
  end.

(** [p->next = next]. *)
Definition store_next (p : positive) (next : option positive) : M (linked A) unit :=
  n ← load p; store p (Node (node_value n) next).

Definition queue_push_locked (command : positive) : M (linked A) unit :=
  store_next command None ;;
  tail ← gets lq_tail;
  match tail with
  | None => modify (λ q, q <| lq_head := Some command |>)
  | Some tail => store_next tail (Some command)
  end ;;
  modify (λ q, q <| lq_tail := Some command |>).

Definition queue_pop_locked : M (linked A) (option positive) :=
  command ← gets lq_head;
  match command with
  | None => mret None
  | Some command =>
      n ← load command;
      modify (λ q, q <| lq_head := node_next n |>) ;;
      head ← gets lq_head;
      whenM (bool_decide (head = None)) (modify (λ q, q <| lq_tail := None |>)) ;;
      store_next command None ;;
      mret (Some command)
  end.

(** The caller allocates the element it pushes and releases the one it pops. *)
Definition fresh_node (a : A) : M (linked A) positive := λ q,
  let p := fresh (dom (lq_heap q)) in
  Ret p (q <| lq_heap ::= <[p := Node a None]> |>).

Definition free_node (p : positive) : M (linked A) A := λ q,
  match lq_heap q !! p with
  | Some n => Ret (node_value n) (q <| lq_heap ::= delete p |>)
  | None => Fault UseAfterFree
  end.

(** [while (command != NULL) { next = command->next; ...; command = next; }],
    releasing every element; the heap bounds the number of turns. *)
Fixpoint walk_nodes (fuel : nat) (command : option positive) : M (linked A) (list A) :=
  match command, fuel with
  | None, _ => mret []
  | Some _, O => throw OutOfFuel
  | Some command, S fuel =>
      n ← load command;
      a ← free_node command;
      l ← walk_nodes fuel (node_next n);
      mret (a :: l)
  end.

Definition queue_take_locked : M (linked A) (list A) :=
  command ← gets lq_head;
  modify (λ q, q <| lq_head := None |>) ;;
  modify (λ q, q <| lq_tail := None |>) ;;
  fuel ← gets (λ q, size (lq_heap q));
  walk_nodes fuel command.

#[export] Instance linked_fifo : Fifo (linked A) A := {|
  fifo_init := Linked ∅ None None;
  fifo_push a := p ← fresh_node a; queue_push_locked p;
  fifo_pop := r ← queue_pop_locked;
    match r with None => mret None | Some p => a ← free_node p; mret (Some a) end;
  fifo_take := queue_take_locked;
|}.

(** The nodes reachable from [from] are [ps], in order, and carry [l]. *)
Fixpoint chain (h : gmap positive (node A)) (from : option positive) ps l : Prop :=
  match ps, l with
  | [], [] => from = None
  | p :: ps, a :: l => from = Some p ∧ ∃ next, h !! p = Some (Node a next) ∧ chain h next ps l
  | _, _ => False
  end.

(** The queue holds [l] in the nodes [ps]; the tail pointer is the last one,
    and NULL when the list is empty. *)
Definition linked_at q ps l : Prop :=
  NoDup ps ∧ chain (lq_heap q) (lq_head q) ps l ∧ lq_tail q = last ps.

Definition linked_rep q l : Prop := ∃ ps, linked_at q ps l.

(** Changing nodes outside of a chain does not change the chain. *)
Lemma chain_frame h h' from ps l :
  (∀ p, p ∈ ps → h' !! p = h !! p) → chain h from ps l → chain h' from ps l.
Proof.
  revert from l. induction ps as [|p ps IH]; intros from [|a l] Hf; simpl; try done.
  intros [-> (next & Hp & Hc)]. split; [done|]. exists next.
  rewrite Hf by set_solver. split; [done|]. apply IH; [set_solver|done].
Qed.

(** Appending: the last node of a chain is linked to a new last node. *)
Lemma chain_snoc h from ps p l a p' b :
  NoDup (ps ++ [p]) → p' ∉ ps ++ [p] →
  chain h from (ps ++ [p]) (l ++ [a]) →
  chain (<[p := Node a (Some p')]> (<[p' := Node b None]> h)) from
    ((ps ++ [p]) ++ [p']) ((l ++ [a]) ++ [b]).
Proof.
  revert from l. induction ps as [|x ps IH]; intros from l Hnd Hp' Hc.
  - assert (l = []) as -> by (destruct l as [|? [|]]; simpl in Hc; naive_solver).
    simpl in *. destruct Hc as [-> (next & Hp & ->)]. split; [done|].
    exists (Some p'). split; [by simplify_map_eq|]. split; [done|].
    exists None. split; [|done]. apply not_elem_of_cons in Hp' as [? _]. by simplify_map_eq.
  - destruct l as [|y l]; simpl in Hc.
    { destruct Hc as [_ (next & _ & Hc)]. by destruct ps. }
    destruct Hc as [-> (next & Hx & Hc)]. simpl in *.
    apply NoDup_cons in Hnd as [Hx' Hnd]. apply not_elem_of_cons in Hp' as [? Hp'].
    split; [done|]. exists next. split.
    + rewrite lookup_insert_ne by set_solver. by rewrite lookup_insert_ne.
    + by apply IH.
Qed.

Lemma chain_last h from ps p l a :
  chain h from (ps ++ [p]) (l ++ [a]) → ∃ n, h !! p = Some (Node a n).
Proof.
  revert from l. induction ps as [|x ps IH]; intros from l Hc.
  - destruct l as [|? [|]]; simpl in Hc; naive_solver.
  - destruct l as [|y l]; simpl in Hc; [|naive_solver].
    destruct Hc as [_ (? & _ & Hc)]. by destruct ps.
Qed.

Lemma chain_length h from ps l : chain h from ps l → length ps = length l.
Proof.
  revert from l. induction ps as [|p ps IH]; intros from [|a l]; simpl; try done.
  intros [_ (next & _ & Hc)]. f_equal. eauto.
Qed.

Lemma chain_inj h from ps ps' l l' :
  chain h from ps l → chain h from ps' l' → ps = ps' ∧ l = l'.
Proof.
  revert from ps' l l'. induction ps as [|p ps IH]; intros from [|p' ps'] [|a l] [|a' l'];
    simpl; try naive_solver.
  intros [-> (n & Hp & Hc)] [? (n' & Hp' & Hc')]. simplify_eq.
  destruct (IH _ _ _ _ Hc Hc') as [-> ->]. done.
Qed.

Lemma queue_push_locked_rep q ps l p a :
  linked_at q ps l → p ∉ ps → lq_heap q !! p = Some (Node a None) →
  wp (queue_push_locked p) (λ _ q', linked_at q' (ps ++ [p]) (l ++ [a])) q.
Proof.
  intros (Hnd & Hc & Ht) Hp Ha. destruct q as [h hd tl]; simpl in *.
  assert (NoDup (ps ++ [p])) as Hnd'.
  { apply NoDup_app. split_and!; [done|set_solver|apply NoDup_singleton]. }
  unfold queue_push_locked, store_next, load, store, wp, mbind, M_bind. simpl.
  rewrite Ha. simpl. rewrite Ha. simpl. destruct tl as [t|]; simpl.
  - destruct ps as [|t' ps' _] using rev_ind; [done|].
    rewrite last_snoc in Ht. simplify_eq.
    pose proof (chain_length _ _ _ _ Hc) as Hlen.
    destruct l as [|b l' _] using rev_ind; [by rewrite length_app in Hlen; simpl in Hlen; lia|].
    destruct (chain_last _ _ _ _ _ _ Hc) as [n Htn].
    rewrite lookup_insert_ne by set_solver. rewrite Htn. simpl.
    rewrite lookup_insert_ne by set_solver. rewrite Htn. simpl.
    split_and!; [done| |by rewrite last_snoc].
    by apply chain_snoc.
  - destruct ps as [|t' ps' _] using rev_ind; [|by rewrite last_snoc in Ht].
    destruct l; [|done]. simpl in *. split_and!; [done| |done].
    split; [done|]. exists None. by simplify_map_eq.
Qed.

Lemma queue_pop_locked_rep q ps l :
  linked_at q ps l →
  wp queue_pop_locked (λ r q', r = head ps ∧ linked_at q' (tail ps) (tail l) ∧
    match ps, l with
    | p :: ps', a :: _ => p ∉ ps' ∧ lq_heap q' !! p = Some (Node a None)
    | _, _ => True
    end) q.
Proof.
  intros (Hnd & Hc & Ht). destruct q as [h hd tl]; simpl in *. unfold linked_at.
  unfold queue_pop_locked, whenM, store_next, load, store, wp, mbind, M_bind; simpl.
  destruct ps as [|p ps], l as [|a l]; simpl in Hc; try done.
  { subst hd. simpl. naive_solver. }
  destruct Hc as [-> (next & Hp & Hc)]. simpl. rewrite Hp. simpl.
  apply NoDup_cons in Hnd as [Hp' Hnd].
  destruct ps as [|p2 ps], l as [|a2 l]; simpl in Hc; try done.
  - subst next. simpl. rewrite Hp. simpl. rewrite Hp. simpl.
    split_and!; [done|apply NoDup_nil_2|done|done|done|by simplify_map_eq].
  - destruct Hc as [-> Hc]. simpl. rewrite Hp. simpl. rewrite Hp. simpl.
    split_and!; [done|done|done| |by destruct ps|done|by simplify_map_eq].
    destruct Hc as (next & Hp2 & Hc). exists next.
    rewrite lookup_insert_ne by set_solver. split; [done|].
    eapply chain_frame; [|done]. intros x Hx. rewrite lookup_insert_ne; set_solver.
Qed.

Lemma chain_dom h from ps l p : chain h from ps l → p ∈ ps → p ∈ dom h.
Proof.
  revert from l. induction ps as [|x ps IH]; [set_solver|].
  intros from [|b l]; [done|]. intros [-> (next & Hx & Hc)] [->|Hp]%elem_of_cons; [|eauto].
  by apply elem_of_dom.
Qed.

Lemma chain_size h from ps l : NoDup ps → chain h from ps l → (length ps ≤ size h)%nat.
Proof.
  intros Hnd Hc. rewrite <- size_dom.
  rewrite <- (size_list_to_set (C := gset positive) ps) by done.
  apply subseteq_size. intros p. rewrite elem_of_list_to_set. by apply (chain_dom h from ps l).
Qed.

Lemma walk_nodes_rep fuel q from ps l :
  NoDup ps → chain (lq_heap q) from ps l → (length ps ≤ fuel)%nat →
  wp (walk_nodes fuel from) (λ r q', r = l ∧ lq_head q' = lq_head q ∧ lq_tail q' = lq_tail q) q.
Proof.
  revert q from l fuel. induction ps as [|p ps IH]; intros q from [|a l] fuel Hnd Hc Hf;
    simpl in Hc; try done.
  { subst from. by destruct fuel. }
  destruct Hc as [-> (next & Hp & Hc)]. apply NoDup_cons in Hnd as [Hp' Hnd].
  simpl in Hf. destruct fuel as [|fuel]; [lia|]. simpl.
  apply wp_bind. apply (wp_of_Ret _ _ _ (Node a next) q); [by unfold load; rewrite Hp|].
  apply wp_bind. apply (wp_of_Ret _ _ _ a (q <| lq_heap ::= delete p |>));
    [by unfold free_node; rewrite Hp|].
  apply wp_bind. eapply wp_mono; [apply (IH _ _ l); [done| |lia]|].
  - simpl. eapply chain_frame; [|done]. intros x Hx. rewrite lookup_delete_ne; set_solver.
  - intros r q' (-> & ? & ?). by apply wp_ret.
Qed.

#[export] Instance linked_fifo_laws : FifoLaws (linked A) A.
Proof.
  refine {| fifo_rep := linked_rep |}.
  - intros q l l' (ps & _ & Hc & _) (ps' & _ & Hc' & _). by eapply chain_inj.
  - exists []. split_and!; [apply NoDup_nil_2|done|done].
  - intros a q l [ps Hq]. simpl. apply wp_bind. unfold fresh_node, wp at 1.
    set (p := fresh (dom (lq_heap q))).
    assert (p ∉ dom (lq_heap q)) as Hfresh by apply is_fresh.
    destruct Hq as (Hnd & Hc & Ht).
    assert (∀ x, x ∈ ps → x ≠ p) as Hne.
    { intros x Hx ->. by eapply Hfresh, chain_dom. }
    eapply wp_mono; [apply (queue_push_locked_rep _ ps l p a)|].
    + split_and!; [done| |done]. simpl. eapply chain_frame; [|done].
      intros x Hx. rewrite lookup_insert_ne; [done|]. symmetry. auto.
    + intros Hp. by eapply Hne.
    + simpl. by simplify_map_eq.
    + intros [] q' Hq'. by exists (ps ++ [p]).
  - intros q l [ps Hq]. simpl. apply wp_bind.
    eapply wp_mono; [by apply queue_pop_locked_rep|].
    intros r q' (-> & Hq' & Hn). destruct Hq as (_ & Hc & _).
    destruct ps as [|p ps], l as [|a l]; simpl in Hc; try done.
    { apply wp_ret. split; [done|]. by exists []. }
    destruct Hn as [Hp Ha]. simpl. unfold wp, mbind, M_bind, free_node. rewrite Ha. simpl.
    split; [done|]. destruct Hq' as (Hnd & Hc' & Ht). exists ps. split_and!; [done| |done].
    simpl. eapply chain_frame; [|done]. intros x Hx. rewrite lookup_delete_ne; set_solver.
  - intros q l [ps (Hnd & Hc & Ht)]. simpl. unfold queue_take_locked. repeat wp_pure. simpl.
    eapply wp_mono; [eapply walk_nodes_rep; [done|done|by eapply chain_size]|].
    intros r q' (-> & Hh' & Ht'). split; [done|]. exists []. split_and!; [apply NoDup_nil_2|..]; done.
Defined.

End linked_fifo.
