(* ===== verification/SocketTypes.v ===== *)
(** * Data of the socket runtime

    The enumerations, commands and events of src/src/socket/socket_internal.h,
    the error codes of src/include/skyuv/error.h, and libuv seen from outside:
    the constants, pure helpers and call results the runtime receives from it. *)
From S2P Require Import Prelude SocketId.

(** ** Result codes (enum skyuv_error) *)

Definition SKYUV_OK : Z := 0.
Definition SKYUV_ERROR_INVALID_ARGUMENT : Z := -1.
Definition SKYUV_ERROR_INVALID_STATE : Z := -2.
Definition SKYUV_ERROR_OUT_OF_MEMORY : Z := -3.
Definition SKYUV_ERROR_SYSTEM : Z := -4.
Definition SKYUV_ERROR_TIMEOUT : Z := -5.
Definition SKYUV_ERROR_NOT_SUPPORTED : Z := -6.

Definition SKYUV_SOCKET_WARNING_SIZE : Z := 1024 * 1024.

(** ** Memory the runtime passes around *)

(** A block of memory: its address, which identifies it, and its bytes. *)
Record buffer := Buffer { buf_ptr : positive; buf_bytes : list Z }.

#[export] Instance buffer_eq_dec : EqDecision buffer.
Proof. solve_decision. Defined.

Inductive skyuv_socket_buffer_ownership :=
| SKYUV_SOCKET_BUFFER_BORROWED
| SKYUV_SOCKET_BUFFER_OWNED.

#[export] Instance skyuv_socket_buffer_ownership_eq_dec :
  EqDecision skyuv_socket_buffer_ownership.
Proof. solve_decision. Defined.

(** ** Socket addresses

    Ports and addresses are kept as the bytes in network order that the code
    copies with [memcpy]. *)

Inductive sockaddr :=
| sockaddr_in (sin_port sin_addr : list Z)
| sockaddr_in6 (sin6_port sin6_addr : list Z) (sin6_scope_id : Z)
| sockaddr_other (sa_data : list Z).  (** another family, the bytes after it *)

#[export] Instance sockaddr_eq_dec : EqDecision sockaddr.
Proof. solve_decision. Defined.

Definition ntohs (port : list Z) : Z :=
  match port with
  | [hi; lo] => hi * 256 + lo
  | _ => 0
  end.

(** ** Commands *)

(** The [send] member of the payload union. *)
Record send_payload := SendPayload {
  send_data : option buffer;  (** NULL only for an empty datagram *)
  send_size : Z;
  send_ownership : skyuv_socket_buffer_ownership;
  send_release : option positive;  (** the release callback, NULL for [free] *)
  send_address : list Z;
  send_address_size : Z;
}.

Definition eta_send_payload (p : send_payload) : send_payload :=
  SendPayload (send_data p) (send_size p) (send_ownership p) (send_release p)
    (send_address p) (send_address_size p).
#[export] Instance set_send_ownership : Setter send_ownership :=
  ltac:(mk_setter eta_send_payload).

(** [enum skyuv_socket_command_type] with the member of the payload union
    that belongs to each type. *)
Inductive skyuv_socket_command_body :=
| SKYUV_SOCKET_COMMAND_LISTEN (host : string) (port backlog : Z)
| SKYUV_SOCKET_COMMAND_CONNECT (host : string) (port : Z)
| SKYUV_SOCKET_COMMAND_START
| SKYUV_SOCKET_COMMAND_PAUSE
| SKYUV_SOCKET_COMMAND_NODELAY
| SKYUV_SOCKET_COMMAND_SEND (send : send_payload)
| SKYUV_SOCKET_COMMAND_SEND_LOW (send : send_payload)
| SKYUV_SOCKET_COMMAND_CLOSE
| SKYUV_SOCKET_COMMAND_SHUTDOWN
| SKYUV_SOCKET_COMMAND_UDP (host : string) (port : Z)
| SKYUV_SOCKET_COMMAND_UDP_CONNECT (host : string) (port : Z)
| SKYUV_SOCKET_COMMAND_UDP_SEND (send : send_payload)
| SKYUV_SOCKET_COMMAND_BIND (fd : Z)
| SKYUV_SOCKET_COMMAND_EXIT.

Record skyuv_socket_command := Command {
  cmd_id : Z;
  cmd_opaque : Z;
  cmd_body : skyuv_socket_command_body;
}.

Definition is_exit_command (command : skyuv_socket_command) : bool :=
  match cmd_body command with SKYUV_SOCKET_COMMAND_EXIT => true | _ => false end.

(** The buffer a command will release when it is destroyed. *)
Definition command_owned (command : skyuv_socket_command) : list buffer :=
  match cmd_body command with
  | SKYUV_SOCKET_COMMAND_SEND p
  | SKYUV_SOCKET_COMMAND_SEND_LOW p
  | SKYUV_SOCKET_COMMAND_UDP_SEND p =>
      if decide (send_ownership p = SKYUV_SOCKET_BUFFER_OWNED) then option_list (send_data p) else []
  | _ => []
  end.

(** ** Events *)

Inductive skyuv_socket_event_type :=
| SKYUV_SOCKET_EVENT_DATA
| SKYUV_SOCKET_EVENT_CLOSE
| SKYUV_SOCKET_EVENT_OPEN
| SKYUV_SOCKET_EVENT_ACCEPT
| SKYUV_SOCKET_EVENT_ERROR
| SKYUV_SOCKET_EVENT_EXIT
| SKYUV_SOCKET_EVENT_UDP
| SKYUV_SOCKET_EVENT_WARNING
| SKYUV_SOCKET_EVENT_REOPEN_LOG
| SKYUV_SOCKET_EVENT_PROCESS_SHUTDOWN.

#[export] Instance skyuv_socket_event_type_eq_dec : EqDecision skyuv_socket_event_type.
Proof. solve_decision. Defined.

Record skyuv_socket_event := Event {
  ev_type : skyuv_socket_event_type;
  ev_id : Z;
  ev_opaque : Z;
  ev_value : Z;
  ev_data : option buffer;
  ev_size : Z;
}.

#[export] Instance skyuv_socket_event_eq_dec : EqDecision skyuv_socket_event.
Proof. solve_decision. Defined.

(** ** libuv

    A handle as libuv sees it. *)
Inductive uv_handle := HandleUninit | HandleActive | HandleClosing.

#[export] Instance uv_handle_eq_dec : EqDecision uv_handle.
Proof. solve_decision. Defined.

Definition uv_is_closing (h : uv_handle) : bool :=
  bool_decide (h = HandleClosing).

(** The calls that can fail, with the entry whose handle they act on. *)
Inductive uv_call :=
| uv_tcp_init (entry : positive)
| uv_tcp_bind (entry : positive) (address : sockaddr)
| uv_listen (entry : positive) (backlog : Z)
| uv_accept (server client : positive)
| uv_tcp_connect (entry : positive) (address : sockaddr)
| uv_tcp_open (entry : positive) (fd : Z)
| uv_tcp_nodelay (entry : positive)
| uv_read_start (entry : positive)
| uv_read_stop (entry : positive)
| uv_write (entry : positive) (data : option buffer) (len : Z)
| uv_udp_init (entry : positive)
| uv_udp_bind (entry : positive) (address : sockaddr)
| uv_udp_recv_start (entry : positive)
| uv_udp_send (entry : positive) (data : option buffer) (len : Z) (target : sockaddr)
| uv_signal_init (signum : Z)
| uv_signal_start (signum : Z)
| uv_async_send.

#[export] Instance uv_call_eq_dec : EqDecision uv_call.
Proof. solve_decision. Defined.

(** What the runtime receives from libuv, the allocator and the platform
    headers.  Results of calls and allocations may depend on the moment of the
    call, counted in interactions with the environment since the start. *)
Class Env := {
  UV_EOF : Z;
  UV_EINVAL : Z;
  UV_ENOTCONN : Z;
  UV_ECANCELED : Z;
  UV_ENOMEM : Z;
  UV_ENOBUFS : Z;
  UV_EDESTADDRREQ : Z;
  SIGHUP : Z;
  SIGINT : Z;
  SIGTERM : Z;
  env_alloc : nat → bool;
  env_uv : uv_call → nat → Z;
  env_getname : bool → positive → nat → Z + sockaddr;
  uv_ip4_addr : string → Z → Z + sockaddr;
  uv_ip6_addr : string → Z → Z + sockaddr;
  uv_ip_name : sockaddr → option string;
}.

(** What libuv documents of its error numbers: all negative, [UV_EOF] one of
    its own. *)
Class EnvLaws (env : Env) := {
  uv_errors_negative :
    UV_EOF < 0 ∧ UV_EINVAL < 0 ∧ UV_ENOTCONN < 0 ∧ UV_ECANCELED < 0 ∧
    UV_ENOMEM < 0 ∧ UV_ENOBUFS < 0 ∧ UV_EDESTADDRREQ < 0;
  uv_eof_distinct : UV_EOF ≠ UV_ENOBUFS;
}.

(** ** UDP address encoding

    [decode_udp_address] and the layout [udp_received] writes: a tag byte, the
    port and the address. *)
Section udp_address.
Context {env : Env}.

Definition udp_address_size (address : sockaddr) : Z :=
  match address with sockaddr_in _ _ => 7 | _ => 19 end.

Definition encode_udp_address (address : sockaddr) : list Z :=
  match address with
  | sockaddr_in port addr => 1 :: port ++ addr
  | sockaddr_in6 port addr _ => 2 :: port ++ addr
  | sockaddr_other raw => 2 :: take 2 raw ++ take 16 (drop 6 raw)
  end.

Definition decode_udp_address (encoded : option (list Z)) (size : Z) : Z + sockaddr :=
  match encoded with
  | None => inl UV_EINVAL
  | Some encoded =>
      if negb (size =? 7) && negb (size =? 19) then inl UV_EINVAL
      else if (size =? 7) && (default 0 (encoded !! 0%nat) =? 1) then
        inr (sockaddr_in (take 2 (drop 1 encoded)) (take 4 (drop 3 encoded)))
      else if (size =? 19) && (default 0 (encoded !! 0%nat) =? 2) then
        inr (sockaddr_in6 (take 2 (drop 1 encoded)) (take 16 (drop 3 encoded)) 0)
      else inl UV_EINVAL
  end.

End udp_address.
