(* ===== verification/CommandQueue.v ===== *)
(** * The command queue

    Worker threads hand commands to the network thread through one queue
    (src/src/socket/socket_internal.c, [skyuv_socket_command_queue_*]).  The
    queue is written against the [Fifo] interface, so what is proved here
    holds for the linked list of the code and for the plain list that the
    runtime model computes with. *)
From S2P Require Import Prelude SocketId Fifo SocketTypes.

(** [struct skyuv_socket_command_queue]: whether the mutex exists and is held,
    the linked commands, and whether pushes are accepted. *)
Record command_queue (Q : Type) := CommandQueue {
  cq_mutex : bool;
  cq_locked : bool;
  cq_items : Q;
  cq_accepting : bool;
}.
Arguments CommandQueue {Q} _ _ _ _.
Arguments cq_mutex {Q} _.
Arguments cq_locked {Q} _.
Arguments cq_items {Q} _.
Arguments cq_accepting {Q} _.

Section setters.
Context {Q : Type}.

Definition eta_command_queue (q : command_queue Q) : command_queue Q :=
  CommandQueue (cq_mutex q) (cq_locked q) (cq_items q) (cq_accepting q).
#[export] Instance set_cq_mutex : Setter cq_mutex := ltac:(mk_setter eta_command_queue).
#[export] Instance set_cq_locked : Setter cq_locked := ltac:(mk_setter eta_command_queue).
#[export] Instance set_cq_items : Setter cq_items := ltac:(mk_setter eta_command_queue).
#[export] Instance set_cq_accepting : Setter cq_accepting := ltac:(mk_setter eta_command_queue).

End setters.

(** What [skyuv_socket_command_destroy] passes to the release callback or to
    [free], apart from the command itself and its host string. *)
Definition skyuv_socket_command_destroy (command : skyuv_socket_command) : list buffer :=
  match cmd_body command with
  | SKYUV_SOCKET_COMMAND_SEND p
  | SKYUV_SOCKET_COMMAND_SEND_LOW p
  | SKYUV_SOCKET_COMMAND_UDP_SEND p =>
      match send_ownership p with
      | SKYUV_SOCKET_BUFFER_OWNED => option_list (send_data p)
      | SKYUV_SOCKET_BUFFER_BORROWED => []
      end
  | _ => []
  end.

Section queue.
Context {Q : Type} `{!Fifo Q skyuv_socket_command}.

Definition cq_lock : M (command_queue Q) unit := λ q,
  if cq_locked q then Fault LockHeld else Ret tt (q <| cq_locked := true |>).

Definition cq_unlock : M (command_queue Q) unit := λ q,
  if cq_locked q then Ret tt (q <| cq_locked := false |>) else Fault UnlockFree.

Definition on_items {A} (m : M Q A) : M (command_queue Q) A :=
  zoom cq_items (λ t q, q <| cq_items := t |>) m.

(** [mutex_init] is the result of [skyuv_mutex_init]. *)
Definition skyuv_socket_command_queue_init (mutex_init : Z) : M (command_queue Q) Z :=
  modify (λ _, CommandQueue false false fifo_init false) ;;
  if negb (mutex_init =? SKYUV_OK) then mret mutex_init
  else
    modify (λ q, q <| cq_mutex := true |>) ;;
    modify (λ q, q <| cq_accepting := true |>) ;;
    mret SKYUV_OK.

Definition skyuv_socket_command_queue_push (command : option skyuv_socket_command) :
    M (command_queue Q) Z :=
  mutex ← gets cq_mutex;
  match command with
  | Some command =>
      if negb mutex then mret SKYUV_ERROR_INVALID_ARGUMENT
      else
        cq_lock ;;
        accepting ← gets cq_accepting;
        result ← (if negb accepting || is_exit_command command
                  then mret SKYUV_ERROR_INVALID_STATE
                  else on_items (fifo_push command) ;; mret SKYUV_OK);
        cq_unlock ;;
        mret result
  | None => mret SKYUV_ERROR_INVALID_ARGUMENT
  end.

Definition skyuv_socket_command_queue_stop (exit_command : option skyuv_socket_command) :
    M (command_queue Q) Z :=
  mutex ← gets cq_mutex;
  match exit_command with
  | Some exit_command =>
      if negb mutex || negb (is_exit_command exit_command)
      then mret SKYUV_ERROR_INVALID_ARGUMENT
      else
        cq_lock ;;
        accepting ← gets cq_accepting;
        result ← (if negb accepting
                  then mret SKYUV_ERROR_INVALID_STATE
                  else modify (λ q, q <| cq_accepting := false |>) ;;
                       on_items (fifo_push exit_command) ;;
                       mret SKYUV_OK);
        cq_unlock ;;
        mret result
  | None => mret SKYUV_ERROR_INVALID_ARGUMENT
  end.

Definition skyuv_socket_command_queue_pop : M (command_queue Q) (option skyuv_socket_command) :=
  mutex ← gets cq_mutex;
  if negb mutex then mret None
  else
    cq_lock ;;
    command ← on_items fifo_pop;
    cq_unlock ;;
    mret command.

(** The buffers released by the destruction of the remaining commands. *)
Definition skyuv_socket_command_queue_destroy : M (command_queue Q) (list buffer) :=
  mutex ← gets cq_mutex;
  if negb mutex then mret []
  else
    cq_lock ;;
    modify (λ q, q <| cq_accepting := false |>) ;;
    commands ← on_items fifo_take;
    cq_unlock ;;
    modify (λ q, q <| cq_mutex := false |>) ;;
    mret (concat (map skyuv_socket_command_destroy commands)).

(** ** Histories of a queue *)

Inductive queue_op :=
| OpPush (command : skyuv_socket_command)
| OpStop (command : skyuv_socket_command)
| OpPop.

(** One operation, with what it accepted and what it delivered. *)
Definition queue_op_run (op : queue_op) :
    M (command_queue Q) (list skyuv_socket_command * list skyuv_socket_command) :=
  match op with
  | OpPush c =>
      r ← skyuv_socket_command_queue_push (Some c);
      mret (if r =? SKYUV_OK then [c] else [], [])
  | OpStop c =>
      r ← skyuv_socket_command_queue_stop (Some c);
      mret (if r =? SKYUV_OK then [c] else [], [])
  | OpPop =>
      r ← skyuv_socket_command_queue_pop;
      mret ([], option_list r)
  end.

Fixpoint queue_ops_run (ops : list queue_op) :
    M (command_queue Q) (list skyuv_socket_command * list skyuv_socket_command) :=
  match ops with
  | [] => mret ([], [])
  | op :: ops =>
      '(a, d) ← queue_op_run op;
      '(a', d') ← queue_ops_run ops;
      mret (a ++ a', d ++ d')
  end.

Lemma command_destroy_owned c : skyuv_socket_command_destroy c = command_owned c.
Proof.
  unfold skyuv_socket_command_destroy, command_owned.
  destruct (cmd_body c); try done; by destruct (send_ownership send).
Qed.

Section laws.
Context `{!FifoLaws Q skyuv_socket_command}.

(** A live queue between two operations, holding [l]. *)
Definition queue_holds (q : command_queue Q) (l : list skyuv_socket_command) : Prop :=
  cq_mutex q = true ∧ cq_locked q = false ∧ fifo_rep (cq_items q) l.

Lemma queue_init_holds q :
  wp (skyuv_socket_command_queue_init SKYUV_OK)
    (λ r q', r = SKYUV_OK ∧ queue_holds q' [] ∧ cq_accepting q' = true) q.
Proof. unfold wp. simpl. split_and!; try done. split_and!; try done. apply fifo_init_rep. Qed.

Lemma on_items_push c q l :
  fifo_rep (cq_items q) l →
  wp (on_items (fifo_push c)) (λ _ q', ∃ t, q' = q <| cq_items := t |> ∧ fifo_rep t (l ++ [c])) q.
Proof.
  intros Hl. apply wp_zoom. eapply wp_mono; [by apply fifo_push_rep|]. intros [] t Ht. eauto.
Qed.

Lemma queue_push_holds c q l :
  queue_holds q l →
  wp (skyuv_socket_command_queue_push (Some c)) (λ r q',
    cq_accepting q' = cq_accepting q ∧
    if cq_accepting q && negb (is_exit_command c)
    then r = SKYUV_OK ∧ queue_holds q' (l ++ [c])
    else r = SKYUV_ERROR_INVALID_STATE ∧ q' = q) q.
Proof.
  intros (Hm & Hk & Hl). destruct q as [mx lk it ac]; simpl in *; subst.
  unfold skyuv_socket_command_queue_push. repeat wp_pure. simpl.
  apply wp_bind. apply (wp_of_Ret _ _ _ tt (CommandQueue true true it ac)); [done|].
  repeat wp_pure. simpl. destruct ac, (is_exit_command c); simpl; try done.
  apply wp_bind. eapply wp_mono; [by apply (on_items_push c _ l)|].
  intros [] q' (t & -> & Ht). repeat wp_pure. by unfold wp.
Qed.

Lemma queue_stop_holds c q l :
  queue_holds q l →
  wp (skyuv_socket_command_queue_stop (Some c)) (λ r q',
    if is_exit_command c
    then if cq_accepting q
         then r = SKYUV_OK ∧ cq_accepting q' = false ∧ queue_holds q' (l ++ [c])
         else r = SKYUV_ERROR_INVALID_STATE ∧ q' = q
    else r = SKYUV_ERROR_INVALID_ARGUMENT ∧ q' = q) q.
Proof.
  intros (Hm & Hk & Hl). destruct q as [mx lk it ac]; simpl in *; subst.
  unfold skyuv_socket_command_queue_stop. repeat wp_pure. simpl.
  destruct (is_exit_command c); simpl; [|done].
  apply wp_bind. apply (wp_of_Ret _ _ _ tt (CommandQueue true true it ac)); [done|].
  repeat wp_pure. simpl. destruct ac; simpl; [|done].
  repeat wp_pure. eapply wp_mono; [by apply (on_items_push c _ l)|].
  intros [] q' (t & -> & Ht). repeat wp_pure. by unfold wp.
Qed.

Lemma queue_pop_holds q l :
  queue_holds q l →
  wp skyuv_socket_command_queue_pop (λ r q',
    r = head l ∧ queue_holds q' (tail l) ∧ cq_accepting q' = cq_accepting q) q.
Proof.
  intros (Hm & Hk & Hl). destruct q as [mx lk it ac]; simpl in *; subst.
  unfold skyuv_socket_command_queue_pop. repeat wp_pure. simpl.
  apply wp_bind. apply (wp_of_Ret _ _ _ tt (CommandQueue true true it ac)); [done|].
  apply wp_bind, wp_zoom. eapply wp_mono; [by apply fifo_pop_rep|].
  intros r t [-> Ht]. by unfold wp.
Qed.

Lemma queue_destroy_releases q l :
  queue_holds q l →
  wp skyuv_socket_command_queue_destroy (λ r q',
    r = concat (map command_owned l) ∧ cq_mutex q' = false ∧ fifo_rep (cq_items q') []) q.
Proof.
  intros (Hm & Hk & Hl). destruct q as [mx lk it ac]; simpl in *; subst.
  unfold skyuv_socket_command_queue_destroy. repeat wp_pure. simpl.
  apply wp_bind. apply (wp_of_Ret _ _ _ tt (CommandQueue true true it ac)); [done|].
  repeat wp_pure. apply wp_zoom. eapply wp_mono; [by apply fifo_take_rep|].
  intros r t [-> Ht]. unfold wp. simpl. split_and!; [|done|done].
  f_equal. apply list_fmap_ext. intros _ c _. apply command_destroy_owned.
Qed.

(** The commands that a queue in state [q] can still be given before its exit
    command: any number of ordinary ones while it accepts, none afterwards. *)
Definition accepted_ok (accepting : bool) (a : list skyuv_socket_command) (still : bool) : Prop :=
  if accepting then
    if still then Forall (λ c, is_exit_command c = false) a
    else ∃ a' c, a = a' ++ [c] ∧ Forall (λ c, is_exit_command c = false) a' ∧ is_exit_command c = true
  else a = [] ∧ still = false.

Lemma queue_op_run_spec op q l :
  queue_holds q l →
  wp (queue_op_run op) (λ r q', ∃ l', queue_holds q' l' ∧ l ++ r.1 = r.2 ++ l' ∧
    accepted_ok (cq_accepting q) r.1 (cq_accepting q')) q.
Proof.
  intros Hq. destruct op as [c|c|]; simpl; apply wp_bind.
  - eapply wp_mono; [by apply queue_push_holds|]. intros r q' [Ha Hr]. apply wp_ret.
    unfold accepted_ok. rewrite Ha.
    destruct (cq_accepting q) eqn:?, (is_exit_command c) eqn:?; simpl in Hr;
      destruct Hr as [-> Hr]; simpl; try subst q'.
    + exists l. rewrite app_nil_r. auto.
    + exists (l ++ [c]). auto.
    + exists l. rewrite app_nil_r. auto.
    + exists l. rewrite app_nil_r. auto.
  - eapply wp_mono; [by apply queue_stop_holds|]. intros r q' Hr. apply wp_ret.
    unfold accepted_ok.
    destruct (is_exit_command c) eqn:?; [destruct (cq_accepting q) eqn:Hac|]; simpl in Hr.
    + destruct Hr as (-> & -> & Hr). exists (l ++ [c]). split_and!; [done|done|].
      exists [], c. auto.
    + destruct Hr as (-> & ->). rewrite Hac. exists l. rewrite app_nil_r. auto.
    + destruct Hr as (-> & ->). exists l. rewrite app_nil_r.
      by destruct (cq_accepting q).
  - eapply wp_mono; [by apply queue_pop_holds|]. intros r q' (-> & Hr & Ha). apply wp_ret.
    unfold accepted_ok. rewrite Ha. exists (tail l). split_and!; [done| |].
    + rewrite app_nil_r. by destruct l.
    + by destruct (cq_accepting q).
Qed.

Lemma accepted_ok_app b a b' a' b'' :
  accepted_ok b a b' → accepted_ok b' a' b'' → accepted_ok b (a ++ a') b''.
Proof.
  unfold accepted_ok. destruct b, b', b''; intros H1 H2; try naive_solver.
  - by apply Forall_app.
  - destruct H2 as (x & c & -> & Hx & Hc). exists (a ++ x), c. rewrite app_assoc.
    split_and!; [done|by apply Forall_app|done].
  - destruct H2 as [-> _]. by rewrite app_nil_r.
Qed.

(** C3: the queue loses, reorders and invents nothing.  Over any sequence of
    pushes, stops and pops, the delivered commands followed by those still
    queued are exactly the accepted ones in the order of acceptance; the exit
    command is accepted at most once and nothing is accepted after it.  Proved
    for every implementation of [Fifo]. *)
Theorem command_queue_history (ops : list queue_op) (q : command_queue Q)
    (l : list skyuv_socket_command) :
  queue_holds q l →
  wp (queue_ops_run ops) (λ r q', ∃ l', queue_holds q' l' ∧ l ++ r.1 = r.2 ++ l' ∧
    accepted_ok (cq_accepting q) r.1 (cq_accepting q')) q.
Proof.
  revert q l. induction ops as [|op ops IH]; intros q l Hq; simpl.
  - apply wp_ret. exists l. rewrite app_nil_r. split_and!; [done|done|].
    unfold accepted_ok. by destruct (cq_accepting q).
  - apply wp_bind. eapply wp_mono; [by apply queue_op_run_spec|].
    intros [a d] q1 (l1 & Hq1 & Hl1 & Ha1). apply wp_bind.
    eapply wp_mono; [by apply (IH _ l1)|]. intros [a' d'] q2 (l2 & Hq2 & Hl2 & Ha2).
    apply wp_ret. exists l2. simpl in *. split_and!; [done| |by eapply accepted_ok_app].
    rewrite app_assoc, Hl1, <- app_assoc, Hl2. by rewrite app_assoc.
Qed.

End laws.
End queue.

(** ** The two instances *)

Definition plain_queue : Type := command_queue (list skyuv_socket_command).
Definition pointer_queue : Type := command_queue (linked skyuv_socket_command).

(** Both queues between two operations, holding the same commands. *)
Definition queues_agree (c : pointer_queue) (a : plain_queue) : Prop :=
  queue_holds c (cq_items a) ∧ queue_holds a (cq_items a) ∧ cq_accepting c = cq_accepting a.

Lemma plain_queue_holds (a : plain_queue) l : queue_holds a l → cq_items a = l.
Proof. by intros (_ & _ & ?). Qed.

Lemma queues_agree_intro (c : pointer_queue) (a : plain_queue) l :
  queue_holds c l → queue_holds a l → cq_accepting c = cq_accepting a → queues_agree c a.
Proof. intros Hc Ha Hac. pose proof (plain_queue_holds _ _ Ha) as Hl. subst l. done. Qed.

Lemma pointer_queue_op_refines op c a :
  queues_agree c a →
  ∃ r c' a', queue_op_run op c = Ret r c' ∧ queue_op_run op a = Ret r a' ∧ queues_agree c' a'.
Proof.
  intros Hag. pose proof Hag as (Hc & Ha & Hac).
  destruct op as [x|x|]; simpl; unfold mbind, M_bind.
  - destruct (wp_Ret _ _ _ (queue_push_holds x c _ Hc)) as (r & c' & -> & Hac' & Hr).
    destruct (wp_Ret _ _ _ (queue_push_holds x a _ Ha)) as (r' & a' & -> & Hac'' & Hr').
    rewrite Hac in Hr. destruct (_ && _); destruct Hr as [-> Hr], Hr' as [-> Hr']; simpl.
    + do 3 eexists. split_and!; [done|done|]. eapply queues_agree_intro; [done|done|congruence].
    + subst. eauto 10.
  - destruct (wp_Ret _ _ _ (queue_stop_holds x c _ Hc)) as (r & c' & -> & Hr).
    destruct (wp_Ret _ _ _ (queue_stop_holds x a _ Ha)) as (r' & a' & -> & Hr').
    rewrite Hac in Hr. destruct (is_exit_command x); [destruct (cq_accepting a) eqn:E|].
    + destruct Hr as (-> & ? & Hr), Hr' as (-> & ? & Hr').
      do 3 eexists. split_and!; [done|done|]. eapply queues_agree_intro; [done|done|congruence].
    + destruct Hr as (-> & ->), Hr' as (-> & ->). eauto 10.
    + destruct Hr as (-> & ->), Hr' as (-> & ->). eauto 10.
  - destruct (wp_Ret _ _ _ (queue_pop_holds c _ Hc)) as (r & c' & -> & -> & Hr & Hac').
    destruct (wp_Ret _ _ _ (queue_pop_holds a _ Ha)) as (r' & a' & -> & -> & Hr' & Hac'').
    do 3 eexists. split_and!; [done|done|]. eapply queues_agree_intro; [done|done|congruence].
Qed.

(** C7 C4: refinement.  The queue of the code, a linked list with a head and a
    tail pointer, implements the queue of the model, a plain list: started in
    states that hold the same commands, both return the same values for every
    sequence of operations, neither dereferences a dangling pointer nor
    mismatches a lock, and they end holding the same commands. *)
Theorem pointer_queue_refines (ops : list queue_op) (c : pointer_queue) (a : plain_queue) :
  queues_agree c a →
  ∃ r c' a', queue_ops_run ops c = Ret r c' ∧ queue_ops_run ops a = Ret r a' ∧
    queues_agree c' a'.
Proof.
  revert c a. induction ops as [|op ops IH]; intros c a Hag.
  { simpl. by exists ([], []), c, a. }
  destruct (pointer_queue_op_refines op c a Hag) as ([x y] & c1 & a1 & Hr1 & Hr1' & Hag1).
  destruct (IH c1 a1 Hag1) as ([x' y'] & c2 & a2 & Hr2 & Hr2' & ?).
  simpl. unfold mbind, M_bind. rewrite Hr1, Hr1', Hr2, Hr2'. simpl. eauto 10.
Qed.

Definition ex_nodelay (id : Z) : skyuv_socket_command :=
  Command id 0 SKYUV_SOCKET_COMMAND_NODELAY.
Definition ex_exit : skyuv_socket_command := Command 0 0 SKYUV_SOCKET_COMMAND_EXIT.
Definition ex_ops : list queue_op :=
  [OpPush (ex_nodelay 1); OpPush (ex_nodelay 2); OpPop; OpStop ex_exit;
   OpPush (ex_nodelay 3); OpPop; OpPop; OpPop].

Definition ex_pointer_queue : pointer_queue := CommandQueue true false fifo_init true.
Definition ex_plain_queue : plain_queue := CommandQueue true false fifo_init true.

Lemma command_queue_history_witness :
  wp (queue_ops_run ex_ops) (λ r q', ∃ l', queue_holds q' l' ∧ [] ++ r.1 = r.2 ++ l' ∧
    accepted_ok true r.1 (cq_accepting q')) ex_pointer_queue.
Proof.
  apply (command_queue_history ex_ops ex_pointer_queue []).
  split_and!; [reflexivity|reflexivity|apply fifo_init_rep].
Defined.

Lemma pointer_queue_refines_witness :
  ∃ r c' a', queue_ops_run ex_ops ex_pointer_queue = Ret r c' ∧
    queue_ops_run ex_ops ex_plain_queue = Ret r a' ∧ queues_agree c' a'.
Proof.
  apply (pointer_queue_refines ex_ops ex_pointer_queue ex_plain_queue).
  split_and!; [|split_and!; reflexivity|reflexivity].
  split_and!; [reflexivity|reflexivity|apply fifo_init_rep].
Defined.
