(* ===== verification/RuntimeState.v ===== *)
(** * State of the socket runtime

    [struct skyuv_socket_entry], [struct skyuv_socket_write] and
    [struct skyuv_socket_runtime] of src/src/socket/socket_internal.c, and the
    elementary actions the functions of that file are composed of: locking,
    dereferencing an entry, allocating, calling libuv, posting an event. *)
From S2P Require Import Prelude SocketId Fifo SocketTypes CommandQueue.

(** ** Data *)

(** [struct skyuv_socket_write] and [struct skyuv_udp_write]; the entry they
    point back to is the one whose queue holds them. *)
Record skyuv_socket_write := Write {
  wr_data : option buffer;
  wr_size : Z;
  wr_release : option positive;
}.

#[export] Instance skyuv_socket_write_eq_dec : EqDecision skyuv_socket_write.
Proof. solve_decision. Defined.

(** [struct skyuv_socket_entry].  The linked write queues are lists.  The last
    group is what libuv holds for the entry: requests not yet called back. *)
Record skyuv_socket_entry := Entry {
  e_tcp : uv_handle;
  e_udp : uv_handle;
  e_state : skyuv_socket_state;
  e_id : Z;
  e_external_fd : Z;
  e_opaque : Z;
  e_initialized : bool;
  e_is_udp : bool;
  e_udp_target : sockaddr;
  e_has_udp_target : bool;
  e_high : list skyuv_socket_write;
  e_low : list skyuv_socket_write;
  e_writing : bool;
  e_queued_bytes : Z;
  e_warn_size : Z;
  e_pump_pending : bool;
  e_read_bytes : Z;
  e_write_bytes : Z;
  e_read_time : Z;
  e_write_time : Z;
  e_accept_count : Z;
  e_reading : bool;
  e_close_requested : bool;
  e_name : string;
  e_connecting : bool;                     (** a [uv_tcp_connect] is pending *)
  e_inflight : option skyuv_socket_write;  (** the pending [uv_write] *)
  e_udp_inflight : list skyuv_socket_write (** the pending [uv_udp_send]s *)
}.

Definition eta_entry (e : skyuv_socket_entry) : skyuv_socket_entry :=
  Entry (e_tcp e) (e_udp e) (e_state e) (e_id e) (e_external_fd e) (e_opaque e)
    (e_initialized e) (e_is_udp e) (e_udp_target e) (e_has_udp_target e) (e_high e) (e_low e)
    (e_writing e) (e_queued_bytes e) (e_warn_size e) (e_pump_pending e) (e_read_bytes e)
    (e_write_bytes e) (e_read_time e) (e_write_time e) (e_accept_count e) (e_reading e)
    (e_close_requested e) (e_name e) (e_connecting e) (e_inflight e) (e_udp_inflight e).
#[export] Instance set_e_tcp : Setter e_tcp := ltac:(mk_setter eta_entry).
#[export] Instance set_e_udp : Setter e_udp := ltac:(mk_setter eta_entry).
#[export] Instance set_e_state : Setter e_state := ltac:(mk_setter eta_entry).
#[export] Instance set_e_id : Setter e_id := ltac:(mk_setter eta_entry).
#[export] Instance set_e_external_fd : Setter e_external_fd := ltac:(mk_setter eta_entry).
#[export] Instance set_e_opaque : Setter e_opaque := ltac:(mk_setter eta_entry).
#[export] Instance set_e_initialized : Setter e_initialized := ltac:(mk_setter eta_entry).
#[export] Instance set_e_is_udp : Setter e_is_udp := ltac:(mk_setter eta_entry).
#[export] Instance set_e_udp_target : Setter e_udp_target := ltac:(mk_setter eta_entry).
#[export] Instance set_e_has_udp_target : Setter e_has_udp_target := ltac:(mk_setter eta_entry).
#[export] Instance set_e_high : Setter e_high := ltac:(mk_setter eta_entry).
#[export] Instance set_e_low : Setter e_low := ltac:(mk_setter eta_entry).
#[export] Instance set_e_writing : Setter e_writing := ltac:(mk_setter eta_entry).
#[export] Instance set_e_queued_bytes : Setter e_queued_bytes := ltac:(mk_setter eta_entry).
#[export] Instance set_e_warn_size : Setter e_warn_size := ltac:(mk_setter eta_entry).
#[export] Instance set_e_pump_pending : Setter e_pump_pending := ltac:(mk_setter eta_entry).
#[export] Instance set_e_read_bytes : Setter e_read_bytes := ltac:(mk_setter eta_entry).
#[export] Instance set_e_write_bytes : Setter e_write_bytes := ltac:(mk_setter eta_entry).
#[export] Instance set_e_read_time : Setter e_read_time := ltac:(mk_setter eta_entry).
#[export] Instance set_e_write_time : Setter e_write_time := ltac:(mk_setter eta_entry).
#[export] Instance set_e_accept_count : Setter e_accept_count := ltac:(mk_setter eta_entry).
#[export] Instance set_e_reading : Setter e_reading := ltac:(mk_setter eta_entry).
#[export] Instance set_e_close_requested : Setter e_close_requested := ltac:(mk_setter eta_entry).
#[export] Instance set_e_name : Setter e_name := ltac:(mk_setter eta_entry).
#[export] Instance set_e_connecting : Setter e_connecting := ltac:(mk_setter eta_entry).
#[export] Instance set_e_inflight : Setter e_inflight := ltac:(mk_setter eta_entry).
#[export] Instance set_e_udp_inflight : Setter e_udp_inflight := ltac:(mk_setter eta_entry).

(** The memory [calloc] returns. *)
Definition zero_entry : skyuv_socket_entry :=
  Entry HandleUninit HandleUninit SKYUV_SOCKET_STATE_INVALID 0 0 0 false false
    (sockaddr_other []) false [] [] false 0 0 false 0 0 0 0 0 false false ""
    false None [].

(** One of the three signal watchers: its [..._initialized] flag and handle. *)
Record signal_watcher := SignalWatcher { sw_initialized : bool; sw_handle : uv_handle }.

Definition eta_signal_watcher (w : signal_watcher) : signal_watcher :=
  SignalWatcher (sw_initialized w) (sw_handle w).
#[export] Instance set_sw_initialized : Setter sw_initialized := ltac:(mk_setter eta_signal_watcher).
#[export] Instance set_sw_handle : Setter sw_handle := ltac:(mk_setter eta_signal_watcher).

(** [struct skyuv_socket_runtime], with the heap of entries it points into.
    The last group is not in the struct: the wake-up libuv owes the async
    handle, the calls made to libuv, and the account of buffers: those the
    runtime took over, those it released and those it handed to its caller. *)
Record skyuv_socket_runtime := Runtime {
  rt_entries : gmap positive skyuv_socket_entry;
  rt_slots : gmap Z positive;
  rt_generations : gmap Z Z;
  rt_next_slot : Z;
  rt_entry_count : Z;
  rt_slots_locked : bool;
  rt_commands : plain_queue;
  rt_events : list skyuv_socket_event;
  rt_pump : list positive;
  rt_async : uv_handle;
  rt_hangup : signal_watcher;
  rt_interrupt : signal_watcher;
  rt_termination : signal_watcher;
  rt_process_signals_initialized : bool;
  rt_process_signals_failed : bool;
  rt_process_shutdown_requested : Z;
  rt_exiting : bool;
  rt_exit_ready : bool;
  rt_current_time : Z;
  rt_async_pending : bool;
  rt_clock : nat;
  rt_next_ptr : positive;
  rt_uv_calls : list uv_call;
  rt_taken : list buffer;
  rt_freed : list buffer;
  rt_delivered : list buffer;
}.

Definition eta_runtime (s : skyuv_socket_runtime) : skyuv_socket_runtime :=
  Runtime (rt_entries s) (rt_slots s) (rt_generations s) (rt_next_slot s) (rt_entry_count s)
    (rt_slots_locked s) (rt_commands s) (rt_events s) (rt_pump s) (rt_async s) (rt_hangup s)
    (rt_interrupt s) (rt_termination s) (rt_process_signals_initialized s)
    (rt_process_signals_failed s) (rt_process_shutdown_requested s) (rt_exiting s)
    (rt_exit_ready s) (rt_current_time s) (rt_async_pending s) (rt_clock s) (rt_next_ptr s)
    (rt_uv_calls s) (rt_taken s) (rt_freed s) (rt_delivered s).
#[export] Instance set_rt_entries : Setter rt_entries := ltac:(mk_setter eta_runtime).
#[export] Instance set_rt_slots : Setter rt_slots := ltac:(mk_setter eta_runtime).
#[export] Instance set_rt_generations : Setter rt_generations := ltac:(mk_setter eta_runtime).
#[export] Instance set_rt_next_slot : Setter rt_next_slot := ltac:(mk_setter eta_runtime).
#[export] Instance set_rt_entry_count : Setter rt_entry_count := ltac:(mk_setter eta_runtime).
#[export] Instance set_rt_slots_locked : Setter rt_slots_locked := ltac:(mk_setter eta_runtime).
#[export] Instance set_rt_commands : Setter rt_commands := ltac:(mk_setter eta_runtime).
#[export] Instance set_rt_events : Setter rt_events := ltac:(mk_setter eta_runtime).
#[export] Instance set_rt_pump : Setter rt_pump := ltac:(mk_setter eta_runtime).
#[export] Instance set_rt_async : Setter rt_async := ltac:(mk_setter eta_runtime).
#[export] Instance set_rt_hangup : Setter rt_hangup := ltac:(mk_setter eta_runtime).
#[export] Instance set_rt_interrupt : Setter rt_interrupt := ltac:(mk_setter eta_runtime).
#[export] Instance set_rt_termination : Setter rt_termination := ltac:(mk_setter eta_runtime).
#[export] Instance set_rt_process_signals_initialized :
  Setter rt_process_signals_initialized := ltac:(mk_setter eta_runtime).
#[export] Instance set_rt_process_signals_failed :
  Setter rt_process_signals_failed := ltac:(mk_setter eta_runtime).
#[export] Instance set_rt_process_shutdown_requested :
  Setter rt_process_shutdown_requested := ltac:(mk_setter eta_runtime).
#[export] Instance set_rt_exiting : Setter rt_exiting := ltac:(mk_setter eta_runtime).
#[export] Instance set_rt_exit_ready : Setter rt_exit_ready := ltac:(mk_setter eta_runtime).
#[export] Instance set_rt_current_time : Setter rt_current_time := ltac:(mk_setter eta_runtime).
#[export] Instance set_rt_async_pending : Setter rt_async_pending := ltac:(mk_setter eta_runtime).
#[export] Instance set_rt_clock : Setter rt_clock := ltac:(mk_setter eta_runtime).
#[export] Instance set_rt_next_ptr : Setter rt_next_ptr := ltac:(mk_setter eta_runtime).
#[export] Instance set_rt_uv_calls : Setter rt_uv_calls := ltac:(mk_setter eta_runtime).
#[export] Instance set_rt_taken : Setter rt_taken := ltac:(mk_setter eta_runtime).
#[export] Instance set_rt_freed : Setter rt_freed := ltac:(mk_setter eta_runtime).
#[export] Instance set_rt_delivered : Setter rt_delivered := ltac:(mk_setter eta_runtime).

Notation R := (M skyuv_socket_runtime).

(** ** Elementary actions *)

Section actions.
Context {env : Env}.

(** [calloc]/[malloc]: whether the allocation succeeds. *)
Definition alloc : R bool := λ s,
  Ret (env_alloc (rt_clock s)) (s <| rt_clock ::= S |>).

(** A libuv call that returns a result code. *)
Definition uv (call : uv_call) : R Z := λ s,
  Ret (env_uv call (rt_clock s))
    (s <| rt_clock ::= S |> <| rt_uv_calls ::= λ l, l ++ [call] |>).

(** An address no live object has. *)
Definition new_ptr : R positive := λ s,
  Ret (rt_next_ptr s) (s <| rt_next_ptr ::= Pos.succ |>).

(** [malloc] of a block the runtime fills itself. *)
Definition new_buffer (bytes : list Z) : R (option buffer) :=
  ok ← alloc;
  if ok : bool then
    p ← new_ptr;
    modify (λ s, s <| rt_taken ::= λ l, l ++ [Buffer p bytes] |>) ;;
    mret (Some (Buffer p bytes))
  else mret None.

(** [free(data)] or [release(data)]. *)
Definition release_buffer (b : buffer) : R unit :=
  modify (λ s, s <| rt_freed ::= λ l, l ++ [b] |>).

(** The same on a pointer that may be NULL. *)
Definition free_buffer (b : option buffer) : R unit :=
  match b with Some b => release_buffer b | None => skip end.

Definition slots_lock : R unit := λ s,
  if rt_slots_locked s then Fault LockHeld else Ret tt (s <| rt_slots_locked := true |>).

Definition slots_unlock : R unit := λ s,
  if rt_slots_locked s then Ret tt (s <| rt_slots_locked := false |>) else Fault UnlockFree.

(** [entry->...]. *)
Definition deref (p : positive) : R skyuv_socket_entry := λ s,
  match rt_entries s !! p with Some e => Ret e s | None => Fault UseAfterFree end.

(** An assignment to fields of [*entry]. *)
Definition assign (p : positive) (f : skyuv_socket_entry → skyuv_socket_entry) : R unit := λ s,
  match rt_entries s !! p with
  | Some e => Ret tt (s <| rt_entries ::= <[p := f e]> |>)
  | None => Fault UseAfterFree
  end.

(** The assignment under the slots mutex. *)
Definition assign_locked (p : positive) (f : skyuv_socket_entry → skyuv_socket_entry) : R unit :=
  slots_lock ;; assign p f ;; slots_unlock.

(** The same with the runtime's [current_time] read under the lock. *)
Definition assign_timed (p : positive) (f : Z → skyuv_socket_entry → skyuv_socket_entry) :
    R unit :=
  slots_lock ;; now ← gets rt_current_time; assign p (f now) ;; slots_unlock.

(** [free(entry)]. *)
Definition free_entry (p : positive) : R unit := λ s,
  match rt_entries s !! p with
  | Some e => Ret tt (s <| rt_entries ::= delete p |>)
  | None => Fault UseAfterFree
  end.

(** The state of a handle after [uv_close]; closing twice is an assertion
    failure in libuv. *)
Definition uv_close_handle (h : uv_handle) : fault + uv_handle :=
  match h with
  | HandleUninit => inl CloseUninitialized
  | HandleClosing => inl CloseClosing
  | HandleActive => inr HandleClosing
  end.

(** [uv_close((uv_handle_t * )&entry->tcp, close_entry)]. *)
Definition uv_close_tcp (p : positive) : R unit :=
  e ← deref p;
  match uv_close_handle (e_tcp e) with
  | inl f => throw f
  | inr h => assign p (λ e, e <| e_tcp := h |>)
  end.

Definition uv_close_udp (p : positive) : R unit :=
  e ← deref p;
  match uv_close_handle (e_udp e) with
  | inl f => throw f
  | inr h => assign p (λ e, e <| e_udp := h |>)
  end.

(** The handle [entry_handle] selects. *)
Definition entry_handle (e : skyuv_socket_entry) : uv_handle :=
  if e_is_udp e then e_udp e else e_tcp e.

(** [uv_close(entry_handle(entry), close_entry)]. *)
Definition uv_close_entry (p : positive) : R unit :=
  e ← deref p;
  if e_is_udp e then uv_close_udp p else uv_close_tcp p.

(** Appending to the list of events; the node is allocated first, and an event
    that finds no memory is dropped. *)
Definition append_event (event : skyuv_socket_event) : R unit :=
  modify (λ s, s <| rt_events ::= λ l, l ++ [event] |>).

Definition push_event (type : skyuv_socket_event_type) (id opaque value : Z) : R unit :=
  ok ← alloc;
  if negb ok then skip
  else append_event (Event type id opaque value None 0).

Definition entry_state (p : positive) : R skyuv_socket_state :=
  slots_lock ;;
  e ← deref p;
  slots_unlock ;;
  mret (e_state e).

Definition set_entry_state (p : positive) (state : skyuv_socket_state) : R unit :=
  assign_locked p (λ e, e <| e_state := state |>).

End actions.
