(* ===== verification/Entries.v ===== *)
(** * The slot table and the end of an entry

    Reserving a slot, resolving an id, and the ways an entry leaves the table
    (src/src/socket/socket_internal.c, [find_entry] to [finish_entry]). *)
From S2P Require Import Prelude SocketId Fifo SocketTypes CommandQueue RuntimeState.

Section entries.
Context {cfg : SlotConfig} {env : Env}.

(** ** Operations *)

Definition update_exit_ready : R unit :=
  slots_lock ;;
  ready ← gets (λ s, rt_exiting s && (rt_entry_count s =? 0));
  slots_unlock ;;
  whenM ready (modify (λ s, s <| rt_exit_ready := true |>)).

Definition find_entry (id : Z) : R (option positive) :=
  let slot := skyuv_socket_id_slot id in
  entry ← gets (λ s, rt_slots s !! slot);
  match entry with
  | None => mret None
  | Some p =>
      e ← deref p;
      if negb (e_id e =? id) then mret None else mret (Some p)
  end.

(** The body of the search loop for the free slot it stops at: [slot] is free
    and an entry is allocated for it. *)
Definition claim_slot (slot opaque : Z) : R (Z * option positive) :=
  ok ← alloc;
  if negb ok then
    slots_unlock ;;
    mret (SKYUV_ERROR_OUT_OF_MEMORY, None)
  else
    p ← new_ptr;
    modify (λ s, s <| rt_entries ::= <[p := zero_entry]> |>) ;;
    modify (λ s, s <| rt_generations ::=
      λ g, <[slot := skyuv_socket_id_next_generation (default 0 (g !! slot))]> g |>) ;;
    assign p (λ e, e <| e_state := SKYUV_SOCKET_STATE_RESERVED |>) ;;
    g ← gets (λ s, default 0 (rt_generations s !! slot));
    assign p (λ e, e <| e_id := skyuv_socket_id_make slot g |>) ;;
    assign p (λ e, e <| e_external_fd := -1 |>) ;;
    assign p (λ e, e <| e_opaque := opaque |>) ;;
    modify (λ s, s <| rt_slots ::= <[slot := p]> |>) ;;
    modify (λ s, s <| rt_entry_count ::= λ n, u32 (n + 1) |>) ;;
    slots_unlock ;;
    mret (SKYUV_OK, Some p).

(** [for (checked = 0; checked < SKYUV_SOCKET_SLOT_COUNT; ++checked)], [n]
    turns before the end. *)
Fixpoint reserve_search (n : nat) (opaque : Z) : R (Z * option positive) :=
  match n with
  | O => slots_unlock ;; mret (SKYUV_ERROR_OUT_OF_MEMORY, None)
  | S n =>
      next ← gets rt_next_slot;
      modify (λ s, s <| rt_next_slot := u32 (next + 1) |>) ;;
      let slot := u16 (Z.land next (SKYUV_SOCKET_SLOT_COUNT - 1)) in
      entry ← gets (λ s, rt_slots s !! slot);
      match entry with
      | Some _ => reserve_search n opaque
      | None => claim_slot slot opaque
      end
  end.

Definition reserve_entry (opaque : Z) : R (Z * option positive) :=
  slots_lock ;;
  reserve_search (Z.to_nat SKYUV_SOCKET_SLOT_COUNT) opaque.

Definition release_write (write : skyuv_socket_write) : R unit :=
  free_buffer (wr_data write).

(** [while ((write = entry->high_head) != NULL)], releasing the whole queue. *)
Fixpoint release_writes (writes : list skyuv_socket_write) : R unit :=
  match writes with
  | [] => skip
  | write :: writes => release_write write ;; release_writes writes
  end.

(** The slot of an entry is cleared if it is still that entry's. *)
Definition clear_slot (p : positive) : R unit :=
  e ← deref p;
  let slot := skyuv_socket_id_slot (e_id e) in
  slots_lock ;;
  current ← gets (λ s, rt_slots s !! slot);
  whenM (bool_decide (current = Some p))
    (modify (λ s, s <| rt_slots ::= delete slot |>) ;;
     modify (λ s, s <| rt_entry_count ::= λ n, u32 (n - 1) |>)) ;;
  slots_unlock.

Definition close_entry (p : positive) : R unit :=
  e ← deref p;
  release_writes (e_high e) ;;
  assign p (λ e, e <| e_high := [] |>) ;;
  release_writes (e_low e) ;;
  assign p (λ e, e <| e_low := [] |>) ;;
  clear_slot p ;;
  free_entry p ;;
  update_exit_ready.

Definition discard_uninitialized_entry (p : positive) : R unit :=
  clear_slot p ;;
  free_entry p ;;
  update_exit_ready.

Definition close_after_writes (p : positive) : R unit :=
  e ← deref p;
  if negb (e_close_requested e) || e_writing e ||
     negb (bool_decide (e_high e = [])) || negb (bool_decide (e_low e = []))
  then skip
  else
    set_entry_state p SKYUV_SOCKET_STATE_CLOSING ;;
    uv_close_tcp p.

Definition reject_entry (p : positive) (error : Z) : R unit :=
  e ← deref p;
  push_event SKYUV_SOCKET_EVENT_ERROR (e_id e) (e_opaque e) error ;;
  set_entry_state p SKYUV_SOCKET_STATE_CLOSING ;;
  uv_close_entry p.

Definition finish_entry (p : positive) (type : skyuv_socket_event_type) (value : Z) : R unit :=
  state ← entry_state p;
  if decide (state = SKYUV_SOCKET_STATE_CLOSING) then skip
  else
    e ← deref p;
    push_event type (e_id e) (e_opaque e) value ;;
    set_entry_state p SKYUV_SOCKET_STATE_CLOSING ;;
    uv_close_entry p.

(** The entry a command names, if it is in [state]. *)
Definition find_in_state (id : Z) (state : skyuv_socket_state) : R (option positive) :=
  found ← find_entry id;
  match found with
  | None => mret None
  | Some p =>
      current ← entry_state p;
      mret (if decide (current = state) then Some p else None)
  end.

(** An ERROR event for an entry whose handle does not exist yet, and its end. *)
Definition fail_uninitialized (p : positive) (error : Z) : R unit :=
  e ← deref p;
  push_event SKYUV_SOCKET_EVENT_ERROR (e_id e) (e_opaque e) error ;;
  discard_uninitialized_entry p.

End entries.
