(* ===== verification/Invariant.v ===== *)
(** * The invariant of the socket runtime

    What holds of the runtime whenever the network thread is between two
    callbacks, or between two commands of [consume_commands]: the slot table
    and the heap of entries describe each other, every entry is in a coherent
    phase of its life, and the write queues agree with their counters.  A
    second, separate account follows every buffer the runtime takes over. *)
From S2P Require Import Prelude SocketId Fifo SocketTypes CommandQueue RuntimeState Entries.

(** ** Buffers *)

(** How often [b] occurs in [l]. *)
Fixpoint mentions (b : buffer) (l : list buffer) : Z :=
  match l with
  | [] => 0
  | x :: l => (if decide (x = b) then 1 else 0) + mentions b l
  end.

Definition writes_buffers (l : list skyuv_socket_write) : list buffer :=
  concat (map (λ w, option_list (wr_data w)) l).

(** The buffers an entry is responsible for. *)
Definition entry_buffers (e : skyuv_socket_entry) : list buffer :=
  writes_buffers (e_high e) ++ writes_buffers (e_low e) ++
  writes_buffers (option_list (e_inflight e)) ++ writes_buffers (e_udp_inflight e).

Definition entries_mentions (b : buffer) (m : gmap positive skyuv_socket_entry) : Z :=
  map_fold (λ _ e acc, mentions b (entry_buffers e) + acc) 0 m.

Definition events_buffers (l : list skyuv_socket_event) : list buffer :=
  concat (map (λ ev, option_list (ev_data ev)) l).

Definition commands_buffers (l : list skyuv_socket_command) : list buffer :=
  concat (map command_owned l).

(** The places a buffer can be in, minus the times it was taken over.  Zero
    for every buffer: each one taken over is in exactly one place. *)
Definition balance (b : buffer) (s : skyuv_socket_runtime) : Z :=
  mentions b (commands_buffers (cq_items (rt_commands s))) +
  entries_mentions b (rt_entries s) +
  mentions b (events_buffers (rt_events s)) +
  mentions b (rt_freed s) + mentions b (rt_delivered s) - mentions b (rt_taken s).

(** ** Entries *)

(** States of a TCP socket that may hold writes. *)
Definition writable_state (state : skyuv_socket_state) : bool :=
  match state with
  | SKYUV_SOCKET_STATE_CONNECTED | SKYUV_SOCKET_STATE_CONNECTED_PAUSED
  | SKYUV_SOCKET_STATE_HALFCLOSE_READ | SKYUV_SOCKET_STATE_CLOSING => true
  | _ => false
  end.

(** The handles of an entry in each state.  INVALID and LISTEN_PENDING are
    never seen between two commands. *)
Definition phase_ok (e : skyuv_socket_entry) : Prop :=
  match e_state e with
  | SKYUV_SOCKET_STATE_INVALID | SKYUV_SOCKET_STATE_LISTEN_PENDING => False
  | SKYUV_SOCKET_STATE_RESERVED =>
      e_initialized e = false ∧ e_is_udp e = false ∧
      e_tcp e = HandleUninit ∧ e_udp e = HandleUninit
  | SKYUV_SOCKET_STATE_UDP =>
      e_initialized e = true ∧ e_is_udp e = true ∧
      e_tcp e = HandleUninit ∧ e_udp e = HandleActive
  | SKYUV_SOCKET_STATE_CLOSING =>
      e_initialized e = true ∧
      if e_is_udp e then e_tcp e = HandleUninit ∧ e_udp e = HandleClosing
      else e_tcp e = HandleClosing ∧ e_udp e = HandleUninit
  | _ =>
      e_initialized e = true ∧ e_is_udp e = false ∧
      e_tcp e = HandleActive ∧ e_udp e = HandleUninit
  end.

Definition writes_size (l : list skyuv_socket_write) : Z :=
  foldr (λ w n, wr_size w + n) 0 l.

(** The bytes accepted and not yet completed. *)
Definition pending_size (e : skyuv_socket_entry) : Z :=
  writes_size (e_high e) + writes_size (e_low e) + writes_size (option_list (e_inflight e)).

(** What holds of an entry at any point of the write path. *)
Record entry_core (e : skyuv_socket_entry) : Prop := EntryCore {
  eo_phase : phase_ok e;
  eo_writing : e_writing e = bool_decide (is_Some (e_inflight e));
  eo_queued : e_queued_bytes e = u64 (pending_size e);
  eo_no_writes : writable_state (e_state e) && negb (e_is_udp e) = false →
    e_high e = [] ∧ e_low e = [] ∧ e_inflight e = None;
  eo_no_udp : e_is_udp e = false → e_udp_inflight e = [];
  eo_connecting : e_connecting e = true →
    e_state e = SKYUV_SOCKET_STATE_CONNECTING ∨ e_state e = SKYUV_SOCKET_STATE_CLOSING;
  eo_reading : e_reading e = true →
    e_state e = SKYUV_SOCKET_STATE_CONNECTED ∨ e_state e = SKYUV_SOCKET_STATE_CLOSING;
  eo_close_requested : e_close_requested e = true →
    writable_state (e_state e) && negb (e_is_udp e) = true;
  eo_pump : e_pump_pending e = true → writable_state (e_state e) && negb (e_is_udp e) = true;
}.

(** Between two steps, moreover, queued data is being written, about to be, or
    the socket is ending. *)
Record entry_ok (e : skyuv_socket_entry) : Prop := EntryOk {
  eo_core : entry_core e;
  eo_progress : e_high e ≠ [] ∨ e_low e ≠ [] →
    e_writing e = true ∨ e_pump_pending e = true ∨
    e_close_requested e = true ∨ e_state e = SKYUV_SOCKET_STATE_CLOSING;
}.

(** ** The table *)

(** The part of the runtime the table invariant is about. *)
Record table := Table {
  t_entries : gmap positive skyuv_socket_entry;
  t_slots : gmap Z positive;
  t_generations : gmap Z Z;
  t_count : Z;
  t_next_ptr : positive;
  t_pump : list positive;
}.

Definition table_of (s : skyuv_socket_runtime) : table :=
  Table (rt_entries s) (rt_slots s) (rt_generations s) (rt_entry_count s) (rt_next_ptr s)
    (rt_pump s).

Section invariant.
Context {cfg : SlotConfig}.

(** The entry at [p] sits in the slot its id names, under the generation that
    slot has. *)
Definition seated (t : table) (p : positive) (e : skyuv_socket_entry) : Prop :=
  let slot := skyuv_socket_id_slot (e_id e) in
  t_slots t !! slot = Some p ∧
  ∃ g, t_generations t !! slot = Some g ∧ generation_ok g ∧
       e_id e = skyuv_socket_id_make slot g.

Record table_ok (t : table) : Prop := TableOk {
  to_entry p e : t_entries t !! p = Some e → seated t p e ∧ entry_ok e ∧ (p < t_next_ptr t)%positive;
  to_slot i p : t_slots t !! i = Some p →
    ∃ e, t_entries t !! p = Some e ∧ skyuv_socket_id_slot (e_id e) = i;
  to_count : t_count t = Z.of_nat (size (t_slots t));
  to_pump_nodup : NoDup (t_pump t);
  to_pump p : p ∈ t_pump t ↔ ∃ e, t_entries t !! p = Some e ∧ e_pump_pending e = true;
}.

Definition queue_idle (q : plain_queue) : Prop := cq_mutex q = true ∧ cq_locked q = false.

Record Inv (s : skyuv_socket_runtime) : Prop := MkInv {
  inv_unlocked : rt_slots_locked s = false;
  inv_queue : queue_idle (rt_commands s);
  inv_table : table_ok (table_of s);
}.

(** ** Lemmas on buffers *)

Lemma mentions_app b l l' : mentions b (l ++ l') = mentions b l + mentions b l'.
Proof. induction l as [|x l IH]; simpl; lia. Qed.

Lemma mentions_nonneg b l : 0 ≤ mentions b l.
Proof. induction l as [|x l IH]; simpl; [done|]. destruct (decide _); lia. Qed.

Lemma writes_buffers_app l l' : writes_buffers (l ++ l') = writes_buffers l ++ writes_buffers l'.
Proof. unfold writes_buffers. by rewrite map_app, concat_app. Qed.

Lemma events_buffers_app l l' : events_buffers (l ++ l') = events_buffers l ++ events_buffers l'.
Proof. unfold events_buffers. by rewrite map_app, concat_app. Qed.

Lemma commands_buffers_app l l' :
  commands_buffers (l ++ l') = commands_buffers l ++ commands_buffers l'.
Proof. unfold commands_buffers. by rewrite map_app, concat_app. Qed.

Lemma entries_mentions_delete b m p e :
  m !! p = Some e →
  entries_mentions b m = mentions b (entry_buffers e) + entries_mentions b (delete p m).
Proof.
  intros Hp. unfold entries_mentions.
  rewrite (map_fold_delete_L (λ _ e acc, mentions b (entry_buffers e) + acc) 0 p e m); [done| |done].
  intros. lia.
Qed.

Lemma entries_mentions_insert_None b m p e :
  m !! p = None →
  entries_mentions b (<[p := e]> m) = mentions b (entry_buffers e) + entries_mentions b m.
Proof.
  intros Hp. rewrite (entries_mentions_delete _ _ p e) by apply lookup_insert_eq.
  by rewrite delete_insert_id.
Qed.

Lemma entries_mentions_insert b m p e e' :
  m !! p = Some e →
  entries_mentions b (<[p := e']> m) =
  entries_mentions b m - mentions b (entry_buffers e) + mentions b (entry_buffers e').
Proof.
  intros Hp. rewrite (entries_mentions_delete _ (<[p := e']> m) p e') by apply lookup_insert_eq.
  rewrite (entries_mentions_delete _ m p e Hp), delete_insert_eq. lia.
Qed.

Lemma writes_size_app l l' : writes_size (l ++ l') = writes_size l + writes_size l'.
Proof. unfold writes_size. induction l as [|w l IH]; simpl; lia. Qed.

(** ** Lemmas on the table *)

Lemma seated_range t p e : seated t p e → 0 < e_id e ≤ INT_MAX.
Proof.
  intros (_ & g & _ & Hg & ->).
  destruct (id_make_eq (skyuv_socket_id_slot (e_id e)) g) as [-> ?]; [|done|done].
  apply id_slot_range.
Qed.

(** Replacing an entry by one with the same id and the same place in the pump. *)
Lemma table_ok_update m sl g n x x' pu p e e' :
  table_ok (Table m sl g n x pu) → m !! p = Some e →
  entry_ok e' → e_id e' = e_id e → e_pump_pending e' = e_pump_pending e → (x ≤ x')%positive →
  table_ok (Table (<[p := e']> m) sl g n x' pu).
Proof.
  intros [He Hs Hn Hnd Hpu] Hp Hok Hid Hpp Hx. split; simpl in *.
  - intros q f Hq. destruct (decide (p = q)) as [<-|].
    + simplify_map_eq. destruct (He p e Hp) as (Hse & _ & ?). unfold seated in *. simpl in *.
      rewrite Hid. split_and!; [apply Hse|apply Hse|done|lia].
    + simplify_map_eq. destruct (He q f Hq) as (? & ? & ?). split_and!; [done|done|lia].
  - intros i q Hq. destruct (Hs i q Hq) as (f & Hf & ?). destruct (decide (p = q)) as [<-|].
    + simplify_map_eq. exists e'. by rewrite Hid.
    + exists f. by simplify_map_eq.
  - done.
  - done.
  - intros q. rewrite Hpu. destruct (decide (p = q)) as [<-|]; simplify_map_eq; [|done].
    naive_solver.
Qed.

Lemma table_ok_count_pos t p e :
  table_ok t → t_entries t !! p = Some e → 1 ≤ t_count t ≤ 65536.
Proof.
  intros [He Hs Hn _ _] Hp. rewrite Hn.
  destruct (He p e Hp) as ((Hsl & _) & _ & _). split.
  - assert (size (t_slots t) ≠ 0%nat); [|lia].
    rewrite map_size_ne_0_lookup. eauto.
  - assert (dom (t_slots t) ⊆ list_to_set (counter SKYUV_SOCKET_SLOT_COUNT)) as Hd.
    { intros i [q Hq]%elem_of_dom. destruct (Hs i q Hq) as (f & _ & <-).
      apply elem_of_list_to_set, elem_of_seqZ. pose proof (id_slot_range (e_id f)). lia. }
    apply subseteq_size in Hd. rewrite size_dom in Hd.
    rewrite size_list_to_set in Hd by apply NoDup_seqZ.
    unfold counter in Hd. rewrite length_seqZ in Hd.
    pose proof slot_count_range. lia.
Qed.

(** Removing an entry that is not in the pump, with its slot. *)
Lemma table_ok_remove m sl g n x pu p e :
  table_ok (Table m sl g n x pu) → m !! p = Some e → e_pump_pending e = false →
  table_ok (Table (delete p m) (delete (skyuv_socket_id_slot (e_id e)) sl) g (u32 (n - 1)) x pu).
Proof.
  intros Ht Hp Hpp. pose proof (table_ok_count_pos _ _ _ Ht Hp) as Hn1.
  destruct Ht as [He Hs Hn Hnd Hpu]. simpl in *.
  destruct (He p e Hp) as ((Hsl & Hg) & Hok & Hlt). simpl in *. split; simpl.
  - intros q f [Hne Hq]%lookup_delete_Some. destruct (He q f Hq) as ((Hsl' & Hg') & ? & ?).
    split_and!; [|done|done]. split; simpl in *; [|done].
    rewrite lookup_delete_ne; [done|]. congruence.
  - intros i q [Hne Hq]%lookup_delete_Some. destruct (Hs i q Hq) as (f & Hf & Hi).
    exists f. split; [|done]. rewrite lookup_delete_ne; [done|]. congruence.
  - rewrite map_size_delete_Some by eauto. unfold u32. rewrite uwrap_small; lia.
  - done.
  - intros q. rewrite Hpu. split; intros (f & Hf & Hfp); exists f.
    + split; [|done]. rewrite lookup_delete_ne; [done|]. intros <-. congruence.
    + by apply lookup_delete_Some in Hf as [_ ?].
Qed.

(** A new entry in a free slot, under the next generation of the slot. *)
Lemma table_ok_claim m sl g n x pu slot e :
  table_ok (Table m sl g n x pu) → 0 ≤ slot < SKYUV_SOCKET_SLOT_COUNT → sl !! slot = None →
  let gen := skyuv_socket_id_next_generation (default 0 (g !! slot)) in
  e_id e = skyuv_socket_id_make slot gen → entry_ok e → e_pump_pending e = false →
  table_ok (Table (<[x := e]> m) (<[slot := x]> sl) (<[slot := gen]> g) (u32 (n + 1))
    (Pos.succ x) pu).
Proof.
  intros [He Hs Hn Hnd Hpu] Hr Hfree gen Hid Hok Hpp. simpl in *.
  assert (generation_ok gen) as Hgen by apply next_generation_ok.
  assert (skyuv_socket_id_slot (e_id e) = slot) as Hslot by by rewrite Hid, id_slot_make.
  assert (m !! x = None) as Hx.
  { destruct (m !! x) as [f|] eqn:Hf; [|done]. destruct (He x f Hf) as (_ & _ & ?). lia. }
  split; simpl.
  - intros q f Hq. destruct (decide (x = q)) as [<-|Hne].
    + rewrite lookup_insert_eq in Hq. injection Hq as <-. split_and!; [|done|lia].
      split; simpl; rewrite Hslot, lookup_insert_eq; [done|]. by exists gen.
    + rewrite lookup_insert_ne in Hq by done.
      destruct (He q f Hq) as ((Hsl & Hg) & ? & ?). simpl in *.
      assert (slot ≠ skyuv_socket_id_slot (e_id f)) by congruence.
      split_and!; [|done|lia]. split; simpl; by rewrite lookup_insert_ne.
  - intros i q Hq. destruct (decide (slot = i)) as [<-|Hne].
    { rewrite lookup_insert_eq in Hq. injection Hq as <-. exists e. by simplify_map_eq. }
    rewrite lookup_insert_ne in Hq by done. destruct (Hs i q Hq) as (f & Hf & ?). exists f. split; [|done].
    rewrite lookup_insert_ne; [done|]. congruence.
  - rewrite map_size_insert_None by done. rewrite Hn. unfold u32. rewrite uwrap_small; [lia|].
    assert (Z.of_nat (size sl) ≤ 65536); [|lia].
    destruct (decide (sl = ∅)) as [->|Hne]; [by rewrite map_size_empty|].
    apply map_choose in Hne as (i & q & Hq). destruct (Hs i q Hq) as (f & Hf & _).
    rewrite <- Hn. by apply (table_ok_count_pos (Table m sl g n x pu) q f).
  - done.
  - intros q. rewrite Hpu. split; intros (f & Hf & Hfp).
    + exists f. rewrite lookup_insert_ne; [done|congruence].
    + apply lookup_insert_Some in Hf as [[<- <-]|[? Hf]]; [congruence|eauto].
Qed.

(** Entering and leaving the pump. *)
Lemma table_ok_pump_push m sl g n x pu p e e' :
  table_ok (Table m sl g n x pu) → m !! p = Some e →
  e_pump_pending e = false → e_pump_pending e' = true → e_id e' = e_id e → entry_ok e' →
  table_ok (Table (<[p := e']> m) sl g n x (pu ++ [p])).
Proof.
  intros [He Hs Hn Hnd Hpu] Hp Hpp Hpp' Hid Hok. split; simpl in *.
  - intros q f Hq. destruct (decide (p = q)) as [<-|]; simplify_map_eq; [|eauto].
    destruct (He p e Hp) as (Hse & _ & ?). unfold seated in *. simpl in *.
    rewrite Hid. split_and!; [apply Hse|apply Hse|done|done].
  - intros i q Hq. destruct (Hs i q Hq) as (f & Hf & ?). destruct (decide (p = q)) as [<-|].
    + simplify_map_eq. exists e'. by rewrite Hid.
    + exists f. by simplify_map_eq.
  - done.
  - apply NoDup_app. split_and!; [done| |apply NoDup_singleton].
    intros q Hq ->%list_elem_of_singleton. apply Hpu in Hq as (f & ? & ?). congruence.
  - intros q. rewrite elem_of_app, list_elem_of_singleton, Hpu. split.
    + intros [(f & Hf & Hfp)| ->]; [|exists e'; by simplify_map_eq].
      exists f. rewrite lookup_insert_ne; [done|congruence].
    + intros (f & [[<- <-]|[? Hf]]%lookup_insert_Some & Hfp); [by right|left; eauto].
Qed.

Lemma table_ok_pump_pop m sl g n x pu p e e' :
  table_ok (Table m sl g n x (p :: pu)) → m !! p = Some e →
  e_pump_pending e' = false → e_id e' = e_id e → entry_ok e' →
  table_ok (Table (<[p := e']> m) sl g n x pu).
Proof.
  intros [He Hs Hn Hnd Hpu] Hp Hpp' Hid Hok. simpl in *. apply NoDup_cons in Hnd as [Hnp Hnd].
  split; simpl.
  - intros q f Hq. destruct (decide (p = q)) as [<-|]; simplify_map_eq; [|eauto].
    destruct (He p e Hp) as (Hse & _ & ?). unfold seated in *. simpl in *.
    rewrite Hid. split_and!; [apply Hse|apply Hse|done|done].
  - intros i q Hq. destruct (Hs i q Hq) as (f & Hf & ?). destruct (decide (p = q)) as [<-|].
    + simplify_map_eq. exists e'. by rewrite Hid.
    + exists f. by simplify_map_eq.
  - done.
  - done.
  - intros q. split.
    + intros Hq. destruct (proj1 (Hpu q)) as (f & Hf & Hfp); [set_solver|].
      exists f. rewrite lookup_insert_ne; [done|set_solver].
    + intros (f & [[<- <-]|[? Hf]]%lookup_insert_Some & Hfp); [congruence|].
      assert (q ∈ p :: pu) as Hq by (apply Hpu; eauto). set_solver.
Qed.

Lemma table_ok_next m sl g n x x' pu :
  table_ok (Table m sl g n x pu) → (x ≤ x')%positive → table_ok (Table m sl g n x' pu).
Proof.
  intros [He Hs Hn Hnd Hpu] Hx. split; simpl in *; try done.
  intros p e Hp. destruct (He p e Hp) as (? & ? & ?). split_and!; [done|done|lia].
Qed.

End invariant.
