(* ===== verification/Rules.v ===== *)
(** * Rules for the actions of the runtime

    One rule per elementary action and per function on the end of an entry:
    what has to hold before it so that it does not fault, and the state it
    leaves.  [wp_step] chooses the rule; [Inv_entry] and its companions
    re-establish the invariant at the end of a handler. *)
From S2P Require Import Prelude SocketId Fifo SocketTypes CommandQueue RuntimeState Entries Invariant.

Section states.
Context {cfg : SlotConfig} {env : Env}.

(** The state after [*p = e]. *)
Definition put (p : positive) (e : skyuv_socket_entry) (s : skyuv_socket_runtime) :
    skyuv_socket_runtime :=
  s <| rt_entries ::= <[p := e]> |>.

(** The state after an event is posted, if there is memory for it. *)
Definition posted (event : skyuv_socket_event) (s : skyuv_socket_runtime) : skyuv_socket_runtime :=
  s <| rt_clock ::= S |>
    <| rt_events ::= λ l, if env_alloc (rt_clock s) then l ++ [event] else l |>.

Definition called (call : uv_call) (s : skyuv_socket_runtime) : skyuv_socket_runtime :=
  s <| rt_clock ::= S |> <| rt_uv_calls ::= λ l, l ++ [call] |>.

Definition freed (b : option buffer) (s : skyuv_socket_runtime) : skyuv_socket_runtime :=
  s <| rt_freed ::= λ l, l ++ option_list b |>.

(** An entry after [uv_close] on its handle and the change of state. *)
Definition closed (e : skyuv_socket_entry) : skyuv_socket_entry :=
  let e := e <| e_state := SKYUV_SOCKET_STATE_CLOSING |> in
  if e_is_udp e then e <| e_udp := HandleClosing |> else e <| e_tcp := HandleClosing |>.

(** The state after the entry is unlinked and released. *)
Definition removed (p : positive) (e : skyuv_socket_entry) (s : skyuv_socket_runtime) :
    skyuv_socket_runtime :=
  let n := u32 (rt_entry_count s - 1) in
  s <| rt_slots ::= delete (skyuv_socket_id_slot (e_id e)) |>
    <| rt_entry_count := n |>
    <| rt_entries ::= delete p |>
    <| rt_exit_ready ::= λ r, (rt_exiting s && (n =? 0)) || r |>.

Definition plain_event (type : skyuv_socket_event_type) (id opaque value : Z) : skyuv_socket_event :=
  Event type id opaque value None 0.

(** ** Rules *)

Implicit Types (s : skyuv_socket_runtime) (e : skyuv_socket_entry) (p : positive).

Lemma relock s :
  rt_slots_locked s = false → s <| rt_slots_locked := true |> <| rt_slots_locked := false |> = s.
Proof. destruct s; simpl. by intros ->. Qed.

Lemma wp_alloc Q s :
  (env_alloc (rt_clock s) = true → Q true (s <| rt_clock ::= S |>)) →
  (env_alloc (rt_clock s) = false → Q false (s <| rt_clock ::= S |>)) → wp alloc Q s.
Proof. unfold wp, alloc. destruct (env_alloc _); auto. Qed.

Lemma wp_uv call (Q : Z → skyuv_socket_runtime → Prop) s :
  (∀ r, Q r (called call s)) → wp (uv call) Q s.
Proof. intros HQ. apply HQ. Qed.

(** A libuv call with the result the environment gives. *)
Lemma wp_uv_exact call (Q : Z → skyuv_socket_runtime → Prop) s :
  Q (env_uv call (rt_clock s)) (called call s) → wp (uv call) Q s.
Proof. done. Qed.

Lemma wp_new_ptr Q s :
  Q (rt_next_ptr s) (s <| rt_next_ptr ::= Pos.succ |>) → wp new_ptr Q s.
Proof. done. Qed.

Lemma wp_new_buffer bytes (Q : option buffer → skyuv_socket_runtime → Prop) s :
  Q None (s <| rt_clock ::= S |>) →
  (let b := Buffer (rt_next_ptr s) bytes in
   Q (Some b) (s <| rt_clock ::= S |> <| rt_next_ptr ::= Pos.succ |>
                 <| rt_taken ::= λ l, l ++ [b] |>)) →
  wp (new_buffer bytes) Q s.
Proof. intros. unfold new_buffer. apply wp_bind, wp_alloc; intros _; [|done]. by repeat wp_pure. Qed.

Lemma wp_release_buffer b (Q : unit → skyuv_socket_runtime → Prop) s :
  Q tt (freed (Some b) s) → wp (release_buffer b) Q s.
Proof. done. Qed.

Lemma wp_free_buffer b (Q : unit → skyuv_socket_runtime → Prop) s :
  Q tt (freed b s) → wp (free_buffer b) Q s.
Proof.
  destruct b; [done|]. intros HQ. unfold free_buffer. apply wp_skip.
  assert (freed None s = s) as <-; [|done].
  destruct s. unfold freed, upd_field, set_rt_freed. simpl. by rewrite app_nil_r.
Qed.

Lemma wp_slots_lock (Q : unit → skyuv_socket_runtime → Prop) s :
  rt_slots_locked s = false → Q tt (s <| rt_slots_locked := true |>) → wp slots_lock Q s.
Proof. unfold wp, slots_lock. by intros ->. Qed.

Lemma wp_slots_unlock (Q : unit → skyuv_socket_runtime → Prop) s :
  rt_slots_locked s = true → Q tt (s <| rt_slots_locked := false |>) → wp slots_unlock Q s.
Proof. unfold wp, slots_unlock. by intros ->. Qed.

Lemma wp_deref p e Q s : rt_entries s !! p = Some e → Q e s → wp (deref p) Q s.
Proof. unfold wp, deref. by intros ->. Qed.

Lemma wp_assign p f e (Q : unit → skyuv_socket_runtime → Prop) s :
  rt_entries s !! p = Some e → Q tt (put p (f e) s) → wp (assign p f) Q s.
Proof. unfold wp, assign. by intros ->. Qed.

Lemma wp_assign_locked p f e (Q : unit → skyuv_socket_runtime → Prop) s :
  rt_slots_locked s = false → rt_entries s !! p = Some e → Q tt (put p (f e) s) →
  wp (assign_locked p f) Q s.
Proof.
  intros Hl Hp HQ. unfold assign_locked. apply wp_bind, wp_slots_lock; [done|].
  apply wp_bind, (wp_assign _ _ e); [done|]. apply wp_slots_unlock; [done|].
  destruct s; simpl in *. by subst.
Qed.

Lemma wp_assign_timed p f e (Q : unit → skyuv_socket_runtime → Prop) s :
  rt_slots_locked s = false → rt_entries s !! p = Some e →
  Q tt (put p (f (rt_current_time s) e) s) → wp (assign_timed p f) Q s.
Proof.
  intros Hl Hp HQ. unfold assign_timed. apply wp_bind, wp_slots_lock; [done|]. repeat wp_pure.
  apply (wp_assign _ _ e); [done|]. apply wp_slots_unlock; [done|].
  destruct s; simpl in *. by subst.
Qed.

Lemma wp_entry_state p e (Q : skyuv_socket_state → skyuv_socket_runtime → Prop) s :
  rt_slots_locked s = false → rt_entries s !! p = Some e → Q (e_state e) s →
  wp (entry_state p) Q s.
Proof.
  intros Hl Hp HQ. unfold entry_state. apply wp_bind, wp_slots_lock; [done|].
  apply wp_bind, (wp_deref _ e); [done|]. apply wp_bind, wp_slots_unlock; [done|].
  apply wp_ret. by rewrite relock.
Qed.

Lemma wp_set_entry_state p state e (Q : unit → skyuv_socket_runtime → Prop) s :
  rt_slots_locked s = false → rt_entries s !! p = Some e →
  Q tt (put p (e <| e_state := state |>) s) → wp (set_entry_state p state) Q s.
Proof. intros. unfold set_entry_state. by eapply wp_assign_locked. Qed.

Lemma wp_push_event type id opaque value (Q : unit → skyuv_socket_runtime → Prop) s :
  Q tt (posted (plain_event type id opaque value) s) → wp (push_event type id opaque value) Q s.
Proof.
  intros HQ. unfold push_event. apply wp_bind, wp_alloc; intros Ha; simpl.
  - unfold append_event. wp_pure. unfold posted in HQ. rewrite Ha in HQ. done.
  - apply wp_skip. unfold posted in HQ. rewrite Ha in HQ. by destruct s.
Qed.

Lemma wp_append_event event (Q : unit → skyuv_socket_runtime → Prop) s :
  Q tt (s <| rt_events ::= λ l, l ++ [event] |>) → wp (append_event event) Q s.
Proof. done. Qed.

Lemma wp_uv_close_tcp p e (Q : unit → skyuv_socket_runtime → Prop) s :
  rt_entries s !! p = Some e → e_tcp e = HandleActive →
  Q tt (put p (e <| e_tcp := HandleClosing |>) s) → wp (uv_close_tcp p) Q s.
Proof.
  intros Hp Ht HQ. unfold uv_close_tcp. apply wp_bind, (wp_deref _ e); [done|].
  rewrite Ht. simpl. by apply (wp_assign _ _ e).
Qed.

Lemma wp_uv_close_entry p e (Q : unit → skyuv_socket_runtime → Prop) s :
  rt_entries s !! p = Some e → entry_handle e = HandleActive →
  Q tt (put p (if e_is_udp e then e <| e_udp := HandleClosing |>
               else e <| e_tcp := HandleClosing |>) s) →
  wp (uv_close_entry p) Q s.
Proof.
  unfold entry_handle. intros Hp Ht HQ. unfold uv_close_entry.
  apply wp_bind, (wp_deref _ e); [done|]. destruct (e_is_udp e).
  - unfold uv_close_udp. apply wp_bind, (wp_deref _ e); [done|].
    rewrite Ht. simpl. by apply (wp_assign _ _ e).
  - by apply (wp_uv_close_tcp _ e).
Qed.

Lemma put_put p e e' s : put p e' (put p e s) = put p e' s.
Proof. destruct s. unfold put, upd_field, set_rt_entries. simpl. by rewrite insert_insert_eq. Qed.

Lemma put_posted p e event s : put p e (posted event s) = posted event (put p e s).
Proof. by destruct s. Qed.

(** [set_entry_state(CLOSING)] and [uv_close]. *)
Lemma wp_close_handle p e (Q : unit → skyuv_socket_runtime → Prop) s :
  rt_slots_locked s = false → rt_entries s !! p = Some e → entry_handle e = HandleActive →
  Q tt (put p (closed e) s) →
  wp (set_entry_state p SKYUV_SOCKET_STATE_CLOSING ;; uv_close_entry p) Q s.
Proof.
  intros Hl Hp Hh HQ. apply wp_bind, (wp_set_entry_state _ _ e); [done..|].
  eapply wp_uv_close_entry; [simpl; apply lookup_insert_eq|done|]. by rewrite put_put.
Qed.

Lemma wp_close_tcp_handle p e (Q : unit → skyuv_socket_runtime → Prop) s :
  rt_slots_locked s = false → rt_entries s !! p = Some e →
  e_is_udp e = false → e_tcp e = HandleActive →
  Q tt (put p (closed e) s) →
  wp (set_entry_state p SKYUV_SOCKET_STATE_CLOSING ;; uv_close_tcp p) Q s.
Proof.
  intros Hl Hp Hu Hh HQ. apply wp_bind, (wp_set_entry_state _ _ e); [done..|].
  eapply wp_uv_close_tcp; [simpl; apply lookup_insert_eq|done|]. rewrite put_put.
  unfold closed in HQ. simpl in HQ. by rewrite Hu in HQ.
Qed.

Lemma wp_reject_entry p error e (Q : unit → skyuv_socket_runtime → Prop) s :
  rt_slots_locked s = false → rt_entries s !! p = Some e → entry_handle e = HandleActive →
  Q tt (put p (closed e) (posted (plain_event SKYUV_SOCKET_EVENT_ERROR (e_id e) (e_opaque e) error) s)) →
  wp (reject_entry p error) Q s.
Proof.
  intros Hl Hp Hh HQ. unfold reject_entry. apply wp_bind, (wp_deref _ e); [done|].
  apply wp_bind, wp_push_event. by apply (wp_close_handle p e).
Qed.

Lemma wp_finish_entry p type value e (Q : unit → skyuv_socket_runtime → Prop) s :
  rt_slots_locked s = false → rt_entries s !! p = Some e →
  e_state e ≠ SKYUV_SOCKET_STATE_CLOSING → entry_handle e = HandleActive →
  Q tt (put p (closed e) (posted (plain_event type (e_id e) (e_opaque e) value) s)) →
  wp (finish_entry p type value) Q s.
Proof.
  intros Hl Hp Hst Hh HQ. unfold finish_entry. apply wp_bind, (wp_entry_state _ e); [done..|].
  rewrite decide_False by done. apply wp_bind, (wp_deref _ e); [done|].
  apply wp_bind, wp_push_event. by apply (wp_close_handle p e).
Qed.

Lemma wp_update_exit_ready (Q : unit → skyuv_socket_runtime → Prop) s :
  rt_slots_locked s = false →
  Q tt (s <| rt_exit_ready ::= λ r, (rt_exiting s && (rt_entry_count s =? 0)) || r |>) →
  wp update_exit_ready Q s.
Proof.
  intros Hl HQ. unfold update_exit_ready. apply wp_bind, wp_slots_lock; [done|].
  repeat wp_pure. simpl. apply wp_slots_unlock; [done|]. rewrite relock by done.
  destruct (rt_exiting s && _); simpl in *; [done|]. apply wp_skip. by destruct s.
Qed.

Lemma wp_discard p e (Q : unit → skyuv_socket_runtime → Prop) s :
  rt_slots_locked s = false → rt_entries s !! p = Some e →
  rt_slots s !! skyuv_socket_id_slot (e_id e) = Some p →
  Q tt (removed p e s) → wp (discard_uninitialized_entry p) Q s.
Proof.
  intros Hl Hp Hs HQ. unfold discard_uninitialized_entry, clear_slot.
  apply wp_bind, wp_bind, (wp_deref _ e); [done|].
  apply wp_bind, wp_slots_lock; [done|]. repeat wp_pure. simpl.
  rewrite bool_decide_eq_true_2 by done. simpl. repeat wp_pure.
  apply wp_slots_unlock; [done|]. apply wp_bind.
  unfold free_entry, wp at 1. simpl. rewrite Hp. apply wp_update_exit_ready; [done|].
  destruct s; simpl in *. by subst.
Qed.

Lemma wp_fail_uninitialized p error e (Q : unit → skyuv_socket_runtime → Prop) s :
  rt_slots_locked s = false → rt_entries s !! p = Some e →
  rt_slots s !! skyuv_socket_id_slot (e_id e) = Some p →
  Q tt (removed p e (posted (plain_event SKYUV_SOCKET_EVENT_ERROR (e_id e) (e_opaque e) error) s)) →
  wp (fail_uninitialized p error) Q s.
Proof.
  intros Hl Hp Hs HQ. unfold fail_uninitialized. apply wp_bind, (wp_deref _ e); [done|].
  apply wp_bind, wp_push_event. by apply (wp_discard _ e).
Qed.

(** An id resolves to the entry that has it, and to nothing else. *)
Lemma wp_find_entry id (Q : option positive → skyuv_socket_runtime → Prop) s :
  table_ok (table_of s) →
  (∀ p e, rt_entries s !! p = Some e → e_id e = id → Q (Some p) s) →
  ((∀ p e, rt_entries s !! p = Some e → e_id e ≠ id) → Q None s) →
  wp (find_entry id) Q s.
Proof.
  intros [He Hs _ _ _] HS HN. unfold find_entry. repeat wp_pure. simpl in *.
  destruct (rt_slots s !! _) as [p|] eqn:Hp.
  - destruct (Hs _ _ Hp) as (e & Hpe & Hsl). apply wp_bind, (wp_deref _ e); [done|].
    destruct (Z.eqb_spec (e_id e) id) as [Heq|Hne]; simpl; apply wp_ret; [eauto|].
    apply HN. intros q f Hq <-. destruct (He q f Hq) as ((Hqs & _) & _ & _). simpl in Hqs.
    congruence.
  - apply wp_ret, HN. intros q f Hq <-. destruct (He q f Hq) as ((Hqs & _) & _ & _).
    simpl in Hqs. congruence.
Qed.

Lemma wp_find_in_state id state (Q : option positive → skyuv_socket_runtime → Prop) s :
  rt_slots_locked s = false → table_ok (table_of s) →
  (∀ p e, rt_entries s !! p = Some e → e_id e = id → e_state e = state → Q (Some p) s) →
  Q None s →
  wp (find_in_state id state) Q s.
Proof.
  intros Hl Ht HS HN. unfold find_in_state. apply wp_bind, wp_find_entry; [done| |].
  - intros p e Hp Hid. apply wp_bind, (wp_entry_state _ e); [done..|]. apply wp_ret.
    destruct (decide _); eauto.
  - intros _. by apply wp_ret.
Qed.

End states.
