(* ===== verification/Handled.v ===== *)
(** * What a handler may do to the runtime

    [handled extra s s']: going from [s] to [s'] keeps the invariant, leaves
    the loop's own data alone, and moves the buffers [extra] from the caller's
    hands into the runtime.  The lemmas reduce such a goal, for the shapes of
    update the handlers perform, to facts about the one entry that changed. *)
From S2P Require Import Prelude SocketId Fifo SocketTypes CommandQueue RuntimeState Entries.
From S2P Require Import Invariant Rules.

(** The data only the loop itself changes. *)
Record loop_part := LoopPart {
  lp_commands : plain_queue;
  lp_async : uv_handle;
  lp_exiting : bool;
  lp_async_pending : bool;
  lp_hangup : signal_watcher;
  lp_interrupt : signal_watcher;
  lp_termination : signal_watcher;
}.

Definition loop_of (s : skyuv_socket_runtime) : loop_part :=
  LoopPart (rt_commands s) (rt_async s) (rt_exiting s) (rt_async_pending s) (rt_hangup s)
    (rt_interrupt s) (rt_termination s).

(** What an update of single entries leaves alone. *)
Definition frame_of (s : skyuv_socket_runtime) :=
  (loop_of s, rt_slots_locked s, rt_slots s, rt_generations s, rt_entry_count s, rt_pump s,
   rt_exit_ready s).

(** Every socket is on its way out. *)
Definition all_closing (s : skyuv_socket_runtime) : Prop :=
  ∀ p e, rt_entries s !! p = Some e → e_state e = SKYUV_SOCKET_STATE_CLOSING.

(** EXIT is announced only when the runtime is exiting and has no sockets. *)
Definition exit_sound (s : skyuv_socket_runtime) : Prop :=
  rt_exit_ready s = true → rt_exiting s = true ∧ rt_entries s = ∅.

(** How the sockets may change: each is an older one with the same id, and one
    that is closing stays so; or it is new, and some socket is not closing. *)
Definition ages (s s' : skyuv_socket_runtime) : Prop :=
  ∀ q f', rt_entries s' !! q = Some f' →
    (∃ f, rt_entries s !! q = Some f ∧ e_id f' = e_id f ∧
       (e_state f = SKYUV_SOCKET_STATE_CLOSING → e_state f' = SKYUV_SOCKET_STATE_CLOSING)) ∨
    ((rt_next_ptr s ≤ q)%positive ∧
     ∃ p e, rt_entries s !! p = Some e ∧ e_state e ≠ SKYUV_SOCKET_STATE_CLOSING).

(** The buffers outside the entries. *)
Definition account (b : buffer) (s : skyuv_socket_runtime) : Z :=
  mentions b (commands_buffers (cq_items (rt_commands s))) +
  mentions b (events_buffers (rt_events s)) +
  mentions b (rt_freed s) + mentions b (rt_delivered s) - mentions b (rt_taken s).

Section handled.
Context {cfg : SlotConfig}.
Implicit Types (s : skyuv_socket_runtime) (e : skyuv_socket_entry) (p : positive).

Record handled (extra : list buffer) (s s' : skyuv_socket_runtime) : Prop := Handled {
  h_inv : Inv s';
  h_loop : loop_of s' = loop_of s;
  h_balance b : balance b s' = balance b s + mentions b extra;
  h_next : (rt_next_ptr s ≤ rt_next_ptr s')%positive;
  h_ages : ages s s';
  h_exit : exit_sound s → exit_sound s';
}.

(** The same, with nothing put on the list to pump or taken from it. *)
Definition quiet (extra : list buffer) (s s' : skyuv_socket_runtime) : Prop :=
  handled extra s s' ∧ rt_pump s' = rt_pump s.

Lemma balance_account b s : balance b s = account b s + entries_mentions b (rt_entries s).
Proof. unfold balance, account. lia. Qed.

Lemma ages_refl s : ages s s.
Proof. intros q f Hq. left. eauto. Qed.

Lemma ages_trans s1 s2 s3 :
  (rt_next_ptr s1 ≤ rt_next_ptr s2)%positive → ages s1 s2 → ages s2 s3 → ages s1 s3.
Proof.
  intros Hx H12 H23 q f3 Hq. destruct (H23 q f3 Hq) as [(f2 & Hf2 & Hi & Hst)|(Hle & p & e & Hp & He)].
  - destruct (H12 q f2 Hf2) as [(f1 & Hf1 & Hi1 & Hst1)|?]; [left|by right].
    exists f1. split_and!; [done|congruence|auto].
  - right. split; [lia|]. destruct (H12 p e Hp) as [(e1 & He1 & _ & Hst1)|[_ ?]]; [|done].
    exists p, e1. split; [done|auto].
Qed.

Lemma ages_closing s s' : ages s s' → all_closing s → all_closing s'.
Proof.
  intros Ha Hc q f Hq. destruct (Ha q f Hq) as [(f0 & Hf & _ & Hst)|(_ & p & e & Hp & He)]; [eauto|].
  by destruct He; eauto.
Qed.

Lemma handled_refl s : Inv s → handled [] s s.
Proof. intros. split; try done; [|apply ages_refl]. intros b. simpl. lia. Qed.

Lemma handled_trans x y s1 s2 s3 : handled x s1 s2 → handled y s2 s3 → handled (x ++ y) s1 s3.
Proof.
  intros [_ Hl1 Hb1 Hn1 Hc1 He1] [Hi Hl2 Hb2 Hn2 Hc2 He2].
  split; [done|congruence| |lia|by eapply ages_trans|auto].
  intros b. rewrite Hb2, Hb1, mentions_app. lia.
Qed.

Lemma quiet_trans x y s1 s2 s3 : quiet x s1 s2 → quiet y s2 s3 → quiet (x ++ y) s1 s3.
Proof. intros [] []. split; [by eapply handled_trans|congruence]. Qed.

Lemma Inv_lookup s p e : Inv s → rt_entries s !! p = Some e →
  seated (table_of s) p e ∧ entry_ok e.
Proof. intros [_ _ [He _ _ _ _]] Hp. destruct (He p e Hp) as (? & ? & ?). done. Qed.

Lemma Inv_slot s p e : Inv s → rt_entries s !! p = Some e →
  rt_slots s !! skyuv_socket_id_slot (e_id e) = Some p.
Proof. intros Hi Hp. destruct (Inv_lookup s p e Hi Hp) as [[? _] _]. done. Qed.

Lemma Inv_ok s p e : Inv s → rt_entries s !! p = Some e → entry_ok e.
Proof. intros Hi Hp. by destruct (Inv_lookup s p e Hi Hp). Qed.

Lemma Inv_empty s : Inv s → rt_entry_count s = 0 → rt_entries s = ∅.
Proof.
  intros [_ _ Ht] Hn. apply map_empty. intros p. destruct (rt_entries s !! p) as [e|] eqn:Hp; [|done].
  pose proof (table_ok_count_pos _ p e Ht Hp) as Hc. simpl in Hc. lia.
Qed.

Lemma single_count s p e : Inv s → rt_entries s = {[ p := e ]} → rt_entry_count s = 1.
Proof.
  intros HI Hone. pose proof HI as [_ _ Ht]. pose proof (to_count _ Ht) as Hc. simpl in Hc.
  assert (rt_entries s !! p = Some e) as Hp by (rewrite Hone; apply lookup_singleton_eq).
  assert (rt_slots s = {[ skyuv_socket_id_slot (e_id e) := p ]}) as Hs.
  { apply map_eq. intros i. destruct (rt_slots s !! i) as [q|] eqn:Hi.
    - destruct (to_slot _ Ht i q Hi) as (f & Hf & <-). simpl in Hf. rewrite Hone in Hf.
      apply lookup_singleton_Some in Hf as [<- <-]. by rewrite lookup_singleton_eq.
    - symmetry. apply lookup_singleton_None. intros <-. rewrite (Inv_slot s p e HI Hp) in Hi. done. }
  rewrite Hc, Hs, map_size_singleton. done.
Qed.

(** An id belongs to one entry. *)
Lemma same_id s p e q f :
  Inv s → rt_entries s !! p = Some e → rt_entries s !! q = Some f → e_id f = e_id e → q = p.
Proof.
  intros HI Hp Hq Hid. pose proof (Inv_slot _ _ _ HI Hp). pose proof (Inv_slot _ _ _ HI Hq).
  congruence.
Qed.

Lemma wp_find_known id p e (Q : option positive → skyuv_socket_runtime → Prop) s :
  Inv s → rt_entries s !! p = Some e → e_id e = id → Q (Some p) s → wp (find_entry id) Q s.
Proof.
  intros HI Hp Hid HQ. apply wp_find_entry; [apply HI| |].
  - intros q f Hq Hf. by rewrite (same_id s p e q f HI Hp Hq) by congruence.
  - intros Hno. by destruct (Hno p e Hp).
Qed.

Lemma wp_find_known_state id state p e (Q : option positive → skyuv_socket_runtime → Prop) s :
  Inv s → rt_entries s !! p = Some e → e_id e = id → e_state e = state → Q (Some p) s →
  wp (find_in_state id state) Q s.
Proof.
  intros HI Hp Hid Hst HQ. pose proof HI as [Hl _ _]. unfold find_in_state. apply wp_bind.
  eapply wp_find_known; [done|done|done|]. apply wp_bind. eapply wp_entry_state; [done|done|].
  apply wp_ret. by rewrite decide_True.
Qed.

(** Changes the invariant does not see. *)
Lemma handled_same extra s s' :
  Inv s → frame_of s' = frame_of s → rt_entries s' = rt_entries s →
  (rt_next_ptr s ≤ rt_next_ptr s')%positive →
  (∀ b, account b s' = account b s + mentions b extra) → handled extra s s'.
Proof.
  intros [Hl Hq Ht] Hf He Hx Hb. injection Hf as Hqe Ha Hex Hp Hh Hi Hte Hlo Hsl Hg Hn Hpu Her.
  split.
  - split; [congruence|by rewrite Hqe|]. unfold table_of. rewrite He, Hsl, Hg, Hn, Hpu.
    by eapply table_ok_next.
  - unfold loop_of. congruence.
  - intros b. rewrite !balance_account, Hb, He. lia.
  - done.
  - intros q f. rewrite He. eauto.
  - unfold exit_sound. by rewrite He, Hex, Her.
Qed.

(** One entry changes, and perhaps the list of entries to pump. *)
Lemma handled_update extra s s' p e e' pump :
  Inv s → rt_entries s !! p = Some e → frame_of s' = frame_of (s <| rt_pump := pump |>) →
  rt_entries s' = <[p := e']> (rt_entries s) →
  table_ok (Table (rt_entries s') (rt_slots s) (rt_generations s) (rt_entry_count s)
              (rt_next_ptr s') pump) →
  (rt_next_ptr s ≤ rt_next_ptr s')%positive → e_id e' = e_id e →
  (e_state e = SKYUV_SOCKET_STATE_CLOSING → e_state e' = SKYUV_SOCKET_STATE_CLOSING) →
  (∀ b, account b s' + mentions b (entry_buffers e') =
        account b s + mentions b (entry_buffers e) + mentions b extra) →
  handled extra s s'.
Proof.
  intros [Hl Hq Ht] Hp Hf He Htab Hx Hid Hst Hb.
  injection Hf as Hqe Ha Hex Hap Hh Hi Hte Hlo Hsl Hg Hn Hpu Her.
  split.
  - split; [congruence|by rewrite Hqe|]. unfold table_of. by rewrite Hsl, Hg, Hn, Hpu.
  - unfold loop_of. congruence.
  - intros b. rewrite !balance_account, He, (entries_mentions_insert _ _ _ e _ Hp).
    specialize (Hb b). lia.
  - done.
  - intros q f. rewrite He, lookup_insert_Some. intros [[<- <-]|[_ Hqf]]; eauto 6.
  - intros Hs Hr. rewrite Her in Hr. destruct (Hs Hr) as [_ Hem]. rewrite Hem in Hp.
    by rewrite lookup_empty in Hp.
Qed.

Lemma handled_entry extra s s' p e e' :
  Inv s → rt_entries s !! p = Some e → frame_of s' = frame_of s →
  rt_entries s' = <[p := e']> (rt_entries s) →
  (rt_next_ptr s ≤ rt_next_ptr s')%positive →
  e_id e' = e_id e → e_pump_pending e' = e_pump_pending e → entry_ok e' →
  (e_state e = SKYUV_SOCKET_STATE_CLOSING → e_state e' = SKYUV_SOCKET_STATE_CLOSING) →
  (∀ b, account b s' + mentions b (entry_buffers e') =
        account b s + mentions b (entry_buffers e) + mentions b extra) →
  handled extra s s'.
Proof.
  intros HI Hp Hf He Hx Hid Hpp Hok Hst Hb.
  eapply (handled_update _ _ _ p e e' (rt_pump s)); try done.
  rewrite He. destruct HI as [_ _ Ht]. by eapply table_ok_update.
Qed.

(** The entry joins the list of entries to pump. *)
Lemma handled_pump_push extra s s' p e e' :
  Inv s → rt_entries s !! p = Some e →
  frame_of s' = frame_of (s <| rt_pump := rt_pump s ++ [p] |>) →
  rt_entries s' = <[p := e']> (rt_entries s) → rt_next_ptr s' = rt_next_ptr s →
  e_id e' = e_id e → e_pump_pending e = false → e_pump_pending e' = true → entry_ok e' →
  (e_state e = SKYUV_SOCKET_STATE_CLOSING → e_state e' = SKYUV_SOCKET_STATE_CLOSING) →
  (∀ b, account b s' + mentions b (entry_buffers e') =
        account b s + mentions b (entry_buffers e) + mentions b extra) →
  handled extra s s'.
Proof.
  intros HI Hp Hf He Hx Hid Hpp Hpp' Hok Hst Hb.
  eapply (handled_update _ _ _ p e e'); try done; [|rewrite Hx; lia].
  rewrite He, Hx. destruct HI as [_ _ Ht]. by eapply table_ok_pump_push.
Qed.

(** The entry leaves the list of entries to pump. *)
Lemma handled_pump_pop extra s s' p e e' pump :
  Inv s → rt_entries s !! p = Some e → rt_pump s = p :: pump →
  frame_of s' = frame_of (s <| rt_pump := pump |>) →
  rt_entries s' = <[p := e']> (rt_entries s) → rt_next_ptr s' = rt_next_ptr s →
  e_id e' = e_id e → e_pump_pending e' = false → entry_ok e' →
  (e_state e = SKYUV_SOCKET_STATE_CLOSING → e_state e' = SKYUV_SOCKET_STATE_CLOSING) →
  (∀ b, account b s' + mentions b (entry_buffers e') =
        account b s + mentions b (entry_buffers e) + mentions b extra) →
  handled extra s s'.
Proof.
  intros HI Hp Hpu Hf He Hx Hid Hpp' Hok Hst Hb.
  eapply (handled_update _ _ _ p e e'); try done; [|rewrite Hx; lia].
  rewrite He, Hx. destruct HI as [_ _ Ht]. unfold table_of in Ht. rewrite Hpu in Ht.
  by eapply table_ok_pump_pop.
Qed.

(** One entry leaves the table. *)
Lemma handled_removed extra s s0 p e e0 :
  Inv s → rt_entries s !! p = Some e → e_pump_pending e = false →
  frame_of s0 = frame_of s → rt_entries s0 = <[p := e0]> (rt_entries s) → e_id e0 = e_id e →
  rt_next_ptr s0 = rt_next_ptr s →
  (∀ b, account b s0 = account b s + mentions b (entry_buffers e) + mentions b extra) →
  handled extra s (removed p e0 s0).
Proof.
  intros HI Hp Hpp Hf He Hid Hx Hb. pose proof HI as [Hl Hq Ht].
  injection Hf as Hqe Ha Hex Hap Hh Hi Hte Hlo Hsl Hg Hn Hpu Her.
  assert (rt_entries (removed p e0 s0) = delete p (rt_entries s)) as He'.
  { simpl. by rewrite He, delete_insert_eq. }
  assert (Inv (removed p e0 s0)) as HI'.
  { split; [simpl; congruence|simpl; by rewrite Hqe|]. unfold table_of. rewrite He'. simpl.
    rewrite Hsl, Hg, Hn, Hpu, Hx, Hid. by eapply table_ok_remove. }
  split.
  - done.
  - unfold loop_of. simpl. congruence.
  - intros b. rewrite !balance_account, He', (entries_mentions_delete _ _ _ e Hp).
    specialize (Hb b). unfold account in *. simpl. lia.
  - simpl. rewrite Hx. lia.
  - intros q f. rewrite He', lookup_delete_Some. intros [_ Hqf]; eauto 6.
  - intros Hs Hr. simpl in Hr. rewrite Hex, Her in *. apply orb_true_iff in Hr as [Hr|Hr].
    + apply andb_true_iff in Hr as [Hr Hz]. apply Z.eqb_eq in Hz. split; [simpl; congruence|].
      apply Inv_empty; [done|]. exact Hz.
    + destruct (Hs Hr) as [_ Hem]. rewrite Hem in Hp. by rewrite lookup_empty in Hp.
Qed.

(** ** Buffers of the posted events *)

Lemma events_posted b (c : bool) l type id opaque value :
  mentions b (events_buffers (if c then l ++ [plain_event type id opaque value] else l)) =
  mentions b (events_buffers l).
Proof.
  destruct c; [|done]. rewrite events_buffers_app, mentions_app. simpl. lia.
Qed.

Lemma events_appended b l event :
  mentions b (events_buffers (l ++ [event])) =
  mentions b (events_buffers l) + mentions b (option_list (ev_data event)).
Proof.
  rewrite events_buffers_app, mentions_app. unfold events_buffers at 2. simpl.
  by rewrite app_nil_r.
Qed.

Lemma writes_buffers_one w : writes_buffers [w] = option_list (wr_data w).
Proof. unfold writes_buffers. simpl. by rewrite app_nil_r. Qed.

Lemma writes_buffers_delete b i w l :
  l !! i = Some w →
  mentions b (writes_buffers l) =
  mentions b (option_list (wr_data w)) + mentions b (writes_buffers (delete i l)).
Proof.
  intros Hi. rewrite <- (take_drop_middle l i w Hi) at 1. rewrite delete_take_drop.
  change (w :: drop (S i) l) with ([w] ++ drop (S i) l).
  rewrite !writes_buffers_app, !mentions_app, writes_buffers_one. lia.
Qed.

(** A socket that cannot hold writes has none, and is not in the pump. *)
Lemma idle_entry e :
  entry_ok e → writable_state (e_state e) = false → e_is_udp e = false →
  e_pump_pending e = false ∧ e_close_requested e = false ∧ e_writing e = false ∧
  e_high e = [] ∧ e_low e = [] ∧ e_inflight e = None ∧ e_udp_inflight e = [] ∧
  e_queued_bytes e = 0.
Proof.
  intros [[_ Hwr Hqu Hnw Hnu _ _ Hcr Hpu] _] Hst Hu. rewrite Hst, Hu in *.
  destruct Hnw as (Hh & Hlo & Hin); [done|]. rewrite Hh, Hlo, Hin, Hwr, Hqu, Hnu by done.
  unfold pending_size. rewrite Hh, Hlo, Hin.
  split_and!; try done; apply not_true_is_false; naive_solver.
Qed.

Lemma idle_buffers e :
  entry_ok e → writable_state (e_state e) = false → e_is_udp e = false → entry_buffers e = [].
Proof.
  intros Hok Hst Hu. destruct (idle_entry e Hok Hst Hu) as (_ & _ & _ & Hh & Hlo & Hi & Hui & _).
  unfold entry_buffers. by rewrite Hh, Hlo, Hi, Hui.
Qed.

Lemma closed_tcp e :
  e_is_udp e = false →
  closed e = e <| e_state := SKYUV_SOCKET_STATE_CLOSING |> <| e_tcp := HandleClosing |>.
Proof. intros Hu. unfold closed. simpl. by rewrite Hu. Qed.

Lemma closed_udp e :
  e_is_udp e = true →
  closed e = e <| e_state := SKYUV_SOCKET_STATE_CLOSING |> <| e_udp := HandleClosing |>.
Proof. intros Hu. unfold closed. simpl. by rewrite Hu. Qed.

End handled.

(** ** Automation

    [wp_step] takes one step of a computation on the runtime; [handled_tac]
    closes the goal it ends in. *)

Ltac lookup_tac :=
  simpl;
  first
    [ eassumption
    | rewrite ?insert_insert_eq, lookup_insert_eq; reflexivity
    | rewrite ?lookup_insert_ne by congruence; eassumption ].

Ltac unlocked_tac := simpl; assumption.

Ltac handle_tac :=
  unfold entry_handle; simpl;
  repeat match goal with H : e_is_udp _ = _ |- _ => rewrite H end;
  first [reflexivity | assumption].

Ltac wp_step :=
  cbv beta match;
  lazymatch goal with
  | |- wp (mbind _ _) _ _ => apply wp_bind
  | |- wp (mret _) _ _ => apply wp_ret
  | |- wp skip _ _ => apply wp_skip
  | |- wp (gets _) _ _ => apply wp_gets
  | |- wp (modify _) _ _ => apply wp_modify
  | |- wp alloc _ _ => apply wp_alloc; intros ?
  | |- wp (uv _) _ _ => apply wp_uv; intros ?
  | |- wp (new_buffer _) _ _ => apply wp_new_buffer; cbv zeta
  | |- wp (free_buffer _) _ _ => apply wp_free_buffer
  | |- wp (release_buffer _) _ _ => apply wp_release_buffer
  | |- wp (push_event _ _ _ _) _ _ => apply wp_push_event
  | |- wp (append_event _) _ _ => apply wp_append_event
  | |- wp (deref _) _ _ => eapply wp_deref; [lookup_tac|]
  | |- wp (assign _ _) _ _ => eapply wp_assign; [lookup_tac|]
  | |- wp (assign_locked _ _) _ _ => eapply wp_assign_locked; [unlocked_tac|lookup_tac|]
  | |- wp (assign_timed _ _) _ _ => eapply wp_assign_timed; [unlocked_tac|lookup_tac|]
  | |- wp (entry_state _) _ _ => eapply wp_entry_state; [unlocked_tac|lookup_tac|]
  | |- wp (set_entry_state _ _) _ _ => eapply wp_set_entry_state; [unlocked_tac|lookup_tac|]
  | |- wp (reject_entry _ _) _ _ =>
      eapply wp_reject_entry; [unlocked_tac|lookup_tac|handle_tac|]
  | |- wp (finish_entry _ _ _) _ _ =>
      eapply wp_finish_entry; [unlocked_tac|lookup_tac|simpl; congruence|handle_tac|]
  | |- wp (fail_uninitialized _ _) _ _ =>
      eapply wp_fail_uninitialized; [unlocked_tac|lookup_tac|simpl; eapply Inv_slot; eassumption|]
  | |- wp (discard_uninitialized_entry _) _ _ =>
      eapply wp_discard; [unlocked_tac|lookup_tac|simpl; eapply Inv_slot; eassumption|]
  | |- wp (whenM _ _) _ _ => apply wp_whenM; intros ?
  | H : ?x ≠ ?y |- wp (if negb (?x =? ?y) then _ else _) _ _ =>
      rewrite (proj2 (Z.eqb_neq x y) H); cbn [negb]
  | H : ?x = ?y |- wp (if negb (?x =? ?y) then _ else _) _ _ =>
      rewrite (proj2 (Z.eqb_eq x y) H); cbn [negb]
  | |- wp (if negb (?x =? ?y) then _ else _) _ _ => destruct (Z.eqb_spec x y); cbn [negb]
  | |- wp (if ?x =? ?y then _ else _) _ _ => destruct (Z.eqb_spec x y)
  | |- wp (if ?x <? ?y then _ else _) _ _ => destruct (Z.ltb_spec x y)
  | |- wp (if decide ?P then _ else _) _ _ => destruct (decide P)
  | |- wp (if negb true then _ else _) _ _ => cbn [negb]
  | |- wp (if negb false then _ else _) _ _ => cbn [negb]
  | |- wp (if ?b then _ else _) _ _ => destruct b eqn:?
  | |- wp (match ?x with _ => _ end) _ _ => destruct x eqn:?
  end.

Ltac wp_steps := repeat wp_step.

(** The balance of buffers outside and inside the entry that changed. *)
Ltac account_tac :=
  intros;
  unfold account, entry_buffers; simpl;
  rewrite ?events_posted, ?events_appended, ?mentions_app, ?writes_buffers_app,
    ?writes_buffers_one, ?mentions_app; simpl; try lia.

(** The handles of an entry whose state is known. *)
Ltac phase_facts Hok Hst :=
  let Hph := fresh "Hph" in
  pose proof (eo_phase _ (eo_core _ Hok)) as Hph; unfold phase_ok in Hph; rewrite Hst in Hph;
  repeat match goal with H : _ ∧ _ |- _ => destruct H end.

Ltac same_tac := eapply handled_same; [eassumption|reflexivity|reflexivity|simpl; lia|account_tac].

(** [entry_ok] of an updated entry from [entry_ok] of the entry. *)
Ltac entry_ok_tac :=
  repeat match goal with H : entry_ok _ |- _ => destruct H end;
  repeat match goal with H : entry_core _ |- _ => destruct H end;
  lazymatch goal with |- entry_ok _ => split; [split|] | |- entry_core _ => split end;
  unfold phase_ok, pending_size, writable_state in *; simpl in *;
  repeat match goal with H : e_state _ = _ |- _ => rewrite H in * end; simpl in *;
  repeat match goal with H : _ ∧ _ |- _ => destruct H end;
  repeat match goal with
    H : e_is_udp ?e = _ |- context [if e_is_udp ?e then _ else _] => rewrite H end;
  try assumption; try congruence; try (intuition congruence).

Ltac entry_tac p e :=
  rewrite ?closed_tcp, ?closed_udp by (simpl; assumption);
  eapply (handled_entry _ _ _ p e);
    [eassumption|eassumption|reflexivity|simpl; rewrite ?insert_insert_eq; reflexivity
    |simpl; lia|reflexivity|reflexivity| |simpl; congruence|account_tac].

Ltac removed_tac p e :=
  eapply (handled_removed _ _ _ p e);
    [eassumption|eassumption| |reflexivity
    |simpl; rewrite ?insert_insert_eq; first [reflexivity|by rewrite insert_id]
    |reflexivity|reflexivity| ].

(** [idle_facts] for an entry [e] that holds no writes. *)
Ltac idle_facts e Hok Hst :=
  let Hb := fresh "Hbufs" in
  assert (entry_buffers e = []) as Hb by (apply idle_buffers; [done|by rewrite Hst|done]);
  destruct (idle_entry e) as (?Hpp & ?Hcr & ?Hwr & ?Hhi & ?Hlo & ?Hin & ?Hui & ?Hqb);
  [done|by rewrite Hst|done|].

Ltac handled_tac p e :=
  cbv beta;
  lazymatch goal with |- quiet _ _ _ => split; [|reflexivity] | |- _ => idtac end;
  lazymatch goal with
  | |- handled _ _ (removed _ _ _) => removed_tac p e;
      [assumption|intros;
       match goal with H : entry_buffers _ = [] |- _ => rewrite H end; account_tac]
  | |- _ => first [solve [same_tac] | entry_tac p e]
  end.

(** The same for an entry that enters or leaves the pump. *)
Ltac pump_push_tac p e :=
  eapply (handled_pump_push _ _ _ p e);
    [eassumption|eassumption|reflexivity|simpl; rewrite ?insert_insert_eq; reflexivity
    |reflexivity|reflexivity|assumption|reflexivity| |simpl; congruence|account_tac].

Ltac pump_pop_tac p e :=
  rewrite ?closed_tcp, ?closed_udp by (simpl; assumption);
  eapply (handled_pump_pop _ _ _ p e);
    [eassumption|eassumption|eassumption|reflexivity|simpl; rewrite ?insert_insert_eq; reflexivity
    |reflexivity|reflexivity|reflexivity| |simpl; congruence|account_tac].
