(* ===== verification/Slots.v ===== *)
(** * Reserving a slot

    What [reserve_entry] finds and what it leaves behind: the first free slot
    at or after [next_slot], under the next generation of that slot. *)
From S2P Require Import Prelude SocketId Fifo SocketTypes CommandQueue RuntimeState Entries.
From S2P Require Import Invariant Rules Handled.

Section slots.
Context {cfg : SlotConfig} {env : Env}.
Implicit Types (s : skyuv_socket_runtime) (e : skyuv_socket_entry) (p : positive).

(** ** The search *)

(** The slot the search stops at and the counter it leaves. *)
Fixpoint first_free (n : nat) (next : Z) (slots : gmap Z positive) : option Z * Z :=
  match n with
  | O => (None, next)
  | S n =>
      let slot := next mod SKYUV_SOCKET_SLOT_COUNT in
      match slots !! slot with
      | None => (Some slot, u32 (next + 1))
      | Some _ => first_free n (u32 (next + 1)) slots
      end
  end.

Lemma slot_probe next :
  u16 (Z.land next (SKYUV_SOCKET_SLOT_COUNT - 1)) = next mod SKYUV_SOCKET_SLOT_COUNT.
Proof.
  rewrite slot_mask. pose proof slot_count_range as Hr.
  pose proof (Z.mod_pos_bound next SKYUV_SOCKET_SLOT_COUNT). unfold u16.
  apply uwrap_small. lia.
Qed.

Lemma slot_count_divides : ∃ k, 2 ^ 32 = k * SKYUV_SOCKET_SLOT_COUNT.
Proof.
  rewrite slot_count_pow. pose proof slot_bits_range.
  exists (2 ^ (32 - SKYUV_SOCKET_SLOT_BITS)). rewrite <- Z.pow_add_r by lia. f_equal. lia.
Qed.

Lemma u32_slot x k :
  (u32 x + k) mod SKYUV_SOCKET_SLOT_COUNT = (x + k) mod SKYUV_SOCKET_SLOT_COUNT.
Proof.
  destruct slot_count_divides as [m Hm]. unfold u32, uwrap. rewrite Hm.
  rewrite (Z.mod_eq x) by (pose proof slot_count_range; lia).
  replace (x - m * SKYUV_SOCKET_SLOT_COUNT * (x / (m * SKYUV_SOCKET_SLOT_COUNT)) + k) with
    (x + k + (- (m * (x / (m * SKYUV_SOCKET_SLOT_COUNT)))) * SKYUV_SOCKET_SLOT_COUNT) by ring.
  apply Z.mod_add. pose proof slot_count_range; lia.
Qed.

(** The slot found is free, and no slot was passed over that was. *)
Lemma first_free_Some n next slots slot next' :
  first_free n next slots = (Some slot, next') →
  slots !! slot = None ∧ 0 ≤ slot < SKYUV_SOCKET_SLOT_COUNT.
Proof.
  revert next. induction n as [|n IH]; intros next Hf; simpl in Hf; [done|].
  destruct (slots !! (next mod _)) eqn:Hs; [by eapply IH|]. injection Hf as <- <-. split; [done|].
  apply Z.mod_pos_bound. pose proof slot_count_range; lia.
Qed.

Lemma first_free_None n next slots next' :
  first_free n next slots = (None, next') →
  ∀ k, 0 ≤ k < Z.of_nat n → is_Some (slots !! ((next + k) mod SKYUV_SOCKET_SLOT_COUNT)).
Proof.
  revert next. induction n as [|n IH]; intros next Hf k Hk; simpl in Hf; [lia|].
  destruct (slots !! (next mod _)) eqn:Hs; [|done]. destruct (decide (k = 0)) as [->|].
  - by rewrite Z.add_0_r, Hs.
  - specialize (IH _ Hf (k - 1)). rewrite u32_slot in IH.
    replace (next + 1 + (k - 1)) with (next + k) in IH by lia. apply IH. lia.
Qed.

(** A whole round visits every slot. *)
Lemma first_free_full next slots next' :
  first_free (Z.to_nat SKYUV_SOCKET_SLOT_COUNT) next slots = (None, next') →
  ∀ i, 0 ≤ i < SKYUV_SOCKET_SLOT_COUNT → is_Some (slots !! i).
Proof.
  intros Hf i Hi. pose proof slot_count_range as Hr.
  assert ((next + (i - next) mod SKYUV_SOCKET_SLOT_COUNT) mod SKYUV_SOCKET_SLOT_COUNT = i) as <-.
  { rewrite Zplus_mod_idemp_r. replace (next + (i - next)) with i by lia. apply Z.mod_small. lia. }
  eapply first_free_None; [done|].
  pose proof (Z.mod_pos_bound (i - next) SKYUV_SOCKET_SLOT_COUNT). lia.
Qed.

(** ** The reserved entry *)

Definition reserved_entry (id opaque : Z) : skyuv_socket_entry :=
  zero_entry <| e_state := SKYUV_SOCKET_STATE_RESERVED |> <| e_id := id |>
    <| e_external_fd := -1 |> <| e_opaque := opaque |>.

Definition slot_generation (slot : Z) s : Z := default 0 (rt_generations s !! slot).

(** The state in which [slot] has been given to a new entry. *)
Definition claimed (slot opaque : Z) s : skyuv_socket_runtime :=
  let p := rt_next_ptr s in
  let g := skyuv_socket_id_next_generation (slot_generation slot s) in
  s <| rt_clock ::= S |> <| rt_next_ptr ::= Pos.succ |>
    <| rt_entries ::= <[p := reserved_entry (skyuv_socket_id_make slot g) opaque]> |>
    <| rt_generations ::= <[slot := g]> |>
    <| rt_slots ::= <[slot := p]> |>
    <| rt_entry_count ::= λ n, u32 (n + 1) |>.

Lemma wp_claim_slot slot opaque (Q : Z * option positive → skyuv_socket_runtime → Prop) s :
  rt_slots_locked s = true →
  (if env_alloc (rt_clock s)
   then Q (SKYUV_OK, Some (rt_next_ptr s)) (claimed slot opaque (s <| rt_slots_locked := false |>))
   else Q (SKYUV_ERROR_OUT_OF_MEMORY, None)
          (s <| rt_slots_locked := false |> <| rt_clock ::= S |>)) →
  wp (claim_slot slot opaque) Q s.
Proof.
  intros Hl HQ. unfold claim_slot. do 2 wp_step; rewrite H in HQ.
  - do 2 wp_step. apply wp_new_ptr. wp_steps. apply wp_slots_unlock; [done|]. wp_step.
    rewrite !put_put. cbn [rt_generations upd_field set_rt_generations put]. 
    rewrite lookup_insert_eq. unfold claimed, slot_generation in HQ.
    destruct s; unfold put, upd_field, set_rt_entries; simpl in *. by rewrite insert_insert_eq.
  - wp_steps. apply wp_slots_unlock; [done|]. wp_step. by destruct s.
Qed.

Lemma wp_reserve_search n opaque (Q : Z * option positive → skyuv_socket_runtime → Prop) s :
  rt_slots_locked s = true →
  (let '(found, next) := first_free n (rt_next_slot s) (rt_slots s) in
   let s1 := s <| rt_slots_locked := false |> <| rt_next_slot := next |> in
   match found with
   | None => Q (SKYUV_ERROR_OUT_OF_MEMORY, None) s1
   | Some slot =>
       if env_alloc (rt_clock s)
       then Q (SKYUV_OK, Some (rt_next_ptr s)) (claimed slot opaque s1)
       else Q (SKYUV_ERROR_OUT_OF_MEMORY, None) (s1 <| rt_clock ::= S |>)
   end) →
  wp (reserve_search n opaque) Q s.
Proof.
  revert s. induction n as [|n IH]; intros s Hl HQ; cbn [reserve_search first_free] in *.
  - wp_step. apply wp_slots_unlock; [done|]. wp_step. by destruct s.
  - do 4 wp_step. rewrite slot_probe. do 2 wp_step. simpl.
    destruct (rt_slots s !! _) eqn:Hs.
    + apply IH; [done|]. by destruct s.
    + apply wp_claim_slot; [done|]. by destruct s.
Qed.

Lemma wp_reserve_entry opaque (Q : Z * option positive → skyuv_socket_runtime → Prop) s :
  rt_slots_locked s = false →
  (let '(found, next) :=
     first_free (Z.to_nat SKYUV_SOCKET_SLOT_COUNT) (rt_next_slot s) (rt_slots s) in
   let s1 := s <| rt_next_slot := next |> in
   match found with
   | None => Q (SKYUV_ERROR_OUT_OF_MEMORY, None) s1
   | Some slot =>
       if env_alloc (rt_clock s)
       then Q (SKYUV_OK, Some (rt_next_ptr s)) (claimed slot opaque s1)
       else Q (SKYUV_ERROR_OUT_OF_MEMORY, None) (s1 <| rt_clock ::= S |>)
   end) →
  wp (reserve_entry opaque) Q s.
Proof.
  intros Hl HQ. unfold reserve_entry. wp_step. apply wp_slots_lock; [done|].
  apply wp_reserve_search; [done|]. destruct s; simpl in *. by subst.
Qed.

(** ** The invariant *)

Lemma reserved_entry_ok id opaque : entry_ok (reserved_entry id opaque).
Proof. split; [by split|]. simpl. tauto. Qed.

(** [p] is the new entry of [s'], and nothing else has changed. *)
Record began (p : positive) (opaque : Z) s s' : Prop := Began {
  bg_inv : Inv s';
  bg_loop : loop_of s' = loop_of s;
  bg_balance b : balance b s' = balance b s;
  bg_new : p = rt_next_ptr s ∧ rt_next_ptr s' = Pos.succ p;
  bg_entries : ∃ slot, 0 ≤ slot < SKYUV_SOCKET_SLOT_COUNT ∧ rt_slots s !! slot = None ∧
    rt_slots s' = <[slot := p]> (rt_slots s) ∧
    rt_entries s' = <[p := reserved_entry (skyuv_socket_id_make slot
      (skyuv_socket_id_next_generation (slot_generation slot s))) opaque]> (rt_entries s);
  bg_rest : rt_exit_ready s' = rt_exit_ready s ∧ rt_pump s' = rt_pump s ∧
    rt_events s' = rt_events s;
}.

Lemma Inv_new_ptr s p : Inv s → (rt_next_ptr s ≤ p)%positive → rt_entries s !! p = None.
Proof.
  intros [_ _ [He _ _ _ _]] Hle. destruct (rt_entries s !! p) as [e|] eqn:Hp; [|done].
  destruct (He p e Hp) as (_ & _ & ?). simpl in *. lia.
Qed.

Lemma claimed_began slot opaque next s :
  Inv s → rt_slots s !! slot = None → 0 ≤ slot < SKYUV_SOCKET_SLOT_COUNT →
  began (rt_next_ptr s) opaque s (claimed slot opaque (s <| rt_next_slot := next |>)).
Proof.
  intros HI Hs Hr. pose proof (Inv_new_ptr s _ HI (Pos.le_refl _)) as Hn. pose proof HI as [Hl Hq Ht].
  split; try done.
  - split; [done|done|]. unfold table_of. simpl.
    eapply table_ok_claim; [exact Ht|done|done|done|apply reserved_entry_ok|done].
  - intros b. unfold balance. simpl. rewrite entries_mentions_insert_None by done. simpl. lia.
  - exists slot. done.
Qed.

(** [reserve_entry] finds a slot unless there is none or no memory. *)
Definition reserve_result (opaque : Z) s (result : Z * option positive) s' : Prop :=
  match result with
  | (code, Some p) => code = SKYUV_OK ∧ began p opaque s s'
  | (code, None) => code = SKYUV_ERROR_OUT_OF_MEMORY ∧ quiet [] s s' ∧
      rt_entries s' = rt_entries s ∧
      ((∀ i, 0 ≤ i < SKYUV_SOCKET_SLOT_COUNT → is_Some (rt_slots s !! i)) ∨
       env_alloc (rt_clock s) = false)
  end.

Lemma reserve_entry_result opaque s :
  Inv s → wp (reserve_entry opaque) (reserve_result opaque s) s.
Proof.
  intros HI. apply wp_reserve_entry; [apply HI|].
  destruct (first_free _ _ _) as [[slot|] next] eqn:Hf.
  - destruct (first_free_Some _ _ _ _ _ Hf). destruct (env_alloc _) eqn:Ha.
    + split; [done|]. by apply claimed_began.
    + split_and!; [done|split; [same_tac|done]|done|by right].
  - split_and!; [done|split; [same_tac|done]|done|]. left. by eapply first_free_full.
Qed.

(** A slot is given only if there was memory for the entry. *)
Lemma reserve_entry_memory opaque s :
  Inv s →
  wp (reserve_entry opaque) (λ result _, is_Some result.2 → env_alloc (rt_clock s) = true) s.
Proof.
  intros HI. apply wp_reserve_entry; [apply HI|].
  destruct (first_free _ _ _) as [[slot|] next]; simpl; [|by intros (? & [=])].
  destruct (env_alloc _); simpl; [done|by intros (? & [=])].
Qed.

(** The new entry and the old ones. *)
Lemma began_lookup p opaque s s' :
  Inv s → began p opaque s s' → ∃ id, rt_entries s' !! p = Some (reserved_entry id opaque) ∧
    rt_entries s !! p = None ∧ ∀ q, q ≠ p → rt_entries s' !! q = rt_entries s !! q.
Proof.
  intros HI [HI' _ _ [-> _] (slot & _ & _ & _ & He) _]. rewrite He. eexists. split_and!.
  - apply lookup_insert_eq.
  - by apply Inv_new_ptr.
  - intros q Hq. by rewrite lookup_insert_ne.
Qed.

(** What follows a reservation, where some socket is not closing. *)
Lemma handled_after_reserve p opaque q f s s1 s2 :
  Inv s → rt_entries s !! q = Some f → e_state f ≠ SKYUV_SOCKET_STATE_CLOSING →
  began p opaque s s1 → handled [] s1 s2 → handled [] s s2.
Proof.
  intros HI Hq Hf Hbg [HI2 Hl2 Hb2 Hn2 Ha2 He2].
  destruct (began_lookup _ _ _ _ HI Hbg) as (id & Hp1 & Hp & Hrest).
  destruct Hbg as [HI1 Hl1 Hb1 [Hpe Hn1] _ (Hx1 & _)].
  split; [done|congruence| |lia| |].
  - intros b. rewrite Hb2, Hb1. simpl. lia.
  - intros r g Hr. destruct (Ha2 r g Hr) as [(g1 & Hg1 & ?)|[? _]].
    + destruct (decide (r = p)) as [->|Hne]; [right; split; [lia|eauto]|].
      left. rewrite Hrest in Hg1 by done. eauto.
    + right. split; [lia|eauto].
  - intros Hs. apply He2. intros Hr. rewrite Hx1 in Hr. destruct (Hs Hr) as [_ He].
    rewrite He in Hq. by rewrite lookup_empty in Hq.
Qed.

Lemma quiet_after_reserve p opaque q f s s1 s2 :
  Inv s → rt_entries s !! q = Some f → e_state f ≠ SKYUV_SOCKET_STATE_CLOSING →
  began p opaque s s1 → quiet [] s1 s2 → quiet [] s s2.
Proof.
  intros HI Hq Hf Hbg [Hh Hp]. split; [by eapply handled_after_reserve|].
  destruct Hbg as [_ _ _ _ _ (_ & ? & _)]. congruence.
Qed.

(** A reservation that is taken back. *)
Lemma handled_reserve_discard p opaque s s1 s2 :
  Inv s → began p opaque s s1 → handled [] s1 s2 → rt_entries s2 = delete p (rt_entries s1) →
  (rt_exit_ready s2 = true → rt_exit_ready s1 = true ∨ rt_exiting s1 = true ∧ rt_entries s2 = ∅) →
  handled [] s s2.
Proof.
  intros HI Hbg [HI2 Hl2 Hb2 Hn2 Ha2 He2] He Hx.
  destruct (began_lookup _ _ _ _ HI Hbg) as (id & Hp1 & Hp & Hrest).
  destruct Hbg as [HI1 Hl1 Hb1 [Hpe Hn1] _ (Hx1 & _)].
  assert (rt_entries s2 = rt_entries s) as Hsame.
  { rewrite He. apply map_eq. intros q. destruct (decide (p = q)) as [<-|].
    - by rewrite lookup_delete_eq, Hp.
    - rewrite lookup_delete_ne by done. auto. }
  split; [done|congruence| |lia| |].
  - intros b. rewrite Hb2, Hb1. simpl. lia.
  - intros q f. rewrite Hsame. eauto.
  - intros Hs Hr. injection Hl2 as _ _ Hex2 _ _ _ _. injection Hl1 as _ _ Hex1 _ _ _ _.
    destruct (Hx Hr) as [Hr1|[Hr1 Hem]]; [|split; congruence].
    rewrite Hx1 in Hr1. destruct (Hs Hr1). split; congruence.
Qed.

End slots.
