(* ===== verification/Udp.v ===== *)
(** * UDP sockets

    Receiving, sending and addressing datagrams
    (src/src/socket/socket_internal.c, [udp_received], [udp_write_completed],
    [process_udp*]). *)
From S2P Require Import Prelude SocketId Fifo SocketTypes CommandQueue RuntimeState Entries.
From S2P Require Import Invariant Rules Handled.

Section udp.
Context {cfg : SlotConfig} {env : Env}.

(** [uv_ip4_addr], then [uv_ip6_addr] if the first refuses the literal. *)
Definition resolve_literal (host : string) (port : Z) : Z + sockaddr :=
  match uv_ip4_addr host port with
  | inr address => inr address
  | inl _ => uv_ip6_addr host port
  end.

(** The 65536-byte block handed to libuv; [filled] is what libuv writes at its
    start, the rest is never read. *)
Definition allocate_read_buffer (filled : list Z) : R (option buffer) := new_buffer filled.

Definition udp_received (p : positive) (nread : Z) (base : option buffer)
    (address : option sockaddr) : R unit :=
  if nread <? 0 then
    free_buffer base ;;
    finish_entry p SKYUV_SOCKET_EVENT_ERROR nread
  else
    match address with
    | None => free_buffer base
    | Some address =>
        let bytes := from_option buf_bytes [] base in
        encoded ← new_buffer (take (Z.to_nat nread) bytes ++ encode_udp_address address);
        match encoded with
        | None => free_buffer base
        | Some encoded =>
            free_buffer base ;;
            ok ← alloc;
            if negb ok then release_buffer encoded
            else
              e ← deref p;
              assign_timed p (λ now e, e <| e_read_bytes ::= λ n, u64 (n + nread) |>
                                         <| e_read_time := now |>) ;;
              append_event (Event SKYUV_SOCKET_EVENT_UDP (e_id e) (e_opaque e)
                (udp_address_size address) (Some encoded) nread)
        end
    end.

(** [udp_write_completed] for the request [write], which libuv gives back. *)
Definition udp_write_completed (p : positive) (write : skyuv_socket_write) (status : Z) : R unit :=
  state ← entry_state p;
  e ← deref p;
  whenM (negb (status =? 0) && bool_decide (state ≠ SKYUV_SOCKET_STATE_CLOSING))
    (push_event SKYUV_SOCKET_EVENT_ERROR (e_id e) (e_opaque e) status) ;;
  assign_timed p (λ now e, e <| e_write_bytes ::= λ n, u64 (n + wr_size write) |>
                             <| e_write_time := now |>) ;;
  free_buffer (wr_data write).

Definition process_udp (command : skyuv_socket_command) (host : string) (port : Z) : R unit :=
  found ← find_in_state (cmd_id command) SKYUV_SOCKET_STATE_RESERVED;
  match found with
  | None => skip
  | Some p =>
      match resolve_literal host port with
      | inl result => fail_uninitialized p result
      | inr address =>
          assign p (λ e, e <| e_is_udp := true |>) ;;
          result ← uv (uv_udp_init p);
          if negb (result =? 0) then fail_uninitialized p result
          else
            assign p (λ e, e <| e_udp := HandleActive |>) ;;
            assign p (λ e, e <| e_initialized := true |>) ;;
            result ← uv (uv_udp_bind p address);
            result ← (if result =? 0 then uv (uv_udp_recv_start p) else mret result);
            if negb (result =? 0) then reject_entry p result
            else set_entry_state p SKYUV_SOCKET_STATE_UDP
      end
  end.

Definition process_udp_connect (command : skyuv_socket_command) (host : string) (port : Z) :
    R unit :=
  found ← find_in_state (cmd_id command) SKYUV_SOCKET_STATE_UDP;
  match found with
  | None => skip
  | Some p =>
      match resolve_literal host port with
      | inl _ => skip
      | inr address =>
          assign p (λ e, e <| e_udp_target := address |>) ;;
          assign p (λ e, e <| e_has_udp_target := true |>)
      end
  end.

(** The destination of a datagram: the address of the command, the connected
    target, or an error. *)
Definition udp_send_target (e : skyuv_socket_entry) (send : send_payload) : Z + sockaddr :=
  if 0 <? send_address_size send then
    decode_udp_address (Some (send_address send)) (send_address_size send)
  else if e_has_udp_target e then inr (e_udp_target e)
  else inl UV_EDESTADDRREQ.

(** The payload is returned as the command holds it afterwards. *)
Definition process_udp_send (command : skyuv_socket_command) (send : send_payload) :
    R send_payload :=
  found ← find_in_state (cmd_id command) SKYUV_SOCKET_STATE_UDP;
  match found with
  | None =>
      push_event SKYUV_SOCKET_EVENT_ERROR (cmd_id command) (cmd_opaque command) UV_ENOTCONN ;;
      mret send
  | Some p =>
      e ← deref p;
      match udp_send_target e send with
      | inl result =>
          push_event SKYUV_SOCKET_EVENT_ERROR (e_id e) (e_opaque e) result ;;
          mret send
      | inr target =>
          ok ← alloc;
          if negb ok then
            push_event SKYUV_SOCKET_EVENT_ERROR (e_id e) (e_opaque e) UV_ENOMEM ;;
            mret send
          else
            let write := Write (send_data send) (send_size send) (send_release send) in
            result ← uv (uv_udp_send p (send_data send) (u32 (send_size send)) target);
            if negb (result =? 0) then
              push_event SKYUV_SOCKET_EVENT_ERROR (e_id e) (e_opaque e) result ;;
              mret send
            else
              assign p (λ e, e <| e_udp_inflight ::= λ l, l ++ [write] |>) ;;
              mret (send <| send_ownership := SKYUV_SOCKET_BUFFER_BORROWED |>)
      end
  end.

(** ** The invariant *)

Lemma process_udp_connect_handled command host port s :
  Inv s → wp (process_udp_connect command host port) (λ _ s', handled [] s s') s.
Proof.
  intros HI. pose proof HI as [Hl Hq Ht]. unfold process_udp_connect.
  wp_step. apply wp_find_in_state; [done|done| |wp_steps; by apply handled_refl].
  intros p e Hp Hid Hst. pose proof (Inv_ok _ _ _ HI Hp) as Hok.
  wp_steps; [by apply handled_refl|]. entry_tac p e. entry_ok_tac.
Qed.

Lemma process_udp_handled command host port s :
  Inv s → wp (process_udp command host port) (λ _ s', handled [] s s') s.
Proof.
  intros HI. pose proof HI as [Hl Hq Ht]. unfold process_udp.
  wp_step. apply wp_find_in_state; [done|done| |wp_steps; by apply handled_refl].
  intros p e Hp Hid Hst. pose proof (Inv_ok _ _ _ HI Hp) as Hok.
  phase_facts Hok Hst. idle_facts e Hok Hst. wp_steps; handled_tac p e; entry_ok_tac.
Qed.

Lemma udp_received_handled p e nread base address s :
  Inv s → rt_entries s !! p = Some e → e_state e = SKYUV_SOCKET_STATE_UDP →
  wp (udp_received p nread base address) (λ _ s', quiet (option_list base) s s') s.
Proof.
  intros HI Hp Hst. pose proof HI as [Hl Hq Ht]. pose proof (Inv_ok _ _ _ HI Hp) as Hok.
  phase_facts Hok Hst. unfold udp_received. wp_steps; handled_tac p e; entry_ok_tac.
Qed.

Lemma udp_write_completed_handled p e status index write s :
  Inv s → rt_entries s !! p = Some e → e_udp_inflight e !! index = Some write →
  wp (assign p (λ e, e <| e_udp_inflight ::= delete index |>) ;; udp_write_completed p write status)
    (λ _ s', quiet [] s s') s.
Proof.
  intros HI Hp Hix. pose proof HI as [Hl Hq Ht]. pose proof (Inv_ok _ _ _ HI Hp) as Hok.
  pose proof (λ b, writes_buffers_delete b index write _ Hix) as Hd.
  unfold udp_write_completed. wp_steps; handled_tac p e.
  2,4: specialize (Hd b); lia.
  all: pose proof (eo_no_udp _ (eo_core _ Hok)) as Hnu; entry_ok_tac; intros Hu; by rewrite (Hnu Hu).
Qed.

Lemma process_udp_send_handled command send s :
  Inv s →
  wp (process_udp_send command send) (λ send' s',
   (send' = send ∧ handled [] s s') ∨
   (send' = send <| send_ownership := SKYUV_SOCKET_BUFFER_BORROWED |> ∧ 
    handled (option_list (send_data send)) s s')) s.
Proof.
  intros HI. pose proof HI as [Hl Hq Ht]. unfold process_udp_send.
  wp_step. apply wp_find_in_state; [done|done| |wp_steps; left; split; [done|same_tac]].
  intros p e Hp Hid Hst. pose proof (Inv_ok _ _ _ HI Hp) as Hok. 
  wp_steps; try (left; split; [done|same_tac]). right; split; [done|].
  entry_tac p e. entry_ok_tac. 
Qed.

End udp.
