(* ===== verification/Writes.v ===== *)
(** * The TCP write path

    Two write queues per socket, one write in flight at a time
    (src/src/socket/socket_internal.c, [write_completed], [pump_write],
    [process_send]). *)
From S2P Require Import Prelude SocketId Fifo SocketTypes CommandQueue RuntimeState Entries.
From S2P Require Import Invariant Rules Handled Udp.

Section writes.
Context {cfg : SlotConfig} {env : Env}.

(** A failed write on a socket whose peer has closed ends it silently; on any
    other socket it is reported. *)
Definition end_failed_write (p : positive) (state : skyuv_socket_state) (error : Z) : R unit :=
  if decide (state = SKYUV_SOCKET_STATE_HALFCLOSE_READ) then
    set_entry_state p SKYUV_SOCKET_STATE_CLOSING ;;
    uv_close_tcp p
  else finish_entry p SKYUV_SOCKET_EVENT_ERROR error.

Definition fail_write (p : positive) (error : Z) : R unit :=
  state ← entry_state p;
  end_failed_write p state error.

(** Unlinking the next write, the high queue first. *)
Definition take_write (p : positive) : R (option skyuv_socket_write) :=
  e ← deref p;
  match e_high e with
  | write :: high => assign p (λ e, e <| e_high := high |>) ;; mret (Some write)
  | [] =>
      match e_low e with
      | [] => mret None
      | write :: low => assign p (λ e, e <| e_low := low |>) ;; mret (Some write)
      end
  end.

Definition pump_write (p : positive) : R unit :=
  e ← deref p;
  if e_writing e then skip
  else
    taken ← take_write p;
    match taken with
    | None => skip
    | Some write =>
        result ← uv (uv_write p (wr_data write) (u32 (wr_size write)));
        if result =? 0 then
          assign p (λ e, e <| e_inflight := Some write |>) ;;
          assign_locked p (λ e, e <| e_writing := true |>)
        else
          assign_locked p (λ e, e <| e_queued_bytes ::= λ n, u64 (n - wr_size write) |>) ;;
          release_write write ;;
          fail_write p result
    end.

(** [if (entry_state(entry) != SKYUV_SOCKET_STATE_CLOSING) pump_write(entry)]. *)
Definition follow_up (p : positive) : R unit :=
  state ← entry_state p;
  if decide (state = SKYUV_SOCKET_STATE_CLOSING) then skip else pump_write p.

(** The second half of [write_completed]: the counters, the buffer, the end of
    the warning state, and what follows. *)
Definition settle_write (p : positive) (write : skyuv_socket_write) : R unit :=
  assign_timed p (λ now e,
    e <| e_queued_bytes ::= λ n, u64 (n - wr_size write) |>
      <| e_write_bytes ::= λ n, u64 (n + wr_size write) |>
      <| e_write_time := now |>
      <| e_writing := false |>) ;;
  release_write write ;;
  e ← deref p;
  state ← entry_state p;
  whenM ((e_queued_bytes e =? 0) && (0 <? e_warn_size e) &&
         bool_decide (state ≠ SKYUV_SOCKET_STATE_CLOSING))
    (assign_locked p (λ e, e <| e_warn_size := 0 |>) ;;
     push_event SKYUV_SOCKET_EVENT_WARNING (e_id e) (e_opaque e) 0) ;;
  if e_close_requested e then close_after_writes p else follow_up p.

(** [write_completed] for the request [write], which libuv gives back. *)
Definition write_completed (p : positive) (write : skyuv_socket_write) (status : Z) : R unit :=
  state ← entry_state p;
  whenM (negb (status =? 0) && bool_decide (state ≠ SKYUV_SOCKET_STATE_CLOSING))
    (end_failed_write p state status) ;;
  settle_write p write.

(** The value of a WARNING event: kilobytes, rounded up and clipped. *)
Definition warning_kb (queued_bytes : Z) : Z :=
  let kb := u64 (queued_bytes + 1023) / 1024 in
  if INT_MAX <? kb then INT_MAX else kb.

(** Accounting for a new write: the counter, the warning threshold, the event. *)
Definition account_write (p : positive) (size : Z) : R unit :=
  slots_lock ;;
  assign p (λ e, e <| e_queued_bytes ::= λ n, u64 (n + size) |>) ;;
  e ← deref p;
  whenM ((SKYUV_SOCKET_WARNING_SIZE <=? e_queued_bytes e) && (e_warn_size e <=? e_queued_bytes e))
    (assign p (λ e, e <| e_warn_size :=
       if e_warn_size e =? 0 then SKYUV_SOCKET_WARNING_SIZE * 2 else u64 (e_warn_size e * 2) |>) ;;
     push_event SKYUV_SOCKET_EVENT_WARNING (e_id e) (e_opaque e) (warning_kb (e_queued_bytes e))) ;;
  slots_unlock.

(** The payload is returned as the command holds it afterwards; [low] tells
    SEND_LOW from SEND. *)
Definition process_send (command : skyuv_socket_command) (send : send_payload) (low : bool) :
    R send_payload :=
  found ← find_entry (cmd_id command);
  state ← match found with
          | None => mret SKYUV_SOCKET_STATE_INVALID
          | Some p => entry_state p
          end;
  if decide (state = SKYUV_SOCKET_STATE_UDP) then process_udp_send command send
  else
    match found with
    | None =>
        push_event SKYUV_SOCKET_EVENT_ERROR (cmd_id command) (cmd_opaque command) UV_ENOTCONN ;;
        mret send
    | Some p =>
        if decide (state ≠ SKYUV_SOCKET_STATE_CONNECTED ∧
                   state ≠ SKYUV_SOCKET_STATE_CONNECTED_PAUSED ∧
                   state ≠ SKYUV_SOCKET_STATE_HALFCLOSE_READ) then
          push_event SKYUV_SOCKET_EVENT_ERROR (cmd_id command) (cmd_opaque command) UV_ENOTCONN ;;
          mret send
        else
          e ← deref p;
          if e_close_requested e then
            push_event SKYUV_SOCKET_EVENT_ERROR (cmd_id command) (cmd_opaque command)
              UV_ECANCELED ;;
            mret send
          else
            ok ← alloc;
            if negb ok then
              push_event SKYUV_SOCKET_EVENT_ERROR (e_id e) (e_opaque e) UV_ENOMEM ;;
              mret send
            else
              let write := Write (send_data send) (send_size send) (send_release send) in
              (if low then assign p (λ e, e <| e_low ::= λ l, l ++ [write] |>)
               else assign p (λ e, e <| e_high ::= λ l, l ++ [write] |>)) ;;
              account_write p (send_size send) ;;
              e ← deref p;
              whenM (negb (e_writing e) && negb (e_pump_pending e))
                (assign p (λ e, e <| e_pump_pending := true |>) ;;
                 modify (λ s, s <| rt_pump ::= λ l, l ++ [p] |>)) ;;
              mret (send <| send_ownership := SKYUV_SOCKET_BUFFER_BORROWED |>)
    end.

(** ** The invariant *)

(** The entry after a write of [size] bytes is accounted for, and whether that
    crosses the warning threshold. *)
Definition counted (size : Z) (e : skyuv_socket_entry) : skyuv_socket_entry :=
  e <| e_queued_bytes ::= λ n, u64 (n + size) |>.

Definition warns (e : skyuv_socket_entry) : bool :=
  (SKYUV_SOCKET_WARNING_SIZE <=? e_queued_bytes e) && (e_warn_size e <=? e_queued_bytes e).

Definition next_warn_size (warn_size : Z) : Z :=
  if warn_size =? 0 then SKYUV_SOCKET_WARNING_SIZE * 2 else u64 (warn_size * 2).

Definition accounted (size : Z) (e : skyuv_socket_entry) : skyuv_socket_entry :=
  let e := counted size e in
  e <| e_warn_size ::= λ n, if warns e then next_warn_size n else n |>.

Definition warned (size : Z) (e : skyuv_socket_entry) (s : skyuv_socket_runtime) :
    skyuv_socket_runtime :=
  let e := counted size e in
  s <| rt_clock ::= λ n, if warns e then S n else n |>
    <| rt_events ::= λ l, if warns e && env_alloc (rt_clock s)
         then l ++ [plain_event SKYUV_SOCKET_EVENT_WARNING (e_id e) (e_opaque e)
                      (warning_kb (e_queued_bytes e))]
         else l |>.

Lemma wp_account_write p e size (Q : unit → skyuv_socket_runtime → Prop) s :
  rt_slots_locked s = false → rt_entries s !! p = Some e →
  Q tt (put p (accounted size e) (warned size e s)) →
  wp (account_write p size) Q s.
Proof.
  intros Hl Hp HQ. unfold account_write. apply wp_bind, wp_slots_lock; [done|].
  do 5 wp_step. fold (counted size e).
  unfold warned, accounted in HQ. cbv zeta in HQ.
  change (e <| e_queued_bytes ::= (λ n, u64 (n + size)) |>) with (counted size e).
  fold (warns (counted size e)). destruct (warns (counted size e)); unfold whenM.
  - wp_steps. apply wp_slots_unlock; [done|].
    rewrite put_put. destruct s; simpl in *. by subst.
  - wp_steps. apply wp_slots_unlock; [done|]. destruct s, e; simpl in *. by subst.
Qed.

(** What is left of the payload: nothing moved, or the write owns the data. *)
Definition send_handled (send send' : send_payload) (s s' : skyuv_socket_runtime) : Prop :=
  (send' = send ∧ handled [] s s') ∨
  (send' = send <| send_ownership := SKYUV_SOCKET_BUFFER_BORROWED |> ∧
   handled (option_list (send_data send)) s s').

(** The entry with a write added to one of its queues and accounted for. *)
Lemma queued_entry_ok e high low size :
  entry_ok e → e_is_udp e = false → writable_state (e_state e) = true →
  writes_size high + writes_size low =
    writes_size (e_high e) + writes_size (e_low e) + size →
  let e' := accounted size (e <| e_high := high |> <| e_low := low |>) in
  (e_writing e = false → e_pump_pending e = false → entry_ok (e' <| e_pump_pending := true |>)) ∧
  (e_writing e = true ∨ e_pump_pending e = true → entry_ok e').
Proof.
  intros [[] ?] Hu Hst Hsz e'.
  assert (u64 (e_queued_bytes e + size) =
          u64 (writes_size high + writes_size low + writes_size (option_list (e_inflight e)))) as Hqb.
  { rewrite eo_queued. unfold u64. rewrite uwrap_add_l by lia. f_equal. unfold pending_size. lia. }
  split; intros; (split; [split|]); simpl; rewrite ?Hst, ?Hu in *; simpl in *; auto; intuition congruence.
Qed.

(** The entry with [w] appended to the queue of its priority. *)
Definition enqueued (low : bool) (w : skyuv_socket_write) (e : skyuv_socket_entry) :
    skyuv_socket_entry :=
  if low then e <| e_low ::= λ l, l ++ [w] |> else e <| e_high ::= λ l, l ++ [w] |>.

Lemma enqueued_eq low w e :
  enqueued low w e =
  e <| e_high := if low then e_high e else e_high e ++ [w] |>
    <| e_low := if low then e_low e ++ [w] else e_low e |>.
Proof. by destruct low, e. Qed.

(** The end of [process_send]: the write is in its queue and becomes the
    runtime's; the entry is put on the list to pump unless it is there or busy. *)
Lemma enqueue_handled {A} (r : A) p e low w s :
  Inv s → rt_entries s !! p = Some e → e_is_udp e = false → writable_state (e_state e) = true →
  wp (account_write p (wr_size w) ;;
      e ← deref p;
      whenM (negb (e_writing e) && negb (e_pump_pending e))
        (assign p (λ e, e <| e_pump_pending := true |>) ;;
         modify (λ s, s <| rt_pump ::= λ l, l ++ [p] |>)) ;;
      mret r)
    (λ r' s', r' = r ∧ handled (option_list (wr_data w)) s s')
    (put p (enqueued low w e) (s <| rt_clock ::= S |>)).
Proof.
  intros HI Hp Hu Hw. pose proof HI as [Hl _ _]. rewrite enqueued_eq.
  set (high := if low then e_high e else _). set (low' := if low then _ else e_low e).
  destruct (queued_entry_ok e high low' (wr_size w)) as [Hok1 Hok2];
    [by eapply Inv_ok|done|done| |].
  { destruct low; unfold high, low'; rewrite writes_size_app; simpl; lia. }
  assert (∀ b, mentions b (writes_buffers high) + mentions b (writes_buffers low') =
    mentions b (writes_buffers (e_high e)) + mentions b (writes_buffers (e_low e)) +
    mentions b (option_list (wr_data w))) as Hm.
  { intros b. destruct low; unfold high, low';
      rewrite writes_buffers_app, mentions_app, writes_buffers_one; lia. }
  clearbody high low'. wp_step. eapply wp_account_write; [done|lookup_tac|].
  do 4 wp_step; simpl in H.
  - apply andb_true_iff in H as [?%negb_true_iff ?%negb_true_iff]. wp_steps. split; [done|].
    pump_push_tac p e; [by apply Hok1|specialize (Hm b); lia].
  - apply andb_false_iff in H. rewrite !negb_false_iff in H. wp_steps. split; [done|].
    entry_tac p e; [by apply Hok2|specialize (Hm b); lia].
Qed.

Lemma process_send_handled command send low s :
  Inv s → wp (process_send command send low) (λ send' s', send_handled send send' s s') s.
Proof.
  intros HI. pose proof HI as [Hl Hq Ht]. unfold process_send.
  wp_step. apply wp_find_entry; [done| |].
  2:{ intros _. do 2 wp_step. rewrite decide_False by done. wp_steps. left. split; [done|same_tac]. }
  intros p e Hp Hid. pose proof (Inv_ok _ _ _ HI Hp) as Hok.
  do 3 wp_step; [by apply process_udp_send_handled|].
  wp_step; [wp_steps; left; split; [done|same_tac]|].
  do 2 wp_step. wp_step; [wp_steps; left; split; [done|same_tac]|].
  do 2 wp_step; [|wp_steps; left; split; [done|same_tac]].
  assert (e_is_udp e = false ∧ writable_state (e_state e) = true) as [Hu Hw].
  { pose proof (eo_phase _ (eo_core _ Hok)) as Hph. unfold phase_ok in Hph.
    destruct (e_state e); naive_solver. }
  set (w := Write (send_data send) (send_size send) (send_release send)).
  do 2 wp_step. destruct low; wp_step.
  - eapply wp_mono; [by apply (enqueue_handled _ p e true w)|]. intros ? ? []; by right.
  - eapply wp_mono; [by apply (enqueue_handled _ p e false w)|]. intros ? ? []; by right.
Qed.

(** ** Pumping *)

(** The write that goes out next, and the queues without it. *)
Definition next_write (e : skyuv_socket_entry) :
    option (skyuv_socket_write * list skyuv_socket_write * list skyuv_socket_write) :=
  match e_high e, e_low e with
  | w :: high, low => Some (w, high, low)
  | [], w :: low => Some (w, [], low)
  | [], [] => None
  end.

Lemma next_write_None e : next_write e = None → e_high e = [] ∧ e_low e = [].
Proof. unfold next_write. destruct (e_high e), (e_low e); naive_solver. Qed.

Lemma next_write_Some e w high low :
  next_write e = Some (w, high, low) →
  (e_high e = w :: high ∧ e_low e = low) ∨ (e_high e = [] ∧ high = [] ∧ e_low e = w :: low).
Proof. unfold next_write. destruct (e_high e), (e_low e); naive_solver. Qed.

Lemma next_write_size e w high low :
  next_write e = Some (w, high, low) →
  writes_size (e_high e) + writes_size (e_low e) = wr_size w + writes_size high + writes_size low.
Proof. intros [[-> ->]|(-> & -> & ->)]%next_write_Some; simpl; lia. Qed.

Lemma next_write_buffers b e w high low :
  next_write e = Some (w, high, low) →
  mentions b (writes_buffers (e_high e)) + mentions b (writes_buffers (e_low e)) =
  mentions b (option_list (wr_data w)) + mentions b (writes_buffers high) +
  mentions b (writes_buffers low).
Proof.
  unfold writes_buffers.
  intros [[-> ->]|(-> & -> & ->)]%next_write_Some; simpl; rewrite ?mentions_app; lia.
Qed.

Definition unqueued (high low : list skyuv_socket_write) (e : skyuv_socket_entry) :
    skyuv_socket_entry := e <| e_high := high |> <| e_low := low |>.

Lemma wp_take_write p e (Q : option skyuv_socket_write → skyuv_socket_runtime → Prop) s :
  rt_entries s !! p = Some e →
  match next_write e with
  | None => Q None s
  | Some (w, high, low) => Q (Some w) (put p (unqueued high low e) s)
  end →
  wp (take_write p) Q s.
Proof.
  intros Hp HQ. unfold take_write. do 2 wp_step. unfold next_write, unqueued in HQ.
  destruct (e_high e) as [|w high] eqn:Hh.
  - destruct (e_low e) as [|w low] eqn:Hlo; wp_steps; [done|]. destruct e; simpl in *. by subst.
  - wp_steps. destruct e; simpl in *. by subst.
Qed.

(** The state after a failed [uv_write]: the write is dropped and the socket
    closed, with an ERROR event unless its peer has closed already. *)
Definition write_failed (p : positive) (e : skyuv_socket_entry) (error : Z)
    (s : skyuv_socket_runtime) : skyuv_socket_runtime :=
  let quiet := bool_decide (e_state e = SKYUV_SOCKET_STATE_HALFCLOSE_READ) in
  put p (closed e)
    (s <| rt_clock ::= λ n, if quiet then n else S n |>
       <| rt_events ::= λ l, if negb quiet && env_alloc (rt_clock s)
            then l ++ [plain_event SKYUV_SOCKET_EVENT_ERROR (e_id e) (e_opaque e) error] else l |>).

Lemma wp_end_failed_write p e error (Q : unit → skyuv_socket_runtime → Prop) s :
  rt_slots_locked s = false → rt_entries s !! p = Some e → e_is_udp e = false →
  e_tcp e = HandleActive → e_state e ≠ SKYUV_SOCKET_STATE_CLOSING →
  Q tt (write_failed p e error s) → wp (end_failed_write p (e_state e) error) Q s.
Proof.
  intros Hl Hp Hu Ht Hst HQ. unfold end_failed_write, write_failed in *. wp_step.
  - rewrite bool_decide_eq_true_2 in HQ by done. apply (wp_close_tcp_handle p e); [done..|].
    by destruct s.
  - rewrite bool_decide_eq_false_2 in HQ by done. wp_step. exact HQ.
Qed.

Lemma wp_fail_write p e error (Q : unit → skyuv_socket_runtime → Prop) s :
  rt_slots_locked s = false → rt_entries s !! p = Some e → e_is_udp e = false →
  e_tcp e = HandleActive → e_state e ≠ SKYUV_SOCKET_STATE_CLOSING →
  Q tt (write_failed p e error s) → wp (fail_write p error) Q s.
Proof. intros. unfold fail_write. do 2 wp_step. by apply wp_end_failed_write. Qed.

Lemma wp_pump_write p e (Q : unit → skyuv_socket_runtime → Prop) s :
  rt_slots_locked s = false → rt_entries s !! p = Some e → e_is_udp e = false →
  e_tcp e = HandleActive → e_state e ≠ SKYUV_SOCKET_STATE_CLOSING →
  (e_writing e = true ∨ next_write e = None → Q tt s) →
  (∀ w high low, e_writing e = false → next_write e = Some (w, high, low) →
     let s1 := called (uv_write p (wr_data w) (u32 (wr_size w))) (put p (unqueued high low e) s) in
     let e2 := (unqueued high low e) <| e_queued_bytes ::= λ n, u64 (n - wr_size w) |> in
     Q tt (put p ((unqueued high low e) <| e_inflight := Some w |> <| e_writing := true |>) s1) ∧
     ∀ r, Q tt (write_failed p e2 r (freed (wr_data w) (put p e2 s1)))) →
  wp (pump_write p) Q s.
Proof.
  intros Hl Hp Hu Ht Hst HQ1 HQ2. unfold pump_write. do 3 wp_step; [wp_step; auto|].
  wp_step. apply (wp_take_write p e); [done|]. destruct (next_write e) as [[[w high] low]|] eqn:Hn.
  - destruct (HQ2 w high low) as [Hgood Hbad]; [done..|]. do 3 wp_step.
    + do 3 wp_step. rewrite put_put. exact Hgood.
    + do 2 wp_step. unfold release_write. do 2 wp_step.
      eapply wp_fail_write; [unlocked_tac|lookup_tac|done|done|done|]. apply Hbad.
  - wp_step. auto.
Qed.

Lemma not_writing e : entry_core e → e_writing e = false → e_inflight e = None.
Proof.
  intros [_ Hw _ _ _ _ _ _ _] Hf. rewrite Hf in Hw. symmetry in Hw.
  apply bool_decide_eq_false in Hw. destruct (e_inflight e); naive_solver.
Qed.

(** The entry the pump leaves behind. *)
Lemma idle_entry_ok e : entry_core e → next_write e = None → entry_ok e.
Proof. intros He [Hh Hlo]%next_write_None. split; [done|]. rewrite Hh, Hlo. tauto. Qed.

Lemma started_entry_ok e w high low :
  entry_core e → e_writing e = false → next_write e = Some (w, high, low) →
  e_is_udp e = false → writable_state (e_state e) = true →
  entry_ok ((unqueued high low e) <| e_inflight := Some w |> <| e_writing := true |>).
Proof.
  intros Hcore Hw Hn Hu Hst. pose proof Hcore as []. pose proof (next_write_size _ _ _ _ Hn) as Hsz.
  assert (e_inflight e = None) as Hin by (by apply not_writing).
  split; [split|]; simpl; rewrite ?Hst, ?Hu in *; simpl in *; auto.
  - rewrite eo_queued. f_equal. unfold pending_size. simpl. rewrite Hin. simpl. lia.
  - done.
Qed.

Lemma failed_entry_ok e w high low :
  entry_core e → e_writing e = false → next_write e = Some (w, high, low) →
  e_is_udp e = false → e_state e ≠ SKYUV_SOCKET_STATE_CLOSING → writable_state (e_state e) = true →
  entry_ok (closed ((unqueued high low e) <| e_queued_bytes ::= λ n, u64 (n - wr_size w) |>)).
Proof.
  intros [] Hw Hn Hu Hcl Hst. pose proof (next_write_size _ _ _ _ Hn) as Hsz.
  rewrite closed_tcp by done.
  split; [split|]; unfold phase_ok in *; simpl; rewrite ?Hu in *; simpl in *; auto.
  - destruct (e_state e); naive_solver.
  - rewrite eo_queued. unfold u64. rewrite uwrap_sub_l by lia. f_equal. unfold pending_size. simpl. lia.
  - done.
Qed.

Lemma pending_tcp e :
  entry_ok e → e_pump_pending e = true ∨ is_Some (e_inflight e) →
  e_is_udp e = false ∧ writable_state (e_state e) = true.
Proof.
  intros [[_ _ _ Hnw _ _ _ _ Hpu] _] Hor.
  assert (writable_state (e_state e) && negb (e_is_udp e) = true) as [? ?%negb_true_iff]%andb_true_iff;
    [|done].
  destruct Hor as [?|[w Hw]]; [auto|]. apply not_false_iff_true. intros Hf.
  destruct (Hnw Hf) as (_ & _ & ?). congruence.
Qed.

Lemma writable_active e :
  phase_ok e → e_is_udp e = false → writable_state (e_state e) = true →
  e_state e ≠ SKYUV_SOCKET_STATE_CLOSING →
  e_tcp e = HandleActive ∧ e_udp e = HandleUninit ∧ e_initialized e = true.
Proof. unfold phase_ok. destruct (e_state e); naive_solver. Qed.

(** One turn of the loop over the entries to pump. *)
Lemma pump_entry_handled p e pump s :
  Inv s → rt_entries s !! p = Some e → rt_pump s = p :: pump →
  wp (assign p (λ e, e <| e_pump_pending := false |>) ;;
      follow_up p)
    (λ _ s', handled [] s s' ∧ rt_pump s' = pump) (s <| rt_pump := pump |>).
Proof.
  intros HI Hp Hpu. pose proof HI as [Hl _ Ht]. pose proof (Inv_ok _ _ _ HI Hp) as Hok.
  assert (e_pump_pending e = true) as Hpp.
  { destruct (proj1 (to_pump _ Ht p)) as (f & Hf & ?); [simpl; rewrite Hpu; set_solver|].
    simpl in Hf. congruence. }
  destruct (pending_tcp e Hok) as [Hu Hw]; [by left|].
  assert (entry_core (e <| e_pump_pending := false |>)) as Hcore by (destruct Hok as [[] _]; by split).
  unfold follow_up. do 5 wp_step.
  { wp_step. split; [|done]. pump_pop_tac p e. split; [done|]. auto. }
  destruct (writable_active e) as (Htcp & _ & _); [by apply Hok|done..|].
  eapply wp_pump_write; [done|lookup_tac|done|done|done|..].
  - intros Hidle. split; [|done]. pump_pop_tac p e. 
    destruct Hidle; [split; [done|]; simpl; auto|by apply idle_entry_ok].
  - intros w high low Hnw Hn s1 e2. pose proof (λ b, next_write_buffers b _ _ _ _ Hn) as Hb.
    assert (e_inflight e = None) as Hin by (by apply (not_writing _ Hcore)).
    simpl in Hb. split; [|intros r]; (split; [|done]).
    + pump_pop_tac p e; [by apply started_entry_ok|specialize (Hb b); rewrite Hin; simpl; lia].
    + unfold write_failed. pump_pop_tac p e; [|specialize (Hb b); lia].
      rewrite <- closed_tcp by done. by eapply failed_entry_ok.
Qed.

(** ** Completion of a write *)

Definition settled (now : Z) (w : skyuv_socket_write) (e : skyuv_socket_entry) :
    skyuv_socket_entry :=
  e <| e_queued_bytes ::= λ n, u64 (n - wr_size w) |>
    <| e_write_bytes ::= λ n, u64 (n + wr_size w) |>
    <| e_write_time := now |>
    <| e_writing := false |>.

(** The end of the warning state: the queue has drained. *)
Definition drained (e : skyuv_socket_entry) : bool :=
  (e_queued_bytes e =? 0) && (0 <? e_warn_size e).

Definition calmed (e : skyuv_socket_entry) : skyuv_socket_entry :=
  e <| e_warn_size ::= λ n, if drained e then 0 else n |>.

Definition calm (e : skyuv_socket_entry) (s : skyuv_socket_runtime) : skyuv_socket_runtime :=
  s <| rt_clock ::= λ n, if drained e then S n else n |>
    <| rt_events ::= λ l, if drained e && env_alloc (rt_clock s)
         then l ++ [plain_event SKYUV_SOCKET_EVENT_WARNING (e_id e) (e_opaque e) 0] else l |>.

(** A closed socket: nothing is pumped, and nothing may be closed again. *)
Definition ended (p : positive) (e : skyuv_socket_entry) : R unit :=
  if e_close_requested e then close_after_writes p else skip.

Lemma settled_core now w e :
  entry_ok e → e_inflight e = Some w → entry_core (settled now w (e <| e_inflight := None |>)).
Proof.
  intros [[] _] Hin. split; simpl; auto.
  - rewrite eo_queued. unfold u64. rewrite uwrap_sub_l by lia. f_equal.
    unfold pending_size. rewrite Hin. simpl. lia.
  - intros Hf. destruct (eo_no_writes Hf) as (? & ? & ?). done.
Qed.

Lemma closed_entry_ok e :
  entry_core e → e_is_udp e = false → writable_state (e_state e) = true →
  e_state e ≠ SKYUV_SOCKET_STATE_CLOSING → entry_ok (closed e).
Proof.
  intros Hc Hu Hw Hst. destruct (writable_active e) as (? & ? & ?); [by apply Hc|done..|].
  destruct Hc. rewrite closed_tcp by done. split; [split|]; simpl; rewrite ?Hu, ?Hw in *; simpl in *; auto.
  - unfold phase_ok. simpl. by rewrite Hu.
Qed.

Lemma calmed_core e : entry_core e → entry_core (calmed e).
Proof. intros []. by split. Qed.

(** The run of [settle_write] up to its last decision. *)
Lemma wp_settle_closing p w e (Q : unit → skyuv_socket_runtime → Prop) s :
  rt_slots_locked s = false → rt_entries s !! p = Some e →
  e_state e = SKYUV_SOCKET_STATE_CLOSING →
  wp (ended p e) Q (freed (wr_data w) (put p (settled (rt_current_time s) w e) s)) →
  wp (settle_write p w) Q s.
Proof.
  intros Hl Hp Hst HQ. unfold settle_write, release_write. do 10 wp_step.
  { apply andb_true_iff in H as [_ ?%bool_decide_eq_true]. done. }
  unfold ended in HQ.
  change (wp (if e_close_requested e then close_after_writes p else follow_up p) Q
            (freed (wr_data w) (put p (settled (rt_current_time s) w e) s))).
  destruct (e_close_requested e); [done|]. unfold follow_up.
  do 2 wp_step. rewrite decide_True by done. exact HQ.
Qed.

Lemma wp_settle_open p w e (Q : unit → skyuv_socket_runtime → Prop) s
    (e1 := settled (rt_current_time s) w e) :
  rt_slots_locked s = false → rt_entries s !! p = Some e →
  e_state e ≠ SKYUV_SOCKET_STATE_CLOSING →
  wp (if e_close_requested e then close_after_writes p else pump_write p) Q
     (put p (calmed e1) (calm e1 (freed (wr_data w) s))) →
  wp (settle_write p w) Q s.
Proof.
  intros Hl Hp Hst HQ. unfold settle_write, release_write. do 9 wp_step.
  rewrite bool_decide_eq_true_2, andb_true_r by done.
  change (e <| e_queued_bytes ::= _ |> <| e_write_bytes ::= _ |> <| e_write_time := _ |> <| e_writing := _ |>) with e1.
  fold (drained e1). 
  assert (wp (if e_close_requested e1 then close_after_writes p else follow_up p) Q
     (put p (calmed e1) (calm e1 (freed (wr_data w) s)))) as HQ'.
  { change (e_close_requested e1) with (e_close_requested e).
    destruct (e_close_requested e); [done|]. unfold follow_up. do 2 wp_step. rewrite decide_False by done. exact HQ. }
  unfold calmed, calm in HQ'. destruct (drained e1); unfold whenM;
    [do 3 wp_step|wp_step; exact HQ'].
  change (freed (wr_data w) (put p e1 s)) with (put p e1 (freed (wr_data w) s)).
  rewrite put_put. exact HQ'.
Qed.

(** A completed write that may be followed by a second [uv_close]. *)
Definition closes_twice (e : skyuv_socket_entry) (status : Z) : Prop :=
  e_close_requested e = true ∧ e_high e = [] ∧ e_low e = [] ∧
  (status ≠ 0 ∨ e_state e = SKYUV_SOCKET_STATE_CLOSING).

#[export] Instance closes_twice_dec e status : Decision (closes_twice e status).
Proof. unfold closes_twice. apply _. Defined.

Lemma wp_ended p e e' (Q : unit → skyuv_socket_runtime → Prop) s :
  rt_entries s !! p = Some e' → e_high e' = e_high e → e_low e' = e_low e →
  ¬ (e_close_requested e = true ∧ e_high e = [] ∧ e_low e = []) → Q tt s → wp (ended p e) Q s.
Proof.
  intros Hp Hh Hlo Hn HQ. unfold ended. destruct (e_close_requested e); [|by wp_step].
  unfold close_after_writes. do 2 wp_step. rewrite Hh, Hlo.
  destruct (e_high e); [destruct (e_low e)|]; [tauto|..]; simpl; rewrite ?orb_true_r; by wp_step.
Qed.

(** [close_after_writes] on an open socket. *)
Lemma wp_close_after_writes p e (Q : unit → skyuv_socket_runtime → Prop) s :
  rt_slots_locked s = false → rt_entries s !! p = Some e →
  e_is_udp e = false → e_tcp e = HandleActive →
  Q tt (if e_close_requested e && negb (e_writing e) && bool_decide (next_write e = None)
        then put p (closed e) s else s) →
  wp (close_after_writes p) Q s.
Proof.
  intros Hl Hp Hu Ht HQ. unfold close_after_writes. do 2 wp_step. unfold next_write in HQ.
  destruct (e_close_requested e), (e_writing e), (e_high e), (e_low e); simpl in *;
    try by wp_step.
  by apply (wp_close_tcp_handle p e).
Qed.

(** [x] is the entry [e] of [s] after its write [w] is settled, [s2] the rest
    of the state by then. *)
Record after_settle (p : positive) (e : skyuv_socket_entry) (w : skyuv_socket_write) (x : skyuv_socket_entry)
    (s s2 : skyuv_socket_runtime) : Prop := AfterSettle {
  as_core : entry_core x;
  as_same : (e_id x, e_pump_pending x, e_state x, e_is_udp x, e_tcp x, e_high x, e_low x,
             e_udp_inflight x, e_close_requested x, e_writing x, e_inflight x) =
            (e_id e, e_pump_pending e, e_state e, e_is_udp e, e_tcp e, e_high e, e_low e,
             e_udp_inflight e, e_close_requested e, false, None);
  as_frame : frame_of s2 = frame_of s;
  as_entries x : <[p := x]> (rt_entries s2) = <[p := x]> (rt_entries s);
  as_next : rt_next_ptr s2 = rt_next_ptr s;
  as_account b : account b s2 = account b s + mentions b (option_list (wr_data w));
}.

(** A state [s'] that differs from [s2] in the entry and in what the pump does. *)
Lemma handled_settled p e w x x' s s2 s' :
  Inv s → rt_entries s !! p = Some e → e_inflight e = Some w → after_settle p e w x s s2 →
  e_state e ≠ SKYUV_SOCKET_STATE_CLOSING →
  frame_of s' = frame_of s2 → rt_entries s' = <[p := x']> (rt_entries s2) →
  rt_next_ptr s' = rt_next_ptr s2 → e_id x' = e_id x → e_pump_pending x' = e_pump_pending x →
  entry_ok x' →
  (∀ b, account b s' + mentions b (entry_buffers x') = account b s2 + mentions b (entry_buffers x)) →
  quiet [] s s'.
Proof.
  intros HI Hp Hin [Hcore Hsame Hfr Hen Hnx Hacc] Hst Hf He Hn Hid Hpp Hok Hb.
  injection Hsame as Hid' Hpp' _ _ _ Hh Hlo Hui _ _ Hin'.
  assert (rt_pump s' = rt_pump s) by (rewrite Hfr in Hf; injection Hf; done). split; [|done].
  eapply (handled_entry _ _ _ p e); [done|done|congruence|by rewrite He, Hen|rewrite Hn, Hnx; lia
    |congruence|congruence|done|done|].
  intros b. rewrite Hb, Hacc. unfold entry_buffers. rewrite Hh, Hlo, Hui, Hin', Hin. simpl.
  rewrite !mentions_app, writes_buffers_one. simpl. lia.
Qed.

Lemma settle_tail p e w x s s2 :
  Inv s → rt_entries s !! p = Some e → e_inflight e = Some w → after_settle p e w x s s2 →
  e_state e ≠ SKYUV_SOCKET_STATE_CLOSING →
  wp (if e_close_requested e then close_after_writes p else pump_write p)
    (λ _ s', quiet [] s s') (put p x s2).
Proof.
  intros HI Hp Hin Has Hst. pose proof (Inv_ok _ _ _ HI Hp) as Hok.
  destruct (pending_tcp e Hok) as [Hu Hw]; [by right; eauto|].
  destruct (writable_active e) as (Htcp & _ & _); [by apply Hok|done..|].
  pose proof Has as [Hcore Hsame Hfr Hen _ _].
  injection Hsame as _ _ Hst' Hu' Ht' _ _ _ Hcr' Hwr' Hin'. injection Hfr as _ _ _ _ _ _ _ Hl _ _ _ _ _.
  rewrite (inv_unlocked _ HI) in Hl. rewrite <- Hst' in *. rewrite <- Hcr'. rewrite <- Ht', <- Hu' in *.
  assert (rt_entries (put p x s2) !! p = Some x) as Hx by lookup_tac.
  assert (∀ x' s', frame_of s' = frame_of s2 → rt_entries s' = <[p := x']> (rt_entries s2) →
    rt_next_ptr s' = rt_next_ptr s2 → e_id x' = e_id x → e_pump_pending x' = e_pump_pending x →
    entry_ok x' → (∀ b, account b s' + mentions b (entry_buffers x') =
                        account b s2 + mentions b (entry_buffers x)) → quiet [] s s') as Hfin.
  { intros x' s' ? ? ? ? ? ? ?. by apply (handled_settled p e w x x' s s2 s'); rewrite <- ?Hst'. }
  destruct (e_close_requested x) eqn:Hcr.
  - apply (wp_close_after_writes p x); [done..|]. destruct (_ && _).
    + apply (Hfin (closed x)); rewrite ?closed_tcp by done; try reflexivity.
      * simpl. by rewrite insert_insert_eq.
      * rewrite <- closed_tcp by done. by apply closed_entry_ok.
    + apply (Hfin x); try reflexivity. split; [done|]. auto.
  - apply (wp_pump_write p x); [done..| |].
    + intros [?|Hn]; [congruence|]. apply (Hfin x); try reflexivity. by apply idle_entry_ok.
    + intros w' high low Hnw Hn s1 e2. pose proof (λ b, next_write_buffers b _ _ _ _ Hn) as Hb.
      split; [apply (Hfin ((unqueued high low x) <| e_inflight := Some w' |> <| e_writing := true |>))
             |intros r; unfold write_failed; apply (Hfin (closed e2)); rewrite closed_tcp by done];
        try reflexivity; try (simpl; by rewrite !insert_insert_eq).
      * by apply started_entry_ok.
      * account_tac. specialize (Hb b). rewrite Hin'. simpl. lia.
      * rewrite <- closed_tcp by done. by eapply failed_entry_ok.
      * account_tac. specialize (Hb b). lia.
Qed.

Lemma settled_after p e w s (s0 := put p (e <| e_inflight := None |>) s)
    (e1 := settled (rt_current_time s0) w (e <| e_inflight := None |>)) :
  Inv s → rt_entries s !! p = Some e → e_inflight e = Some w →
  after_settle p e w (calmed e1) s (calm e1 (freed (wr_data w) s0)).
Proof.
  intros HI Hp Hin. pose proof (Inv_ok _ _ _ HI Hp) as Hok. split; try reflexivity.
  - apply calmed_core. by apply settled_core.
  - intros x. simpl. by rewrite insert_insert_eq.
  - unfold calm. account_tac.
Qed.

Lemma write_completed_handled p e w status s :
  Inv s → rt_entries s !! p = Some e → e_inflight e = Some w → ¬ closes_twice e status →
  wp (assign p (λ e, e <| e_inflight := None |>) ;; write_completed p w status)
    (λ _ s', quiet [] s s') s.
Proof.
  intros HI Hp Hin Hct. pose proof HI as [Hl _ _]. pose proof (Inv_ok _ _ _ HI Hp) as Hok.
  destruct (pending_tcp e Hok) as [Hu Hw]; [by right; eauto|].
  pose proof (settled_core (rt_current_time s) w e Hok Hin) as Hcore.
  unfold write_completed. do 6 wp_step.
  - apply andb_true_iff in H as [?%negb_true_iff ?%bool_decide_eq_true].
    destruct (writable_active e) as (Htcp & _ & _); [by apply Hok|done..|].
    eapply (wp_end_failed_write p (e <| e_inflight := None |>)); [done|lookup_tac|done..|].
    unfold write_failed. rewrite closed_tcp by done.
    eapply wp_settle_closing; [done|lookup_tac|done|].
    eapply wp_ended; [lookup_tac|done|done| |].
    { unfold closes_twice in Hct. simpl. intros (? & ? & ?). apply Hct. split_and!; try done. left. lia. }
    handled_tac p e; [|rewrite Hin; simpl; rewrite writes_buffers_one; lia].
    pose proof (closed_entry_ok _ Hcore) as Hc. rewrite closed_tcp in Hc by done. by apply Hc.
  - destruct (decide (e_state e = SKYUV_SOCKET_STATE_CLOSING)) as [Hst|];
      [|eapply wp_settle_open; [done|lookup_tac|done|];
        by apply (settle_tail p e w); [..|by apply settled_after|]].
    eapply wp_settle_closing; [done|lookup_tac|done|].
    eapply wp_ended; [lookup_tac|done|done| |].
    { unfold closes_twice in Hct. simpl. intros (? & ? & ?). apply Hct. split_and!; try done. by right. }
    handled_tac p e; [|rewrite Hin; simpl; rewrite writes_buffers_one; lia].
    split; [done|]. auto.
Qed.

(** ** The second [uv_close]

    A completion that finds nothing left to write on a socket that was asked to
    close and is closing already. *)
Lemma settle_write_faults p w e s :
  rt_slots_locked s = false → rt_entries s !! p = Some e →
  e_state e = SKYUV_SOCKET_STATE_CLOSING → e_tcp e = HandleClosing →
  e_close_requested e = true → e_high e = [] → e_low e = [] →
  faults (settle_write p w) CloseClosing s.
Proof.
  intros Hl Hp Hst Ht Hcr Hh Hlo. unfold settle_write, release_write.
  apply faults_bind. wp_step. apply faults_bind. wp_step.
  apply faults_bind. wp_step. apply faults_bind. wp_step. apply faults_bind. wp_step.
  { apply andb_true_iff in H as [_ ?%bool_decide_eq_true]. done. }
  change (faults (if e_close_requested e then close_after_writes p else follow_up p) CloseClosing
    (freed (wr_data w) (put p (settled (rt_current_time s) w e) s))).
  rewrite Hcr. unfold close_after_writes. apply faults_bind. wp_step.
  change (faults (if negb (e_close_requested e) || false || negb (bool_decide (e_high e = [])) ||
    negb (bool_decide (e_low e = [])) then skip
    else set_entry_state p SKYUV_SOCKET_STATE_CLOSING ;; uv_close_tcp p) CloseClosing
    (freed (wr_data w) (put p (settled (rt_current_time s) w e) s))).
  rewrite Hcr, Hh, Hlo. simpl. apply faults_bind. wp_step. unfold uv_close_tcp. apply faults_bind.
  wp_step. simpl. rewrite Ht. done.
Qed.

Lemma write_completed_faults p e w status s :
  Inv s → rt_entries s !! p = Some e → e_inflight e = Some w → closes_twice e status →
  faults (assign p (λ e, e <| e_inflight := None |>) ;; write_completed p w status) CloseClosing s.
Proof.
  intros HI Hp Hin (Hcr & Hh & Hlo & Hor). pose proof HI as [Hl _ _].
  pose proof (Inv_ok _ _ _ HI Hp) as Hok. destruct (pending_tcp e Hok) as [Hu Hw]; [by right; eauto|].
  apply faults_bind. wp_step. unfold write_completed. apply faults_bind. wp_step. apply faults_bind.
  wp_step.
  - apply andb_true_iff in H as [?%negb_true_iff ?%bool_decide_eq_true].
    destruct (writable_active e) as (Htcp & _ & _); [by apply Hok|done..|].
    eapply (wp_end_failed_write p (e <| e_inflight := None |>)); [done|lookup_tac|done..|].
    unfold write_failed. rewrite closed_tcp by done.
    eapply settle_write_faults; [done|lookup_tac|done..].
  - assert (e_state e = SKYUV_SOCKET_STATE_CLOSING) as Hst.
    { destruct Hor as [Hs|]; [|done]. apply andb_false_iff in H as [H|H].
      - apply negb_false_iff, Z.eqb_eq in H. done.
      - apply bool_decide_eq_false in H. simpl in H. by apply dec_stable. }
    pose proof (eo_phase _ (eo_core _ Hok)) as Hph. unfold phase_ok in Hph. rewrite Hst, Hu in Hph.
    eapply settle_write_faults; [done|lookup_tac|done|by apply Hph|done..].
Qed.

End writes.
