(* ===== verification/Connections.v ===== *)
(** * Connections: signals, reading, listening, connecting, closing

    The callbacks and command handlers of src/src/socket/socket_internal.c
    that move a TCP socket through its states. *)
From S2P Require Import Prelude SocketId Fifo SocketTypes CommandQueue RuntimeState Entries.
From S2P Require Import Invariant Rules Handled Udp Writes.

Section connections.
Context {cfg : SlotConfig} {env : Env}.

(** ** Process signals (Unix) *)

Definition on_hangup_signal : R unit :=
  push_event SKYUV_SOCKET_EVENT_REOPEN_LOG 0 0 0.

Definition on_termination_signal : R unit :=
  modify (λ s, s <| rt_process_shutdown_requested := 1 |>) ;;
  push_event SKYUV_SOCKET_EVENT_PROCESS_SHUTDOWN 0 0 0.

(** [initialize_process_signal] on one of the three watchers. *)
Definition initialize_process_signal (watcher : skyuv_socket_runtime → signal_watcher)
    `{!Setter watcher} (signal_number : Z) : R Z :=
  result ← uv (uv_signal_init signal_number);
  if negb (result =? 0) then mret result
  else
    modify (λ s, s <| watcher := SignalWatcher true HandleActive |>) ;;
    uv (uv_signal_start signal_number).

Definition close_process_signal (watcher : skyuv_socket_runtime → signal_watcher)
    `{!Setter watcher} : R unit :=
  w ← gets watcher;
  if sw_initialized w && negb (uv_is_closing (sw_handle w)) then
    match uv_close_handle (sw_handle w) with
    | inl f => throw f
    | inr h => modify (λ s, s <| watcher := w <| sw_handle := h |> |>)
    end
  else skip.

Definition close_process_signals : R unit :=
  close_process_signal rt_termination ;;
  close_process_signal rt_interrupt ;;
  close_process_signal rt_hangup.

Definition initialize_process_signals : R Z :=
  initialized ← gets rt_process_signals_initialized;
  failed ← gets rt_process_signals_failed;
  if initialized : bool then
    mret (if failed : bool then SKYUV_ERROR_SYSTEM else SKYUV_OK)
  else
    modify (λ s, s <| rt_process_signals_initialized := true |>) ;;
    result ← initialize_process_signal rt_hangup SIGHUP;
    result ← (if result =? 0 then initialize_process_signal rt_interrupt SIGINT else mret result);
    result ← (if result =? 0 then initialize_process_signal rt_termination SIGTERM
              else mret result);
    if negb (result =? 0) then
      close_process_signals ;;
      modify (λ s, s <| rt_process_signals_failed := true |>) ;;
      mret SKYUV_ERROR_SYSTEM
    else mret SKYUV_OK.

(** ** Names *)

(** [snprintf] into 128 bytes keeps 127 characters. *)
Definition snprintf128 (s : string) : string := String.substring 0 127 s.

Definition socket_name (address : sockaddr) : option string :=
  match address with
  | sockaddr_in port _ =>
      ip ← uv_ip_name address;
      Some (snprintf128 (ip +:+ ":" +:+ pretty (ntohs port)))
  | sockaddr_in6 port _ _ =>
      ip ← uv_ip_name address;
      Some (snprintf128 ("[" +:+ ip +:+ "]:" +:+ pretty (ntohs port)))
  | sockaddr_other _ => None
  end.

(** [uv_tcp_getpeername] or [uv_tcp_getsockname]. *)
Definition getname (p : positive) (peer : bool) : R (Z + sockaddr) := λ s,
  Ret (env_getname peer p (rt_clock s)) (s <| rt_clock ::= S |>).

Definition cache_tcp_name (p : positive) (peer : bool) : R unit :=
  result ← getname p peer;
  match result with
  | inl _ => skip
  | inr address =>
      match socket_name address with
      | None => skip
      | Some name => assign_locked p (λ e, e <| e_name := name |>)
      end
  end.

(** ** Reading *)

Definition push_data_event (p : positive) (data : option buffer) (size : Z) : R unit :=
  ok ← alloc;
  if negb ok then free_buffer data
  else
    e ← deref p;
    assign_timed p (λ now e, e <| e_read_bytes ::= λ n, u64 (n + size) |>
                               <| e_read_time := now |>) ;;
    append_event (Event SKYUV_SOCKET_EVENT_DATA (e_id e) (e_opaque e) 0 data size).

Definition read_completed (p : positive) (nread : Z) (base : option buffer) : R unit :=
  if 0 <? nread then push_data_event p base nread
  else
    free_buffer base ;;
    if nread =? 0 then skip
    else if nread =? UV_EOF then
      state ← entry_state p;
      if decide (state = SKYUV_SOCKET_STATE_HALFCLOSE_READ) then skip
      else
        assign_locked p (λ e, e <| e_reading := false |>) ;;
        e ← deref p;
        push_event SKYUV_SOCKET_EVENT_CLOSE (e_id e) (e_opaque e) 0 ;;
        set_entry_state p SKYUV_SOCKET_STATE_HALFCLOSE_READ
    else finish_entry p SKYUV_SOCKET_EVENT_ERROR nread.

Definition start_reading (p : positive) : R Z :=
  result ← uv (uv_read_start p);
  whenM (result =? 0) (assign_locked p (λ e, e <| e_reading := true |>)) ;;
  mret result.

(** ** Connecting and accepting *)

Definition connect_completed (p : positive) (status : Z) : R unit :=
  state ← entry_state p;
  if decide (state = SKYUV_SOCKET_STATE_CLOSING) then skip
  else if negb (status =? 0) then reject_entry p status
  else
    status ← start_reading p;
    if negb (status =? 0) then reject_entry p status
    else
      set_entry_state p SKYUV_SOCKET_STATE_CONNECTED ;;
      cache_tcp_name p true ;;
      e ← deref p;
      push_event SKYUV_SOCKET_EVENT_OPEN (e_id e) (e_opaque e) 0.

(** [uv_tcp_init] on the entry's handle, with the assignments that follow it. *)
Definition init_tcp (p : positive) : R Z :=
  result ← uv (uv_tcp_init p);
  whenM (result =? 0)
    (assign p (λ e, e <| e_tcp := HandleActive |>) ;;
     assign p (λ e, e <| e_initialized := true |>)) ;;
  mret result.

Definition accept_connection (server : positive) (status : Z) : R unit :=
  listener ← deref server;
  if status <? 0 then
    push_event SKYUV_SOCKET_EVENT_ERROR (e_id listener) (e_opaque listener) status
  else
    '(result, accepted) ← reserve_entry (e_opaque listener);
    match accepted with
    | None => skip
    | Some accepted =>
        result ← init_tcp accepted;
        if negb (result =? 0) then discard_uninitialized_entry accepted
        else
          result ← uv (uv_accept server accepted);
          if negb (result =? 0) then reject_entry accepted result
          else
            set_entry_state accepted SKYUV_SOCKET_STATE_ACCEPTED_PAUSED ;;
            cache_tcp_name accepted true ;;
            assign_timed server (λ now e, e <| e_accept_count ::= λ n, u64 (n + 1) |>
                                            <| e_read_time := now |>) ;;
            listener ← deref server;
            e ← deref accepted;
            push_event SKYUV_SOCKET_EVENT_ACCEPT (e_id listener) (e_opaque listener) (e_id e)
    end.

(** ** Command handlers *)

Definition process_listen (command : skyuv_socket_command) (host : string) (port backlog : Z) :
    R unit :=
  found ← find_in_state (cmd_id command) SKYUV_SOCKET_STATE_RESERVED;
  match found with
  | None => skip
  | Some p =>
      set_entry_state p SKYUV_SOCKET_STATE_LISTEN_PENDING ;;
      match resolve_literal host port with
      | inl result => fail_uninitialized p result
      | inr address =>
          result ← init_tcp p;
          if negb (result =? 0) then fail_uninitialized p result
          else
            result ← uv (uv_tcp_bind p address);
            result ← (if result =? 0 then uv (uv_listen p backlog) else mret result);
            if negb (result =? 0) then reject_entry p result
            else
              set_entry_state p SKYUV_SOCKET_STATE_LISTENING ;;
              cache_tcp_name p false ;;
              name ← getname p false;
              let port :=
                match name with
                | inr (sockaddr_in bound _) | inr (sockaddr_in6 bound _ _) => ntohs bound
                | _ => port
                end in
              e ← deref p;
              push_event SKYUV_SOCKET_EVENT_OPEN (e_id e) (e_opaque e) port
      end
  end.

Definition process_start (command : skyuv_socket_command) : R unit :=
  found ← find_entry (cmd_id command);
  match found with
  | None =>
      push_event SKYUV_SOCKET_EVENT_ERROR (cmd_id command) (cmd_opaque command) UV_EINVAL
  | Some p =>
      state ← entry_state p;
      if decide (state = SKYUV_SOCKET_STATE_LISTENING ∨ state = SKYUV_SOCKET_STATE_CONNECTED) then
        assign_locked p (λ e, e <| e_opaque := cmd_opaque command |>) ;;
        e ← deref p;
        push_event SKYUV_SOCKET_EVENT_OPEN (e_id e) (e_opaque e) 0
      else if decide (state ≠ SKYUV_SOCKET_STATE_ACCEPTED_PAUSED ∧
                      state ≠ SKYUV_SOCKET_STATE_CONNECTED_PAUSED) then
        push_event SKYUV_SOCKET_EVENT_ERROR (cmd_id command) (cmd_opaque command) UV_EINVAL
      else
        assign_locked p (λ e, e <| e_opaque := cmd_opaque command |>) ;;
        result ← start_reading p;
        if negb (result =? 0) then reject_entry p result
        else
          set_entry_state p SKYUV_SOCKET_STATE_CONNECTED ;;
          e ← deref p;
          push_event SKYUV_SOCKET_EVENT_OPEN (e_id e) (e_opaque e) 0
  end.

Definition process_pause (command : skyuv_socket_command) : R unit :=
  found ← find_in_state (cmd_id command) SKYUV_SOCKET_STATE_CONNECTED;
  match found with
  | None => skip
  | Some p =>
      result ← uv (uv_read_stop p);
      if negb (result =? 0) then
        e ← deref p;
        push_event SKYUV_SOCKET_EVENT_ERROR (e_id e) (e_opaque e) result
      else
        assign_locked p (λ e, e <| e_reading := false |>) ;;
        set_entry_state p SKYUV_SOCKET_STATE_CONNECTED_PAUSED
  end.

Definition process_nodelay (command : skyuv_socket_command) : R unit :=
  found ← find_entry (cmd_id command);
  match found with
  | None => skip
  | Some p =>
      state ← entry_state p;
      if decide (state ≠ SKYUV_SOCKET_STATE_CONNECTED ∧
                 state ≠ SKYUV_SOCKET_STATE_CONNECTED_PAUSED ∧
                 state ≠ SKYUV_SOCKET_STATE_HALFCLOSE_READ) then skip
      else uv (uv_tcp_nodelay p) ;; skip
  end.

Definition process_connect (command : skyuv_socket_command) (host : string) (port : Z) : R unit :=
  found ← find_in_state (cmd_id command) SKYUV_SOCKET_STATE_RESERVED;
  match found with
  | None => skip
  | Some p =>
      match resolve_literal host port with
      | inl result => fail_uninitialized p result
      | inr address =>
          result ← init_tcp p;
          if negb (result =? 0) then fail_uninitialized p result
          else
            set_entry_state p SKYUV_SOCKET_STATE_CONNECTING ;;
            result ← uv (uv_tcp_connect p address);
            if negb (result =? 0) then reject_entry p result
            else assign p (λ e, e <| e_connecting := true |>)
      end
  end.

(** Built with [SKYUV_SOCKET_EXTERNAL_FD], as on Unix. *)
Definition process_bind (command : skyuv_socket_command) (fd : Z) : R unit :=
  found ← find_in_state (cmd_id command) SKYUV_SOCKET_STATE_RESERVED;
  match found with
  | None => skip
  | Some p =>
      result ← init_tcp p;
      if negb (result =? 0) then fail_uninitialized p result
      else
        result ← uv (uv_tcp_open p fd);
        result ← (if result =? 0 then start_reading p else mret result);
        if negb (result =? 0) then reject_entry p result
        else
          set_entry_state p SKYUV_SOCKET_STATE_CONNECTED ;;
          cache_tcp_name p true ;;
          e ← deref p;
          push_event SKYUV_SOCKET_EVENT_OPEN (e_id e) (e_opaque e) 0
  end.

(** [shutdown] tells SHUTDOWN from CLOSE. *)
Definition process_close (command : skyuv_socket_command) (shutdown : bool) : R unit :=
  found ← find_entry (cmd_id command);
  match found with
  | None => skip
  | Some p =>
      state ← entry_state p;
      if decide (state = SKYUV_SOCKET_STATE_CLOSING) then skip
      else
        assign_locked p (λ e, e <| e_opaque := cmd_opaque command |>) ;;
        e ← deref p;
        whenM (bool_decide (state ≠ SKYUV_SOCKET_STATE_HALFCLOSE_READ))
          (push_event SKYUV_SOCKET_EVENT_CLOSE (e_id e) (e_opaque e) 0) ;;
        if negb (e_initialized e) then discard_uninitialized_entry p
        else if negb shutdown && negb (e_is_udp e) && (0 <? e_queued_bytes e) then
          uv (uv_read_stop p) ;;
          assign_locked p (λ e, e <| e_reading := false |> <| e_close_requested := true |>) ;;
          close_after_writes p
        else
          set_entry_state p SKYUV_SOCKET_STATE_CLOSING ;;
          uv_close_entry p
  end.

(** ** Exit *)

(** The body of the loop over the slots. *)
Definition exit_slot (slot : Z) : R unit :=
  entry ← gets (λ s, rt_slots s !! slot);
  match entry with
  | None => skip
  | Some p =>
      e ← deref p;
      if negb (e_initialized e) then discard_uninitialized_entry p
      else if negb (uv_is_closing (entry_handle e)) then
        set_entry_state p SKYUV_SOCKET_STATE_CLOSING ;;
        uv_close_entry p
      else skip
  end.

Definition close_async : R unit :=
  h ← gets rt_async;
  match uv_close_handle h with
  | inl f => throw f
  | inr h => modify (λ s, s <| rt_async := h |>)
  end.

Definition process_exit : R unit :=
  modify (λ s, s <| rt_exiting := true |>) ;;
  forM (counter SKYUV_SOCKET_SLOT_COUNT) exit_slot ;;
  close_process_signals ;;
  close_async ;;
  update_exit_ready.

(** ** Rules *)

Lemma wp_cache_tcp_name p peer e (Q : unit → skyuv_socket_runtime → Prop) s :
  rt_slots_locked s = false → rt_entries s !! p = Some e →
  (∀ name, Q tt (put p (e <| e_name := name |>) (s <| rt_clock ::= S |>))) →
  wp (cache_tcp_name p peer) Q s.
Proof.
  intros Hl Hp HQ. unfold cache_tcp_name, getname. apply wp_bind. unfold wp at 1.
  specialize (HQ (e_name e)) as HQ0.
  assert (put p (e <| e_name := e_name e |>) (s <| rt_clock ::= S |>) = s <| rt_clock ::= S |>) as Heq.
  { destruct s, e; unfold put, upd_field, set_rt_entries; simpl in *. by rewrite insert_id. }
  rewrite Heq in HQ0. wp_steps; auto.
Qed.

Lemma wp_getname p peer (Q : Z + sockaddr → skyuv_socket_runtime → Prop) s :
  (∀ r, Q r (s <| rt_clock ::= S |>)) → wp (getname p peer) Q s.
Proof. intros HQ. apply HQ. Qed.

Lemma wp_start_reading p e (Q : Z → skyuv_socket_runtime → Prop) s :
  rt_slots_locked s = false → rt_entries s !! p = Some e →
  (∀ r, r ≠ 0 → Q r (called (uv_read_start p) s)) →
  Q 0 (put p (e <| e_reading := true |>) (called (uv_read_start p) s)) →
  wp (start_reading p) Q s.
Proof.
  intros Hl Hp HQ HQ0. unfold start_reading. do 4 wp_step; wp_steps.
  - apply Z.eqb_eq in H as ->. done.
  - apply Z.eqb_neq in H. auto.
Qed.

Lemma wp_init_tcp p e (Q : Z → skyuv_socket_runtime → Prop) s :
  rt_entries s !! p = Some e →
  (∀ r, r ≠ 0 → Q r (called (uv_tcp_init p) s)) →
  Q 0 (put p (e <| e_tcp := HandleActive |> <| e_initialized := true |>) (called (uv_tcp_init p) s)) →
  wp (init_tcp p) Q s.
Proof.
  intros Hp HQ HQ0. unfold init_tcp. do 4 wp_step; wp_steps.
  - apply Z.eqb_eq in H as ->. by rewrite put_put.
  - apply Z.eqb_neq in H. auto.
Qed.

End connections.

(** [wp_step] with the rules above. *)
Ltac conn_step :=
  cbv beta match;
  lazymatch goal with
  | |- wp (cache_tcp_name _ _) _ _ =>
      eapply wp_cache_tcp_name; [unlocked_tac|lookup_tac|intros ?]
  | |- wp (getname _ _) _ _ => apply wp_getname; intros ?
  | |- wp (start_reading _) _ _ =>
      eapply wp_start_reading; [unlocked_tac|lookup_tac|intros ? ?|]
  | |- wp (init_tcp _) _ _ => eapply wp_init_tcp; [lookup_tac|intros ? ?|]
  | |- wp (if negb (0 =? 0) then _ else _) _ _ => change (negb (0 =? 0)) with false
  | |- _ => wp_step
  end.

Ltac conn_steps := repeat conn_step.

Section invariant.
Context {cfg : SlotConfig} {env : Env}.

Lemma process_pause_handled command s :
  Inv s → wp (process_pause command) (λ _ s', handled [] s s') s.
Proof.
  intros HI. pose proof HI as [Hl Hq Ht]. unfold process_pause.
  wp_step. apply wp_find_in_state; [done|done| |wp_steps; by apply handled_refl].
  intros p e Hp Hid Hst. pose proof (Inv_ok _ _ _ HI Hp) as Hok.
  conn_steps; handled_tac p e; entry_ok_tac.
Qed.

Lemma process_nodelay_handled command s :
  Inv s → wp (process_nodelay command) (λ _ s', handled [] s s') s.
Proof.
  intros HI. pose proof HI as [Hl Hq Ht]. unfold process_nodelay.
  wp_step. apply wp_find_entry; [done| |intros; wp_steps; by apply handled_refl].
  intros p e Hp Hid. conn_steps; same_tac.
Qed.

Lemma process_connect_handled command host port s :
  Inv s → wp (process_connect command host port) (λ _ s', handled [] s s') s.
Proof.
  intros HI. pose proof HI as [Hl Hq Ht]. unfold process_connect.
  wp_step. apply wp_find_in_state; [done|done| |wp_steps; by apply handled_refl].
  intros p e Hp Hid Hst. pose proof (Inv_ok _ _ _ HI Hp) as Hok.
  phase_facts Hok Hst. idle_facts e Hok Hst. conn_steps; handled_tac p e; entry_ok_tac.
Qed.

Lemma process_bind_handled command fd s :
  Inv s → wp (process_bind command fd) (λ _ s', handled [] s s') s.
Proof.
  intros HI. pose proof HI as [Hl Hq Ht]. unfold process_bind.
  wp_step. apply wp_find_in_state; [done|done| |wp_steps; by apply handled_refl].
  intros p e Hp Hid Hst. pose proof (Inv_ok _ _ _ HI Hp) as Hok.
  phase_facts Hok Hst. idle_facts e Hok Hst. conn_steps; handled_tac p e; entry_ok_tac.
Qed.

Lemma process_listen_handled command host port backlog s :
  Inv s → wp (process_listen command host port backlog) (λ _ s', handled [] s s') s.
Proof.
  intros HI. pose proof HI as [Hl Hq Ht]. unfold process_listen.
  wp_step. apply wp_find_in_state; [done|done| |wp_steps; by apply handled_refl].
  intros p e Hp Hid Hst. pose proof (Inv_ok _ _ _ HI Hp) as Hok.
  phase_facts Hok Hst. idle_facts e Hok Hst. conn_steps; handled_tac p e; entry_ok_tac.
Qed.

Lemma process_start_handled command s :
  Inv s → wp (process_start command) (λ _ s', handled [] s s') s.
Proof.
  intros HI. pose proof HI as [Hl Hq Ht]. unfold process_start.
  wp_step. apply wp_find_entry; [done| |intros; wp_steps; same_tac].
  intros p e Hp Hid. pose proof (Inv_ok _ _ _ HI Hp) as Hok.
  do 3 conn_step; [conn_steps; handled_tac p e; entry_ok_tac|].
  conn_step; [conn_steps; same_tac|].
  assert (e_state e = SKYUV_SOCKET_STATE_ACCEPTED_PAUSED ∨
          e_state e = SKYUV_SOCKET_STATE_CONNECTED_PAUSED) as [Hst|Hst]
    by (destruct (e_state e); naive_solver);
    phase_facts Hok Hst; conn_steps; handled_tac p e; entry_ok_tac.
Qed.

Lemma connect_completed_handled p e status s :
  Inv s → rt_entries s !! p = Some e → e_connecting e = true →
  wp (assign p (λ e, e <| e_connecting := false |>) ;; connect_completed p status)
    (λ _ s', quiet [] s s') s.
Proof.
  intros HI Hp Hco. pose proof HI as [Hl Hq Ht]. pose proof (Inv_ok _ _ _ HI Hp) as Hok.
  unfold connect_completed. do 5 conn_step; [conn_steps; handled_tac p e; entry_ok_tac|].
  destruct (eo_connecting _ (eo_core _ Hok) Hco) as [Hst|]; [|done].
  phase_facts Hok Hst; conn_steps; handled_tac p e; entry_ok_tac.
Qed.

Lemma read_completed_handled p e nread base s :
  Inv s → rt_entries s !! p = Some e → e_state e = SKYUV_SOCKET_STATE_CONNECTED →
  wp (read_completed p nread base) (λ _ s', quiet (option_list base) s s') s.
Proof.
  intros HI Hp Hst. pose proof HI as [Hl Hq Ht]. pose proof (Inv_ok _ _ _ HI Hp) as Hok.
  phase_facts Hok Hst. unfold read_completed, push_data_event.
  conn_steps; handled_tac p e; entry_ok_tac.
Qed.

End invariant.
