(* ===== verification/Lifecycle.v ===== *)
(** * Closing and exiting

    The invariant through the handlers that end sockets: CLOSE and SHUTDOWN,
    the close callback, EXIT; and through those that begin them: reserving a
    slot and accepting a connection. *)
From S2P Require Import Prelude SocketId Fifo SocketTypes CommandQueue RuntimeState Entries.
From S2P Require Import Invariant Rules Handled Slots Udp Writes Connections.

Section lifecycle.
Context {cfg : SlotConfig} {env : Env}.

(** A CLOSE finds something to wait for only where a write is queued. *)
Lemma queued_busy e :
  entry_core e → 0 < e_queued_bytes e → e_writing e = true ∨ e_high e ≠ [] ∨ e_low e ≠ [].
Proof.
  intros Hc Hq. destruct (e_writing e) eqn:Hw; [auto|]. right.
  pose proof (not_writing _ Hc Hw) as Hin. rewrite (eo_queued _ Hc) in Hq.
  unfold pending_size in Hq. rewrite Hin in Hq.
  destruct (e_high e); [|by left]. destruct (e_low e); [done|by right].
Qed.

Lemma uninitialized_reserved e :
  entry_core e → e_initialized e = false →
  e_state e = SKYUV_SOCKET_STATE_RESERVED ∧ e_is_udp e = false.
Proof. intros [Hph _ _ _ _ _ _ _ _] Hi. unfold phase_ok in Hph. destruct (e_state e); intuition congruence. Qed.

Lemma open_handle e :
  entry_core e → e_initialized e = true → e_state e ≠ SKYUV_SOCKET_STATE_CLOSING →
  entry_handle e = HandleActive.
Proof.
  intros [Hph _ _ _ _ _ _ _ _] Hi Hst. unfold phase_ok, entry_handle in *.
  destruct (e_state e), (e_is_udp e); intuition congruence.
Qed.

Lemma closed_ok e :
  entry_ok e → e_initialized e = true → e_state e ≠ SKYUV_SOCKET_STATE_CLOSING →
  entry_ok (closed e).
Proof.
  intros [Hc Hpr] Hi Hst. destruct (e_is_udp e) eqn:Hu.
  - rewrite closed_udp by done. destruct Hc. unfold phase_ok in *. 
    split; [split|]; unfold phase_ok; simpl; rewrite ?Hu in *; simpl in *; rewrite ?andb_false_r in *; auto.
    destruct (e_state e); intuition congruence.
  - rewrite closed_tcp by done. destruct Hc. unfold phase_ok in *.
    split; [split|]; unfold phase_ok; simpl; rewrite ?Hu in *; simpl in *; auto.
    + destruct (e_state e); intuition congruence.
    + done.
Qed.

Lemma closed_same e :
  e_id (closed e) = e_id e ∧ e_pump_pending (closed e) = e_pump_pending e ∧
  e_state (closed e) = SKYUV_SOCKET_STATE_CLOSING ∧ entry_buffers (closed e) = entry_buffers e.
Proof. unfold closed. simpl. by destruct (e_is_udp e). Qed.

(** An initialised socket is closed. *)
Lemma closed_handled p e e1 s s1 :
  Inv s → rt_entries s !! p = Some e → entry_ok e1 → e_id e1 = e_id e →
  e_pump_pending e1 = e_pump_pending e → entry_buffers e1 = entry_buffers e →
  e_initialized e1 = true → e_state e1 ≠ SKYUV_SOCKET_STATE_CLOSING →
  frame_of s1 = frame_of s → rt_entries s1 = <[p := e1]> (rt_entries s) →
  rt_next_ptr s1 = rt_next_ptr s → (∀ b, account b s1 = account b s) →
  handled [] s (put p (closed e1) s1).
Proof.
  intros HI Hp Hok Hid Hpp Hbu Hi Hst Hf He Hn Ha. destruct (closed_same e1) as (Hi1 & Hp1 & Hs1 & Hb1).
  eapply (handled_entry _ _ _ p e); [done|done|exact Hf|simpl; by rewrite He, insert_insert_eq
    |simpl; rewrite Hn; lia|congruence|congruence|by apply closed_ok|by rewrite Hs1|].
  intros b. specialize (Ha b). rewrite Hb1, Hbu. unfold account in *. simpl. lia.
Qed.

Lemma queued_tcp e :
  entry_core e → 0 < e_queued_bytes e → e_is_udp e = false ∧ writable_state (e_state e) = true.
Proof.
  intros Hc Hq. assert (writable_state (e_state e) && negb (e_is_udp e) = true)
    as [? ?%negb_true_iff]%andb_true_iff; [|done].
  apply not_false_iff_true. intros Hf. destruct (eo_no_writes _ Hc Hf) as (Hh & Hlo & Hin).
  rewrite (eo_queued _ Hc) in Hq. unfold pending_size in Hq. by rewrite Hh, Hlo, Hin in Hq.
Qed.

(** The tail of [process_close] that waits for the queue to drain. *)
Lemma graceful_close_handled p e opaque s s1 :
  Inv s → rt_entries s !! p = Some e → 0 < e_queued_bytes e →
  e_state e ≠ SKYUV_SOCKET_STATE_CLOSING →
  frame_of s1 = frame_of s → rt_entries s1 = <[p := e <| e_opaque := opaque |>]> (rt_entries s) →
  rt_next_ptr s1 = rt_next_ptr s → (∀ b, account b s1 = account b s) →
  wp (uv (uv_read_stop p) ;;
      assign_locked p (λ e, e <| e_reading := false |> <| e_close_requested := true |>) ;;
      close_after_writes p) (λ _ s', handled [] s s') s1.
Proof.
  intros HI Hp Hqb Hst Hf He Hn Ha. pose proof HI as [Hl Hq Ht].
  pose proof (Inv_ok _ _ _ HI Hp) as Hok. pose proof (eo_core _ Hok) as Hc.
  assert (rt_slots_locked s1 = false) by (injection Hf; congruence).
  destruct (queued_tcp e Hc Hqb) as [Hu Hw]. 
  destruct (writable_active e) as (Htcp & _ & _); [by apply Hc|done..|].
  assert (rt_entries s1 !! p = Some (e <| e_opaque := opaque |>)) as Hp1
    by (by rewrite He, lookup_insert_eq).
  do 4 wp_step. eapply wp_close_after_writes; [done|lookup_tac|done|done|].
  destruct (_ && bool_decide _) eqn:Hcond.
  { exfalso. apply andb_true_iff in Hcond as [[_ ?]%andb_true_iff [? ?]%bool_decide_eq_true%next_write_None].
    destruct (queued_busy e Hc Hqb) as [Hb|Hb]; simpl in *; [by rewrite Hb in *|by destruct Hb]. }
  eapply (handled_entry _ _ _ p e); [done|done|exact Hf|simpl; by rewrite He, insert_insert_eq
    |simpl; rewrite Hn; lia|done|done| |done|].
  - destruct Hc. split; [split|]; simpl; rewrite ?Hw, ?Hu in *; auto; done.
  - intros b. specialize (Ha b). unfold account in *. simpl. unfold entry_buffers. simpl. lia.
Qed.
(** The close callback. *)
Lemma wp_release_writes l (Q : unit → skyuv_socket_runtime → Prop) s :
  Q tt (s <| rt_freed ::= λ f, f ++ writes_buffers l |>) → wp (release_writes l) Q s.
Proof.
  revert s. induction l as [|w l IH]; intros s HQ; simpl.
  - wp_step. unfold writes_buffers in HQ. simpl in HQ. destruct s; simpl in *.
    unfold upd_field, set_rt_freed in HQ. simpl in HQ. by rewrite app_nil_r in HQ.
  - unfold release_write. do 2 wp_step. apply IH. unfold writes_buffers in *. simpl in HQ.
    destruct s; unfold freed, upd_field, set_rt_freed in *; simpl in *. by rewrite <- app_assoc.
Qed.

Lemma close_entry_handled p e s :
  Inv s → rt_entries s !! p = Some e → e_pump_pending e = false →
  e_inflight e = None → e_udp_inflight e = [] →
  wp (close_entry p) (λ _ s', quiet [] s s' ∧
    rt_exit_ready s' = (rt_exiting s && (u32 (rt_entry_count s - 1) =? 0)) || rt_exit_ready s) s.
Proof.
  intros HI Hp Hpp Hin Hui. pose proof HI as [Hl Hq Ht]. unfold close_entry.
  do 3 wp_step. apply wp_release_writes. do 3 wp_step. apply wp_release_writes. do 2 wp_step.
  eapply wp_discard; [done|lookup_tac|simpl; by eapply Inv_slot|].
  split; [|reflexivity]. split; [|reflexivity]. removed_tac p e; [done|]. intros b. unfold account, entry_buffers. rewrite Hin, Hui. simpl.
  rewrite !mentions_app. simpl. lia.
Qed.

(** ** Exit *)

(** The sockets in the slots [l] are closing. *)
Definition slots_closing (l : list Z) (s : skyuv_socket_runtime) : Prop :=
  ∀ p e, rt_entries s !! p = Some e → skyuv_socket_id_slot (e_id e) ∈ l →
    e_state e = SKYUV_SOCKET_STATE_CLOSING.

Lemma slots_closing_ages l s s' :
  Inv s' → rt_next_ptr s' = rt_next_ptr s → ages s s' → slots_closing l s → slots_closing l s'.
Proof.
  intros HI Hn Ha Hc p e Hp Hl. destruct (Ha p e Hp) as [(f & Hf & Hid & Hst)|[Hle _]].
  - rewrite Hid in Hl. eauto.
  - destruct HI as [_ _ [He _ _ _ _]]. destruct (He p e Hp) as (_ & _ & ?). simpl in *. lia.
Qed.

Lemma closing_handle e :
  entry_core e → e_initialized e = true →
  uv_is_closing (entry_handle e) = bool_decide (e_state e = SKYUV_SOCKET_STATE_CLOSING).
Proof.
  intros [Hph _ _ _ _ _ _ _ _] Hi. unfold phase_ok, entry_handle, uv_is_closing in *.
  destruct (e_state e), (e_is_udp e); simpl in *; destruct_and?; try congruence;
    by repeat match goal with H : _ = _ |- _ => rewrite H in * end.
Qed.

Lemma exit_slot_handled slot s :
  Inv s → wp (exit_slot slot) (λ _ s', handled [] s s' ∧ rt_next_ptr s' = rt_next_ptr s ∧
    slots_closing [slot] s') s.
Proof.
  intros HI. pose proof HI as [Hl Hq Ht]. unfold exit_slot. do 2 wp_step.
  assert (∀ q f, rt_entries s !! q = Some f → skyuv_socket_id_slot (e_id f) = slot →
    rt_slots s !! slot = Some q) as Hsl by (intros q f Hqf <-; by eapply Inv_slot).
  destruct (rt_slots s !! slot) as [p|] eqn:Hs.
  2:{ wp_step. split_and!; [by apply handled_refl|done|].
      intros q f Hqf Hin%list_elem_of_singleton. naive_solver. }
  destruct (to_slot _ Ht slot p Hs) as (e & Hp & Hid). simpl in Hp.
  pose proof (Inv_ok _ _ _ HI Hp) as Hok. pose proof (eo_core _ Hok) as Hc.
  assert (∀ q f, rt_entries s !! q = Some f → skyuv_socket_id_slot (e_id f) ∈ [slot] → q = p) as Honly.
  { intros q f Hqf Hin%list_elem_of_singleton. pose proof (Hsl q f Hqf Hin). congruence. }
  do 3 wp_step.
  - apply negb_true_iff in Heqb. destruct (uninitialized_reserved e Hc Heqb) as [Hres Hu].
    idle_facts e Hok Hres.
    eapply wp_discard; [done|exact Hp|by rewrite Hid|]. split_and!; [handled_tac p e|done|].
    intros q f Hqf Hsi. simpl in Hqf. apply lookup_delete_Some in Hqf as [Hne Hqf]. by destruct Hne; symmetry; eauto.
  - apply negb_false_iff in Heqb. rewrite (closing_handle e Hc Heqb).
    destruct (bool_decide_reflect (e_state e = SKYUV_SOCKET_STATE_CLOSING)) as [Hst|Hst]; simpl.
    + wp_step. split_and!; [by apply handled_refl|done|]. intros q f Hqf Hin.
      rewrite (Honly q f Hqf Hin) in Hqf. congruence.
    + eapply wp_close_handle; [done|exact Hp|by apply open_handle|].
      split_and!; [|done|].
      * eapply (closed_handled p e e); try done. by rewrite insert_id.
      * intros q f Hqf Hin. simpl in Hqf. apply lookup_insert_Some in Hqf as [[<- <-]|[Hne Hqf]];
          [by apply closed_same|].
        by destruct Hne; symmetry; eauto.
Qed.

Lemma exit_slots_handled l s :
  Inv s → wp (forM l exit_slot) (λ _ s', handled [] s s' ∧ rt_next_ptr s' = rt_next_ptr s ∧
    slots_closing l s') s.
Proof.
  revert s. induction l as [|slot l IH]; intros s HI; simpl.
  { wp_step. split_and!; [by apply handled_refl|done|]. intros ? ? _ []%not_elem_of_nil. }
  wp_step. eapply wp_mono; [by apply exit_slot_handled|]. intros [] s1 (Hh1 & Hn1 & Hc1).
  eapply wp_mono; [apply IH, Hh1|]. intros [] s2 (Hh2 & Hn2 & Hc2).
  split_and!; [by apply (handled_trans [] [] s s1 s2)|congruence|].
  intros p e Hp [Heq|Hin]%elem_of_cons; [|by eapply Hc2].
  eapply (slots_closing_ages [slot] s1 s2); [apply Hh2|done|apply Hh2|done|done|].
  by apply list_elem_of_singleton.
Qed.

Lemma process_close_handled command shutdown s :
  Inv s → wp (process_close command shutdown) (λ _ s', handled [] s s') s.
Proof.
  intros HI. pose proof HI as [Hl Hq Ht]. unfold process_close.
  wp_step. apply wp_find_entry; [done| |intros; wp_steps; by apply handled_refl].
  intros p e Hp Hid. pose proof (Inv_ok _ _ _ HI Hp) as Hok. pose proof (eo_core _ Hok) as Hc.
  do 3 wp_step; [wp_step; by apply handled_refl|].
  assert (entry_ok (e <| e_opaque := cmd_opaque command |>)) as Hok1
    by (destruct Hok as [[] ?]; by (split; [split|])).
  do 5 wp_step.
  apply (wp_mono _ (λ _ s1, frame_of s1 = frame_of s ∧
    rt_entries s1 = <[p := e <| e_opaque := cmd_opaque command |>]> (rt_entries s) ∧
    rt_next_ptr s1 = rt_next_ptr s ∧ (∀ b, account b s1 = account b s))).
  { wp_steps; split_and!; try done. account_tac. }
  intros [] s1 (Hf & He & Hn & Ha).
  assert (rt_slots_locked s1 = false) by (injection Hf; congruence).
  assert (rt_slots s1 = rt_slots s) as Hsl by (injection Hf; congruence).
  assert (rt_entries s1 !! p = Some (e <| e_opaque := cmd_opaque command |>)) as Hp1
    by (by rewrite He, lookup_insert_eq).
  wp_step.
  - apply negb_true_iff in Heqb. destruct (uninitialized_reserved e Hc Heqb) as [Hres Hu].
    idle_facts e Hok Hres.
    eapply wp_discard; [done|exact Hp1|simpl; rewrite Hsl; by eapply Inv_slot|].
    eapply (handled_removed _ _ _ p e); [done|done|done|exact Hf|exact He|done|done|].
    intros b. rewrite Ha, Hbufs. simpl. lia.
  - apply negb_false_iff in Heqb. wp_step.
    + apply andb_true_iff in Heqb0 as [_ ?%Z.ltb_lt]. by eapply graceful_close_handled.
    + eapply wp_close_handle; [done|exact Hp1|by apply (open_handle e)|].
      by eapply (closed_handled p e (e <| e_opaque := cmd_opaque command |>)).
Qed.

(** ** The process_exit handler *)

(** The flag of a watcher tells whether its handle was initialised. *)
Definition watcher_ok (w : signal_watcher) : Prop :=
  sw_initialized w = bool_decide (sw_handle w ≠ HandleUninit).

Lemma wp_close_process_signal (watcher : skyuv_socket_runtime → signal_watcher)
    `{!Setter watcher} (Q : unit → skyuv_socket_runtime → Prop) s :
  watcher_ok (watcher s) →
  (∀ w, watcher_ok w → Q tt (s <| watcher := w |>)) → Q tt s →
  wp (close_process_signal watcher) Q s.
Proof.
  unfold watcher_ok. intros Hw HQ1 HQ2. unfold close_process_signal. do 2 wp_step. rewrite Hw.
  destruct (watcher s) as [i []]; simpl in *; subst i; wp_step; [done| |done].
  by apply HQ1.
Qed.

(** Everything is told to close: the state [process_exit] leaves. *)
Record exited (s s' : skyuv_socket_runtime) : Prop := Exited {
  x_inv : Inv s';
  x_balance b : balance b s' = balance b s;
  x_commands : rt_commands s' = rt_commands s;
  x_exiting : rt_exiting s' = true;
  x_async : rt_async s' = HandleClosing;
  x_pending : rt_async_pending s' = rt_async_pending s;
  x_next : rt_next_ptr s' = rt_next_ptr s;
  x_watchers : watcher_ok (rt_hangup s') ∧ watcher_ok (rt_interrupt s') ∧
    watcher_ok (rt_termination s');
  x_ages : ages s s';
  x_closing : all_closing s';
  x_sound : exit_sound s → exit_sound s';
}.

Lemma Inv_irrelevant s s' :
  Inv s → rt_slots_locked s' = rt_slots_locked s → rt_commands s' = rt_commands s →
  table_of s' = table_of s → Inv s'.
Proof. intros [Hl Hq Ht] Hl' Hq' Ht'. split; [congruence|by rewrite Hq'|by rewrite Ht']. Qed.

(** The end of [process_exit], after the sockets. *)
Lemma wp_close_signals (Q : unit → skyuv_socket_runtime → Prop) s :
  watcher_ok (rt_hangup s) → watcher_ok (rt_interrupt s) → watcher_ok (rt_termination s) →
  (∀ h i t, watcher_ok h → watcher_ok i → watcher_ok t →
     Q tt (s <| rt_termination := t |> <| rt_interrupt := i |> <| rt_hangup := h |>)) →
  wp close_process_signals Q s.
Proof.
  intros Hh Hi Ht HQ. unfold close_process_signals. wp_step.
  eapply (wp_mono _ (λ _ s', ∃ t, watcher_ok t ∧ s' = s <| rt_termination := t |>)).
  { eapply wp_close_process_signal; [done|eauto|]. exists (rt_termination s). split; [done|]. by destruct s. }
  intros [] ? (t & Ht' & ->). wp_step.
  eapply (wp_mono _ (λ _ s', ∃ i, watcher_ok i ∧
    s' = s <| rt_termination := t |> <| rt_interrupt := i |>)).
  { eapply wp_close_process_signal; [done|eauto|]. by exists (rt_interrupt s). }
  intros [] ? (i & Hi' & ->). eapply wp_close_process_signal; [done|auto|].
  exact (HQ (rt_hangup s) i t Hh Hi' Ht').
Qed.

Lemma wp_close_async (Q : unit → skyuv_socket_runtime → Prop) s :
  rt_async s = HandleActive → Q tt (s <| rt_async := HandleClosing |>) → wp close_async Q s.
Proof. intros Ha HQ. unfold close_async. do 2 wp_step. rewrite Ha. simpl. by wp_step. Qed.

Lemma process_exit_exited s :
  Inv s → rt_async s = HandleActive →
  watcher_ok (rt_hangup s) → watcher_ok (rt_interrupt s) → watcher_ok (rt_termination s) →
  wp process_exit (λ _ s', exited s s') s.
Proof.
  intros HI Ha Hw1 Hw2 Hw3. unfold process_exit. do 3 wp_step.
  eapply wp_mono; [apply exit_slots_handled; by eapply Inv_irrelevant|].
  intros [] s1 ([HI1 Hl1 Hb1 _ Hag1 He1] & Hn1 & Hc1). injection Hl1 as Hq Has Hex Hpe Hh Hi Ht.
  simpl in *. pose proof HI1 as [Hlk _ _].
  assert (all_closing s1) as Hall.
  { intros p e Hp. eapply Hc1; [done|]. apply elem_of_seqZ.
    pose proof (id_slot_range (e_id e)). lia. }
  rewrite <- Hh, <- Hi, <- Ht in *. rewrite <- Has in Ha.
  wp_step. apply wp_close_signals; [done..|]. intros h i t ? ? ?.
  wp_step. apply wp_close_async; [done|]. apply wp_update_exit_ready; [done|].
  split; simpl; try done.
  - by eapply (Inv_irrelevant s1).
  - intros b. specialize (Hb1 b). unfold balance in *. simpl in *. lia.
  - intros Hs Hr. simpl in *. apply orb_true_iff in Hr as [[_ Hz%Z.eqb_eq]%andb_true_iff|Hr].
    + split; [done|]. by apply Inv_empty.
    + split; [done|]. apply He1; [|done]. intros Hr0. by destruct (Hs Hr0).
Qed.

(** ** Accepting a connection *)

(** The accepted socket is ready: the listener counts it and announces it. *)
Lemma accepted_handled server f (now : Z) event s1 s2 :
  Inv s1 → quiet [] s1 s2 → rt_entries s2 !! server = Some f →
  quiet [] s1 (posted (plain_event SKYUV_SOCKET_EVENT_ACCEPT (e_id f) (e_opaque f) event)
    (put server (f <| e_accept_count ::= λ n, u64 (n + 1) |> <| e_read_time := now |>) s2)).
Proof.
  intros HI Hh Hs. apply (quiet_trans [] [] s1 s2); [done|].
  pose proof (h_inv _ _ _ (proj1 Hh)) as HI2. pose proof (Inv_ok _ _ _ HI2 Hs) as Hok.
  handled_tac server f. entry_ok_tac.
Qed.

Lemma accept_connection_handled server f status s :
  Inv s → rt_entries s !! server = Some f → e_state f = SKYUV_SOCKET_STATE_LISTENING →
  wp (accept_connection server status) (λ _ s', quiet [] s s') s.
Proof.
  intros HI Hs Hst. pose proof HI as [Hl Hq Ht]. unfold accept_connection.
  do 3 wp_step; [wp_step; handled_tac server f|].
  wp_step. eapply wp_mono; [by apply reserve_entry_result|].
  intros [code [p|]] s1; simpl; [|intros (_ & Hh & _ & _); by wp_step].
  intros [-> Hbg]. destruct (began_lookup _ _ _ _ HI Hbg) as (id & Hp & Hnone & Hrest).
  assert (server ≠ p) as Hne by congruence.
  pose proof (Hrest server Hne) as Hs1. rewrite Hs in Hs1.
  pose proof (bg_inv _ _ _ _ Hbg) as HI1. pose proof HI1 as [Hl1 _ Ht1].
  eapply wp_mono with (P := λ _ s2, quiet [] s1 s2);
    [|intros [] s2; apply (quiet_after_reserve p (e_opaque f) server f); try done; by rewrite Hst].
  pose proof (reserved_entry_ok id (e_opaque f)) as Hok.
  set (e := reserved_entry id (e_opaque f)) in *.
  assert (entry_buffers e = [] ∧ e_pump_pending e = false ∧ e_is_udp e = false) as (Hbufs & Hpp & Hu)
    by done.
  assert (e_state e = SKYUV_SOCKET_STATE_RESERVED) as Hres by done. clearbody e.
  phase_facts Hok Hres. idle_facts e Hok Hres. conn_steps.
  - handled_tac p e.
  - eapply wp_deref; [simpl; rewrite lookup_insert_ne, lookup_insert_eq by done; done|]. wp_step.
    apply (accepted_handled server f).
    + done.
    + handled_tac p e. entry_ok_tac.
    + lookup_tac.
  - handled_tac p e. entry_ok_tac.
Qed.

End lifecycle.
