(* ===== verification/Runtime.v ===== *)
(** * The runtime: the loop, polling and the public interface

    [consume_commands], the functions worker threads call and
    [skyuv_socket_runtime_poll] (src/src/socket/socket_internal.c).  The event
    loop of libuv is the environment: it decides which callbacks run, when,
    and with which results. *)
From S2P Require Import Prelude SocketId Fifo SocketTypes CommandQueue RuntimeState Entries Udp.
From S2P Require Import Writes Connections.

Section runtime.
Context {cfg : SlotConfig} {env : Env}.

(** ** The network thread *)

Definition on_queue {A} (m : M plain_queue A) : R A :=
  zoom rt_commands (λ q s, s <| rt_commands := q |>) m.

(** The dispatch of [consume_commands]; the command is returned as the handler
    leaves it. *)
Definition process_command (command : skyuv_socket_command) : R skyuv_socket_command :=
  match cmd_body command with
  | SKYUV_SOCKET_COMMAND_LISTEN host port backlog =>
      process_listen command host port backlog ;; mret command
  | SKYUV_SOCKET_COMMAND_CONNECT host port => process_connect command host port ;; mret command
  | SKYUV_SOCKET_COMMAND_BIND fd => process_bind command fd ;; mret command
  | SKYUV_SOCKET_COMMAND_UDP host port => process_udp command host port ;; mret command
  | SKYUV_SOCKET_COMMAND_UDP_CONNECT host port =>
      process_udp_connect command host port ;; mret command
  | SKYUV_SOCKET_COMMAND_UDP_SEND send =>
      send ← process_udp_send command send;
      mret (Command (cmd_id command) (cmd_opaque command) (SKYUV_SOCKET_COMMAND_UDP_SEND send))
  | SKYUV_SOCKET_COMMAND_START => process_start command ;; mret command
  | SKYUV_SOCKET_COMMAND_PAUSE => process_pause command ;; mret command
  | SKYUV_SOCKET_COMMAND_NODELAY => process_nodelay command ;; mret command
  | SKYUV_SOCKET_COMMAND_SEND send =>
      send ← process_send command send false;
      mret (Command (cmd_id command) (cmd_opaque command) (SKYUV_SOCKET_COMMAND_SEND send))
  | SKYUV_SOCKET_COMMAND_SEND_LOW send =>
      send ← process_send command send true;
      mret (Command (cmd_id command) (cmd_opaque command) (SKYUV_SOCKET_COMMAND_SEND_LOW send))
  | SKYUV_SOCKET_COMMAND_CLOSE => process_close command false ;; mret command
  | SKYUV_SOCKET_COMMAND_SHUTDOWN => process_close command true ;; mret command
  | SKYUV_SOCKET_COMMAND_EXIT => process_exit ;; mret command
  end.

Definition destroy_command (command : skyuv_socket_command) : R unit :=
  forM (skyuv_socket_command_destroy command) release_buffer.

(** [while ((command = skyuv_socket_command_queue_pop(...)) != NULL)]. *)
Fixpoint consume_loop (fuel : nat) : R unit :=
  match fuel with
  | O => throw OutOfFuel
  | S fuel =>
      popped ← on_queue skyuv_socket_command_queue_pop;
      match popped with
      | None => skip
      | Some command =>
          command ← process_command command;
          destroy_command command ;;
          consume_loop fuel
      end
  end.

(** [while (runtime->pump_head != NULL)]. *)
Fixpoint pump_loop (fuel : nat) : R unit :=
  match fuel with
  | O => throw OutOfFuel
  | S fuel =>
      pump ← gets rt_pump;
      match pump with
      | [] => skip
      | p :: pump =>
          modify (λ s, s <| rt_pump := pump |>) ;;
          assign p (λ e, e <| e_pump_pending := false |>) ;;
          follow_up p ;;
          pump_loop fuel
      end
  end.

Definition consume_commands : R unit :=
  n ← gets (λ s, length (cq_items (rt_commands s)));
  consume_loop (S n) ;;
  n ← gets (λ s, length (rt_pump s));
  pump_loop (S n).

(** ** libuv callbacks *)

Inductive uv_callback :=
| CbAsync
| CbHangup
| CbTermination
| CbConnect (entry : positive) (status : Z)
| CbConnection (server : positive) (status : Z)
| CbRead (entry : positive) (nread : Z) (filled : list Z)
| CbWrite (entry : positive) (status : Z)
| CbUdpRead (entry : positive) (nread : Z) (filled : list Z) (address : option sockaddr)
| CbUdpWrite (entry : positive) (index : nat) (status : Z)
| CbClose (entry : positive).

(** libuv forgets the request it calls back for; a read callback is preceded
    by a call of [allocate_read_buffer], whose failure libuv reports. *)
Definition run_callback (cb : uv_callback) : R unit :=
  match cb with
  | CbAsync => modify (λ s, s <| rt_async_pending := false |>) ;; consume_commands
  | CbHangup => on_hangup_signal
  | CbTermination => on_termination_signal
  | CbConnect p status => assign p (λ e, e <| e_connecting := false |>) ;; connect_completed p status
  | CbConnection p status => accept_connection p status
  | CbRead p nread filled =>
      base ← allocate_read_buffer filled;
      read_completed p (from_option (λ _, nread) UV_ENOBUFS base) base
  | CbWrite p status =>
      e ← deref p;
      match e_inflight e with
      | None => throw StaleRequest
      | Some write =>
          assign p (λ e, e <| e_inflight := None |>) ;;
          write_completed p write status
      end
  | CbUdpRead p nread filled address =>
      base ← allocate_read_buffer filled;
      udp_received p (from_option (λ _, nread) UV_ENOBUFS base) base address
  | CbUdpWrite p index status =>
      e ← deref p;
      match e_udp_inflight e !! index with
      | None => throw StaleRequest
      | Some write =>
          assign p (λ e, e <| e_udp_inflight ::= delete index |>) ;;
          udp_write_completed p write status
      end
  | CbClose p => close_entry p
  end.

(** ** Polling *)

(** One turn of [uv_run(UV_RUN_ONCE)]: the callbacks it runs and whether it
    leaves the loop alive. *)
Record loop_turn := LoopTurn { turn_callbacks : list uv_callback; turn_alive : bool }.

Inductive poll_result :=
| PollWaiting                            (** [uv_run] has not returned *)
| PollError (code : Z)
| PollEvent (event : skyuv_socket_event).

Definition loop_has_work : R bool :=
  gets (λ s, negb (bool_decide (rt_events s = [])) || rt_exit_ready s).

(** The [while] of [skyuv_socket_runtime_poll]; [None]: the turns end before
    the loop does. *)
Fixpoint poll_wait (turns : list loop_turn) : R (option Z) :=
  ready ← loop_has_work;
  if ready : bool then mret (Some SKYUV_OK)
  else
    match turns with
    | [] => mret None
    | turn :: turns =>
        forM (turn_callbacks turn) run_callback ;;
        ready ← loop_has_work;
        if negb (turn_alive turn) && negb ready then mret (Some SKYUV_ERROR_INVALID_STATE)
        else poll_wait turns
    end.

Definition exit_event : skyuv_socket_event :=
  Event SKYUV_SOCKET_EVENT_EXIT 0 0 0 None 0.

(** Handing the oldest event, or EXIT, to the caller. *)
Definition poll_take : R poll_result :=
  events ← gets rt_events;
  match events with
  | event :: rest =>
      modify (λ s, s <| rt_events := rest |>) ;;
      modify (λ s, s <| rt_delivered ::= λ l, l ++ option_list (ev_data event) |>) ;;
      mret (PollEvent event)
  | [] =>
      modify (λ s, s <| rt_exit_ready := false |>) ;;
      mret (PollEvent exit_event)
  end.

Definition skyuv_socket_runtime_poll (turns : list loop_turn) : R poll_result :=
  signals ← initialize_process_signals;
  if negb (signals =? SKYUV_OK) then mret (PollError SKYUV_ERROR_SYSTEM)
  else
    waited ← poll_wait turns;
    match waited with
    | None => mret PollWaiting
    | Some code => if code =? SKYUV_OK then poll_take else mret (PollError code)
    end.

(** ** The interface of the worker threads *)

Definition async_send : R unit :=
  uv uv_async_send ;; modify (λ s, s <| rt_async_pending := true |>).

Definition skyuv_socket_runtime_submit (command : option skyuv_socket_command) : R Z :=
  match command with
  | None => mret SKYUV_ERROR_INVALID_ARGUMENT
  | Some _ =>
      result ← on_queue (skyuv_socket_command_queue_push command);
      if negb (result =? SKYUV_OK) then mret result
      else async_send ;; mret SKYUV_OK
  end.

(** The common part of listen, connect and udp after the reservation and up to
    the submission: an allocated command with a copy of the host. *)
Definition submit_open (opaque : Z) (body : skyuv_socket_command_body)
    (reserved : Z * option positive) : R (Z * option positive) :=
  let '(result, entry) := reserved in
  match entry with
  | None => mret (result, None)
  | Some p =>
      command ← alloc;
      host ← (if command : bool then alloc else mret false);
      if negb host then
        discard_uninitialized_entry p ;;
        mret (SKYUV_ERROR_OUT_OF_MEMORY, None)
      else
        e ← deref p;
        result ← skyuv_socket_runtime_submit (Some (Command (e_id e) opaque body));
        if negb (result =? SKYUV_OK) then
          discard_uninitialized_entry p ;;
          mret (result, None)
        else mret (SKYUV_OK, Some p)
  end.

Definition open_socket (opaque : Z) (body : skyuv_socket_command_body) :
    R (Z * option positive) :=
  reserve_entry opaque ≫= submit_open opaque body.

(** [*id = entry->id], after the submission. *)
Definition store_id (opened : Z * option positive) : R (Z * option Z) :=
  match opened with
  | (result, None) => mret (result, None)
  | (result, Some p) => e ← deref p; mret (result, Some (e_id e))
  end.

Definition port_invalid (port : Z) : bool := (port <? 0) || (65535 <? port).

(** [id] tells whether the out parameter is non-NULL; the second component of
    the result is the id stored there. *)
Definition skyuv_socket_runtime_listen (host : option string) (port backlog opaque : Z)
    (id : bool) : R (Z * option Z) :=
  match host with
  | None => mret (SKYUV_ERROR_INVALID_ARGUMENT, None)
  | Some host =>
      if port_invalid port || (backlog <=? 0) || negb id
      then mret (SKYUV_ERROR_INVALID_ARGUMENT, None)
      else open_socket opaque (SKYUV_SOCKET_COMMAND_LISTEN host port backlog) ≫= store_id
  end.

Definition skyuv_socket_runtime_connect (host : option string) (port opaque : Z) (id : bool) :
    R (Z * option Z) :=
  match host with
  | None => mret (SKYUV_ERROR_INVALID_ARGUMENT, None)
  | Some host =>
      if port_invalid port || negb id then mret (SKYUV_ERROR_INVALID_ARGUMENT, None)
      else open_socket opaque (SKYUV_SOCKET_COMMAND_CONNECT host port) ≫= store_id
  end.

Definition skyuv_socket_runtime_udp (host : option string) (port opaque : Z) (id : bool) :
    R (Z * option Z) :=
  let bind_host := default "0.0.0.0" host in
  if port_invalid port || negb id then mret (SKYUV_ERROR_INVALID_ARGUMENT, None)
  else open_socket opaque (SKYUV_SOCKET_COMMAND_UDP bind_host port) ≫= store_id.

(** The loop over the slots of [skyuv_socket_runtime_bind]: whether another
    entry has taken over [fd]. *)
Fixpoint fd_taken (slots : list Z) (entry : positive) (fd : Z) : R bool :=
  match slots with
  | [] => mret false
  | slot :: slots =>
      current ← gets (λ s, rt_slots s !! slot);
      match current with
      | None => fd_taken slots entry fd
      | Some p =>
          e ← deref p;
          if bool_decide (p ≠ entry) && (e_external_fd e =? fd) then mret true
          else fd_taken slots entry fd
      end
  end.

(** [skyuv_socket_runtime_bind] after the reservation: under the mutex the entry
    gets [fd], unless another one has it. *)
Definition claim_fd (fd : Z) (reserved : Z * option positive) : R (Z * option positive) :=
  let '(result, entry) := reserved in
  match entry with
  | None => mret (result, None)
  | Some p =>
      slots_lock ;;
      taken ← fd_taken (counter SKYUV_SOCKET_SLOT_COUNT) p fd;
      if taken : bool then
        slots_unlock ;;
        discard_uninitialized_entry p ;;
        mret (SKYUV_ERROR_INVALID_STATE, None)
      else
        assign p (λ e, e <| e_external_fd := fd |>) ;;
        slots_unlock ;;
        mret (SKYUV_OK, Some p)
  end.

(** Then up to the submission. *)
Definition submit_bind (fd opaque : Z) (claimed : Z * option positive) :
    R (Z * option positive) :=
  let '(result, entry) := claimed in
  match entry with
  | None => mret (result, None)
  | Some p =>
      command ← alloc;
      if negb command then
        discard_uninitialized_entry p ;;
        mret (SKYUV_ERROR_OUT_OF_MEMORY, None)
      else
        e ← deref p;
        result ← skyuv_socket_runtime_submit
          (Some (Command (e_id e) opaque (SKYUV_SOCKET_COMMAND_BIND fd)));
        if negb (result =? SKYUV_OK) then
          discard_uninitialized_entry p ;;
          mret (result, None)
        else mret (SKYUV_OK, Some p)
  end.

(** Built with [SKYUV_SOCKET_EXTERNAL_FD], as on Unix. *)
Definition skyuv_socket_runtime_bind (fd opaque : Z) (id : bool) : R (Z * option Z) :=
  if (fd <? 0) || negb id then mret (SKYUV_ERROR_INVALID_ARGUMENT, None)
  else
    reserved ← reserve_entry opaque;
    claimed ← claim_fd fd reserved;
    opened ← submit_bind fd opaque claimed;
    store_id opened.

(** pause, nodelay, close and shutdown. *)
Definition control_command (id opaque : Z) (body : skyuv_socket_command_body) : R Z :=
  if id <=? 0 then mret SKYUV_ERROR_INVALID_ARGUMENT
  else
    command ← alloc;
    if negb command then mret SKYUV_ERROR_OUT_OF_MEMORY
    else skyuv_socket_runtime_submit (Some (Command id opaque body)).

Definition skyuv_socket_runtime_start (id opaque : Z) : R Z :=
  if id <=? 0 then mret SKYUV_ERROR_INVALID_ARGUMENT
  else
    command ← alloc;
    if negb command then mret SKYUV_ERROR_OUT_OF_MEMORY
    else
      result ← skyuv_socket_runtime_submit (Some (Command id opaque SKYUV_SOCKET_COMMAND_START));
      if negb (result =? SKYUV_OK) then mret SKYUV_ERROR_INVALID_STATE
      else mret SKYUV_OK.

Definition skyuv_socket_runtime_pause (id opaque : Z) : R Z :=
  control_command id opaque SKYUV_SOCKET_COMMAND_PAUSE.
Definition skyuv_socket_runtime_nodelay (id : Z) : R Z :=
  control_command id 0 SKYUV_SOCKET_COMMAND_NODELAY.
Definition skyuv_socket_runtime_close (id opaque : Z) : R Z :=
  control_command id opaque SKYUV_SOCKET_COMMAND_CLOSE.
Definition skyuv_socket_runtime_shutdown (id opaque : Z) : R Z :=
  control_command id opaque SKYUV_SOCKET_COMMAND_SHUTDOWN.

Definition skyuv_socket_runtime_udp_connect (id : Z) (host : option string) (port : Z) : R Z :=
  match host with
  | None => mret SKYUV_ERROR_INVALID_ARGUMENT
  | Some host =>
      if (id <=? 0) || port_invalid port then mret SKYUV_ERROR_INVALID_ARGUMENT
      else
        command ← alloc;
        copy ← (if command : bool then alloc else mret false);
        if negb copy then mret SKYUV_ERROR_OUT_OF_MEMORY
        else skyuv_socket_runtime_submit
               (Some (Command id 0 (SKYUV_SOCKET_COMMAND_UDP_CONNECT host port)))
  end.

(** The part of [runtime_send] and [skyuv_socket_runtime_udp_send] after the
    argument checks: [body] builds the command from its payload. *)
Definition submit_send (id : Z) (data : option buffer) (size : Z)
    (ownership : skyuv_socket_buffer_ownership) (release : option positive)
    (address : list Z) (address_size : Z)
    (body : send_payload → skyuv_socket_command_body) : R Z :=
  queued ← match ownership with
           | SKYUV_SOCKET_BUFFER_BORROWED =>
               copy ← new_buffer (take (Z.to_nat size) (from_option buf_bytes [] data));
               mret (Some <$> copy)
           | SKYUV_SOCKET_BUFFER_OWNED => mret (Some data)
           end;
  match queued with
  | None => mret SKYUV_ERROR_OUT_OF_MEMORY
  | Some queued =>
      let release := match ownership with
                     | SKYUV_SOCKET_BUFFER_BORROWED => None
                     | SKYUV_SOCKET_BUFFER_OWNED => release
                     end in
      command ← alloc;
      if negb command then
        whenM (bool_decide (ownership = SKYUV_SOCKET_BUFFER_BORROWED)) (free_buffer queued) ;;
        mret SKYUV_ERROR_OUT_OF_MEMORY
      else
        let payload := SendPayload queued size SKYUV_SOCKET_BUFFER_OWNED release
                         address address_size in
        result ← skyuv_socket_runtime_submit (Some (Command id 0 (body payload)));
        if negb (result =? SKYUV_OK) then
          let payload := match ownership with
                         | SKYUV_SOCKET_BUFFER_OWNED =>
                             payload <| send_ownership := SKYUV_SOCKET_BUFFER_BORROWED |>
                         | SKYUV_SOCKET_BUFFER_BORROWED => payload
                         end in
          destroy_command (Command id 0 (body payload)) ;;
          mret result
        else
          whenM (bool_decide (ownership = SKYUV_SOCKET_BUFFER_OWNED))
            (modify (λ s, s <| rt_taken ::= λ l, l ++ option_list data |>)) ;;
          mret result
  end.

Definition runtime_send (id : Z) (data : option buffer) (size : Z)
    (ownership : skyuv_socket_buffer_ownership) (release : option positive)
    (low_priority : bool) : R Z :=
  if (id <=? 0) || bool_decide (data = None) || (size =? 0) || (UINT_MAX <? size)
  then mret SKYUV_ERROR_INVALID_ARGUMENT
  else submit_send id data size ownership release [] 0
         (if low_priority then SKYUV_SOCKET_COMMAND_SEND_LOW else SKYUV_SOCKET_COMMAND_SEND).

Definition skyuv_socket_runtime_send (id : Z) (data : option buffer) (size : Z)
    (ownership : skyuv_socket_buffer_ownership) (release : option positive) : R Z :=
  runtime_send id data size ownership release false.

Definition skyuv_socket_runtime_send_low (id : Z) (data : option buffer) (size : Z)
    (ownership : skyuv_socket_buffer_ownership) (release : option positive) : R Z :=
  runtime_send id data size ownership release true.

Definition skyuv_socket_runtime_udp_send (id : Z) (address : option (list Z)) (address_size : Z)
    (data : option buffer) (size : Z) (ownership : skyuv_socket_buffer_ownership)
    (release : option positive) : R Z :=
  if (id <=? 0) || (bool_decide (data = None) && (0 <? size)) || (UINT_MAX <? size) ||
     (negb (address_size =? 0) && negb (address_size =? 7) && negb (address_size =? 19)) ||
     ((0 <? address_size) && bool_decide (address = None))
  then mret SKYUV_ERROR_INVALID_ARGUMENT
  else
    submit_send id data size ownership release
      (take (Z.to_nat address_size) (default [] address)) address_size
      SKYUV_SOCKET_COMMAND_UDP_SEND.

Definition skyuv_socket_runtime_state (id : Z) : R skyuv_socket_state :=
  if id <=? 0 then mret SKYUV_SOCKET_STATE_INVALID
  else
    slots_lock ;;
    entry ← find_entry id;
    state ← match entry with
            | None => mret SKYUV_SOCKET_STATE_INVALID
            | Some p =>
                e ← deref p;
                mret (if e_close_requested e then SKYUV_SOCKET_STATE_CLOSING else e_state e)
            end;
    slots_unlock ;;
    mret state.

Definition skyuv_socket_runtime_updatetime (time : Z) : R unit :=
  slots_lock ;; modify (λ s, s <| rt_current_time := time |>) ;; slots_unlock.

Definition skyuv_socket_runtime_take_process_shutdown : R bool :=
  old ← gets rt_process_shutdown_requested;
  modify (λ s, s <| rt_process_shutdown_requested := 0 |>) ;;
  mret (negb (old =? 0)).

Definition skyuv_socket_runtime_exit : R Z :=
  command ← alloc;
  if negb command then mret SKYUV_ERROR_OUT_OF_MEMORY
  else
    result ← on_queue (skyuv_socket_command_queue_stop
      (Some (Command 0 0 SKYUV_SOCKET_COMMAND_EXIT)));
    if negb (result =? SKYUV_OK) then mret result
    else async_send ;; mret SKYUV_OK.

(** ** Creation *)

(** The runtime [skyuv_socket_runtime_create] returns when everything it
    needs can be allocated and initialised. *)
Definition fresh_runtime : skyuv_socket_runtime :=
  Runtime ∅ ∅ ∅ 0 0 false (CommandQueue true false [] true) [] [] HandleActive
    (SignalWatcher false HandleUninit) (SignalWatcher false HandleUninit)
    (SignalWatcher false HandleUninit) false false 0 false false 0 false 0 1 [] [] [] [].

End runtime.
