(* ===== verification/Loop.v ===== *)
(** * The loop invariant

    What holds between two steps of the network thread, and its preservation
    by a batch of commands, by every libuv callback and by every call of the
    public interface. *)
From S2P Require Import Prelude SocketId Fifo SocketTypes CommandQueue RuntimeState Entries.
From S2P Require Import Invariant Rules Handled Slots Udp Writes Connections Lifecycle Runtime.

Definition queued (s : skyuv_socket_runtime) : list skyuv_socket_command :=
  cq_items (rt_commands s).

Definition accepting (s : skyuv_socket_runtime) : bool := cq_accepting (rt_commands s).

(** The commands that carry data own it. *)
Definition command_wf (c : skyuv_socket_command) : Prop :=
  match cmd_body c with
  | SKYUV_SOCKET_COMMAND_SEND p | SKYUV_SOCKET_COMMAND_SEND_LOW p
  | SKYUV_SOCKET_COMMAND_UDP_SEND p => send_ownership p = SKYUV_SOCKET_BUFFER_OWNED
  | _ => True
  end.

Definition not_exit (c : skyuv_socket_command) : Prop := is_exit_command c = false.

(** The three phases of a runtime, with the commands that are still to be
    processed: it runs; EXIT is the last command it will process; EXIT has been
    processed and every socket is closing. *)
Inductive exit_phase (todo : list skyuv_socket_command) (s : skyuv_socket_runtime) : Prop :=
| Running :
    accepting s = true → rt_async s = HandleActive → rt_exiting s = false →
    Forall not_exit todo → exit_phase todo s
| Stopping l c :
    accepting s = false → rt_async s = HandleActive → rt_exiting s = false →
    todo = l ++ [c] → Forall not_exit l → is_exit_command c = true → exit_phase todo s
| Exiting :
    accepting s = false → rt_async s = HandleClosing → rt_exiting s = true →
    todo = [] → all_closing s → exit_phase todo s.

Definition watchers_ok (s : skyuv_socket_runtime) : Prop :=
  watcher_ok (rt_hangup s) ∧ watcher_ok (rt_interrupt s) ∧ watcher_ok (rt_termination s).

Section loop.
Context {cfg : SlotConfig}.

Record Stable (s : skyuv_socket_runtime) : Prop := MkStable {
  st_inv : Inv s;
  st_balance b : balance b s = 0;
  st_exit : exit_sound s;
  st_watchers : watchers_ok s;
  st_commands : Forall command_wf (queued s);
  st_phase : exit_phase (queued s) s;
}.

(** Between two callbacks nothing waits to be pumped, and a command that waits
    has woken the loop. *)
Record Idle (s : skyuv_socket_runtime) : Prop := MkIdle {
  id_stable : Stable s;
  id_pump : rt_pump s = [];
  id_wakeup : queued s ≠ [] → rt_async_pending s = true;
}.

(** How the runtime moves on: sockets age, addresses are not reused. *)
Definition moves (s s' : skyuv_socket_runtime) : Prop :=
  (rt_next_ptr s ≤ rt_next_ptr s')%positive ∧ ages s s'.

Lemma moves_refl s : moves s s.
Proof. split; [done|apply ages_refl]. Qed.

Lemma moves_trans s1 s2 s3 : moves s1 s2 → moves s2 s3 → moves s1 s3.
Proof. intros [Hn1 Ha1] [Hn2 Ha2]. split; [lia|by eapply ages_trans]. Qed.

Lemma handled_moves x s s' : handled x s s' → moves s s'.
Proof. intros []. done. Qed.

Lemma exit_phase_handled todo x s s' :
  handled x s s' → exit_phase todo s → exit_phase todo s'.
Proof.
  intros [_ Hl _ _ Ha _] Hp. injection Hl as Hq Has Hex _ _ _ _. unfold accepting in *.
  destruct Hp as [?|l c|]; unfold accepting in *.
  - apply Running; unfold accepting; congruence.
  - apply (Stopping _ _ l c); unfold accepting; congruence.
  - apply Exiting; unfold accepting; try congruence. by eapply ages_closing.
Qed.

Lemma handled_stable s s' : Stable s → handled [] s s' → Stable s'.
Proof.
  intros [HI Hb He Hw Hc Hp] Hh. pose proof (exit_phase_handled _ _ _ _ Hh Hp) as Hp'.
  destruct Hh as [HI' Hl Hb' _ _ He']. injection Hl as Hq _ _ _ Hwh Hwi Hwt.
  split; unfold queued, watchers_ok in *; rewrite ?Hq, ?Hwh, ?Hwi, ?Hwt; auto.
  intros b. rewrite Hb', Hb. done.
Qed.

Context {env : Env}.

(** ** Queue operations on the runtime *)

Lemma wp_pop (Q : option skyuv_socket_command → skyuv_socket_runtime → Prop) s :
  queue_idle (rt_commands s) →
  Q (head (queued s)) (s <| rt_commands ::= λ q, q <| cq_items := tail (queued s) |> |>) →
  wp (on_queue skyuv_socket_command_queue_pop) Q s.
Proof.
  unfold queue_idle, queued. intros [Hm Hk] HQ. apply wp_zoom.
  destruct (rt_commands s) as [mx lk items acc] eqn:Hq; simpl in *; subst.
  unfold wp. destruct items as [|c items]; simpl; destruct s; simpl in *; by subst.
Qed.

(** ** Commands *)

Definition processed (c c' : skyuv_socket_command) (s s' : skyuv_socket_runtime) : Prop :=
  ∃ extra, handled extra s s' ∧
    ∀ b, mentions b extra + mentions b (command_owned c') = mentions b (command_owned c).

Lemma processed_same c s s' : handled [] s s' → processed c c s s'.
Proof. intros Hh. exists []. split; [done|]. intros b. simpl. lia. Qed.

(** A payload that was handled, whatever command it belongs to. *)
Lemma processed_send (body : send_payload → skyuv_socket_command_body) id opaque send send' s s' :
  (∀ p, command_owned (Command id opaque (body p)) =
     if decide (send_ownership p = SKYUV_SOCKET_BUFFER_OWNED) then option_list (send_data p) else []) →
  send_ownership send = SKYUV_SOCKET_BUFFER_OWNED → send_handled send send' s s' →
  processed (Command id opaque (body send)) (Command id opaque (body send')) s s'.
Proof.
  intros Hb Ho [[-> Hh]|[-> Hh]]; [by apply processed_same|]. eexists. split; [done|].
  intros b. rewrite !Hb. rewrite decide_False, decide_True by done. simpl. lia.
Qed.

Lemma process_command_processed c s :
  Inv s → command_wf c → not_exit c →
  wp (process_command c) (λ c' s', processed c c' s s') s.
Proof.
  intros HI Hwf Hne. destruct c as [id opaque body]. unfold process_command. simpl in *.
  assert (∀ m : R unit, wp m (λ _ s', handled [] s s') s →
    wp (m ;; mret (Command id opaque body)) (λ c' s', processed (Command id opaque body) c' s s') s) as Hplain.
  { intros m Hm. wp_step. eapply wp_mono; [done|]. intros [] s' Hh. wp_step. by apply processed_same. }
  destruct body; try apply Hplain.
  - by apply process_listen_handled.
  - by apply process_connect_handled.
  - by apply process_start_handled.
  - by apply process_pause_handled.
  - by apply process_nodelay_handled.
  - wp_step. eapply wp_mono; [by apply process_send_handled|]. intros send' s' Hs. wp_step.
    by apply (processed_send SKYUV_SOCKET_COMMAND_SEND).
  - wp_step. eapply wp_mono; [by apply process_send_handled|]. intros send' s' Hs. wp_step.
    by apply (processed_send SKYUV_SOCKET_COMMAND_SEND_LOW).
  - by apply process_close_handled.
  - by apply process_close_handled.
  - by apply process_udp_handled.
  - by apply process_udp_connect_handled.
  - wp_step. eapply wp_mono; [by apply process_udp_send_handled|]. intros send' s' Hs. wp_step.
    by apply (processed_send SKYUV_SOCKET_COMMAND_UDP_SEND).
  - by apply process_bind_handled.
  - done.
Qed.

Lemma wp_destroy_command c (Q : unit → skyuv_socket_runtime → Prop) s :
  Q tt (s <| rt_freed ::= λ l, l ++ command_owned c |>) → wp (destroy_command c) Q s.
Proof.
  unfold destroy_command. rewrite command_destroy_owned.
  generalize (command_owned c) as bs. intros bs. revert s.
  induction bs as [|b bs IH]; intros s HQ; simpl.
  - wp_step. destruct s; unfold upd_field, set_rt_freed in HQ; simpl in HQ. by rewrite app_nil_r in HQ.
  - do 2 wp_step. apply IH. destruct s; unfold freed, upd_field, set_rt_freed in *; simpl in *.
    by rewrite <- app_assoc.
Qed.

(** The runtime with [c] taken off its queue. *)
Definition popped (s : skyuv_socket_runtime) : skyuv_socket_runtime :=
  s <| rt_commands ::= λ q, q <| cq_items := tail (queued s) |> |>.

Lemma popped_facts c l s :
  Stable s → queued s = c :: l →
  Inv (popped s) ∧ queued (popped s) = l ∧
  (∀ b, balance b (popped s) + mentions b (command_owned c) = 0) ∧
  command_wf c ∧ Forall command_wf l ∧ exit_phase (c :: l) (popped s).
Proof.
  intros [[Hl Hq Ht] Hb He Hw Hc Hp] Hcl. rewrite Hcl in *. apply Forall_cons in Hc as [Hc1 Hc2].
  split_and!; [|change (queued (popped s)) with (tail (queued s)); by rewrite Hcl| |done|done|].
  - by split.
  - intros b. specialize (Hb b). unfold balance in *. simpl. fold (queued s) in Hb.
    rewrite Hcl in *. unfold commands_buffers in *. simpl in *. rewrite mentions_app in Hb. lia.
  - destruct Hp as [|l' c'|]; [by apply Running|by apply (Stopping _ _ l' c')|by apply Exiting].
Qed.

Lemma stable_after_command c c' s s' :
  processed c c' s s' →
  (∀ b, balance b s + mentions b (command_owned c) = 0) → exit_sound s → watchers_ok s →
  Forall command_wf (queued s) → exit_phase (queued s) s →
  Stable (s' <| rt_freed ::= λ l, l ++ command_owned c' |>).
Proof.
  intros (extra & Hh & Hx) Hb He Hw Hc Hp.
  pose proof (exit_phase_handled _ _ _ _ Hh Hp) as Hp'.
  destruct Hh as [HI' Hl Hb' Hn' Ha' He']. injection Hl as Hq _ _ _ Hwh Hwi Hwt.
  split; unfold queued, watchers_ok in *; simpl; rewrite ?Hq, ?Hwh, ?Hwi, ?Hwt; auto.
  - by eapply (Inv_irrelevant s').
  - intros b. specialize (Hb b). specialize (Hb' b). specialize (Hx b).
    unfold balance in *. simpl. rewrite mentions_app. lia.
  - destruct Hp' as [|l' d|]; [by apply Running|by apply (Stopping _ _ l' d)|by apply Exiting].
Qed.

(** EXIT is processed. *)
Lemma stable_after_exit c s s' :
  exited s s' → command_owned c = [] → (∀ b, balance b s = 0) → exit_sound s →
  accepting s = false → queued s = [] →
  Stable (s' <| rt_freed ::= λ l, l ++ command_owned c |>) ∧ queued s' = [].
Proof.
  intros [HI Hb Hq Hex Has _ _ Hw _ Hcl Hs] Hown Hb0 Hs0 Hacc Hem.
  unfold queued, accepting in *. split; [|congruence].
  split; unfold queued, watchers_ok; simpl.
  - by eapply (Inv_irrelevant s').
  - intros b. specialize (Hb b). specialize (Hb0 b). rewrite Hown. unfold balance in *. simpl.
    rewrite mentions_app. simpl. lia.
  - auto.
  - done.
  - rewrite Hq, Hem. done.
  - apply Exiting; unfold accepting; simpl; try done; congruence.
Qed.

(** One command, from the queue to its destruction. *)
Lemma command_stable c l s :
  Stable s → queued s = c :: l →
  wp (command ← process_command c; destroy_command command)
    (λ _ s', Stable s' ∧ queued s' = l ∧ moves s s' ∧ rt_async_pending s' = rt_async_pending s ∧
      accepting s' = accepting s)
    (popped s).
Proof.
  intros Hst Hcl. destruct (popped_facts c l s Hst Hcl) as (HI & Hq & Hb & Hwf & Hwfl & Hp).
  destruct Hst as [_ _ He Hw _ _]. destruct (is_exit_command c) eqn:Hx.
  - destruct Hp as [? ? ? Hne|l' c' Hacc Ha Hex Heq Hne Hc'|]; [|..|done].
    { apply Forall_cons in Hne as [Hne _]. unfold not_exit in Hne. congruence. }
    assert (l = []) as ->.
    { destruct l' as [|d l']; simpl in Heq; injection Heq as -> Heq; [done|].
      apply Forall_cons in Hne as [Hne _]. unfold not_exit in Hne. congruence. }
    destruct c as [id opaque []]; try done. unfold process_command. simpl.
    do 2 wp_step. destruct Hw as (? & ? & ?). eapply wp_mono; [by apply process_exit_exited|].
    intros [] s' Hxd. wp_step. apply wp_destroy_command.
    pose proof Hxd as [_ _ Hqx _ _ Hpe Hn _ Hag _ _].
    edestruct (stable_after_exit (Command id opaque SKYUV_SOCKET_COMMAND_EXIT)) as [Hs Hq'];
      [exact Hxd|done|intros b; specialize (Hb b); simpl in Hb; lia|done|done|done|].
    split_and!; [done|done| |done|unfold accepting; simpl; by rewrite Hqx].
    split; [simpl; rewrite Hn; done|done].
  - wp_step. eapply wp_mono; [by apply process_command_processed|]. intros c' s' Hpr.
    apply wp_destroy_command. split_and!.
    + eapply (stable_after_command c c' (popped s));
        [exact Hpr|exact Hb|exact He|exact Hw|by rewrite Hq|]. rewrite Hq.
      destruct Hp as [? ? ? [_ Hne]%Forall_cons|l' d ? ? ? Heq Hne Hd|]; [by apply Running| |done].
      destruct l' as [|c0 l']; simpl in Heq; injection Heq as -> Heq; [congruence|].
      apply Forall_cons in Hne as [_ Hne]. by apply (Stopping _ _ l' d).
    + destruct Hpr as (x & [_ Hl _ _ _ _] & _). injection Hl as Hqs _ _ _ _ _ _.
      unfold queued in *. simpl. by rewrite Hqs.
    + destruct Hpr as (x & [_ _ _ Hn Ha _] & _). done.
    + destruct Hpr as (x & [_ Hl _ _ _ _] & _). injection Hl as _ _ _ Hpe _ _ _. done.
    + destruct Hpr as (x & [_ Hl _ _ _ _] & _). injection Hl as Hqs _ _ _ _ _ _.
      unfold accepting. simpl. by rewrite Hqs.
Qed.

Lemma consume_loop_stable fuel s :
  Stable s → (length (queued s) < fuel)%nat →
  wp (consume_loop fuel) (λ _ s', Stable s' ∧ queued s' = [] ∧ moves s s' ∧
    rt_async_pending s' = rt_async_pending s ∧ accepting s' = accepting s) s.
Proof.
  revert s. induction fuel as [|fuel IH]; intros s Hst Hf; [lia|]. cbn [consume_loop].
  wp_step. apply wp_pop; [apply Hst|]. fold (popped s).
  destruct (queued s) as [|c l] eqn:Hq; simpl.
  - wp_step. assert (popped s = s) as ->; [|split_and!; [done|done|apply moves_refl|done|done]].
    unfold popped. rewrite Hq. simpl. unfold queued in Hq. destruct s as [? ? ? ? ? ? q]; simpl in *.
    destruct q; simpl in *. by subst.
  - pose proof (command_stable c l s Hst Hq) as Hc. apply wp_bind_inv in Hc.
    wp_step. eapply wp_mono; [exact Hc|]. intros c' s1 Hd. wp_step. eapply wp_mono; [exact Hd|].
    intros [] s2 (Hst2 & Hq2 & Hm2 & Hp2 & Ha2).
    eapply wp_mono; [apply IH; [done|rewrite Hq2; simpl in *; lia]|].
    intros [] s3 (Hst3 & Hq3 & Hm3 & Hp3 & Ha3).
    split_and!; [done|done|by eapply moves_trans|congruence|congruence].
Qed.

(** ** The pump *)

Lemma pump_loop_stable fuel s :
  Stable s → (length (rt_pump s) < fuel)%nat →
  wp (pump_loop fuel) (λ _ s', Stable s' ∧ rt_pump s' = [] ∧ moves s s' ∧
    loop_of s' = loop_of s) s.
Proof.
  revert s. induction fuel as [|fuel IH]; intros s Hst Hf; [lia|]. cbn [pump_loop].
  do 2 wp_step. destruct (rt_pump s) as [|p pump] eqn:Hpu.
  { wp_step. split_and!; [done|done|apply moves_refl|done]. }
  pose proof (st_inv _ Hst) as HI.
  destruct (proj1 (to_pump _ (inv_table _ HI) p)) as (e & Hp & _); [simpl; rewrite Hpu; set_solver|].
  pose proof (pump_entry_handled p e pump s HI Hp Hpu) as Hh. apply wp_bind_inv in Hh.
  do 3 wp_step. eapply wp_mono; [exact Hh|]. intros [] s1 Hfo. wp_step.
  eapply wp_mono; [exact Hfo|]. intros [] s2 [Hh2 Hpu2].
  eapply wp_mono; [apply IH; [by eapply handled_stable|rewrite Hpu2; simpl in *; lia]|].
  intros [] s3 (Hst3 & Hpu3 & Hm3 & Hl3). split_and!; [done|done| |].
  - eapply moves_trans; [by eapply handled_moves|done].
  - rewrite Hl3. apply Hh2.
Qed.

(** A batch of commands: the queue is drained, everything that can be written
    has been handed to libuv, and the loops end within their bounds. *)
Lemma consume_commands_stable s :
  Stable s →
  wp consume_commands (λ _ s', Stable s' ∧ queued s' = [] ∧ rt_pump s' = [] ∧ moves s s' ∧
    rt_async_pending s' = rt_async_pending s ∧ accepting s' = accepting s) s.
Proof.
  intros Hst. unfold consume_commands. do 3 wp_step.
  eapply wp_mono; [apply consume_loop_stable; [done|unfold queued; lia]|].
  intros [] s1 (Hst1 & Hq1 & Hm1 & Hp1 & Ha1). do 2 wp_step.
  eapply wp_mono; [apply pump_loop_stable; [done|lia]|].
  intros [] s2 (Hst2 & Hpu2 & Hm2 & Hl2). injection Hl2 as Hq2 _ _ Hp2 _ _ _.
  split_and!; [done|unfold queued in *; congruence|done|by eapply moves_trans|congruence|].
  unfold accepting in *. congruence.
Qed.

End loop.
