(* ===== verification/Steps.v ===== *)
(** * Steps of the runtime

    What libuv and the worker threads may do to a runtime, one callback or one
    call at a time, and the invariant over any sequence of such steps. *)
From S2P Require Import Prelude SocketId Fifo SocketTypes CommandQueue RuntimeState Entries.
From S2P Require Import Invariant Rules Handled Slots Udp Writes Connections Lifecycle Runtime Loop.

Section callbacks.
Context {cfg : SlotConfig} {env : Env}.
Implicit Types (s : skyuv_socket_runtime) (e : skyuv_socket_entry) (p : positive).

(** ** Callbacks *)

(** What the entry at [p] must look like for libuv to call back. *)
Definition entry_allows (cb : uv_callback) (e : skyuv_socket_entry) : Prop :=
  match cb with
  | CbConnect _ _ => e_connecting e = true
  | CbConnection _ _ => e_state e = SKYUV_SOCKET_STATE_LISTENING
  | CbRead _ _ _ => e_reading e = true ∧ e_tcp e = HandleActive
  | CbWrite _ _ => is_Some (e_inflight e)
  | CbUdpRead _ _ _ _ => e_state e = SKYUV_SOCKET_STATE_UDP
  | CbUdpWrite _ index _ => is_Some (e_udp_inflight e !! index)
  | CbClose _ => entry_handle e = HandleClosing ∧ e_connecting e = false ∧
      e_inflight e = None ∧ e_udp_inflight e = []
  | _ => True
  end.

Definition callback_entry (cb : uv_callback) : option positive :=
  match cb with
  | CbConnect p _ | CbConnection p _ | CbRead p _ _ | CbWrite p _ | CbUdpRead p _ _ _
  | CbUdpWrite p _ _ | CbClose p => Some p
  | _ => None
  end.

(** The callbacks libuv can make: the async callback once per wake-up, a
    request's callback once, reads while reading, the close callback last. *)
Definition enabled (cb : uv_callback) s : Prop :=
  match callback_entry cb with
  | Some p => ∃ e, rt_entries s !! p = Some e ∧ entry_allows cb e
  | None =>
      match cb with
      | CbAsync => rt_async s = HandleActive ∧ rt_async_pending s = true
      | CbHangup => sw_handle (rt_hangup s) = HandleActive
      | CbTermination => sw_handle (rt_interrupt s) = HandleActive ∨
                         sw_handle (rt_termination s) = HandleActive
      | _ => False
      end
  end.

(** The completions that do not run into the double [uv_close]. *)
Definition safe_callback (cb : uv_callback) s : Prop :=
  match cb with
  | CbWrite p status => ∀ e, rt_entries s !! p = Some e → ¬ closes_twice e status
  | _ => True
  end.

Lemma grab_handled b x s s' s1 :
  Inv s → frame_of s1 = frame_of s → rt_entries s1 = rt_entries s →
  (rt_next_ptr s ≤ rt_next_ptr s1)%positive →
  (∀ b', account b' s1 + mentions b' (option_list b) = account b' s) →
  quiet (option_list b ++ x) s1 s' → quiet x s s'.
Proof.
  intros HI Hf He Hn Hac [[HI' Hl Hb Hn' Ha Hx] Hp'].
  injection Hf as Hq Has Hex Hap Hh Hi Ht Hlo Hsl Hg Hc Hpu Her.
  split; [|congruence]. split; [done| | |lia| |].
  - rewrite Hl. unfold loop_of. congruence.
  - intros b'. rewrite Hb, !balance_account, He, mentions_app. specialize (Hac b'). lia.
  - intros q f Hq'. destruct (Ha q f Hq') as [?|[? ?]]; rewrite He in *; [by left|right].
    split; [lia|done].
  - intros Hs. apply Hx. unfold exit_sound in *. by rewrite He, Hex, Her.
Qed.

(** A callback that begins with [allocate_read_buffer]. *)
Lemma wp_with_buffer filled (k : option buffer → R unit) s :
  Inv s →
  (∀ base s1, Inv s1 → rt_entries s1 = rt_entries s →
     wp (k base) (λ _ s', quiet (option_list base) s1 s') s1) →
  wp (base ← allocate_read_buffer filled; k base) (λ _ s', quiet [] s s') s.
Proof.
  intros HI Hk. wp_step. unfold allocate_read_buffer. wp_step.
  - eapply wp_mono; [apply Hk; [by eapply Inv_irrelevant|done]|]. intros [] s' Hh.
    refine (grab_handled None [] s s' _ HI _ _ _ _ Hh); [done|done|simpl; lia|].
    intros b'. unfold account. simpl. lia.
  - set (b := Buffer _ _). eapply wp_mono; [apply Hk; [|done]|].
    + pose proof HI as [Hl Hq Ht]. split; [done|done|]. eapply table_ok_next; [exact Ht|simpl; lia].
    + intros [] s' Hh.
      refine (grab_handled (Some b) [] s s' _ HI _ _ _ _ Hh); [done|done|simpl; lia|].
      intros b'. unfold account. simpl. rewrite mentions_app. simpl. lia.
Qed.

Lemma idle_not_pending p e s :
  Idle s → rt_entries s !! p = Some e → e_pump_pending e = false.
Proof.
  intros [Hst Hpu _] Hp. apply not_true_is_false. intros Hpp.
  assert (p ∈ rt_pump s) as Hin; [|rewrite Hpu in Hin; by apply not_elem_of_nil in Hin].
  apply (to_pump _ (inv_table _ (st_inv _ Hst))). eauto.
Qed.

Lemma run_entry_callback_handled cb p e s :
  Idle s → callback_entry cb = Some p → rt_entries s !! p = Some e → entry_allows cb e →
  safe_callback cb s →
  wp (run_callback cb) (λ _ s', quiet [] s s') s.
Proof.
  intros Hid Hcb Hp He Hsafe. pose proof (st_inv _ (id_stable _ Hid)) as HI.
  pose proof (Inv_ok _ _ _ HI Hp) as Hok.
  destruct cb; simpl in *; simplify_eq.
  - by eapply connect_completed_handled.
  - by eapply accept_connection_handled.
  - destruct He as [Hr Ha].
    destruct (eo_reading _ (eo_core _ Hok) Hr) as [Hco|Hcl].
    2:{ exfalso. phase_facts Hok Hcl. destruct (e_is_udp e); intuition congruence. }
    apply wp_with_buffer; [done|]. intros base s1 HI1 He1.
    eapply read_completed_handled; [done|by rewrite He1|done].
  - destruct He as [w Hw]. do 2 wp_step. rewrite Hw. eapply write_completed_handled; eauto.
  - apply wp_with_buffer; [done|]. intros base s1 HI1 He1.
    eapply udp_received_handled; [done|by rewrite He1|done].
  - destruct He as [w Hw]. do 2 wp_step. rewrite Hw. by eapply udp_write_completed_handled.
  - destruct He as (Hh & Hc & Hi & Hu). eapply wp_mono.
    + apply (close_entry_handled p e); try done. by eapply idle_not_pending.
    + by intros [] s' [? _].
Qed.

(** ** What every step keeps *)

(** Addresses are not reused, a socket keeps its id, and one that is closing
    stays so. *)
Definition evolves s s' : Prop :=
  (rt_next_ptr s ≤ rt_next_ptr s')%positive ∧
  ∀ q f', rt_entries s' !! q = Some f' → (rt_next_ptr s ≤ q)%positive ∨
    ∃ f, rt_entries s !! q = Some f ∧ e_id f' = e_id f ∧
      (e_state f = SKYUV_SOCKET_STATE_CLOSING → e_state f' = SKYUV_SOCKET_STATE_CLOSING).

Lemma evolves_refl s : evolves s s.
Proof. split; [done|]. intros q f Hq. right. eauto. Qed.

Lemma evolves_trans s1 s2 s3 : evolves s1 s2 → evolves s2 s3 → evolves s1 s3.
Proof.
  intros [Hn1 H1] [Hn2 H2]. split; [lia|]. intros q f3 Hq3.
  destruct (H2 q f3 Hq3) as [?|(f2 & Hq2 & Hi2 & Hs2)]; [left; lia|].
  destruct (H1 q f2 Hq2) as [?|(f1 & Hq1 & Hi1 & Hs1)]; [by left|right].
  exists f1. split_and!; [done|congruence|auto].
Qed.

Lemma moves_evolves s s' : moves s s' → evolves s s'.
Proof. intros [Hn Ha]. split; [done|]. intros q f Hq. destruct (Ha q f Hq) as [?|[? _]]; auto. Qed.

Lemma quiet_idle s s' : Idle s → quiet [] s s' → Idle s' ∧ evolves s s'.
Proof.
  intros [Hst Hpu Hwk] [Hh Hpu']. rewrite Hpu in Hpu'. pose proof (h_loop _ _ _ Hh) as Hl.
  injection Hl as Hq _ _ Hp _ _ _. split; [|by eapply moves_evolves, handled_moves].
  split; [by eapply handled_stable|done|]. unfold queued in *. by rewrite Hq, Hp.
Qed.

(** Fields the loop invariant does not speak of. *)
Lemma event_quiet s event : Inv s → ev_data event = None → quiet [] s (posted event s).
Proof.
  intros HI Hd. split; [|done]. eapply handled_same; [done|done|done|simpl; lia|].
  intros b. unfold account. simpl. destruct (env_alloc _); [|lia].
  rewrite events_appended, Hd. simpl. lia.
Qed.

Lemma flag_quiet s n : Inv s → quiet [] s (s <| rt_process_shutdown_requested := n |>).
Proof. intros HI. split; [|done]. same_tac. Qed.

Lemma wp_quiet_idle {A} (m : R A) s :
  Idle s → (Inv s → wp m (λ _ s', quiet [] s s') s) → wp m (λ _ s', Idle s' ∧ evolves s s') s.
Proof.
  intros Hid Hm. eapply wp_mono; [apply Hm, Hid|]. intros a s' Hq. by apply quiet_idle.
Qed.

(** libuv forgets the wake-up when it makes the async callback. *)
Lemma woken_stable s : Stable s → Stable (s <| rt_async_pending := false |>).
Proof.
  intros [HI Hb He Hw Hc Hp]. split; try done; [by eapply Inv_irrelevant|].
  destruct Hp as [|l c|]; [by apply Running|by apply (Stopping _ _ l c)|by apply Exiting].
Qed.

Lemma run_callback_idle cb s :
  Idle s → enabled cb s → safe_callback cb s →
  wp (run_callback cb) (λ _ s', Idle s' ∧ evolves s s') s.
Proof.
  intros Hid Hen Hsafe. unfold enabled in Hen. destruct (callback_entry cb) as [p|] eqn:Hcb.
  { destruct Hen as (e & Hp & He). apply wp_quiet_idle; [done|]. intros _.
    by eapply run_entry_callback_handled. }
  destruct cb; try done; simpl in *.
  - do 2 wp_step. set (s1 := s <| rt_async_pending := false |>).
    assert (Stable s1) as Hst1 by (by apply woken_stable, Hid).
    eapply wp_mono; [by apply consume_commands_stable|].
    intros [] s' (Hst & Hq & Hpu & Hm & _ & _). split; [|by apply moves_evolves in Hm].
    split; [done|done|]. by rewrite Hq.
  - apply wp_quiet_idle; [done|]. intros HI. unfold on_hangup_signal. wp_step. by apply event_quiet.
  - apply wp_quiet_idle; [done|]. intros HI. unfold on_termination_signal. do 3 wp_step.
    eapply (quiet_trans [] []); [by apply flag_quiet|]. apply event_quiet; [|done].
    by eapply Inv_irrelevant.
Qed.

End callbacks.

(** ** The interface of the worker threads *)

Section interface.
Context {cfg : SlotConfig} {env : Env}.
Implicit Types (s : skyuv_socket_runtime) (e : skyuv_socket_entry) (p : positive).

(** The state after a command is accepted. *)
Definition submitted (c : skyuv_socket_command) s : skyuv_socket_runtime :=
  (called uv_async_send (s <| rt_commands ::= λ q, q <| cq_items ::= λ l, l ++ [c] |> |>))
    <| rt_async_pending := true |>.

Lemma wp_submit c (Q : Z → skyuv_socket_runtime → Prop) s :
  queue_idle (rt_commands s) → not_exit c →
  (if accepting s then Q SKYUV_OK (submitted c s) else Q SKYUV_ERROR_INVALID_STATE s) →
  wp (skyuv_socket_runtime_submit (Some c)) Q s.
Proof.
  unfold queue_idle, accepting, not_exit. intros [Hm Hk] Hne HQ. unfold skyuv_socket_runtime_submit.
  wp_step. apply wp_zoom. destruct (rt_commands s) as [mx lk items acc] eqn:Hq; simpl in *; subst.
  unfold skyuv_socket_command_queue_push, wp at 1. simpl. rewrite Hne.
  destruct acc; simpl; unfold async_send.
  - do 5 wp_step. unfold submitted in HQ. destruct s; simpl in *. by subst.
  - wp_step. destruct s; simpl in *. by subst.
Qed.

(** A command that is accepted while the runtime is idle, with the buffers it
    brings. *)
Lemma submitted_idle c s s1 :
  Idle s → accepting s = true → not_exit c → command_wf c →
  Inv s1 → loop_of s1 = loop_of s → rt_pump s1 = rt_pump s → rt_exit_ready s1 = rt_exit_ready s →
  (∀ b, balance b s1 + mentions b (command_owned c) = 0) →
  Idle (submitted c s1).
Proof.
  intros [[HI Hb He Hw Hc Hp] Hpu Hwk] Hacc Hne Hwf [Hl1 Hq1 Ht1] Hloop Hpu1 Her Hb1.
  injection Hloop as Hq Has Hex Hpe Hwh Hwi Hwt. split; [|simpl; congruence|done].
  assert (rt_exit_ready s = false) as Hnr.
  { apply not_true_is_false. intros Hr. destruct (He Hr) as [Hx _].
    destruct Hp as [? ? ?|? ? ? ? ?|]; unfold accepting in *; congruence. }
  split.
  - split; [done|done|done].
  - intros b. specialize (Hb1 b). unfold balance in *. simpl.
    rewrite commands_buffers_app, mentions_app. unfold commands_buffers at 2. simpl.
    rewrite app_nil_r. lia.
  - unfold exit_sound. simpl. congruence.
  - unfold watchers_ok in *. simpl. by rewrite Hwh, Hwi, Hwt.
  - unfold queued in *. simpl. rewrite Hq. apply Forall_app. split; [done|]. by apply Forall_singleton.
  - destruct Hp as [Ha1 Ha2 Ha3 Ha4|? ? Ha1|Ha1]; [|congruence|congruence].
    apply Running; unfold accepting, queued in *; simpl; [congruence..|].
    rewrite Hq. apply Forall_app. split; [done|]. by apply Forall_singleton.
Qed.

(** The runtime after allocations that leave no trace. *)
Lemma clock_quiet s n : Inv s → quiet [] s (s <| rt_clock := n |>).
Proof. intros HI. split; [|done]. same_tac. Qed.

Lemma submitted_evolves c s : evolves s (submitted c s).
Proof. split; [done|]. intros q f Hq. right. eauto. Qed.

(** Submitting a command that carries no data. *)
Lemma submit_plain_idle c s :
  Idle s → not_exit c → command_wf c → command_owned c = [] →
  wp (skyuv_socket_runtime_submit (Some c)) (λ _ s', Idle s' ∧ evolves s s') s.
Proof.
  intros Hid Hne Hwf Hown. apply wp_submit; [apply Hid|done|].
  destruct (accepting s) eqn:Hacc; [|split; [done|apply evolves_refl]].
  split; [|apply submitted_evolves]. apply (submitted_idle c s s); try done; try apply Hid.
  intros b. rewrite Hown. simpl. rewrite (st_balance _ (id_stable _ Hid)). done.
Qed.

Lemma idle_clock s n : Idle s → Idle (s <| rt_clock := n |>) ∧ evolves s (s <| rt_clock := n |>).
Proof. intros Hid. apply quiet_idle; [done|]. apply clock_quiet, Hid. Qed.

Lemma idle_step {A} (m : R A) s s1 :
  evolves s s1 → wp m (λ _ s', Idle s' ∧ evolves s1 s') s1 → wp m (λ _ s', Idle s' ∧ evolves s s') s1.
Proof.
  intros He Hm. eapply wp_mono; [exact Hm|]. intros a s' [? ?]. split; [done|by eapply evolves_trans].
Qed.

Lemma wp_result {A B} (m : R A) (k : A → R B) (P : skyuv_socket_runtime → Prop) s :
  wp m (λ _ s', P s') s → (∀ a s', P s' → wp (k a) (λ _ s', P s') s') → wp (m ≫= k) (λ _ s', P s') s.
Proof. intros Hm Hk. wp_step. eapply wp_mono; [exact Hm|]. auto. Qed.

Lemma control_command_idle id opaque body s :
  Idle s → not_exit (Command id opaque body) → command_wf (Command id opaque body) →
  command_owned (Command id opaque body) = [] →
  wp (control_command id opaque body) (λ _ s', Idle s' ∧ evolves s s') s.
Proof.
  intros Hid Hne Hwf Hown. unfold control_command.
  destruct (idle_clock s (S (rt_clock s)) Hid) as [Hid1 Hev1].
  wp_step; [wp_step; split; [done|apply evolves_refl]|]. do 3 wp_step; [|by wp_step].
  by apply idle_step, submit_plain_idle.
Qed.

Lemma start_idle id opaque s :
  Idle s → wp (skyuv_socket_runtime_start id opaque) (λ _ s', Idle s' ∧ evolves s s') s.
Proof.
  intros Hid. unfold skyuv_socket_runtime_start.
  destruct (idle_clock s (S (rt_clock s)) Hid) as [Hid1 Hev1].
  wp_step; [wp_step; split; [done|apply evolves_refl]|]. do 3 wp_step; [|by wp_step].
  apply wp_result; [by apply idle_step, submit_plain_idle|]. intros r s' Hs'. wp_steps; done.
Qed.

Lemma udp_connect_idle id host port s :
  Idle s → wp (skyuv_socket_runtime_udp_connect id host port) (λ _ s', Idle s' ∧ evolves s s') s.
Proof.
  intros Hid. unfold skyuv_socket_runtime_udp_connect.
  destruct (idle_clock s (S (rt_clock s)) Hid) as [Hid1 Hev1].
  destruct (idle_clock _ (S (S (rt_clock s))) Hid1) as [Hid2 Hev2].
  assert (evolves s (s <| rt_clock := S (rt_clock s) |> <| rt_clock := S (S (rt_clock s)) |>)) as Hev
    by (by eapply evolves_trans).
  destruct host as [host|]; [|wp_step; split; [done|apply evolves_refl]].
  wp_step; [wp_step; split; [done|apply evolves_refl]|].
  do 2 wp_step; do 2 wp_step; wp_step; try (by wp_step).
  by apply idle_step, submit_plain_idle.
Qed.

(** ** Sending *)

(** The constructors of the commands that carry data. *)
Definition sends (body : send_payload → skyuv_socket_command_body) : Prop :=
  ∀ id opaque (p : send_payload), let c := Command id opaque (body p) in
    not_exit c ∧ command_wf c = (send_ownership p = SKYUV_SOCKET_BUFFER_OWNED) ∧
    command_owned c =
      if decide (send_ownership p = SKYUV_SOCKET_BUFFER_OWNED) then option_list (send_data p) else [].

Ltac quiet_tac := apply quiet_idle; [assumption|split; [same_tac|reflexivity]].

Lemma submit_send_idle id data size ownership release address address_size body s :
  Idle s → sends body →
  wp (submit_send id data size ownership release address address_size body)
    (λ _ s', Idle s' ∧ evolves s s') s.
Proof.
  intros Hid Hbody. pose proof (st_inv _ (id_stable _ Hid)) as HI. pose proof HI as [Hl Hq Ht].
  pose proof (st_balance _ (id_stable _ Hid)) as Hb.
  unfold submit_send. destruct ownership.
  - do 3 wp_step; wp_step; cbn [fmap option_fmap option_map]; [wp_step; quiet_tac|].
    set (b := Buffer _ _). set (s1 := _ <| rt_taken ::= _ |>).
    do 2 wp_step; wp_step; [|wp_step; wp_step; [|done]; wp_steps; quiet_tac].
    destruct (Hbody id 0 (SendPayload (Some b) size SKYUV_SOCKET_BUFFER_OWNED None address address_size))
      as (Hne & Hwf & Hown). wp_step. apply wp_submit; [done|done|].
    destruct (accepting _) eqn:Hacc.
    + wp_step; [|done]. wp_step. wp_step; [done|]. wp_step. split.
      * eapply (submitted_idle _ s); try done; [by rewrite Hwf| |].
        { split; [done|done|]. eapply table_ok_next; [exact Ht|simpl; lia]. }
        intros b'. rewrite Hown. specialize (Hb b'). unfold balance in *. simpl.
        rewrite mentions_app. simpl. lia.
      * split; [simpl; lia|]. intros q f Hqf. right. eauto.
    + wp_step; [done|]. wp_step. apply wp_destroy_command. wp_step. rewrite Hown. simpl. quiet_tac.
  - do 4 wp_step; wp_step; [|wp_step; wp_step; [done|]; wp_step; quiet_tac].
    destruct (Hbody id 0 (SendPayload data size SKYUV_SOCKET_BUFFER_OWNED release address address_size))
      as (Hne & Hwf & Hown). wp_step. apply wp_submit; [done|done|].
    destruct (accepting _) eqn:Hacc.
    + wp_step; [|done]. wp_step. wp_step; [|done]. do 2 wp_step. split.
      * set (c := Command _ _ _). change (Idle (submitted c (s <| rt_clock ::= S |>
          <| rt_taken ::= λ l, l ++ option_list data |>))).
        eapply (submitted_idle _ s); try done; [by unfold c; rewrite Hwf|].
        intros b'. unfold c. rewrite Hown. specialize (Hb b'). unfold balance in *. simpl.
        rewrite mentions_app. lia.
      * split; [simpl; lia|]. intros q f Hqf. right. eauto.
    + wp_step; [done|]. wp_step. apply wp_destroy_command. wp_step.
      set (p := _ <| send_ownership := _ |>). destruct (Hbody id 0 p) as (_ & _ & Hown').
      rewrite Hown'. simpl. quiet_tac.
Qed.

(** ** Opening *)

(** A reserved entry [e] at [p], as a caller of [reserve_entry] may have
    changed it. *)
Record holding p opaque e s s1 s2 : Prop := Holding {
  ho_began : began p opaque s s1;
  ho_entry : ∃ id, e_id e = id ∧ rt_entries s1 !! p = Some (reserved_entry id opaque);
  ho_clean : entry_ok e ∧ e_state e = SKYUV_SOCKET_STATE_RESERVED ∧ e_is_udp e = false;
  ho_frame : frame_of s2 = frame_of s1;
  ho_entries : rt_entries s2 = <[p := e]> (rt_entries s1);
  ho_next : rt_next_ptr s2 = rt_next_ptr s1;
  ho_account b : account b s2 = account b s1;
}.

Lemma discard_holding p opaque e s s1 s2 :
  Inv s → holding p opaque e s s1 s2 →
  wp (discard_uninitialized_entry p) (λ _ s', quiet [] s s') s2.
Proof.
  intros HI [Hbg (id & Hid & Hp1) (Hok & Hst & Hu) Hf He Hn Ha].
  pose proof (bg_inv _ _ _ _ Hbg) as HI1.
  idle_facts e Hok Hst.
  assert (rt_slots s2 = rt_slots s1) as Hsl by (injection Hf; congruence).
  assert (rt_exiting s2 = rt_exiting s1) as Hex by (injection Hf; congruence).
  assert (rt_exit_ready s2 = rt_exit_ready s1) as Her by (injection Hf; congruence).
  assert (rt_pump s2 = rt_pump s1) as Hpu by (injection Hf; congruence).
  assert (handled [] s1 (removed p e s2)) as Hh.
  { eapply (handled_removed _ _ _ p (reserved_entry id opaque));
      [done|done|done|done|done|done|done|]. intros b. rewrite Ha. simpl. lia. }
  eapply (wp_discard p e).
  - rewrite <- (inv_unlocked _ HI1). injection Hf; congruence.
  - by rewrite He, lookup_insert_eq.
  - rewrite Hsl, Hid. by apply (Inv_slot s1 p (reserved_entry id opaque)).
  - split; [|simpl; rewrite Hpu; by apply Hbg].
    eapply handled_reserve_discard; [done|done|done|simpl; by rewrite He, delete_insert_eq|].
    simpl. rewrite Hex, Her. intros [[Hx Hz%Z.eqb_eq]%andb_true_iff|?]%orb_true_iff; [right|by left].
    split; [done|]. exact (Inv_empty _ (h_inv _ _ _ Hh) Hz).
Qed.

Lemma holding_submitted p opaque e c s s1 s2 :
  Idle s → holding p opaque e s s1 s2 → accepting s = true → not_exit c → command_wf c →
  command_owned c = [] →
  Idle (submitted c s2) ∧ evolves s (submitted c s2) ∧ rt_entries (submitted c s2) !! p = Some e.
Proof.
  intros Hid [Hbg (id & Hide & Hp1) (Hok & Hst & Hu) Hf He Hn Ha] Hacc Hne Hwf Hown.
  pose proof (st_inv _ (id_stable _ Hid)) as HI.
  destruct (began_lookup _ _ _ _ HI Hbg) as (id' & Hp1' & Hnone & Hrest).
  pose proof (bg_inv _ _ _ _ Hbg) as HI1. idle_facts e Hok Hst.
  assert (handled [] s1 s2) as [HI2 Hl2 Hb2 Hn2 Ha2 _].
  { eapply (handled_entry _ _ _ p (reserved_entry id opaque));
      [done|done|done|done|rewrite Hn; lia|done|done|done|done|].
    intros b. rewrite Ha, Hbufs. simpl. lia. }
  injection Hf as _ _ _ _ _ _ _ _ _ _ _ Hpu2 Her2.
  destruct Hbg as [_ Hl Hb [Hpe Hn1] _ (Her & Hpu & _)].
  split_and!.
  - apply (submitted_idle c s s2); try done; try congruence.
    intros b. rewrite Hb2, Hb, (st_balance _ (id_stable _ Hid)), Hown. done.
  - split; [simpl; lia|]. intros q f Hq. simpl in Hq. rewrite He in Hq.
    apply lookup_insert_Some in Hq as [[<- <-]|[Hne' Hq]]; [left; lia|right].
    rewrite Hrest in Hq by done. eauto.
  - simpl. by rewrite He, lookup_insert_eq.
Qed.

Lemma holding_refl p opaque s s1 n :
  Inv s → began p opaque s s1 →
  ∃ id, holding p opaque (reserved_entry id opaque) s s1 (s1 <| rt_clock := n |>).
Proof.
  intros HI Hbg. destruct (began_lookup _ _ _ _ HI Hbg) as (id & Hp & _ & _). exists id.
  split; try done; [by exists id|split; [apply reserved_entry_ok|done]|].
  simpl. by rewrite insert_id.
Qed.

(** The result of opening a socket: a code, and the entry if it is OK. *)
Definition opened s (result : Z * option positive) s' : Prop :=
  Idle s' ∧ evolves s s' ∧
  match result with
  | (code, Some p) => code = SKYUV_OK ∧ is_Some (rt_entries s' !! p)
  | (code, None) => code ≠ SKYUV_OK
  end.

Lemma open_socket_opened opaque body s :
  Idle s →
  (∀ id, let c := Command id opaque body in not_exit c ∧ command_wf c ∧ command_owned c = []) →
  wp (open_socket opaque body) (opened s) s.
Proof.
  intros Hid Hbody. pose proof (st_inv _ (id_stable _ Hid)) as HI. unfold open_socket. wp_step.
  eapply wp_mono; [by apply reserve_entry_result|]. intros [code [p|]] s1; unfold reserve_result, submit_open.
  2:{ intros (-> & Hq & _ & _). wp_step. destruct (quiet_idle _ _ Hid Hq). by split_and!. }
  intros [-> Hbg].
  assert (∀ code n, code ≠ SKYUV_OK → wp (discard_uninitialized_entry p ;; mret (code, None))
    (opened s) (s1 <| rt_clock := n |>)) as Hdis.
  { intros code n Hcode. destruct (holding_refl p opaque s s1 n HI Hbg) as [id Hho].
    wp_step. eapply wp_mono; [by eapply discard_holding|]. intros [] s' Hq. wp_step.
    destruct (quiet_idle _ _ Hid Hq). by split_and!. }
  do 2 wp_step; do 2 wp_step; wp_step; try (by apply Hdis).
  set (s2 := _ <| rt_clock ::= S |>). destruct (holding_refl p opaque s s1 (rt_clock s2) HI Hbg) as [id Hho].
  change (s1 <| rt_clock := rt_clock s2 |>) with s2 in Hho.
  assert (rt_entries s2 !! p = Some (reserved_entry id opaque)) as Hp2
    by (rewrite (ho_entries _ _ _ _ _ _ Hho); apply lookup_insert_eq).
  destruct (Hbody (e_id (reserved_entry id opaque))) as (Hne & Hwf & Hown).
  pose proof (bg_loop _ _ _ _ Hbg) as Hlp.
  assert (accepting s2 = accepting s) as Hacc by (injection Hlp as Hq; unfold accepting; simpl; by rewrite Hq).
  wp_step. eapply wp_deref; [exact Hp2|]. wp_step.
  apply wp_submit; [apply (inv_queue _ (bg_inv _ _ _ _ Hbg))|done|]. rewrite Hacc.
  destruct (accepting s) eqn:Hac.
  - wp_step; [|done]. wp_step.
    destruct (holding_submitted p opaque (reserved_entry id opaque) _ s s1 s2 Hid Hho Hac Hne Hwf Hown)
      as (? & ? & Hp'). split_and!; [done|done|done|]. rewrite Hp'. by eexists.
  - wp_step; [done|]. by apply (Hdis _ (rt_clock s2)).
Qed.

Lemma store_id_idle s o s1 :
  opened s o s1 → wp (store_id o) (λ r s', Idle s' ∧ evolves s s' ∧
    (r.1 = SKYUV_OK ↔ is_Some r.2)) s1.
Proof.
  destruct o as [code [p|]]; intros (Hid & Hev & Ho); unfold store_id.
  - destruct Ho as [-> [e He]]. do 3 wp_step. split_and!; [done|done|]. simpl. split; eauto.
  - wp_step. split_and!; [done|done|]. simpl. split; [done|]. by intros [? ?].
Qed.


(** Whether an entry other than [p] in one of the slots [l] has taken [fd]. *)
Definition fd_in_use (l : list Z) p (fd : Z) s : Prop :=
  ∃ i q e, i ∈ l ∧ rt_slots s !! i = Some q ∧ rt_entries s !! q = Some e ∧ q ≠ p ∧
    e_external_fd e = fd.

Lemma wp_fd_taken l p fd (Q : bool → skyuv_socket_runtime → Prop) s :
  (∀ i q, rt_slots s !! i = Some q → is_Some (rt_entries s !! q)) →
  (fd_in_use l p fd s → Q true s) → (¬ fd_in_use l p fd s → Q false s) →
  wp (fd_taken l p fd) Q s.
Proof.
  intros Hs. revert Q. induction l as [|i l IH]; intros Q HQ1 HQ2; cbn [fd_taken].
  { wp_step. apply HQ2. intros (? & ? & ? & []%not_elem_of_nil & _). }
  assert (¬ (∃ q e, rt_slots s !! i = Some q ∧ rt_entries s !! q = Some e ∧ q ≠ p ∧
    e_external_fd e = fd) → wp (fd_taken l p fd) Q s) as Hskip.
  { intros Hno. apply IH.
    - intros (j & q & e & Hj & H). apply HQ1. exists j, q, e. split; [by right|done].
    - intros Hnl. apply HQ2. intros (j & q & e & [->|Hj]%elem_of_cons & H); [apply Hno; eauto|].
      apply Hnl. exists j, q, e. done. }
  do 2 wp_step. destruct (rt_slots s !! i) as [q|] eqn:Hi.
  - destruct (Hs i q Hi) as [e He]. do 2 wp_step.
    destruct (bool_decide (q ≠ p) && (e_external_fd e =? fd)) eqn:Hc.
    + wp_step. apply HQ1. apply andb_true_iff in Hc as [?%bool_decide_eq_true ?%Z.eqb_eq].
      exists i, q, e. split_and!; try done. by left.
    + apply Hskip. intros (q' & e' & [= <-] & He' & Hne & Hfd). simplify_eq.
      rewrite bool_decide_eq_true_2, Z.eqb_refl in Hc by done. done.
  - apply Hskip. by intros (q & e & ? & _).
Qed.

Lemma slot_entry i q s : Inv s → rt_slots s !! i = Some q → is_Some (rt_entries s !! q).
Proof. intros HI Hi. destruct (to_slot _ (inv_table _ HI) i q Hi) as (e & He & _). simpl in He. eauto. Qed.

Lemma no_id code :
  code ≠ SKYUV_OK → ((code, @None Z).1 = SKYUV_OK ↔ is_Some (code, @None Z).2).
Proof. intros Hc. split; [done|]. by intros [? ?]. Qed.

(** The entry that is discarded after a reservation. *)
Lemma discard_opened p opaque e code s s1 s2 :
  Idle s → holding p opaque e s s1 s2 → code ≠ SKYUV_OK →
  wp (discard_uninitialized_entry p ;; mret (code, None)) (λ r s', r.2 = None ∧ opened s r s') s2.
Proof.
  intros Hid Hho Hcode. pose proof (st_inv _ (id_stable _ Hid)) as HI. wp_step.
  eapply wp_mono; [by eapply discard_holding|]. intros [] s' Hq. wp_step.
  destruct (quiet_idle _ _ Hid Hq). by split_and!.
Qed.

Definition claimed_fd (fd opaque : Z) p s s1 (result : Z * option positive) s2 : Prop :=
  match result with
  | (code, Some q) => code = SKYUV_OK ∧ q = p ∧ (∃ e, holding p opaque e s s1 s2) ∧
      ∀ q f, rt_entries s !! q = Some f → e_external_fd f ≠ fd
  | (code, None) => opened s (code, None) s2
  end.

Lemma claim_fd_holding fd opaque p s s1 :
  Idle s → began p opaque s s1 → wp (claim_fd fd (SKYUV_OK, Some p)) (claimed_fd fd opaque p s s1) s1.
Proof.
  intros Hid Hbg. pose proof (st_inv _ (id_stable _ Hid)) as HI.
  pose proof (bg_inv _ _ _ _ Hbg) as HI1. pose proof HI1 as [Hl1 _ _].
  destruct (began_lookup _ _ _ _ HI Hbg) as (eid & Hp1 & Hnone & Hrest).
  unfold claim_fd. wp_step. apply wp_slots_lock; [done|]. wp_step.
  apply wp_fd_taken; [intros i q; by apply (slot_entry i q s1)|..]; intros Hfd.
  - wp_step. apply wp_slots_unlock; [done|]. rewrite relock by done.
    destruct (holding_refl p opaque s s1 (rt_clock s1) HI Hbg) as [id' Hho].
    eapply wp_mono; [eapply (discard_opened p opaque _ SKYUV_ERROR_INVALID_STATE s s1); [done| |done]|].
    + destruct s1. exact Hho.
    + intros [code [q|]] s' [Hr Ho]; done.
  - do 3 wp_step. apply wp_slots_unlock; [done|]. wp_step.
    set (e := (reserved_entry eid opaque) <| e_external_fd := fd |>).
    set (s2 := _ <| rt_slots_locked := false |>).
    assert (s2 = put p e s1) as Hs2 by (unfold s2; destruct s1; simpl in *; by subst). clearbody s2. subst s2.
    split_and!; [done|done| |].
    + exists e. split; try done; [by exists eid|split; [|done]].
      destruct (reserved_entry_ok eid opaque) as [[] ?]. by split; [split|].
    + intros q f Hq <-. apply Hfd. assert (q ≠ p) as Hne by congruence.
      pose proof (Hrest q Hne) as Hq1. rewrite Hq in Hq1.
      exists (skyuv_socket_id_slot (e_id f)), q, f. split_and!; try done.
      * apply elem_of_seqZ. pose proof (id_slot_range (e_id f)). lia.
      * simpl. by eapply Inv_slot.
Qed.

Lemma submit_bind_opened fd opaque p e s s1 s2 :
  Idle s → holding p opaque e s s1 s2 →
  wp (submit_bind fd opaque (SKYUV_OK, Some p)) (opened s) s2.
Proof.
  intros Hid Hho. pose proof (ho_began _ _ _ _ _ _ Hho) as Hbg.
  assert (∀ n, holding p opaque e s s1 (s2 <| rt_clock := n |>)) as Hho' by (intros n; by destruct Hho).
  assert (∀ code n, code ≠ SKYUV_OK → wp (discard_uninitialized_entry p ;; mret (code, None))
    (opened s) (s2 <| rt_clock := n |>)) as Hdis.
  { intros code n Hcode. eapply wp_mono; [by apply (discard_opened p opaque e code s s1)|].
    by intros r s' [_ ?]. }
  unfold submit_bind. do 2 wp_step; wp_step; [|by apply Hdis].
  set (s3 := s2 <| rt_clock ::= S |>). specialize (Hho' (rt_clock s3)).
  change (_ <| rt_clock := rt_clock s3 |>) with s3 in Hho'. clear Hho.
  pose proof (bg_loop _ _ _ _ Hbg) as Hlp. pose proof (ho_frame _ _ _ _ _ _ Hho') as Hf.
  assert (accepting s3 = accepting s) as Hacc.
  { injection Hlp as Hq. injection Hf as Hq2. unfold accepting; simpl in *. congruence. }
  assert (rt_entries s3 !! p = Some e) as Hp
    by (rewrite (ho_entries _ _ _ _ _ _ Hho'); apply lookup_insert_eq).
  wp_step. eapply wp_deref; [exact Hp|]. wp_step. apply wp_submit; [|done|].
  { pose proof (inv_queue _ (bg_inv _ _ _ _ Hbg)) as Hq. injection Hf as Hq2. simpl in *. by rewrite Hq2. }
  rewrite Hacc. destruct (accepting s) eqn:Hac.
  - wp_step; [|done]. wp_step. destruct (holding_submitted p opaque e (Command (e_id e) opaque
      (SKYUV_SOCKET_COMMAND_BIND fd)) s s1 s3) as (? & ? & Hp'); [done..|].
    split_and!; [done|done|done|]. rewrite Hp'. by eexists.
  - wp_step; [done|]. by apply (Hdis _ (rt_clock s3)).
Qed.

Lemma bind_idle fd opaque id s :
  Idle s →
  wp (skyuv_socket_runtime_bind fd opaque id) (λ r s', (Idle s' ∧ evolves s s' ∧
    (r.1 = SKYUV_OK ↔ is_Some r.2)) ∧
    (r.1 = SKYUV_OK → ∀ q f, rt_entries s !! q = Some f → e_external_fd f ≠ fd)) s.
Proof.
  intros Hid. pose proof (st_inv _ (id_stable _ Hid)) as HI. unfold skyuv_socket_runtime_bind.
  wp_step; [wp_step; split; [split_and!; [done|apply evolves_refl|by apply no_id]|done]|].
  assert (∀ code s', opened s (code, None) s' → wp (submit_bind fd opaque (code, None) ≫= store_id)
    (λ r s', (Idle s' ∧ evolves s s' ∧ (r.1 = SKYUV_OK ↔ is_Some r.2)) ∧
    (r.1 = SKYUV_OK → ∀ q f, rt_entries s !! q = Some f → e_external_fd f ≠ fd)) s') as Hnone.
  { intros code s' Ho. unfold submit_bind. do 2 wp_step. unfold store_id. wp_step.
    destruct Ho as (? & ? & Hcode). split; [split_and!; [done|done|by apply no_id]|done]. }
  wp_step. eapply wp_mono; [by apply reserve_entry_result|].
  intros [code [p|]] s1; unfold reserve_result.
  2:{ intros (-> & Hq & _ & _). destruct (quiet_idle _ _ Hid Hq). unfold claim_fd. do 2 wp_step.
      apply Hnone. by split_and!. }
  intros [-> Hbg]. wp_step. eapply wp_mono; [by apply (claim_fd_holding fd opaque p s s1)|].
  intros [code [q|]] s2; [|intros Ho; by apply Hnone].
  intros (-> & -> & [e Hho] & Hfd). wp_step.
  eapply wp_mono; [by apply (submit_bind_opened fd opaque p e s s1)|].
  intros o s3 Ho. eapply wp_mono; [by apply store_id_idle|]. intros r s' Hr. split; [done|auto].
Qed.

(** ** Exit, state and time *)

Definition exit_command : skyuv_socket_command := Command 0 0 SKYUV_SOCKET_COMMAND_EXIT.

Lemma wp_stop (Q : Z → skyuv_socket_runtime → Prop) s :
  queue_idle (rt_commands s) →
  (if accepting s
   then Q SKYUV_OK (s <| rt_commands ::=
          λ q, q <| cq_accepting := false |> <| cq_items ::= λ l, l ++ [exit_command] |> |>)
   else Q SKYUV_ERROR_INVALID_STATE s) →
  wp (on_queue (skyuv_socket_command_queue_stop (Some exit_command))) Q s.
Proof.
  unfold queue_idle, accepting. intros [Hm Hk] HQ. apply wp_zoom.
  destruct (rt_commands s) as [mx lk items acc] eqn:Hq; simpl in *; subst.
  unfold skyuv_socket_command_queue_stop, wp. simpl.
  destruct acc; simpl in *; destruct s; simpl in *; by subst.
Qed.

Lemma exit_idle s :
  Idle s → wp skyuv_socket_runtime_exit (λ _ s', Idle s' ∧ evolves s s') s.
Proof.
  intros Hid. pose proof (st_inv _ (id_stable _ Hid)) as [Hl Hq Ht]. unfold skyuv_socket_runtime_exit.
  destruct (idle_clock s (S (rt_clock s)) Hid) as [Hid1 Hev1].
  do 2 wp_step; wp_step; [|by wp_step]. wp_step. apply wp_stop; [done|].
  destruct (accepting _) eqn:Hacc.
  2:{ wp_step; [done|]. by wp_step. }
  wp_step; [|done]. unfold async_send. do 5 wp_step.
  split; [|split; [done|]; intros q f Hqf; right; eauto].
  destruct Hid as [[HI Hb He Hw Hc Hp] Hpu Hwk].
  destruct Hp as [Ha1 Ha2 Ha3 Ha4|? ? Ha1|Ha1]; [|unfold accepting in *; simpl in *; congruence..].
  split; [|done|done]. split.
  - by split.
  - intros b. specialize (Hb b). unfold balance in *. simpl.
    rewrite commands_buffers_app, mentions_app. simpl. lia.
  - done.
  - done.
  - unfold queued in *. simpl. apply Forall_app. split; [done|]. by apply Forall_singleton.
  - apply (Stopping _ _ (queued s) exit_command); try done.
Qed.

Lemma state_idle id s :
  Idle s → wp (skyuv_socket_runtime_state id) (λ _ s', s' = s) s.
Proof.
  intros Hid. pose proof (st_inv _ (id_stable _ Hid)) as [Hl Hq Ht]. unfold skyuv_socket_runtime_state.
  wp_step; [by wp_step|]. wp_step. apply wp_slots_lock; [done|]. wp_step.
  apply wp_find_entry; [done| |].
  - intros p e Hp _. wp_steps; apply wp_slots_unlock; try done; wp_step; by apply relock.
  - intros _. wp_steps. apply wp_slots_unlock; [done|]. wp_step. by apply relock.
Qed.

Lemma updatetime_idle time s :
  Idle s → wp (skyuv_socket_runtime_updatetime time) (λ _ s', Idle s' ∧ evolves s s') s.
Proof.
  intros Hid. pose proof (st_inv _ (id_stable _ Hid)) as [Hl Hq Ht].
  unfold skyuv_socket_runtime_updatetime. wp_step. apply wp_slots_lock; [done|]. do 2 wp_step.
  apply wp_slots_unlock; [done|]. apply quiet_idle; [done|].
  pose proof (st_inv _ (id_stable _ Hid)) as HI.
  assert (quiet [] s (s <| rt_current_time := time |>)) as Hqt by (split; [same_tac|done]).
  destruct s; simpl in *. by subst.
Qed.

Lemma take_shutdown_idle s :
  Idle s → wp skyuv_socket_runtime_take_process_shutdown (λ _ s', Idle s' ∧ evolves s s') s.
Proof.
  intros Hid. unfold skyuv_socket_runtime_take_process_shutdown. do 5 wp_step.
  apply quiet_idle; [done|]. apply flag_quiet, Hid.
Qed.

End interface.

(** ** Polling *)

Section polling.
Context {cfg : SlotConfig} {env : Env}.
Implicit Types (s : skyuv_socket_runtime).

(** The runtime with other signal watchers. *)
Lemma watchers_idle h i t n m s :
  Idle s → watcher_ok h → watcher_ok i → watcher_ok t →
  let s' := s <| rt_termination := t |> <| rt_interrupt := i |> <| rt_hangup := h |>
              <| rt_clock := n |> <| rt_uv_calls := m |> in
  Idle s' ∧ evolves s s'.
Proof.
  intros [[HI Hb He Hw Hc Hp] Hpu Hwk] Hh Hi Ht s'. split.
  - split; [|done|done]. split; try done; [by eapply Inv_irrelevant|].
    destruct Hp as [|l c|]; [by apply Running|by apply (Stopping _ _ l c)|by apply Exiting].
  - split; [done|]. intros q f Hq. right. eauto.
Qed.

(** The signal part of a state, other things equal. *)
Definition resignalled s s' : Prop :=
  ∃ h i t a b n m, watcher_ok h ∧ watcher_ok i ∧ watcher_ok t ∧
    s' = s <| rt_termination := t |> <| rt_interrupt := i |> <| rt_hangup := h |>
           <| rt_process_signals_initialized := a |> <| rt_process_signals_failed := b |>
           <| rt_clock := n |> <| rt_uv_calls := m |>.

Lemma resignalled_idle s s' : Idle s → resignalled s s' → Idle s' ∧ evolves s s'.
Proof.
  intros Hid (h & i & t & a & b & n & m & Hh & Hi & Ht & ->).
  destruct (watchers_idle h i t n m s Hid Hh Hi Ht) as [Hid1 Hev1]. split.
  - destruct Hid1 as [[HI Hb He Hw Hc Hp] Hpu Hwk].
    split; [|done|done]. split; try done; [by eapply Inv_irrelevant|].
    destruct Hp as [|l c|]; [by apply Running|by apply (Stopping _ _ l c)|by apply Exiting].
  - exact Hev1.
Qed.

Lemma resignalled_refl s : watchers_ok s → resignalled s s.
Proof.
  intros (? & ? & ?). exists (rt_hangup s), (rt_interrupt s), (rt_termination s),
    (rt_process_signals_initialized s), (rt_process_signals_failed s), (rt_clock s), (rt_uv_calls s).
  split_and!; try done. by destruct s.
Qed.

Lemma resignalled_trans s1 s2 s3 : resignalled s1 s2 → resignalled s2 s3 → resignalled s1 s3.
Proof.
  intros (h & i & t & a & b & n & m & Hh & Hi & Ht & ->) (h' & i' & t' & a' & b' & n' & m' & Hh' & Hi' & Ht' & ->).
  exists h', i', t', a', b', n', m'. done.
Qed.

Lemma resignalled_watchers s s' : resignalled s s' → watchers_ok s'.
Proof. intros (h & i & t & a & b & n & m & Hh & Hi & Ht & ->). done. Qed.

Ltac resignal s h i t :=
  exists h, i, t, (rt_process_signals_initialized s), (rt_process_signals_failed s);
  by do 2 eexists.

(** One watcher, whichever of the three. *)
Lemma initialize_process_signal_ok (watcher : skyuv_socket_runtime → signal_watcher)
    `{!Setter watcher} n s :
  watchers_ok s →
  (∀ s k l, watchers_ok s → resignalled s
     (called k ((called l s) <| watcher := SignalWatcher true HandleActive |>))) →
  wp (initialize_process_signal watcher n) (λ _ s', resignalled s s') s.
Proof.
  intros Hw Hset. unfold initialize_process_signal. do 3 wp_step.
  - do 3 wp_step. by apply Hset.
  - wp_step. destruct Hw as (? & ? & ?). resignal s (rt_hangup s) (rt_interrupt s) (rt_termination s).
Qed.

(** Continuing after one of them. *)
Lemma wp_resignalled {A} (m : R A) s s1 :
  resignalled s s1 → (watchers_ok s1 → wp m (λ _ s', resignalled s1 s') s1) →
  wp m (λ _ s', resignalled s s') s1.
Proof.
  intros Hr Hm. eapply wp_mono; [apply Hm; by eapply resignalled_watchers|].
  intros a s' Hr'. by eapply resignalled_trans.
Qed.

Lemma initialize_process_signals_ok s :
  watchers_ok s → wp initialize_process_signals (λ _ s', resignalled s s') s.
Proof.
  intros Hw. unfold initialize_process_signals. do 4 wp_step. wp_step; [wp_step; by apply resignalled_refl|].
  do 2 wp_step. set (s0 := s <| rt_process_signals_initialized := true |>).
  assert (resignalled s s0) as Hr0.
  { destruct Hw as (? & ? & ?). exists (rt_hangup s), (rt_interrupt s), (rt_termination s), true,
      (rt_process_signals_failed s), (rt_clock s), (rt_uv_calls s). done. }
  clearbody s0. set (W := SignalWatcher true HandleActive).
  apply (wp_result _ _ (resignalled s)).
  { apply wp_resignalled; [done|]. intros Hw0. apply initialize_process_signal_ok; [done|].
    intros s1 k l (? & ? & ?). resignal s1 W (rt_interrupt s1) (rt_termination s1). }
  intros r1 s1 Hr1. apply (wp_result _ _ (resignalled s)).
  { wp_step; [|by wp_step]. apply wp_resignalled; [done|]. intros Hw1.
    apply initialize_process_signal_ok; [done|].
    intros s2 k l (? & ? & ?). resignal s2 (rt_hangup s2) W (rt_termination s2). }
  intros r2 s2 Hr2. apply (wp_result _ _ (resignalled s)).
  { wp_step; [|by wp_step]. apply wp_resignalled; [done|]. intros Hw2.
    apply initialize_process_signal_ok; [done|].
    intros s3 k l (? & ? & ?). resignal s3 (rt_hangup s3) (rt_interrupt s3) W. }
  intros r3 s3 Hr3. wp_step; [by wp_step|]. wp_step.
  destruct (resignalled_watchers _ _ Hr3) as (? & ? & ?). apply wp_close_signals; [done..|].
  intros h i t ? ? ?. do 3 wp_step. eapply resignalled_trans; [exact Hr3|].
  exists h, i, t, (rt_process_signals_initialized s3), true, (rt_clock s3), (rt_uv_calls s3).
  done.
Qed.

(** ** Taking an event *)

Definition has_work s : Prop := rt_events s ≠ [] ∨ rt_exit_ready s = true.

Lemma poll_take_idle s :
  Idle s → wp poll_take (λ _ s', Idle s' ∧ evolves s s') s.
Proof.
  intros Hid. pose proof Hid as [[HI Hb He Hw Hc Hp] Hpu Hwk]. unfold poll_take. do 2 wp_step.
  destruct (rt_events s) as [|ev rest] eqn:Hev.
  - do 3 wp_step. split; [|split; [done|]; intros q f Hq; right; eauto].
    split; [|done|done]. split; try done; [by eapply Inv_irrelevant|].
    destruct Hp as [|l c|]; [by apply Running|by apply (Stopping _ _ l c)|by apply Exiting].
  - do 5 wp_step. apply quiet_idle; [done|]. split; [|done].
    eapply handled_same; [done|done|done|simpl; lia|]. intros b. unfold account. simpl.
    rewrite Hev. unfold events_buffers. simpl. rewrite !mentions_app. simpl. lia.
Qed.

End polling.
