(* ===== verification/Opening.v ===== *)
(** * Opening a socket in stages

    The calls that open a socket reserve an entry, give it a descriptor (bind
    only), submit a command and read the id back.  Between these stages the
    caller holds nothing but the address of the entry, and the network thread and
    the other callers go on.  A stage is safe as long as the entry is still
    reserved. *)
From S2P Require Import Prelude SocketId Fifo SocketTypes CommandQueue RuntimeState Entries.
From S2P Require Import Invariant Rules Handled Slots Udp Writes Connections Lifecycle Runtime Loop.
From S2P Require Import Steps.

(** ** Stages *)

Inductive open_stage :=
| StageReserve (opaque : Z)
| StageClaim (fd : Z) (p : positive)
| StageBind (fd opaque : Z) (p : positive)
| StageSubmit (opaque : Z) (body : skyuv_socket_command_body) (p : positive).

(** The commands of listen, connect and udp. *)
Definition opens (body : skyuv_socket_command_body) : bool :=
  match body with
  | SKYUV_SOCKET_COMMAND_LISTEN _ _ _ | SKYUV_SOCKET_COMMAND_CONNECT _ _
  | SKYUV_SOCKET_COMMAND_UDP _ _ => true
  | _ => false
  end.

Definition stage_entry (stage : open_stage) : option positive :=
  match stage with
  | StageReserve _ => None
  | StageClaim _ p | StageBind _ _ p | StageSubmit _ _ p => Some p
  end.

Section opening.
Context {cfg : SlotConfig} {env : Env}.
Implicit Types (s : skyuv_socket_runtime) (e : skyuv_socket_entry) (p : positive).

Definition run_stage (stage : open_stage) : R (Z * option positive) :=
  match stage with
  | StageReserve opaque => reserve_entry opaque
  | StageClaim fd p => claim_fd fd (SKYUV_OK, Some p)
  | StageBind fd opaque p => submit_bind fd opaque (SKYUV_OK, Some p)
  | StageSubmit opaque body p => submit_open opaque body (SKYUV_OK, Some p)
  end.

Definition still_reserved p s : Prop :=
  ∃ e, rt_entries s !! p = Some e ∧ e_state e = SKYUV_SOCKET_STATE_RESERVED.

Definition stage_ready (stage : open_stage) s : Prop :=
  match stage with
  | StageReserve _ => rt_exiting s = false
  | StageClaim _ p | StageBind _ _ p => still_reserved p s
  | StageSubmit _ body p => opens body = true ∧ still_reserved p s
  end.

(** A stage succeeds with a reserved entry, the one it was given, or fails with
    that entry released. *)
Definition stage_done (stage : open_stage) s (result : Z * option positive) s' : Prop :=
  Idle s' ∧ evolves s s' ∧
  match result with
  | (code, Some q) => code = SKYUV_OK ∧ still_reserved q s' ∧
      match stage_entry stage with Some p => q = p | None => (rt_next_ptr s ≤ q)%positive end
  | (code, None) => code ≠ SKYUV_OK ∧
      match stage_entry stage with Some p => rt_entries s' !! p = None | None => True end
  end.

(** ** A reserved entry *)

Lemma reserved_tcp e :
  entry_ok e → e_state e = SKYUV_SOCKET_STATE_RESERVED → e_is_udp e = false.
Proof.
  intros Hok Hst. pose proof (eo_phase _ (eo_core _ Hok)) as Hph. unfold phase_ok in Hph.
  rewrite Hst in Hph. tauto.
Qed.

Lemma began_idle p opaque s s' :
  Idle s → rt_exiting s = false → began p opaque s s' → Idle s' ∧ evolves s s' ∧ still_reserved p s'.
Proof.
  intros [[HI Hb He Hw Hc Hp] Hpu Hwk] Hx Hbg.
  destruct (began_lookup _ _ _ _ HI Hbg) as (id & Hp1 & Hnone & Hrest).
  destruct Hbg as [HI' Hl Hb' [Hpe Hn] _ (Her & Hpu' & _)].
  injection Hl as Hq Has Hex Hap Hh Hi Ht. split_and!.
  - split; [split; unfold queued, watchers_ok in *; rewrite ?Hq, ?Hh, ?Hi, ?Ht; try done| |].
    + intros b. by rewrite Hb', Hb.
    + intros Hr. rewrite Her in Hr. destruct (He Hr). congruence.
    + destruct Hp as [|l c|]; [apply Running|apply (Stopping _ _ l c)|]; unfold accepting in *;
        congruence.
    + congruence.
    + unfold queued in *. by rewrite Hq, Hap.
  - split; [lia|]. intros q f Hqf. destruct (decide (q = p)) as [->|Hne]; [left; lia|right].
    rewrite Hrest in Hqf by done. eauto.
  - eexists. by split.
Qed.

Lemma reserve_stage opaque s :
  Idle s → rt_exiting s = false →
  wp (reserve_entry opaque) (stage_done (StageReserve opaque) s) s.
Proof.
  intros Hid Hx. eapply wp_mono; [apply reserve_entry_result, Hid|].
  intros [code [p|]] s'; unfold reserve_result, stage_done.
  - intros [-> Hbg]. destruct (began_idle p opaque s s' Hid Hx Hbg) as (? & ? & ?).
    destruct (bg_new _ _ _ _ Hbg) as [-> _]. split_and!; try done. simpl. lia.
  - intros (-> & Hq & _). by destruct (quiet_idle _ _ Hid Hq).
Qed.

Lemma clock_same s : s <| rt_clock := rt_clock s |> = s.
Proof. by destruct s. Qed.

Lemma discard_stage p e code s n :
  Idle s → rt_entries s !! p = Some e → e_state e = SKYUV_SOCKET_STATE_RESERVED → code ≠ SKYUV_OK →
  wp (discard_uninitialized_entry p ;; mret (code, @None positive))
    (λ r s', Idle s' ∧ evolves s s' ∧ r = (code, None) ∧ rt_entries s' !! p = None)
    (s <| rt_clock := n |>).
Proof.
  intros Hid Hp Hst Hcode. pose proof (st_inv _ (id_stable _ Hid)) as HI.
  pose proof (Inv_ok _ _ _ HI Hp) as Hok. pose proof HI as [Hl _ _]. pose proof (reserved_tcp e Hok Hst) as Hu.
  idle_facts e Hok Hst.
  wp_step. eapply (wp_discard p e); [done|done|by apply (Inv_slot s p e)|]. wp_step.
  set (s1 := s <| rt_clock := n |>).
  assert (quiet [] s (removed p e s1)) as Hq.
  { split; [|done]. eapply (handled_removed [] s s1 p e e); try done.
    - simpl. by rewrite insert_id.
    - intros b. unfold account. rewrite Hbufs. simpl. lia. }
  destruct (quiet_idle _ _ Hid Hq). split_and!; try done. simpl. apply lookup_delete_eq.
Qed.

(** The submission, and the discard when it is refused. *)
Lemma submit_stage p e body s n opaque :
  Idle s → rt_entries s !! p = Some e → e_state e = SKYUV_SOCKET_STATE_RESERVED →
  (let c := Command (e_id e) opaque body in not_exit c ∧ command_wf c ∧ command_owned c = []) →
  wp (result ← skyuv_socket_runtime_submit (Some (Command (e_id e) opaque body));
      if negb (result =? SKYUV_OK) then
        discard_uninitialized_entry p ;; mret (result, None)
      else mret (SKYUV_OK, Some p)) (λ r s', Idle s' ∧ evolves s s' ∧
        match r with
        | (code, Some q) => code = SKYUV_OK ∧ still_reserved q s' ∧ q = p
        | (code, None) => code ≠ SKYUV_OK ∧ rt_entries s' !! p = None
        end) (s <| rt_clock := n |>).
Proof.
  intros Hid Hp Hst (Hne & Hwf & Hown). destruct (idle_clock s n Hid) as [Hid0 Hev0].
  set (s0 := s <| rt_clock := n |>) in *.
  wp_step. apply wp_submit; [apply Hid0|done|]. destruct (accepting s0) eqn:Hacc.
  - wp_step; [|done]. wp_step. split; [|split].
    + apply (submitted_idle _ s0 s0); try done; try apply Hid0.
      intros b. rewrite Hown. simpl. by rewrite (st_balance _ (id_stable _ Hid0)).
    + eapply evolves_trans; [exact Hev0|apply submitted_evolves].
    + split_and!; [done|by exists e|done].
  - wp_step; [done|]. eapply wp_mono; [by apply (discard_stage p e _ s n)|].
    intros r s' (? & ? & -> & ?). by split_and!.
Qed.

Lemma claim_stage fd p s :
  Idle s → still_reserved p s → wp (claim_fd fd (SKYUV_OK, Some p)) (stage_done (StageClaim fd p) s) s.
Proof.
  intros Hid (e & Hp & Hst). pose proof (st_inv _ (id_stable _ Hid)) as HI. pose proof HI as [Hl _ _].
  unfold claim_fd. wp_step. apply wp_slots_lock; [done|]. wp_step.
  apply wp_fd_taken; [intros i q; by apply (slot_entry i q s)|..]; intros Hfd.
  - wp_step. apply wp_slots_unlock; [done|]. rewrite relock by done.
    pose proof (discard_stage p e SKYUV_ERROR_INVALID_STATE s (rt_clock s)) as Hd.
    rewrite clock_same in Hd. eapply wp_mono; [by apply Hd|].
    intros r s' (? & ? & -> & ?). by split_and!.
  - do 3 wp_step. apply wp_slots_unlock; [done|]. wp_step.
    set (e1 := e <| e_external_fd := fd |>). set (s2 := _ <| rt_slots_locked := false |>).
    assert (s2 = put p e1 s) as -> by (unfold s2; destruct s; simpl in *; by subst).
    pose proof (Inv_ok _ _ _ HI Hp) as Hok. pose proof (reserved_tcp e Hok Hst) as Hu.
    idle_facts e Hok Hst.
    assert (quiet [] s (put p e1 s)) as Hq.
    { split; [|done]. eapply (handled_entry [] s _ p e e1); try done.
      - destruct Hok as [[] ?]. by split; [split|].
      - intros b. change (entry_buffers e1) with (entry_buffers e).
        change (account b (put p e1 s)) with (account b s). simpl. lia. }
    destruct (quiet_idle _ _ Hid Hq). split_and!; try done.
    exists e1. simpl. by rewrite lookup_insert_eq.
Qed.

Lemma bind_stage fd opaque p s :
  Idle s → still_reserved p s →
  wp (submit_bind fd opaque (SKYUV_OK, Some p)) (stage_done (StageBind fd opaque p) s) s.
Proof.
  intros Hid (e & Hp & Hst). unfold submit_bind. do 2 wp_step; wp_step.
  - wp_step. eapply wp_deref; [exact Hp|].
    eapply wp_mono; [by apply (submit_stage p e _ s (S (rt_clock s)))|]. by intros [code [q|]] s'.
  - eapply wp_mono; [by apply (discard_stage p e SKYUV_ERROR_OUT_OF_MEMORY s (S (rt_clock s)))|].
    intros r s' (? & ? & -> & ?). by split_and!.
Qed.

Lemma open_stage_done opaque body p s :
  Idle s → opens body = true → still_reserved p s →
  wp (submit_open opaque body (SKYUV_OK, Some p)) (stage_done (StageSubmit opaque body p) s) s.
Proof.
  intros Hid Hbody (e & Hp & Hst).
  assert (∀ n, wp (discard_uninitialized_entry p ;; mret (SKYUV_ERROR_OUT_OF_MEMORY, None))
      (stage_done (StageSubmit opaque body p) s) (s <| rt_clock := n |>)) as Hdis.
  { intros n. eapply wp_mono; [by apply (discard_stage p e SKYUV_ERROR_OUT_OF_MEMORY s n)|].
    intros r s' (? & ? & -> & ?). by split_and!. }
  unfold submit_open. do 2 wp_step; do 2 wp_step; wp_step; [|by apply (Hdis (S (S (rt_clock s))))|by apply (Hdis (S (rt_clock s)))].
  wp_step. eapply wp_deref; [exact Hp|].
  eapply wp_mono; [apply (submit_stage p e _ s (S (S (rt_clock s)))); try done; by destruct body|].
  by intros [code [q|]] s'.
Qed.

Lemma run_stage_done stage s :
  Idle s → stage_ready stage s → wp (run_stage stage) (stage_done stage s) s.
Proof.
  intros Hid Hst. destruct stage; simpl in *.
  - by apply reserve_stage.
  - by apply claim_stage.
  - by apply bind_stage.
  - destruct Hst. by apply open_stage_done.
Qed.

(** ** A released entry *)

Lemma discard_released {A} p (k : unit → R A) s :
  rt_entries s !! p = None → faults (discard_uninitialized_entry p ≫= k) UseAfterFree s.
Proof.
  intros Hp. unfold faults, discard_uninitialized_entry, clear_slot, deref, mbind, M_bind.
  by rewrite Hp.
Qed.

Lemma deref_released {A} p (k : skyuv_socket_entry → R A) s :
  rt_entries s !! p = None → faults (deref p ≫= k) UseAfterFree s.
Proof. intros Hp. unfold faults, deref, mbind, M_bind. by rewrite Hp. Qed.

Lemma run_stage_released stage p s :
  Idle s → stage_entry stage = Some p → rt_entries s !! p = None →
  faults (run_stage stage) UseAfterFree s.
Proof.
  intros Hid He Hp. pose proof (st_inv _ (id_stable _ Hid)) as HI. pose proof HI as [Hl _ _].
  destruct stage; simpl in *; simplify_eq.
  - apply faults_bind, wp_slots_lock; [done|]. apply faults_bind.
    apply wp_fd_taken; [intros i q; by apply (slot_entry i q s)|..]; intros _.
    + apply faults_bind, wp_slots_unlock; [done|]. by apply discard_released.
    + unfold faults, assign, mbind, M_bind. simpl. by rewrite Hp.
  - apply faults_bind, wp_alloc; intros _; simpl; [by apply deref_released|by apply discard_released].
  - apply faults_bind, wp_alloc; intros _; simpl.
    + apply faults_bind, wp_alloc; intros _; simpl; [by apply deref_released|by apply discard_released].
    + apply faults_bind, wp_ret. by apply discard_released.
Qed.

End opening.
