(* ===== verification/Safety.v ===== *)
(** * Safety of the socket runtime

    The runtime as a transition system: libuv makes its callbacks, worker
    threads make their calls, those that open a socket stage by stage, the network
    thread polls, in any order.  The loop invariant holds in every reachable state,
    and nothing faults there but one completion callback and a stage whose entry
    has been released meanwhile, whose conditions are exact. *)
From S2P Require Import Prelude SocketId Fifo SocketTypes CommandQueue RuntimeState Entries.
From S2P Require Import Invariant Rules Handled Slots Udp Writes Connections Lifecycle Runtime Loop.
From S2P Require Import Steps Opening.

(** ** Calls *)

(** The functions of socket_internal.h a worker thread can call. *)
Inductive api_call :=
| ApiListen (host : option string) (port backlog opaque : Z) (id : bool)
| ApiConnect (host : option string) (port opaque : Z) (id : bool)
| ApiUdp (host : option string) (port opaque : Z) (id : bool)
| ApiBind (fd opaque : Z) (id : bool)
| ApiStart (id opaque : Z)
| ApiPause (id opaque : Z)
| ApiNodelay (id : Z)
| ApiClose (id opaque : Z)
| ApiShutdown (id opaque : Z)
| ApiUdpConnect (id : Z) (host : option string) (port : Z)
| ApiSend (id : Z) (data : option buffer) (size : Z)
    (ownership : skyuv_socket_buffer_ownership) (release : option positive)
| ApiSendLow (id : Z) (data : option buffer) (size : Z)
    (ownership : skyuv_socket_buffer_ownership) (release : option positive)
| ApiUdpSend (id : Z) (address : option (list Z)) (address_size : Z) (data : option buffer)
    (size : Z) (ownership : skyuv_socket_buffer_ownership) (release : option positive)
| ApiState (id : Z)
| ApiUpdateTime (time : Z)
| ApiTakeShutdown
| ApiExit.

Section safety.
Context {cfg : SlotConfig} {env : Env}.
Implicit Types (s : skyuv_socket_runtime) (e : skyuv_socket_entry) (p : positive).

(** A call, for its effect on the runtime. *)
Definition run_api (call : api_call) : R unit :=
  match call with
  | ApiListen host port backlog opaque id =>
      skyuv_socket_runtime_listen host port backlog opaque id ;; skip
  | ApiConnect host port opaque id => skyuv_socket_runtime_connect host port opaque id ;; skip
  | ApiUdp host port opaque id => skyuv_socket_runtime_udp host port opaque id ;; skip
  | ApiBind fd opaque id => skyuv_socket_runtime_bind fd opaque id ;; skip
  | ApiStart id opaque => skyuv_socket_runtime_start id opaque ;; skip
  | ApiPause id opaque => skyuv_socket_runtime_pause id opaque ;; skip
  | ApiNodelay id => skyuv_socket_runtime_nodelay id ;; skip
  | ApiClose id opaque => skyuv_socket_runtime_close id opaque ;; skip
  | ApiShutdown id opaque => skyuv_socket_runtime_shutdown id opaque ;; skip
  | ApiUdpConnect id host port => skyuv_socket_runtime_udp_connect id host port ;; skip
  | ApiSend id data size ownership release =>
      skyuv_socket_runtime_send id data size ownership release ;; skip
  | ApiSendLow id data size ownership release =>
      skyuv_socket_runtime_send_low id data size ownership release ;; skip
  | ApiUdpSend id address address_size data size ownership release =>
      skyuv_socket_runtime_udp_send id address address_size data size ownership release ;; skip
  | ApiState id => skyuv_socket_runtime_state id ;; skip
  | ApiUpdateTime time => skyuv_socket_runtime_updatetime time
  | ApiTakeShutdown => skyuv_socket_runtime_take_process_shutdown ;; skip
  | ApiExit => skyuv_socket_runtime_exit ;; skip
  end.

(** ** Steps *)

Inductive step s : skyuv_socket_runtime → Prop :=
| step_callback cb s' : enabled cb s → run_callback cb s = Ret tt s' → step s s'
| step_api call s' : run_api call s = Ret tt s' → step s s'
| step_stage stage r s' : stage_ready stage s → run_stage stage s = Ret r s' → step s s'
| step_signals r s' : initialize_process_signals s = Ret r s' → step s s'
| step_take r s' : has_work s → poll_take s = Ret r s' → step s s'.

Definition steps : relation skyuv_socket_runtime := rtc step.

Definition reachable s : Prop := steps fresh_runtime s.

(** ** Lemmas *)

Lemma fresh_idle : Idle fresh_runtime.
Proof.
  split; [|done|done]. split.
  - split; [done|done|]. split; simpl; try done; [constructor|].
    intros p. split; [by intros []%not_elem_of_nil|by intros (e & ? & _)].
  - done.
  - done.
  - done.
  - constructor.
  - by apply Running.
Qed.

Lemma open_idle opaque body s :
  Idle s →
  (∀ id, let c := Command id opaque body in not_exit c ∧ command_wf c ∧ command_owned c = []) →
  wp (open_socket opaque body ≫= store_id) (λ _ s', Idle s' ∧ evolves s s') s.
Proof.
  intros Hid Hb. wp_step. eapply wp_mono; [by apply open_socket_opened|]. intros o s1 Ho.
  eapply wp_mono; [by apply store_id_idle|]. naive_solver.
Qed.

Lemma invalid_idle {A} (a : A) s : Idle s → wp (mret a) (λ _ s', Idle s' ∧ evolves s s') s.
Proof. intros Hid. wp_step. split; [done|apply evolves_refl]. Qed.

Lemma send_idle id data size ownership release low s :
  Idle s → wp (runtime_send id data size ownership release low) (λ _ s', Idle s' ∧ evolves s s') s.
Proof.
  intros Hid. unfold runtime_send. wp_step; [by apply invalid_idle|].
  apply submit_send_idle; [done|]. by destruct low.
Qed.

Lemma udp_send_idle id address address_size data size ownership release s :
  Idle s →
  wp (skyuv_socket_runtime_udp_send id address address_size data size ownership release)
    (λ _ s', Idle s' ∧ evolves s s') s.
Proof.
  intros Hid. unfold skyuv_socket_runtime_udp_send. wp_step; [by apply invalid_idle|].
  by apply submit_send_idle.
Qed.

Lemma run_api_idle call s : Idle s → wp (run_api call) (λ _ s', Idle s' ∧ evolves s s') s.
Proof.
  intros Hid.
  assert (∀ A (m : R A), wp m (λ _ s', Idle s' ∧ evolves s s') s →
    wp (m ;; skip) (λ _ s', Idle s' ∧ evolves s s') s) as Hskip.
  { intros A m Hm. wp_step. eapply wp_mono; [exact Hm|]. intros a s' Hs. by wp_step. }
  destruct call; simpl; try apply Hskip.
  - unfold skyuv_socket_runtime_listen. destruct host; [|by apply invalid_idle].
    wp_step; [by apply invalid_idle|]. by apply open_idle.
  - unfold skyuv_socket_runtime_connect. destruct host; [|by apply invalid_idle].
    wp_step; [by apply invalid_idle|]. by apply open_idle.
  - unfold skyuv_socket_runtime_udp. cbv zeta. wp_step; [by apply invalid_idle|]. by apply open_idle.
  - eapply wp_mono; [by apply bind_idle|]. naive_solver.
  - by apply start_idle.
  - by apply control_command_idle.
  - by apply control_command_idle.
  - by apply control_command_idle.
  - by apply control_command_idle.
  - by apply udp_connect_idle.
  - by apply send_idle.
  - by apply send_idle.
  - by apply udp_send_idle.
  - eapply wp_mono; [by apply state_idle|]. intros ? ? ->. split; [done|apply evolves_refl].
  - by apply updatetime_idle.
  - by apply take_shutdown_idle.
  - by apply exit_idle.
Qed.

(** The completion that ends in a second [uv_close]. *)
Definition double_close (cb : uv_callback) s : Prop :=
  match cb with
  | CbWrite p status => ∃ e, rt_entries s !! p = Some e ∧ closes_twice e status
  | _ => False
  end.

Lemma double_close_faults cb s :
  Idle s → enabled cb s → double_close cb s → faults (run_callback cb) CloseClosing s.
Proof.
  intros Hid Hen Hd. destruct cb; try done. destruct Hd as (e & He & Hct).
  destruct Hen as (e' & He' & [w Hw]). simplify_eq. unfold run_callback. apply faults_bind.
  eapply wp_deref; [done|]. rewrite Hw. eapply write_completed_faults; [apply Hid|done..].
Qed.

Lemma safe_or_double cb s : safe_callback cb s ∨ double_close cb s.
Proof.
  destruct cb as [| | | | | |p status| | |]; try by left. simpl.
  destruct (rt_entries s !! p) as [e|] eqn:He; [|by left].
  destruct (decide (closes_twice e status)); [right; eauto|left].
  intros e' [= <-]. done.
Qed.

Lemma step_idle s s' : Idle s → step s s' → Idle s' ∧ evolves s s'.
Proof.
  intros Hid [cb s1 Hen Hr|call s1 Hr|stage r s1 Hst Hr|r s1 Hr|r s1 Hw Hr].
  - destruct (safe_or_double cb s) as [Hs|Hd].
    + pose proof (run_callback_idle cb s Hid Hen Hs) as Hwp. unfold wp in Hwp. by rewrite Hr in Hwp.
    + pose proof (double_close_faults cb s Hid Hen Hd) as Hf. unfold faults in Hf. congruence.
  - pose proof (run_api_idle call s Hid) as Hwp. unfold wp in Hwp. by rewrite Hr in Hwp.
  - pose proof (run_stage_done stage s Hid Hst) as Hwp. unfold wp in Hwp. rewrite Hr in Hwp.
    by destruct Hwp as (? & ? & _).
  - pose proof (initialize_process_signals_ok s (st_watchers _ (id_stable _ Hid))) as Hwp.
    unfold wp in Hwp. rewrite Hr in Hwp. by apply resignalled_idle.
  - pose proof (poll_take_idle s Hid) as Hwp. unfold wp in Hwp. by rewrite Hr in Hwp.
Qed.

Lemma steps_idle s s' : Idle s → steps s s' → Idle s' ∧ evolves s s'.
Proof.
  intros Hid Hs. induction Hs as [s|s1 s2 s3 H12 _ IH]; [split; [done|apply evolves_refl]|].
  destruct (step_idle s1 s2 Hid H12) as [Hid2 Hev2]. destruct (IH Hid2) as [Hid3 Hev3].
  split; [done|by eapply evolves_trans].
Qed.

Lemma reachable_idle s : reachable s → Idle s.
Proof. intros Hr. by apply (steps_idle fresh_runtime s fresh_idle). Qed.

End safety.
