(* ===== verification/Scripts.v ===== *)
(** * Concrete runs

    A runtime driven by a list of actions, in an environment in which every
    call and allocation succeeds.  Used to exhibit states and traces. *)
From S2P Require Import Prelude SocketId Fifo SocketTypes CommandQueue RuntimeState Entries.
From S2P Require Import Invariant Rules Handled Slots Udp Writes Connections Lifecycle Runtime Loop.
From S2P Require Import Steps Safety.

(** ** Deciding which callbacks are enabled *)

Section play.
Context {cfg : SlotConfig} {env : Env}.
Implicit Types (s : skyuv_socket_runtime) (e : skyuv_socket_entry) (p : positive).

#[export] Instance entry_allows_dec cb e : Decision (entry_allows cb e).
Proof. destruct cb; simpl; apply _. Defined.

#[export] Instance enabled_dec cb s : Decision (enabled cb s).
Proof.
  unfold enabled. destruct (callback_entry cb) as [p|].
  - destruct (rt_entries s !! p) as [e|].
    + destruct (decide (entry_allows cb e)) as [H|H]; [left; eauto|right].
      abstract (intros (e' & [= <-] & ?); done).
    + right. abstract (intros (e' & ? & ?); done).
  - destruct cb; simpl; apply _.
Defined.

Inductive action :=
| DoCallback (cb : uv_callback)
| DoApi (call : api_call)
| DoSignals
| DoTake.

#[export] Instance has_work_dec s : Decision (has_work s).
Proof. unfold has_work. apply _. Defined.

Definition act (a : action) s : option skyuv_socket_runtime :=
  match a with
  | DoCallback cb => if decide (enabled cb s) then exec (run_callback cb) s else None
  | DoApi call => exec (run_api call) s
  | DoSignals => exec initialize_process_signals s
  | DoTake => if decide (has_work s) then exec poll_take s else None
  end.

Fixpoint play (script : list action) s : option skyuv_socket_runtime :=
  match script with
  | [] => Some s
  | a :: script => match act a s with Some s' => play script s' | None => None end
  end.

Lemma act_step a s s' : act a s = Some s' → step s s'.
Proof.
  unfold act, exec. intros Ha. destruct a; repeat case_match; simplify_eq.
  - match goal with u : () |- _ => destruct u end. by eapply step_callback.
  - match goal with u : () |- _ => destruct u end. by eapply step_api.
  - by eapply step_signals.
  - by eapply step_take.
Qed.

Lemma play_steps script s s' : play script s = Some s' → steps s s'.
Proof.
  revert s. induction script as [|a script IH]; intros s Hp; simpl in Hp; [by simplify_eq|].
  destruct (act a s) as [s1|] eqn:Ha; [|done]. eapply rtc_l; [by eapply act_step|by apply IH].
Qed.

(** The state a script ends in. *)
Definition played (script : list action) : skyuv_socket_runtime :=
  default fresh_runtime (play script fresh_runtime).

Lemma played_reachable script : is_Some (play script fresh_runtime) → reachable (played script).
Proof. intros [s Hs]. unfold played. rewrite Hs. simpl. by eapply play_steps. Qed.

Lemma played_idle script : is_Some (play script fresh_runtime) → Idle (played script).
Proof. intros Hp. by apply reachable_idle, played_reachable. Qed.

Lemma played_inv script : is_Some (play script fresh_runtime) → Inv (played script).
Proof. intros Hp. apply (st_inv _ (id_stable _ (played_idle script Hp))). Qed.

Lemma play_app script1 script2 s :
  play (script1 ++ script2) s =
  match play script1 s with Some s' => play script2 s' | None => None end.
Proof.
  revert s. induction script1 as [|a script1 IH]; intros s; simpl; [done|]. by destruct (act a s).
Qed.

Lemma played_steps script1 script2 :
  is_Some (play (script1 ++ script2) fresh_runtime) →
  steps (played script1) (played (script1 ++ script2)).
Proof.
  intros [s Hs]. unfold played. rewrite Hs. rewrite play_app in Hs.
  destruct (play script1 fresh_runtime) as [s1|]; [|done]. by eapply play_steps.
Qed.

(** The entry a script leaves at an address. *)
Definition entry_of (script : list action) p : skyuv_socket_entry :=
  default (reserved_entry 0 0) (rt_entries (played script) !! p).

(** The outcome of one more computation at the end of a script. *)
Definition fault_after {A} (script : list action) (m : R A) : option fault :=
  match play script fresh_runtime with
  | None => None
  | Some s => match m s with Fault f => Some f | Ret _ _ => None end
  end.

End play.

(** ** An environment without failures *)

#[local] Open Scope string_scope.

Definition good_env : Env := {|
  UV_EOF := -4095; UV_EINVAL := -22; UV_ENOTCONN := -107; UV_ECANCELED := -125;
  UV_ENOMEM := -12; UV_ENOBUFS := -105; UV_EDESTADDRREQ := -89;
  SIGHUP := 1; SIGINT := 2; SIGTERM := 15;
  env_alloc := λ _, true;
  env_uv := λ _ _, 0;
  env_getname := λ _ _ _, inr (sockaddr_in [31; 144] [127; 0; 0; 1]);
  uv_ip4_addr := λ host port,
    if String.eqb host "127.0.0.1"
    then inr (sockaddr_in [port / 256; port mod 256] [127; 0; 0; 1])
    else if String.eqb host "0.0.0.0"
    then inr (sockaddr_in [port / 256; port mod 256] [0; 0; 0; 0])
    else inl (-22);
  uv_ip6_addr := λ _ _, inl (-22);
  uv_ip_name := λ _, Some "127.0.0.1";
|}.

Lemma good_env_laws : EnvLaws good_env.
Proof. split; simpl; lia. Qed.

(** ** Some runs *)

#[local] Existing Instance small_slots.
#[local] Existing Instance good_env.

(** A connected socket; with four slots its id is 4, its address 1. *)
Definition connected_script : list action :=
  [ DoSignals; DoApi (ApiConnect (Some "127.0.0.1") 8080 7 true); DoCallback CbAsync;
    DoCallback (CbConnect 1 0) ].

Definition ex_data : buffer := Buffer 1000 [1; 2; 3].
Definition ex_data2 : buffer := Buffer 1001 [4; 5].

(** Two writes are queued, the first is in flight. *)
Definition sending_script : list action :=
  connected_script ++
  [ DoApi (ApiSend 4 (Some ex_data) 3 SKYUV_SOCKET_BUFFER_OWNED None);
    DoApi (ApiSendLow 4 (Some ex_data2) 2 SKYUV_SOCKET_BUFFER_OWNED None);
    DoCallback CbAsync ].

(** The socket is asked to close while it is sending. *)
Definition closing_script : list action :=
  sending_script ++ [ DoApi (ApiClose 4 7); DoCallback CbAsync ].

(** A socket that is shut down while it is sending. *)
Definition shutdown_script : list action :=
  sending_script ++ [ DoApi (ApiShutdown 4 7); DoCallback CbAsync ].

(** A runtime that was told to exit with one socket open. *)
Definition exiting_script : list action :=
  connected_script ++ [ DoApi ApiExit; DoCallback CbAsync ].

(** Commands wait, EXIT among them. *)
Definition waiting_script : list action :=
  connected_script ++
  [ DoApi (ApiSend 4 (Some ex_data) 3 SKYUV_SOCKET_BUFFER_OWNED None); DoApi ApiExit ].

(** A UDP socket. *)
Definition udp_script : list action :=
  [ DoApi (ApiUdp (Some "127.0.0.1") 9000 7 true); DoCallback CbAsync ].

(** A socket on a descriptor of the caller. *)
Definition bind_script : list action :=
  [ DoApi (ApiBind 5 7 true); DoCallback CbAsync ].

(** A socket that is reserved, for a command that waits. *)
Definition listening_script : list action :=
  [ DoApi (ApiListen (Some "localhost") 80 128 7 true) ].

Example shutdown_plays : is_Some (play (shutdown_script ++ [DoCallback (CbWrite 1 UV_ECANCELED)]) fresh_runtime).
Proof. vm_compute. eauto. Qed.

Example exiting_plays : is_Some (play exiting_script fresh_runtime).
Proof. vm_compute. eauto. Qed.

Example waiting_plays : is_Some (play waiting_script fresh_runtime).
Proof. vm_compute. eauto. Qed.

Example udp_plays : is_Some (play udp_script fresh_runtime).
Proof. vm_compute. eauto. Qed.

Example bind_plays : is_Some (play bind_script fresh_runtime).
Proof. vm_compute. eauto. Qed.

Example listening_plays : is_Some (play listening_script fresh_runtime).
Proof. vm_compute. eauto. Qed.

Example connected_plays : is_Some (play connected_script fresh_runtime).
Proof. vm_compute. eauto. Qed.

Example sending_plays : is_Some (play sending_script fresh_runtime).
Proof. vm_compute. eauto. Qed.

Example closing_plays : is_Some (play closing_script fresh_runtime).
Proof. vm_compute. eauto. Qed.

Definition connected_entry : skyuv_socket_entry := Eval vm_compute in entry_of connected_script 1.
Definition sending_entry : skyuv_socket_entry := Eval vm_compute in entry_of sending_script 1.
Definition closing_entry : skyuv_socket_entry := Eval vm_compute in entry_of closing_script 1.

Lemma connected_at : rt_entries (played connected_script) !! 1%positive = Some connected_entry.
Proof. vm_compute. reflexivity. Qed.

Lemma sending_at : rt_entries (played sending_script) !! 1%positive = Some sending_entry.
Proof. vm_compute. reflexivity. Qed.

Lemma closing_at : rt_entries (played closing_script) !! 1%positive = Some closing_entry.
Proof. vm_compute. reflexivity. Qed.

Definition exiting_entry : skyuv_socket_entry := Eval vm_compute in entry_of exiting_script 1.
Definition shutdown_entry : skyuv_socket_entry := Eval vm_compute in entry_of shutdown_script 1.
Definition udp_entry : skyuv_socket_entry := Eval vm_compute in entry_of udp_script 1.
Definition bind_entry : skyuv_socket_entry := Eval vm_compute in entry_of bind_script 1.
Definition listening_entry : skyuv_socket_entry := Eval vm_compute in entry_of listening_script 1.

Lemma exiting_at : rt_entries (played exiting_script) = {[ 1%positive := exiting_entry ]}.
Proof. vm_compute. reflexivity. Qed.

Lemma shutdown_at : rt_entries (played shutdown_script) !! 1%positive = Some shutdown_entry.
Proof. vm_compute. reflexivity. Qed.

Lemma udp_at : rt_entries (played udp_script) !! 1%positive = Some udp_entry.
Proof. vm_compute. reflexivity. Qed.

Lemma bind_at : rt_entries (played bind_script) !! 1%positive = Some bind_entry.
Proof. vm_compute. reflexivity. Qed.

Lemma listening_at : rt_entries (played listening_script) !! 1%positive = Some listening_entry.
Proof. vm_compute. reflexivity. Qed.

#[global] Opaque played.
