(* ===== verification/SocketProperties.v ===== *)
(** * Properties of the socket runtime

    The statements about every reachable state of the runtime, and about what
    callbacks, calls and polling do there. *)
From S2P Require Import Prelude SocketId Fifo SocketTypes CommandQueue RuntimeState Entries.
From S2P Require Import Invariant Rules Handled Slots Udp Writes Connections Lifecycle Runtime Loop.
From S2P Require Import Steps Opening Safety Scripts.

Section properties.
Context {cfg : SlotConfig} {env : Env}.
Implicit Types (s : skyuv_socket_runtime) (e : skyuv_socket_entry) (p : positive).

(** C1 In every reachable state of the runtime, whatever callbacks libuv made,
    whatever calls the worker threads made and however they interleaved: the
    slots mutex is free, slot table and entries describe each other, every
    entry's state agrees with its libuv handle, its byte counter with its write
    queues and its flags with each other, queued data has a writer or is about
    to get one unless the socket is ending, every buffer is accounted for,
    EXIT comes last, and a waiting command has woken the loop. *)
Theorem runtime_invariant s : reachable s → Idle s.
Proof. apply reachable_idle. Qed.

(** C2 A callback that libuv may make in a reachable state runs to its end, and
    leaves the invariant, unless it is the completion of the last write of a
    socket that was asked to close and either failed or is closing already:
    then, and only then, the code calls [uv_close] on a closing handle. *)
Theorem callbacks_fault_only_in_double_close s cb :
  reachable s → enabled cb s →
  match run_callback cb s with
  | Ret _ s' => Idle s' ∧ ¬ double_close cb s
  | Fault f => f = CloseClosing ∧ double_close cb s
  end.
Proof.
  intros Hr%reachable_idle Hen. destruct (safe_or_double cb s) as [Hs|Hd].
  2:{ by rewrite (double_close_faults cb s). }
  pose proof (run_callback_idle cb s Hr Hen Hs) as Hwp. unfold wp in Hwp.
  destruct (run_callback cb s); [|done]. split; [apply Hwp|].
  destruct cb; simpl in *; try tauto. intros (e & He & Hct). by apply (Hs e).
Qed.

(** C3 In a reachable state a call of a worker thread that nothing interrupts ends
    without a fault.  The calls that open a socket can be interrupted between
    their stages (reserving an entry, claiming a descriptor, submitting the
    command, reading the id), by callbacks, polls, other calls and stages of
    other calls: a stage that finds its entry still reserved ends without a fault,
    with the entry, or with an error and the entry released; a stage that finds
    the entry released uses memory that is not there, and the last one, reading
    the id, does so exactly then.  An entry keeps its id while it exists.
    Reserving is such a stage until EXIT has been processed. *)
Theorem calls_fault_only_on_released_entries s :
  reachable s →
  (∀ call, ∃ s', run_api call s = Ret tt s' ∧ reachable s') ∧
  (∀ stage, stage_ready stage s →
     ∃ r s', run_stage stage s = Ret r s' ∧ reachable s' ∧ stage_done stage s r s') ∧
  (∀ stage p, stage_entry stage = Some p → rt_entries s !! p = None →
     run_stage stage s = Fault UseAfterFree) ∧
  (∀ p, store_id (SKYUV_OK, Some p) s =
     match rt_entries s !! p with
     | Some e => Ret (SKYUV_OK, Some (e_id e)) s
     | None => Fault UseAfterFree
     end) ∧
  (∀ s' p e, steps s s' → rt_entries s !! p = Some e →
     match rt_entries s' !! p with Some e' => e_id e' = e_id e | None => True end).
Proof.
  intros Hreach. pose proof (reachable_idle s Hreach) as Hid. split_and!.
  - intros call. destruct (wp_Ret _ _ _ (run_api_idle call s Hid)) as ([] & s' & Hs & _).
    exists s'. split; [done|]. eapply rtc_r; [exact Hreach|by eapply step_api].
  - intros stage Hst. destruct (wp_Ret _ _ _ (run_stage_done stage s Hid Hst)) as (r & s' & Hs & Hd).
    exists r, s'. split_and!; [done| |done]. eapply rtc_r; [exact Hreach|by eapply step_stage].
  - intros stage p. by apply run_stage_released.
  - intros p. unfold store_id, deref, mbind, M_bind. by destruct (rt_entries s !! p).
  - intros s' p e Hs Hp. destruct (steps_idle s s' Hid Hs) as [_ [_ Hev]].
    destruct (rt_entries s' !! p) as [e'|] eqn:Hp'; [|done].
    destruct (Hev p e' Hp') as [Hn|(f & Hf & Hfid & _)]; [|congruence].
    pose proof (to_entry _ (inv_table _ (st_inv _ (id_stable _ Hid))) p e Hp) as (_ & _ & ?).
    simpl in *. lia.
Qed.

(** C4 Buffers are neither lost nor released twice: in a reachable state each
    buffer the runtime has taken over is, as often as it was taken over, either
    in a queued command, in a write of some socket, in a waiting event, released
    or handed to the caller of poll.  Once commands, sockets and events are gone
    every one has been released or handed over exactly that often. *)
Theorem buffers_conserved s b :
  reachable s →
  mentions b (rt_taken s) =
    mentions b (commands_buffers (queued s)) + entries_mentions b (rt_entries s) +
    mentions b (events_buffers (rt_events s)) + mentions b (rt_freed s) +
    mentions b (rt_delivered s) ∧
  (queued s = [] → rt_entries s = ∅ → rt_events s = [] →
   mentions b (rt_taken s) = mentions b (rt_freed s) + mentions b (rt_delivered s)).
Proof.
  intros Hr%reachable_idle. pose proof (st_balance _ (id_stable _ Hr) b) as Hb.
  unfold balance in Hb. fold (queued s) in Hb. split; [lia|].
  intros Hq He Hv. rewrite Hq, He, Hv in Hb. unfold entries_mentions in Hb.
  rewrite map_fold_empty in Hb. simpl in Hb. lia.
Qed.

(** Closing is final and addresses are not reused: an entry that is closing
    stays closing, with its id, until it is released, and after that no entry
    lives at its address again. *)
Theorem closing_is_final s s' p :
  reachable s → steps s s' →
  (∀ e, rt_entries s !! p = Some e → e_state e = SKYUV_SOCKET_STATE_CLOSING →
   ∀ e', rt_entries s' !! p = Some e' →
     e_state e' = SKYUV_SOCKET_STATE_CLOSING ∧ e_id e' = e_id e) ∧
  (rt_entries s !! p = None → (p < rt_next_ptr s)%positive → rt_entries s' !! p = None).
Proof.
  intros Hr%reachable_idle Hs. destruct (steps_idle s s' Hr Hs) as [_ [Hn Hev]].
  assert (∀ e, rt_entries s !! p = Some e → (p < rt_next_ptr s)%positive) as Hlt.
  { intros e Hp. apply (to_entry _ (inv_table _ (st_inv _ (id_stable _ Hr))) p e Hp). }
  split.
  - intros e Hp Hst e' Hp'. destruct (Hev p e' Hp') as [?|(f & Hf & Hid & Hc)].
    + specialize (Hlt e Hp). lia.
    + simplify_eq. auto.
  - intros Hp Hlt'. destruct (rt_entries s' !! p) as [e'|] eqn:Hp'; [|done].
    destruct (Hev p e' Hp') as [?|(f & Hf & _)]; [lia|congruence].
Qed.

(** In a reachable state an id resolves to the entry that has it, and only
    to that one; an id no entry has, such as a stale one, resolves to nothing. *)
Theorem ids_resolve_uniquely s id :
  reachable s →
  wp (find_entry id) (λ found s', s' = s ∧
    ∀ p, found = Some p ↔ ∃ e, rt_entries s !! p = Some e ∧ e_id e = id) s.
Proof.
  intros Hr%reachable_idle. pose proof (st_inv _ (id_stable _ Hr)) as HI.
  apply wp_find_entry; [apply HI| |].
  - intros p e Hp Hid. split; [done|]. intros q. split; [intros [= <-]; eauto|].
    intros (f & Hq & Hidf). pose proof (Inv_slot _ _ _ HI Hp) as Hs1.
    pose proof (Inv_slot _ _ _ HI Hq) as Hs2. rewrite Hidf, <- Hid in Hs2. congruence.
  - intros Hno. split; [done|]. intros p. split; [done|]. intros (e & Hp & Hid).
    by destruct (Hno p e Hp).
Qed.

(** C5 Every command in the queue of a reachable runtime is processed by the
    next async callback, which libuv owes it: the callback is enabled, its
    loops end, the queue and the list of sockets to pump are empty after it,
    and if EXIT was in the queue the runtime is exiting with every socket
    closing. *)
Theorem commands_are_processed s :
  reachable s → queued s ≠ [] →
  enabled CbAsync s ∧
  wp (run_callback CbAsync) (λ _ s', queued s' = [] ∧ rt_pump s' = [] ∧ Idle s' ∧
    (Exists (λ c, is_exit_command c = true) (queued s) →
     rt_exiting s' = true ∧ all_closing s')) s.
Proof.
  intros [Hst Hpu Hwk]%reachable_idle Hq. split.
  { split; [|by apply Hwk]. by destruct (st_phase _ Hst) as [|l c|]. }
  unfold run_callback. do 2 wp_step. eapply wp_mono; [by apply consume_commands_stable, woken_stable|].
  intros [] s' (Hst' & Hq' & Hpu' & _ & _ & Hacc). split_and!; [done|done| |].
  - split; [done|done|]. by rewrite Hq'.
  - intros Hex. assert (accepting s = false) as Hna.
    { destruct (st_phase _ Hst) as [? ? ? Hne|l c|]; [|done|done]. exfalso.
      apply Exists_exists in Hex as (c & Hin & Hc). rewrite Forall_forall in Hne.
      specialize (Hne c Hin). unfold not_exit in Hne. congruence. }
    destruct (st_phase _ Hst') as [Ha|l c _ _ _ Heq|]; [|rewrite Hq' in Heq; by destruct l|done].
    change (accepting (s <| rt_async_pending := false |>)) with (accepting s) in Hacc. congruence.
Qed.

(** Polling hands out the oldest waiting event; EXIT is handed out only
    when no event waits, and then the runtime is exiting, has processed its last
    command, accepts no more, and has no socket left. *)
Theorem poll_hands_out_events_in_order s :
  reachable s → has_work s →
  ∃ event s', poll_take s = Ret (PollEvent event) s' ∧
    match rt_events s with
    | oldest :: rest => event = oldest ∧ rt_events s' = rest
    | [] => event = exit_event ∧ rt_exit_ready s' = false ∧ rt_exiting s = true ∧
            queued s = [] ∧ accepting s = false ∧ rt_entries s = ∅
    end.
Proof.
  intros [Hst _ _]%reachable_idle Hw. unfold poll_take, mbind, M_bind, gets, modify, mret, M_ret.
  destruct (rt_events s) as [|ev rest] eqn:Hev; [|by do 2 eexists].
  destruct Hw as [|Hr]; [done|]. do 2 eexists. split; [done|].
  destruct (st_exit _ Hst Hr) as [Hx He]. destruct (st_phase _ Hst); try congruence. done.
Qed.

(** When the close callback of the last socket of an exiting runtime runs,
    EXIT becomes ready: a runtime that was told to exit announces it once libuv
    has closed everything. *)
Theorem last_close_announces_exit s p e :
  reachable s → rt_exiting s = true → rt_entries s = {[ p := e ]} → enabled (CbClose p) s →
  wp (run_callback (CbClose p)) (λ _ s', rt_exit_ready s' = true ∧ rt_entries s' = ∅) s.
Proof.
  intros Hr Hex Hone Hen. pose proof (reachable_idle s Hr) as Hid.
  pose proof (st_inv _ (id_stable _ Hid)) as HI.
  destruct Hen as (e' & Hp & Hh & Hc & Hi & Hu).
  assert (e' = e) as -> by (rewrite Hone, lookup_singleton_eq in Hp; congruence).
  eapply wp_mono; [apply (close_entry_handled p e); try done; by eapply idle_not_pending|].
  intros [] s' [[Hq _] Hrd].
  pose proof (single_count s p e HI Hone) as Hcount.
  rewrite Hex, Hcount in Hrd. split; [done|].
  by apply (h_exit _ _ _ Hq (st_exit _ (id_stable _ Hid))).
Qed.

(** C6 [reserve_entry] fails exactly when memory or slots run out.  When it
    succeeds it adds one entry, in the RESERVED state, under an id that is a
    positive [int] no live socket has, in a slot that was free, under the next
    generation of that slot, and it changes no other entry. *)
Theorem reserve_entry_correct s opaque :
  reachable s →
  wp (reserve_entry opaque) (λ result s',
    match result with
    | (code, Some p) => ∃ id slot,
        code = SKYUV_OK ∧ 0 < id ≤ INT_MAX ∧ skyuv_socket_id_slot id = slot ∧
        id = skyuv_socket_id_make slot (skyuv_socket_id_next_generation (slot_generation slot s)) ∧
        env_alloc (rt_clock s) = true ∧ rt_slots s !! slot = None ∧ rt_entries s !! p = None ∧
        (∀ q f, rt_entries s !! q = Some f → e_id f ≠ id) ∧
        rt_entries s' = <[p := reserved_entry id opaque]> (rt_entries s) ∧ Inv s'
    | (code, None) =>
        code = SKYUV_ERROR_OUT_OF_MEMORY ∧ rt_entries s' = rt_entries s ∧ Inv s' ∧
        ((∀ i, 0 ≤ i < SKYUV_SOCKET_SLOT_COUNT → is_Some (rt_slots s !! i)) ∨
         env_alloc (rt_clock s) = false)
    end) s.
Proof.
  intros Hr%reachable_idle. pose proof (st_inv _ (id_stable _ Hr)) as HI.
  eapply wp_mono; [apply wp_and; [by apply reserve_entry_result|by apply reserve_entry_memory]|].
  intros [code [p|]] s'; unfold reserve_result.
  - intros [[-> Hbg] Hmem]. destruct (began_lookup _ _ _ _ HI Hbg) as (_ & _ & Hnone & _).
    destruct Hbg as [HI' _ _ _ (slot & Hr1 & Hfree & Hsl & He) _].
    set (id := skyuv_socket_id_make slot _) in *.
    assert (rt_entries s' !! p = Some (reserved_entry id opaque)) as Hp
      by (rewrite He; apply lookup_insert_eq).
    assert (skyuv_socket_id_slot id = slot) as Hslot
      by (apply id_slot_make; [done|apply next_generation_ok]).
    exists id, slot. split_and!; try done; try by apply Hmem.
    + apply (seated_range (table_of s') p (reserved_entry id opaque)).
      by apply (Inv_lookup s' p _ HI').
    + apply (seated_range (table_of s') p (reserved_entry id opaque)).
      by apply (Inv_lookup s' p _ HI').
    + intros q f Hq Hid. pose proof (Inv_slot _ _ _ HI Hq) as Hs. rewrite Hid, Hslot in Hs. congruence.
  - intros [(-> & [Hq _] & He & Hor) _]. split_and!; try done. apply Hq.
Qed.

End properties.

(** ** The properties on concrete runs *)

#[local] Existing Instance small_slots.
#[local] Existing Instance good_env.

Lemma runtime_invariant_witness : reachable (played sending_script) ∧ Idle (played sending_script).
Proof.
  split; [exact (played_reachable _ sending_plays)|].
  exact (runtime_invariant _ (played_reachable _ sending_plays)).
Defined.

Lemma callbacks_fault_only_in_double_close_witness :
  enabled (CbWrite 1 0) (played sending_script) ∧
  match run_callback (CbWrite 1 0) (played sending_script) with
  | Ret _ s' => Idle s' ∧ ¬ double_close (CbWrite 1 0) (played sending_script)
  | Fault f => f = CloseClosing ∧ double_close (CbWrite 1 0) (played sending_script)
  end.
Proof.
  assert (enabled (CbWrite 1 0) (played sending_script)) as Hen
    by (exists sending_entry; split; [exact sending_at|vm_compute; eauto]).
  split; [exact Hen|].
  exact (callbacks_fault_only_in_double_close _ _ (played_reachable _ sending_plays) Hen).
Defined.

(** A socket that is being opened while another one exists. *)
Lemma calls_fault_only_on_released_entries_witness :
  (∃ s', run_api (ApiClose 4 7) (played sending_script) = Ret tt s' ∧ reachable s') ∧
  (∃ p s', run_stage (StageReserve 9) (played sending_script) = Ret (SKYUV_OK, Some p) s' ∧
     still_reserved p s') ∧
  run_stage (StageSubmit 9 (SKYUV_SOCKET_COMMAND_CONNECT "127.0.0.1" 80) 7) (played sending_script)
    = Fault UseAfterFree.
Proof.
  destruct (calls_fault_only_on_released_entries _ (played_reachable _ sending_plays))
    as (Hcall & Hstage & Hgone & _).
  split_and!; [apply Hcall| |by apply (Hgone _ 7%positive); vm_compute].
  destruct (Hstage (StageReserve 9)) as ([code [p|]] & s' & Hrun & _ & _ & _ & Hd);
    [vm_compute; reflexivity| |].
  - destruct Hd as (-> & Hres & _). eauto.
  - exfalso. apply (f_equal (λ o, match o with Ret (_, Some _) _ => true | _ => false end)) in Hrun.
    vm_compute in Hrun. discriminate.
Defined.

Lemma buffers_conserved_witness :
  mentions ex_data (rt_taken (played sending_script)) = 1 ∧
  mentions ex_data (rt_taken (played sending_script)) =
    mentions ex_data (commands_buffers (queued (played sending_script))) +
    entries_mentions ex_data (rt_entries (played sending_script)) +
    mentions ex_data (events_buffers (rt_events (played sending_script))) +
    mentions ex_data (rt_freed (played sending_script)) +
    mentions ex_data (rt_delivered (played sending_script)).
Proof.
  split; [vm_compute; reflexivity|].
  apply (buffers_conserved _ ex_data (played_reachable _ sending_plays)).
Defined.

Lemma closing_is_final_witness :
  e_state shutdown_entry = SKYUV_SOCKET_STATE_CLOSING ∧
  ∀ e', rt_entries (played (shutdown_script ++ [DoCallback (CbWrite 1 UV_ECANCELED)])) !! 1%positive
          = Some e' →
  e_state e' = SKYUV_SOCKET_STATE_CLOSING ∧ e_id e' = 4.
Proof.
  split; [reflexivity|]. intros e' He'.
  refine (proj1 (closing_is_final (played shutdown_script) _ 1 _ _) shutdown_entry _ _ e' He').
  - apply played_reachable. vm_compute. eauto.
  - exact (played_steps _ _ shutdown_plays).
  - exact shutdown_at.
  - reflexivity.
Defined.

Lemma ids_resolve_uniquely_witness :
  wp (find_entry 4) (λ found s', s' = played sending_script ∧ found = Some 1%positive)
    (played sending_script).
Proof.
  eapply wp_mono; [exact (ids_resolve_uniquely _ 4 (played_reachable _ sending_plays))|].
  intros found s' [-> H]. split; [done|]. apply H. exists sending_entry. split; [exact sending_at|reflexivity].
Defined.

Lemma commands_are_processed_witness :
  wp (run_callback CbAsync) (λ _ s', queued s' = [] ∧ rt_exiting s' = true ∧ all_closing s')
    (played waiting_script).
Proof.
  assert (queued (played waiting_script) ≠ []) as Hq by (vm_compute; discriminate).
  destruct (commands_are_processed _ (played_reachable _ waiting_plays) Hq) as [_ Hwp].
  eapply wp_mono; [exact Hwp|]. intros [] s' (H1 & _ & _ & H2). split; [done|]. apply H2.
  vm_compute. auto using Exists.
Defined.

Lemma poll_hands_out_events_in_order_witness :
  ∃ event s', poll_take (played connected_script) = Ret (PollEvent event) s' ∧
    ev_type event = SKYUV_SOCKET_EVENT_OPEN ∧ ev_id event = 4.
Proof.
  assert (has_work (played connected_script)) as Hw by (vm_compute; by left).
  destruct (poll_hands_out_events_in_order _ (played_reachable _ connected_plays) Hw)
    as (event & s' & Hp & H).
  assert (∃ b d, rt_events (played connected_script) =
    Event SKYUV_SOCKET_EVENT_OPEN 4 7 0 b d :: []) as (b & d & Hev) by (vm_compute; eauto).
  rewrite Hev in H. destruct H as [-> _]. eauto.
Defined.

Lemma last_close_announces_exit_witness :
  wp (run_callback (CbClose 1)) (λ _ s', rt_exit_ready s' = true ∧ rt_entries s' = ∅)
    (played exiting_script).
Proof.
  apply (last_close_announces_exit _ 1 exiting_entry (played_reachable _ exiting_plays)).
  - vm_compute. reflexivity.
  - exact exiting_at.
  - exists exiting_entry. split; [rewrite exiting_at; apply lookup_singleton_eq|vm_compute; auto].
Defined.

Lemma reserve_entry_correct_witness :
  wp (reserve_entry 9) (λ result s', result.1 = SKYUV_OK ∨ result.1 = SKYUV_ERROR_OUT_OF_MEMORY)
    (played sending_script).
Proof.
  eapply wp_mono; [exact (reserve_entry_correct _ 9 (played_reachable _ sending_plays))|].
  intros [code [p|]] s'; [intros (id & slot & -> & _); by left|intros [-> _]; by right].
Defined.
