(* ===== verification/SocketBehaviour.v ===== *)
(** * Behaviour of the command handlers and callbacks

    What single handlers of src/src/socket/socket_internal.c do, branch by
    branch, on a runtime that satisfies the invariant. *)
From S2P Require Import Prelude SocketId Fifo SocketTypes CommandQueue RuntimeState Entries.
From S2P Require Import Invariant Rules Handled Slots Udp Writes Connections Lifecycle Runtime Loop.
From S2P Require Import Steps Safety Scripts.

Section behaviour.
Context {cfg : SlotConfig} {env : Env}.
Implicit Types (s : skyuv_socket_runtime) (e : skyuv_socket_entry) (p : positive).

(** ** Sending *)

(** States in which SEND is accepted. *)
Definition sendable (state : skyuv_socket_state) : Prop :=
  state = SKYUV_SOCKET_STATE_CONNECTED ∨ state = SKYUV_SOCKET_STATE_CONNECTED_PAUSED ∨
  state = SKYUV_SOCKET_STATE_HALFCLOSE_READ.

(** SEND and SEND_LOW on an open connection put the data at the end of the
    queue of their priority, behind everything sent before, count its bytes,
    leave the other queue and every other socket alone, make sure the socket
    will be pumped, and take the buffer over from the command. *)
Theorem send_queues_in_order s command send (low : bool) p e :
  Inv s → rt_entries s !! p = Some e → e_id e = cmd_id command → sendable (e_state e) →
  e_close_requested e = false → env_alloc (rt_clock s) = true →
  let w := Write (send_data send) (send_size send) (send_release send) in
  wp (process_send command send low) (λ send' s',
    send_ownership send' = SKYUV_SOCKET_BUFFER_BORROWED ∧
    (∃ e', rt_entries s' !! p = Some e' ∧
      e_high e' = (if low then e_high e else e_high e ++ [w]) ∧
      e_low e' = (if low then e_low e ++ [w] else e_low e) ∧
      e_queued_bytes e' = u64 (e_queued_bytes e + send_size send) ∧
      e_inflight e' = e_inflight e ∧ e_state e' = e_state e ∧
      (e_writing e' = true ∨ e_pump_pending e' = true ∧ p ∈ rt_pump s')) ∧
    (∀ q, q ≠ p → rt_entries s' !! q = rt_entries s !! q)) s.
Proof.
  intros HI Hp Hid Hst Hcr Ha w. pose proof HI as [Hl Hq Ht].
  unfold process_send. wp_step. eapply wp_find_known; [done|done|done|].
  do 2 wp_step. rewrite decide_False by (unfold sendable in Hst; intuition congruence).
  wp_step; [unfold sendable in Hst; tauto|]. do 2 wp_step. rewrite Hcr.
  wp_step. apply wp_alloc; [intros _|congruence]. do 2 wp_step.
  eapply (wp_mono _ (λ _ s', s' = put p (enqueued low w e) (s <| rt_clock ::= S |>))).
  { destruct low; wp_step; done. }
  intros [] ? ->. rewrite enqueued_eq. wp_step. eapply wp_account_write; [done|lookup_tac|].
  do 4 wp_step; simpl in H.
  - wp_steps. split_and!; [done| |].
    + eexists. split; [lookup_tac|]. simpl. split_and!; try done. right. split; [done|set_solver].
    + intros q Hne. simpl. by rewrite !lookup_insert_ne by congruence.
  - wp_steps. split_and!; [done| |].
    + eexists. split; [lookup_tac|]. simpl. split_and!; try done.
      destruct (e_writing e) eqn:Hw; [by left|right]. apply andb_false_iff in H as [H|H]; [done|].
      apply negb_false_iff in H. split; [done|].
      apply (to_pump _ Ht). eauto.
    + intros q Hne. simpl. by rewrite !lookup_insert_ne by congruence.
Qed.

(** SEND is refused, with an ERROR event and the data left with the command,
    when the id resolves to nothing or to a socket that cannot send
    ([UV_ENOTCONN]), and when the socket has been asked to close
    ([UV_ECANCELED]); no socket changes. *)
Theorem send_refused s command send (low : bool) :
  Inv s →
  (∀ p e, rt_entries s !! p = Some e → e_id e = cmd_id command →
     e_state e ≠ SKYUV_SOCKET_STATE_UDP ∧
     (¬ sendable (e_state e) ∨ e_close_requested e = true)) →
  wp (process_send command send low) (λ send' s',
    send' = send ∧ rt_entries s' = rt_entries s ∧
    ∃ code, (code = UV_ENOTCONN ∨ code = UV_ECANCELED) ∧
      s' = posted (plain_event SKYUV_SOCKET_EVENT_ERROR (cmd_id command) (cmd_opaque command) code) s) s.
Proof.
  intros HI Hno. pose proof HI as [Hl Hq Ht]. unfold process_send. wp_step.
  apply wp_find_entry; [done| |].
  - intros p e Hp Hid. destruct (Hno p e Hp Hid) as [Hu Hor]. do 2 wp_step.
    rewrite decide_False by done. wp_step; [wp_steps; split_and!; eauto|].
    do 3 wp_step; [wp_steps; split_and!; eauto|]. exfalso. unfold sendable in Hor.
    destruct (e_state e); intuition congruence.
  - intros _. do 2 wp_step. rewrite decide_False by done. wp_steps. split_and!; eauto.
Qed.

(** ** Warnings *)

(** Accounting for a write: the counter grows by the size of the write, and
    a WARNING event with the queued kilobytes, rounded up, is posted exactly
    when the counter reaches both 1 MiB and the current threshold; the threshold
    is then 2 MiB the first time and twice its last value after that. *)
Theorem warning_threshold s p e size :
  rt_slots_locked s = false → rt_entries s !! p = Some e → 0 ≤ size →
  e_queued_bytes e + size < 2 ^ 64 - 1023 → 0 ≤ e_queued_bytes e →
  env_alloc (rt_clock s) = true →
  let total := e_queued_bytes e + size in
  let crossed := (SKYUV_SOCKET_WARNING_SIZE <=? total) && (e_warn_size e <=? total) in
  wp (account_write p size) (λ _ s',
    (∃ e', rt_entries s' !! p = Some e' ∧ e_queued_bytes e' = total ∧
      e_warn_size e' = if crossed then (if e_warn_size e =? 0 then SKYUV_SOCKET_WARNING_SIZE * 2
                                        else u64 (e_warn_size e * 2))
                       else e_warn_size e) ∧
    rt_events s' = rt_events s ++
      if crossed then [plain_event SKYUV_SOCKET_EVENT_WARNING (e_id e) (e_opaque e)
                         (Z.min INT_MAX ((total + 1023) / 1024))] else []) s.
Proof.
  intros Hl Hp Hsz Hmax H0 Ha total crossed.
  assert (u64 total = total) as Htot by (apply uwrap_small; lia).
  assert (warns (counted size e) = crossed) as Hwarn.
  { unfold warns, counted. simpl. fold total. by rewrite Htot. }
  apply (wp_account_write p e size); [done..|]. unfold warned, accounted. rewrite Hwarn. split.
  - eexists. split; [lookup_tac|]. simpl. fold total. rewrite Htot. split; [done|]. by destruct crossed.
  - simpl. rewrite Ha, andb_true_r. destruct crossed; [|by rewrite app_nil_r].
    do 3 f_equal. fold total. rewrite Htot. unfold warning_kb, u64, INT_MAX.
    rewrite uwrap_small by lia. destruct (Z.ltb_spec 2147483647 ((total + 1023) / 1024)); lia.
Qed.

(** ** Writing *)

(** C8 The pump writes one buffer at a time, all high-priority data before any
    low-priority data and each queue in order: on an open connection that is not
    writing, the head of the high queue, or of the low queue if that is empty,
    is handed to [uv_write] with its data and size and leaves its queue; a
    connection that is writing is left alone. *)
Theorem pump_writes_high_first s p e :
  rt_slots_locked s = false → rt_entries s !! p = Some e → e_is_udp e = false →
  e_tcp e = HandleActive → e_state e ≠ SKYUV_SOCKET_STATE_CLOSING →
  wp (pump_write p) (λ _ s',
    match e_writing e, e_high e, e_low e with
    | true, _, _ | _, [], [] => s' = s
    | false, w :: high, low | false, [] as high, w :: low =>
        rt_uv_calls s' = rt_uv_calls s ++ [uv_write p (wr_data w) (u32 (wr_size w))] ∧
        ∃ e', rt_entries s' !! p = Some e' ∧ e_high e' = high ∧ e_low e' = low ∧
          (e_inflight e' = Some w ∧ e_writing e' = true ∧ e_state e' = e_state e ∨
           e_state e' = SKYUV_SOCKET_STATE_CLOSING ∧ e_tcp e' = HandleClosing ∧
           rt_freed s' = rt_freed s ++ option_list (wr_data w))
    end) s.
Proof.
  intros Hl Hp Hu Ht Hst. apply (wp_pump_write p e); [done..| |].
  - unfold next_write. intros [->|Hn]; [done|]. by destruct (e_writing e), (e_high e), (e_low e).
  - intros w high low Hw Hn s1 e2. unfold next_write in Hn. rewrite Hw.
    assert (∀ s', (rt_uv_calls s' = rt_uv_calls s ++ [uv_write p (wr_data w) (u32 (wr_size w))] ∧
      ∃ e', rt_entries s' !! p = Some e' ∧ e_high e' = high ∧ e_low e' = low ∧
        (e_inflight e' = Some w ∧ e_writing e' = true ∧ e_state e' = e_state e ∨
         e_state e' = SKYUV_SOCKET_STATE_CLOSING ∧ e_tcp e' = HandleClosing ∧
         rt_freed s' = rt_freed s ++ option_list (wr_data w))) →
      match e_high e, e_low e with
      | [], [] => s' = s
      | w :: high, low | [] as high, w :: low =>
          rt_uv_calls s' = rt_uv_calls s ++ [uv_write p (wr_data w) (u32 (wr_size w))] ∧
          ∃ e', rt_entries s' !! p = Some e' ∧ e_high e' = high ∧ e_low e' = low ∧
            (e_inflight e' = Some w ∧ e_writing e' = true ∧ e_state e' = e_state e ∨
             e_state e' = SKYUV_SOCKET_STATE_CLOSING ∧ e_tcp e' = HandleClosing ∧
             rt_freed s' = rt_freed s ++ option_list (wr_data w))
      end) as Hgo.
    { intros s'. destruct (e_high e), (e_low e); naive_solver. }
    split; [|intros r]; apply Hgo; (split; [done|]).
    + eexists. split; [lookup_tac|]. split_and!; [done|done|by left].
    + unfold write_failed. rewrite closed_tcp by done. eexists. split; [lookup_tac|].
      split_and!; [done|done|by right].
Qed.

(** When a write of an open connection that nobody asked to close completes,
    its buffer is released, its bytes leave the queue counter and enter the
    statistics, and the next queued write, if there is one, is handed to
    [uv_write]: the queues drain without further commands. *)
Theorem completion_continues s p e w :
  Inv s → rt_entries s !! p = Some e → e_inflight e = Some w →
  e_state e ≠ SKYUV_SOCKET_STATE_CLOSING → e_close_requested e = false →
  wp (run_callback (CbWrite p 0)) (λ _ s', ∃ e', rt_entries s' !! p = Some e' ∧
    e_write_bytes e' = u64 (e_write_bytes e + wr_size w) ∧
    (∃ more, rt_freed s' = rt_freed s ++ option_list (wr_data w) ++ more) ∧
    match next_write e with
    | None => e_inflight e' = None ∧ e_writing e' = false ∧
              e_queued_bytes e' = u64 (e_queued_bytes e - wr_size w)
    | Some (w', high, low) =>
        uv_write p (wr_data w') (u32 (wr_size w')) ∈ rt_uv_calls s' ∧
        e_high e' = high ∧ e_low e' = low ∧
        (e_inflight e' = Some w' ∧ e_writing e' = true ∧
         e_queued_bytes e' = u64 (e_queued_bytes e - wr_size w) ∨
         e_state e' = SKYUV_SOCKET_STATE_CLOSING)
    end) s.
Proof.
  intros HI Hp Hin Hst Hcr. pose proof HI as [Hl _ _]. pose proof (Inv_ok _ _ _ HI Hp) as Hok.
  destruct (pending_tcp e Hok) as [Hu Hw]; [by right; eauto|].
  destruct (writable_active e) as (Htcp & _ & _); [by apply Hok|done..|].
  unfold run_callback. do 2 wp_step. rewrite Hin. do 2 wp_step. unfold write_completed. do 4 wp_step; [done|].
  eapply wp_settle_open; [done|lookup_tac|done|]. cbn [e_close_requested upd_field set_e_inflight]. rewrite Hcr.
  eapply wp_pump_write; [done|lookup_tac|done|done|done|..].
  - intros [?|Hn]; [done|]. change (next_write e = None) in Hn. rewrite Hn.
    eexists. split; [lookup_tac|]. split_and!; try done. exists []. by rewrite app_nil_r.
  - intros w' high low _ Hn s1 e2. change (next_write e = Some (w', high, low)) in Hn. rewrite Hn.
    split; [|intros r; unfold write_failed; rewrite closed_tcp by done].
    + eexists. split; [lookup_tac|]. simpl. split_and!; try done.
      * exists []. by rewrite app_nil_r.
      * set_solver.
      * by left.
    + eexists. split; [lookup_tac|]. simpl. split_and!; try done.
      * eexists. by rewrite <- app_assoc.
      * set_solver.
      * by right.
Qed.

(** ** Closing *)

Lemma closed_handle e : entry_handle (closed e) = HandleClosing.
Proof. unfold entry_handle, closed. simpl. destruct (e_is_udp e) eqn:Hu; simpl; by rewrite Hu. Qed.

(** The events after a close is announced, unless the peer's close has been. *)
Definition announced s e (opaque : Z) : list skyuv_socket_event :=
  if decide (e_state e = SKYUV_SOCKET_STATE_HALFCLOSE_READ) then rt_events s
  else rt_events s ++
    if env_alloc (rt_clock s)
    then [plain_event SKYUV_SOCKET_EVENT_CLOSE (e_id e) opaque 0] else [].

Lemma announce_close p e opaque s1 s :
  rt_slots_locked s1 = false → rt_events s1 = rt_events s → rt_clock s1 = rt_clock s →
  wp (whenM (bool_decide (e_state e ≠ SKYUV_SOCKET_STATE_HALFCLOSE_READ))
        (push_event SKYUV_SOCKET_EVENT_CLOSE (e_id e) opaque 0))
    (λ _ s2, frame_of s2 = frame_of s1 ∧ rt_entries s2 = rt_entries s1 ∧
       rt_events s2 = announced s e opaque) s1.
Proof.
  intros Hl Hev Hck. unfold announced. wp_step.
  - apply bool_decide_eq_true in H. wp_step. split_and!; [done|done|]. rewrite decide_False by done.
    simpl. rewrite Hck, Hev. destruct (env_alloc _); [done|]. by rewrite app_nil_r.
  - apply bool_decide_eq_false, dec_stable in H. split_and!; [done|done|]. by rewrite decide_True.
Qed.

(** CLOSE and SHUTDOWN of a socket that is not closing. *)
Lemma close_known s command (shutdown : bool) p e :
  Inv s → rt_entries s !! p = Some e → e_id e = cmd_id command →
  e_state e ≠ SKYUV_SOCKET_STATE_CLOSING →
  wp (process_close command shutdown) (λ _ s',
    rt_events s' = announced s e (cmd_opaque command) ∧
    match rt_entries s' !! p with
    | None => e_state e = SKYUV_SOCKET_STATE_RESERVED
    | Some e' =>
        if negb shutdown && negb (e_is_udp e) && (0 <? e_queued_bytes e)
        then e_state e' = e_state e ∧ e_close_requested e' = true ∧ e_reading e' = false ∧
             e_high e' = e_high e ∧ e_low e' = e_low e ∧ e_inflight e' = e_inflight e
        else e_state e' = SKYUV_SOCKET_STATE_CLOSING ∧ entry_handle e' = HandleClosing
    end) s.
Proof.
  intros HI Hp Hid Hst. pose proof HI as [Hl Hq Ht]. pose proof (Inv_ok _ _ _ HI Hp) as Hok.
  pose proof (eo_core _ Hok) as Hc. unfold process_close. wp_step.
  eapply wp_find_known; [done|done|done|]. do 2 wp_step. rewrite decide_False by done.
  set (e1 := e <| e_opaque := cmd_opaque command |>).
  do 5 wp_step. eapply wp_mono; [by apply (announce_close p e (cmd_opaque command) _ s)|].
  intros [] s1 (Hf & He & Hev).
  assert (rt_slots_locked s1 = false) by (injection Hf; congruence).
  assert (rt_slots s1 = rt_slots s) as Hsl by (injection Hf; congruence).
  assert (rt_entries s1 !! p = Some e1) as Hp1 by (rewrite He; apply lookup_insert_eq).
  wp_step.
  - apply negb_true_iff in Heqb. destruct (uninitialized_reserved e Hc Heqb) as [Hres Hu].
    eapply wp_discard; [done|exact Hp1|simpl; rewrite Hsl; by eapply Inv_slot|].
    split; [exact Hev|]. simpl. by rewrite lookup_delete_eq.
  - apply negb_false_iff in Heqb.
    change (negb shutdown && negb (e_is_udp (e <| e_opaque := cmd_opaque command |>)) &&
      (0 <? e_queued_bytes (e <| e_opaque := cmd_opaque command |>))) with
      (negb shutdown && negb (e_is_udp e) && (0 <? e_queued_bytes e)).
    destruct (negb shutdown && negb (e_is_udp e) && (0 <? e_queued_bytes e)) eqn:Hg.
    + apply andb_true_iff in Hg as [_ Hqb%Z.ltb_lt]. destruct (queued_tcp e Hc Hqb) as [Hu Hw].
      destruct (writable_active e) as (Htcp & _ & _); [by apply Hc|done..|].
      do 4 wp_step. eapply wp_close_after_writes; [done|lookup_tac|done|done|].
      destruct (_ && bool_decide _) eqn:Hcond.
      { exfalso. apply andb_true_iff in Hcond as [[_ Hnw]%andb_true_iff [? ?]%bool_decide_eq_true%next_write_None].
        destruct (queued_busy e Hc Hqb) as [Hb|Hb]; simpl in *; [by rewrite Hb in *|by destruct Hb]. }
      split; [exact Hev|]. simpl. by rewrite lookup_insert_eq.
    + eapply wp_close_handle; [done|exact Hp1|by apply (open_handle e)|].
      split; [exact Hev|]. simpl. rewrite lookup_insert_eq. split; [by apply closed_same|].
      apply closed_handle.
Qed.

Lemma open_socket_dec s id :
  Inv s →
  (∃ p e, rt_entries s !! p = Some e ∧ e_id e = id ∧ e_state e ≠ SKYUV_SOCKET_STATE_CLOSING) ∨
  (∀ p e, rt_entries s !! p = Some e → e_id e = id → e_state e = SKYUV_SOCKET_STATE_CLOSING).
Proof.
  intros HI. destruct (rt_slots s !! skyuv_socket_id_slot id) as [p|] eqn:Hsl.
  2:{ right. intros q f Hq <-. pose proof (Inv_slot _ _ _ HI Hq). congruence. }
  destruct (to_slot _ (inv_table _ HI) _ _ Hsl) as (e & Hp & _). simpl in Hp.
  destruct (decide (e_id e = id ∧ e_state e ≠ SKYUV_SOCKET_STATE_CLOSING)) as [[]|Hno]; [left; eauto|].
  right. intros q f Hq Hf. pose proof (Inv_slot _ _ _ HI Hq) as Hs. rewrite Hf, Hsl in Hs.
  simplify_eq. apply dec_stable. tauto.
Qed.

Lemma close_nothing s command (shutdown : bool) :
  Inv s →
  (∀ p e, rt_entries s !! p = Some e → e_id e = cmd_id command →
     e_state e = SKYUV_SOCKET_STATE_CLOSING) →
  wp (process_close command shutdown) (λ _ s', s' = s) s.
Proof.
  intros [Hl _ Ht] Hall. unfold process_close. wp_step. apply wp_find_entry; [done| |].
  - intros p e Hp Hid. do 2 wp_step. rewrite decide_True by eauto. by wp_step.
  - intros _. by wp_step.
Qed.

(** C9 What CLOSE and SHUTDOWN do.  If no socket has the id, or the one that has
    it is closing, nothing.  Otherwise, unless a CLOSE is already waiting for
    queued data, they post one CLOSE event with the new opaque, except for a
    socket whose peer has closed, which has had it, and then: a socket that was
    only reserved is released; on CLOSE a TCP socket with queued data stops
    reading and keeps its state, its queues and the write in flight until they are
    written; every other socket is closed at once. *)
Theorem close_outcomes s command (shutdown : bool) :
  Inv s →
  wp (process_close command shutdown) (λ _ s',
    ((∀ p e, rt_entries s !! p = Some e → e_id e = cmd_id command →
        e_state e = SKYUV_SOCKET_STATE_CLOSING) → s' = s) ∧
    ∀ p e, rt_entries s !! p = Some e → e_id e = cmd_id command →
      e_state e ≠ SKYUV_SOCKET_STATE_CLOSING → e_close_requested e = false →
      rt_events s' = announced s e (cmd_opaque command) ∧
      match rt_entries s' !! p with
      | None => e_state e = SKYUV_SOCKET_STATE_RESERVED
      | Some e' =>
          if negb shutdown && negb (e_is_udp e) && (0 <? e_queued_bytes e)
          then e_state e' = e_state e ∧ e_close_requested e' = true ∧ e_reading e' = false ∧
               e_high e' = e_high e ∧ e_low e' = e_low e ∧ e_inflight e' = e_inflight e
          else e_state e' = SKYUV_SOCKET_STATE_CLOSING ∧ entry_handle e' = HandleClosing
      end) s.
Proof.
  intros HI. destruct (open_socket_dec s (cmd_id command) HI) as [(p & e & Hp & Hid & Hst)|Hnone].
  - eapply wp_mono; [by apply (close_known s command shutdown p e)|]. intros [] s' Hc. split.
    + intros Hall. by destruct (Hst (Hall p e Hp Hid)).
    + intros q f Hq Hf _ _. assert (q = p) as -> by (apply (same_id s p e q f HI); congruence).
      by simplify_eq.
  - eapply wp_mono; [by apply (close_nothing s command shutdown)|]. intros [] s' ->. split; [done|].
    intros p e Hp Hid Hst. by destruct (Hst (Hnone p e Hp Hid)).
Qed.

(** ** Reading *)

(** What a read callback does to a connected socket: data becomes a DATA
    event with the bytes read and is counted; an empty read does nothing; the
    end of the stream posts CLOSE and leaves a half-closed socket that can still
    write; an error posts ERROR and closes the handle. *)
Theorem read_outcomes s p e nread filled :
  Inv s → rt_entries s !! p = Some e → e_state e = SKYUV_SOCKET_STATE_CONNECTED →
  env_alloc (rt_clock s) = true → env_alloc (S (rt_clock s)) = true →
  let base := Buffer (rt_next_ptr s) filled in
  wp (run_callback (CbRead p nread filled)) (λ _ s', ∃ e', rt_entries s' !! p = Some e' ∧
    if 0 <? nread then
      rt_events s' = rt_events s ++
        [Event SKYUV_SOCKET_EVENT_DATA (e_id e) (e_opaque e) 0 (Some base) nread] ∧
      e_read_bytes e' = u64 (e_read_bytes e + nread) ∧ e_state e' = e_state e
    else if nread =? 0 then
      rt_events s' = rt_events s ∧ e' = e ∧ rt_freed s' = rt_freed s ++ [base]
    else if nread =? UV_EOF then
      rt_events s' = rt_events s ++
        [plain_event SKYUV_SOCKET_EVENT_CLOSE (e_id e) (e_opaque e) 0] ∧
      e_state e' = SKYUV_SOCKET_STATE_HALFCLOSE_READ ∧ e_reading e' = false ∧
      e_tcp e' = HandleActive ∧ e_high e' = e_high e ∧ e_low e' = e_low e
    else
      rt_events s' = rt_events s ++
        [plain_event SKYUV_SOCKET_EVENT_ERROR (e_id e) (e_opaque e) nread] ∧
      e_state e' = SKYUV_SOCKET_STATE_CLOSING ∧ e_tcp e' = HandleClosing) s.
Proof.
  intros HI Hp Hst Ha1 Ha2 base. pose proof HI as [Hl Hq Ht]. pose proof (Inv_ok _ _ _ HI Hp) as Hok.
  phase_facts Hok Hst. unfold run_callback, allocate_read_buffer, new_buffer.
  do 2 wp_step. apply wp_alloc; [intros _|congruence]. wp_step. apply wp_new_ptr. do 3 wp_step.
  cbn [from_option]. fold base. unfold read_completed, push_data_event.
  destruct (0 <? nread).
  - wp_step. apply wp_alloc; [intros _|simpl; congruence]. wp_steps.
    eexists. split; [lookup_tac|]. done.
  - do 2 wp_step. destruct (nread =? 0).
    { wp_step. exists e. done. }
    destruct (nread =? UV_EOF).
    + do 2 wp_step. simpl. rewrite Hst, decide_False by done. wp_steps.
      eexists. split; [lookup_tac|]. simpl. by rewrite Ha2.
    + wp_step. rewrite closed_tcp by done. eexists. split; [lookup_tac|]. simpl. by rewrite Ha2.
Qed.

(** Pausing a connected socket and starting it again, with libuv willing,
    gives the socket back as it was, under the new owner, and announces it with
    an OPEN event; in between it does not read. *)
Theorem pause_start_roundtrip s p e pause start :
  Inv s → rt_entries s !! p = Some e → e_state e = SKYUV_SOCKET_STATE_CONNECTED →
  e_reading e = true → cmd_id pause = e_id e → cmd_id start = e_id e →
  (∀ call n, env_uv call n = 0) → (∀ n, env_alloc n = true) →
  wp (process_pause pause) (λ _ s1,
    (∃ e1, rt_entries s1 !! p = Some e1 ∧ e_state e1 = SKYUV_SOCKET_STATE_CONNECTED_PAUSED ∧
       e_reading e1 = false) ∧
    wp (process_start start) (λ _ s2,
      rt_entries s2 !! p = Some (e <| e_opaque := cmd_opaque start |>) ∧
      rt_events s2 = rt_events s ++
        [plain_event SKYUV_SOCKET_EVENT_OPEN (e_id e) (cmd_opaque start) 0]) s1) s.
Proof.
  intros HI Hp Hst Hrd Hpid Hsid Huv Hal. pose proof HI as [Hl Hq Ht].
  assert (wp (process_pause pause) (λ _ s1, rt_events s1 = rt_events s ∧
    rt_entries s1 !! p = Some (e <| e_reading := false |>
      <| e_state := SKYUV_SOCKET_STATE_CONNECTED_PAUSED |>)) s) as Hpause.
  { unfold process_pause. wp_step. eapply wp_find_known_state; [done|done|done|done|].
    wp_step. apply wp_uv_exact. rewrite Huv. wp_step; [|done]. wp_steps. split; [done|lookup_tac]. }
  eapply wp_mono; [apply wp_and; [exact Hpause|by apply process_pause_handled]|].
  intros [] s1 [[Hev1 Hp1] Hh]. pose proof (h_inv _ _ _ Hh) as HI1. pose proof HI1 as [Hl1 _ _].
  split; [by eexists|]. unfold process_start. wp_step. eapply wp_find_known; [done|done|done|].
  do 2 wp_step. rewrite decide_False by (intros [|]; done).
  rewrite decide_False by (intros [? ?]; done). do 3 wp_step. unfold start_reading. wp_step.
  apply wp_uv_exact. rewrite Huv. do 2 wp_step; [|done]. do 2 wp_step. wp_step; [|done].
  wp_steps. simpl. split.
  - rewrite !insert_insert_eq, lookup_insert_eq. destruct e; simpl in *. by subst.
  - by rewrite Hal, Hev1.
Qed.

End behaviour.

(** ** The behaviour on concrete runs *)

#[local] Existing Instance small_slots.
#[local] Existing Instance good_env.

Definition ex_send (data : buffer) : send_payload :=
  SendPayload (Some data) (Z.of_nat (length (buf_bytes data))) SKYUV_SOCKET_BUFFER_OWNED None [] 0.

Definition ex_command (id : Z) : skyuv_socket_command := Command id 7 SKYUV_SOCKET_COMMAND_CLOSE.

Lemma send_queues_in_order_witness :
  wp (process_send (ex_command 4) (ex_send ex_data) true) (λ _ s',
    ∃ e', rt_entries s' !! 1%positive = Some e' ∧
      e_low e' = [Write (Some ex_data2) 2 None; Write (Some ex_data) 3 None])
    (played sending_script).
Proof.
  eapply wp_mono; [apply (send_queues_in_order _ (ex_command 4) (ex_send ex_data) true 1 sending_entry);
    [exact (played_inv _ sending_plays)|exact sending_at|reflexivity|by left|reflexivity|reflexivity]|].
  intros send' s' (_ & (e' & He' & _ & Hlow & _) & _). exists e'. by rewrite Hlow.
Defined.

Lemma send_refused_witness :
  wp (process_send (ex_command 9) (ex_send ex_data) true) (λ send' s',
    send' = ex_send ex_data ∧ rt_entries s' = rt_entries (played sending_script))
    (played sending_script).
Proof.
  eapply wp_mono; [apply (send_refused _ (ex_command 9) (ex_send ex_data) true);
    [exact (played_inv _ sending_plays)|]|by intros send' s' (? & ? & _)].
  intros p e Hp Hid. exfalso. assert (map_Forall (λ _ e, e_id e ≠ 9) (rt_entries (played sending_script))) as Hno.
  { apply (bool_decide_unpack _). vm_compute. exact I. }
  by apply (Hno p e Hp).
Defined.

Lemma warning_threshold_witness :
  wp (account_write 1 (2 * 1024 * 1024)) (λ _ s',
    rt_events s' = rt_events (played sending_script) ++
      [plain_event SKYUV_SOCKET_EVENT_WARNING 4 7 2049]) (played sending_script).
Proof.
  eapply wp_mono; [apply (warning_threshold _ 1 sending_entry);
    [vm_compute; reflexivity|exact sending_at|lia|vm_compute; reflexivity|vm_compute; discriminate|reflexivity]|].
  intros [] s' [_ Hev]. rewrite Hev. reflexivity.
Defined.

(** The socket of [connected_script], with data queued that is not pumped. *)
Definition unpumped : skyuv_socket_runtime :=
  (played connected_script) <| rt_entries ::= <[1%positive :=
    connected_entry <| e_high := [Write (Some ex_data) 3 None] |>
      <| e_low := [Write (Some ex_data2) 2 None] |> ]> |>.

Lemma pump_writes_high_first_witness :
  wp (pump_write 1) (λ _ s', ∃ e', rt_entries s' !! 1%positive = Some e' ∧
    e_high e' = [] ∧ e_low e' = [Write (Some ex_data2) 2 None]) unpumped.
Proof.
  eapply wp_mono; [eapply (pump_writes_high_first unpumped 1);
    [vm_compute; reflexivity|apply lookup_insert_eq|reflexivity|reflexivity|discriminate]|].
  intros [] s' (_ & e' & He' & Hh & Hl & _). exists e'. by rewrite Hh, Hl.
Defined.

Lemma completion_continues_witness :
  wp (run_callback (CbWrite 1 0)) (λ _ s',
    uv_write 1 (Some ex_data2) 2 ∈ rt_uv_calls s') (played sending_script).
Proof.
  eapply wp_mono; [apply (completion_continues _ 1 sending_entry (Write (Some ex_data) 3 None));
    [exact (played_inv _ sending_plays)|exact sending_at|reflexivity|discriminate|reflexivity]|].
  by intros [] s' (e' & _ & _ & _ & H & _).
Defined.

Lemma close_outcomes_witness :
  wp (process_close (ex_command 4) false) (λ _ s',
    rt_events s' = rt_events (played sending_script) ++
      [plain_event SKYUV_SOCKET_EVENT_CLOSE 4 7 0]) (played sending_script).
Proof.
  eapply wp_mono; [apply (close_outcomes _ (ex_command 4) false (played_inv _ sending_plays))|].
  intros [] s' [_ H].
  by destruct (H 1%positive sending_entry sending_at eq_refl ltac:(discriminate) eq_refl).
Defined.

Lemma read_outcomes_witness :
  wp (run_callback (CbRead 1 2 [65; 66])) (λ _ s', ∃ b,
    rt_events s' = rt_events (played sending_script) ++
      [Event SKYUV_SOCKET_EVENT_DATA 4 7 0 (Some b) 2] ∧ buf_bytes b = [65; 66])
    (played sending_script).
Proof.
  eapply wp_mono; [apply (read_outcomes _ 1 sending_entry);
    [exact (played_inv _ sending_plays)|exact sending_at|reflexivity|reflexivity|reflexivity]|].
  intros [] s' (e' & _ & H & _). by eexists.
Defined.

Lemma pause_start_roundtrip_witness :
  wp (process_pause (ex_command 4)) (λ _ s1,
    wp (process_start (Command 4 8 SKYUV_SOCKET_COMMAND_START)) (λ _ s2,
      rt_entries s2 !! 1%positive = Some (sending_entry <| e_opaque := 8 |>)) s1)
    (played sending_script).
Proof.
  eapply wp_mono; [apply (pause_start_roundtrip _ 1 sending_entry (ex_command 4)
      (Command 4 8 SKYUV_SOCKET_COMMAND_START));
    [exact (played_inv _ sending_plays)|exact sending_at|reflexivity..]|].
  intros [] s1 [_ Hwp]. eapply wp_mono; [exact Hwp|]. by intros [] s2 [H _].
Defined.
