(* ===== verification/SocketInterface.v ===== *)
(** * The contract of the public interface

    Who owns a buffer after each call, which file descriptors can be taken
    over, what becomes of a socket that cannot be opened, and what a receiver of
    a datagram can do with its address. *)
From S2P Require Import Prelude SocketId Fifo SocketTypes CommandQueue RuntimeState Entries.
From S2P Require Import Invariant Rules Handled Slots Udp Writes Connections Lifecycle Runtime Loop.
From S2P Require Import Steps Safety Scripts.

Section interface.
Context {cfg : SlotConfig} {env : Env}.
Implicit Types (s : skyuv_socket_runtime) (e : skyuv_socket_entry) (p : positive).

(** ** Ownership *)

(** The outcome of [submit_send] for a buffer the caller gives away. *)
Definition owned_outcome id b s (result : Z) s' : Prop :=
  if result =? SKYUV_OK
  then rt_taken s' = rt_taken s ++ [b] ∧ rt_freed s' = rt_freed s ∧ rt_async_pending s' = true ∧
       ∃ c, queued s' = queued s ++ [c] ∧ cmd_id c = id ∧ command_owned c = [b]
  else rt_taken s' = rt_taken s ∧ rt_freed s' = rt_freed s ∧ queued s' = queued s.

Lemma submit_send_owned s id b size release address address_size body :
  Idle s → sends body →
  wp (submit_send id (Some b) size SKYUV_SOCKET_BUFFER_OWNED release address address_size body)
    (owned_outcome id b s) s.
Proof.
  intros Hid Hbody. pose proof (st_inv _ (id_stable _ Hid)) as [Hl Hq Ht].
  unfold submit_send, owned_outcome.
  do 4 wp_step; wp_step; [|wp_step; wp_step; [done|]; by wp_step].
  destruct (Hbody id 0 (SendPayload (Some b) size SKYUV_SOCKET_BUFFER_OWNED release address
    address_size)) as (Hne & _ & Hown).
  wp_step. apply wp_submit; [done|done|]. destruct (accepting _).
  - wp_step; [|done]. wp_step. wp_step; [|done]. do 2 wp_step. split_and!; [done|done|done|].
    eexists. split_and!; [done|done|by rewrite Hown].
  - wp_step; [done|]. wp_step. apply wp_destroy_command. wp_step. split_and!; [done| |done].
    set (p := _ <| send_ownership := _ |>). destruct (Hbody id 0 p) as (_ & _ & Hown').
    rewrite Hown'. simpl. by rewrite app_nil_r.
Qed.

(** The same for a buffer that is copied; [copy] is the block it goes to. *)
Definition borrowed_outcome id copy s (result : Z) s' : Prop :=
  if result =? SKYUV_OK
  then rt_taken s' = rt_taken s ++ [copy] ∧ rt_freed s' = rt_freed s ∧
       ∃ c, queued s' = queued s ++ [c] ∧ cmd_id c = id ∧ command_owned c = [copy]
  else queued s' = queued s ∧ ∃ made, rt_taken s' = rt_taken s ++ made ∧
       rt_freed s' = rt_freed s ++ made ∧ (made = [] ∨ made = [copy]).

Lemma borrowed_nothing id copy s n :
  n ≠ SKYUV_OK → borrowed_outcome id copy s n s.
Proof.
  intros Hn%Z.eqb_neq. unfold borrowed_outcome. rewrite Hn. split; [done|].
  exists []. rewrite !app_nil_r. auto.
Qed.

Lemma submit_send_borrowed s id b size release address address_size body :
  Idle s → sends body →
  wp (submit_send id (Some b) size SKYUV_SOCKET_BUFFER_BORROWED release address address_size body)
    (borrowed_outcome id (Buffer (rt_next_ptr s) (take (Z.to_nat size) (buf_bytes b))) s) s.
Proof.
  intros Hid Hbody. pose proof (st_inv _ (id_stable _ Hid)) as [Hl Hq Ht].
  set (copy := Buffer (rt_next_ptr s) _). unfold submit_send.
  do 3 wp_step; wp_step; cbn [fmap option_fmap option_map];
    [wp_step; by apply (borrowed_nothing id copy s)|]. cbn [from_option]. fold copy.
  unfold borrowed_outcome. do 2 wp_step; wp_step.
  2:{ wp_step. wp_step; [|done]. wp_steps. split; [done|]. exists [copy]. auto. }
  destruct (Hbody id 0 (SendPayload (Some copy) size SKYUV_SOCKET_BUFFER_OWNED None address
    address_size)) as (Hne & _ & Hown).
  wp_step. apply wp_submit; [done|done|]. destruct (accepting _).
  - wp_step; [|done]. wp_step. wp_step; [done|]. wp_step. split_and!; [done|done|].
    eexists. split_and!; [done|done|by rewrite Hown].
  - wp_step; [done|]. wp_step. apply wp_destroy_command. wp_step. split; [done|].
    exists [copy]. rewrite Hown. auto.
Qed.

(** The two sends of the runtime, after their argument checks. *)
Lemma runtime_send_owned s id b size release low :
  Idle s →
  wp (runtime_send id (Some b) size SKYUV_SOCKET_BUFFER_OWNED release low)
    (λ result s', Idle s' ∧ owned_outcome id b s result s') s.
Proof.
  intros Hid. apply wp_and.
  - eapply wp_mono; [by apply send_idle|]. by intros ? ? [? _].
  - unfold runtime_send. wp_step; [by wp_step|]. apply submit_send_owned; [done|by destruct low].
Qed.

Lemma runtime_send_borrowed s id b size release low :
  Idle s →
  wp (runtime_send id (Some b) size SKYUV_SOCKET_BUFFER_BORROWED release low)
    (λ result s', Idle s' ∧ borrowed_outcome id
       (Buffer (rt_next_ptr s) (take (Z.to_nat size) (buf_bytes b))) s result s') s.
Proof.
  intros Hid. apply wp_and.
  - eapply wp_mono; [by apply send_idle|]. by intros ? ? [? _].
  - unfold runtime_send. wp_step; [wp_step; by apply (borrowed_nothing id)|].
    apply submit_send_borrowed; [done|by destruct low].
Qed.

(** C10 Who owns a buffer after a send.  An owned buffer is transferred exactly
    when the call returns OK: then it is in the last queued command and the loop
    has been woken; after any error the runtime has neither kept nor released it,
    and the queue is unchanged.  A borrowed buffer is never taken over: on OK the
    queued command owns a fresh block with its first [size] bytes; on every error
    the queue is as before and a copy that was made has been released again. *)
Theorem send_contract s id b size release low :
  Idle s → buf_ptr b ≠ rt_next_ptr s →
  wp (runtime_send id (Some b) size SKYUV_SOCKET_BUFFER_OWNED release low) (λ result s',
    if result =? SKYUV_OK
    then rt_taken s' = rt_taken s ++ [b] ∧ rt_freed s' = rt_freed s ∧ rt_async_pending s' = true ∧
         ∃ c, queued s' = queued s ++ [c] ∧ cmd_id c = id ∧ command_owned c = [b]
    else rt_taken s' = rt_taken s ∧ rt_freed s' = rt_freed s ∧ queued s' = queued s) s ∧
  wp (runtime_send id (Some b) size SKYUV_SOCKET_BUFFER_BORROWED release low) (λ result s',
    let copy := Buffer (rt_next_ptr s) (take (Z.to_nat size) (buf_bytes b)) in
    copy ≠ b ∧
    if result =? SKYUV_OK
    then rt_taken s' = rt_taken s ++ [copy] ∧ rt_freed s' = rt_freed s ∧
         ∃ c, queued s' = queued s ++ [c] ∧ cmd_id c = id ∧ command_owned c = [copy]
    else queued s' = queued s ∧ ∃ made, rt_taken s' = rt_taken s ++ made ∧
         rt_freed s' = rt_freed s ++ made ∧ (made = [] ∨ made = [copy])) s.
Proof.
  intros Hid Hfresh. split.
  - eapply wp_mono; [by apply runtime_send_owned|]. by intros result s' [_ ?].
  - set (copy := Buffer (rt_next_ptr s) _).
    assert (copy ≠ b) as Hne by (intros Hc; apply Hfresh; by rewrite <- Hc).
    eapply wp_mono; [by apply runtime_send_borrowed|]. by intros result s' [_ ?].
Qed.

(** A file descriptor is taken over at most once: binding a descriptor that
    an existing socket was bound to is refused, and a refused call leaves no
    socket behind. *)
Theorem bind_refuses_taken_fd s fd opaque q f :
  Idle s → rt_entries s !! q = Some f → e_external_fd f = fd →
  wp (skyuv_socket_runtime_bind fd opaque true) (λ result s',
    result.1 ≠ SKYUV_OK ∧ result.2 = None ∧ Idle s') s.
Proof.
  intros Hid Hq Hfd. eapply wp_mono; [by apply bind_idle|].
  intros [code o] s' [(Hid' & _ & Hiff) Huniq]. simpl in *.
  assert (code ≠ SKYUV_OK) as Hne by (intros ->; by eapply Huniq).
  split_and!; [done| |done]. destruct o; [|done]. destruct Hne. by apply Hiff.
Qed.

(** ** Opening *)

(** The commands that resolve a host before they open a socket. *)
Definition opens_host (body : skyuv_socket_command_body) : option (string * Z) :=
  match body with
  | SKYUV_SOCKET_COMMAND_LISTEN host port _
  | SKYUV_SOCKET_COMMAND_CONNECT host port
  | SKYUV_SOCKET_COMMAND_UDP host port => Some (host, port)
  | _ => None
  end.

(** LISTEN, CONNECT and UDP on a host that is no IPv4 or IPv6 literal end
    with one ERROR event for the id, carrying libuv's code, and release the
    socket: its id resolves to nothing afterwards.  No other socket changes. *)
Theorem unresolvable_host_reported s p e command host port code :
  Inv s → rt_entries s !! p = Some e → e_id e = cmd_id command →
  e_state e = SKYUV_SOCKET_STATE_RESERVED → opens_host (cmd_body command) = Some (host, port) →
  resolve_literal host port = inl code → env_alloc (rt_clock s) = true →
  wp (process_command command) (λ _ s',
    rt_events s' = rt_events s ++
      [plain_event SKYUV_SOCKET_EVENT_ERROR (e_id e) (e_opaque e) code] ∧
    rt_entries s' = delete p (rt_entries s) ∧ Inv s' ∧
    wp (find_entry (cmd_id command)) (λ found _, found = None) s') s.
Proof.
  intros HI Hp Hid Hst Hop Hres Ha. pose proof HI as [Hl Hq Ht].
  assert (∀ m : R unit, wp m (λ _ s', handled [] s s') s →
    wp m (λ _ s', rt_events s' = rt_events s ++
      [plain_event SKYUV_SOCKET_EVENT_ERROR (e_id e) (e_opaque e) code] ∧
      rt_entries s' = delete p (rt_entries s)) s →
    wp (m ;; mret command) (λ _ s', rt_events s' = rt_events s ++
      [plain_event SKYUV_SOCKET_EVENT_ERROR (e_id e) (e_opaque e) code] ∧
      rt_entries s' = delete p (rt_entries s) ∧ Inv s' ∧
      wp (find_entry (cmd_id command)) (λ found _, found = None) s') s) as Hgo.
  { intros m Hh Hm. wp_step. eapply wp_mono; [exact (wp_and _ _ _ _ Hh Hm)|].
    intros [] s' [Hh' [Hev He]]. wp_step.
    pose proof (h_inv _ _ _ Hh') as HI'. split_and!; [done|done|done|].
    apply wp_find_entry; [apply HI'| |done]. intros q f Hqf Hidf. rewrite He in Hqf.
    apply lookup_delete_Some in Hqf as [Hne Hqf]. destruct Hne.
    pose proof (Inv_slot _ _ _ HI Hp). pose proof (Inv_slot _ _ _ HI Hqf). congruence. }
  assert (∀ state1 s1, rt_entries s1 = <[p := e <| e_state := state1 |>]> (rt_entries s) →
    rt_slots_locked s1 = false → rt_slots s1 = rt_slots s → rt_events s1 = rt_events s →
    rt_clock s1 = rt_clock s →
    wp (fail_uninitialized p code) (λ _ s', rt_events s' = rt_events s ++
      [plain_event SKYUV_SOCKET_EVENT_ERROR (e_id e) (e_opaque e) code] ∧
      rt_entries s' = delete p (rt_entries s)) s1) as Hfail.
  { intros st1 s1 He1 Hl1 Hsl1 Hev1 Hck1. eapply wp_fail_uninitialized; [done|by rewrite He1, lookup_insert_eq| |].
    - simpl. rewrite Hsl1. by eapply Inv_slot.
    - simpl. by rewrite Hck1, Ha, Hev1, He1, delete_insert_eq. }
  destruct command as [id opaque body]. unfold process_command. simpl in *.
  destruct body; simpl in Hop; simplify_eq; apply Hgo.
  - by apply process_listen_handled.
  - unfold process_listen. wp_step. eapply wp_find_known_state; [done..|]. do 2 wp_step. rewrite Hres.
    by eapply (Hfail SKYUV_SOCKET_STATE_LISTEN_PENDING).
  - by apply process_connect_handled.
  - unfold process_connect. wp_step. eapply wp_find_known_state; [done..|]. rewrite Hres.
    apply (Hfail (e_state e)); try done. rewrite insert_id; [done|]. by destruct e.
  - by apply process_udp_handled.
  - unfold process_udp. wp_step. eapply wp_find_known_state; [done..|]. rewrite Hres.
    apply (Hfail (e_state e)); try done. rewrite insert_id; [done|]. by destruct e.
Qed.

(** ** Datagrams *)

(** An address as libuv delivers it: port and address bytes of its family. *)
Definition wire_address (address : sockaddr) : Prop :=
  match address with
  | sockaddr_in port addr => length port = 2%nat ∧ length addr = 4%nat
  | sockaddr_in6 port addr _ => length port = 2%nat ∧ length addr = 16%nat
  | sockaddr_other _ => False
  end.

(** An address without the interface that a link-local IPv6 address is meant on. *)
Definition unscoped (address : sockaddr) : sockaddr :=
  match address with
  | sockaddr_in6 port addr _ => sockaddr_in6 port addr 0
  | _ => address
  end.

Lemma decode_encode address :
  wire_address address →
  decode_udp_address (Some (encode_udp_address address)) (udp_address_size address)
  = inr (unscoped address).
Proof.
  destruct address as [port addr|port addr scope|]; [intros [Hp Ha]..|done]; simpl.
  - rewrite !drop_0, take_app_length', drop_app_length', take_ge by lia. done.
  - rewrite !drop_0, take_app_length', drop_app_length', take_ge by lia. done.
Qed.

(** C11 A datagram can be answered: the event of a received datagram carries its
    payload followed by the encoded sender and the length of that encoding, and
    a send to exactly those bytes goes to the sender's address and port, whatever
    target the socket is connected to.  The encoding has no room for the scope of
    an IPv6 address, which is 0 in the reply: it comes back exactly for IPv4 and
    for IPv6 addresses without a scope. *)
Theorem udp_reply_reaches_sender s p e nread filled address :
  Inv s → rt_entries s !! p = Some e → e_state e = SKYUV_SOCKET_STATE_UDP → wire_address address →
  0 ≤ nread → Z.of_nat (length filled) = nread → (∀ n, env_alloc n = true) →
  wp (run_callback (CbUdpRead p nread filled (Some address))) (λ _ s', ∃ event b,
    rt_events s' = rt_events s ++ [event] ∧ ev_type event = SKYUV_SOCKET_EVENT_UDP ∧
    ev_id event = e_id e ∧ ev_data event = Some b ∧ ev_size event = nread ∧
    take (Z.to_nat nread) (buf_bytes b) = filled ∧
    ∀ e' send, send_address send = drop (Z.to_nat nread) (buf_bytes b) →
      send_address_size send = ev_value event → udp_send_target e' send = inr (unscoped address)) s.
Proof.
  intros HI Hp Hst Hwire Hn Hlen Hal. pose proof HI as [Hl _ _].
  unfold run_callback, allocate_read_buffer, new_buffer.
  do 2 wp_step. apply wp_alloc; [intros _|by rewrite Hal]. wp_step. apply wp_new_ptr. do 3 wp_step.
  cbn [from_option]. unfold udp_received, new_buffer. destruct (Z.ltb_spec nread 0); [lia|].
  cbn [from_option buf_bytes]. do 2 wp_step. apply wp_alloc; [intros _|by rewrite Hal]. wp_step.
  apply wp_new_ptr. do 6 wp_step. apply wp_alloc; [intros _|by rewrite Hal]. wp_steps.
  do 2 eexists. split; [done|]. simpl.
  assert (length filled = Z.to_nat nread) as Hl' by lia.
  split_and!; try done; cbn [buf_bytes]; rewrite <- Hl', firstn_all.
  - apply take_app_length.
  - rewrite drop_app_length. intros e' send Hsa Hss. unfold udp_send_target. rewrite Hss, Hsa.
    assert (0 <? udp_address_size address = true) as -> by (by destruct address).
    by apply decode_encode.
Qed.

End interface.

(** ** The contract on concrete runs *)

#[local] Open Scope string_scope.
#[local] Open Scope list_scope.
#[local] Open Scope Z_scope.
#[local] Existing Instance small_slots.
#[local] Existing Instance good_env.

Lemma send_contract_witness :
  wp (runtime_send 4 (Some ex_data) 2 SKYUV_SOCKET_BUFFER_OWNED None false) (λ result s',
    if result =? SKYUV_OK then rt_taken s' = rt_taken (played sending_script) ++ [ex_data]
    else rt_taken s' = rt_taken (played sending_script)) (played sending_script) ∧
  wp (runtime_send 4 (Some ex_data) 2 SKYUV_SOCKET_BUFFER_BORROWED None false) (λ result s',
    if result =? SKYUV_OK
    then ∃ c, queued s' = queued (played sending_script) ++ [c] ∧
      ∃ copy, command_owned c = [copy] ∧ buf_bytes copy = [1; 2] ∧ copy ≠ ex_data
    else queued s' = queued (played sending_script)) (played sending_script).
Proof.
  assert (buf_ptr ex_data ≠ rt_next_ptr (played sending_script)) as Hne by (vm_compute; discriminate).
  destruct (send_contract _ 4 ex_data 2 None false (played_idle _ sending_plays) Hne) as [Ho Hb]. split.
  - eapply wp_mono; [exact Ho|]. intros result s'. cbv beta.
    by destruct (result =? SKYUV_OK); intros [? _].
  - eapply wp_mono; [exact Hb|]. intros result s'. cbv beta zeta.
    destruct (result =? SKYUV_OK); [|by intros (_ & ? & _)].
    intros (Hc & _ & _ & c & Hq & _ & Ho'). exists c. split; [exact Hq|].
    eexists. split; [exact Ho'|split; [reflexivity|exact Hc]].
Defined.

Lemma bind_refuses_taken_fd_witness :
  wp (skyuv_socket_runtime_bind 5 8 true) (λ result _, result.1 ≠ SKYUV_OK) (played bind_script).
Proof.
  eapply wp_mono; [apply (bind_refuses_taken_fd _ 5 8 1 bind_entry);
    [exact (played_idle _ bind_plays)|exact bind_at|reflexivity]|].
  by intros result s' [? _].
Defined.

Lemma unresolvable_host_reported_witness :
  wp (process_command (Command 4 7 (SKYUV_SOCKET_COMMAND_LISTEN "localhost" 80 128))) (λ _ s',
    rt_events s' = [plain_event SKYUV_SOCKET_EVENT_ERROR 4 7 (-22)]) (played listening_script).
Proof.
  eapply wp_mono; [apply (unresolvable_host_reported _ 1 listening_entry _ "localhost" 80 (-22));
    [exact (played_inv _ listening_plays)|exact listening_at|reflexivity..]|].
  intros c s' (-> & _). vm_compute. reflexivity.
Defined.

Lemma udp_reply_reaches_sender_witness :
  wp (run_callback (CbUdpRead 1 2 [65; 66] (Some (sockaddr_in [31; 144] [10; 0; 0; 1])))) (λ _ s',
    ∃ event b, rt_events s' = rt_events (played udp_script) ++ [event] ∧
      ev_data event = Some b ∧ take 2 (buf_bytes b) = [65; 66]) (played udp_script).
Proof.
  eapply wp_mono; [apply (udp_reply_reaches_sender _ 1 udp_entry);
    [exact (played_inv _ udp_plays)|exact udp_at|reflexivity|by split|lia|reflexivity|reflexivity]|].
  intros [] s' (event & b & H1 & _ & _ & H2 & _ & H3 & _). exists event, b. done.
Defined.
