(* ===== verification/SocketFindings.v ===== *)
(** * Where the runtime does not do what it means to

    Behaviour of src/src/socket/socket_internal.c that contradicts its own
    documents or libuv's rules: general statements where there is one, runs of
    the model otherwise. *)
From S2P Require Import Prelude SocketId Fifo SocketTypes CommandQueue RuntimeState Entries.
From S2P Require Import Invariant Rules Handled Slots Udp Writes Connections Lifecycle Runtime Loop.
From S2P Require Import Steps Safety Scripts SocketInterface.

Section stranded.
Context {cfg : SlotConfig} {env : Env}.
Implicit Types (s : skyuv_socket_runtime) (e : skyuv_socket_entry) (p : positive).

(** A graceful close strands the data it waits for: on a socket that was
    asked to close while more than one write was queued, the completion of the
    write in flight hands no further write to libuv and does not close the
    socket; the rest of the queue stays, with nothing in flight, the socket on
    no list to pump, and neither a write nor a close callback to come. *)
Theorem close_strands_queued_data s p e w :
  Inv s → rt_entries s !! p = Some e → e_inflight e = Some w → e_close_requested e = true →
  e_state e ≠ SKYUV_SOCKET_STATE_CLOSING → next_write e ≠ None → e_pump_pending e = false →
  wp (run_callback (CbWrite p 0)) (λ _ s', ∃ e', rt_entries s' !! p = Some e' ∧
    e_high e' = e_high e ∧ e_low e' = e_low e ∧ e_state e' = e_state e ∧
    e_pump_pending e' = false ∧ rt_pump s' = rt_pump s ∧ rt_uv_calls s' = rt_uv_calls s ∧
    ¬ entry_allows (CbWrite p 0) e' ∧ ¬ entry_allows (CbClose p) e') s.
Proof.
  intros HI Hp Hin Hcr Hst Hnw Hpp. pose proof HI as [Hl _ _]. pose proof (Inv_ok _ _ _ HI Hp) as Hok.
  destruct (pending_tcp e Hok) as [Hu Hw]; [by right; eauto|].
  destruct (writable_active e) as (Htcp & _ & _); [by apply Hok|done..|].
  unfold run_callback. do 2 wp_step. rewrite Hin. do 2 wp_step. unfold write_completed. do 4 wp_step; [done|].
  eapply wp_settle_open; [done|lookup_tac|done|]. cbn [e_close_requested upd_field set_e_inflight].
  rewrite Hcr. set (x := calmed _).
  assert (e_high x = e_high e ∧ e_low x = e_low e ∧ e_state x = e_state e ∧ e_pump_pending x = false ∧
    e_inflight x = None ∧ e_is_udp x = false ∧ e_tcp x = HandleActive)
    as (Hxh & Hxl & Hxs & Hxp & Hxi & Hxu & Hxt) by done.
  clearbody x. eapply wp_close_after_writes; [done|lookup_tac|done|done|].
  rewrite (bool_decide_eq_false_2 (next_write x = None)), andb_false_r
    by (unfold next_write in *; by rewrite Hxh, Hxl).
  exists x. split; [lookup_tac|]. split_and!; try done; simpl.
  - rewrite Hxi. by intros [? ?].
  - unfold entry_handle. rewrite Hxu, Hxt. by intros [? _].
Qed.

End stranded.

#[local] Open Scope string_scope.
#[local] Existing Instance small_slots.
#[local] Existing Instance good_env.

Lemma close_strands_queued_data_witness :
  wp (run_callback (CbWrite 1 0)) (λ _ s', ∃ e', rt_entries s' !! 1%positive = Some e' ∧
    e_low e' = [Write (Some ex_data2) 2 None] ∧ ¬ entry_allows (CbClose 1) e')
    (played closing_script).
Proof.
  eapply wp_mono; [eapply (close_strands_queued_data _ 1 closing_entry (Write (Some ex_data) 3 None));
    [exact (played_inv _ closing_plays)|exact closing_at|by vm_compute..]|].
  intros [] s' (e' & H1 & _ & H2 & _ & _ & _ & _ & _ & H3). exists e'. by rewrite H2.
Defined.

(** ** Runs that violate libuv's rules or the documents *)

(** A socket with one write in flight that was asked to close. *)
Definition draining_script : list action :=
  connected_script ++
  [ DoApi (ApiSend 4 (Some ex_data) 3 SKYUV_SOCKET_BUFFER_OWNED None); DoCallback CbAsync;
    DoApi (ApiClose 4 7); DoCallback CbAsync ].

(** The CLOSE events that wait for the network thread. *)
Definition close_events (s : skyuv_socket_runtime) : nat :=
  length (filter (λ ev, ev_type ev = SKYUV_SOCKET_EVENT_CLOSE) (rt_events s)).

(** A graceful close can end twice.  [uv_close] is called on a handle that is
    closing already, which libuv answers with an assertion failure, in three runs
    of a socket that was asked to close with one write in flight: when the runtime
    is told to exit before the write completes, when the socket is shut down
    before it completes, and when the write fails.  And CLOSE posts a CLOSE event
    each time it is repeated while the first one waits for queued data. *)
Theorem graceful_close_ends_twice :
  fault_after (draining_script ++ [DoApi ApiExit; DoCallback CbAsync])
    (run_callback (CbWrite 1 UV_ECANCELED)) = Some CloseClosing ∧
  fault_after (draining_script ++ [DoApi (ApiShutdown 4 7); DoCallback CbAsync])
    (run_callback (CbWrite 1 UV_ECANCELED)) = Some CloseClosing ∧
  fault_after draining_script (run_callback (CbWrite 1 (-104))) = Some CloseClosing ∧
  close_events (played draining_script) = 1%nat ∧
  close_events (played (draining_script ++ [DoApi (ApiClose 4 7); DoCallback CbAsync])) = 2%nat.
Proof. vm_compute. done. Qed.

(** The calls that open a socket race with the network thread.  They read
    the id from the entry after submitting it, when LISTEN may have been
    processed, have failed on its host and have released the entry; and EXIT
    releases an entry that is reserved but not submitted yet.  Both runs end in
    a use of freed memory; a submission that is processed late is read safely. *)
Theorem open_races_with_network_thread :
  (o ← open_socket 7 (SKYUV_SOCKET_COMMAND_LISTEN "no.literal" 80 128);
   run_callback CbAsync ;; store_id o) fresh_runtime = Fault UseAfterFree ∧
  (r ← reserve_entry 7; skyuv_socket_runtime_exit ;; run_callback CbAsync ;;
   submit_open 7 (SKYUV_SOCKET_COMMAND_CONNECT "127.0.0.1" 80) r) fresh_runtime
  = Fault UseAfterFree ∧
  (∃ s, (o ← open_socket 7 (SKYUV_SOCKET_COMMAND_LISTEN "no.literal" 80 128);
         store_id o) fresh_runtime = Ret (SKYUV_OK, Some 4) s).
Proof. vm_compute. eauto. Qed.

(** A datagram of a link-local IPv6 sender is answered without the scope of its
    address, which says through which interface the sender is reached. *)
Theorem udp_reply_loses_scope port addr scope :
  length port = 2%nat → length addr = 16%nat → scope ≠ 0 →
  let sender := sockaddr_in6 port addr scope in
  decode_udp_address (Some (encode_udp_address sender)) (udp_address_size sender) ≠ inr sender.
Proof.
  intros Hp Ha Hs sender. rewrite decode_encode by done. unfold sender. simpl. congruence.
Qed.

Lemma udp_reply_loses_scope_witness :
  let sender := sockaddr_in6 [31; 144] (254 :: 128 :: replicate 14 0) 3 in
  decode_udp_address (Some (encode_udp_address sender)) (udp_address_size sender) ≠ inr sender.
Proof. apply udp_reply_loses_scope; [reflexivity|reflexivity|lia]. Defined.
