(* ===== verification/SocketInfo.v ===== *)
(** * The snapshot of the sockets

    [skyuv_socket_runtime_info] of src/src/socket/socket_internal.c copies what
    the slot table holds into a list, under the slots mutex, and
    [socket_server_info] of src/src/socket/socket_server_compat.c translates it
    into the list Skynet's debug console prints.  The snapshot is compared with
    the table: it has one record per visible socket, in the order of the slots,
    and taking it changes nothing. *)
From S2P Require Import Prelude SocketId Fifo SocketTypes CommandQueue RuntimeState Entries.
From S2P Require Import Invariant Rules Handled Slots Udp Writes Connections Lifecycle Runtime.
From S2P Require Import Loop Steps Safety Scripts.

Inductive skyuv_socket_info_type :=
| SKYUV_SOCKET_INFO_LISTEN
| SKYUV_SOCKET_INFO_TCP
| SKYUV_SOCKET_INFO_CLOSING
| SKYUV_SOCKET_INFO_UDP.

#[export] Instance skyuv_socket_info_type_eq_dec : EqDecision skyuv_socket_info_type.
Proof. solve_decision. Defined.

Record skyuv_socket_info := SocketInfo {
  info_id : Z;
  info_type : skyuv_socket_info_type;
  info_opaque : Z;
  info_read : Z;
  info_write : Z;
  info_rtime : Z;
  info_wtime : Z;
  info_wbuffer : Z;
  info_reading : bool;
  info_writing : bool;
  info_name : string;
}.

(** Skynet's [struct socket_info] and its types, as far as they are assigned. *)
Inductive socket_info_type :=
| SOCKET_INFO_LISTEN
| SOCKET_INFO_TCP
| SOCKET_INFO_UDP
| SOCKET_INFO_CLOSING.

Record socket_info := ServerInfo {
  si_id : Z;
  si_type : socket_info_type;
  si_opaque : Z;
  si_read : Z;
  si_write : Z;
  si_rtime : Z;
  si_wtime : Z;
  si_wbuffer : Z;
  si_reading : Z;
  si_writing : Z;
  si_name : string;
}.

Section info.
Context {cfg : SlotConfig} {env : Env}.
Implicit Types (s : skyuv_socket_runtime) (e : skyuv_socket_entry) (p : positive).

(** ** Operations *)

(** The states the snapshot shows. *)
Definition info_visible (state : skyuv_socket_state) : bool :=
  match state with
  | SKYUV_SOCKET_STATE_LISTENING
  | SKYUV_SOCKET_STATE_CONNECTED
  | SKYUV_SOCKET_STATE_CONNECTED_PAUSED
  | SKYUV_SOCKET_STATE_HALFCLOSE_READ
  | SKYUV_SOCKET_STATE_UDP
  | SKYUV_SOCKET_STATE_CLOSING => true
  | _ => false
  end.

Definition info_type_of e : skyuv_socket_info_type :=
  if decide (e_state e = SKYUV_SOCKET_STATE_LISTENING) then SKYUV_SOCKET_INFO_LISTEN
  else if decide (e_state e = SKYUV_SOCKET_STATE_UDP) then SKYUV_SOCKET_INFO_UDP
  else if e_close_requested e || bool_decide (e_state e = SKYUV_SOCKET_STATE_HALFCLOSE_READ) ||
          bool_decide (e_state e = SKYUV_SOCKET_STATE_CLOSING) then SKYUV_SOCKET_INFO_CLOSING
  else SKYUV_SOCKET_INFO_TCP.

(** The assignments to one node of the list. *)
Definition info_of e : skyuv_socket_info := {|
  info_id := e_id e;
  info_type := info_type_of e;
  info_opaque := e_opaque e;
  info_read := if decide (e_state e = SKYUV_SOCKET_STATE_LISTENING)
               then e_accept_count e else e_read_bytes e;
  info_write := e_write_bytes e;
  info_rtime := e_read_time e;
  info_wtime := e_write_time e;
  info_wbuffer := e_queued_bytes e;
  info_reading := e_reading e;
  info_writing := e_writing e || (0 <? e_queued_bytes e);
  info_name := e_name e;
|}.

(** The loop over the slots; it stops where a node cannot be allocated. *)
Fixpoint info_slots (slots : list Z) : R (list skyuv_socket_info) :=
  match slots with
  | [] => mret []
  | slot :: slots =>
      entry ← gets (λ s, rt_slots s !! slot);
      match entry with
      | None => info_slots slots
      | Some p =>
          e ← deref p;
          if negb (info_visible (e_state e)) then info_slots slots
          else
            ok ← alloc;
            if negb ok then mret []
            else
              rest ← info_slots slots;
              mret (info_of e :: rest)
      end
  end.

Definition skyuv_socket_runtime_info : R (list skyuv_socket_info) :=
  slots_lock ;;
  infos ← info_slots (counter SKYUV_SOCKET_SLOT_COUNT);
  slots_unlock ;;
  mret infos.

(** The assignments of [socket_server_info] to one node. *)
Definition translate_info (current : skyuv_socket_info) : socket_info := {|
  si_id := info_id current;
  si_type := if decide (info_type current = SKYUV_SOCKET_INFO_LISTEN) then SOCKET_INFO_LISTEN
             else if decide (info_type current = SKYUV_SOCKET_INFO_UDP) then SOCKET_INFO_UDP
             else if decide (info_type current = SKYUV_SOCKET_INFO_CLOSING)
                  then SOCKET_INFO_CLOSING else SOCKET_INFO_TCP;
  si_opaque := u64 (info_opaque current);
  si_read := info_read current;
  si_write := info_write current;
  si_rtime := info_rtime current;
  si_wtime := info_wtime current;
  si_wbuffer := if INT64_MAX <? info_wbuffer current then INT64_MAX else info_wbuffer current;
  si_reading := if info_reading current then 1 else 0;
  si_writing := if info_writing current then 1 else 0;
  si_name := info_name current;
|}.

(** [for (current = snapshot; current != NULL; current = current->next)], with
    [socket_info_create] linking each node behind the last. *)
Fixpoint translate_infos (snapshot : list skyuv_socket_info) : R (list socket_info) :=
  match snapshot with
  | [] => mret []
  | current :: snapshot =>
      ok ← alloc;
      if negb ok then mret []
      else
        rest ← translate_infos snapshot;
        mret (translate_info current :: rest)
  end.

Definition socket_server_info : R (list socket_info) :=
  skyuv_socket_runtime_info ≫= translate_infos.

(** ** The snapshot as a function of the table *)

Definition slot_info s (slot : Z) : option skyuv_socket_info :=
  p ← rt_slots s !! slot;
  e ← rt_entries s !! p;
  if info_visible (e_state e) then Some (info_of e) else None.

Definition snapshot s : list skyuv_socket_info :=
  omap (slot_info s) (counter SKYUV_SOCKET_SLOT_COUNT).

Lemma wp_info_slots l s :
  (∀ i q, rt_slots s !! i = Some q → is_Some (rt_entries s !! q)) →
  wp (info_slots l) (λ infos s',
    (∃ n, s' = s <| rt_clock := n |>) ∧ (∃ k, infos = take k (omap (slot_info s) l)) ∧
    ((∀ n, env_alloc n = true) → infos = omap (slot_info s) l)) s.
Proof.
  induction l as [|i l IH] in s |- *; intros Hs; cbn [info_slots].
  { wp_step. split_and!; [|by exists 0%nat|done]. exists (rt_clock s). by destruct s. }
  assert (slot_info s i = None → wp (info_slots l) (λ infos s',
    (∃ n, s' = s <| rt_clock := n |>) ∧ (∃ k, infos = take k (omap (slot_info s) (i :: l))) ∧
    ((∀ n, env_alloc n = true) → infos = omap (slot_info s) (i :: l))) s) as Hskip.
  { intros Hno. simpl. rewrite Hno. by apply IH. }
  do 2 wp_step. destruct (rt_slots s !! i) as [p|] eqn:Hi.
  2:{ apply Hskip. unfold slot_info. by rewrite Hi. }
  destruct (Hs i p Hi) as [e He]. do 2 wp_step.
  destruct (info_visible (e_state e)) eqn:Hv; cbn [negb].
  2:{ apply Hskip. unfold slot_info. simpl. by rewrite Hi; simpl; rewrite He; simpl; rewrite Hv. }
  assert (slot_info s i = Some (info_of e)) as Hsi.
  { unfold slot_info. by rewrite Hi; simpl; rewrite He; simpl; rewrite Hv. }
  do 2 wp_step; cbn [negb].
  - wp_step. eapply wp_mono; [by apply IH|]. intros infos s' ([n ->] & [k ->] & Hall). wp_step.
    simpl. rewrite Hsi. split_and!; [by exists n| |].
    + by exists (S k).
    + intros Ha. by rewrite Hall.
  - wp_step. split_and!; [by eexists|by exists 0%nat|]. intros Ha. by rewrite Ha in H.
Qed.

Lemma wp_runtime_info s :
  Inv s →
  wp skyuv_socket_runtime_info (λ infos s',
    (∃ n, s' = s <| rt_clock := n |>) ∧ (∃ k, infos = take k (snapshot s)) ∧
    ((∀ n, env_alloc n = true) → infos = snapshot s)) s.
Proof.
  intros HI. pose proof HI as [Hl _ _]. unfold skyuv_socket_runtime_info.
  wp_step. apply wp_slots_lock; [done|]. wp_step. eapply wp_mono.
  { apply wp_info_slots. intros i q. by apply (slot_entry i q s HI). }
  intros infos s' ([n ->] & Hk & Hall). wp_step. apply wp_slots_unlock; [done|]. wp_step.
  split_and!; [|done|done]. exists n. destruct s; simpl in *. by subst.
Qed.

Lemma wp_translate_infos l s :
  wp (translate_infos l) (λ infos s',
    (∃ n, s' = s <| rt_clock := n |>) ∧ (∃ k, infos = take k (translate_info <$> l)) ∧
    ((∀ n, env_alloc n = true) → infos = translate_info <$> l)) s.
Proof.
  induction l as [|i l IH] in s |- *; cbn [translate_infos].
  { wp_step. split_and!; [|by exists 0%nat|done]. exists (rt_clock s). by destruct s. }
  do 2 wp_step; cbn [negb].
  - wp_step. eapply wp_mono; [apply IH|]. intros infos s' ([n ->] & [k ->] & Hall). wp_step.
    split_and!; [by exists n|by exists (S k)|]. intros Ha. by rewrite Hall.
  - wp_step. split_and!; [by eexists|by exists 0%nat|]. intros Ha. by rewrite Ha in H.
Qed.

Lemma slot_info_Some s slot info :
  slot_info s slot = Some info ↔
  ∃ p e, rt_slots s !! slot = Some p ∧ rt_entries s !! p = Some e ∧
    info_visible (e_state e) = true ∧ info = info_of e.
Proof.
  unfold slot_info. split.
  - intros (p & Hp & (e & He & Hi)%bind_Some)%bind_Some. case_match; naive_solver.
  - intros (p & e & Hp & He & Hv & ->). by rewrite Hp; simpl; rewrite He; simpl; rewrite Hv.
Qed.

Lemma elem_of_snapshot s info :
  Inv s →
  info ∈ snapshot s ↔
  ∃ p e, rt_entries s !! p = Some e ∧ info_visible (e_state e) = true ∧ info = info_of e.
Proof.
  intros HI. unfold snapshot. rewrite list_elem_of_omap. split.
  - intros (slot & _ & (p & e & _ & H)%slot_info_Some). eauto.
  - intros (p & e & He & Hv & ->). exists (skyuv_socket_id_slot (e_id e)). split.
    + apply elem_of_seqZ. pose proof (id_slot_range (e_id e)). lia.
    + apply slot_info_Some. exists p, e. split_and!; try done. by apply (Inv_slot s p e).
Qed.

(** The slots tell the records of the snapshot apart. *)
Lemma snapshot_NoDup s : Inv s → NoDup (info_id <$> snapshot s).
Proof.
  intros HI. unfold snapshot. assert (NoDup (counter SKYUV_SOCKET_SLOT_COUNT)) as Hnd
    by apply NoDup_seqZ. induction Hnd as [|slot l Hnot _ IH]; simpl; [constructor|].
  destruct (slot_info s slot) as [info|] eqn:Hs; [|done]. simpl. constructor; [|done].
  intros (info' & Hid & (slot' & Hin & Hs')%list_elem_of_omap)%list_elem_of_fmap.
  apply slot_info_Some in Hs as (p & e & Hsl & He & _ & ->).
  apply slot_info_Some in Hs' as (p' & e' & Hsl' & He' & _ & ->). simpl in Hid.
  destruct (to_slot _ (inv_table _ HI) slot p Hsl) as (e1 & H1 & H1').
  destruct (to_slot _ (inv_table _ HI) slot' p' Hsl') as (e2 & H2 & H2'). simpl in *.
  simplify_eq. rewrite Hid in Hnot. done.
Qed.

(** ** What the list is to say *)

(** A socket is listed once libuv has made it what it is: not while its slot is
    only reserved, while it connects, or while it is accepted and not started. *)
Definition listed e : Prop :=
  e_initialized e = true ∧ e_state e ≠ SKYUV_SOCKET_STATE_CONNECTING ∧
  e_state e ≠ SKYUV_SOCKET_STATE_ACCEPTED_PAUSED.

(** The record of a socket: its kind, by what it is used for; its figures, where
    a listening socket counts what it accepted; the bytes it has accepted and not
    yet written, as far as they fit; whether it reads, and whether it has
    something to write. *)
Record describes e (info : socket_info) : Prop := Describes {
  ds_id : si_id info = e_id e;
  ds_listen : si_type info = SOCKET_INFO_LISTEN ↔ e_state e = SKYUV_SOCKET_STATE_LISTENING;
  ds_udp : si_type info = SOCKET_INFO_UDP ↔ e_state e = SKYUV_SOCKET_STATE_UDP;
  ds_closing : si_type info = SOCKET_INFO_CLOSING ↔
    e_close_requested e = true ∨ e_state e = SKYUV_SOCKET_STATE_HALFCLOSE_READ ∨
    entry_handle e = HandleClosing;
  ds_opaque : si_opaque info = e_opaque e mod 2 ^ 64;
  ds_accepted : e_state e = SKYUV_SOCKET_STATE_LISTENING → si_read info = e_accept_count e;
  ds_read : e_state e ≠ SKYUV_SOCKET_STATE_LISTENING → si_read info = e_read_bytes e;
  ds_write : si_write info = e_write_bytes e;
  ds_times : si_rtime info = e_read_time e ∧ si_wtime info = e_write_time e;
  ds_wbuffer : si_wbuffer info = Z.min (pending_size e mod 2 ^ 64) INT64_MAX;
  ds_reading : si_reading info = Z.b2z (e_reading e);
  ds_writing : si_writing info =
    Z.b2z (bool_decide (is_Some (e_inflight e) ∨ 0 < pending_size e mod 2 ^ 64));
  ds_name : si_name info = e_name e;
}.

Lemma listed_visible e : entry_ok e → info_visible (e_state e) = true ↔ listed e.
Proof.
  intros Hok. pose proof (eo_phase _ (eo_core _ Hok)) as Hph. unfold phase_ok, listed in *.
  destruct (e_state e); simpl in *; intuition congruence.
Qed.

(** The kind, where only a TCP socket that may write can wait for a close. *)
Lemma translated_type e :
  entry_ok e → listed e →
  let type := si_type (translate_info (info_of e)) in
  (type = SOCKET_INFO_LISTEN ↔ e_state e = SKYUV_SOCKET_STATE_LISTENING) ∧
  (type = SOCKET_INFO_UDP ↔ e_state e = SKYUV_SOCKET_STATE_UDP) ∧
  (type = SOCKET_INFO_CLOSING ↔
    e_close_requested e = true ∨ e_state e = SKYUV_SOCKET_STATE_HALFCLOSE_READ ∨
    entry_handle e = HandleClosing).
Proof.
  intros Hok Hls. apply listed_visible in Hls; [|done].
  destruct Hok as [[Hph _ _ _ _ _ _ Hcr _] _]. unfold phase_ok, entry_handle in *. simpl.
  unfold info_type_of. destruct (e_state e), (e_close_requested e), (e_is_udp e); simpl in *;
    try discriminate; intuition congruence.
Qed.

Lemma translated_describes e : entry_ok e → listed e → describes e (translate_info (info_of e)).
Proof.
  intros Hok Hls. destruct (translated_type e Hok Hls) as (Hl & Hu & Hc).
  destruct Hok as [[_ Hwr Hqu _ _ _ _ _ _] _]. unfold u64, uwrap in Hqu.
  split; [done|done|done|done|done|..]; simpl; try done.
  - intros Hst. by rewrite decide_True.
  - intros Hst. by rewrite decide_False.
  - rewrite Hqu. destruct (Z.ltb_spec INT64_MAX (pending_size e mod 2 ^ 64)); lia.
  - rewrite Hwr, Hqu. destruct (Z.ltb_spec 0 (pending_size e mod 2 ^ 64)); repeat case_bool_decide; simpl; try done; exfalso; intuition lia.
Qed.

(** C12 The list of sockets: with memory for its nodes, [socket_server_info]
    returns one record for every socket that libuv has made, that does not
    connect any more and has been started if it was accepted, and for no other;
    without, a prefix of that list.  The record says what the socket is used for
    and gives its own figures.  No two records have the same id, and taking the
    list changes nothing in the runtime. *)
Theorem server_info_snapshot s :
  reachable s →
  ∃ full,
    NoDup (si_id <$> full) ∧
    (∀ p e, rt_entries s !! p = Some e → listed e → ∃ info, info ∈ full ∧ describes e info) ∧
    (∀ info, info ∈ full → ∃ p e, rt_entries s !! p = Some e ∧ listed e ∧ describes e info) ∧
    wp socket_server_info (λ infos s',
      (∃ n, s' = s <| rt_clock := n |>) ∧ infos `prefix_of` full ∧
      ((∀ n, env_alloc n = true) → infos = full)) s.
Proof.
  intros Hr%reachable_idle. pose proof (st_inv _ (id_stable _ Hr)) as HI.
  exists (translate_info <$> snapshot s). split_and!.
  - rewrite <- list_fmap_compose. by apply snapshot_NoDup.
  - intros p e Hp Hls. pose proof (Inv_ok _ _ _ HI Hp) as Hok.
    exists (translate_info (info_of e)). split; [|by apply translated_describes].
    apply list_elem_of_fmap_2, elem_of_snapshot; [done|]. exists p, e.
    split_and!; [done|by apply listed_visible|done].
  - intros info (info' & -> & (p & e & Hp & Hv & ->)%elem_of_snapshot)%list_elem_of_fmap; [|done].
    pose proof (Inv_ok _ _ _ HI Hp) as Hok. apply listed_visible in Hv; [|done].
    exists p, e. split_and!; [done|done|by apply translated_describes].
  - unfold socket_server_info. wp_step. eapply wp_mono; [by apply wp_runtime_info|].
    intros infos s1 ([n1 ->] & [k1 ->] & Hall1). eapply wp_mono; [apply wp_translate_infos|].
    intros infos s2 ([n2 ->] & [k2 ->] & Hall2). split_and!; [by exists n2| |].
    + rewrite fmap_take, take_take. apply prefix_take.
    + intros Ha. by rewrite Hall2, Hall1.
Qed.

End info.

(** ** The snapshot of a concrete run *)

#[local] Existing Instance small_slots.
#[local] Existing Instance good_env.

Lemma server_info_snapshot_witness :
  ∃ info, describes sending_entry info ∧ si_id info = 4 ∧ si_wbuffer info = 5 ∧ si_writing info = 1.
Proof.
  destruct (server_info_snapshot _ (played_reachable _ sending_plays)) as (full & _ & H & _).
  destruct (H 1%positive sending_entry sending_at) as (info & _ & Hd).
  { split_and!; [reflexivity|discriminate..]. }
  exists info. split_and!; [exact Hd|exact (ds_id _ _ Hd)|exact (ds_wbuffer _ _ Hd)|exact (ds_writing _ _ Hd)].
Defined.
