(* ===== verification/InfoList.v ===== *)
(** * Lists of socket information

    src/src/socket/socket_info_compat.c and [skyuv_socket_runtime_info_release]:
    nodes linked by pointers, made one behind the other and released from the
    first. *)
From S2P Require Import Prelude.

(** Nodes by address, each with its [next], and the allocations so far. *)
Record nodes := Nodes {
  nd_heap : gmap positive (option positive);
  nd_next : positive;
  nd_time : nat;
}.

Class NodeAlloc := { node_alloc : nat → bool }.

Section nodes.
Context `{NodeAlloc}.
Local Notation N := (M nodes).
Implicit Types (h : gmap positive (option positive)) (p q : positive) (l : list positive).

(** [skyuv_calloc]: [next] is NULL. *)
Definition new_node : N (option positive) := λ s,
  if node_alloc (nd_time s)
  then Ret (Some (nd_next s)) (Nodes (<[nd_next s := None]> (nd_heap s)) (Pos.succ (nd_next s)) (S (nd_time s)))
  else Ret None (Nodes (nd_heap s) (nd_next s) (S (nd_time s))).

Definition set_next (p : positive) (next : option positive) : N unit := λ s,
  match nd_heap s !! p with
  | Some _ => Ret tt (Nodes (<[p := next]> (nd_heap s)) (nd_next s) (nd_time s))
  | None => Fault UseAfterFree
  end.

Definition get_next (p : positive) : N (option positive) := λ s,
  match nd_heap s !! p with Some next => Ret next s | None => Fault UseAfterFree end.

Definition free_node (p : positive) : N unit := λ s,
  match nd_heap s !! p with
  | Some _ => Ret tt (Nodes (delete p (nd_heap s)) (nd_next s) (nd_time s))
  | None => Fault UseAfterFree
  end.

Definition socket_info_create (last : option positive) : N (option positive) :=
  info ← new_node;
  match last with
  | Some last => set_next last info ;; mret info
  | None => mret info
  end.

(** [socket_info_release], and [skyuv_socket_runtime_info_release] of the other
    kind of node. *)
Fixpoint socket_info_release (fuel : nat) (info : option positive) : N unit :=
  match info with
  | None => mret tt
  | Some p =>
      match fuel with
      | O => throw OutOfFuel
      | S fuel =>
          next ← get_next p;
          free_node p ;;
          socket_info_release fuel next
      end
  end.

Definition skyuv_socket_runtime_info_release : nat → option positive → N unit := socket_info_release.

(** The loop of [socket_server_info] over [n] sockets. *)
Fixpoint create_all (n : nat) (head tail : option positive) : N (option positive) :=
  match n with
  | O => mret head
  | S n =>
      info ← socket_info_create tail;
      match info with
      | None => mret head
      | Some p => create_all n (match head with None => Some p | _ => head end) (Some p)
      end
  end.

(** ** Lists *)

(** The list of nodes from [head] on. *)
Fixpoint node_list h (head : option positive) l : Prop :=
  match l with
  | [] => head = None
  | p :: l => head = Some p ∧ ∃ next, h !! p = Some next ∧ node_list h next l
  end.

Lemma node_list_insert h head l q v : q ∉ l → node_list h head l → node_list (<[q := v]> h) head l.
Proof.
  induction l as [|p l IH] in head |- *; [done|]. intros [Hne Hl]%not_elem_of_cons (-> & next & Hp & Hc).
  split; [done|]. exists next. rewrite lookup_insert_ne by done. auto.
Qed.

Lemma node_list_delete h head l q : q ∉ l → node_list h head l → node_list (delete q h) head l.
Proof.
  induction l as [|p l IH] in head |- *; [done|]. intros [Hne Hl]%not_elem_of_cons (-> & next & Hp & Hc).
  split; [done|]. exists next. rewrite lookup_delete_ne by done. auto.
Qed.

Lemma node_list_last h head l q : node_list h head (l ++ [q]) → h !! q = Some None.
Proof.
  induction l as [|x l IH] in head |- *; simpl; [by intros (_ & next & ? & ->)|].
  intros (_ & next & _ & Hc). by eapply IH.
Qed.

Lemma node_list_in h head l p : node_list h head l → p ∈ l → is_Some (h !! p).
Proof.
  induction l as [|x l IH] in head |- *; [set_solver|].
  intros (-> & next & Hx & Hc) [->|Hp]%elem_of_cons; [eauto|by eapply IH].
Qed.

(** One more node at the end. *)
Lemma node_list_snoc h head l q p :
  node_list h head (l ++ [q]) → NoDup (l ++ [q]) → p ∉ l ++ [q] → h !! p = Some None →
  node_list (<[q := Some p]> h) head ((l ++ [q]) ++ [p]).
Proof.
  induction l as [|x l IH] in head |- *; simpl.
  - intros (-> & next & Hq & ->) _ Hp Hnone. split; [done|]. exists (Some p). rewrite lookup_insert_eq.
    split; [done|]. split; [done|]. exists None. rewrite lookup_insert_ne; [done|].
    intros ->. apply Hp. set_solver.
  - intros (-> & next & Hx & Hc) [Hxl Hnd]%NoDup_cons [Hne Hp]%not_elem_of_cons Hnone. split; [done|].
    exists next. rewrite lookup_insert_ne by set_solver. auto.
Qed.

(** The nodes of [l] have come to those of [h0], with [tail] the last. *)
Record grown h0 l (head tail : option positive) (s : nodes) : Prop := Grown {
  gr_chain : node_list (nd_heap s) head l;
  gr_nodup : NoDup l;
  gr_new p : p ∈ l → h0 !! p = None;
  gr_old p : p ∉ l → nd_heap s !! p = h0 !! p;
  gr_tail : tail = last l;
  gr_next p : is_Some (nd_heap s !! p) → (p < nd_next s)%positive;
}.

(** A node is added to the list. *)
Lemma grown_snoc h0 l head s p h n t :
  grown h0 l head (last l) s → p = nd_next s → n = Pos.succ p →
  h = match last l with Some q => <[q := Some p]> (<[p := None]> (nd_heap s)) | None => <[p := None]> (nd_heap s) end →
  grown h0 (l ++ [p]) (match head with None => Some p | _ => head end) (Some p) (Nodes h n t).
Proof.
  intros [Hc Hnd Hnew Hold _ Hnext] -> -> ->. set (p := nd_next s).
  assert (nd_heap s !! p = None) as Hfree.
  { destruct (nd_heap s !! p) eqn:E; [|done]. specialize (Hnext p). rewrite E in Hnext.
    specialize (Hnext ltac:(eauto)). lia. }
  assert (p ∉ l) as Hpl by (intros Hp; destruct (node_list_in _ _ _ _ Hc Hp); congruence).
  assert (node_list (<[p := None]> (nd_heap s)) head l) as Hc' by (by apply node_list_insert).
  assert (NoDup (l ++ [p])) as Hnd'.
  { apply NoDup_app. split_and!; [done| |apply NoDup_singleton]. by intros x Hx ->%list_elem_of_singleton. }
  destruct l as [|q l _] using rev_ind.
  - simpl in *. subst head. split; simpl; [|done|..].
    + split; [done|]. exists None. by rewrite lookup_insert_eq.
    + intros x ->%list_elem_of_singleton. rewrite <- Hold by set_solver. done.
    + intros x Hx. rewrite lookup_insert_ne by set_solver. apply Hold. set_solver.
    + done.
    + intros x. rewrite lookup_insert_is_Some. intros [->|[_ Hx%Hnext]]; lia.
  - rewrite last_snoc. destruct head as [hd|]; [|by destruct l; destruct Hc].
    assert (is_Some (nd_heap s !! q)) as Hq by (eapply node_list_in; [exact Hc|set_solver]).
    split; cbn [nd_heap nd_next].
    + apply node_list_snoc; [done|done|done|by rewrite lookup_insert_eq].
    + done.
    + intros x [Hx| ->%list_elem_of_singleton]%elem_of_app; [by apply Hnew|]. by rewrite <- Hold.
    + intros x Hx. rewrite !lookup_insert_ne by set_solver. apply Hold. set_solver.
    + by rewrite last_snoc.
    + intros x. rewrite !lookup_insert_is_Some. intros [->|[_ [->|[_ Hx%Hnext]]]]; [|lia|lia].
      apply Hnext in Hq. lia.
Qed.

Lemma create_ok h0 l head tail s :
  grown h0 l head tail s →
  wp (socket_info_create tail) (λ o s', match o with
    | Some p => grown h0 (l ++ [p]) (match head with None => Some p | _ => head end) (Some p) s'
    | None => grown h0 l head tail s'
    end) s.
Proof.
  intros Hg. pose proof (gr_tail _ _ _ _ _ Hg) as ->. unfold socket_info_create. apply wp_bind.
  unfold wp at 1, new_node. set (p := nd_next s).
  destruct (node_alloc (nd_time s)); destruct (last l) as [q|] eqn:Hq.
  - assert (is_Some (nd_heap s !! q)) as [next Hn].
    { eapply node_list_in; [apply Hg|]. by apply last_Some_elem_of. }
    apply wp_bind. unfold wp at 1, set_next. simpl.
    assert (q ≠ p) as Hqp.
    { intros ->. assert (p < p)%positive; [|lia]. apply (gr_next _ _ _ _ _ Hg). rewrite Hn. eauto. }
    rewrite lookup_insert_ne, Hn by done. apply wp_ret. rewrite <- Hq in Hg.
    by apply (grown_snoc h0 l head s); [..|rewrite Hq].
  - apply wp_ret. rewrite <- Hq in Hg. by apply (grown_snoc h0 l head s); [..|rewrite Hq].
  - apply last_Some in Hq as [l' ->]. pose proof (gr_chain _ _ _ _ _ Hg) as Hc. apply node_list_last in Hc.
    apply wp_bind. unfold wp at 1, set_next. simpl. rewrite Hc. apply wp_ret.
    destruct Hg as [H1 H2 H3 H4 H5 H6]. split; simpl; rewrite ?insert_id by done; done.
  - apply wp_ret. destruct Hg as [H1 H2 H3 H4 H5 H6]. by split.
Qed.

Lemma create_all_ok n h0 l head tail s :
  grown h0 l head tail s →
  wp (create_all n head tail) (λ o s', ∃ l' tail', grown h0 l' o tail' s') s.
Proof.
  induction n as [|n IH] in l, head, tail, s |- *; intros Hg; cbn [create_all].
  { apply wp_ret. eauto. }
  apply wp_bind. eapply wp_mono; [by apply create_ok|]. intros [p|] s' Hg'; [by eapply IH|].
  apply wp_ret. eauto.
Qed.

Lemma release_ok fuel head l s :
  node_list (nd_heap s) head l → NoDup l → (length l ≤ fuel)%nat →
  wp (socket_info_release fuel head) (λ _ s', ∀ p, nd_heap s' !! p = if decide (p ∈ l) then None else nd_heap s !! p) s.
Proof.
  induction l as [|x l IH] in fuel, head, s |- *; intros Hc Hnd Hfuel.
  { simpl in Hc. subst. destruct fuel; apply wp_ret; intros p; by rewrite decide_False by set_solver. }
  destruct Hc as (-> & next & Hx & Hc). apply NoDup_cons in Hnd as [Hxl Hnd].
  destruct fuel as [|fuel]; [simpl in Hfuel; lia|]. cbn [socket_info_release].
  apply wp_bind. unfold wp at 1, get_next. rewrite Hx. apply wp_bind. unfold wp at 1, free_node. rewrite Hx.
  eapply wp_mono; [apply IH; [by apply node_list_delete|done|simpl in Hfuel; lia]|]. intros [] s' Hs' p.
  rewrite Hs'. simpl. destruct (decide (p = x)) as [->|Hne].
  - rewrite lookup_delete_eq, (decide_True (P := x ∈ x :: l)) by set_solver. by destruct (decide _).
  - rewrite lookup_delete_ne by done. destruct (decide (p ∈ l)).
    + by rewrite decide_True by set_solver.
    + by rewrite decide_False by set_solver.
Qed.

(** The list that a call of [socket_server_info] makes is released whole, and
    nothing else: the nodes are afterwards those there were before. *)
Lemma info_list_released n s :
  (∀ p, is_Some (nd_heap s !! p) → (p < nd_next s)%positive) →
  wp (create_all n None None) (λ head s1, ∃ l, node_list (nd_heap s1) head l ∧ NoDup l ∧
    (∀ p, p ∈ l → nd_heap s !! p = None) ∧
    ∀ fuel, (length l ≤ fuel)%nat →
      wp (socket_info_release fuel head) (λ _ s2, nd_heap s2 = nd_heap s) s1) s.
Proof.
  intros Hn. eapply wp_mono; [apply (create_all_ok n (nd_heap s) []); split; try done; [constructor|set_solver]|].
  intros head s1 (l & tail & [Hc Hnd Hnew Hold _ _]). exists l. split_and!; [done..|]. intros fuel Hf.
  eapply wp_mono; [by apply release_ok|]. intros [] s2 Hs2. apply map_eq. intros p. rewrite Hs2.
  destruct (decide (p ∈ l)) as [Hp|Hp]; [by rewrite Hnew|by apply Hold].
Qed.

End nodes.
