(* ===== verification/SocketServer.v ===== *)
(** * Skynet's socket server on the runtime

    src/src/socket/socket_server_compat.c: the functions of Skynet's
    socket_server.h on top of the runtime.  The layer owns the protocol of
    Skynet's send buffers, plain memory, objects with an interface of callbacks,
    and memory it must not release, and it translates the events of the runtime
    into messages.  A [struct socket_server *] that is NULL is not modelled:
    every function returns at once on it. *)
From S2P Require Import Prelude SocketId Fifo SocketTypes CommandQueue RuntimeState Entries.
From S2P Require Import Invariant Rules Handled Slots Udp Writes Connections Lifecycle Runtime.
From S2P Require Import Loop Steps Safety Scripts SocketInterface.

(** ** State *)

(** [struct socket_object_interface]: the callbacks may be NULL; [oi_buffer] and
    [oi_size] are the application's functions of an object, given as the block
    at its address. *)
Record socket_object_interface := ObjectInterface {
  oi_buffer : option (buffer → list Z);
  oi_size : option (buffer → Z);
  oi_free : bool;
}.

(** The types of [struct socket_sendbuffer] the source tells apart. *)
Inductive sendbuffer_type :=
| SOCKET_BUFFER_MEMORY
| SOCKET_BUFFER_OBJECT
| SOCKET_BUFFER_OTHER.  (** any other value: memory that is not released *)

Record socket_sendbuffer := SendBuffer {
  sb_id : Z;
  sb_type : sendbuffer_type;
  sb_buffer : option buffer;
  sb_sz : Z;
}.

(** [struct socket_server].  The last three are not in the struct: the blocks
    this layer passed to [skyuv_free], the objects it passed to the interface's
    [free], and its calls into Skynet. *)
Inductive skynet_call := ReopenLog | RetireAll.

Record socket_server := Server {
  sv_runtime : skyuv_socket_runtime;
  sv_interface : socket_object_interface;
  sv_freed : list buffer;
  sv_objects : list buffer;
  sv_calls : list skynet_call;
}.

Definition eta_server (v : socket_server) : socket_server :=
  Server (sv_runtime v) (sv_interface v) (sv_freed v) (sv_objects v) (sv_calls v).
#[export] Instance set_sv_runtime : Setter sv_runtime := ltac:(mk_setter eta_server).
#[export] Instance set_sv_interface : Setter sv_interface := ltac:(mk_setter eta_server).
#[export] Instance set_sv_freed : Setter sv_freed := ltac:(mk_setter eta_server).
#[export] Instance set_sv_objects : Setter sv_objects := ltac:(mk_setter eta_server).
#[export] Instance set_sv_calls : Setter sv_calls := ltac:(mk_setter eta_server).

Notation V := (M socket_server).

(** [struct socket_message]: what [data] points to is a block or the text of an
    error code. *)
Inductive message_data :=
| MessageBlock (data : option buffer)
| MessageError (code : Z).  (** [uv_strerror(code)] *)

Record socket_message := Message {
  msg_id : Z;
  msg_opaque : Z;
  msg_ud : Z;
  msg_data : message_data;
}.

Section server.
Context {cfg : SlotConfig} {env : Env}.

(** A call of the runtime. *)
Definition on_runtime {A} (m : R A) : V A :=
  zoom sv_runtime (λ r v, v <| sv_runtime := r |>) m.

(** ** Sending *)

(** [skyuv_malloc] and [memcpy]. *)
Definition copy_block (bytes : list Z) : V (option buffer) :=
  ok ← on_runtime alloc;
  if ok : bool then p ← on_runtime new_ptr; mret (Some (Buffer p bytes)) else mret None.

Definition skyuv_free (b : buffer) : V unit := modify (λ v, v <| sv_freed ::= λ l, l ++ [b] |>).

Definition release_sendbuffer (b : buffer) (type : sendbuffer_type) : V unit :=
  match type with
  | SOCKET_BUFFER_MEMORY => skyuv_free b
  | SOCKET_BUFFER_OBJECT =>
      interface ← gets sv_interface;
      whenM (oi_free interface) (modify (λ v, v <| sv_objects ::= λ l, l ++ [b] |>))
  | SOCKET_BUFFER_OTHER => skip
  end.

(** The common part of [send_buffer] and [socket_server_udp_send]: [send] is
    the call of the runtime, for a block, its size and its ownership. *)
Definition send_block (buffer : socket_sendbuffer) (b : SocketTypes.buffer)
    (send : SocketTypes.buffer → Z → skyuv_socket_buffer_ownership → R Z) : V Z :=
  match sb_type buffer with
  | SOCKET_BUFFER_OBJECT =>
      interface ← gets sv_interface;
      match oi_buffer interface, oi_size interface, oi_free interface with
      | Some data, Some size, true =>
          copy ← copy_block (take (Z.to_nat (size b)) (data b));
          match copy with
          | None => release_sendbuffer b (sb_type buffer) ;; mret (-1)
          | Some copy =>
              release_sendbuffer b (sb_type buffer) ;;
              result ← on_runtime (send copy (size b) SKYUV_SOCKET_BUFFER_OWNED);
              whenM (negb (result =? SKYUV_OK)) (skyuv_free copy) ;;
              mret (if result =? SKYUV_OK then 0 else -1)
          end
      | _, _, _ => mret (-1)
      end
  | type =>
      result ← on_runtime (send b (sb_sz buffer)
        match type with
        | SOCKET_BUFFER_MEMORY => SKYUV_SOCKET_BUFFER_OWNED
        | _ => SKYUV_SOCKET_BUFFER_BORROWED
        end);
      whenM (negb (result =? SKYUV_OK) &&
             match type with SOCKET_BUFFER_MEMORY => true | _ => false end)
        (release_sendbuffer b type) ;;
      mret (if result =? SKYUV_OK then 0 else -1)
  end.

Definition send_buffer (buffer : option socket_sendbuffer) (low_priority : bool) : V Z :=
  match buffer with
  | None => mret (-1)
  | Some buffer =>
      match sb_buffer buffer with
      | None => mret (-1)
      | Some b =>
          send_block buffer b (λ data size ownership,
            if low_priority
            then skyuv_socket_runtime_send_low (sb_id buffer) (Some data) size ownership None
            else skyuv_socket_runtime_send (sb_id buffer) (Some data) size ownership None)
      end
  end.

Definition socket_server_send (buffer : option socket_sendbuffer) : V Z := send_buffer buffer false.

Definition socket_server_send_lowpriority (buffer : option socket_sendbuffer) : V Z :=
  send_buffer buffer true.

(** [encoded[0] == 1U ? 7U : (encoded[0] == 2U ? 19U : 0U)]. *)
Definition encoded_size (encoded : list Z) : Z :=
  let tag := default 0 (encoded !! 0%nat) in
  if tag =? 1 then 7 else if tag =? 2 then 19 else 0.

Definition socket_server_udp_send (address : option (list Z)) (buffer : option socket_sendbuffer) :
    V Z :=
  match buffer, address with
  | Some buffer, Some encoded =>
      match sb_buffer buffer with
      | None => mret (-1)
      | Some b =>
          let address_size := encoded_size encoded in
          if address_size =? 0 then release_sendbuffer b (sb_type buffer) ;; mret (-1)
          else
            send_block buffer b (λ data size ownership,
              skyuv_socket_runtime_udp_send (sb_id buffer) (Some encoded) address_size
                (Some data) size ownership None)
      end
  | _, _ => mret (-1)
  end.

(** ** Opening and controlling sockets *)

Definition id_or_minus_one (r : Z * option Z) : Z :=
  match r with
  | (result, Some id) => if result =? SKYUV_OK then id else -1
  | (_, None) => -1
  end.

Definition socket_server_listen (opaque : Z) (address : option string) (port backlog : Z) : V Z :=
  r ← on_runtime (skyuv_socket_runtime_listen address port backlog opaque true);
  mret (id_or_minus_one r).

Definition socket_server_connect (opaque : Z) (address : option string) (port : Z) : V Z :=
  r ← on_runtime (skyuv_socket_runtime_connect address port opaque true);
  mret (id_or_minus_one r).

Definition socket_server_bind (opaque fd : Z) : V Z :=
  r ← on_runtime (skyuv_socket_runtime_bind fd opaque true);
  mret (id_or_minus_one r).

Definition socket_server_udp (opaque : Z) (address : option string) (port : Z) : V Z :=
  r ← on_runtime (skyuv_socket_runtime_udp address port opaque true);
  mret (id_or_minus_one r).

Definition socket_server_udp_connect (id : Z) (address : option string) (port : Z) : V Z :=
  result ← on_runtime (skyuv_socket_runtime_udp_connect id address port);
  mret (if result =? SKYUV_OK then 0 else -1).

(** [strchr(address, ':') != NULL]. *)
Definition has_colon (address : string) : bool :=
  match String.index 0 ":" address with Some _ => true | None => false end.

Definition socket_server_udp_dial (opaque : Z) (address : option string) (port : Z) : V Z :=
  id ← socket_server_udp opaque
    (if from_option has_colon false address then Some "::"%string else None) 0;
  if id <? 0 then mret (-1)
  else
    connected ← socket_server_udp_connect id address port;
    if negb (connected =? 0) then mret (-1) else mret id.

Definition socket_server_udp_listen (opaque : Z) (address : option string) (port : Z) : V Z :=
  socket_server_udp opaque address port.

Definition socket_server_exit : V unit := on_runtime skyuv_socket_runtime_exit ;; skip.

Definition socket_server_close (opaque id : Z) : V unit :=
  on_runtime (skyuv_socket_runtime_close id opaque) ;; skip.

Definition socket_server_shutdown (opaque id : Z) : V unit :=
  on_runtime (skyuv_socket_runtime_shutdown id opaque) ;; skip.

Definition socket_server_start (opaque id : Z) : V unit :=
  on_runtime (skyuv_socket_runtime_start id opaque) ;; skip.

Definition socket_server_pause (opaque id : Z) : V unit :=
  on_runtime (skyuv_socket_runtime_pause id opaque) ;; skip.

Definition socket_server_nodelay (id : Z) : V unit :=
  on_runtime (skyuv_socket_runtime_nodelay id) ;; skip.

Definition socket_server_userobject (object_interface : option socket_object_interface) : V unit :=
  match object_interface with
  | None => skip
  | Some interface => modify (λ v, v <| sv_interface := interface |>)
  end.

(** [skyuv_skynet_reopen_log] and [skyuv_skynet_shutdown]. *)
Definition skynet (call : skynet_call) : V unit :=
  modify (λ v, v <| sv_calls ::= λ l, l ++ [call] |>).

Definition socket_server_updatetime (time : Z) : V unit :=
  on_runtime (skyuv_socket_runtime_updatetime time) ;;
  requested ← on_runtime skyuv_socket_runtime_take_process_shutdown;
  whenM requested (skynet RetireAll).

(** ** Polling *)

Inductive server_poll :=
| ServerWaiting                          (** the runtime has not returned *)
| ServerError                            (** [SOCKET_ERR] *)
| ServerMessage (type : skyuv_socket_event_type) (message : socket_message).

Definition carries_size (type : skyuv_socket_event_type) : bool :=
  match type with SKYUV_SOCKET_EVENT_DATA | SKYUV_SOCKET_EVENT_UDP => true | _ => false end.

Definition message_of (event : skyuv_socket_event) : socket_message := {|
  msg_id := ev_id event;
  msg_opaque := ev_opaque event;
  msg_ud := if carries_size (ev_type event) then i32 (ev_size event) else ev_value event;
  msg_data := match ev_type event with
              | SKYUV_SOCKET_EVENT_ERROR => MessageError (ev_value event)
              | _ => MessageBlock (ev_data event)
              end;
|}.

(** The [do ... while]; each call of the runtime's poll gets its own turns of
    the libuv loop. *)
Fixpoint socket_server_poll (polls : list (list loop_turn)) : V server_poll :=
  match polls with
  | [] => mret ServerWaiting
  | turns :: polls =>
      polled ← on_runtime (skyuv_socket_runtime_poll turns);
      match polled with
      | PollWaiting => mret ServerWaiting
      | PollError _ => mret ServerError
      | PollEvent event =>
          match ev_type event with
          | SKYUV_SOCKET_EVENT_REOPEN_LOG => skynet ReopenLog ;; socket_server_poll polls
          | SKYUV_SOCKET_EVENT_PROCESS_SHUTDOWN => socket_server_poll polls
          | type => mret (ServerMessage type (message_of event))
          end
      end
  end.

(** The address behind the payload of a UDP message, and its size.  A message
    whose data is the text of an error has a negative [ud]. *)
Definition socket_server_udp_address (message : option socket_message) : option (list Z) * Z :=
  match message with
  | Some (Message _ _ ud (MessageBlock (Some data))) =>
      if ud <? 0 then (None, 0)
      else
        let address := drop (Z.to_nat ud) (buf_bytes data) in
        let size := encoded_size address in
        (if size =? 0 then None else Some address, size)
  | _ => (None, 0)
  end.

(** ** Ownership *)

Implicit Types (v : socket_server).

Lemma wp_on_runtime {A} (m : R A) (Q : A → socket_server → Prop) v :
  wp m (λ a r, Q a (v <| sv_runtime := r |>)) (sv_runtime v) → wp (on_runtime m) Q v.
Proof. exact (wp_zoom sv_runtime (λ r v, v <| sv_runtime := r |>) m Q v). Qed.

Lemma idle_new_ptr s : Idle s → Idle (s <| rt_clock ::= S |> <| rt_next_ptr ::= Pos.succ |>).
Proof.
  intros Hid. apply (quiet_idle s); [done|]. split; [|done]. pose proof (st_inv _ (id_stable _ Hid)).
  same_tac.
Qed.

Lemma wp_copy_block bytes (Q : option buffer → socket_server → Prop) v :
  (env_alloc (rt_clock (sv_runtime v)) = false →
     Q None (v <| sv_runtime ::= λ r, r <| rt_clock ::= S |> |>)) →
  (env_alloc (rt_clock (sv_runtime v)) = true →
     Q (Some (Buffer (rt_next_ptr (sv_runtime v)) bytes))
       (v <| sv_runtime ::= λ r, r <| rt_clock ::= S |> <| rt_next_ptr ::= Pos.succ |> |>)) →
  wp (copy_block bytes) Q v.
Proof.
  intros HN HS. unfold copy_block. wp_step. apply wp_on_runtime. wp_step; [|wp_step; by apply HN].
  wp_step. apply wp_on_runtime. apply wp_new_ptr. by apply HS.
Qed.

Lemma wp_release_object b (Q : unit → socket_server → Prop) v :
  oi_free (sv_interface v) = true → Q tt (v <| sv_objects ::= λ l, l ++ [b] |>) →
  wp (release_sendbuffer b SOCKET_BUFFER_OBJECT) Q v.
Proof. intros Hf HQ. unfold release_sendbuffer. do 2 wp_step. rewrite Hf. by repeat wp_step. Qed.

(** What a send of the runtime promises for a block of either ownership. *)
Definition send_promise (send : buffer → Z → skyuv_socket_buffer_ownership → R Z) (id : Z) : Prop :=
  ∀ b size s, Idle s →
    wp (send b size SKYUV_SOCKET_BUFFER_OWNED)
      (λ result s', Idle s' ∧ owned_outcome id b s result s') s ∧
    wp (send b size SKYUV_SOCKET_BUFFER_BORROWED)
      (λ result s', Idle s' ∧ borrowed_outcome id
        (Buffer (rt_next_ptr s) (take (Z.to_nat size) (buf_bytes b))) s result s') s.

(** Who has the block [b] of a send buffer after a send with result 0 or -1:
    plain memory is the runtime's or has been released, an object has been given
    back and its copy is the runtime's or has been released, other memory is
    the caller's. *)
Definition block_settled (buffer : socket_sendbuffer) (b : SocketTypes.buffer) v (result : Z) v' :
    Prop :=
  let r := sv_runtime v in
  let r' := sv_runtime v' in
  match sb_type buffer with
  | SOCKET_BUFFER_MEMORY =>
      sv_objects v' = sv_objects v ∧
      if result =? 0 then rt_taken r' = rt_taken r ++ [b] ∧ sv_freed v' = sv_freed v
      else rt_taken r' = rt_taken r ∧ sv_freed v' = sv_freed v ++ [b]
  | SOCKET_BUFFER_OBJECT =>
      let i := sv_interface v in
      match oi_buffer i, oi_size i, oi_free i with
      | Some data, Some size, true =>
          let copy := Buffer (rt_next_ptr r) (take (Z.to_nat (size b)) (data b)) in
          sv_objects v' = sv_objects v ++ [b] ∧
          if env_alloc (rt_clock r) then
            if result =? 0 then rt_taken r' = rt_taken r ++ [copy] ∧ sv_freed v' = sv_freed v
            else rt_taken r' = rt_taken r ∧ sv_freed v' = sv_freed v ++ [copy]
          else result = -1 ∧ rt_taken r' = rt_taken r ∧ sv_freed v' = sv_freed v
      | _, _, _ => v' = v ∧ result = -1
      end
  | SOCKET_BUFFER_OTHER =>
      let copy := Buffer (rt_next_ptr r) (take (Z.to_nat (sb_sz buffer)) (buf_bytes b)) in
      sv_objects v' = sv_objects v ∧ sv_freed v' = sv_freed v ∧
      if result =? 0 then rt_taken r' = rt_taken r ++ [copy] ∧ rt_freed r' = rt_freed r
      else ∃ made, rt_taken r' = rt_taken r ++ made ∧ rt_freed r' = rt_freed r ++ made ∧
           (made = [] ∨ made = [copy])
  end.

Lemma send_block_settled buffer b send id v :
  Idle (sv_runtime v) → send_promise send id →
  wp (send_block buffer b send) (λ result v',
    Idle (sv_runtime v') ∧ (result = 0 ∨ result = -1) ∧ block_settled buffer b v result v') v.
Proof.
  intros Hid Hsend. unfold send_block, block_settled. destruct (sb_type buffer).
  - wp_step. apply wp_on_runtime. eapply wp_mono; [by apply (Hsend b)|].
    intros result s' [Hid' Ho]. unfold owned_outcome in Ho.
    destruct (result =? SKYUV_OK); cbn [negb andb].
    + do 2 wp_step; [done|]. wp_step. naive_solver.
    + do 2 wp_step; [|done]. unfold release_sendbuffer, skyuv_free. wp_steps. naive_solver.
  - do 2 wp_step. destruct (oi_buffer (sv_interface v)) as [data|], (oi_size (sv_interface v)) as [size|];
      try (wp_step; by auto). destruct (oi_free (sv_interface v)) eqn:Hf; [|wp_step; by auto].
    wp_step. apply wp_copy_block; intros Hal; rewrite Hal.
    + wp_step. apply wp_release_object; [done|]. wp_step.
      split_and!; [by apply idle_clock|by right|done|done|done|done].
    + wp_step. apply wp_release_object; [done|]. wp_step. apply wp_on_runtime. eapply wp_mono; [apply Hsend; by apply idle_new_ptr|].
      intros result s' [Hid' Ho]. unfold owned_outcome in Ho.
      destruct (result =? SKYUV_OK); cbn [negb].
      * do 2 wp_step; [done|]. wp_step. naive_solver.
      * do 2 wp_step; [|done]. unfold skyuv_free. wp_steps. naive_solver.
  - wp_step. apply wp_on_runtime. eapply wp_mono; [by apply (Hsend b)|].
    intros result s' [Hid' Ho]. unfold borrowed_outcome in Ho.
    destruct (result =? SKYUV_OK); cbn [negb andb]; (do 2 wp_step; [done|]; wp_step).
    + naive_solver.
    + split_and!; [done|by right|done|done|]. apply Ho.
Qed.

Lemma send_buffer_promise (low : bool) id :
  send_promise (λ data size ownership,
    if low then skyuv_socket_runtime_send_low id (Some data) size ownership None
    else skyuv_socket_runtime_send id (Some data) size ownership None) id.
Proof.
  intros b size s Hid. split; destruct low;
    first [by apply runtime_send_owned | by apply runtime_send_borrowed].
Qed.

Lemma udp_send_promise id address address_size :
  send_promise (λ data size ownership,
    skyuv_socket_runtime_udp_send id address address_size (Some data) size ownership None) id.
Proof.
  intros b size s Hid.
  split; (apply wp_and; [eapply wp_mono; [by apply udp_send_idle|]; by intros ? ? [? _]|]);
    unfold skyuv_socket_runtime_udp_send; wp_step.
  - by wp_step.
  - by apply submit_send_owned.
  - wp_step. by apply (borrowed_nothing id).
  - by apply submit_send_borrowed.
Qed.

(** A buffer whose datagram has no address: released once, if it can be. *)
Definition block_released (buffer : socket_sendbuffer) (b : SocketTypes.buffer) v v' : Prop :=
  sv_runtime v' = sv_runtime v ∧
  match sb_type buffer with
  | SOCKET_BUFFER_MEMORY => sv_objects v' = sv_objects v ∧ sv_freed v' = sv_freed v ++ [b]
  | SOCKET_BUFFER_OBJECT => sv_freed v' = sv_freed v ∧
      sv_objects v' = sv_objects v ++ if oi_free (sv_interface v) then [b] else []
  | SOCKET_BUFFER_OTHER => v' = v
  end.

Lemma release_sendbuffer_released buffer b v :
  wp (release_sendbuffer b (sb_type buffer)) (λ _ v', block_released buffer b v v') v.
Proof.
  unfold release_sendbuffer, block_released, skyuv_free. destruct (sb_type buffer); wp_steps; try done.
  - by rewrite H.
  - by rewrite H, app_nil_r.
Qed.

(** C13 The ownership of Skynet's send buffers, for a TCP send of either priority
    and for a datagram: after the call, whatever its result, plain memory is
    the runtime's (result 0) or has been released once (result -1); an object
    has been given back to its interface once, and its copy, if there was memory
    for one, is the runtime's (0) or has been released once (-1); other memory
    is never released.  A datagram whose address has no known family is refused
    and its buffer released once.  An object whose interface is incomplete is
    refused and left as it is.  The runtime keeps its invariant. *)
Theorem server_send_contract v buffer b low address :
  Idle (sv_runtime v) → sb_buffer buffer = Some b →
  wp (send_buffer (Some buffer) low) (λ result v',
    Idle (sv_runtime v') ∧ (result = 0 ∨ result = -1) ∧ block_settled buffer b v result v') v ∧
  wp (socket_server_udp_send (Some address) (Some buffer)) (λ result v',
    Idle (sv_runtime v') ∧ (result = 0 ∨ result = -1) ∧
    if bool_decide (address !! 0%nat ∈ [Some 1; Some 2]) then block_settled buffer b v result v'
    else result = -1 ∧ block_released buffer b v v') v.
Proof.
  intros Hid Hb. unfold send_buffer, socket_server_udp_send. rewrite Hb. split.
  { eapply send_block_settled; [done|apply send_buffer_promise]. }
  case_bool_decide as Hf.
  - rewrite (proj2 (Z.eqb_neq (encoded_size address) 0)).
    { eapply send_block_settled; [done|apply udp_send_promise]. }
    unfold encoded_size. rewrite !elem_of_cons in Hf.
    destruct Hf as [-> |[-> |[]%elem_of_nil]]; done.
  - assert (encoded_size address = 0) as ->.
    { unfold encoded_size. destruct (address !! 0%nat) as [tag|]; [|done]. simpl.
      destruct (Z.eqb_spec tag 1) as [->|]; [by destruct Hf; left|].
      destruct (Z.eqb_spec tag 2) as [->|]; [by destruct Hf; right; left|done]. }
    cbn [Z.eqb]. wp_step. eapply wp_mono; [apply release_sendbuffer_released|].
    intros [] v' Hrel. wp_step. split_and!; [|by right|done|done]. by rewrite (proj1 Hrel).
Qed.

(** ** Messages *)

(** Events the layer keeps to itself. *)
Definition internal_event (event : skyuv_socket_event) : bool :=
  match ev_type event with
  | SKYUV_SOCKET_EVENT_REOPEN_LOG | SKYUV_SOCKET_EVENT_PROCESS_SHUTDOWN => true
  | _ => false
  end.

(** The calls into Skynet for the events that were skipped. *)
Definition skipped_calls (events : list skyuv_socket_event) : list skynet_call :=
  omap (λ event, match ev_type event with
                 | SKYUV_SOCKET_EVENT_REOPEN_LOG => Some ReopenLog
                 | _ => None
                 end) events.

(** The signal watchers run: polling reaches the events. *)
Definition watching (s : skyuv_socket_runtime) : Prop :=
  rt_process_signals_initialized s = true ∧ rt_process_signals_failed s = false.

(** The runtime after its oldest event is handed out. *)
Definition handed_out (event : skyuv_socket_event) (rest : list skyuv_socket_event)
    (s : skyuv_socket_runtime) : skyuv_socket_runtime :=
  s <| rt_events := rest |> <| rt_delivered ::= λ l, l ++ option_list (ev_data event) |>.

Lemma wp_poll_ready turns event rest (Q : poll_result → skyuv_socket_runtime → Prop) s :
  watching s → rt_events s = event :: rest → Q (PollEvent event) (handed_out event rest s) →
  wp (skyuv_socket_runtime_poll turns) Q s.
Proof.
  intros [Hi Hf] Hev HQ. unfold skyuv_socket_runtime_poll, initialize_process_signals, loop_has_work.
  do 3 wp_step. rewrite Hi. do 2 wp_step. rewrite Hf. do 2 wp_step; [|done].
  wp_step. apply (wp_mono _ (λ r s', r = Some SKYUV_OK ∧ s' = s)).
  - destruct turns; cbn [poll_wait]; unfold loop_has_work; do 2 wp_step; rewrite Hev; by wp_step.
  - intros ? ? [-> ->]. cbv beta match. wp_step; [|done]. unfold poll_take. do 2 wp_step.
    rewrite Hev. by do 4 wp_step.
Qed.

(** Polling for Skynet: the message is the oldest event that is not internal,
    translated; the log is reopened once for every request before it, requests
    to shut down before it are passed over, and the later events stay, in
    order. *)
Theorem server_poll_translates v before event rest polls :
  watching (sv_runtime v) → rt_events (sv_runtime v) = before ++ event :: rest →
  Forall (λ ev, internal_event ev = true) before → internal_event event = false →
  (length before < length polls)%nat →
  wp (socket_server_poll polls) (λ result v',
    result = ServerMessage (ev_type event) (message_of event) ∧
    rt_events (sv_runtime v') = rest ∧ sv_calls v' = sv_calls v ++ skipped_calls before) v.
Proof.
  intros Hw Hev Hbefore He Hlen.
  induction before as [|ev before IH] in v, polls, Hw, Hev, Hbefore, Hlen |- *;
    (destruct polls as [|turns polls]; [simpl in Hlen; lia|]); cbn [socket_server_poll];
    wp_step; apply wp_on_runtime; (eapply wp_poll_ready; [done|done|]).
  - unfold internal_event in He. cbv beta match. simpl app in *.
    destruct (ev_type event) eqn:Ht; try done; wp_step; by rewrite app_nil_r.
  - apply Forall_cons in Hbefore as [Hin Hbefore]. simpl in Hlen. unfold internal_event in Hin.
    cbv beta match. destruct (ev_type ev) eqn:Ht; try done.
    + wp_step. unfold skynet. wp_step.
      eapply wp_mono; [apply (IH _ polls); [done|done|done|lia]|].
      intros result v' (Hr & Hrest & Hcalls). split_and!; [done|done|].
      rewrite Hcalls. simpl. rewrite Ht. by rewrite <- app_assoc.
    + eapply wp_mono; [apply (IH _ polls); [done|done|done|lia]|].
      intros result v' (Hr & Hrest & Hcalls). split_and!; [done|done|].
      rewrite Hcalls. simpl. by rewrite Ht.
Qed.

End server.

(** ** Concrete runs *)

#[local] Open Scope string_scope.
#[local] Open Scope list_scope.
#[local] Open Scope Z_scope.
#[local] Existing Instance small_slots.
#[local] Existing Instance good_env.

Definition no_interface : socket_object_interface := ObjectInterface None None false.

(** A server on the runtime a script ends in. *)
Definition served (script : list action) : socket_server :=
  Server (played script) no_interface [] [] [].

Lemma server_send_contract_witness :
  wp (send_buffer (Some (SendBuffer 4 SOCKET_BUFFER_MEMORY (Some ex_data) 3)) false) (λ result v',
    if result =? 0 then rt_taken (sv_runtime v') = rt_taken (played sending_script) ++ [ex_data]
    else sv_freed v' = [ex_data]) (served sending_script).
Proof.
  set (buffer := SendBuffer 4 SOCKET_BUFFER_MEMORY (Some ex_data) 3).
  assert (Idle (sv_runtime (served sending_script))) as Hid by exact (played_idle _ sending_plays).
  destruct (server_send_contract (served sending_script) buffer ex_data false [] Hid eq_refl)
    as [Hwp _].
  eapply wp_mono; [exact Hwp|]. intros result v' (_ & _ & _ & H). cbv beta.
  destruct (result =? 0); apply H.
Defined.

(** A hang-up before the message of a new connection. *)
Definition signalled_script : list action :=
  [ DoSignals; DoCallback CbHangup; DoApi (ApiConnect (Some "127.0.0.1") 8080 7 true);
    DoCallback CbAsync; DoCallback (CbConnect 1 0) ].

Definition hangup_event : skyuv_socket_event :=
  plain_event SKYUV_SOCKET_EVENT_REOPEN_LOG 0 0 0.

Definition open_event : skyuv_socket_event := plain_event SKYUV_SOCKET_EVENT_OPEN 4 7 0.

Lemma server_poll_translates_witness :
  wp (socket_server_poll [[]; []]) (λ result v',
    result = ServerMessage SKYUV_SOCKET_EVENT_OPEN (Message 4 7 0 (MessageBlock None)) ∧
    sv_calls v' = [ReopenLog]) (served signalled_script).
Proof.
  eapply wp_mono; [apply (server_poll_translates (served signalled_script) [hangup_event]
    open_event []);
    [split; vm_compute; reflexivity|vm_compute; reflexivity|by repeat constructor|reflexivity|simpl; lia]|].
  intros result v' (-> & _ & ->). done.
Defined.

(** The outcome of a call of the server and of the callback it wakes. *)
Definition dial_leftovers (port : Z) : option (Z * list skyuv_socket_state) :=
  match (id ← socket_server_udp_dial 7 (Some "127.0.0.1") port;
         on_runtime (run_callback CbAsync) ;; mret id)
    (Server fresh_runtime no_interface [] [] []) with
  | Ret id v => Some (id, (λ e, e_state e.2) <$> map_to_list (rt_entries (sv_runtime v)))
  | Fault _ => None
  end.

(** [socket_server_udp_dial] leaks: when the address of the peer is refused
    it reports failure, and the UDP socket it has opened for it stays open,
    although nobody has its id. *)
Theorem udp_dial_leaks_socket :
  dial_leftovers 70000 = Some (-1, [SKYUV_SOCKET_STATE_UDP]) ∧
  dial_leftovers 9000 = Some (4, [SKYUV_SOCKET_STATE_UDP]).
Proof. vm_compute. done. Qed.
