(* ===== verification/RuntimeLife.v ===== *)
(** * Creation and release of the socket runtime

    [skyuv_socket_runtime_create] and [_release] of
    src/src/socket/socket_internal.c and [socket_server_create] and [_release] of
    src/src/socket/socket_server_compat.c.  The state is the runtime and the list
    of what it holds outside its own structure. *)
From S2P Require Import Prelude SocketId Fifo SocketTypes CommandQueue RuntimeState Entries.
From S2P Require Import Udp Writes Connections Runtime.

(** ** State *)

(** The blocks, the loop and the mutex that a runtime owns; the mutex of its
    queue and its handles are part of the runtime, and the last is the block of
    the server of Skynet. *)
Inductive resource :=
| RuntimeBlock
| SlotsArray
| GenerationsArray
| EventLoop
| SlotsMutex
| ServerBlock.

#[export] Instance resource_eq_dec : EqDecision resource.
Proof. solve_decision. Defined.

Record life := Life {
  li_held : list resource;
  li_runtime : skyuv_socket_runtime;
}.

Definition eta_life (l : life) : life := Life (li_held l) (li_runtime l).
#[export] Instance set_li_held : Setter li_held := ltac:(mk_setter eta_life).
#[export] Instance set_li_runtime : Setter li_runtime := ltac:(mk_setter eta_life).

(** Whether an allocation succeeds, and the results of the initialisations. *)
Class CreateEnv := {
  create_alloc : resource → bool;
  uv_loop_init : Z;
  queue_mutex_init : Z;
  slots_mutex_init : Z;
  uv_async_init : Z;
}.

(** The memory [calloc] returns. *)
Definition zero_runtime : skyuv_socket_runtime :=
  Runtime ∅ ∅ ∅ 0 0 false (CommandQueue false false [] false) [] [] HandleUninit
    (SignalWatcher false HandleUninit) (SignalWatcher false HandleUninit)
    (SignalWatcher false HandleUninit) false false 0 false false 0 false 0 1 [] [] [] [].

Section life.
Context {cfg : SlotConfig} {env : Env} {create : CreateEnv}.
Local Notation L := (M life).

Definition on_runtime {A} (m : R A) : L A := zoom li_runtime (λ s l, l <| li_runtime := s |>) m.

Definition hold (r : resource) : L unit := modify (λ l, l <| li_held ::= cons r |>).

(** [free], [skyuv_mutex_destroy]: of what is held. *)
Definition dispose (r : resource) : L unit := λ l,
  if decide (r ∈ li_held l) then Ret tt (l <| li_held ::= filter (.≠ r) |>) else Fault UseAfterFree.

(** [calloc]: whether it returned a block. *)
Definition calloc (r : resource) : L bool :=
  whenM (create_alloc r) (hold r) ;; mret (create_alloc r).

(** [free] of a pointer that may be NULL. *)
Definition free_if (allocated : bool) (r : resource) : L unit := whenM allocated (dispose r).

(** [uv_loop_close], whose result is ignored: it closes a loop that has no
    handle left, and refuses with UV_EBUSY otherwise. *)
Definition uv_loop_close : L unit :=
  busy ← gets (λ l, bool_decide (rt_entries (li_runtime l) ≠ ∅) ||
                     bool_decide (rt_async (li_runtime l) = HandleActive));
  whenM (negb busy) (dispose EventLoop).

(** [skyuv_socket_command_queue_destroy], with the release of the buffers of the
    commands that are left. *)
Definition destroy_commands : R unit :=
  buffers ← on_queue skyuv_socket_command_queue_destroy;
  modify (λ s, s <| rt_freed ::= λ l, l ++ buffers |>).

(** ** Creation *)

(** The three blocks, given back in the order of every error path. *)
Definition free_blocks : L unit :=
  dispose SlotsArray ;; dispose GenerationsArray ;; dispose RuntimeBlock.

(** [out] and [existing]: the pointer is not NULL, and it points to a runtime.
    The result is the code and whether the pointer was set. *)
Definition skyuv_socket_runtime_create (out existing : bool) : L (Z * bool) :=
  if negb out || existing then mret (SKYUV_ERROR_INVALID_ARGUMENT, false)
  else
    created ← calloc RuntimeBlock;
    if negb created then mret (SKYUV_ERROR_OUT_OF_MEMORY, false)
    else
      on_runtime (modify (λ _, zero_runtime)) ;;
      slots ← calloc SlotsArray;
      generations ← calloc GenerationsArray;
      if negb slots || negb generations then
        free_if slots SlotsArray ;; free_if generations GenerationsArray ;; dispose RuntimeBlock ;;
        mret (SKYUV_ERROR_OUT_OF_MEMORY, false)
      else if negb (uv_loop_init =? 0) then free_blocks ;; mret (SKYUV_ERROR_SYSTEM, false)
      else
        hold EventLoop ;;
        result ← on_runtime (on_queue (skyuv_socket_command_queue_init queue_mutex_init));
        if negb (result =? SKYUV_OK) then uv_loop_close ;; free_blocks ;; mret (result, false)
        else if negb (slots_mutex_init =? SKYUV_OK) then
          on_runtime destroy_commands ;; uv_loop_close ;; free_blocks ;;
          mret (slots_mutex_init, false)
        else
          hold SlotsMutex ;;
          if negb (uv_async_init =? 0) then
            dispose SlotsMutex ;; on_runtime destroy_commands ;; uv_loop_close ;; free_blocks ;;
            mret (SKYUV_ERROR_SYSTEM, false)
          else
            on_runtime (modify (λ s, s <| rt_async := HandleActive |>)) ;;
            on_runtime (modify (λ s, s <| rt_process_shutdown_requested := 0 |>)) ;;
            mret (SKYUV_OK, true).

(** The result: whether there is a server. *)
Definition socket_server_create : L bool :=
  server ← calloc ServerBlock;
  if negb server then mret false
  else
    '(result, _) ← skyuv_socket_runtime_create true false;
    if negb (result =? SKYUV_OK) then dispose ServerBlock ;; mret false else mret true.

(** ** Release *)

(** The body of the loop over the slots. *)
Definition release_slot (slot : Z) : R unit :=
  entry ← gets (λ s, rt_slots s !! slot);
  match entry with
  | None => skip
  | Some p =>
      e ← deref p;
      if e_initialized e && negb (uv_is_closing (entry_handle e)) then
        set_entry_state p SKYUV_SOCKET_STATE_CLOSING ;;
        uv_close_entry p
      else if negb (e_initialized e) then
        modify (λ s, s <| rt_slots ::= delete slot |>) ;;
        free_entry p
      else skip
  end.

(** Everything that is done before the loop is run to its end. *)
Definition close_handles : R unit :=
  forM (counter SKYUV_SOCKET_SLOT_COUNT) release_slot ;;
  h ← gets rt_async;
  whenM (negb (uv_is_closing h)) close_async ;;
  close_process_signals.

(** [while (released->event_head != NULL)]. *)
Fixpoint free_events (events : list skyuv_socket_event) : R unit :=
  match events with
  | [] => modify (λ s, s <| rt_events := [] |>)
  | event :: events => free_buffer (ev_data event) ;; free_events events
  end.

(** What is done after [uv_run] has returned 0. *)
Definition free_runtime : L unit :=
  uv_loop_close ;;
  on_runtime destroy_commands ;;
  events ← gets (λ l, rt_events (li_runtime l));
  on_runtime (free_events events) ;;
  dispose SlotsMutex ;;
  free_blocks.

(** [callbacks] are those that [uv_run(&released->loop, UV_RUN_DEFAULT)] makes
    before it returns 0. *)
Definition skyuv_socket_runtime_release (callbacks : list uv_callback) : L unit :=
  on_runtime close_handles ;;
  on_runtime (forM callbacks run_callback) ;;
  free_runtime.

Definition socket_server_release (callbacks : list uv_callback) : L unit :=
  skyuv_socket_runtime_release callbacks ;;
  dispose ServerBlock.

End life.
