(* ===== verification/RuntimeRelease.v ===== *)
(** * The release of the socket runtime

    From every reachable state, [skyuv_socket_runtime_release] closes what is
    open, libuv makes a bounded number of callbacks, and then nothing is left. *)
From S2P Require Import Prelude SocketId Fifo SocketTypes CommandQueue RuntimeState Entries.
From S2P Require Import Invariant Rules Handled Slots Udp Writes Connections Lifecycle Runtime Loop.
From S2P Require Import Steps Safety Scripts RuntimeLife.

Section release.
Context {cfg : SlotConfig} {env : Env}.
Implicit Types (s : skyuv_socket_runtime) (e : skyuv_socket_entry) (p : positive).

(** ** Closing the handles *)

(** What holds while the slots are gone through: the entries in the slots [done]
    are closing.  The count of entries is not kept up. *)
Record closing_slots (done : list Z) s0 s : Prop := {
  cs_unlocked : rt_slots_locked s = false;
  cs_entry p e : rt_entries s !! p = Some e →
    rt_slots s !! skyuv_socket_id_slot (e_id e) = Some p ∧ entry_ok e;
  cs_slot i p : rt_slots s !! i = Some p →
    ∃ e, rt_entries s !! p = Some e ∧ skyuv_socket_id_slot (e_id e) = i;
  cs_balance b : balance b s = balance b s0;
  cs_done p e : rt_entries s !! p = Some e → skyuv_socket_id_slot (e_id e) ∈ done →
    e_state e = SKYUV_SOCKET_STATE_CLOSING;
  cs_loop : loop_of s = loop_of s0;
}.

Lemma closing_slots_start s : Inv s → closing_slots [] s s.
Proof.
  intros HI. pose proof HI as [Hl _ Ht]. split; try done.
  - intros p e Hp. split; [by eapply Inv_slot|by eapply Inv_ok].
  - apply (to_slot _ Ht).
  - intros p e _ []%not_elem_of_nil.
Qed.

(** Replacing the entry in a slot by one that is closing. *)
Lemma closing_slots_put done slot p e e' s0 s :
  closing_slots done s0 s → rt_entries s !! p = Some e → skyuv_socket_id_slot (e_id e) = slot →
  e_id e' = e_id e → entry_ok e' → e_state e' = SKYUV_SOCKET_STATE_CLOSING →
  entry_buffers e' = entry_buffers e → closing_slots (slot :: done) s0 (put p e' s).
Proof.
  intros [Hl He Hs Hb Hd Hlo] Hp Hi Hid Hok Hst Hbu. split; simpl; try done.
  - intros q f [[<- <-]|[_ Hq]]%lookup_insert_Some; [|by apply He]. rewrite Hid.
    split; [by apply (He p e)|done].
  - intros i q Hq. destruct (Hs i q Hq) as (f & Hf & Hfi). destruct (decide (p = q)) as [<-|].
    + exists e'. rewrite lookup_insert_eq, Hid. simplify_eq. done.
    + exists f. by rewrite lookup_insert_ne.
  - intros b. rewrite <- Hb. unfold balance. simpl. rewrite (entries_mentions_insert b _ p e e') by done.
    rewrite Hbu. lia.
  - intros q f [[<- <-]|[Hne Hq]]%lookup_insert_Some Hin; [done|].
    apply elem_of_cons in Hin as [Hin|Hin]; [|by eapply Hd]. destruct Hne.
    destruct (He p e Hp) as [Hp' _], (He q f Hq) as [Hq' _]. congruence.
Qed.

(** Removing an entry without writes with its slot. *)
Lemma closing_slots_delete done p e s0 s :
  closing_slots done s0 s → rt_entries s !! p = Some e → entry_buffers e = [] →
  closing_slots (skyuv_socket_id_slot (e_id e) :: done) s0
    (s <| rt_slots ::= delete (skyuv_socket_id_slot (e_id e)) |> <| rt_entries ::= delete p |>).
Proof.
  intros [Hl He Hs Hb Hd Hlo] Hp Hbu. destruct (He p e Hp) as [Hsl _].
  assert (∀ q f, rt_entries s !! q = Some f → p ≠ q →
    skyuv_socket_id_slot (e_id f) ≠ skyuv_socket_id_slot (e_id e)) as Hother.
  { intros q f Hq Hne Heq. destruct (He q f Hq) as [Hq' _]. congruence. }
  split; simpl; try done.
  - intros q f [Hne Hq]%lookup_delete_Some. destruct (He q f Hq) as [Hq' Hok].
    split; [|done]. rewrite lookup_delete_ne; [done|]. intros Heq. by eapply Hother.
  - intros i q [Hne Hq]%lookup_delete_Some. destruct (Hs i q Hq) as (f & Hf & <-). exists f.
    split; [|done]. rewrite lookup_delete_ne; [done|]. intros <-. congruence.
  - intros b. rewrite <- Hb. unfold balance. simpl.
    rewrite (entries_mentions_delete b (rt_entries s) p e) by done. rewrite Hbu. simpl. lia.
  - intros q f [Hne Hq]%lookup_delete_Some Hin. apply elem_of_cons in Hin as [Hin|Hin].
    + by destruct (Hother q f Hq Hne).
    + by eapply Hd.
Qed.

Lemma closing_slots_more done slot s0 s :
  closing_slots done s0 s →
  (∀ p e, rt_entries s !! p = Some e → skyuv_socket_id_slot (e_id e) = slot →
     e_state e = SKYUV_SOCKET_STATE_CLOSING) → closing_slots (slot :: done) s0 s.
Proof.
  intros [] Hs. split; try done. intros p e Hp [Hin|Hin]%elem_of_cons; eauto.
Qed.

Lemma release_slot_closing slot done s0 s :
  closing_slots done s0 s → wp (release_slot slot) (λ _ s', closing_slots (slot :: done) s0 s') s.
Proof.
  intros Hcs. pose proof Hcs as [Hl He Hs _ _ _]. unfold release_slot. do 2 wp_step.
  destruct (rt_slots s !! slot) as [p|] eqn:Hsl.
  2:{ wp_step. apply closing_slots_more; [done|]. intros p e Hp <-. destruct (He p e Hp). congruence. }
  destruct (Hs slot p Hsl) as (e & Hp & Hid). destruct (He p e Hp) as [_ Hok].
  pose proof (eo_core _ Hok) as Hc. do 2 wp_step. destruct (e_initialized e) eqn:Hi; simpl.
  - rewrite (closing_handle e Hc Hi). case_bool_decide as Hst; simpl.
    + wp_step. apply closing_slots_more; [done|]. intros q f Hq Hf. destruct (He q f Hq) as [Hq' _].
      rewrite Hf, Hsl in Hq'. by simplify_eq.
    + eapply wp_close_handle; [done|exact Hp|by apply open_handle|].
      destruct (closed_same e) as (? & _ & ? & ?).
      apply (closing_slots_put done slot p e); try done. by apply closed_ok.
  - destruct (uninitialized_reserved e Hc Hi) as [Hres Hu]. idle_facts e Hok Hres.
    do 2 wp_step. unfold free_entry, wp. simpl. rewrite Hp, <- Hid.
    by apply (closing_slots_delete done p e).
Qed.

Lemma release_slots_closing l done s0 s :
  closing_slots done s0 s →
  wp (forM l release_slot) (λ _ s', closing_slots (reverse l ++ done) s0 s') s.
Proof.
  revert done s. induction l as [|slot l IH]; intros done s Hcs; simpl; [by wp_step|].
  wp_step. eapply wp_mono; [by apply release_slot_closing|]. intros [] s1 Hcs1.
  rewrite reverse_cons, <- (assoc_L (++)). by apply IH.
Qed.

(** ** Running the loop to its end *)

(** A socket that libuv is closing. *)
Definition being_closed e : Prop :=
  e_state e = SKYUV_SOCKET_STATE_CLOSING ∧ entry_handle e = HandleClosing ∧
  e_tcp e ≠ HandleActive ∧ (is_Some (e_inflight e) → e_tcp e = HandleClosing).

Lemma closing_being_closed e :
  entry_ok e → e_state e = SKYUV_SOCKET_STATE_CLOSING → being_closed e.
Proof.
  intros Hok Hst. phase_facts Hok Hst. unfold being_closed, entry_handle.
  destruct (e_is_udp e) eqn:Hu; destruct_and?.
  - split_and!; [done|done|congruence|]. intros Hin.
    destruct (pending_tcp e Hok) as [? _]; [by right|congruence].
  - split_and!; [done|done|congruence|done].
Qed.

(** The callbacks that libuv owes for a socket, and for all of them. *)
Definition entry_pending e : nat :=
  S (Nat.b2n (e_connecting e) + length (option_list (e_inflight e)) + length (e_udp_inflight e)).

Definition pending s : nat := map_fold (λ _ e n, entry_pending e + n)%nat 0%nat (rt_entries s).

Lemma pending_delete (m : gmap positive skyuv_socket_entry) p e :
  m !! p = Some e →
  map_fold (λ _ e n, entry_pending e + n)%nat 0%nat m =
  (entry_pending e + map_fold (λ _ e n, entry_pending e + n)%nat 0%nat (delete p m))%nat.
Proof. intros Hp. apply (map_fold_delete_L (λ _ e n, entry_pending e + n)%nat); [|done]. intros. lia. Qed.

Record draining s : Prop := {
  dr_unlocked : rt_slots_locked s = false;
  dr_queue : queue_idle (rt_commands s);
  dr_balance b : balance b s = 0;
  dr_async : rt_async s = HandleClosing;
  dr_signals : sw_handle (rt_hangup s) ≠ HandleActive ∧
    sw_handle (rt_interrupt s) ≠ HandleActive ∧ sw_handle (rt_termination s) ≠ HandleActive;
  dr_entry p e : rt_entries s !! p = Some e →
    rt_slots s !! skyuv_socket_id_slot (e_id e) = Some p ∧ being_closed e;
}.

(** A socket that stays, with some of its buffers released. *)
Lemma draining_put p e e' bs s :
  draining s → rt_entries s !! p = Some e → e_id e' = e_id e → being_closed e' →
  (∀ b, mentions b (entry_buffers e') + mentions b bs = mentions b (entry_buffers e)) →
  let s' := (put p e' s) <| rt_freed ::= λ l, l ++ bs |> in
  draining s' ∧ (pending s + entry_pending e' = pending s' + entry_pending e)%nat.
Proof.
  intros [Hl Hq Hb Ha Hw He] Hp Hid Hbc Hbu s'. split; [split; simpl; try done|].
  - intros b. specialize (Hb b). specialize (Hbu b). unfold balance in *. simpl.
    rewrite (entries_mentions_insert b _ p e e'), mentions_app by done. lia.
  - intros q f [[<- <-]|[_ Hq']]%lookup_insert_Some; [|by apply He]. rewrite Hid.
    split; [by apply (He p e)|done].
  - unfold pending. simpl. rewrite (pending_delete _ p e) by done.
    rewrite (pending_delete (<[p := e']> _) p e') by apply lookup_insert_eq.
    rewrite delete_insert_eq. lia.
Qed.

(** One callback less. *)
Lemma draining_less p e e' bs s :
  draining s → rt_entries s !! p = Some e → e_id e' = e_id e → being_closed e' →
  (∀ b, mentions b (entry_buffers e') + mentions b bs = mentions b (entry_buffers e)) →
  entry_pending e = S (entry_pending e') →
  let s' := (put p e' s) <| rt_freed ::= λ l, l ++ bs |> in
  draining s' ∧ pending s = S (pending s').
Proof.
  intros Hd Hp Hid Hbc Hbu Hpe s'. destruct (draining_put p e e' bs s) as [Hd' Hp']; [done..|].
  split; [done|]. fold s' in Hp'. lia.
Qed.

(** The close callback, the last one. *)
Lemma draining_removed p e s :
  draining s → rt_entries s !! p = Some e → entry_buffers e = [] →
  draining (removed p e s) ∧ pending s = (entry_pending e + pending (removed p e s))%nat.
Proof.
  intros [Hl Hq Hb Ha Hw He] Hp Hbu. split; [split; simpl; try done|].
  - intros b. specialize (Hb b). unfold balance in *. simpl.
    rewrite (entries_mentions_delete b (rt_entries s) p e), Hbu in Hb by done. simpl in Hb. lia.
  - intros q f [Hne Hq']%lookup_delete_Some. destruct (He q f Hq') as [Hs Hbc]. split; [|done].
    rewrite lookup_delete_ne; [done|]. destruct (He p e Hp). congruence.
  - unfold pending. simpl. by rewrite (pending_delete _ p e).
Qed.

(** A callback that finds its socket closing. *)
Lemma drain_connect p status e s :
  draining s → rt_entries s !! p = Some e → e_connecting e = true →
  wp (run_callback (CbConnect p status)) (λ _ s', draining s' ∧ pending s = S (pending s')) s.
Proof.
  intros Hd Hp Hc. pose proof (dr_unlocked _ Hd) as Hl. destruct (dr_entry _ Hd p e Hp) as [_ Hbc].
  simpl. unfold connect_completed. do 4 wp_step. rewrite decide_True by apply Hbc. wp_step.
  assert (∀ s, s <| rt_freed ::= λ l, l ++ [] |> = s) as Hnil.
  { intros []. unfold upd_field, set_rt_freed. simpl. by rewrite app_nil_r. }
  rewrite <- (Hnil (put p _ s)). apply (draining_less p e); [done..| |].
  - intros b. simpl. unfold entry_buffers. simpl. lia.
  - unfold entry_pending. simpl. rewrite Hc. simpl. lia.
Qed.

Lemma drain_write p status w e s :
  draining s → rt_entries s !! p = Some e → e_inflight e = Some w → ¬ closes_twice e status →
  wp (run_callback (CbWrite p status)) (λ _ s', draining s' ∧ pending s = S (pending s')) s.
Proof.
  intros Hd Hp Hin Hct. pose proof (dr_unlocked _ Hd) as Hl.
  destruct (dr_entry _ Hd p e Hp) as [_ (Hst & Hh & Hta & Ht)].
  simpl. do 2 wp_step. rewrite Hin. unfold write_completed. do 6 wp_step.
  { apply andb_true_iff in H as [_ ?%bool_decide_eq_true]. done. }
  eapply wp_settle_closing; [done|lookup_tac|done|]. eapply wp_ended; [lookup_tac|done|done| |].
  { simpl. intros (? & ? & ?). apply Hct. split_and!; try done. by right. }
  unfold freed. rewrite put_put. apply (draining_less p e); [done|done|done| | |].
  - split_and!; try done. by intros [? ?].
  - intros b. unfold entry_buffers. simpl. rewrite Hin. simpl.
    rewrite !mentions_app, writes_buffers_one. simpl. lia.
  - unfold entry_pending. simpl. rewrite Hin. simpl. lia.
Qed.

Lemma drain_udp_write p index status w e s :
  draining s → rt_entries s !! p = Some e → e_udp_inflight e !! index = Some w →
  wp (run_callback (CbUdpWrite p index status))
    (λ _ s', draining s' ∧ pending s = S (pending s')) s.
Proof.
  intros Hd Hp Hw. pose proof (dr_unlocked _ Hd) as Hl.
  destruct (dr_entry _ Hd p e Hp) as [_ (Hst & Hh & Hta & Ht)].
  simpl. do 2 wp_step. rewrite Hw. unfold udp_write_completed. do 8 wp_step.
  { apply andb_true_iff in H as [_ ?%bool_decide_eq_true]. done. }
  do 3 wp_step. unfold freed. rewrite put_put.
  apply list_elem_of_split_length in Hw as (l1 & l2 & Hl12 & ->).
  apply (draining_less p e); [done|done|done|done| |].
  - intros b. unfold entry_buffers. simpl. rewrite Hl12, delete_middle.
    rewrite !mentions_app, !writes_buffers_app, !mentions_app.
    change (w :: l2) with ([w] ++ l2). rewrite writes_buffers_app, mentions_app, writes_buffers_one. lia.
  - unfold entry_pending. simpl. rewrite Hl12, delete_middle, !length_app. simpl. lia.
Qed.

Lemma drain_close p e s :
  draining s → rt_entries s !! p = Some e → e_connecting e = false → e_inflight e = None →
  e_udp_inflight e = [] →
  wp (run_callback (CbClose p)) (λ _ s', draining s' ∧ pending s = S (pending s')) s.
Proof.
  intros Hd Hp Hc Hi Hu. destruct (dr_entry _ Hd p e Hp) as [Hs Hbc].
  simpl. unfold close_entry. do 3 wp_step. apply wp_release_writes. do 3 wp_step.
  apply wp_release_writes. do 2 wp_step.
  set (e1 := e <| e_high := [] |>). set (e2 := e1 <| e_low := [] |>).
  destruct (draining_put p e e1 (writes_buffers (e_high e)) s) as [Hd1 Hp1]; [done..| |].
  { intros b. unfold entry_buffers. simpl. rewrite !mentions_app. simpl. lia. }
  set (s1 := (put p e1 s) <| rt_freed ::= _ |>) in *.
  destruct (draining_put p e1 e2 (writes_buffers (e_low e)) s1) as [Hd2 Hp2];
    [done|apply lookup_insert_eq|done|done| |].
  { intros b. unfold entry_buffers. simpl. rewrite !mentions_app. simpl. lia. }
  set (s2 := (put p e2 s1) <| rt_freed ::= _ |>) in *.
  destruct (draining_removed p e2 s2) as [Hd3 Hp3]; [done|apply lookup_insert_eq| |].
  { unfold entry_buffers. simpl. by rewrite Hi, Hu. }
  eapply wp_discard; [exact (dr_unlocked _ Hd)|apply lookup_insert_eq|exact Hs|].
  change (draining (removed p e2 s2) ∧ pending s = S (pending (removed p e2 s2))).
  split; [done|]. unfold entry_pending in *. simpl in *. rewrite Hc, Hi, Hu in *. simpl in *. lia.
Qed.

(** Every callback that libuv may still make, in any order. *)
Lemma drain_callback cb s :
  draining s → enabled cb s →
  (double_close cb s ∧ faults (run_callback cb) CloseClosing s) ∨
  wp (run_callback cb) (λ _ s', draining s' ∧ pending s = S (pending s')) s.
Proof.
  intros Hd Hen. pose proof (dr_unlocked _ Hd) as Hl. unfold enabled in Hen.
  destruct (callback_entry cb) as [p|] eqn:Hcb.
  - destruct Hen as (e & Hp & Ha). destruct (dr_entry _ Hd p e Hp) as [_ (Hst & Hh & Hta & Ht)].
    destruct cb; simpl in *; simplify_eq; try congruence; destruct_and?; try congruence.
    + right. by eapply drain_connect.
    + destruct Ha as [w Hw]. destruct (decide (closes_twice e status)) as [Hct|Hct].
      * left. split; [eauto|]. destruct Hct as (Hcr & Hhi & Hlo & _). apply faults_bind.
        eapply wp_deref; [done|]. rewrite Hw. apply faults_bind. wp_step.
        unfold write_completed. apply faults_bind. wp_step. apply faults_bind. wp_step.
        { apply andb_true_iff in H as [_ ?%bool_decide_eq_true]. done. }
        eapply settle_write_faults; [done|lookup_tac|done|simpl; eauto|done..].
      * right. by eapply drain_write.
    + right. destruct Ha as [w Hw]. by eapply drain_udp_write.
    + right. by eapply drain_close.
  - destruct (dr_signals _ Hd) as (? & ? & ?). pose proof (dr_async _ Hd).
    destruct cb; try done; destruct_and?; try congruence. by destruct Hen.
Qed.

(** As long as a socket is left, libuv has a callback to make. *)
Lemma drain_progress s :
  draining s → rt_entries s ≠ ∅ → ∃ cb, enabled cb s.
Proof.
  intros Hd (p & e & Hp)%map_choose. destruct (dr_entry _ Hd p e Hp) as [_ (Hst & Hh & _)].
  destruct (e_connecting e) eqn:Hc; [exists (CbConnect p 0); exists e; done|].
  destruct (e_inflight e) as [w|] eqn:Hi; [exists (CbWrite p 0), e; simpl; by rewrite Hi|].
  destruct (e_udp_inflight e) as [|w l] eqn:Hu; [by exists (CbClose p), e|].
  exists (CbUdpWrite p 0 0), e. simpl. by rewrite Hu.
Qed.

(** ** The handles *)

Lemma wp_signal_closed (watcher : skyuv_socket_runtime → signal_watcher)
    `{!Setter watcher} (Q : unit → skyuv_socket_runtime → Prop) s :
  watcher_ok (watcher s) →
  (∀ w, sw_handle w ≠ HandleActive → Q tt (s <| watcher := w |>)) →
  (sw_handle (watcher s) ≠ HandleActive → Q tt s) → wp (close_process_signal watcher) Q s.
Proof.
  unfold watcher_ok. intros Hw HQ1 HQ2. unfold close_process_signal. do 2 wp_step. rewrite Hw.
  destruct (watcher s) as [i []]; simpl in *; subst i; wp_step; [by apply HQ2| |by apply HQ2].
  by apply HQ1.
Qed.

Lemma close_handles_draining s :
  Idle s → wp close_handles (λ _ s', draining s') s.
Proof.
  intros [[HI Hb _ Hw _ Hph] _ _]. destruct Hw as (Hwh & Hwi & Hwt). unfold close_handles. wp_step.
  eapply wp_mono; [by apply release_slots_closing, closing_slots_start|].
  intros [] s1 [Hl He _ Hb1 Hd Hlo]. injection Hlo as Hq Has _ _ Hh Hi Ht.
  assert (∀ p e, rt_entries s1 !! p = Some e →
    rt_slots s1 !! skyuv_socket_id_slot (e_id e) = Some p ∧ being_closed e) as Hall.
  { intros p e Hp. destruct (He p e Hp) as [Hs Hok]. split; [done|].
    apply closing_being_closed; [done|]. eapply Hd; [done|]. rewrite app_nil_r, elem_of_reverse.
    apply elem_of_seqZ. pose proof (id_slot_range (e_id e)). lia. }
  rewrite <- Hh, <- Hi, <- Ht in *.
  assert (queue_idle (rt_commands s1)) as Hqi by (rewrite Hq; apply HI).
  assert (∀ b, balance b s1 = 0) as Hbal by (intros b; by rewrite Hb1).
  do 2 wp_step. wp_step. apply (wp_mono _ (λ _ s2, s2 = s1 <| rt_async := HandleClosing |>)).
  { destruct Hph as [? Ha|? ? ? Ha|? Ha]; rewrite Ha in Has; rewrite Has; simpl;
      [by apply wp_close_async..|wp_step; destruct s1; simpl in *; by subst]. }
  intros [] ? ->. unfold close_process_signals. wp_step.
  apply wp_signal_closed; [done|intros w1 Hw1|intros Hw1]; wp_step;
    (apply wp_signal_closed; [done|intros w2 Hw2|intros Hw2]);
    (apply wp_signal_closed; [done|intros w3 Hw3|intros Hw3]); done.
Qed.

End release.

(** ** The rest of the release *)

Section free.
Context {cfg : SlotConfig} {env : Env}.
Implicit Types (s : skyuv_socket_runtime).

(** What a server holds, the last taken first. *)
Definition server_resources : list resource :=
  [SlotsMutex; EventLoop; GenerationsArray; SlotsArray; RuntimeBlock; ServerBlock].

(** Nothing is left: no socket, event, command or mutex, and every buffer that was
    taken over has been released or handed out, as often as it was taken. *)
Record emptied s : Prop := {
  em_entries : rt_entries s = ∅;
  em_events : rt_events s = [];
  em_commands : cq_items (rt_commands s) = [] ∧ cq_mutex (rt_commands s) = false;
  em_buffers b : mentions b (rt_taken s) = mentions b (rt_freed s) + mentions b (rt_delivered s);
}.

Lemma wp_in_life {A} (m : R A) (Q : A → life → Prop) l :
  wp m (λ a s, Q a (Life (li_held l) s)) (li_runtime l) → wp (on_runtime m) Q l.
Proof. intros Hm. by apply wp_zoom. Qed.

Lemma wp_dispose r (Q : unit → life → Prop) l :
  r ∈ li_held l → Q tt (Life (filter (.≠ r) (li_held l)) (li_runtime l)) → wp (dispose r) Q l.
Proof. intros Hr HQ. unfold dispose, wp. by rewrite decide_True. Qed.

Lemma wp_destroy_commands (Q : unit → skyuv_socket_runtime → Prop) s :
  queue_idle (rt_commands s) →
  (∀ q, cq_items q = [] → cq_mutex q = false →
     Q tt (s <| rt_commands := q |>
             <| rt_freed ::= λ l, l ++ commands_buffers (cq_items (rt_commands s)) |>)) →
  wp destroy_commands Q s.
Proof.
  intros [Hm Hk] HQ. unfold destroy_commands. wp_step. apply wp_zoom.
  eapply wp_mono; [by apply (queue_destroy_releases _ (cq_items (rt_commands s)))|].
  intros r q (-> & Hmu & Hit). wp_step. by apply HQ.
Qed.

Lemma wp_free_events l (Q : unit → skyuv_socket_runtime → Prop) s :
  Q tt (s <| rt_freed ::= λ f, f ++ events_buffers l |> <| rt_events := [] |>) →
  wp (free_events l) Q s.
Proof.
  revert s. induction l as [|ev l IH]; intros s HQ; simpl.
  - wp_step. destruct s; unfold upd_field, set_rt_freed in HQ; simpl in HQ. by rewrite app_nil_r in HQ.
  - do 2 wp_step. apply IH. unfold events_buffers in HQ. simpl in HQ.
    destruct s; unfold freed, upd_field, set_rt_freed in *; simpl in *. by rewrite <- (assoc_L (++)).
Qed.

Lemma free_runtime_empties s :
  draining s → rt_entries s = ∅ →
  wp free_runtime (λ _ l, li_held l = [ServerBlock] ∧ emptied (li_runtime l))
    (Life server_resources s).
Proof.
  intros [_ Hq Hb Ha _ _] He. unfold free_runtime. wp_step.
  unfold uv_loop_close. do 2 wp_step. simpl. rewrite He, Ha. simpl.
  apply wp_dispose; [set_solver|]. wp_step. apply wp_in_life, wp_destroy_commands; [done|].
  intros q Hit Hmu. do 3 wp_step. apply wp_in_life, wp_free_events. unfold free_blocks.
  do 3 (wp_step; apply wp_dispose; [set_solver|]). apply wp_dispose; [set_solver|]. simpl.
  split; [done|]. split; simpl; [done|done|done|]. intros b. specialize (Hb b).
  unfold balance in Hb. rewrite He in Hb. simpl in *. rewrite !mentions_app.
  unfold entries_mentions in Hb. rewrite map_fold_empty in Hb. lia.
Qed.

(** ** The callbacks of [uv_run] *)

(** The callbacks libuv makes from a state, one after the other. *)
Inductive made s : list uv_callback → skyuv_socket_runtime → Prop :=
| made_none : made s [] s
| made_one cb s1 cbs s2 :
    enabled cb s → run_callback cb s = Ret tt s1 → made s1 cbs s2 → made s (cb :: cbs) s2.

Lemma made_run s cbs s' : made s cbs s' → forM cbs run_callback s = Ret tt s'.
Proof.
  induction 1 as [|s cb s1 cbs s2 _ Hr _ IH]; [done|]. simpl. unfold mbind, M_bind. by rewrite Hr.
Qed.

Lemma made_drains s cbs s' :
  draining s → made s cbs s' → draining s' ∧ pending s = (length cbs + pending s')%nat.
Proof.
  intros Hd Hm. induction Hm as [|s cb s1 cbs s2 Hen Hr _ IH]; [done|].
  destruct (drain_callback cb s Hd Hen) as [[_ Hf]|Hwp].
  { unfold faults in Hf. congruence. }
  unfold wp in Hwp. rewrite Hr in Hwp. destruct Hwp as [Hd1 Hp1].
  destruct (IH Hd1) as [Hd2 Hp2]. split; [done|]. simpl. lia.
Qed.

(** ** Creation *)

(** Everything that a runtime needs can be had, with the blocks [blocks]. *)
Definition available `{CreateEnv} (blocks : list resource) : Prop :=
  Forall (λ r, create_alloc r = true) blocks ∧
  uv_loop_init = 0 ∧ queue_mutex_init = SKYUV_OK ∧ slots_mutex_init = SKYUV_OK ∧
  uv_async_init = 0.

(** Only [held] is held, and no mutex. *)
Definition nothing_but (held : list resource) (l : life) : Prop :=
  li_held l = held ∧ cq_mutex (rt_commands (li_runtime l)) = false.

Lemma wp_queue_init r (Q : Z → skyuv_socket_runtime → Prop) s :
  (r = SKYUV_OK → Q SKYUV_OK (s <| rt_commands := CommandQueue true false [] true |>)) →
  (r ≠ SKYUV_OK → Q r (s <| rt_commands := CommandQueue false false [] false |>)) →
  wp (on_queue (skyuv_socket_command_queue_init r)) Q s.
Proof.
  intros H1 H2. apply wp_zoom. unfold skyuv_socket_command_queue_init, wp. simpl.
  destruct (Z.eqb_spec r SKYUV_OK); simpl; auto.
Qed.

Ltac life_step :=
  first
    [ apply wp_queue_init; intros ?; cbn [li_held li_runtime]
    | progress (unfold calloc, free_if, free_blocks, hold, uv_loop_close, whenM)
    | apply wp_dispose; [set_solver|]; cbn [li_held li_runtime]
    | apply wp_in_life; cbn [li_held li_runtime]
    | apply wp_destroy_commands; [done|]; intros ???
    | wp_step ].

Lemma runtime_create_spec `{CreateEnv} :
  wp (skyuv_socket_runtime_create true false)
    (λ r l, (r.1 = SKYUV_OK ↔ r.2 = true) ∧
       if r.2 then l = Life server_resources fresh_runtime ∧
         available [RuntimeBlock; SlotsArray; GenerationsArray]
       else nothing_but [ServerBlock] l ∧
         ¬ available [RuntimeBlock; SlotsArray; GenerationsArray]) (Life [ServerBlock] zero_runtime).
Proof.
  unfold skyuv_socket_runtime_create, available. simpl negb. cbn [orb].
  repeat life_step; try done.
  all: repeat match goal with H : ?x = ?b |- context [?x] => rewrite H in * end.
  all: match goal with
    | |- _ ∧ (if (_, true).2 then _ else _) => split; [done|split; [reflexivity|]]; rewrite !Forall_cons; done
    | |- _ => split; [split; [try done|done]|split;
        [split; [reflexivity|try done]|rewrite !Forall_cons; intuition congruence]]
    end.
Qed.

Lemma server_create_spec `{CreateEnv} :
  wp socket_server_create (λ ok l,
    (ok = true ↔ available [ServerBlock; RuntimeBlock; SlotsArray; GenerationsArray]) ∧
    (ok = true → l = Life server_resources fresh_runtime) ∧ (ok = false → nothing_but [] l))
    (Life [] zero_runtime).
Proof.
  unfold socket_server_create, calloc, hold. wp_step.
  assert (available [ServerBlock; RuntimeBlock; SlotsArray; GenerationsArray] ↔
    create_alloc ServerBlock = true ∧ available [RuntimeBlock; SlotsArray; GenerationsArray]) as Hav.
  { unfold available. rewrite !Forall_cons. tauto. }
  destruct (create_alloc ServerBlock); simpl negb; cbn [whenM].
  - do 5 wp_step. eapply wp_mono; [exact runtime_create_spec|]. intros [code ok] l [Hc Hl].
    simpl in Hc, Hl. destruct ok.
    + rewrite (proj2 Hc eq_refl). simpl. wp_step. destruct Hl as [-> Hl]. rewrite Hav. done.
    + destruct (Z.eqb_spec code SKYUV_OK) as [E|]; [by apply Hc in E|]. destruct Hl as [[Hh Hm] Hn]. simpl. wp_step.
      apply wp_dispose; [rewrite Hh; set_solver|]. wp_step. rewrite Hav.
      split; [by split; [|intros []]|split; [done|]]. intros _. split; [|done]. simpl. by rewrite Hh.
  - do 4 wp_step. split; [|done]. rewrite Hav. by split; [|intros []].
Qed.

Lemma wp_released s s1 cbs s2 :
  close_handles s = Ret tt s1 → forM cbs run_callback s1 = Ret tt s2 → draining s2 →
  rt_entries s2 = ∅ →
  ∃ l, socket_server_release cbs (Life server_resources s) = Ret tt l ∧
    li_held l = [] ∧ emptied (li_runtime l).
Proof.
  intros Hc Hm Hd He.
  assert (wp (socket_server_release cbs) (λ _ l, li_held l = [] ∧ emptied (li_runtime l))
    (Life server_resources s)) as Hwp.
  { unfold socket_server_release, skyuv_socket_runtime_release. do 2 wp_step.
    apply wp_in_life, (wp_of_Ret _ _ _ _ _ Hc). wp_step.
    apply wp_in_life, (wp_of_Ret _ _ _ _ _ Hm).
    eapply wp_mono; [by apply free_runtime_empties|]. intros [] l [Hh Hl].
    apply wp_dispose; [rewrite Hh; set_solver|]. simpl. by rewrite Hh. }
  apply wp_Ret in Hwp as ([] & l & ? & ?). eauto.
Qed.

(** A script of callbacks is one that libuv may make. *)
Lemma play_made cbs s s' : play (DoCallback <$> cbs) s = Some s' → made s cbs s'.
Proof.
  revert s. induction cbs as [|cb cbs IH]; intros s Hp; simpl in Hp; [simplify_eq; constructor|].
  destruct (decide (enabled cb s)) as [Hen|]; [|done]. unfold exec in Hp.
  destruct (run_callback cb s) as [[] s1|] eqn:Hr; [|done]. econstructor; eauto.
Qed.

End free.

(** C30 The creation of a server: it succeeds exactly if every block, the loop, the
    two mutexes and the async handle can be had, and then the server holds all of
    them and its runtime is the initial one; otherwise, wherever it fails,
    everything that was acquired has been given back. *)
Theorem server_creation {cfg : SlotConfig} `{CreateEnv} :
  ∃ ok l, socket_server_create (Life [] zero_runtime) = Ret ok l ∧
    (ok = true ↔ available [ServerBlock; RuntimeBlock; SlotsArray; GenerationsArray]) ∧
    (ok = true → l = Life server_resources fresh_runtime) ∧
    (ok = false → nothing_but [] l).
Proof. apply (wp_Ret _ _ _ server_create_spec). Qed.

(** C31 The release of a server, from any state the runtime can reach: its handles
    are closed; libuv then makes at most as many callbacks as there are requests
    and sockets, whatever their order, and has one to make as long as a socket is
    left; each of them runs to its end, except that a completion may call
    [uv_close] on a closing handle under the exact condition of [double_close];
    and when no socket is left the release ends, having given back everything the
    server held and released every buffer that it had not handed out, once. *)
Theorem server_release_empties {cfg : SlotConfig} {env : Env} s :
  reachable s →
  ∃ s1, close_handles s = Ret tt s1 ∧
    ∀ cbs s2, made s1 cbs s2 →
      pending s1 = (length cbs + pending s2)%nat ∧
      (rt_entries s2 ≠ ∅ → ∃ cb, enabled cb s2) ∧
      (∀ cb, enabled cb s2 →
         (∃ s3, run_callback cb s2 = Ret tt s3) ∨
         double_close cb s2 ∧ run_callback cb s2 = Fault CloseClosing) ∧
      (rt_entries s2 = ∅ →
         ∃ l, socket_server_release cbs (Life server_resources s) = Ret tt l ∧
           li_held l = [] ∧ emptied (li_runtime l)).
Proof.
  intros Hr. apply reachable_idle in Hr.
  destruct (wp_Ret _ _ _ (close_handles_draining s Hr)) as ([] & s1 & Hc & Hd).
  exists s1. split; [done|]. intros cbs s2 Hm. destruct (made_drains _ _ _ Hd Hm) as [Hd2 Hp].
  split_and!; [done|by apply drain_progress| |].
  - intros cb Hen. destruct (drain_callback cb s2 Hd2 Hen) as [?|Hwp]; [by right|left].
    apply wp_Ret in Hwp as ([] & s3 & ? & _). eauto.
  - intros He. apply (wp_released s s1 cbs s2); [done|by apply made_run|done|done].
Qed.

(** A run: a write is in flight and another one is queued when the server is
    released; libuv cancels the first and closes the socket. *)
#[local] Existing Instance small_slots.
#[local] Existing Instance good_env.

Definition release_callbacks : list uv_callback := [CbWrite 1 (-125); CbClose 1].

Lemma server_release_empties_witness :
  ∃ l, socket_server_release release_callbacks
         (Life server_resources (played sending_script)) = Ret tt l ∧
    li_held l = [] ∧ rt_freed (li_runtime l) = [ex_data; ex_data2].
Proof.
  destruct (server_release_empties _ (played_reachable _ sending_plays)) as (s1 & Hc & Hall).
  assert (∃ s2, play (DoCallback <$> release_callbacks)
    (default fresh_runtime (exec close_handles (played sending_script))) = Some s2 ∧
    rt_entries s2 = ∅) as (s2 & Hp & He) by (vm_compute; eauto).
  unfold exec in Hp. rewrite Hc in Hp. apply play_made in Hp.
  destruct (Hall _ _ Hp) as (_ & _ & _ & Hend). destruct (Hend He) as (l & Hl & Hh & _).
  exists l. split_and!; [done|done|].
  assert (∃ l', socket_server_release release_callbacks
     (Life server_resources (played sending_script)) = Ret tt l' ∧
     rt_freed (li_runtime l') = [ex_data; ex_data2]) as (l' & Hl' & ?) by (vm_compute; eauto).
  congruence.
Defined.
