(* ===== verification/ClientRuntime.v ===== *)
(** * The client runtime

    src/src/client/client_runtime.c: TCP connections for the debug client, one
    private libuv loop on a thread of its own.  Callers hand the thread one
    command at a time and block until the command, or the libuv request it
    starts, has completed; the request lives on the caller's stack, so that
    completing it twice, or after the caller was told of an error, is a use of
    memory that is gone.  The header requires calls to be serialised. *)
From S2P Require Import Prelude.

Definition CLIENT_RECEIVE_LIMIT : Z := 65536.
#[global] Arguments CLIENT_RECEIVE_LIMIT : simpl never.

(** ** The environment *)

(** The libuv and platform calls whose result the code inspects. *)
Inductive client_call :=
| CallMutexInit
| CallCondInit
| CallAsyncSend
| CallTcpInit
| CallTimerInit
| CallTimerStart (timeout_ms : Z)
| CallTcpConnect
| CallReadStart
| CallWrite (source : list Z)
| CallShutdown
| CallShutdownRead.

(** Results by call and time; [client_ip4_addr] is libuv's parser of IPv4
    literals, here its result code. *)
Class ClientEnv := {
  client_alloc : nat → bool;
  client_uv : client_call → nat → Z;
  client_ip4_addr : string → Z → Z;
  UV_EOF : Z;
  UV_EBADF : Z;
  UV_EPIPE : Z;
  UV_EAGAIN : Z;
  UV_EINVAL : Z;
  UV_ENOMEM : Z;
  UV_ENOSPC : Z;
  UV_ETIMEDOUT : Z;
  UV_ECANCELED : Z;
}.

(** libuv's error codes are negative. *)
Class ClientEnvLaws (env : ClientEnv) : Prop := {
  client_codes : Forall (λ code, code < 0)
    [UV_EOF; UV_EBADF; UV_EPIPE; UV_EAGAIN; UV_EINVAL; UV_ENOMEM; UV_ENOSPC; UV_ETIMEDOUT;
     UV_ECANCELED];
}.

(** ** State *)

(** A libuv handle; [uv_is_closing] holds from [uv_close] on. *)
Inductive client_handle := NotInitialized | Active | Closing | Closed.

#[export] Instance client_handle_eq_dec : EqDecision client_handle.
Proof. solve_decision. Defined.

Definition handle_closing (h : client_handle) : bool :=
  match h with Closing | Closed => true | _ => false end.

(** [struct client_request], without the synchronisation of the caller. *)
Record client_request := Request {
  rq_id : Z;
  rq_result : Z;
  rq_source : list Z;
  rq_destination : list Z;
  rq_size : Z;
  rq_timeout_ms : Z;
  rq_read : bool;
  rq_write_enabled : bool;
}.

Definition eta_request (q : client_request) : client_request :=
  Request (rq_id q) (rq_result q) (rq_source q) (rq_destination q) (rq_size q) (rq_timeout_ms q)
    (rq_read q) (rq_write_enabled q).
#[export] Instance set_rq_id : Setter rq_id := ltac:(mk_setter eta_request).
#[export] Instance set_rq_result : Setter rq_result := ltac:(mk_setter eta_request).
#[export] Instance set_rq_destination : Setter rq_destination := ltac:(mk_setter eta_request).
#[export] Instance set_rq_size : Setter rq_size := ltac:(mk_setter eta_request).
#[export] Instance set_rq_read : Setter rq_read := ltac:(mk_setter eta_request).
#[export] Instance set_rq_write_enabled : Setter rq_write_enabled := ltac:(mk_setter eta_request).

(** [struct client_connection]: [cc_received] is the whole array.  The last group
    is what libuv holds: whether a connect is pending, whether it reads, and the
    requests of the pending write and shutdown. *)
Record client_connection := Connection {
  cc_tcp : client_handle;
  cc_timer : client_handle;
  cc_request : option positive;
  cc_id : Z;
  cc_received : list Z;
  cc_received_size : Z;
  cc_read_status : Z;
  cc_paused : bool;
  cc_handles : Z;
  cc_timer_initialized : bool;
  cc_timed_out : bool;
  cc_write_closed : bool;
  cc_read_closed : bool;
  cc_connecting : bool;
  cc_reading : bool;
  cc_writing : option positive;
  cc_shutting : option positive;
}.

Definition eta_connection (c : client_connection) : client_connection :=
  Connection (cc_tcp c) (cc_timer c) (cc_request c) (cc_id c) (cc_received c) (cc_received_size c)
    (cc_read_status c) (cc_paused c) (cc_handles c) (cc_timer_initialized c) (cc_timed_out c)
    (cc_write_closed c) (cc_read_closed c) (cc_connecting c) (cc_reading c) (cc_writing c)
    (cc_shutting c).
#[export] Instance set_cc_tcp : Setter cc_tcp := ltac:(mk_setter eta_connection).
#[export] Instance set_cc_timer : Setter cc_timer := ltac:(mk_setter eta_connection).
#[export] Instance set_cc_request : Setter cc_request := ltac:(mk_setter eta_connection).
#[export] Instance set_cc_id : Setter cc_id := ltac:(mk_setter eta_connection).
#[export] Instance set_cc_received : Setter cc_received := ltac:(mk_setter eta_connection).
#[export] Instance set_cc_received_size : Setter cc_received_size := ltac:(mk_setter eta_connection).
#[export] Instance set_cc_read_status : Setter cc_read_status := ltac:(mk_setter eta_connection).
#[export] Instance set_cc_paused : Setter cc_paused := ltac:(mk_setter eta_connection).
#[export] Instance set_cc_handles : Setter cc_handles := ltac:(mk_setter eta_connection).
#[export] Instance set_cc_timer_initialized : Setter cc_timer_initialized :=
  ltac:(mk_setter eta_connection).
#[export] Instance set_cc_timed_out : Setter cc_timed_out := ltac:(mk_setter eta_connection).
#[export] Instance set_cc_write_closed : Setter cc_write_closed := ltac:(mk_setter eta_connection).
#[export] Instance set_cc_read_closed : Setter cc_read_closed := ltac:(mk_setter eta_connection).
#[export] Instance set_cc_connecting : Setter cc_connecting := ltac:(mk_setter eta_connection).
#[export] Instance set_cc_reading : Setter cc_reading := ltac:(mk_setter eta_connection).
#[export] Instance set_cc_writing : Setter cc_writing := ltac:(mk_setter eta_connection).
#[export] Instance set_cc_shutting : Setter cc_shutting := ltac:(mk_setter eta_connection).

(** [calloc] of a connection. *)
Definition zero_array : list Z := replicate (Z.to_nat CLIENT_RECEIVE_LIMIT) 0.

Definition zero_connection : client_connection :=
  Connection NotInitialized NotInitialized None 0 zero_array 0 0
    false 0 false false false false false false None None.

(** [struct skyuv_client_runtime]: the linked list of connections is the list of
    their addresses.  [cl_requests] are the requests on the stacks of waiting
    callers, [cl_completed] those that were completed, with their results;
    [cl_wire] is what libuv was given to write, and for which connection. *)
Record skyuv_client_runtime := Client {
  cl_heap : gmap positive client_connection;
  cl_connections : list positive;
  cl_next_id : Z;
  cl_revision : Z;
  cl_stopping : bool;
  cl_requests : gmap positive client_request;
  cl_completed : list (positive * client_request);
  cl_clock : nat;
  cl_next_ptr : positive;
  cl_wire : list (Z * list Z);
}.

Definition eta_client (s : skyuv_client_runtime) : skyuv_client_runtime :=
  Client (cl_heap s) (cl_connections s) (cl_next_id s) (cl_revision s) (cl_stopping s)
    (cl_requests s) (cl_completed s) (cl_clock s) (cl_next_ptr s) (cl_wire s).
#[export] Instance set_cl_heap : Setter cl_heap := ltac:(mk_setter eta_client).
#[export] Instance set_cl_connections : Setter cl_connections := ltac:(mk_setter eta_client).
#[export] Instance set_cl_next_id : Setter cl_next_id := ltac:(mk_setter eta_client).
#[export] Instance set_cl_revision : Setter cl_revision := ltac:(mk_setter eta_client).
#[export] Instance set_cl_stopping : Setter cl_stopping := ltac:(mk_setter eta_client).
#[export] Instance set_cl_requests : Setter cl_requests := ltac:(mk_setter eta_client).
#[export] Instance set_cl_completed : Setter cl_completed := ltac:(mk_setter eta_client).
#[export] Instance set_cl_clock : Setter cl_clock := ltac:(mk_setter eta_client).
#[export] Instance set_cl_next_ptr : Setter cl_next_ptr := ltac:(mk_setter eta_client).
#[export] Instance set_cl_wire : Setter cl_wire := ltac:(mk_setter eta_client).

Notation C := (M skyuv_client_runtime).

(** What a blocking call has so far: its result, or the request it waits for. *)
Inductive client_outcome :=
| Returned (result : Z)
| Waiting (request : positive).

Section client.
Context {env : ClientEnv}.

(** ** Elementary actions *)

Definition calloc : C bool := λ s, Ret (client_alloc (cl_clock s)) (s <| cl_clock ::= S |>).

Definition cuv (call : client_call) : C Z := λ s,
  Ret (client_uv call (cl_clock s)) (s <| cl_clock ::= S |>).

Definition fresh : C positive := λ s,
  Ret (cl_next_ptr s) (s <| cl_next_ptr ::= Pos.succ |>).

Definition conn (p : positive) : C client_connection := λ s,
  match cl_heap s !! p with Some c => Ret c s | None => Fault UseAfterFree end.

Definition set_conn (p : positive) (f : client_connection → client_connection) : C unit := λ s,
  match cl_heap s !! p with
  | Some c => Ret tt (s <| cl_heap ::= <[p := f c]> |>)
  | None => Fault UseAfterFree
  end.

Definition request (r : positive) : C client_request := λ s,
  match cl_requests s !! r with Some q => Ret q s | None => Fault UseAfterFree end.

Definition set_request (r : positive) (f : client_request → client_request) : C unit := λ s,
  match cl_requests s !! r with
  | Some q => Ret tt (s <| cl_requests ::= <[r := f q]> |>)
  | None => Fault UseAfterFree
  end.

(** [connection->request], dereferenced by the caller of this. *)
Definition conn_request (p : positive) : C positive :=
  c ← conn p;
  match cc_request c with Some r => mret r | None => throw UseAfterFree end.

(** [uv_close] on one of the two handles. *)
Definition close_tcp (p : positive) : C unit :=
  set_conn p (λ c, c <| cc_tcp := Closing |> <| cc_reading := false |>).

Definition close_timer (p : positive) : C unit := set_conn p (λ c, c <| cc_timer := Closing |>).

Definition read_stop (p : positive) : C unit := set_conn p (λ c, c <| cc_reading := false |>).

Definition read_start (p : positive) : C Z :=
  result ← cuv CallReadStart;
  whenM (result =? 0) (set_conn p (λ c, c <| cc_reading := true |>)) ;;
  mret result.

(** ** Completion *)

Definition notify : C unit := modify (λ s, s <| cl_revision ::= λ n, u64 (n + 1) |>).

(** The caller wakes up, takes the result and leaves: the request is gone. *)
Definition complete (r : positive) (result : Z) : C unit :=
  q ← request r;
  modify (λ s, s <| cl_requests ::= delete r |>
                 <| cl_completed ::= λ l, l ++ [(r, q <| rq_result := result |>)] |>).

(** [while ( *entry != connection) entry = &( *entry)->next;], and the unlinking;
    running off the end of the list is a fault. *)
Fixpoint unlink (p : positive) (l : list positive) : option (list positive) :=
  match l with
  | [] => None
  | q :: l => if decide (q = p) then Some l else (q ::.) <$> unlink p l
  end.

Definition connection_closed (p : positive) : C unit :=
  set_conn p (λ c, c <| cc_handles ::= λ n, n - 1 |>) ;;
  c ← conn p;
  if negb (cc_handles c =? 0) then skip
  else
    l ← gets cl_connections;
    match unlink p l with
    | None => throw UseAfterFree
    | Some l =>
        modify (λ s, s <| cl_connections := l |>) ;;
        modify (λ s, s <| cl_heap ::= delete p |>) ;;
        match cc_request c with
        | None => skip
        | Some r => q ← request r; complete r (rq_result q)
        end
    end.

Definition close_connection (p : positive) : C unit :=
  c ← conn p;
  whenM (negb (handle_closing (cc_tcp c))) (close_tcp p) ;;
  whenM (cc_timer_initialized c && negb (handle_closing (cc_timer c))) (close_timer p).

Definition connection_timeout (p : positive) : C unit :=
  set_conn p (λ c, c <| cc_timed_out := true |>) ;;
  r ← conn_request p;
  set_request r (λ q, q <| rq_result := UV_ETIMEDOUT |>) ;;
  close_connection p.

(** ** Receiving *)

(** [data] at offset [i] of the array. *)
Definition splice (i : nat) (data array : list Z) : list Z :=
  take i array ++ data ++ drop (i + length data) array.

(** The window [allocate_read] offers: offset and length. *)
Definition allocate_read (c : client_connection) : Z * Z :=
  (cc_received_size c, u32 (CLIENT_RECEIVE_LIMIT - cc_received_size c)).

Definition received (p : positive) (count : Z) : C unit :=
  (if 0 <? count then
     set_conn p (λ c, c <| cc_received_size ::= λ n, u64 (n + count) |>) ;;
     c ← conn p;
     whenM (cc_received_size c =? CLIENT_RECEIVE_LIMIT)
       (read_stop p ;; set_conn p (λ c, c <| cc_paused := true |>))
   else if count <? 0 then
     set_conn p (λ c, c <| cc_read_status := i32 count |>) ;;
     read_stop p
   else skip) ;;
  whenM (negb (count =? 0)) notify.

(** A read callback: libuv asks for the window, writes [data] there, if there is
    any, and reports its length, or an error. *)
Definition read_callback (p : positive) (data : list Z) (error : Z) : C unit :=
  c ← conn p;
  let '(offset, _) := allocate_read c in
  set_conn p (λ c, c <| cc_received ::= splice (Z.to_nat offset) data |>) ;;
  received p (if decide (data = []) then error else Z.of_nat (length data)).

Fixpoint find_in (id : Z) (l : list positive) : C (option positive) :=
  match l with
  | [] => mret None
  | p :: l =>
      c ← conn p;
      if negb (cc_id c =? id) then find_in id l else mret (Some p)
  end.

Definition find_connection (r : positive) : C (option positive) :=
  q ← request r;
  l ← gets cl_connections;
  find_in (rq_id q) l.

Definition receive_data (r : positive) : C Z :=
  found ← find_connection r;
  match found with
  | None => mret UV_EBADF
  | Some p =>
      c ← conn p;
      if cc_received_size c =? 0 then
        set_request r (λ q, q <| rq_size := 0 |>) ;;
        mret (if negb (cc_read_status c =? 0) then cc_read_status c else UV_EAGAIN)
      else
        set_request r (λ q, q <| rq_size ::= λ n,
          if cc_received_size c <? n then cc_received_size c else n |>) ;;
        q ← request r;
        let n := Z.to_nat (rq_size q) in
        set_request r (λ q, q <| rq_destination := take n (cc_received c) |>) ;;
        set_conn p (λ c, c <| cc_received_size ::= λ m, m - rq_size q |>) ;;
        set_conn p (λ c, c <| cc_received ::= λ array,
          splice 0 (take (Z.to_nat (cc_received_size c)) (drop n array)) array |>) ;;
        c ← conn p;
        whenM (cc_paused c && (cc_read_status c =? 0))
          (result ← read_start p;
           whenM (negb (result =? 0)) (set_conn p (λ c, c <| cc_read_status := result |>)) ;;
           set_conn p (λ c, c <| cc_paused := false |>)) ;;
        mret 0
  end.

(** ** Connecting *)

(** [connect] is the pending [uv_connect_t] libuv calls back for. *)
Definition connected (p : positive) (result : Z) : C unit :=
  c ← conn p;
  if cc_timed_out c then skip
  else
    whenM (cc_timer_initialized c && negb (handle_closing (cc_timer c))) (close_timer p) ;;
    result ← (if result =? 0 then read_start p else mret result);
    r ← conn_request p;
    if negb (result =? 0) then
      set_request r (λ q, q <| rq_result := result |>) ;;
      close_connection p
    else
      set_request r (λ q, q <| rq_id := cc_id c |>) ;;
      modify (λ s, s <| cl_next_id := cc_id c |>) ;;
      set_conn p (λ c, c <| cc_request := None |>) ;;
      complete r 0.

(** The end of [start_connect] for a connection that cannot be made. *)
Definition connect_fails (p r : positive) (result : Z) : C Z :=
  set_request r (λ q, q <| rq_result := result |>) ;;
  close_connection p ;;
  mret 0.

Definition start_timer (p : positive) (timeout_ms : Z) : C Z :=
  result ← cuv CallTimerInit;
  if negb (result =? 0) then mret result
  else
    set_conn p (λ c, c <| cc_timer := Active |> <| cc_timer_initialized := true |>
                       <| cc_handles ::= λ n, n + 1 |>) ;;
    cuv (CallTimerStart timeout_ms).

Definition start_connect (r : positive) : C Z :=
  next_id ← gets cl_next_id;
  if next_id =? INT64_MAX then mret UV_ENOSPC
  else
    ok ← calloc;
    if negb ok then mret UV_ENOMEM
    else
      result ← cuv CallTcpInit;
      if negb (result =? 0) then mret result
      else
        p ← fresh;
        modify (λ s, s <| cl_heap ::= <[p := zero_connection <| cc_tcp := Active |>
          <| cc_request := Some r |> <| cc_id := next_id + 1 |> <| cc_handles := 1 |> ]> |>) ;;
        modify (λ s, s <| cl_connections ::= λ l, p :: l |>) ;;
        q ← request r;
        if rq_timeout_ms q =? 0 then connect_fails p r UV_ETIMEDOUT
        else
          result ← (if 0 <=? rq_timeout_ms q then start_timer p (rq_timeout_ms q) else mret 0);
          if negb (result =? 0) then connect_fails p r result
          else
            result ← cuv CallTcpConnect;
            if negb (result =? 0) then connect_fails p r result
            else set_conn p (λ c, c <| cc_connecting := true |>) ;; mret 0.

(** ** Closing, sending, shutting down *)

Definition start_close (r : positive) : C Z :=
  found ← find_connection r;
  match found with
  | None =>
      q ← request r;
      next_id ← gets cl_next_id;
      if (0 <? rq_id q) && (rq_id q <=? next_id) then complete r 0 ;; mret 0
      else mret UV_EBADF
  | Some p =>
      set_conn p (λ c, c <| cc_request := Some r |>) ;;
      close_connection p ;;
      mret 0
  end.

Definition written (r : positive) (status : Z) : C unit := complete r status.

(** [uv_write] on the connection [id]: libuv keeps the bytes it accepts. *)
Definition uv_write (id : Z) (bytes : list Z) : C Z :=
  result ← cuv (CallWrite bytes);
  whenM (result =? 0) (modify (λ s, s <| cl_wire ::= λ l, l ++ [(id, bytes)] |>)) ;;
  mret result.

Definition start_send (r : positive) : C Z :=
  found ← find_connection r;
  match found with
  | None => mret UV_EBADF
  | Some p =>
      c ← conn p;
      if cc_write_closed c then mret UV_EPIPE
      else
        q ← request r;
        if rq_size q =? 0 then complete r 0 ;; mret 0
        else
          result ← uv_write (cc_id c) (take (Z.to_nat (u32 (rq_size q))) (rq_source q));
          whenM (result =? 0) (set_conn p (λ c, c <| cc_writing := Some r |>)) ;;
          mret result
  end.

Definition shutdown_done (r : positive) (status : Z) : C unit := complete r status.

(** The reading half of [start_shutdown]: the first error is returned. *)
Definition shutdown_read (p : positive) : C Z :=
  result ← cuv CallShutdownRead;
  if negb (result =? 0) then mret result
  else
    read_stop p ;;
    set_conn p (λ c, c <| cc_read_status := UV_EOF |> <| cc_read_closed := true |>) ;;
    mret 0.

Definition start_shutdown (r : positive) : C Z :=
  found ← find_connection r;
  match found with
  | None => mret UV_EBADF
  | Some p =>
      q ← request r;
      c ← conn p;
      result ← (if rq_read q && negb (cc_read_closed c) then shutdown_read p else mret 0);
      if negb (result =? 0) then mret result
      else if rq_write_enabled q && negb (cc_write_closed c) then
        set_conn p (λ c, c <| cc_write_closed := true |>) ;;
        result ← cuv CallShutdown;
        whenM (result =? 0) (set_conn p (λ c, c <| cc_shutting := Some r |>)) ;;
        mret result
      else complete r 0 ;; mret 0
  end.

Definition check_ready (r : positive) : C Z :=
  found ← find_connection r;
  match found with
  | None => mret UV_EBADF
  | Some p =>
      c ← conn p;
      set_request r (λ q, q
        <| rq_read := negb (cc_received_size c =? 0) || negb (cc_read_status c =? 0) |>
        <| rq_write_enabled := negb (cc_write_closed c) |>) ;;
      mret 0
  end.

(** ** Calls *)

(** [skyuv_client_runtime_call]: the command runs in [execute] on the loop's
    thread, and its result is the result of the call. *)
Definition skyuv_client_runtime_call (command : C Z) : C Z :=
  result ← cuv CallAsyncSend;
  if negb (result =? 0) then mret result else command.

(** The request on the stack of the caller. *)
Definition new_request (q : client_request) : C positive :=
  r ← fresh;
  modify (λ s, s <| cl_requests ::= <[r := q]> |>) ;;
  mret r.

Definition drop_request (r : positive) : C unit :=
  modify (λ s, s <| cl_requests ::= delete r |>).

(** [submit_request] up to the wait for [done]: on an error of the command the
    caller leaves at once, otherwise it waits for the completion. *)
Definition submit_request (q : client_request) (command : positive → C Z) : C client_outcome :=
  r ← new_request q;
  result ← cuv CallMutexInit;
  if negb (result =? 0) then drop_request r ;; mret (Returned result)
  else
    result ← cuv CallCondInit;
    if negb (result =? 0) then drop_request r ;; mret (Returned result)
    else
      result ← skyuv_client_runtime_call (command r);
      if negb (result =? 0) then drop_request r ;; mret (Returned result)
      else mret (Waiting r).

Definition zero_request : client_request := Request 0 0 [] [] 0 0 false false.

(** The request of one turn of the loop of [skyuv_client_runtime_send]. *)
Definition send_part (id : Z) (source : list Z) : C client_outcome :=
  submit_request (Request id 0 source [] (Z.of_nat (length source)) 0 false false) start_send.

(** The loop itself, which blocks in every turn: [wait] is the wait for [done] at
    the end of [submit_request], in which the other thread runs, and returns the
    result of the request.  The fuel is the number of turns. *)
Section send.
Context (wait : positive → C Z).

Definition settle (outcome : client_outcome) : C Z :=
  match outcome with Returned result => mret result | Waiting r => wait r end.

Fixpoint send_loop (fuel : nat) (id : Z) (source : list Z) : C Z :=
  match fuel with
  | O => throw OutOfFuel
  | S fuel =>
      let size := Z.of_nat (length source) in
      let part := if UINT_MAX <? size then UINT_MAX else size in
      outcome ← send_part id (take (Z.to_nat part) source);
      result ← settle outcome;
      if negb (result =? 0) then mret result
      else if size =? 0 then mret 0
      else if negb (size - part =? 0) then send_loop fuel id (drop (Z.to_nat part) source)
      else mret 0
  end.

(** [buffer] tells whether the source is non-NULL. *)
Definition skyuv_client_runtime_send (id : Z) (buffer : bool) (source : list Z) : C Z :=
  let size := Z.of_nat (length source) in
  if negb buffer && negb (size =? 0) then mret UV_EINVAL
  else send_loop (S (Z.to_nat (size / UINT_MAX))) id source.

End send.

(** [buffer] tells whether the destination is non-NULL; the result comes with
    the bytes received. *)
Definition skyuv_client_runtime_recv (id : Z) (buffer : bool) (capacity : Z) :
    C (Z * list Z) :=
  if negb buffer || (capacity =? 0) then mret (UV_EINVAL, [])
  else
    r ← new_request (zero_request <| rq_id := id |> <| rq_size := capacity |>);
    result ← skyuv_client_runtime_call (receive_data r);
    q ← request r;
    drop_request r ;;
    mret (result, if result =? 0 then rq_destination q else []).

Definition skyuv_client_runtime_connect_timeout (address : option string) (port timeout_ms : Z) :
    C client_outcome :=
  match address with
  | None => mret (Returned UV_EINVAL)
  | Some address =>
      if (port <? 0) || (65535 <? port) then mret (Returned UV_EINVAL)
      else
        let result := client_ip4_addr address port in
        if negb (result =? 0) then mret (Returned result)
        else submit_request (Request 0 0 [] [] 0 timeout_ms false false) start_connect
  end.

Definition skyuv_client_runtime_connect (address : option string) (port : Z) : C client_outcome :=
  skyuv_client_runtime_connect_timeout address port (-1).

Definition skyuv_client_runtime_shutdown (id : Z) (read write : bool) : C client_outcome :=
  if negb read && negb write then mret (Returned UV_EINVAL)
  else submit_request (Request id 0 [] [] 0 0 read write) start_shutdown.

(** The result, and the two flags the caller gets. *)
Definition skyuv_client_runtime_ready (id : Z) : C (Z * (bool * bool)) :=
  r ← new_request (zero_request <| rq_id := id |>);
  result ← skyuv_client_runtime_call (check_ready r);
  q ← request r;
  drop_request r ;;
  mret (result, (rq_read q, rq_write_enabled q)).

Definition skyuv_client_runtime_close (id : Z) : C client_outcome :=
  if id <=? 0 then mret (Returned UV_EBADF)
  else submit_request (zero_request <| rq_id := id |>) start_close.

(** [execute] on a runtime that is stopping: every connection is closed. *)
Definition stop_connections : C unit :=
  l ← gets cl_connections;
  forM l close_connection.

(** [skyuv_client_runtime_destroy] up to the join. *)
Definition skyuv_client_runtime_destroy : C unit :=
  modify (λ s, s <| cl_stopping := true |>) ;;
  stop_connections.

(** ** Callbacks *)

Inductive client_callback :=
| OnConnected (p : positive) (status : Z)
| OnTimeout (p : positive)
| OnRead (p : positive) (data : list Z) (error : Z)
| OnWritten (p : positive) (status : Z)
| OnShutdown (p : positive) (status : Z)
| OnTcpClosed (p : positive)
| OnTimerClosed (p : positive).

(** libuv forgets a request, or marks a handle closed, and calls back. *)
Definition run_client_callback (cb : client_callback) : C unit :=
  match cb with
  | OnConnected p status => set_conn p (λ c, c <| cc_connecting := false |>) ;; connected p status
  | OnTimeout p => connection_timeout p
  | OnRead p data error => read_callback p data error
  | OnWritten p status =>
      c ← conn p;
      match cc_writing c with
      | None => throw StaleRequest
      | Some r => set_conn p (λ c, c <| cc_writing := None |>) ;; written r status
      end
  | OnShutdown p status =>
      c ← conn p;
      match cc_shutting c with
      | None => throw StaleRequest
      | Some r => set_conn p (λ c, c <| cc_shutting := None |>) ;; shutdown_done r status
      end
  | OnTcpClosed p => set_conn p (λ c, c <| cc_tcp := Closed |>) ;; connection_closed p
  | OnTimerClosed p => set_conn p (λ c, c <| cc_timer := Closed |>) ;; connection_closed p
  end.

End client.
