(* ===== verification/ClientInvariant.v ===== *)
(** * The invariant of the client runtime

    What holds between two callbacks of the client's loop: the list of
    connections and their records agree, each connection is connecting,
    established or ending, its count of handles is right, its buffer is within
    the array, and the one request a caller may be waiting for is held by exactly
    one connection. *)
From S2P Require Import Prelude ClientRuntime.

#[global] Opaque zero_array.

Implicit Types (s : skyuv_client_runtime) (c : client_connection) (p r : positive).

Lemma length_zero_array : length zero_array = Z.to_nat CLIENT_RECEIVE_LIMIT.
Proof. Transparent zero_array. apply length_replicate. Qed.
#[global] Opaque zero_array.

(** ** One connection *)

(** The bytes that wait for the caller. *)
Definition contents c : list Z := take (Z.to_nat (cc_received_size c)) (cc_received c).

(** The array is whole, libuv reads only while there is room and no error, or end,
    has been reported, and a connection that paused itself does not read. *)
Record buffer_ok c : Prop := BufferOk {
  bo_length : length (cc_received c) = Z.to_nat CLIENT_RECEIVE_LIMIT;
  bo_size : 0 ≤ cc_received_size c ≤ CLIENT_RECEIVE_LIMIT;
  bo_reading : cc_reading c = true → cc_received_size c < CLIENT_RECEIVE_LIMIT ∧
    cc_paused c = false ∧ cc_read_status c = 0;
}.

(** Handles whose close callback is still to come. *)
Definition open_handles (h : client_handle) : Z :=
  match h with Active | Closing => 1 | _ => 0 end.

(** The requests a connection can complete. *)
Definition holds c : list positive :=
  option_list (cc_request c) ++ option_list (cc_writing c) ++ option_list (cc_shutting c).

(** The life of a connection; [next_id] is the last id that was handed out. *)
Inductive conn_phase (next_id : Z) c : Prop :=
| Connecting :
    is_Some (cc_request c) → cc_tcp c = Active → cc_connecting c = true →
    handle_closing (cc_timer c) = false → cc_timed_out c = false → cc_reading c = false →
    cc_writing c = None → cc_shutting c = None → cc_id c = next_id + 1 →
    cc_received_size c = 0 → cc_paused c = false → cc_read_status c = 0 → conn_phase next_id c
| Established :
    cc_request c = None → cc_tcp c = Active → cc_connecting c = false →
    cc_timer c ≠ Active → 0 < cc_id c ≤ next_id → conn_phase next_id c
| Ending :
    handle_closing (cc_tcp c) = true → cc_timer c ≠ Active → cc_reading c = false →
    cc_writing c = None → cc_shutting c = None →
    (cc_connecting c = true →
      cc_tcp c = Closing ∧ is_Some (cc_request c) ∧ cc_timed_out c = true) →
    0 < cc_id c ≤ next_id + 1 → (cc_id c = next_id + 1 → is_Some (cc_request c)) →
    conn_phase next_id c.

Record conn_ok (next_id : Z) c : Prop := ConnOk {
  co_buffer : buffer_ok c;
  co_handles : cc_handles c = open_handles (cc_tcp c) + open_handles (cc_timer c);
  co_alive : 0 < cc_handles c;
  co_timer : cc_timer_initialized c = bool_decide (cc_timer c ≠ NotInitialized);
  co_phase : conn_phase next_id c;
  co_id : cc_id c ≤ INT64_MAX;
}.

(** ** The runtime *)

(** The requests the connection at [p] should hold, if [o] is the connection
    that holds one, with that request. *)
Definition share (o : option (positive * positive)) p : list positive :=
  match o with Some (q, r) => if decide (p = q) then [r] else [] | None => [] end.

Definition held (o : option (positive * positive)) s : Prop :=
  ∀ p c, cl_heap s !! p = Some c → holds c = share o p.

Record CTable s : Prop := MkCTable {
  ct_nodup : NoDup (cl_connections s);
  ct_linked p : p ∈ cl_connections s ↔ is_Some (cl_heap s !! p);
  ct_conn p c : cl_heap s !! p = Some c → conn_ok (cl_next_id s) c;
  ct_ids p q c d : cl_heap s !! p = Some c → cl_heap s !! q = Some d → cc_id c = cc_id d → p = q;
  ct_next : 0 ≤ cl_next_id s ≤ INT64_MAX;
  ct_fresh p : (cl_next_ptr s ≤ p)%positive → cl_heap s !! p = None ∧ cl_requests s !! p = None;
}.

(** No caller waits, or one does and exactly one connection holds its request. *)
Definition waiting s : Prop :=
  (cl_requests s = ∅ ∧ held None s) ∨
  ∃ r q p, cl_requests s = {[ r := q ]} ∧ is_Some (cl_heap s !! p) ∧ held (Some (p, r)) s.

(** Until the runtime is destroyed, a connection ends only for a caller that
    waits for its end. *)
Definition awaited s : Prop :=
  cl_stopping s = false →
  ∀ p c, cl_heap s !! p = Some c → cc_tcp c = Active ∨ is_Some (cc_request c).

Record CInv s : Prop := MkCInv {
  cv_table : CTable s;
  cv_waiting : waiting s;
  cv_awaited : awaited s;
}.

(** A request has been made and no connection holds it yet. *)
Record unheld r s : Prop := Unheld {
  uh_table : CTable s;
  uh_request : ∃ q, cl_requests s = {[ r := q ]};
  uh_held : held None s;
  uh_awaited : awaited s;
  uh_running : cl_stopping s = false;
}.

(** ** Progress *)

(** The callbacks that are still to come for a connection, other than reads, if
    it ends now. *)
Definition remaining (h : client_handle) : Z :=
  match h with Active => 2 | Closing => 1 | _ => 0 end.

Definition work c : Z :=
  Z.b2z (cc_connecting c) + remaining (cc_tcp c) + remaining (cc_timer c) +
  Z.b2z (bool_decide (is_Some (cc_writing c))) + Z.b2z (bool_decide (is_Some (cc_shutting c))).

(** The request [c] held at [p] in [s] has been completed in [s'], or less work
    is left for it there; what it sends is never touched. *)
Definition progressed p c s s' : Prop :=
  ∀ r q, holds c = [r] → cl_requests s = {[ r := q ]} →
    cl_stopping s' = cl_stopping s ∧
    ∃ q', rq_source q' = rq_source q ∧
      ((cl_requests s' = ∅ ∧ cl_completed s' = cl_completed s ++ [(r, q')]) ∨
       (cl_requests s' = {[ r := q' ]} ∧ cl_completed s' = cl_completed s ∧
        ∃ c', cl_heap s' !! p = Some c' ∧ holds c' = [r] ∧ work c' < work c)).

(** ** Steps *)

Section steps.
Context {env : ClientEnv} {laws : ClientEnvLaws env}.

(** The callbacks libuv can make. *)
Definition client_enabled (cb : client_callback) s : Prop :=
  match cb with
  | OnConnected p status => ∃ c, cl_heap s !! p = Some c ∧ cc_connecting c = true ∧
      (cc_tcp c = Active ∨ status = UV_ECANCELED)
  | OnTimeout p => ∃ c, cl_heap s !! p = Some c ∧ cc_timer c = Active
  | OnRead p data error => ∃ c, cl_heap s !! p = Some c ∧ cc_reading c = true ∧
      Z.of_nat (length data) ≤ (allocate_read c).2 ∧ error ≤ 0
  | OnWritten p _ => ∃ c, cl_heap s !! p = Some c ∧ is_Some (cc_writing c)
  | OnShutdown p _ => ∃ c, cl_heap s !! p = Some c ∧ is_Some (cc_shutting c)
  | OnTcpClosed p => ∃ c, cl_heap s !! p = Some c ∧ cc_tcp c = Closing ∧
      cc_connecting c = false ∧ cc_writing c = None ∧ cc_shutting c = None
  | OnTimerClosed p => ∃ c, cl_heap s !! p = Some c ∧ cc_timer c = Closing
  end.

(** The calls of a client. *)
Inductive client_api :=
| CallConnect (address : option string) (port timeout_ms : Z)
| CallClose (id : Z)
| CallSend (id : Z) (source : list Z)
| CallRecv (id : Z) (capacity : N)
| CallShutdownHalf (id : Z) (read write : bool)
| CallReady (id : Z)
| CallDestroy.

Definition run_client_api (api : client_api) : C unit :=
  match api with
  | CallConnect address port timeout_ms =>
      skyuv_client_runtime_connect_timeout address port timeout_ms ;; skip
  | CallClose id => skyuv_client_runtime_close id ;; skip
  | CallSend id source => send_part id source ;; skip
  | CallRecv id capacity => skyuv_client_runtime_recv id true (Z.of_N capacity) ;; skip
  | CallShutdownHalf id read write => skyuv_client_runtime_shutdown id read write ;; skip
  | CallReady id => skyuv_client_runtime_ready id ;; skip
  | CallDestroy => skyuv_client_runtime_destroy
  end.

(** Calls are serialised, and none follows the destruction. *)
Definition client_ready s : Prop := cl_requests s = ∅ ∧ cl_stopping s = false.

Inductive client_step s : skyuv_client_runtime → Prop :=
| client_step_callback cb s' :
    client_enabled cb s → run_client_callback cb s = Ret tt s' → client_step s s'
| client_step_api api s' :
    client_ready s → run_client_api api s = Ret tt s' → client_step s s'.

Definition fresh_client : skyuv_client_runtime := Client ∅ [] 0 0 false ∅ [] 0 1 [].

Definition client_reachable s : Prop := rtc client_step fresh_client s.

End steps.
