(* ===== verification/ClientSafety.v ===== *)
(** * Safety of the client's callbacks

    The invariant of [ClientInvariant] is preserved by every callback libuv can
    make, none of them faults, and each of them brings the request that is waited
    for closer to its completion. *)
From S2P Require Import Prelude ClientRuntime ClientInvariant.

Section safety.
Context {env : ClientEnv} {laws : ClientEnvLaws env}.
Implicit Types (s : skyuv_client_runtime) (c : client_connection) (p r : positive).

(** ** Rules *)

Lemma wp_cuv call (Q : Z → skyuv_client_runtime → Prop) s :
  (∀ result, Q result (s <| cl_clock ::= S |>)) → wp (cuv call) Q s.
Proof. intros HQ. apply HQ. Qed.

Lemma wp_calloc (Q : bool → skyuv_client_runtime → Prop) s :
  (∀ ok, Q ok (s <| cl_clock ::= S |>)) → wp calloc Q s.
Proof. intros HQ. apply HQ. Qed.

Lemma wp_conn p c (Q : client_connection → skyuv_client_runtime → Prop) s :
  cl_heap s !! p = Some c → Q c s → wp (conn p) Q s.
Proof. unfold wp, conn. by intros ->. Qed.

Lemma wp_set_conn p f c (Q : unit → skyuv_client_runtime → Prop) s :
  cl_heap s !! p = Some c → Q tt (s <| cl_heap ::= <[p := f c]> |>) → wp (set_conn p f) Q s.
Proof. unfold wp, set_conn. by intros ->. Qed.

Lemma wp_request r q (Q : client_request → skyuv_client_runtime → Prop) s :
  cl_requests s !! r = Some q → Q q s → wp (request r) Q s.
Proof. unfold wp, request. by intros ->. Qed.

Lemma wp_set_request r f q (Q : unit → skyuv_client_runtime → Prop) s :
  cl_requests s !! r = Some q → Q tt (s <| cl_requests ::= <[r := f q]> |>) →
  wp (set_request r f) Q s.
Proof. unfold wp, set_request. by intros ->. Qed.

End safety.

Ltac cl_lookup :=
  simpl;
  first
    [ eassumption
    | rewrite ?insert_insert_eq, lookup_insert_eq; reflexivity
    | match goal with H : cl_requests _ = {[ _ := _ ]} |- _ => rewrite H end;
      rewrite ?insert_singleton_eq; apply lookup_singleton_eq ].

Ltac cl_step :=
  cbv beta match;
  lazymatch goal with
  | |- wp (mbind _ _) _ _ => apply wp_bind
  | |- wp (mret _) _ _ => apply wp_ret
  | |- wp skip _ _ => apply wp_skip
  | |- wp (gets _) _ _ => apply wp_gets
  | |- wp (modify _) _ _ => apply wp_modify
  | |- wp calloc _ _ => apply wp_calloc; intros ?
  | |- wp (cuv _) _ _ => apply wp_cuv; intros ?
  | |- wp (conn _) _ _ => eapply wp_conn; [cl_lookup|]
  | |- wp (set_conn _ _) _ _ => eapply wp_set_conn; [cl_lookup|]
  | |- wp (request _) _ _ => eapply wp_request; [cl_lookup|]
  | |- wp (set_request _ _) _ _ => eapply wp_set_request; [cl_lookup|]
  | |- wp (whenM _ _) _ _ => apply wp_whenM; intros ?
  | |- wp (if negb (?x =? ?y) then _ else _) _ _ => destruct (Z.eqb_spec x y); cbn [negb]
  | |- wp (if ?x =? ?y then _ else _) _ _ => destruct (Z.eqb_spec x y)
  | |- wp (if ?x <? ?y then _ else _) _ _ => destruct (Z.ltb_spec x y)
  | |- wp (if negb ?b then _ else _) _ _ => destruct b eqn:?; cbn [negb]
  | |- wp (if ?b then _ else _) _ _ => destruct b eqn:?
  end.

Section lemmas.
Context {env : ClientEnv} {laws : ClientEnvLaws env}.
Implicit Types (s : skyuv_client_runtime) (c : client_connection) (p r : positive).

(** ** The table *)

(** The table after [p] is changed from [c] to [c']. *)
Lemma CTable_update p c c' s s' :
  CTable s → cl_heap s !! p = Some c → cl_heap s' = <[p := c']> (cl_heap s) →
  cl_connections s' = cl_connections s → cl_next_id s' = cl_next_id s →
  cl_next_ptr s' = cl_next_ptr s → (∀ r, cl_requests s !! r = None → cl_requests s' !! r = None) →
  cc_id c' = cc_id c → conn_ok (cl_next_id s) c' → CTable s'.
Proof.
  intros [Hnd Hl Hc Hid Hn Hf] Hp Hh Hcs Hni Hnp Hr Hi Hok. split.
  - by rewrite Hcs.
  - intros q. rewrite Hcs, Hl, Hh, lookup_insert_is_Some'. naive_solver.
  - intros q d. rewrite Hh, Hni, lookup_insert_Some. naive_solver.
  - intros q1 q2 d1 d2. rewrite Hh, !lookup_insert_Some. intros [[<- <-]|[? H1]] [[<- <-]|[? H2]] Heq;
      [done| | |]; try (rewrite Hi in Heq); by eapply Hid.
  - by rewrite Hni.
  - intros q. rewrite Hnp, Hh. intros Hq. destruct (Hf q Hq) as [H1 H2]. split; [|by apply Hr].
    rewrite lookup_insert_ne; [done|]. intros <-. congruence.
Qed.

(** A change of the requests alone. *)
Lemma CTable_same s s' :
  CTable s → cl_heap s' = cl_heap s → cl_connections s' = cl_connections s →
  cl_next_id s' = cl_next_id s → cl_next_ptr s' = cl_next_ptr s →
  (∀ r, cl_requests s !! r = None → cl_requests s' !! r = None) → CTable s'.
Proof.
  intros [Hnd Hl Hc Hid Hn Hf] Hh Hcs Hni Hnp Hr.
  split; rewrite ?Hh, ?Hcs, ?Hni; try done.
  intros q. rewrite Hnp. naive_solver.
Qed.

Lemma held_update o o' p c' s s' :
  held o s → cl_heap s' = <[p := c']> (cl_heap s) → holds c' = share o' p →
  (∀ q, q ≠ p → share o' q = share o q) → held o' s'.
Proof.
  intros Hh He Hc Ho q d. rewrite He, lookup_insert_Some. intros [[<- <-]|[Hne Hd]]; [done|].
  rewrite Ho by done. by apply Hh.
Qed.

Lemma share_other q r p : p ≠ q → share (Some (q, r)) p = [].
Proof. intros. simpl. by rewrite decide_False. Qed.

Lemma share_self p r : share (Some (p, r)) p = [r].
Proof. simpl. by rewrite decide_True. Qed.

Lemma awaited_update p c' s s' :
  awaited s → cl_stopping s' = cl_stopping s → cl_heap s' = <[p := c']> (cl_heap s) →
  (cl_stopping s = false → cc_tcp c' = Active ∨ is_Some (cc_request c')) → awaited s'.
Proof.
  intros Ha Hst He Hc Hs q d. rewrite He, lookup_insert_Some.
  rewrite Hst in Hs. intros [[<- <-]|[_ Hd]]; [auto|]. by apply (Ha Hs q).
Qed.

(** The holder of a request in an invariant state. *)
Lemma held_request s p c r :
  CInv s → cl_heap s !! p = Some c → r ∈ holds c →
  holds c = [r] ∧ (∃ q, cl_requests s = {[ r := q ]}) ∧ held (Some (p, r)) s.
Proof.
  intros [_ [[_ Hh]|(r' & q & p' & Hq & _ & Hh)] _] Hp Hr; rewrite (Hh p c Hp) in *.
  - by apply elem_of_nil in Hr.
  - simpl in *. destruct (decide (p = p')) as [->|]; [|by apply elem_of_nil in Hr].
    apply list_elem_of_singleton in Hr as ->. eauto.
Qed.

(** An update of one connection that keeps its requests. *)
Lemma CInv_update p c c' s s' :
  CInv s → cl_heap s !! p = Some c → cl_heap s' = <[p := c']> (cl_heap s) →
  cl_connections s' = cl_connections s → cl_next_id s' = cl_next_id s →
  cl_next_ptr s' = cl_next_ptr s → cl_stopping s' = cl_stopping s →
  (cl_requests s' = cl_requests s ∨
    ∃ r q q', cl_requests s = {[ r := q ]} ∧ cl_requests s' = {[ r := q' ]}) →
  cc_id c' = cc_id c → holds c' = holds c → conn_ok (cl_next_id s) c' →
  (cl_stopping s = false → cc_tcp c' = Active ∨ is_Some (cc_request c')) → CInv s'.
Proof.
  intros [Ht Hw Ha] Hp He Hcs Hni Hnp Hst Hrq Hid Hho Hok Haw. split.
  - eapply CTable_update; try done. intros r Hr.
    destruct Hrq as [->|(r0 & q & q' & E & ->)]; [done|]. rewrite E in Hr.
    destruct (decide (r = r0)) as [->|]; [by rewrite lookup_singleton_eq in Hr|].
    by rewrite lookup_singleton_ne.
  - destruct Hw as [[Hr Hh]|(r & q & p' & Hr & [d Hd] & Hh)].
    + left. split; [destruct Hrq as [->|(r0 & q & q' & E & _)]; [done|]|].
      { rewrite Hr in E. symmetry in E. by apply map_non_empty_singleton in E. }
      eapply held_update; [done|done| |done]. rewrite Hho. by apply Hh.
    + right. assert (∃ q1, cl_requests s' = {[ r := q1 ]}) as [q1 Hq1].
      { destruct Hrq as [->|(r0 & q0 & q' & E & ->)]; [eauto|]. rewrite Hr in E.
        apply (f_equal (.!! r)) in E. rewrite lookup_singleton_eq in E.
        symmetry in E. apply lookup_singleton_Some in E as [-> _]. eauto. }
      exists r, q1, p'. split_and!; [done| |].
      * rewrite He, lookup_insert_is_Some'. eauto.
      * eapply held_update; [done|done| |done]. rewrite Hho. by apply Hh.
  - by eapply awaited_update.
Qed.

(** The two ways to get closer to the end of the request. *)
Lemma progressed_completed p c r q q' s s' :
  holds c = [r] → cl_requests s = {[ r := q ]} → cl_stopping s' = cl_stopping s →
  cl_requests s' = ∅ → cl_completed s' = cl_completed s ++ [(r, q')] → rq_source q' = rq_source q →
  progressed p c s s'.
Proof.
  intros Hr Hq Hst Hrq Hcm Hsrc r' q0 Hr' Hq0. rewrite Hr in Hr'. injection Hr' as <-. rewrite Hq in Hq0.
  apply (inj2 _) in Hq0 as [_ <-].
  split; [done|]. exists q'. split; [congruence|]. by left.
Qed.

Lemma progressed_work p c c' f s s' :
  cl_stopping s' = cl_stopping s → (∀ q, rq_source (f q) = rq_source q) →
  (∀ r, holds c = [r] → cl_requests s' = alter f r (cl_requests s)) →
  cl_completed s' = cl_completed s → cl_heap s' !! p = Some c' → holds c' = holds c →
  work c' < work c → progressed p c s s'.
Proof.
  intros Hst Hf Hrq Hcm Hp Hho Hwk r q Hr Hq. split; [done|]. exists (f q). split; [done|]. right.
  split_and!; [|done|].
  - by rewrite (Hrq r Hr), Hq, alter_singleton_eq.
  - exists c'. split_and!; [done|congruence|done].
Qed.

(** The holder of the request completes it. *)
Lemma CInv_completed p c c' r s s' :
  CInv s → cl_heap s !! p = Some c → holds c = [r] → cl_heap s' = <[p := c']> (cl_heap s) →
  cl_connections s' = cl_connections s → cl_next_id s' = cl_next_id s →
  cl_next_ptr s' = cl_next_ptr s → cl_stopping s' = cl_stopping s → cl_requests s' = ∅ →
  cc_id c' = cc_id c → holds c' = [] → conn_ok (cl_next_id s) c' →
  (cl_stopping s = false → cc_tcp c' = Active ∨ is_Some (cc_request c')) → CInv s'.
Proof.
  intros HI Hp Hr He Hcs Hni Hnp Hst Hrq Hid Hho Hok Haw.
  destruct (held_request s p c r HI Hp) as (_ & _ & Hh); [rewrite Hr; set_solver|].
  destruct HI as [Ht Hw Ha]. split.
  - eapply CTable_update; try done. intros r' _. by rewrite Hrq.
  - left. split; [done|]. eapply held_update; [done|done|by rewrite Hho|].
    intros q Hne. by rewrite share_other.
  - by eapply awaited_update.
Qed.

(** ** Closing *)

(** A connection after [close_connection]. *)
Definition closed_conn c : client_connection :=
  let c1 := if handle_closing (cc_tcp c) then c
            else c <| cc_tcp := Closing |> <| cc_reading := false |> in
  if cc_timer_initialized c && negb (handle_closing (cc_timer c))
  then c1 <| cc_timer := Closing |> else c1.

Lemma wp_close_connection p c (Q : unit → skyuv_client_runtime → Prop) s :
  cl_heap s !! p = Some c → Q tt (s <| cl_heap ::= <[p := closed_conn c]> |>) →
  wp (close_connection p) Q s.
Proof.
  intros Hp HQ. unfold close_connection, close_tcp, close_timer. do 2 cl_step.
  assert (s <| cl_heap ::= <[p := c]> |> = s) as Hsame
    by (destruct s; simpl in *; unfold upd_field, set_cl_heap; simpl; by rewrite insert_id).
  unfold closed_conn in HQ. destruct (handle_closing (cc_tcp c)), (cc_timer_initialized c && _) eqn:Ht;
    cbn [negb]; unfold whenM; repeat cl_step; simpl in HQ; try done.
  - by rewrite Hsame in HQ.
  - unfold upd_field, set_cl_heap in *. simpl in *. by rewrite insert_insert_eq.
Qed.

Lemma closed_conn_ok next_id c :
  buffer_ok c → cc_handles c = open_handles (cc_tcp c) + open_handles (cc_timer c) →
  0 < cc_handles c → cc_timer_initialized c = bool_decide (cc_timer c ≠ NotInitialized) →
  cc_tcp c ≠ NotInitialized → cc_writing c = None → cc_shutting c = None →
  (cc_connecting c = true →
    cc_tcp c ≠ Closed ∧ is_Some (cc_request c) ∧ cc_timed_out c = true) →
  0 < cc_id c ≤ next_id + 1 → (cc_id c = next_id + 1 → is_Some (cc_request c)) →
  (handle_closing (cc_tcp c) = true → cc_reading c = false) → cc_id c ≤ INT64_MAX →
  conn_ok next_id (closed_conn c).
Proof.
  intros [Hb1 Hb2 Hb3] Hh Hpos Ht Htcp Hw Hs Hco Hid1 Hid2 Hrd Hmax. unfold closed_conn.
  destruct (cc_tcp c) eqn:Etcp, (cc_timer c) eqn:Etim, (cc_timer_initialized c) eqn:Eti;
    try (by simpl in Ht); try done; simpl;
    (split; simpl; [split; simpl; try done|rewrite ?Etcp, ?Etim; simpl in *; lia|done
                   |rewrite ?Etim, ?Eti; simpl; done| |done]);
    apply Ending; simpl; rewrite ?Etcp, ?Etim; try done; try (by apply Hrd); naive_solver.
Qed.

Lemma closed_conn_same c :
  cc_id (closed_conn c) = cc_id c ∧ cc_request (closed_conn c) = cc_request c ∧
  holds (closed_conn c) = holds c ∧ cc_connecting (closed_conn c) = cc_connecting c ∧
  handle_closing (cc_tcp (closed_conn c)) = true ∧ cc_received (closed_conn c) = cc_received c ∧
  cc_received_size (closed_conn c) = cc_received_size c.
Proof.
  unfold closed_conn, holds. destruct (handle_closing (cc_tcp c)) eqn:?, (_ && _); simpl; done.
Qed.

(** ** The buffer *)

(** A connection after a change of its buffer and its reading. *)
Definition rebuffered (array : list Z) (n : Z) (paused : bool) (status : Z) (reading : bool) c :
    client_connection :=
  c <| cc_received := array |> <| cc_received_size := n |> <| cc_paused := paused |>
    <| cc_read_status := status |> <| cc_reading := reading |>.

Lemma rebuffered_ok next_id array n paused status reading c :
  conn_ok next_id c → cc_tcp c = Active → cc_connecting c = false →
  buffer_ok (rebuffered array n paused status reading c) →
  conn_ok next_id (rebuffered array n paused status reading c).
Proof.
  intros [_ Hh Hpos Ht Hph Hmax] Htcp Hco Hb. split; try done.
  destruct Hph as [|? ? ? ? ?|H]; [congruence|by apply Established|]. by rewrite Htcp in H.
Qed.

Lemma length_splice i data array :
  (i + length data ≤ length array)%nat → length (splice i data array) = length array.
Proof. intros. unfold splice. rewrite !length_app, length_take, length_drop. lia. Qed.

Lemma take_splice i data array :
  (i ≤ length array)%nat → take (i + length data) (splice i data array) = take i array ++ data.
Proof.
  intros. unfold splice. rewrite app_assoc. apply take_app_length'.
  rewrite length_app, length_take. lia.
Qed.

Lemma splice_nil i array : splice i [] array = array.
Proof. unfold splice. simpl. rewrite Nat.add_0_r. apply take_drop. Qed.

Lemma window c : buffer_ok c → (allocate_read c).2 = CLIENT_RECEIVE_LIMIT - cc_received_size c.
Proof.
  intros [_ Hs _]. simpl. apply uwrap_small. unfold CLIENT_RECEIVE_LIMIT in *. lia.
Qed.

(** [received] with data: the size grows, and a full array stops the reading. *)
Lemma wp_received_data p c count s (Q : unit → skyuv_client_runtime → Prop) :
  cl_heap s !! p = Some c → 0 < count → 0 ≤ cc_received_size c →
  cc_received_size c + count ≤ CLIENT_RECEIVE_LIMIT → cc_reading c = true → cc_paused c = false →
  (let n := cc_received_size c + count in
   let full := bool_decide (n = CLIENT_RECEIVE_LIMIT) in
   Q tt (s <| cl_heap ::= <[p := rebuffered (cc_received c) n full (cc_read_status c) (negb full) c]> |>
           <| cl_revision ::= λ n, u64 (n + 1) |>)) →
  wp (received p count) Q s.
Proof.
  intros Hp Hpos Hs Hle Hrd Hpz HQ. unfold received, read_stop, notify. cl_step.
  destruct (Z.ltb_spec 0 count); [|lia]. do 4 cl_step. simpl.
  assert (u64 (cc_received_size c + count) = cc_received_size c + count) as Hn
    by (apply uwrap_small; unfold CLIENT_RECEIVE_LIMIT in *; lia). rewrite Hn.
  assert (negb (count =? 0) = true) as Hnz by (destruct (Z.eqb_spec count 0); [lia|done]).
  destruct c as [? ? ? ? ? n ? ? ? ? ? ? ? ? ? ? ?]; simpl in *; subst.
  cl_step.
  - do 4 cl_step; [|congruence]. cl_step. apply Z.eqb_eq in H0.
    unfold rebuffered in HQ. rewrite bool_decide_eq_true_2 in HQ by done.
    unfold upd_field, set_cl_heap, set_cl_revision, set_cc_received_size in *; simpl in *.
    rewrite !insert_insert_eq, Hn. exact HQ.
  - cl_step; [|congruence]. cl_step. apply Z.eqb_neq in H0.
    unfold rebuffered in HQ. rewrite bool_decide_eq_false_2 in HQ by done.
    unfold upd_field, set_cl_heap, set_cl_revision, set_cc_received_size in *; simpl in *.
    rewrite Hn. exact HQ.
Qed.

Lemma wp_received_error p c error s (Q : unit → skyuv_client_runtime → Prop) :
  cl_heap s !! p = Some c → error ≤ 0 →
  (∀ status reading revision,
   (reading = true → cc_reading c = true ∧ status = cc_read_status c) →
   Q tt (s <| cl_heap ::= <[p := rebuffered (cc_received c) (cc_received_size c) (cc_paused c)
           status reading c]> |> <| cl_revision := revision |>)) →
  wp (received p error) Q s.
Proof.
  intros Hp Hle HQ. unfold received, read_stop, notify. cl_step.
  destruct (Z.ltb_spec 0 error); [lia|]. destruct (Z.ltb_spec error 0).
  - do 4 cl_step; [|apply negb_false_iff, Z.eqb_eq in H1; lia]. cl_step.
    unfold upd_field, set_cl_heap, set_cl_revision in *; simpl in *. rewrite insert_insert_eq.
    by apply (HQ (i32 error) false).
  - do 2 cl_step; [apply negb_true_iff, Z.eqb_neq in H1; lia|].
    specialize (HQ (cc_read_status c) (cc_reading c) (cl_revision s) ltac:(done)).
    destruct s, c. unfold rebuffered, upd_field, set_cl_heap, set_cl_revision in *; simpl in *.
    by rewrite insert_id in HQ.
Qed.

(** What a read callback leaves: the new bytes behind the old ones, the
    connection paused exactly when its array is full. *)
Lemma wp_read_callback p c data error s (Q : unit → skyuv_client_runtime → Prop) :
  cl_heap s !! p = Some c → buffer_ok c → cc_reading c = true →
  Z.of_nat (length data) ≤ (allocate_read c).2 → error ≤ 0 →
  (∀ array n paused status reading revision,
     let c' := rebuffered array n paused status reading c in
     buffer_ok c' → contents c' = contents c ++ data →
     (data ≠ [] → status = cc_read_status c ∧ paused = bool_decide (n = CLIENT_RECEIVE_LIMIT) ∧
                  reading = negb paused) →
     Q tt (s <| cl_heap ::= <[p := c']> |> <| cl_revision := revision |>)) →
  wp (read_callback p data error) Q s.
Proof.
  intros Hp Hb Hrd Hlen Herr HQ. rewrite window in Hlen by done.
  destruct Hb as [Hb1 Hb2 Hb3]. destruct (Hb3 Hrd) as (Hroom & Hpz & Hst0).
  unfold read_callback, allocate_read. do 4 cl_step.
  set (c1 := c <| cc_received ::= splice (Z.to_nat (cc_received_size c)) data |>).
  destruct (decide (data = [])) as [->|Hne].
  - eapply (wp_received_error p c1); [cl_lookup|done|]. intros status reading revision Hre.
    unfold upd_field, set_cl_heap, set_cl_revision in *; simpl. rewrite insert_insert_eq.
    unfold splice. rewrite app_nil_l, Nat.add_0_r, take_drop.
    apply (HQ (cc_received c) (cc_received_size c) (cc_paused c)); [|by rewrite app_nil_r|done].
    split; [done|done|]. intros Hr. destruct (Hre Hr) as [_ ->]. done.
  - assert (0 < Z.of_nat (length data)) as Hpos by (destruct data; [done|simpl; lia]).
    eapply (wp_received_data p c1); [cl_lookup|done|simpl; lia|simpl; lia|done|done|]. cbv zeta.
    unfold upd_field, set_cl_heap, set_cl_revision in *; simpl. rewrite insert_insert_eq.
    set (n := cc_received_size c + Z.of_nat (length data)).
    apply (HQ (splice (Z.to_nat (cc_received_size c)) data (cc_received c)) n
      (bool_decide (n = CLIENT_RECEIVE_LIMIT))).
    + split; simpl; [rewrite length_splice; lia|lia|].
      intros Hnf%negb_true_iff. split; [|done]. apply bool_decide_eq_false in Hnf. lia.
    + unfold contents. simpl. unfold n. rewrite Z2Nat.inj_add, Nat2Z.id by lia.
      apply take_splice. lia.
    + done.
Qed.

(** ** Finding a connection *)

Lemma wp_find_in id l s (Q : option positive → skyuv_client_runtime → Prop) :
  (∀ p, p ∈ l → is_Some (cl_heap s !! p)) →
  (∀ p c, p ∈ l → cl_heap s !! p = Some c → cc_id c = id → Q (Some p) s) →
  ((∀ p c, p ∈ l → cl_heap s !! p = Some c → cc_id c ≠ id) → Q None s) →
  wp (find_in id l) Q s.
Proof.
  induction l as [|p l IH]; intros Hl HS HN; cbn [find_in].
  { cl_step. apply HN. by intros p c ?%elem_of_nil. }
  destruct (Hl p) as [c Hc]; [set_solver|]. do 3 cl_step.
  - cl_step. eapply HS; [set_solver|done|done].
  - apply IH.
    + intros. apply Hl. set_solver.
    + intros. eapply HS; [set_solver|done|done].
    + intros Hno. apply HN. intros q d [->|Hq]%elem_of_cons Hd; [congruence|by eapply Hno].
Qed.

Lemma wp_find_connection r q s (Q : option positive → skyuv_client_runtime → Prop) :
  CTable s → cl_requests s = {[ r := q ]} →
  (∀ p c, cl_heap s !! p = Some c → cc_id c = rq_id q → Q (Some p) s) →
  ((∀ p c, cl_heap s !! p = Some c → cc_id c ≠ rq_id q) → Q None s) →
  wp (find_connection r) Q s.
Proof.
  intros Ht Hr HS HN. unfold find_connection. do 4 cl_step. apply wp_find_in.
  - intros p. apply (ct_linked _ Ht).
  - eauto.
  - intros Hno. apply HN. intros p c Hp. apply (Hno p c); [|done]. apply (ct_linked _ Ht). eauto.
Qed.

(** While nobody waits and the runtime is not stopping, every connection is
    established. *)
Lemma unheld_established r s p c :
  unheld r s → cl_heap s !! p = Some c →
  conn_ok (cl_next_id s) c ∧ cc_tcp c = Active ∧ cc_connecting c = false ∧ cc_request c = None ∧
  cc_writing c = None ∧ cc_shutting c = None ∧ cc_timer c ≠ Active ∧ 0 < cc_id c ≤ cl_next_id s.
Proof.
  intros [Ht _ Hh Ha Hs] Hp. pose proof (ct_conn _ Ht p c Hp) as Hok.
  specialize (Hh p c Hp). unfold holds in Hh. simpl in Hh.
  apply app_eq_nil in Hh as [H1 [H2 H3]%app_eq_nil].
  assert (∀ o : option positive, option_list o = [] → o = None) as Hnone by (by intros []).
  apply Hnone in H1, H2, H3.
  destruct (Ha Hs p c Hp) as [Htcp|[? ?]]; [|congruence].
  destruct (co_phase _ _ Hok) as [[? ?]| |H]; [congruence|split_and!; try done; lia|]. by rewrite Htcp in H.
Qed.

(** ** Receiving *)

Lemma wp_read_start p c s (Q : Z → skyuv_client_runtime → Prop) :
  cl_heap s !! p = Some c →
  (∀ result, Q result (s <| cl_clock ::= S |>
     <| cl_heap ::= if result =? 0 then <[p := c <| cc_reading := true |>]> else id |>)) →
  wp (read_start p) Q s.
Proof.
  intros Hp HQ. unfold read_start. do 4 cl_step.
  - cl_step. cl_step. specialize (HQ result). by rewrite H in HQ.
  - cl_step. specialize (HQ result). rewrite H in HQ. by destruct s.
Qed.

(** Taking [k] of [n] bytes out of an array and moving the rest to its front. *)
Lemma shift_front (bytes : list Z) (n k : Z) :
  0 ≤ k ≤ n → n ≤ Z.of_nat (length bytes) →
  let array := splice 0 (take (Z.to_nat (n - k)) (drop (Z.to_nat k) bytes)) bytes in
  length array = length bytes ∧
  take (Z.to_nat k) bytes ++ take (Z.to_nat (n - k)) array = take (Z.to_nat n) bytes.
Proof.
  intros Hk Hn.
  assert (length (take (Z.to_nat (n - k)) (drop (Z.to_nat k) bytes)) = Z.to_nat (n - k)) as Hmoved.
  { rewrite length_take, length_drop. lia. }
  split; [by rewrite length_splice; [|rewrite Hmoved; simpl; lia]|].
  unfold splice. simpl take. rewrite take_app_length' by done.
  rewrite take_drop_commute, <- (take_drop (Z.to_nat k) (take (Z.to_nat n) bytes)), take_take.
  f_equal; f_equal; [lia|]. f_equal. lia.
Qed.

Lemma wp_receive_data r q s (Q : Z → skyuv_client_runtime → Prop) :
  unheld r s → cl_requests s = {[ r := q ]} → 0 < rq_size q →
  ((∀ p c, cl_heap s !! p = Some c → cc_id c ≠ rq_id q) → Q UV_EBADF s) →
  (∀ p c, cl_heap s !! p = Some c → cc_id c = rq_id q → contents c = [] →
     Q (if negb (cc_read_status c =? 0) then cc_read_status c else UV_EAGAIN)
       (s <| cl_requests := {[ r := q <| rq_size := 0 |> ]} |>)) →
  (∀ p c array n paused status reading q' clock,
     let c' := rebuffered array n paused status reading c in
     cl_heap s !! p = Some c → cc_id c = rq_id q → contents c ≠ [] → buffer_ok c' →
     rq_destination q' ++ contents c' = contents c →
     Z.of_nat (length (rq_destination q')) = Z.min (rq_size q) (Z.of_nat (length (contents c))) →
     Q 0 (s <| cl_heap ::= <[p := c']> |> <| cl_requests := {[ r := q' ]} |> <| cl_clock := clock |>)) →
  wp (receive_data r) Q s.
Proof.
  intros Hu Hr Hpos HN HE HD. pose proof Hu as [Ht _ _ _ _]. unfold receive_data. cl_step.
  eapply wp_find_connection; [done|done| |].
  2:{ intros Hno. cl_step. by apply HN. }
  intros p c Hp Hid. destruct (unheld_established r s p c Hu Hp) as (Hok & _).
  destruct (co_buffer _ _ Hok) as [Hb1 Hb2 Hb3].
  assert (length (contents c) = Z.to_nat (cc_received_size c)) as Hlen.
  { unfold contents. rewrite length_take. lia. }
  do 3 cl_step.
  { do 3 cl_step. specialize (HE p c Hp Hid).
    unfold upd_field, set_cl_requests in *; simpl in *. rewrite Hr, insert_singleton_eq.
    apply HE. apply nil_length_inv. lia. }
  set (k := if cc_received_size c <? rq_size q then cc_received_size c else rq_size q).
  assert (0 < k ≤ cc_received_size c ∧ k = Z.min (rq_size q) (cc_received_size c)) as [Hk Hkmin].
  { unfold k. destruct (Z.ltb_spec (cc_received_size c) (rq_size q)); lia. }
  do 8 cl_step. cbn [rq_size upd_field set_rq_size]. fold k.
  set (q' := q <| rq_size := k |> <| rq_destination := take (Z.to_nat k) (cc_received c) |>).
  set (m := cc_received_size c - k).
  set (array := splice 0 (take (Z.to_nat m) (drop (Z.to_nat k) (cc_received c))) (cc_received c)).
  destruct (shift_front (cc_received c) (cc_received_size c) k) as [Harray Hcont]; [lia..|].
  fold m in Harray, Hcont. fold array in Harray, Hcont. rewrite Hb1 in Harray.
  assert (Z.of_nat (length (rq_destination q')) =
    Z.min (rq_size q) (Z.of_nat (length (contents c)))) as Hdest.
  { simpl. rewrite length_take. lia. }
  assert (contents c ≠ []) as Hne by (intros E; rewrite E in Hlen; simpl in Hlen; lia).
  assert (∀ paused status reading clock,
    (reading = true → paused = false ∧ status = 0) →
    Q 0 (s <| cl_heap ::= <[p := rebuffered array m paused status reading c]> |>
           <| cl_requests := {[ r := q' ]} |> <| cl_clock := clock |>)) as Hfin.
  { intros paused status reading clock Hrp. apply HD; try done. split; simpl; try done; [lia|].
    intros Hrd. split; [lia|auto]. }
  clear HN HE HD. do 4 cl_step.
  set (c1 := (c <| cc_received_size ::= λ m, m - k |>) <| cc_received ::= _ |>).
  change c1 with (rebuffered array m (cc_paused c) (cc_read_status c) (cc_reading c) c).
  clear c1. unfold upd_field, set_cl_requests, set_cl_heap, set_cl_clock in *; simpl in *.
  rewrite Hr, !insert_singleton_eq, insert_insert_eq.
  do 2 cl_step.
  - cl_step. eapply wp_read_start; [cl_lookup|]. intros result. do 2 cl_step.
    + apply negb_true_iff in H0. rewrite H0. unfold upd_field, set_cl_heap; simpl. do 3 cl_step.
      unfold upd_field, set_cl_heap; simpl. rewrite !insert_insert_eq.
      apply (Hfin false result (cc_reading c) (S (cl_clock s))). intros Hrd.
      destruct (Hb3 Hrd) as (_ & Hpz & _). apply andb_true_iff in H as [? _]. congruence.
    + apply negb_false_iff in H0. rewrite H0. unfold upd_field, set_cl_heap; simpl. do 2 cl_step.
      unfold upd_field, set_cl_heap; simpl. rewrite !insert_insert_eq.
      apply (Hfin false (cc_read_status c) true (S (cl_clock s))). intros _.
      by apply andb_true_iff in H as [_ ?%Z.eqb_eq].
  - cl_step. simpl. apply (Hfin (cc_paused c) (cc_read_status c) (cc_reading c) (cl_clock s)).
    intros Hrd. by apply Hb3.
Qed.

(** ** Completion *)

Lemma wp_complete r q result (Q : unit → skyuv_client_runtime → Prop) s :
  cl_requests s !! r = Some q →
  Q tt (s <| cl_requests ::= delete r |>
          <| cl_completed ::= λ l, l ++ [(r, q <| rq_result := result |>)] |>) →
  wp (complete r result) Q s.
Proof. intros Hr HQ. unfold complete. do 2 cl_step. by cl_step. Qed.

Lemma unlink_spec p l :
  NoDup l → p ∈ l → ∃ l', unlink p l = Some l' ∧ NoDup l' ∧ ∀ q, q ∈ l' ↔ q ∈ l ∧ q ≠ p.
Proof.
  induction 1 as [|q l Hq Hnd IH]; intros Hp; [by apply elem_of_nil in Hp|]. simpl.
  destruct (decide (q = p)) as [->|Hne].
  - exists l. split_and!; [done|done|]. intros x. rewrite elem_of_cons. split; [|naive_solver].
    intros Hx. split; [by right|]. by intros ->.
  - apply elem_of_cons in Hp as [->|Hp]; [done|]. destruct (IH Hp) as (l' & -> & Hnd' & Hl').
    exists (q :: l'). split_and!; [done| |].
    + constructor; [|done]. rewrite Hl'. tauto.
    + intros x. rewrite !elem_of_cons, Hl'. naive_solver.
Qed.

(** The connection at [p] is unlinked and released. *)
Lemma CTable_removed p l s s' :
  CTable s → NoDup l → (∀ q, q ∈ l ↔ q ∈ cl_connections s ∧ q ≠ p) →
  cl_heap s' = delete p (cl_heap s) → cl_connections s' = l → cl_next_id s' = cl_next_id s →
  cl_next_ptr s' = cl_next_ptr s → (∀ r, cl_requests s !! r = None → cl_requests s' !! r = None) →
  CTable s'.
Proof.
  intros [Hnd Hl Hc Hid Hn Hf] Hndl Hll Hh Hcs Hni Hnp Hr.
  split; rewrite ?Hcs, ?Hni, ?Hh; try done.
  - intros q. rewrite Hll, Hl, lookup_delete_is_Some. naive_solver.
  - intros q d. rewrite lookup_delete_Some. naive_solver.
  - intros q1 q2 d1 d2. rewrite !lookup_delete_Some. naive_solver.
  - intros q. rewrite Hnp. intros Hq. destruct (Hf q Hq) as [H1 H2].
    split; [by rewrite lookup_delete_None; right|by apply Hr].
Qed.

Lemma held_removed o p s s' :
  held o s → cl_heap s' = delete p (cl_heap s) →
  held (match o with Some (q, r) => if decide (q = p) then None else Some (q, r) | None => None end) s'.
Proof.
  intros Hh He q d. rewrite He, lookup_delete_Some. intros [Hne Hd]. rewrite (Hh q d Hd).
  destruct o as [[q' r]|]; [|done]. destruct (decide (q' = p)) as [->|]; [|done]. by apply share_other.
Qed.

Lemma awaited_removed p s s' :
  awaited s → cl_stopping s' = cl_stopping s → cl_heap s' = delete p (cl_heap s) → awaited s'.
Proof.
  intros Ha Hst He Hs q d. rewrite He, lookup_delete_Some. rewrite Hst in Hs.
  intros [_ Hd]. by apply (Ha Hs q).
Qed.

(** The last close callback of a connection: the connection goes, and so does
    the caller that waited for it. *)
Lemma CInv_removed p c l s s' :
  CInv s → cl_heap s !! p = Some c → cc_writing c = None → cc_shutting c = None →
  NoDup l → (∀ q, q ∈ l ↔ q ∈ cl_connections s ∧ q ≠ p) →
  cl_heap s' = delete p (cl_heap s) → cl_connections s' = l → cl_next_id s' = cl_next_id s →
  cl_next_ptr s' = cl_next_ptr s → cl_stopping s' = cl_stopping s →
  cl_requests s' = match cc_request c with Some r => delete r (cl_requests s) | None => cl_requests s end →
  CInv s'.
Proof.
  intros HI Hp Hw Hs Hnd Hl He Hcs Hni Hnp Hst Hrq. pose proof HI as [Ht Hwt Ha].
  assert (∀ r, cl_requests s !! r = None → cl_requests s' !! r = None) as Hmono.
  { intros r Hr. rewrite Hrq. destruct (cc_request c); [by rewrite lookup_delete_None; right|done]. }
  split; [by eapply CTable_removed| |by eapply awaited_removed].
  destruct Hwt as [[Hr Hh]|(r & q & p' & Hr & Hin & Hh)].
  - left. split; [|by apply (held_removed None p s)].
    rewrite Hrq, Hr. destruct (cc_request c); [apply delete_empty|done].
  - pose proof (Hh p c Hp) as Hho. unfold holds in Hho. rewrite Hw, Hs in Hho. simpl in Hho.
    rewrite app_nil_r in Hho. pose proof (held_removed _ p s s' Hh He) as Hh'. simpl in Hh'.
    destruct (decide (p' = p)) as [->|Hne].
    + left. split; [|done]. rewrite Hrq. rewrite decide_True in Hho by done.
      destruct (cc_request c); simplify_eq/=. by rewrite Hr, delete_singleton_eq.
    + right. rewrite decide_False in Hho by done. destruct (cc_request c); [done|].
      exists r, q, p'. split_and!; [congruence| |done]. by rewrite He, lookup_delete_is_Some.
Qed.

Lemma wp_connection_closed p c c1 s :
  CInv s → cl_heap s !! p = Some c → cc_id c1 = cc_id c → cc_request c1 = cc_request c →
  holds c1 = holds c → cc_handles c1 = cc_handles c →
  let c2 := c1 <| cc_handles ::= λ n, n - 1 |> in
  (cc_handles c ≠ 1 → conn_ok (cl_next_id s) c2 ∧ work c2 < work c ∧
     (cc_tcp c2 = Active ∨ is_Some (cc_request c) ∨ cl_stopping s = true)) →
  (cc_handles c = 1 → cc_writing c = None ∧ cc_shutting c = None) →
  wp (connection_closed p) (λ _ s', CInv s' ∧ progressed p c s s')
    (s <| cl_heap ::= <[p := c1]> |>).
Proof.
  intros HI Hp Hid Hrq Hho Hhd c2 Hmore Hlast. unfold connection_closed.
  assert (0 < cc_handles c) as Hpos by (by apply (co_alive _ _ (ct_conn _ (cv_table _ HI) p c Hp))).
  do 5 cl_step; simpl in *.
  - do 2 cl_step. destruct Hlast as [Hw Hs]; [lia|].
    destruct (unlink_spec p (cl_connections s)) as (l & Hl & Hnd & Hin).
    { apply (ct_nodup _ (cv_table _ HI)). }
    { apply (ct_linked _ (cv_table _ HI)). eauto. }
    simpl. rewrite Hl. do 4 cl_step. simpl. rewrite Hrq.
    assert (∀ s', cl_heap s' = delete p (cl_heap s) → cl_connections s' = l →
      cl_next_id s' = cl_next_id s → cl_next_ptr s' = cl_next_ptr s → cl_stopping s' = cl_stopping s →
      cl_requests s' = match cc_request c with Some r => delete r (cl_requests s) | None => cl_requests s end →
      CInv s') as Hfin by (intros; by eapply (CInv_removed p c l s)).
    assert (holds c = option_list (cc_request c)) as Hh
      by (unfold holds; rewrite Hw, Hs; simpl; by rewrite app_nil_r).
    destruct (cc_request c) as [r|] eqn:Er.
    + destruct (held_request s p c r HI Hp) as (_ & [q Hq] & _); [rewrite Hh; set_solver|].
      do 2 cl_step. eapply wp_complete; [cl_lookup|]. split.
      * apply Hfin; simpl; try done. by rewrite !delete_insert_eq.
      * eapply (progressed_completed p c r q); try done. simpl. by rewrite Hq, delete_singleton_eq.
    + cl_step. split.
      * apply Hfin; simpl; try done. by rewrite !delete_insert_eq.
      * intros r' q' Hr'. by rewrite Hh in Hr'.
  - cl_step. destruct Hmore as (Hok & Hwk & Haw); [lia|]. split.
    + eapply (CInv_update p c c2 s); try done.
      * simpl. by rewrite insert_insert_eq.
      * by left.
      * intros Hst. simpl. rewrite Hrq. destruct Haw as [?|[?|?]]; [by left|by right|congruence].
    + apply (progressed_work p c c2 id); try done; [|cl_lookup].
      intros r Hr. simpl. by rewrite alter_id by done.
Qed.

(** ** Callbacks *)

(** The next id is handed out: the other connections stay as they are. *)
Lemma conn_ok_next next_id c :
  conn_ok next_id c → holds c = [] → conn_ok (next_id + 1) c.
Proof.
  intros [Hb Hh Hpos Ht Hph Hmax] Hho. split; try done. unfold holds in Hho.
  destruct Hph as [[r Hr]|? ? ? ? ?|? ? ? ? ? ? ? ?].
  - by rewrite Hr in Hho.
  - apply Established; try done. lia.
  - apply Ending; try done; lia.
Qed.

Lemma CInv_connected p c c' r s s' :
  CInv s → cl_heap s !! p = Some c → holds c = [r] → cl_heap s' = <[p := c']> (cl_heap s) →
  cl_connections s' = cl_connections s → cl_next_id s' = cl_next_id s + 1 →
  cl_next_ptr s' = cl_next_ptr s → cl_stopping s' = cl_stopping s → cl_requests s' = ∅ →
  cc_id c = cl_next_id s + 1 → cc_id c' = cc_id c → holds c' = [] →
  conn_ok (cl_next_id s + 1) c' → cc_tcp c' = Active → CInv s'.
Proof.
  intros HI Hp Hr He Hcs Hni Hnp Hst Hrq Hidc Hid Hho Hok Htcp.
  destruct (held_request s p c r HI Hp) as (_ & _ & Hh); [rewrite Hr; set_solver|].
  destruct HI as [[Hnd Hl Hc Hids Hn Hf] Hw Ha]. split; [split| |].
  - by rewrite Hcs.
  - intros q. rewrite Hcs, Hl, He, lookup_insert_is_Some'. naive_solver.
  - intros q d. rewrite He, Hni, lookup_insert_Some. intros [[<- <-]|[Hne Hd]]; [done|].
    apply conn_ok_next; [by eapply Hc|]. rewrite (Hh q d Hd). by apply share_other.
  - intros q1 q2 d1 d2. rewrite He, !lookup_insert_Some.
    intros [[<- <-]|[? H1]] [[<- <-]|[? H2]] Heq; [done| | |]; try (rewrite Hid in Heq);
      by eapply Hids.
  - pose proof (co_id _ _ (Hc p c Hp)). lia.
  - intros q. rewrite Hnp, He, Hrq. intros Hq. destruct (Hf q Hq) as [H1 H2]. split; [|done].
    rewrite lookup_insert_ne; [done|]. intros <-. congruence.
  - left. split; [done|]. eapply held_update; [done|done|by rewrite Hho|].
    intros q Hne. by rewrite share_other.
  - eapply awaited_update; [done..|]. auto.
Qed.

(** The request a connection in need of one has. *)
Lemma holds_request c r :
  cc_request c = Some r → cc_writing c = None → cc_shutting c = None → holds c = [r].
Proof. intros Hr Hw Hs. unfold holds. by rewrite Hr, Hw, Hs. Qed.

(** Less work is left once a connection is closing. *)
Lemma closed_conn_work c :
  cc_tcp c ≠ NotInitialized → cc_timer_initialized c = bool_decide (cc_timer c ≠ NotInitialized) →
  work (closed_conn c) ≤ work c ∧ (cc_tcp c = Active → work (closed_conn c) < work c).
Proof.
  intros Htcp Hti. unfold closed_conn, work. rewrite Hti.
  destruct (cc_tcp c) eqn:E1, (cc_timer c) eqn:E2; simpl; rewrite ?E1, ?E2; simpl; try done;
    split; intros; try done; lia.
Qed.

(** A connection ends for the caller that waits for it: the state after its
    request's result is set and the connection closed. *)
Lemma CInv_ends p c c1 r f s s' :
  CInv s → cl_heap s !! p = Some c → holds c = [r] → cc_id c1 = cc_id c →
  cc_request c1 = Some r → holds c1 = holds c → conn_ok (cl_next_id s) (closed_conn c1) →
  work (closed_conn c1) < work c →
  cl_heap s' = <[p := closed_conn c1]> (cl_heap s) → cl_connections s' = cl_connections s →
  cl_next_id s' = cl_next_id s → cl_next_ptr s' = cl_next_ptr s → cl_stopping s' = cl_stopping s →
  cl_requests s' = alter f r (cl_requests s) → (∀ q, rq_source (f q) = rq_source q) →
  cl_completed s' = cl_completed s → CInv s' ∧ progressed p c s s'.
Proof.
  intros HI Hp Hr Hid Hrq Hho Hok Hwk He Hcs Hni Hnp Hst Hreq Hsrc Hcm.
  destruct (closed_conn_same c1) as (E1 & E2 & E3 & _).
  destruct (held_request s p c r HI Hp) as (_ & [q Hq] & _); [rewrite Hr; set_solver|]. split.
  - eapply (CInv_update p c (closed_conn c1) s); try done.
    + right. exists r, q, (f q). split; [done|]. by rewrite Hreq, Hq, alter_singleton_eq.
    + congruence.
    + congruence.
    + intros _. right. rewrite E2, Hrq. eauto.
  - apply (progressed_work p c (closed_conn c1) f); try done; [|by rewrite He, lookup_insert_eq|congruence].
    intros r' Hr'. congruence.
Qed.

Lemma on_timeout_ok p c s :
  CInv s → cl_heap s !! p = Some c → cc_timer c = Active →
  wp (run_client_callback (OnTimeout p)) (λ _ s', CInv s' ∧ progressed p c s s') s.
Proof.
  intros HI Hp Ht. pose proof (ct_conn _ (cv_table _ HI) p c Hp) as Hok.
  destruct (co_phase _ _ Hok) as [[r Hr] Htcp Hco _ Hto Hrd Hw Hs Hid| |]; [|done|done].
  pose proof (holds_request c r Hr Hw Hs) as Hho.
  destruct (held_request s p c r HI Hp) as (_ & [q Hq] & _); [rewrite Hho; set_solver|].
  simpl. unfold connection_timeout, conn_request. do 5 cl_step. simpl. rewrite Hr. do 3 cl_step.
  eapply wp_close_connection; [cl_lookup|].
  eapply (CInv_ends p c (c <| cc_timed_out := true |>) r (λ q, q <| rq_result := UV_ETIMEDOUT |>)); try done.
  - destruct Hok as [Hb Hh Hpos Hti _ Hmax]. apply closed_conn_ok; simpl; try done; try congruence.
    + by destruct Hb.
    + rewrite Htcp. eauto.
    + pose proof (ct_next _ (cv_table _ HI)). lia.
  - eapply Z.lt_le_trans; [apply closed_conn_work; simpl; try done; [congruence|apply Hok]|done].
  - simpl. by rewrite insert_insert_eq.
  - simpl. rewrite Hq. by rewrite insert_singleton_eq, alter_singleton_eq.
Qed.

Lemma on_read_ok p c data error s :
  CInv s → cl_heap s !! p = Some c → cc_reading c = true →
  Z.of_nat (length data) ≤ (allocate_read c).2 → error ≤ 0 →
  wp (run_client_callback (OnRead p data error)) (λ _ s', CInv s') s.
Proof.
  intros HI Hp Hrd Hlen Herr. pose proof (ct_conn _ (cv_table _ HI) p c Hp) as Hok.
  destruct (co_phase _ _ Hok) as [|Hr Htcp Hco Hti Hid|]; [congruence| |congruence].
  eapply wp_read_callback; [done|apply Hok|done|done|done|].
  intros array n paused status reading revision c' Hb _ _.
  eapply (CInv_update p c c' s); try done; [by left|by apply rebuffered_ok|]. by left.
Qed.

(** The completion of a write or a shutdown: [c'] is the connection without the
    request. *)
Lemma on_completed_ok p c c' r status s :
  CInv s → cl_heap s !! p = Some c → r ∈ option_list (cc_writing c) ++ option_list (cc_shutting c) →
  cc_id c' = cc_id c → cc_request c' = cc_request c → cc_tcp c' = cc_tcp c →
  (holds c = [r] → cc_request c = None → holds c' = []) →
  (conn_phase (cl_next_id s) c → cc_request c = None → cc_tcp c = Active →
   conn_ok (cl_next_id s) c') →
  wp (complete r status) (λ _ s', CInv s' ∧ progressed p c s s')
    (s <| cl_heap ::= <[p := c']> |>).
Proof.
  intros HI Hp Hin Hid Hrq Htcp Hh' Hok'. pose proof (ct_conn _ (cv_table _ HI) p c Hp) as Hok.
  destruct (held_request s p c r HI Hp) as (Hho & [q Hq] & _); [unfold holds; set_solver|].
  assert (cc_request c = None ∧ cc_tcp c = Active) as [Hr Ht].
  { destruct (co_phase _ _ Hok) as [? ? ? ? ? ? Hw Hs|? ? ? ? ?|? ? ? Hw Hs]; [|done|];
      rewrite Hw, Hs in Hin; by apply elem_of_nil in Hin. }
  eapply wp_complete; [cl_lookup|]. split.
  - eapply (CInv_completed p c c' r s); try done; simpl.
    + by rewrite Hq, delete_singleton_eq.
    + auto.
    + apply Hok'; [apply Hok|done|done].
    + intros _. left. congruence.
  - eapply (progressed_completed p c r q); try done. simpl. by rewrite Hq, delete_singleton_eq.
Qed.

Lemma on_written_ok p c status s :
  CInv s → cl_heap s !! p = Some c → is_Some (cc_writing c) →
  wp (run_client_callback (OnWritten p status)) (λ _ s', CInv s' ∧ progressed p c s s') s.
Proof.
  intros HI Hp [r Hr]. pose proof (ct_conn _ (cv_table _ HI) p c Hp) as Hok. simpl. do 2 cl_step.
  rewrite Hr. do 2 cl_step. unfold written. eapply on_completed_ok; try done.
  - rewrite Hr. set_solver.
  - intros Hho Hn. unfold holds in *. simpl in *. rewrite Hn, Hr in Hho. rewrite Hn. simpl in *.
    by destruct (cc_shutting c).
  - intros Hph Hn Ht. destruct Hok as [Hb Hh Hpos Hti _ Hmax]. split; try done; [by destruct Hb|].
    destruct Hph as [[? ?]| |E]; [congruence|by apply Established|]. by rewrite Ht in E.
Qed.

Lemma on_shutdown_ok p c status s :
  CInv s → cl_heap s !! p = Some c → is_Some (cc_shutting c) →
  wp (run_client_callback (OnShutdown p status)) (λ _ s', CInv s' ∧ progressed p c s s') s.
Proof.
  intros HI Hp [r Hr]. pose proof (ct_conn _ (cv_table _ HI) p c Hp) as Hok. simpl. do 2 cl_step.
  rewrite Hr. do 2 cl_step. unfold shutdown_done. eapply on_completed_ok; try done.
  - rewrite Hr. set_solver.
  - intros Hho Hn. unfold holds in *. simpl in *. rewrite Hn, Hr in Hho. rewrite Hn. simpl in *.
    by destruct (cc_writing c).
  - intros Hph Hn Ht. destruct Hok as [Hb Hh Hpos Hti _ Hmax]. split; try done; [by destruct Hb|].
    destruct Hph as [[? ?]| |E]; [congruence|by apply Established|]. by rewrite Ht in E.
Qed.

Lemma on_tcp_closed_ok p c s :
  CInv s → cl_heap s !! p = Some c → cc_tcp c = Closing → cc_connecting c = false →
  wp (run_client_callback (OnTcpClosed p)) (λ _ s', CInv s' ∧ progressed p c s s') s.
Proof.
  intros HI Hp Ht Hco. pose proof (ct_conn _ (cv_table _ HI) p c Hp) as Hok. simpl. do 2 cl_step.
  destruct (co_phase _ _ Hok) as [|? E|_ Htm Hrd Hw Hs _ Hid1 Hid2]; [congruence|congruence|].
  pose proof (cv_awaited _ HI) as Ha. eapply (wp_connection_closed p c); try done.
  intros Hne. destruct Hok as [Hb Hh Hpos Hti _ Hmax]. rewrite Ht in Hh. simpl in Hh. split_and!.
  - split; simpl; try done; [by destruct Hb|lia|lia|].
    apply Ending; simpl; try done. congruence.
  - unfold work. simpl. rewrite Ht. simpl. lia.
  - right. destruct (cl_stopping s) eqn:Hst; [by right|left].
    destruct (Ha Hst p c Hp) as [?|?]; [congruence|done].
Qed.

Lemma on_timer_closed_ok p c s :
  CInv s → cl_heap s !! p = Some c → cc_timer c = Closing →
  wp (run_client_callback (OnTimerClosed p)) (λ _ s', CInv s' ∧ progressed p c s s') s.
Proof.
  intros HI Hp Ht. pose proof (ct_conn _ (cv_table _ HI) p c Hp) as Hok. simpl. do 2 cl_step.
  pose proof (cv_awaited _ HI) as Ha. eapply (wp_connection_closed p c); try done.
  - intros Hne. destruct Hok as [Hb Hh Hpos Hti Hph Hmax]. rewrite Ht in *. simpl in Hh, Hti. split_and!.
    + split; simpl; try done; [by destruct Hb|lia|lia|].
      destruct Hph as [? ? ? E|? ? ? ? ?|? ? ? ? ? ? ? ?]; [by rewrite Ht in E|by apply Established|by apply Ending].
    + unfold work. simpl. rewrite Ht. simpl. lia.
    + simpl. destruct (cl_stopping s) eqn:Hst; [by right; right|].
      destruct (Ha Hst p c Hp) as [?|?]; [by left|by right; left].
  - intros Hone. destruct Hok as [Hb Hh Hpos Hti Hph Hmax]. rewrite Ht, Hone in Hh. simpl in Hh.
    destruct Hph as [? E|? E|? ? ? ? ?]; [rewrite E in Hh; simpl in Hh; lia
      |rewrite E in Hh; simpl in Hh; lia|done].
Qed.

(** The timer of a connection that stops connecting. *)
Definition untimed c : client_connection :=
  if cc_timer_initialized c && negb (handle_closing (cc_timer c))
  then c <| cc_timer := Closing |> else c.

Lemma wp_untime p c s (Q : unit → skyuv_client_runtime → Prop) :
  cl_heap s !! p = Some c → Q tt (s <| cl_heap ::= <[p := untimed c]> |>) →
  wp (whenM (cc_timer_initialized c && negb (handle_closing (cc_timer c))) (close_timer p)) Q s.
Proof.
  intros Hp HQ. unfold untimed in HQ. destruct (_ && _); unfold whenM, close_timer; cl_step; [done|].
  destruct s; simpl in *. unfold upd_field, set_cl_heap in HQ. simpl in HQ. by rewrite insert_id in HQ.
Qed.

Lemma untimed_same c :
  cc_tcp (untimed c) = cc_tcp c ∧ cc_request (untimed c) = cc_request c ∧
  cc_id (untimed c) = cc_id c ∧ holds (untimed c) = holds c ∧
  cc_writing (untimed c) = cc_writing c ∧ cc_shutting (untimed c) = cc_shutting c ∧
  cc_connecting (untimed c) = cc_connecting c ∧ cc_reading (untimed c) = cc_reading c ∧
  cc_handles (untimed c) = cc_handles c ∧ (buffer_ok c → buffer_ok (untimed c)) ∧
  cc_received_size (untimed c) = cc_received_size c ∧ cc_paused (untimed c) = cc_paused c ∧
  cc_read_status (untimed c) = cc_read_status c.
Proof. unfold untimed. destruct (_ && _); split_and!; try done; intros []; by split. Qed.

Lemma untimed_timer c :
  cc_timer_initialized c = bool_decide (cc_timer c ≠ NotInitialized) →
  cc_timer_initialized (untimed c) = bool_decide (cc_timer (untimed c) ≠ NotInitialized) ∧
  open_handles (cc_timer (untimed c)) = open_handles (cc_timer c) ∧ cc_timer (untimed c) ≠ Active ∧
  work (untimed c) ≤ work c.
Proof.
  intros Hti. unfold untimed, work. rewrite Hti. destruct (cc_timer c) eqn:E; simpl;
    rewrite ?Hti, ?E; simpl; split_and!; try done; lia.
Qed.

(** A connect that fails: the request of the caller gets the result and the
    connection ends. *)
Lemma connect_failed_ok p c c1 r result s s1 :
  CInv s → cl_heap s !! p = Some c → cc_connecting c = true → cc_request c = Some r →
  cc_tcp c1 = cc_tcp c → cc_request c1 = cc_request c → cc_id c1 = cc_id c → holds c1 = holds c →
  cc_writing c1 = None → cc_shutting c1 = None → cc_connecting c1 = false →
  buffer_ok c1 → cc_reading c1 = false → cc_handles c1 = cc_handles c →
  cc_handles c1 = open_handles (cc_tcp c1) + open_handles (cc_timer c1) →
  cc_timer_initialized c1 = bool_decide (cc_timer c1 ≠ NotInitialized) → work c1 < work c →
  cl_heap s1 = <[p := c1]> (cl_heap s) → cl_connections s1 = cl_connections s →
  cl_next_id s1 = cl_next_id s → cl_next_ptr s1 = cl_next_ptr s → cl_stopping s1 = cl_stopping s →
  cl_requests s1 = cl_requests s → cl_completed s1 = cl_completed s →
  wp (set_request r (λ q, q <| rq_result := result |>) ;; close_connection p)
    (λ _ s', CInv s' ∧ progressed p c s s') s1.
Proof.
  intros HI Hp Hco Hr Ht Hrq Hid Hho Hw Hs Hco1 Hb Hrd Hhd Hh Hti Hwk He Hcs Hni Hnp Hst Hreq Hcm.
  pose proof (ct_conn _ (cv_table _ HI) p c Hp) as Hok.
  assert (cc_writing c = None ∧ cc_shutting c = None ∧ 0 < cc_id c ≤ cl_next_id s + 1 ∧
    cc_tcp c ≠ NotInitialized) as (Hw0 & Hs0 & Hid0 & Ht0).
  { pose proof (ct_next _ (cv_table _ HI)).
    destruct (co_phase _ _ Hok) as [? E|? ? E|E]; [|congruence|].
    - split_and!; try done; try lia. congruence.
    - split_and!; try done; try lia. by destruct (cc_tcp c). }
  pose proof (holds_request c r Hr Hw0 Hs0) as Hho0.
  destruct (held_request s p c r HI Hp) as (_ & [q Hq] & _); [rewrite Hho0; set_solver|].
  cl_step. eapply wp_set_request; [by rewrite Hreq, Hq, lookup_singleton_eq|].
  eapply wp_close_connection; [by simpl; rewrite He, lookup_insert_eq|].
  eapply (CInv_ends p c c1 r (λ q, q <| rq_result := result |>)); try done; simpl.
  - congruence.
  - apply closed_conn_ok; try done.
    + rewrite Hhd. apply Hok.
    + congruence.
    + congruence.
    + lia.
    + intros _. rewrite Hrq, Hr. eauto.
    + rewrite Hid. apply Hok.
  - eapply Z.le_lt_trans; [apply closed_conn_work; [congruence|done]|done].
  - by rewrite He, insert_insert_eq.
  - rewrite Hreq, Hq, insert_singleton_eq. by rewrite alter_singleton_eq.
Qed.

(** A connection whose connect has succeeded, while it reads. *)
Lemma connected_conn_ok next_id c :
  conn_ok next_id c → cc_tcp c = Active → cc_received_size c = 0 → cc_paused c = false →
  cc_read_status c = 0 → 0 < cc_id c ≤ next_id + 1 →
  conn_ok (next_id + 1) ((untimed (c <| cc_connecting := false |>))
    <| cc_reading := true |> <| cc_request := None |>).
Proof.
  intros [[G1 G2 G3] Hh Hpos Hti _ Hmax] Htcp Hn Hpz Hst Hid. set (c1 := c <| cc_connecting := false |>).
  destruct (untimed_same c1) as (E1 & _ & E3 & _ & _ & _ & E7 & _ & E9 & E10 & E15 & E16 & E17).
  destruct (untimed_timer c1 Hti) as (E11 & E12 & E13 & _).
  destruct E10 as [F1 F2 F3]; [by split|]. simpl in *.
  split; simpl; [|congruence|by rewrite E9|done| |by rewrite E3].
  - split; simpl; try done. intros _. by rewrite E15, E16, E17, Hn, Hpz, Hst.
  - apply Established; simpl; congruence.
Qed.

Lemma on_connected_ok p c status s :
  CInv s → cl_heap s !! p = Some c → cc_connecting c = true →
  cc_tcp c = Active ∨ status = UV_ECANCELED →
  wp (run_client_callback (OnConnected p status)) (λ _ s', CInv s' ∧ progressed p c s s') s.
Proof.
  intros HI Hp Hco Hst. pose proof (ct_conn _ (cv_table _ HI) p c Hp) as Hok.
  pose proof Hok as [Hb Hh Hpos Hti Hph Hmax]. simpl. do 2 cl_step.
  set (c1 := c <| cc_connecting := false |>).
  assert (work c1 < work c) as Hwk by (unfold work, c1; simpl; rewrite Hco; simpl; lia).
  assert (buffer_ok c1) as Hb1 by (by destruct Hb).
  unfold connected, conn_request. do 2 cl_step. change (cc_timed_out c1) with (cc_timed_out c).
  destruct Hph as [[r Hr] Htcp _ Htm Hto Hrd Hw Hs Hid Hn Hpz Hst0| |Htcp Htm Hrd Hw Hs Hcr Hid1 Hid2];
    [|congruence|].
  - pose proof (holds_request c r Hr Hw Hs) as Hho.
    destruct (held_request s p c r HI Hp) as (_ & [q Hq] & _); [rewrite Hho; set_solver|].
    rewrite Hto. cl_step. eapply wp_untime; [cl_lookup|]. set (c2 := untimed c1).
    destruct (untimed_same c1) as (E1 & E2 & E3 & E4 & E5 & E6 & E7 & E8 & E9 & E10 & E15 & E16 & E17).
    destruct (untimed_timer c1 Hti) as (E11 & E12 & E13 & E14). specialize (E10 Hb1). 
    fold c2 in E1, E2, E3, E4, E5, E6, E7, E8, E9, E10, E11, E12, E13, E14, E15, E16, E17.
    cl_step. eapply (wp_mono _ (λ result s',
      ∃ clock, s' = s <| cl_heap ::= <[p := if result =? 0 then c2 <| cc_reading := true |> else c2]> |>
        <| cl_clock := clock |>)).
    { cl_step.
      - eapply wp_read_start; [cl_lookup|]. intros result. exists (S (cl_clock s)).
        unfold upd_field, set_cl_heap, set_cl_clock. simpl.
        destruct (result =? 0); simpl; by rewrite !insert_insert_eq.
      - cl_step. exists (cl_clock s). destruct (Z.eqb_spec status 0); [done|].
        unfold upd_field, set_cl_heap, set_cl_clock. simpl. by rewrite insert_insert_eq. }
    change (cc_request c1) with (cc_request c) in E2. rewrite Hr in E2.
    intros result s' [clock ->]. destruct (Z.eqb_spec result 0) as [->|Hne].
    + set (c3 := c2 <| cc_reading := true |>). do 3 cl_step. change (cc_request c3) with (cc_request c2).
      rewrite E2. cl_step. cbv beta. simpl negb. do 6 cl_step.
      eapply wp_complete; [cl_lookup|]. split.
      * eapply (CInv_connected p c (c3 <| cc_request := None |>) r s); try done; simpl.
        -- by rewrite insert_insert_eq.
        -- by rewrite Hq, insert_singleton_eq, delete_singleton_eq.
        -- unfold holds in *. simpl. rewrite E5, E6. change (option_list (cc_writing c) ++ option_list (cc_shutting c) = []).
           by rewrite Hw, Hs.
        -- apply (connected_conn_ok _ c); try done. pose proof (ct_next _ (cv_table _ HI)). lia.
        -- by rewrite E1.
      * eapply (progressed_completed p c r q); try done. simpl.
        by rewrite Hq, insert_singleton_eq, delete_singleton_eq.
    + do 3 cl_step. rewrite E2. cl_step. cbv beta.
      eapply (connect_failed_ok p c c2 r result s); try done; simpl.
      all: first [lia | by rewrite E2 | by rewrite E4 | by rewrite E5 | by rewrite E6 | by rewrite E8
        | by rewrite E9, E1, E12].
  - destruct (Hcr Hco) as (Htcp' & [r Hr] & ->). cl_step. split.
    + eapply (CInv_update p c c1 s); try done; [by left| |].
      * split; try done. by apply Ending.
      * intros _. right. change (is_Some (cc_request c)). rewrite Hr. eauto.
    + apply (progressed_work p c c1 id); try done; [|cl_lookup].
      intros r' Hr'. simpl. by rewrite alter_id by done.
Qed.

(** ** All of them *)

(** The connection a callback is for. *)
Definition callback_conn (cb : client_callback) : positive :=
  match cb with
  | OnConnected p _ | OnTimeout p | OnRead p _ _ | OnWritten p _ | OnShutdown p _
  | OnTcpClosed p | OnTimerClosed p => p
  end.

Definition is_read (cb : client_callback) : bool :=
  match cb with OnRead _ _ _ => true | _ => false end.

Lemma client_callback_ok cb s :
  CInv s → client_enabled cb s →
  wp (run_client_callback cb) (λ _ s', CInv s' ∧
    (is_read cb = false → ∀ c, cl_heap s !! callback_conn cb = Some c →
     progressed (callback_conn cb) c s s')) s.
Proof.
  intros HI; destruct cb; simpl client_enabled; intros (c & Hp & Hen).
  3:{ destruct Hen as (? & ? & ?). eapply wp_mono; [by eapply on_read_ok|]. by split. }
  all: eapply (wp_mono _ (λ _ s', CInv s' ∧ progressed p c s s'));
    [|intros _ s' [? ?]; split; [done|intros _ c' Hc'; simpl in *; by simplify_eq]].
  - destruct Hen. by apply on_connected_ok.
  - by apply on_timeout_ok.
  - by apply on_written_ok.
  - by apply on_shutdown_ok.
  - destruct Hen as (? & ? & _). by apply on_tcp_closed_ok.
  - by apply on_timer_closed_ok.
Qed.

End lemmas.
