(* ===== verification/ClientCalls.v ===== *)
(** * Safety of the client's calls

    Every call of the client keeps the invariant of [ClientInvariant] and never
    faults; a request that was accepted has been completed or is held by exactly
    one connection, a refused one is gone. *)
From S2P Require Import Prelude ClientRuntime ClientInvariant ClientSafety.

#[global] Opaque zero_array.

(** The codes of libuv are errors. *)
Ltac client_code :=
  let H := fresh in
  pose proof client_codes as H; decompose_Forall_hyps; try lia; try done.

Section calls.
Context {env : ClientEnv} {laws : ClientEnvLaws env}.
Implicit Types (s : skyuv_client_runtime) (c : client_connection) (p r : positive).

(** ** States with a request nobody holds *)

Lemma unheld_same r s s' :
  unheld r s → cl_heap s' = cl_heap s → cl_connections s' = cl_connections s →
  cl_next_id s' = cl_next_id s → cl_next_ptr s' = cl_next_ptr s →
  cl_stopping s' = cl_stopping s → (∃ q, cl_requests s' = {[ r := q ]}) → unheld r s'.
Proof.
  intros [Ht [q Hq] Hh Ha Hs] He Hcs Hni Hnp Hst [q' Hq']. split.
  - eapply CTable_same; [done..|]. intros r'. rewrite Hq, Hq', !lookup_singleton_None. done.
  - eauto.
  - intros p c. rewrite He. apply Hh.
  - intros Hst' p c. rewrite He. apply Ha. congruence.
  - congruence.
Qed.

(** A connection that stays without a request is changed. *)
Lemma unheld_update r p c c' s s' :
  unheld r s → cl_heap s !! p = Some c → cl_heap s' = <[p := c']> (cl_heap s) →
  cl_connections s' = cl_connections s → cl_next_id s' = cl_next_id s →
  cl_next_ptr s' = cl_next_ptr s → cl_stopping s' = cl_stopping s →
  cl_requests s' = cl_requests s → cc_id c' = cc_id c → holds c' = [] → cc_tcp c' = Active →
  conn_ok (cl_next_id s) c' → unheld r s'.
Proof.
  intros [Ht Hq Hh Ha Hs] Hp He Hcs Hni Hnp Hst Hrq Hid Hho Htcp Hok. split.
  - eapply CTable_update; try done. by rewrite Hrq.
  - by rewrite Hrq.
  - by eapply held_update.
  - eapply awaited_update; [done..|]. by left.
  - congruence.
Qed.

(** The request is dropped, or completed at once. *)
Lemma CInv_dropped r s s' :
  unheld r s → cl_heap s' = cl_heap s → cl_connections s' = cl_connections s →
  cl_next_id s' = cl_next_id s → cl_next_ptr s' = cl_next_ptr s →
  cl_stopping s' = cl_stopping s → cl_requests s' = ∅ → CInv s'.
Proof.
  intros [Ht [q Hq] Hh Ha Hs] He Hcs Hni Hnp Hst Hrq. split.
  - eapply CTable_same; [done..|]. intros r' _. by rewrite Hrq.
  - left. split; [done|]. intros p c. rewrite He. apply Hh.
  - intros Hst' p c. rewrite He. apply Ha. congruence.
Qed.

(** An established connection takes the request. *)
Lemma CInv_taken r p c c' q s s' :
  unheld r s → cl_heap s !! p = Some c → cl_heap s' = <[p := c']> (cl_heap s) →
  cl_connections s' = cl_connections s → cl_next_id s' = cl_next_id s →
  cl_next_ptr s' = cl_next_ptr s → cl_stopping s' = cl_stopping s →
  cl_requests s' = {[ r := q ]} → cc_id c' = cc_id c → holds c' = [r] →
  cc_tcp c' = Active ∨ is_Some (cc_request c') → conn_ok (cl_next_id s) c' → CInv s'.
Proof.
  intros [Ht [q0 Hq0] Hh Ha Hs] Hp He Hcs Hni Hnp Hst Hrq Hid Hho Haw Hok. split.
  - eapply CTable_update; try done. intros r'. by rewrite Hq0, Hrq, !lookup_singleton_None.
  - right. exists r, q, p. split_and!; [done|rewrite He, lookup_insert_eq; eauto|].
    eapply held_update; [done|done|by rewrite Hho, share_self|]. intros p' Hne. by apply share_other.
  - by eapply awaited_update.
Qed.

(** A new connection takes the request. *)
Lemma CInv_new r c q s s' :
  let p := cl_next_ptr s in
  unheld r s → cl_heap s' = <[p := c]> (cl_heap s) → cl_connections s' = p :: cl_connections s →
  cl_next_id s' = cl_next_id s → cl_next_ptr s' = Pos.succ p → cl_stopping s' = cl_stopping s →
  cl_requests s' = {[ r := q ]} → cc_id c = cl_next_id s + 1 → cc_request c = Some r →
  holds c = [r] → conn_ok (cl_next_id s) c → CInv s'.
Proof.
  intros p Hu He Hcs Hni Hnp Hst Hrq Hid Hr Hho Hok. pose proof Hu as [Ht [q0 Hq0] Hh Ha Hs].
  pose proof (unheld_established r s) as Hest. destruct Ht as [Hnd Hl Hc Hids Hn Hf].
  destruct (Hf p) as [Hnone _]; [done|]. split; [split| |].
  - rewrite Hcs. constructor; [|done]. rewrite Hl, Hnone. by intros [].
  - intros p'. rewrite Hcs, elem_of_cons, He, lookup_insert_is_Some', Hl. naive_solver.
  - intros p' d. rewrite He, Hni, lookup_insert_Some. naive_solver.
  - intros p1 p2 d1 d2. rewrite He, !lookup_insert_Some. intros [[<- <-]|[? H1]] [[<- <-]|[? H2]] Heq.
    + done.
    + destruct (Hest p2 d2 Hu H2) as (_ & _ & _ & _ & _ & _ & _ & ?). lia.
    + destruct (Hest p1 d1 Hu H1) as (_ & _ & _ & _ & _ & _ & _ & ?). lia.
    + by eapply Hids.
  - by rewrite Hni.
  - intros p'. rewrite Hnp, He, Hrq. intros Hp'. destruct (Hf p') as [H1 H2]; [lia|].
    rewrite lookup_insert_ne by lia. split; [done|].
    rewrite Hq0 in H2. by rewrite lookup_singleton_None in *.
  - right. exists r, q, p. split_and!; [done|rewrite He, lookup_insert_eq; eauto|].
    eapply held_update; [done|done|by rewrite Hho, share_self|]. intros p' Hne. by apply share_other.
  - eapply awaited_update; [done|done|done|]. right. by rewrite Hr.
Qed.

(** ** What a command does with its request *)

(** The request [r], made as [q], has been completed, or is held by a connection. *)
Definition accepted r (q : client_request) s s' : Prop :=
  ∃ q', rq_source q' = rq_source q ∧
    ((cl_requests s' = ∅ ∧ cl_completed s' = cl_completed s ++ [(r, q')]) ∨
     (cl_requests s' = {[ r := q' ]} ∧ cl_completed s' = cl_completed s)).

(** The two ends of a command: the request is refused, and no connection knows of
    it, or it is accepted. *)
Definition settled r q s (result : Z) s' : Prop :=
  (result ≠ 0 ∧ unheld r s' ∧ cl_completed s' = cl_completed s) ∨
  (result = 0 ∧ CInv s' ∧ cl_stopping s' = false ∧ accepted r q s s').

(** The same of a whole call. *)
Definition answered q s (o : client_outcome) s' : Prop :=
  CInv s' ∧ cl_stopping s' = false ∧
  match o with
  | Returned result => result ≠ 0 ∧ cl_requests s' = ∅ ∧ cl_completed s' = cl_completed s
  | Waiting r => accepted r q s s'
  end.

Lemma unheld_new q s :
  CInv s → client_ready s →
  unheld (cl_next_ptr s) (s <| cl_next_ptr ::= Pos.succ |> <| cl_requests ::= <[cl_next_ptr s := q]> |>).
Proof.
  intros [Ht Hw Ha] [Hr Hs]. destruct Hw as [[_ Hh]|(r & q' & p & Hq & _)].
  2:{ rewrite Hr in Hq. symmetry in Hq. by apply map_non_empty_singleton in Hq. }
  split; simpl; try done; [|exists q; by rewrite Hr].
  destruct Ht as [Hnd Hl Hc Hids Hn Hf]. split; simpl; try done.
  intros p Hp. destruct (Hf p) as [H1 H2]; [lia|]. split; [done|].
  rewrite lookup_insert_ne by lia. done.
Qed.

Lemma wp_new_request q s (Q : positive → skyuv_client_runtime → Prop) :
  Q (cl_next_ptr s)
    (s <| cl_next_ptr ::= Pos.succ |> <| cl_requests ::= <[cl_next_ptr s := q]> |>) →
  wp (new_request q) Q s.
Proof. done. Qed.

Lemma wp_drop_request r s (Q : unit → skyuv_client_runtime → Prop) :
  Q tt (s <| cl_requests ::= delete r |>) → wp (drop_request r) Q s.
Proof. done. Qed.

Lemma wp_fresh s (Q : positive → skyuv_client_runtime → Prop) :
  Q (cl_next_ptr s) (s <| cl_next_ptr ::= Pos.succ |>) → wp fresh Q s.
Proof. done. Qed.

Lemma unheld_dropped r s : unheld r s → CInv (s <| cl_requests ::= delete r |>).
Proof.
  intros Hu. destruct (uh_request _ _ Hu) as [q Hq]. eapply CInv_dropped; [done..|].
  simpl. by rewrite Hq, delete_singleton_eq.
Qed.

Lemma wp_submit_request q command s :
  CInv s → client_ready s →
  (∀ r s1, unheld r s1 → cl_requests s1 = {[ r := q ]} → cl_completed s1 = cl_completed s →
     cl_heap s1 = cl_heap s → cl_next_id s1 = cl_next_id s → wp (command r) (settled r q s1) s1) →
  wp (submit_request q command) (answered q s) s.
Proof.
  intros HI Hrd Hcmd. pose proof (unheld_new q s HI Hrd) as Hu. pose proof Hrd as [Hr _].
  set (r := cl_next_ptr s) in *. unfold submit_request. cl_step. apply wp_new_request.
  fold r. set (s1 := s <| cl_next_ptr ::= _ |> <| cl_requests ::= _ |>) in *.
  assert (∀ s', unheld r s' → cl_requests (s' <| cl_requests ::= delete r |>) = ∅) as Hgone.
  { intros s' Hu'. destruct (uh_request _ _ Hu') as [q' Hq']. simpl. by rewrite Hq', delete_singleton_eq. }
  assert (∀ result s', result ≠ 0 → unheld r s' → cl_completed s' = cl_completed s →
    wp (drop_request r ;; mret (Returned result)) (answered q s) s') as Hdrop.
  { intros result s' Hne Hu' Hcm. cl_step. apply wp_drop_request. cl_step.
    split_and!; [by apply unheld_dropped|apply Hu'|done|by apply Hgone|done]. }
  assert (∀ n, unheld r (s1 <| cl_clock := n |>)) as Hu1.
  { intros n. by eapply unheld_same; [exact Hu|done..|apply Hu]. }
  do 3 cl_step; [|by apply (Hdrop _ _ n (Hu1 _))].
  do 3 cl_step; [|by apply (Hdrop _ _ n (Hu1 _))].
  unfold skyuv_client_runtime_call. do 4 cl_step; simpl.
  - eapply wp_mono; [apply Hcmd; simpl; try done; [apply (Hu1 _)|by rewrite Hr]|].
    intros result' s' [(Hne & Hu' & Hcm)|(-> & HI' & Hst & Hacc)]; cl_step; try done.
    by apply Hdrop.
  - cl_step. rewrite (proj2 (Z.eqb_neq _ _)) by done. by apply (Hdrop _ _ n (Hu1 _)).
Qed.

(** ** The commands *)

(** The completion of a request nobody holds. *)
Lemma wp_complete_unheld r q s :
  unheld r s → cl_requests s = {[ r := q ]} →
  wp (complete r 0 ;; mret 0) (settled r q s) s.
Proof.
  intros Hu Hq. cl_step. eapply wp_complete; [cl_lookup|]. cl_step. right.
  assert (delete r (cl_requests s) = ∅) as Hd by (by rewrite Hq, delete_singleton_eq).
  split_and!; [done|by eapply CInv_dropped|apply Hu|]. by eexists; split; [|by left].
Qed.

(** A connection established before takes the request. *)
Lemma settled_taken r p c c' q s s' :
  unheld r s → cl_requests s = {[ r := q ]} → cl_heap s !! p = Some c →
  cl_heap s' = <[p := c']> (cl_heap s) → cl_connections s' = cl_connections s →
  cl_next_id s' = cl_next_id s → cl_next_ptr s' = cl_next_ptr s →
  cl_stopping s' = cl_stopping s → cl_requests s' = cl_requests s →
  cl_completed s' = cl_completed s → cc_id c' = cc_id c → holds c' = [r] →
  cc_tcp c' = Active ∨ is_Some (cc_request c') → conn_ok (cl_next_id s) c' → settled r q s 0 s'.
Proof.
  intros Hu Hq Hp He Hcs Hni Hnp Hst Hrq Hcm Hid Hho Haw Hok. right. split_and!; [done| | |].
  - eapply CInv_taken; try done. by rewrite Hrq.
  - rewrite Hst. apply Hu.
  - exists q. split; [done|]. right. by rewrite Hrq.
Qed.

Lemma start_close_ok r q s :
  unheld r s → cl_requests s = {[ r := q ]} → wp (start_close r) (settled r q s) s.
Proof.
  intros Hu Hq. unfold start_close. cl_step. eapply wp_find_connection; [apply Hu|done| |].
  - intros p c Hp _. destruct (unheld_established r s p c Hu Hp)
      as (Hok & Htcp & Hco & Hr & Hw & Hs & Htm & Hid).
    do 2 cl_step. cl_step. eapply wp_close_connection; [cl_lookup|]. cl_step.
    set (c1 := c <| cc_request := Some r |>).
    destruct (closed_conn_same c1) as (E1 & E2 & E3 & _).
    eapply (settled_taken r p c (closed_conn c1)); try done.
    + simpl. by rewrite insert_insert_eq.
    + rewrite E3. by apply holds_request.
    + right. rewrite E2. simpl. eauto.
    + destruct Hok as [Hb Hh Hpos Hti _ Hmax]. apply closed_conn_ok; simpl; try done; try congruence.
      * by destruct Hb.
      * lia.
      * by rewrite Htcp.
  - intros Hno. do 5 cl_step; [by apply wp_complete_unheld|]. cl_step. left.
    split_and!; [client_code|done|done].
Qed.

(** A connection that takes the request as the one its write or shutdown is for. *)
Lemma conn_ok_busy next_id c c' :
  conn_ok next_id c → cc_request c = None → cc_tcp c = Active →
  buffer_ok c' → cc_handles c' = cc_handles c → cc_tcp c' = cc_tcp c → cc_timer c' = cc_timer c →
  cc_timer_initialized c' = cc_timer_initialized c → cc_request c' = None → cc_id c' = cc_id c →
  cc_connecting c' = cc_connecting c → conn_ok next_id c'.
Proof.
  intros [Hb Hh Hpos Hti Hph Hmax] Hr Htcp Hb' Hh' Htcp' Htm' Hti' Hr' Hid Hco.
  split; rewrite ?Hh', ?Htcp', ?Htm', ?Hti', ?Hid; try done.
  destruct Hph as [[? ?]|? ? ? ? ?|E]; [congruence| |by rewrite Htcp in E].
  apply Established; congruence.
Qed.

Lemma wp_uv_write id bytes s (Q : Z → skyuv_client_runtime → Prop) :
  (∀ result, result ≠ 0 → Q result (s <| cl_clock ::= S |>)) →
  Q 0 (s <| cl_clock ::= S |> <| cl_wire ::= λ l, l ++ [(id, bytes)] |>) →
  wp (uv_write id bytes) Q s.
Proof.
  intros HF HQ. unfold uv_write. do 4 cl_step.
  - apply Z.eqb_eq in H as ->. by do 2 cl_step.
  - apply Z.eqb_neq in H. cl_step. by apply HF.
Qed.

Lemma start_send_ok r q s :
  unheld r s → cl_requests s = {[ r := q ]} → wp (start_send r) (settled r q s) s.
Proof.
  intros Hu Hq. unfold start_send. cl_step. eapply wp_find_connection; [apply Hu|done| |].
  2:{ intros Hno. cl_step. left. split_and!; [client_code|done|done]. }
  intros p c Hp _. destruct (unheld_established r s p c Hu Hp)
    as (Hok & Htcp & Hco & Hr & Hw & Hs & Htm & Hid).
  do 3 cl_step. { cl_step. left. split_and!; [client_code|done|done]. }
  do 3 cl_step; [by apply wp_complete_unheld|]. cl_step. apply wp_uv_write.
  - intros result Hne. rewrite (proj2 (Z.eqb_neq _ _) Hne). cl_step. cl_step; [done|]. cl_step. left. split_and!; [done| |done].
    eapply unheld_same; [done..|]. eauto.
  - cl_step. cl_step; [|done]. do 2 cl_step. eapply (settled_taken r p c (c <| cc_writing := Some r |>)); try done.
    + unfold holds. simpl. by rewrite Hr, Hs.
    + by left.
    + eapply conn_ok_busy; try done. by destruct Hok as [[] _ _ _ _ _].
Qed.

(** What is written is the source of the request, to the connection it names. *)
Lemma start_send_wire r q s :
  unheld r s → cl_requests s = {[ r := q ]} → rq_size q = Z.of_nat (length (rq_source q)) →
  rq_size q ≤ UINT_MAX →
  wp (start_send r) (λ result s', cl_wire s' = cl_wire s ++
    if (result =? 0) && negb (rq_size q =? 0) then [(rq_id q, rq_source q)] else []) s.
Proof.
  intros Hu Hq Hsz Hmax. unfold start_send. cl_step. eapply wp_find_connection; [apply Hu|done| |].
  2:{ intros Hno. cl_step. rewrite (proj2 (Z.eqb_neq UV_EBADF 0)) by client_code. by rewrite app_nil_r. }
  intros p c Hp Hid. do 3 cl_step.
  { cl_step. rewrite (proj2 (Z.eqb_neq UV_EPIPE 0)) by client_code. by rewrite app_nil_r. }
  do 3 cl_step.
  - cl_step. eapply wp_complete; [cl_lookup|]. cl_step. simpl. by rewrite app_nil_r.
  - cl_step. apply wp_uv_write.
    + intros result Hne. rewrite (proj2 (Z.eqb_neq _ _) Hne). cl_step. cl_step; [done|]. cl_step. simpl. rewrite (proj2 (Z.eqb_neq _ _) Hne). simpl. by rewrite app_nil_r.
    + cl_step. cl_step; [|done]. do 2 cl_step. simpl. rewrite Hid.
      unfold u32. rewrite uwrap_small by (unfold UINT_MAX in *; lia). by rewrite take_ge by lia.
Qed.

Lemma settled_from r q s s1 result s' :
  cl_completed s1 = cl_completed s → settled r q s1 result s' → settled r q s result s'.
Proof. unfold settled, accepted. by intros ->. Qed.

(** A connection at rest is changed in what matters to it alone. *)
Lemma unheld_rest r p c c' s s' :
  unheld r s → cl_heap s !! p = Some c → cl_heap s' = <[p := c']> (cl_heap s) →
  cl_connections s' = cl_connections s → cl_next_id s' = cl_next_id s →
  cl_next_ptr s' = cl_next_ptr s → cl_stopping s' = cl_stopping s →
  cl_requests s' = cl_requests s → buffer_ok c' → holds c' = holds c →
  cc_handles c' = cc_handles c → cc_tcp c' = cc_tcp c → cc_timer c' = cc_timer c →
  cc_timer_initialized c' = cc_timer_initialized c → cc_request c' = cc_request c →
  cc_id c' = cc_id c → cc_connecting c' = cc_connecting c → unheld r s'.
Proof.
  intros Hu Hp He Hcs Hni Hnp Hst Hrq Hb Hho Hhd Htcp Htm Hti Hr Hid Hco.
  destruct (unheld_established r s p c Hu Hp) as (Hok & Htcp0 & _ & Hr0 & _).
  eapply (unheld_update r p c c' s); try done.
  - rewrite Hho, (uh_held _ _ Hu p c Hp). done.
  - congruence.
  - eapply conn_ok_busy; try done; congruence.
Qed.

Lemma shutdown_read_ok r p c s :
  unheld r s → cl_heap s !! p = Some c →
  wp (shutdown_read p) (λ _ s1, unheld r s1 ∧ cl_requests s1 = cl_requests s ∧
    cl_completed s1 = cl_completed s ∧
    ∃ c1, cl_heap s1 !! p = Some c1 ∧ cc_write_closed c1 = cc_write_closed c) s.
Proof.
  intros Hu Hp. unfold shutdown_read, read_stop. do 3 cl_step.
  - do 4 cl_step. cl_step. split_and!; [|done|done|eexists; split; [cl_lookup|done]].
    destruct (unheld_established r s p c Hu Hp) as ([[? ? ?] _ _ _ _ _] & _).
    eapply (unheld_rest r p c (c <| cc_reading := false |> <| cc_read_status := UV_EOF |>
      <| cc_read_closed := true |>) s); try done. simpl. by rewrite insert_insert_eq.
  - cl_step. split_and!; [|done|done|eauto]. eapply unheld_same; [done..|apply Hu].
Qed.

Lemma start_shutdown_ok r q s :
  unheld r s → cl_requests s = {[ r := q ]} → wp (start_shutdown r) (settled r q s) s.
Proof.
  intros Hu Hq. unfold start_shutdown. cl_step. eapply wp_find_connection; [apply Hu|done| |].
  2:{ intros Hno. cl_step. left. split_and!; [client_code|done|done]. }
  intros p c Hp _. do 5 cl_step.
  apply (wp_mono _ (λ _ s1, unheld r s1 ∧ cl_requests s1 = cl_requests s ∧
    cl_completed s1 = cl_completed s ∧
    ∃ c1, cl_heap s1 !! p = Some c1 ∧ cc_write_closed c1 = cc_write_closed c)).
  { cl_step; [by apply shutdown_read_ok|]. cl_step. eauto 10. }
  intros result s1 (Hu1 & Hrq & Hcm & c1 & Hp1 & <-). rewrite Hq in Hrq.
  eapply wp_mono; [|intros result' s'; by apply settled_from].
  cl_step; [|cl_step; by left]. cl_step; [|by apply wp_complete_unheld].
  destruct (unheld_established r s1 p c1 Hu1 Hp1)
    as (Hok & Htcp & Hco & Hr & Hw & Hs & Htm & Hid). destruct (co_buffer _ _ Hok) as [B1 B2 B3].
  do 6 cl_step.
  - apply Z.eqb_eq in H as ->. do 2 cl_step.
    eapply (settled_taken r p c1 (c1 <| cc_write_closed := true |> <| cc_shutting := Some r |>)); try done.
    + simpl. by rewrite insert_insert_eq.
    + unfold holds. simpl. by rewrite Hr, Hw.
    + by left.
    + eapply conn_ok_busy; try done.
  - cl_step. apply Z.eqb_neq in H. left. split_and!; [done| |done].
    eapply (unheld_rest r p c1 (c1 <| cc_write_closed := true |>) s1); done.
Qed.

Lemma check_ready_ok r q s :
  unheld r s → cl_requests s = {[ r := q ]} →
  wp (check_ready r) (λ result s', unheld r s' ∧ cl_completed s' = cl_completed s) s.
Proof.
  intros Hu Hq. unfold check_ready. cl_step. eapply wp_find_connection; [apply Hu|done| |].
  2:{ intros Hno. by cl_step. }
  intros p c Hp _. do 5 cl_step. split; [|done]. eapply unheld_same; [done..|].
  simpl. rewrite Hq, insert_singleton_eq. eauto.
Qed.

Lemma receive_data_ok r q s :
  unheld r s → cl_requests s = {[ r := q ]} → 0 < rq_size q →
  wp (receive_data r) (λ result s', unheld r s' ∧ cl_completed s' = cl_completed s) s.
Proof.
  intros Hu Hq Hpos. eapply wp_receive_data; [done|done|done|done| |].
  - intros p c Hp _ _. split; [|done]. eapply unheld_same; [done..|]. simpl. eauto.
  - intros p c array n paused status reading q' clock c' Hp _ _ Hb _ _. split; [|done].
    eapply (unheld_same r (s <| cl_heap ::= <[p := c']> |>)); try done; [|simpl; eauto].
    by eapply (unheld_rest r p c c' s).
Qed.

(** ** Connecting *)

(** A new connection while [start_connect] sets it up for the request [r]. *)
Record starting (next_id : Z) r c : Prop := Starting {
  st_tcp : cc_tcp c = Active;
  st_request : cc_request c = Some r;
  st_id : cc_id c = next_id + 1;
  st_received : cc_received c = zero_array ∧ cc_received_size c = 0 ∧ cc_paused c = false ∧
                cc_read_status c = 0;
  st_idle : cc_connecting c = false ∧ cc_reading c = false ∧ cc_writing c = None ∧
            cc_shutting c = None ∧ cc_timed_out c = false;
  st_timer : cc_timer c = NotInitialized ∨ cc_timer c = Active;
  st_initialized : cc_timer_initialized c = bool_decide (cc_timer c ≠ NotInitialized);
  st_handles : cc_handles c = 1 + open_handles (cc_timer c);
}.

(** The state in which it is linked. *)
Record created r c q s s1 : Prop := Created {
  cd_heap : cl_heap s1 = <[cl_next_ptr s := c]> (cl_heap s);
  cd_connections : cl_connections s1 = cl_next_ptr s :: cl_connections s;
  cd_next_id : cl_next_id s1 = cl_next_id s;
  cd_next_ptr : cl_next_ptr s1 = Pos.succ (cl_next_ptr s);
  cd_stopping : cl_stopping s1 = cl_stopping s;
  cd_requests : cl_requests s1 = {[ r := q ]};
  cd_completed : cl_completed s1 = cl_completed s;
}.

Lemma starting_buffer next_id r c : starting next_id r c → buffer_ok c.
Proof.
  intros [_ _ _ (Ha & Hn & Hp & _) (_ & Hrd & _) _ _ _]. split.
  - by rewrite Ha, length_zero_array.
  - rewrite Hn. unfold CLIENT_RECEIVE_LIMIT. lia.
  - congruence.
Qed.

Lemma starting_connects next_id r c :
  starting next_id r c → next_id < INT64_MAX → conn_ok next_id (c <| cc_connecting := true |>).
Proof.
  intros Hst Hmax. destruct (starting_buffer _ _ _ Hst) as [B1 B2 B3].
  destruct Hst as [Htcp Hr Hid (_ & Hn & Hpz & Hst0) (Hco & Hrd & Hw & Hs & Hto) Htm Hti Hh].
  assert (0 ≤ open_handles (cc_timer c)) by (by destruct Htm as [->| ->]).
  split; simpl; try done; [by rewrite Htcp|lia| |lia].
  apply Connecting; simpl; try done; by destruct Htm as [->| ->].
Qed.

Lemma starting_fails next_id r c :
  starting next_id r c → 0 ≤ next_id < INT64_MAX → conn_ok next_id (closed_conn c).
Proof.
  intros Hst Hmax. pose proof (starting_buffer _ _ _ Hst) as Hb.
  destruct Hst as [Htcp Hr Hid _ (Hco & Hrd & Hw & Hs & _) Htm Hti Hh].
  assert (0 ≤ open_handles (cc_timer c)) by (by destruct Htm as [->| ->]).
  apply closed_conn_ok; try done; try congruence; try lia.
  by rewrite Htcp.
Qed.

Lemma connect_settled r c c' q q' s s1 :
  unheld r s → created r c' q' s s1 → rq_source q' = rq_source q → starting (cl_next_id s) r c →
  cc_id c' = cc_id c → cc_request c' = cc_request c → holds c' = holds c →
  conn_ok (cl_next_id s) c' → settled r q s 0 s1.
Proof.
  intros Hu [He Hcs Hni Hnp Hst Hrq Hcm] Hsrc Hs Hid Hr Hho Hok.
  destruct Hs as [_ Hr0 Hid0 _ (_ & _ & Hw & Hs & _) _ _ _]. right. split_and!; [done| | |].
  - eapply (CInv_new r c' q' s); try done; [congruence|congruence|].
    rewrite Hho. by apply holds_request.
  - rewrite Hst. apply Hu.
  - exists q'. split; [done|]. by right.
Qed.

Lemma connect_fails_ok r c q result s s1 :
  unheld r s → created r c q s s1 → starting (cl_next_id s) r c → cl_next_id s < INT64_MAX →
  wp (connect_fails (cl_next_ptr s) r result) (settled r q s) s1.
Proof.
  intros Hu Hcr Hs Hmax. pose proof Hcr as [He Hcs Hni Hnp Hst Hrq Hcm]. unfold connect_fails.
  do 3 cl_step. eapply wp_close_connection; [by simpl; rewrite He, lookup_insert_eq|]. cl_step.
  destruct (closed_conn_same c) as (E1 & E2 & E3 & _).
  eapply (connect_settled r c (closed_conn c) q (q <| rq_result := result |>)); try done.
  - split; simpl; try done; [by rewrite He, insert_insert_eq|]. by rewrite Hrq, insert_singleton_eq.
  - apply (starting_fails _ r); [done|]. pose proof (ct_next _ (uh_table _ _ Hu)). lia.
Qed.

(** The timer is started, or its failure is reported. *)
Lemma wp_start_timer r c q timeout_ms s s1 :
  created r c q s s1 → starting (cl_next_id s) r c → cc_timer c = NotInitialized →
  wp (start_timer (cl_next_ptr s) timeout_ms) (λ _ s2, ∃ c2,
    created r c2 q s s2 ∧ starting (cl_next_id s) r c2) s1.
Proof.
  intros [He Hcs Hni Hnp Hst Hrq Hcm] Hs Htm. unfold start_timer. do 3 cl_step.
  - cl_step. eapply wp_set_conn; [by simpl; rewrite He, lookup_insert_eq|]. cl_step.
    eexists. split.
    + split; simpl; try done. by rewrite He, insert_insert_eq.
    + destruct Hs as [? ? ? ? ? ? ? Hh]. split; simpl; try done; [by right|]. rewrite Hh, Htm. done.
  - cl_step. by exists c.
Qed.

Lemma start_connect_ok r q s :
  unheld r s → cl_requests s = {[ r := q ]} → wp (start_connect r) (settled r q s) s.
Proof.
  intros Hu Hq. unfold start_connect. do 3 cl_step.
  { cl_step. left. split_and!; [client_code|done|done]. }
  assert (cl_next_id s < INT64_MAX) as Hmax by (pose proof (ct_next _ (uh_table _ _ Hu)); lia).
  assert (∀ n, unheld r (s <| cl_clock := n |>)) as Hu1
    by (intros n'; eapply unheld_same; [done..|apply Hu]).
  do 3 cl_step. 2:{ cl_step. left. split_and!; [client_code|apply (Hu1 _)|done]. }
  do 3 cl_step. 2:{ cl_step. left. split_and!; [done|apply (Hu1 _)|done]. }
  cl_step. apply wp_fresh. simpl. do 4 cl_step.
  set (c := zero_connection <| cc_tcp := Active |> <| cc_request := _ |> <| cc_id := _ |>
    <| cc_handles := 1 |>).
  match goal with |- wp _ _ ?s' => assert (created r c q s s') as Hcr by done; revert Hcr end.
  match goal with |- context [wp _ _ ?s'] => generalize s' as s1 end. intros s1 Hcr.
  assert (starting (cl_next_id s) r c) as Hst by (split; simpl; auto).
  pose proof (cd_requests _ _ _ _ _ Hcr) as Hrq. do 3 cl_step; [by eapply connect_fails_ok|].
  cl_step. apply (wp_mono _ (λ _ s2, ∃ c2, created r c2 q s s2 ∧ starting (cl_next_id s) r c2)).
  { cl_step; [by eapply wp_start_timer|]. cl_step. by exists c. }
  intros result' s2 (c2 & Hcr2 & Hst2). cl_step; [|by eapply connect_fails_ok].
  assert (∀ n, created r c2 q s (s2 <| cl_clock := n |>)) as Hcr3 by (intros; by destruct Hcr2).
  do 3 cl_step; [|by eapply (connect_fails_ok r c2 q); [done|apply (Hcr3 _)|..]].
  pose proof Hcr2 as [He Hcs Hni Hnp Hstp Hrq2 Hcm].
  cl_step. eapply wp_set_conn; [by simpl; rewrite He, lookup_insert_eq|]. cl_step.
  eapply (connect_settled r c2 (c2 <| cc_connecting := true |>) q q); try done.
  - split; simpl; try done. by rewrite He, insert_insert_eq.
  - by eapply starting_connects.
Qed.

(** ** The calls *)

Lemma connect_timeout_ok address port timeout_ms s :
  CInv s → client_ready s →
  wp (skyuv_client_runtime_connect_timeout address port timeout_ms)
    (answered (Request 0 0 [] [] 0 timeout_ms false false) s) s.
Proof.
  intros HI Hrd.
  assert (∀ code, code ≠ 0 → wp (mret (Returned code))
    (answered (Request 0 0 [] [] 0 timeout_ms false false) s) s) as Hret.
  { intros code Hne. cl_step. split_and!; try done; apply Hrd. }
  unfold skyuv_client_runtime_connect_timeout. destruct address as [address|]; [|apply Hret; client_code].
  cl_step; [apply Hret; client_code|]. cbv zeta. cl_step; [|by apply Hret].
  apply wp_submit_request; [done|done|]. intros. by apply start_connect_ok.
Qed.

Lemma close_ok id s :
  CInv s → client_ready s →
  wp (skyuv_client_runtime_close id) (answered (zero_request <| rq_id := id |>) s) s.
Proof.
  intros HI Hrd. unfold skyuv_client_runtime_close. cl_step.
  - cl_step. split_and!; try done; try apply Hrd. client_code.
  - apply wp_submit_request; [done|done|]. intros. by apply start_close_ok.
Qed.

Lemma send_part_ok id source s :
  CInv s → client_ready s →
  wp (send_part id source)
    (answered (Request id 0 source [] (Z.of_nat (length source)) 0 false false) s) s.
Proof.
  intros HI Hrd. apply wp_submit_request; [done|done|]. intros. by apply start_send_ok.
Qed.

(** The request is accepted exactly if its bytes have gone to libuv. *)
Lemma send_part_wire id source s :
  CInv s → client_ready s → Z.of_nat (length source) ≤ UINT_MAX →
  wp (send_part id source) (λ o s', cl_wire s' = cl_wire s ++
    match o with
    | Returned _ => []
    | Waiting _ => if negb (Z.of_nat (length source) =? 0) then [(id, source)] else []
    end) s.
Proof.
  intros HI Hrd Hlen. unfold send_part. set (q := Request id 0 source _ _ _ _ _).
  pose proof (unheld_new q s HI Hrd) as Hu. pose proof Hrd as [Hr _].
  set (r := cl_next_ptr s) in *. unfold submit_request. cl_step. apply wp_new_request.
  fold r. set (s1 := s <| cl_next_ptr ::= _ |> <| cl_requests ::= _ |>) in *.
  assert (∀ n, unheld r (s1 <| cl_clock := n |>)) as Hu1.
  { intros n. by eapply unheld_same; [exact Hu|done..|apply Hu]. }
  assert (∀ result s', cl_wire s' = cl_wire s →
    wp (drop_request r ;; mret (Returned result)) (λ o s', cl_wire s' = cl_wire s ++
    match o with
    | Returned _ => []
    | Waiting _ => if negb (Z.of_nat (length source) =? 0) then [(id, source)] else []
    end) s') as Hdrop.
  { intros result s' Hw. cl_step. apply wp_drop_request. cl_step. by rewrite app_nil_r. }
  do 3 cl_step; [|by apply Hdrop]. do 3 cl_step; [|by apply Hdrop].
  unfold skyuv_client_runtime_call. do 4 cl_step; simpl.
  - eapply wp_mono; [apply (start_send_wire r q); [apply (Hu1 _)|simpl; by rewrite Hr|done|done]|].
    intros code s' Hw. simpl in Hw. destruct (Z.eqb_spec code 0) as [->|Hne]; simpl in *; [by cl_step|].
    apply Hdrop. by rewrite Hw, app_nil_r.
  - cl_step. rewrite (proj2 (Z.eqb_neq _ _)) by done. by apply Hdrop.
Qed.

Lemma shutdown_ok id read write s :
  CInv s → client_ready s →
  wp (skyuv_client_runtime_shutdown id read write) (answered (Request id 0 [] [] 0 0 read write) s) s.
Proof.
  intros HI Hrd. unfold skyuv_client_runtime_shutdown. cl_step.
  - cl_step. split_and!; try done; try apply Hrd. client_code.
  - apply wp_submit_request; [done|done|]. intros. by apply start_shutdown_ok.
Qed.

(** A call whose request never outlives it. *)
Lemma wp_run_request {A} q command (k : Z → client_request → A) s
    (Q : A → skyuv_client_runtime → Prop) :
  CInv s → client_ready s →
  (∀ result q' s', result ≠ 0 → CInv s' → client_ready s' → cl_completed s' = cl_completed s →
     cl_heap s' = cl_heap s → Q (k result q') s') →
  (∀ r s1, unheld r s1 → cl_requests s1 = {[ r := q ]} → cl_heap s1 = cl_heap s →
     cl_completed s1 = cl_completed s →
     wp (command r) (λ result s2, unheld r s2 ∧ cl_completed s2 = cl_completed s1 ∧
       ∀ q' s', cl_requests s2 = {[ r := q' ]} → CInv s' → client_ready s' →
         cl_completed s' = cl_completed s → cl_heap s' = cl_heap s2 → Q (k result q') s') s1) →
  wp (r ← new_request q; result ← skyuv_client_runtime_call (command r);
      q ← request r; drop_request r ;; mret (k result q)) Q s.
Proof.
  intros HI Hrd Herr Hcmd. pose proof (unheld_new q s HI Hrd) as Hu. pose proof Hrd as [Hr _].
  set (r := cl_next_ptr s) in *. cl_step. apply wp_new_request. fold r.
  set (s1 := s <| cl_next_ptr ::= _ |> <| cl_requests ::= _ |>) in *.
  assert (∀ n, unheld r (s1 <| cl_clock := n |>)) as Hu1.
  { intros n. by eapply unheld_same; [exact Hu|done..|apply Hu]. }
  assert (cl_requests s1 = {[ r := q ]}) as Hq by (simpl; by rewrite Hr).
  assert (∀ s2, unheld r s2 → client_ready (s2 <| cl_requests ::= delete r |>)) as Hready.
  { intros s2 Hu2. split; [|apply Hu2]. destruct (uh_request _ _ Hu2) as [q2 Hq2]. simpl.
    by rewrite Hq2, delete_singleton_eq. }
  unfold skyuv_client_runtime_call. do 4 cl_step.
  - eapply wp_mono; [by apply (Hcmd r); [apply (Hu1 _)|..]|].
    intros result' s2 (Hu2 & Hcm & HQ). destruct (uh_request _ _ Hu2) as [q2 Hq2].
    do 2 cl_step. cl_step. apply wp_drop_request. cl_step. simpl.
    apply HQ; [done|by apply unheld_dropped|by apply Hready|done|done].
  - do 3 cl_step. cl_step. apply wp_drop_request. cl_step. simpl.
    apply Herr; [done|apply unheld_dropped, (Hu1 _)|apply (Hready _ (Hu1 _))|done|done].
Qed.

(** What [skyuv_client_runtime_recv] takes out of the buffer of a connection. *)
Definition recv_takes (id capacity : Z) (o : Z * list Z) s s' : Prop :=
  (o.1 ≠ 0 ∧ o.2 = [] ∧ cl_heap s' = cl_heap s) ∨
  (o.1 = 0 ∧ ∃ p c c', cl_heap s !! p = Some c ∧ cc_id c = id ∧ contents c ≠ [] ∧
    cl_heap s' = <[p := c']> (cl_heap s) ∧ cc_id c' = id ∧ o.2 ++ contents c' = contents c ∧
    Z.of_nat (length o.2) = Z.min capacity (Z.of_nat (length (contents c)))).

Lemma recv_ok id capacity s :
  CInv s → client_ready s → 0 < capacity →
  wp (skyuv_client_runtime_recv id true capacity) (λ o s',
    CInv s' ∧ client_ready s' ∧ cl_completed s' = cl_completed s ∧ recv_takes id capacity o s s') s.
Proof.
  intros HI Hrd Hcap. unfold skyuv_client_runtime_recv. rewrite (proj2 (Z.eqb_neq capacity 0)) by lia.
  cbn [negb orb].
  apply (wp_run_request (zero_request <| rq_id := id |> <| rq_size := capacity |>) receive_data
    (λ result q, (result, if result =? 0 then rq_destination q else []))); [done|done| |].
  { intros result q' s' Hne HI' Hrd' Hcm He. split_and!; try done. left. split; [done|].
    simpl. by rewrite (proj2 (Z.eqb_neq _ _) Hne). }
  intros r s1 Hu Hq He Hcm.
  assert (∀ result q1 s', result ≠ 0 → CInv s' → client_ready s' → cl_completed s' = cl_completed s →
    cl_heap s' = cl_heap s1 → CInv s' ∧ client_ready s' ∧ cl_completed s' = cl_completed s ∧
      recv_takes id capacity (result, if result =? 0 then rq_destination q1 else []) s s') as Herr.
  { intros result q1 s' Hne HI' Hrd' Hcm' He'. split_and!; try done. left. split_and!; [done| |congruence].
    simpl. by rewrite (proj2 (Z.eqb_neq _ _) Hne). }
  eapply wp_receive_data; [done|done|done| | |].
  - intros _. split_and!; [done|done|]. intros. apply Herr; try done. client_code.
  - intros p c Hp _ _. split_and!; [eapply unheld_same; [done..|]; simpl; eauto|done|].
    intros. apply Herr; try done. destruct (Z.eqb_spec (cc_read_status c) 0); [client_code|done].
  - intros p c array n paused status reading q' clock c' Hp Hid Hne Hb Hcont Hlen.
    split_and!; [|done|].
    + eapply (unheld_same r (s1 <| cl_heap ::= <[p := c']> |>)); try done; [|simpl; eauto].
      by eapply (unheld_rest r p c c' s1).
    + intros q1 s' Hq1 HI' Hrd' Hcm' He'. simpl in Hq1. apply (inj2 _) in Hq1 as [_ <-].
      split_and!; try done. right. split; [done|]. exists p, c, c'. simpl in *.
      split_and!; try done; congruence.
Qed.

Lemma ready_ok id s :
  CInv s → client_ready s →
  wp (skyuv_client_runtime_ready id) (λ _ s',
    CInv s' ∧ client_ready s' ∧ cl_completed s' = cl_completed s) s.
Proof.
  intros HI Hrd. apply (wp_run_request (zero_request <| rq_id := id |>) check_ready
    (λ result q, (result, (rq_read q, rq_write_enabled q)))); [done|done|done|].
  intros r s1 Hu Hq He Hcm. eapply wp_mono; [by eapply check_ready_ok|].
  intros result s2 [Hu2 Hcm2]. split_and!; [done|done|]. intros. by split_and!.
Qed.

(** ** Destruction *)

Lemma stop_one_ok p s :
  CInv s → cl_requests s = ∅ → cl_stopping s = true → is_Some (cl_heap s !! p) →
  wp (close_connection p) (λ _ s', CInv s' ∧ cl_requests s' = ∅ ∧ cl_stopping s' = true ∧
    cl_completed s' = cl_completed s ∧
    (∀ q, is_Some (cl_heap s !! q) → is_Some (cl_heap s' !! q)) ∧
    (∀ q d, cl_heap s' !! q = Some d →
       (q = p ∧ handle_closing (cc_tcp d) = true) ∨ (q ≠ p ∧ cl_heap s !! q = Some d))) s.
Proof.
  intros HI Hr Hst [c Hp]. eapply wp_close_connection; [done|].
  destruct (closed_conn_same c) as (E1 & E2 & E3 & _ & E5 & _).
  pose proof (ct_conn _ (cv_table _ HI) p c Hp) as [Hb Hh Hpos Hti Hph Hmax].
  assert (holds c = []) as Hho.
  { destruct (cv_waiting _ HI) as [[_ Hhe]|(r & q & p' & Hq & _)]; [by apply (Hhe p c)|].
    rewrite Hr in Hq. symmetry in Hq. by apply map_non_empty_singleton in Hq. }
  unfold holds in Hho. apply app_eq_nil in Hho as [H1 [H2 H3]%app_eq_nil].
  assert (∀ o : option positive, option_list o = [] → o = None) as Hnone by (by intros []).
  apply Hnone in H1, H2, H3. split_and!; simpl; try done.
  - eapply (CInv_update p c (closed_conn c) s); try done; [by left| |by intros; congruence].
    destruct Hph as [[? ?]|? E ? ? ?|E ? ? ? ? Hco ? Hid]; [congruence| |].
    + apply closed_conn_ok; try done; try congruence; try lia. by rewrite E.
    + apply closed_conn_ok; try done; [by intros E'; rewrite E' in E|].
      intros (E' & ? & ?)%Hco. by rewrite E'.
  - intros q. rewrite lookup_insert_is_Some'. auto.
  - intros q d. rewrite lookup_insert_Some. naive_solver.
Qed.

Lemma stop_all_ok l s :
  CInv s → cl_requests s = ∅ → cl_stopping s = true → (∀ p, p ∈ l → is_Some (cl_heap s !! p)) →
  (∀ p c, cl_heap s !! p = Some c → p ∈ l ∨ handle_closing (cc_tcp c) = true) →
  wp (forM l close_connection) (λ _ s', CInv s' ∧ cl_requests s' = ∅ ∧ cl_stopping s' = true ∧
    cl_completed s' = cl_completed s ∧
    ∀ p c, cl_heap s' !! p = Some c → handle_closing (cc_tcp c) = true) s.
Proof.
  revert s. induction l as [|p l IH]; intros s HI Hr Hst Hl Hall; cbn [forM].
  { cl_step. split_and!; try done. intros p c Hp. destruct (Hall p c Hp) as [?%elem_of_nil|]; done. }
  cl_step. eapply wp_mono; [apply stop_one_ok; [done..|apply Hl; set_solver]|].
  intros _ s1 (HI1 & Hr1 & Hst1 & Hcm1 & Hk & Hd).
  eapply wp_mono; [apply IH; try done|].
  - intros q Hq. apply Hk, Hl. set_solver.
  - intros q d [[-> ?]|[Hne Hq]]%Hd; [by right|].
    destruct (Hall q d Hq) as [[?|?]%elem_of_cons|?]; [done|by left|by right].
  - intros _ s' (HI' & Hr' & Hst' & Hcm' & Hc'). split_and!; try done. congruence.
Qed.

Lemma destroy_ok s :
  CInv s → client_ready s →
  wp skyuv_client_runtime_destroy (λ _ s', CInv s' ∧ cl_requests s' = ∅ ∧ cl_stopping s' = true ∧
    cl_completed s' = cl_completed s ∧
    ∀ p c, cl_heap s' !! p = Some c → handle_closing (cc_tcp c) = true) s.
Proof.
  intros HI [Hr Hst]. unfold skyuv_client_runtime_destroy, stop_connections. do 4 cl_step.
  pose proof HI as [Ht Hw Ha]. eapply wp_mono; [apply stop_all_ok; simpl; try done|done].
  - split; [by eapply CTable_same|exact Hw|by intros ?].
  - intros p. apply (ct_linked _ Ht).
  - intros p c Hp. left. apply (ct_linked _ Ht). eauto.
Qed.

(** ** Every step *)

Lemma client_api_ok api s :
  CInv s → client_ready s → wp (run_client_api api) (λ _ s', CInv s') s.
Proof.
  intros HI Hrd. destruct api; simpl run_client_api; try cl_step.
  - eapply wp_mono; [by apply connect_timeout_ok|]. intros o s' [? _]. by cl_step.
  - eapply wp_mono; [by apply close_ok|]. intros o s' [? _]. by cl_step.
  - eapply wp_mono; [by apply send_part_ok|]. intros o s' [? _]. by cl_step.
  - destruct (decide (capacity = 0%N)) as [->|].
    { unfold skyuv_client_runtime_recv. simpl. do 2 cl_step. done. }
    eapply wp_mono; [apply recv_ok; [done|done|lia]|]. intros o s' [? _]. by cl_step.
  - eapply wp_mono; [by apply shutdown_ok|]. intros o s' [? _]. by cl_step.
  - eapply wp_mono; [by apply ready_ok|]. intros o s' [? _]. by cl_step.
  - eapply wp_mono; [by apply destroy_ok|]. by intros _ s' [? _].
Qed.

Lemma fresh_client_ok : CInv fresh_client.
Proof.
  split; [split; simpl| |]; try done.
  - constructor.
  - intros p. rewrite elem_of_nil, lookup_empty. split; [done|by intros []].
  - left. by split.
Qed.

Lemma client_step_ok s s' : client_step s s' → CInv s → CInv s'.
Proof.
  intros [cb s1 Hen Hrun|api s1 Hrd Hrun] HI.
  - pose proof (client_callback_ok cb s HI Hen) as Hwp. unfold wp in Hwp. rewrite Hrun in Hwp. apply Hwp.
  - pose proof (client_api_ok api s HI Hrd) as Hwp. unfold wp in Hwp. by rewrite Hrun in Hwp.
Qed.

Lemma client_reachable_ok s : client_reachable s → CInv s.
Proof.
  unfold client_reachable. generalize fresh_client_ok. generalize fresh_client.
  intros s0 H0 Hs. induction Hs; eauto using client_step_ok.
Qed.

End calls.
