(* ===== verification/ClientFrame.v ===== *)
(** * What the client's operations leave alone

    Two frame properties, each a relation between the state before and after: a
    callback changes no connection but its own, and nothing but a read callback
    and a receive changes what a connection has buffered.  Both follow the
    structure of the code, by one set of rules for any relation that is closed
    under the elementary actions. *)
From S2P Require Import Prelude ClientRuntime ClientInvariant ClientSafety ClientCalls.

(** ** Rules *)

(** A relation on states that is closed under the changes of a connection [p] by
    [f] with [ok p f], under the release of a connection [p] with [del p], and
    under everything else but a write. *)
Class Framing (R : relation skyuv_client_runtime)
    (ok : positive → (client_connection → client_connection) → Prop) (del : positive → Prop) : Prop := {
  fr_preorder :: PreOrder R;
  fr_same s s' : cl_heap s' = cl_heap s → (cl_next_ptr s ≤ cl_next_ptr s')%positive →
    cl_wire s' = cl_wire s → R s s';
  fr_set p f c s s' : ok p f → cl_heap s !! p = Some c → cl_heap s' = <[p := f c]> (cl_heap s) →
    cl_next_ptr s' = cl_next_ptr s → cl_wire s' = cl_wire s → R s s';
  fr_del p s s' : del p → cl_heap s' = delete p (cl_heap s) → cl_next_ptr s' = cl_next_ptr s →
    cl_wire s' = cl_wire s → R s s';
}.

(** Whenever [m] returns, it relates the states before and after. *)
Definition pres {A} (R : relation skyuv_client_runtime) (m : C A) : Prop :=
  ∀ s a s', m s = Ret a s' → R s s'.

Lemma wp_pres {A} R (m : C A) (Q : A → skyuv_client_runtime → Prop) s :
  pres R m → wp m Q s → wp m (λ a s', Q a s' ∧ R s s') s.
Proof. intros Hm. unfold wp. destruct (m s) eqn:E; [|done]. eauto. Qed.

Section rules.
Context {env : ClientEnv} {R : relation skyuv_client_runtime}.
Context {ok : positive → (client_connection → client_connection) → Prop} {del : positive → Prop}.
Context {HR : Framing R ok del}.
Implicit Types (s : skyuv_client_runtime) (c : client_connection) (p r : positive).

Lemma pres_ret {A} (a : A) : pres R (mret a).
Proof. intros s a' s' [= -> ->]. reflexivity. Qed.

Lemma pres_throw {A} f : pres (A := A) R (throw f).
Proof. by intros s a s' ?. Qed.

Lemma pres_skip : pres R skip.
Proof. apply pres_ret. Qed.

Lemma pres_bind {A B} (m : C A) (k : A → C B) :
  pres R m → (∀ a, pres R (k a)) → pres R (m ≫= k).
Proof.
  intros Hm Hk s b s'. unfold mbind, M_bind. destruct (m s) as [a s1|] eqn:E; [|done].
  intros Hb. transitivity s1; [by eapply Hm|by eapply Hk].
Qed.

Lemma pres_whenM b (m : C unit) : pres R m → pres R (whenM b m).
Proof. intros. destruct b; [done|apply pres_skip]. Qed.

Lemma pres_forM {A} (l : list A) (f : A → C unit) : (∀ x, pres R (f x)) → pres R (forM l f).
Proof. intros Hf. induction l; [apply pres_skip|]. by apply pres_bind. Qed.

Lemma pres_gets {A} (f : skyuv_client_runtime → A) : pres R (gets f).
Proof. intros s a s' [= _ ->]. reflexivity. Qed.

Lemma pres_modify f :
  (∀ s, cl_heap (f s) = cl_heap s) → (∀ s, cl_next_ptr (f s) = cl_next_ptr s) →
  (∀ s, cl_wire (f s) = cl_wire s) → pres R (modify f).
Proof. intros Hh Hn Hw s a s' [= <- <-]. apply fr_same; [done|by rewrite Hn|done]. Qed.

Lemma pres_fresh : pres R fresh.
Proof. intros s a s' [= <- <-]. apply fr_same; simpl; [done|lia|done]. Qed.

Lemma pres_calloc : pres R calloc.
Proof. intros s a s' [= <- <-]. by apply fr_same. Qed.

Lemma pres_cuv call : pres R (cuv call).
Proof. intros s a s' [= <- <-]. by apply fr_same. Qed.

Lemma pres_conn p : pres R (conn p).
Proof. intros s a s'. unfold conn. destruct (_ !! _); [|done]. intros [= -> ->]. reflexivity. Qed.

Lemma pres_request r : pres R (request r).
Proof. intros s a s'. unfold request. destruct (_ !! _); [|done]. intros [= -> ->]. reflexivity. Qed.

Lemma pres_set_request r f : pres R (set_request r f).
Proof.
  intros s a s'. unfold set_request. destruct (_ !! _); [|done]. intros [= <- <-]. by apply fr_same.
Qed.

Lemma pres_set_conn p f : ok p f → pres R (set_conn p f).
Proof.
  intros Hok s a s'. unfold set_conn. destruct (_ !! _) eqn:E; [|done]. intros [= <- <-].
  by eapply fr_set.
Qed.

Lemma pres_free p : del p → pres R (modify (λ s, s <| cl_heap ::= delete p |>)).
Proof. intros Hd s a s' [= <- <-]. by eapply fr_del. Qed.

End rules.

Ltac pres_step :=
  first
    [ progress intros
    | apply pres_ret | apply pres_throw | apply pres_skip | apply pres_gets | apply pres_fresh
    | apply pres_calloc | apply pres_cuv | apply pres_conn | apply pres_request
    | apply pres_set_request
    | apply pres_bind | apply pres_whenM | apply pres_forM
    | apply pres_free; solve [eauto]
    | apply pres_modify; done
    | apply pres_set_conn; solve [eauto]
    | case_match ].

(** Unfold a function of the client and follow its body. *)
Ltac pres_all := repeat pres_step.

Section frames.
Context {env : ClientEnv} {laws : ClientEnvLaws env}.
Implicit Types (s : skyuv_client_runtime) (c : client_connection) (p r : positive).

(** ** A callback changes its own connection only *)

Definition others p s s' : Prop := ∀ q, q ≠ p → cl_heap s' !! q = cl_heap s !! q.

#[local] Instance others_framing p : Framing (others p) (λ q _, q = p) (λ q, q = p).
Proof.
  split.
  - split; [by intros s q|]. intros s1 s2 s3 H12 H23 q Hq. by rewrite (H23 q Hq), (H12 q Hq).
  - intros s s' He _ _ q _. by rewrite He.
  - intros p' f c s s' -> Hp He _ _ q Hq. by rewrite He, lookup_insert_ne.
  - intros p' s s' -> He _ _ q Hq. by rewrite He, lookup_delete_ne.
Qed.

Lemma callback_others cb : pres (others (callback_conn cb)) (run_client_callback cb).
Proof.
  destruct cb; simpl;
    unfold connected, connection_timeout, read_callback, received, written, shutdown_done,
      connection_closed, close_connection, close_tcp, close_timer, read_stop, read_start, conn_request,
      complete, notify; pres_all.
Qed.

(** ** Only a send writes *)

Definition same_wire s s' : Prop := cl_wire s' = cl_wire s.

#[local] Instance wire_framing : Framing same_wire (λ _ _, True) (λ _, True).
Proof.
  split; [|done..]. split; [done|]. intros s1 s2 s3 H12 H23. unfold same_wire in *. congruence.
Qed.

Lemma callback_wire cb : pres same_wire (run_client_callback cb).
Proof.
  destruct cb; simpl;
    unfold connected, connection_timeout, read_callback, received, written, shutdown_done,
      connection_closed, close_connection, close_tcp, close_timer, read_stop, read_start, conn_request,
      complete, notify; pres_all.
Qed.

(** ** Buffers *)

Definition same_buffer c c' : Prop :=
  cc_received c' = cc_received c ∧ cc_received_size c' = cc_received_size c ∧ cc_id c' = cc_id c.

(** Every connection that is still there has the buffer it had. *)
Definition kept s s' : Prop :=
  (cl_next_ptr s ≤ cl_next_ptr s')%positive ∧
  ∀ p c', (p < cl_next_ptr s)%positive → cl_heap s' !! p = Some c' →
    ∃ c, cl_heap s !! p = Some c ∧ same_buffer c c'.

#[local] Instance kept_framing : Framing kept (λ _ f, ∀ c, same_buffer c (f c)) (λ _, True).
Proof.
  split.
  - split.
    + intros s. split; [done|]. intros p c _ Hp. by exists c.
    + intros s1 s2 s3 [H12 K12] [H23 K23]. split; [lia|]. intros p c3 Hp H3.
      destruct (K23 p c3) as (c2 & Hc2 & ? & ? & ?); [lia|done|].
      destruct (K12 p c2) as (c1 & Hc1 & ? & ? & ?); [lia|done|]. exists c1. split; [done|].
      split_and!; congruence.
  - intros s s' He Hn _. split; [done|]. rewrite He. intros p c _ Hp. by exists c.
  - intros p f c s s' Hf Hp He Hn _. split; [by rewrite Hn|]. intros q c' _. rewrite He, lookup_insert_Some.
    intros [[<- <-]|[_ Hq]]; [by eauto|]. by exists c'.
  - intros p s s' _ He Hn _. split; [by rewrite Hn|]. intros q c' _. rewrite He, lookup_delete_Some.
    intros [_ Hq]. by exists c'.
Qed.

Lemma kept_create {A} c (k : positive → C A) :
  (∀ p, pres kept (k p)) →
  pres kept (p ← fresh; modify (λ s, s <| cl_heap ::= <[p := c]> |>) ;; k p).
Proof.
  intros Hk s a s' Hrun. apply Hk in Hrun as [Hn Hkept]. simpl in *. split; [lia|].
  intros p c' Hp Hc'. destruct (Hkept p c') as (c1 & H1 & ?); [lia|done|]. exists c1. split; [|done].
  by rewrite lookup_insert_ne in H1 by lia.
Qed.

Create HintDb client_kept.

Ltac kept_all :=
  repeat first
    [ solve [auto 2 with client_kept nocore] | apply kept_create | pres_step
    | apply pres_set_conn; intros ?; by repeat split ].

Lemma kept_close_connection p : pres kept (close_connection p).
Proof. unfold close_connection, close_tcp, close_timer. kept_all. Qed.
#[local] Hint Resolve kept_close_connection : client_kept.

Lemma kept_find_connection r : pres kept (find_connection r).
Proof.
  assert (∀ id l, pres kept (find_in id l)) as Hin.
  { intros id l. induction l as [|p l IH]; simpl; kept_all; done. }
  unfold find_connection. kept_all; apply Hin.
Qed.
#[local] Hint Resolve kept_find_connection : client_kept.

Lemma kept_complete r result : pres kept (complete r result).
Proof. unfold complete. kept_all. Qed.
#[local] Hint Resolve kept_complete : client_kept.

Lemma kept_read_start p : pres kept (read_start p).
Proof. unfold read_start. kept_all. Qed.
#[local] Hint Resolve kept_read_start : client_kept.

Lemma kept_connect_fails p r result : pres kept (connect_fails p r result).
Proof. unfold connect_fails. kept_all. Qed.
#[local] Hint Resolve kept_connect_fails : client_kept.

Lemma kept_uv_write id bytes : pres kept (uv_write id bytes).
Proof.
  intros s a s'. unfold uv_write, cuv, mbind, M_bind. simpl. destruct (_ =? 0); intros [= <- <-].
  all: split; [done|]; intros p c _ Hp; by exists c.
Qed.
#[local] Hint Resolve kept_uv_write : client_kept.

Lemma kept_commands r :
  pres kept (start_connect r) ∧ pres kept (start_close r) ∧ pres kept (start_send r) ∧
  pres kept (start_shutdown r) ∧ pres kept (check_ready r).
Proof.
  split_and!.
  - unfold start_connect, start_timer. kept_all.
  - unfold start_close. kept_all.
  - unfold start_send. kept_all.
  - unfold start_shutdown, shutdown_read, read_stop. kept_all.
  - unfold check_ready. kept_all.
Qed.

Lemma kept_submit q command : (∀ r, pres kept (command r)) → pres kept (submit_request q command).
Proof.
  intros Hc. unfold submit_request, new_request, drop_request, skyuv_client_runtime_call.
  kept_all; apply Hc.
Qed.

(** Every callback but the reads, and every call but a receive. *)
Lemma callback_kept cb : is_read cb = false → pres kept (run_client_callback cb).
Proof.
  destruct cb; simpl; intros Hr; try done;
    unfold connected, connection_timeout, written, shutdown_done, connection_closed, close_timer,
      conn_request; kept_all.
Qed.

Definition is_recv (api : client_api) : bool :=
  match api with CallRecv _ _ => true | _ => false end.

Lemma api_kept api : is_recv api = false → pres kept (run_client_api api).
Proof.
  pose proof kept_commands as Hc. destruct api; simpl; intros Hr; try done.
  - unfold skyuv_client_runtime_connect_timeout. kept_all; apply kept_submit, Hc.
  - unfold skyuv_client_runtime_close. kept_all; apply kept_submit, Hc.
  - unfold send_part. kept_all; apply kept_submit, Hc.
  - unfold skyuv_client_runtime_shutdown. kept_all; apply kept_submit, Hc.
  - unfold skyuv_client_runtime_ready, new_request, drop_request, skyuv_client_runtime_call.
    kept_all; apply Hc.
  - unfold skyuv_client_runtime_destroy, stop_connections. kept_all.
Qed.

End frames.
