(* ===== verification/ClientProperties.v ===== *)
(** * Properties of the client runtime

    No step of the client faults, every request a caller waits for gets its
    result, and the bytes a caller receives are the bytes that arrived. *)
From S2P Require Import Prelude ClientRuntime ClientInvariant ClientSafety ClientCalls ClientFrame.

Section properties.
Context {env : ClientEnv} {laws : ClientEnvLaws env}.
Implicit Types (s : skyuv_client_runtime) (c : client_connection) (p r : positive).

(** C14 No step of the client faults: in every reachable state, every callback
    libuv can make and every call a client may make runs to its end, without
    using a connection or a request that is gone, and keeps the invariant: the
    list and the records of the connections agree, every count of handles is
    right, every buffer is within its array and the request of a waiting caller is
    held by exactly one connection. *)
Theorem client_never_faults s :
  client_reachable s →
  (∀ cb, client_enabled cb s → ∃ s', run_client_callback cb s = Ret tt s' ∧ CInv s') ∧
  (client_ready s → ∀ api, ∃ s', run_client_api api s = Ret tt s' ∧ CInv s').
Proof.
  intros HI%client_reachable_ok. split.
  - intros cb Hen. destruct (wp_Ret _ _ _ (client_callback_ok cb s HI Hen)) as ([] & s' & ? & ? & _). eauto.
  - intros Hrd api. destruct (wp_Ret _ _ _ (client_api_ok api s HI Hrd)) as ([] & s' & ? & ?). eauto.
Qed.

(** ** Streams *)

(** A step with what it delivers to a connection or takes from it. *)
Inductive client_label :=
| LCallback (cb : client_callback)
| LRecv (id : Z) (bytes : list Z)
| LCall (api : client_api).

Inductive client_lstep s : client_label → skyuv_client_runtime → Prop :=
| lstep_callback cb s' :
    client_enabled cb s → run_client_callback cb s = Ret tt s' → client_lstep s (LCallback cb) s'
| lstep_recv id capacity result bytes s' :
    client_ready s → 0 < capacity →
    skyuv_client_runtime_recv id true capacity s = Ret (result, bytes) s' →
    client_lstep s (LRecv id bytes) s'
| lstep_call api s' :
    client_ready s → is_recv api = false → run_client_api api s = Ret tt s' →
    client_lstep s (LCall api) s'.

Inductive client_run : skyuv_client_runtime → list client_label → skyuv_client_runtime → Prop :=
| run_nil s : client_run s [] s
| run_cons s l s1 ls s' : client_lstep s l s1 → client_run s1 ls s' → client_run s (l :: ls) s'.

(** The bytes libuv delivers to the connection at [p]. *)
Definition delivered p (l : client_label) : list Z :=
  match l with LCallback (OnRead q data _) => if decide (q = p) then data else [] | _ => [] end.

(** The bytes a caller takes from the connection [id]. *)
Definition taken (id : Z) (l : client_label) : list Z :=
  match l with LRecv id' bytes => if decide (id' = id) then bytes else [] | _ => [] end.

Lemma contents_same c c' : same_buffer c c' → contents c' = contents c.
Proof. intros (H1 & H2 & _). unfold contents. by rewrite H1, H2. Qed.

(** The addresses of the model grow. *)
Definition grows s s' : Prop := (cl_next_ptr s ≤ cl_next_ptr s')%positive.

#[local] Instance grows_framing : Framing grows (λ _ _, True) (λ _, True).
Proof.
  unfold grows. split; [split|..].
  - intros s. done.
  - intros s1 s2 s3. apply Pos.le_trans.
  - done.
  - intros p f c s s' _ _ _ ->. done.
  - intros p s s' _ _ ->. done.
Qed.

Lemma grows_read p data error : pres grows (read_callback p data error).
Proof. unfold read_callback, received, read_stop, notify. simpl. pres_all. Qed.

Lemma grows_recv id buffer capacity : pres grows (skyuv_client_runtime_recv id buffer capacity).
Proof.
  assert (∀ r, pres grows (find_connection r)) as Hf.
  { assert (∀ id l, pres grows (find_in id l)) as Hin.
    { intros id' l. induction l as [|p l IH]; simpl; pres_all; done. }
    intros r. unfold find_connection. pres_all; apply Hin. }
  unfold skyuv_client_runtime_recv, new_request, drop_request, skyuv_client_runtime_call,
    receive_data, read_start. repeat first [apply Hf | pres_step].
Qed.

Lemma lstep_grows s l s' : client_lstep s l s' → grows s s'.
Proof.
  intros [cb s1 Hen Hrun|id capacity result bytes s1 Hrd Hcap Hrun|api s1 Hrd Hrv Hrun].
  - destruct (is_read cb) eqn:Hr; [|by eapply callback_kept in Hrun as [? _]].
    destruct cb; try done. by eapply grows_read.
  - by eapply grows_recv.
  - by eapply api_kept in Hrun as [? _].
Qed.

Lemma lstep_inv s l s' : client_lstep s l s' → CInv s → CInv s'.
Proof.
  intros [cb s1 Hen Hrun|id capacity result bytes s1 Hrd Hcap Hrun|api s1 Hrd Hrv Hrun] HI.
  - apply (client_step_ok s); [by eapply client_step_callback|done].
  - pose proof (recv_ok id capacity s HI Hrd Hcap) as Hwp. unfold wp in Hwp. rewrite Hrun in Hwp. apply Hwp.
  - apply (client_step_ok s); [by eapply client_step_api|done].
Qed.

(** One step: what the connection has buffered grows at the end by what is
    delivered and shrinks at the front by what is taken. *)
Lemma lstep_stream s l s' p c' :
  CInv s → client_lstep s l s' → (p < cl_next_ptr s)%positive → cl_heap s' !! p = Some c' →
  ∃ c, cl_heap s !! p = Some c ∧ cc_id c' = cc_id c ∧
    contents c ++ delivered p l = taken (cc_id c) l ++ contents c'.
Proof.
  intros HI Hstep Hlt Hp'.
  destruct Hstep as [cb s1 Hen Hrun|id capacity result bytes s1 Hrd Hcap Hrun|api s1 Hrd Hrv Hrun].
  - destruct (is_read cb) eqn:Hr.
    + destruct cb as [| |q data error| | | |]; try done. destruct (decide (q = p)) as [->|Hne].
      * destruct Hen as (c & Hp & Hrd & Hlen & Herr). simpl. rewrite decide_True by done.
        assert (wp (read_callback p data error) (λ _ s1, ∀ c', cl_heap s1 !! p = Some c' →
          cc_id c' = cc_id c ∧ contents c' = contents c ++ data) s) as Hwp.
        { eapply wp_read_callback; [done|apply (ct_conn _ (cv_table _ HI) p c Hp)|done..|].
          intros array n paused status reading revision c1 _ Hcont _ c2. simpl.
          rewrite lookup_insert_eq. by intros [= <-]. }
        unfold wp in Hwp. simpl in Hrun. rewrite Hrun in Hwp. destruct (Hwp c' Hp') as [? Hc].
        exists c. split_and!; done.
      * pose proof (callback_others (OnRead q data error) s tt s1 Hrun p) as Ho.
        rewrite Ho in Hp' by done. exists c'. simpl. rewrite decide_False by done.
        by rewrite app_nil_r.
    + eapply callback_kept in Hrun as [_ Hk]; [|done]. destruct (Hk p c' Hlt Hp') as (c & Hp & Hb).
      exists c. pose proof (contents_same c c' Hb) as ->. split_and!; [done|apply Hb|].
      destruct cb; try done; by rewrite app_nil_r.
  - pose proof (recv_ok id capacity s HI Hrd Hcap) as Hwp. unfold wp in Hwp. rewrite Hrun in Hwp.
    simpl delivered.
    destruct Hwp as (_ & _ & _ & [(_ & Hnil & He)|(_ & q & c & c1 & Hq & Hid & _ & He & Hid1 & Hcont & _)]).
    + simpl in Hnil. subst. rewrite He in Hp'. exists c'. split_and!; [done|done|]. simpl.
      rewrite app_nil_r. by destruct (decide _).
    + rewrite He in Hp'. simpl in Hcont. destruct (decide (p = q)) as [->|Hne].
      * rewrite lookup_insert_eq in Hp'. simplify_eq. exists c. split_and!; [done|done|]. simpl.
        by rewrite decide_True, app_nil_r.
      * rewrite lookup_insert_ne in Hp' by done. exists c'. split_and!; [done|done|]. simpl.
        rewrite decide_False, app_nil_r; [done|]. intros E. apply Hne. symmetry.
        eapply (ct_ids _ (cv_table _ HI)); [done|done|congruence].
  - eapply api_kept in Hrun as [_ Hk]; [|done]. destruct (Hk p c' Hlt Hp') as (c & Hp & Hb).
    exists c. rewrite (contents_same c c' Hb). split_and!; [done|apply Hb|]. by rewrite app_nil_r.
Qed.

Lemma run_stream s ls s' p c' :
  CInv s → client_run s ls s' → (p < cl_next_ptr s)%positive → cl_heap s' !! p = Some c' →
  ∃ c, cl_heap s !! p = Some c ∧ cc_id c' = cc_id c ∧
    contents c ++ flat_map (delivered p) ls = flat_map (taken (cc_id c)) ls ++ contents c'.
Proof.
  intros HI Hrun. revert HI. induction Hrun as [s|s l s1 ls s' Hstep Hrun IH]; intros HI Hlt Hp'.
  { exists c'. split_and!; [done|done|]. simpl. by rewrite app_nil_r. }
  pose proof (lstep_grows s l s1 Hstep). unfold grows in *.
  destruct IH as (c1 & Hp1 & Hid1 & Heq1); [by eapply lstep_inv|lia|done|].
  destruct (lstep_stream s l s1 p c1 HI Hstep Hlt Hp1) as (c & Hp & Hid & Heq).
  exists c. split_and!; [done|congruence|]. cbn [flat_map].
  rewrite app_assoc, Heq, <- !app_assoc. f_equal. by rewrite Heq1, Hid.
Qed.

Lemma run_inv s ls s' : client_run s ls s' → CInv s → CInv s'.
Proof. induction 1; eauto using lstep_inv. Qed.

(** C16 The stream of a connection is never lost, repeated or reordered: from a
    reachable state on, whatever callbacks and calls follow, what the connection
    had buffered and all that libuv delivered to it since is what callers of
    [skyuv_client_runtime_recv] got from its id, in order, and then what it still
    has buffered, which is at most the 65536 bytes of the array. *)
Theorem client_stream s ls s' p c c' :
  client_reachable s → client_run s ls s' →
  cl_heap s !! p = Some c → cl_heap s' !! p = Some c' →
  contents c ++ flat_map (delivered p) ls = flat_map (taken (cc_id c)) ls ++ contents c' ∧
  Z.of_nat (length (contents c')) ≤ CLIENT_RECEIVE_LIMIT.
Proof.
  intros HI%client_reachable_ok Hrun Hp Hp'.
  assert (p < cl_next_ptr s)%positive as Hlt.
  { destruct (decide (p < cl_next_ptr s)%positive); [done|].
    destruct (ct_fresh _ (cv_table _ HI) p) as [? _]; [lia|congruence]. }
  destruct (run_stream s ls s' p c' HI Hrun Hlt Hp') as (c0 & Hp0 & _ & Heq). simplify_eq.
  split; [done|]. pose proof (run_inv s ls s' Hrun HI) as HI'.
  destruct (co_buffer _ _ (ct_conn _ (cv_table _ HI') p c' Hp')) as [_ Hs _].
  unfold contents. rewrite length_take. lia.
Qed.

(** ** Completion *)

(** The next callback, reads apart, of a connection that holds a request. *)
Definition next_callback p c : client_callback :=
  if decide (is_Some (cc_writing c)) then OnWritten p 0
  else if decide (is_Some (cc_shutting c)) then OnShutdown p 0
  else if cc_connecting c then OnConnected p (if decide (cc_tcp c = Active) then 0 else UV_ECANCELED)
  else if decide (cc_tcp c = Closing) then OnTcpClosed p
  else OnTimerClosed p.

Lemma next_callback_enabled p c r s :
  CInv s → cl_heap s !! p = Some c → holds c = [r] →
  client_enabled (next_callback p c) s ∧ is_read (next_callback p c) = false ∧
  callback_conn (next_callback p c) = p.
Proof.
  intros HI Hp Hho. destruct (ct_conn _ (cv_table _ HI) p c Hp) as [_ Hh Hpos _ Hph _].
  unfold next_callback. destruct (decide _) as [?|Hw%eq_None_not_Some]; [by split; [exists c|]|].
  destruct (decide _) as [?|Hs%eq_None_not_Some]; [by split; [exists c|]|].
  unfold holds in Hho. rewrite Hw, Hs in Hho.
  destruct (cc_connecting c) eqn:Hco.
  - split; [|done]. exists c. split_and!; [done|done|]. destruct (decide _); auto.
  - destruct (decide _); [by split; [exists c; split_and!|]|]. split; [|done]. exists c. split; [done|].
    destruct Hph as [? ? E|E|Htcp Htm]; [congruence|by rewrite E in Hho|].
    destruct (cc_tcp c), (cc_timer c); try done; simpl in *; lia.
Qed.

Lemma waiting_holder s r q :
  CInv s → cl_requests s = {[ r := q ]} → ∃ p c, cl_heap s !! p = Some c ∧ holds c = [r].
Proof.
  intros HI Hq. destruct (cv_waiting _ HI) as [[E _]|(r' & q' & p & Hq' & [c Hp] & Hh)].
  { rewrite E in Hq. symmetry in Hq. by apply map_non_empty_singleton in Hq. }
  rewrite Hq in Hq'. apply (inj2 _) in Hq' as [<- _]. exists p, c. split; [done|].
  by rewrite (Hh p c Hp), share_self.
Qed.

Lemma work_bounds c : 0 ≤ work c ≤ 7.
Proof.
  unfold work. destruct (cc_connecting c), (cc_tcp c), (cc_timer c), (bool_decide _), (bool_decide _);
    simpl; lia.
Qed.

Lemma read_keeps_work p c data error s s' :
  CInv s → cl_heap s !! p = Some c → client_enabled (OnRead p data error) s →
  run_client_callback (OnRead p data error) s = Ret tt s' →
  ∃ c', cl_heap s' !! p = Some c' ∧ holds c' = holds c ∧ work c' = work c.
Proof.
  intros HI Hp (c0 & Hp0 & Hrd & Hlen & Herr) Hrun. simplify_eq.
  assert (wp (read_callback p data error) (λ _ s1, ∃ c', cl_heap s1 !! p = Some c' ∧
    holds c' = holds c ∧ work c' = work c) s) as Hwp.
  { eapply wp_read_callback; [done|apply (ct_conn _ (cv_table _ HI) p c Hp)|done..|].
    intros. eexists. split; [cl_lookup|done]. }
  unfold wp in Hwp. simpl in Hrun. by rewrite Hrun in Hwp.
Qed.

(** C15 Every caller gets its result.  In any reachable state in which a caller
    waits, one connection holds its request and a callback other than a read is
    due for that connection; and whatever callback libuv makes runs without a
    fault and completes the request, once, or leaves it with that connection, with
    less work to do if the callback was such a one and with the same work
    otherwise.  The work is bounded by 7 callbacks. *)
Theorem client_requests_complete s r q :
  client_reachable s → cl_requests s = {[ r := q ]} →
  ∃ p c, cl_heap s !! p = Some c ∧ holds c = [r] ∧ 0 ≤ work c ≤ 7 ∧
    (∃ cb, client_enabled cb s ∧ is_read cb = false ∧ callback_conn cb = p) ∧
    ∀ cb, client_enabled cb s → ∃ s', run_client_callback cb s = Ret tt s' ∧
      ((cl_requests s' = ∅ ∧ ∃ q', cl_completed s' = cl_completed s ++ [(r, q')]) ∨
       ∃ c', cl_heap s' !! p = Some c' ∧ holds c' = [r] ∧ (∃ q', cl_requests s' = {[ r := q' ]}) ∧
         (work c' < work c ∨
          work c' = work c ∧ (is_read cb = true ∨ callback_conn cb ≠ p))).
Proof.
  intros HI%client_reachable_ok Hq. destruct (waiting_holder s r q HI Hq) as (p & c & Hp & Hho).
  exists p, c. split; [done|]. split; [done|]. split; [|split].
  - apply work_bounds.
  - exists (next_callback p c). by eapply next_callback_enabled.
  - intros cb Hen. destruct (wp_Ret _ _ _ (client_callback_ok cb s HI Hen)) as ([] & s' & Hrun & HI' & Hpr).
    exists s'. split; [done|]. destruct (decide (callback_conn cb = p)) as [Hcp|Hcp].
    + destruct (is_read cb) eqn:Hrd.
      * right. destruct cb as [| |p' data error| | | |]; try done. simpl in Hcp. subst p'.
        destruct (read_keeps_work p c data error s s' HI Hp Hen Hrun) as (c' & Hp' & Hho' & Hwk).
        exists c'. rewrite Hho in Hho'. split_and!; [done|done| |auto].
        eapply held_request; [done|done|]. rewrite Hho'. set_solver.
      * rewrite Hcp in Hpr. destruct (Hpr eq_refl c Hp r q Hho Hq)
          as (_ & q' & _ & [[? ?]|(? & _ & c' & ? & ? & ?)]); [by left; eauto|].
        right. exists c'. eauto 10.
    + right. exists c. pose proof (callback_others cb s tt s' Hrun p) as Ho.
      rewrite Hp in Ho. specialize (Ho ltac:(done)). split_and!; [done|done| |auto].
      eapply held_request; [done|done|]. rewrite Hho. set_solver.
Qed.

End properties.
