(* ===== verification/ClientSend.v ===== *)
(** * Sending and destroying

    The blocking send of the client, over any wait that returns the result of the
    request it waits for, and the end of the loop of a destroyed runtime.  A
    concrete wait, which makes the callbacks that are due, shows that there is
    one. *)
From S2P Require Import Prelude ClientRuntime ClientInvariant ClientSafety ClientCalls ClientFrame.
From S2P Require Import ClientProperties.

(** ** Waiting *)

(** What the wait at the end of [submit_request] does, as its caller sees it:
    while the request is pending callbacks run, which complete it and write
    nothing; once it is completed its result is returned. *)
Class ClientWait `{ClientEnv} (wait : positive → C Z) : Prop := {
  wait_pending r q s :
    CInv s → cl_requests s = {[ r := q ]} →
    wp (wait r) (λ result s', CInv s' ∧ cl_stopping s' = cl_stopping s ∧ cl_requests s' = ∅ ∧
      cl_wire s' = cl_wire s ∧ ∃ q', cl_completed s' = cl_completed s ++ [(r, q')] ∧ rq_result q' = result ∧
        rq_source q' = rq_source q) s;
  wait_completed r q l s :
    cl_requests s = ∅ → cl_completed s = l ++ [(r, q)] → wait r s = Ret (rq_result q) s;
}.

Section wait.
Context {env : ClientEnv} {laws : ClientEnvLaws env}.
Implicit Types (s : skyuv_client_runtime) (c : client_connection) (p r : positive).

(** The result of a request that is done. *)
Definition done_result r s : option Z :=
  match cl_requests s !! r, last (cl_completed s) with
  | None, Some (r', q) => if decide (r' = r) then Some (rq_result q) else None
  | _, _ => None
  end.

(** The callback that is due for the holder of a request. *)
Definition due r s (p : positive) : option client_callback :=
  c ← cl_heap s !! p;
  if decide (r ∈ holds c) then Some (next_callback p c) else None.

(** Make the callbacks that are due until the request is done. *)
Fixpoint run_until_done (fuel : nat) r : C Z :=
  result ← gets (done_result r);
  match result, fuel with
  | Some result, _ => mret result
  | None, O => throw OutOfFuel
  | None, S fuel =>
      cbs ← gets (λ s, omap (due r s) (cl_connections s));
      match cbs with
      | [] => throw StaleRequest
      | cb :: _ => run_client_callback cb ;; run_until_done fuel r
      end
  end.

Lemma done_result_completed r q l s :
  cl_requests s = ∅ → cl_completed s = l ++ [(r, q)] → done_result r s = Some (rq_result q).
Proof.
  intros Hr Hcm. unfold done_result. rewrite Hr, lookup_empty, Hcm, last_snoc. by rewrite decide_True.
Qed.

Lemma run_until_completed fuel r q l s :
  cl_requests s = ∅ → cl_completed s = l ++ [(r, q)] →
  run_until_done fuel r s = Ret (rq_result q) s.
Proof.
  intros Hr Hcm. destruct fuel; cbn; unfold mbind, M_bind, gets; cbn;
    by rewrite (done_result_completed r q l s Hr Hcm).
Qed.

(** The callback that is made is the next one of the holder. *)
Lemma due_holder r q p c s :
  CInv s → cl_requests s = {[ r := q ]} → cl_heap s !! p = Some c → holds c = [r] →
  ∃ l, omap (due r s) (cl_connections s) = next_callback p c :: l.
Proof.
  intros HI Hq Hp Hho.
  destruct (held_request s p c r HI Hp) as (_ & _ & Hh); [rewrite Hho; set_solver|].
  assert (p ∈ cl_connections s) as Hin by (apply (ct_linked _ (cv_table _ HI)); eauto).
  induction (cl_connections s) as [|p' l IH]; [by apply elem_of_nil in Hin|].
  cbn [omap list_omap]. unfold due at 1. destruct (cl_heap s !! p') as [c'|] eqn:Hp'; simpl.
  - destruct (decide (r ∈ holds c')) as [Hin'|Hnin].
    + destruct (decide (p' = p)) as [->|Hne]; [simplify_eq; eauto|].
      rewrite (Hh p' c' Hp'), share_other in Hin' by done. by apply elem_of_nil in Hin'.
    + apply elem_of_cons in Hin as [<-|Hin]; [|by apply IH].
      simplify_eq. rewrite Hho in Hnin. set_solver.
  - apply elem_of_cons in Hin as [<-|Hin]; [congruence|by apply IH].
Qed.

Lemma run_until_pending fuel r q p c s :
  CInv s → cl_requests s = {[ r := q ]} → cl_heap s !! p = Some c → holds c = [r] →
  work c < Z.of_nat fuel →
  wp (run_until_done fuel r) (λ result s', CInv s' ∧ cl_stopping s' = cl_stopping s ∧
    cl_requests s' = ∅ ∧ cl_wire s' = cl_wire s ∧ ∃ q', cl_completed s' = cl_completed s ++ [(r, q')] ∧
      rq_result q' = result ∧ rq_source q' = rq_source q) s.
Proof.
  revert q c s. induction fuel as [|fuel IH]; intros q c s HI Hq Hp Hho Hfuel.
  { pose proof (work_bounds c). lia. }
  cbn [run_until_done]. do 2 cl_step. unfold done_result at 1. rewrite Hq, lookup_singleton_eq.
  do 2 cl_step. destruct (due_holder r q p c s HI Hq Hp Hho) as [l ->]. cl_step.
  destruct (next_callback_enabled p c r s HI Hp Hho) as (Hen & Hrd & Hcp).
  eapply wp_mono; [apply (wp_pres same_wire); [apply callback_wire|by apply client_callback_ok]|].
  rewrite Hcp. intros _ s1 [[HI1 Hpr] Hw1]. unfold same_wire in Hw1. destruct (Hpr Hrd c Hp r q Hho Hq)
    as (Hst & q1 & Hsrc & [[Hr1 Hcm1]|(Hq1 & Hcm1 & c1 & Hp1 & Hho1 & Hwk1)]).
  - apply (wp_of_Ret _ _ _ _ _ (run_until_completed fuel r q1 _ s1 Hr1 Hcm1)). eauto 10.
  - eapply wp_mono; [apply (IH q1 c1 s1); try done; lia|].
    intros result s' (HI' & Hst' & Hr' & Hw' & q' & Hcm' & Hres & Hsrc').
    split_and!; [done|congruence|done|congruence|]. exists q'. split_and!; congruence.
Qed.

#[export] Instance run_until_wait : ClientWait (run_until_done 8).
Proof.
  split; [|intros; by eapply run_until_completed].
  intros r q s HI Hq. destruct (waiting_holder s r q HI Hq) as (p & c & Hp & Hho).
  eapply run_until_pending; [done..|]. pose proof (work_bounds c). lia.
Qed.

End wait.

(** ** Sending *)

Lemma UINT_MAX_pos : 0 < UINT_MAX.
Proof. done. Qed.
#[local] Opaque UINT_MAX.

(** The bytes of completed requests. *)
Definition sent (l : list (positive * client_request)) : list Z := flat_map (λ x, rq_source x.2) l.

(** A send of [source] to the connection [id] from [s] ends in [s'] with [result],
    having completed the requests [parts] and given libuv [wire] to write: each no
    longer than libuv's buffers can be, together the beginning of the source; and
    the send succeeds exactly if it has completed requests, all with success, for
    all of the source. *)
Record sends (id : Z) (source : list Z) (parts : list (positive * client_request))
    (wire : list (Z * list Z)) (result : Z) (s s' : skyuv_client_runtime) : Prop := Sends {
  se_inv : CInv s';
  se_ready : client_ready s';
  se_completed : cl_completed s' = cl_completed s ++ parts;
  se_wire : cl_wire s' = cl_wire s ++ wire;
  se_target : Forall (λ x, x.1 = id ∧ 0 < Z.of_nat (length x.2) ≤ UINT_MAX) wire;
  se_written : concat (snd <$> wire) = sent parts;
  se_prefix : sent parts `prefix_of` source;
  se_whole : result = 0 ↔ parts ≠ [] ∧ sent parts = source ∧ Forall (λ x, rq_result x.2 = 0) parts;
  se_turns : Z.of_nat (length parts) ≤ 1 + Z.of_nat (length source) / UINT_MAX;
}.

(** What one part puts on the wire. *)
Definition written_part (id : Z) (part : list Z) : list (Z * list Z) :=
  if negb (Z.of_nat (length part) =? 0) then [(id, part)] else [].

Lemma written_part_bytes id part : concat (snd <$> written_part id part) = part.
Proof.
  unfold written_part. destruct part; [done|]. simpl. by rewrite app_nil_r.
Qed.

Lemma written_part_target id part :
  Z.of_nat (length part) ≤ UINT_MAX →
  Forall (λ x, x.1 = id ∧ 0 < Z.of_nat (length x.2) ≤ UINT_MAX) (written_part id part).
Proof.
  intros Hl. unfold written_part. destruct (Z.eqb_spec (Z.of_nat (length part)) 0); simpl; constructor; [|done].
  simpl. lia.
Qed.

Section send.
Context {env : ClientEnv} {laws : ClientEnvLaws env}.
Context (wait : positive → C Z) {wait_ok : ClientWait wait}.
Implicit Types (s : skyuv_client_runtime) (r : positive).

(** One turn: refused, with nothing written, or written and completed. *)
Definition turn_done id part s (result : Z) s' : Prop :=
  CInv s' ∧ client_ready s' ∧
  ((result ≠ 0 ∧ cl_completed s' = cl_completed s ∧ cl_wire s' = cl_wire s) ∨
   ∃ r q, cl_completed s' = cl_completed s ++ [(r, q)] ∧ rq_source q = part ∧ rq_result q = result ∧
     cl_wire s' = cl_wire s ++ written_part id part).

Lemma send_turn id part s :
  CInv s → client_ready s → Z.of_nat (length part) ≤ UINT_MAX →
  wp (outcome ← send_part id part; settle wait outcome) (turn_done id part s) s.
Proof.
  intros HI Hrd Hlen. cl_step.
  eapply wp_mono; [apply wp_and; [by apply send_part_ok|by apply send_part_wire]|].
  intros [result|r] s1 [(HI1 & Hst & Ho) Hw]; simpl settle.
  - rewrite app_nil_r in Hw. destruct Ho as (Hne & Hr & Hcm). cl_step. split_and!; [done|by split|]. by left.
  - destruct Ho as (q1 & Hsrc & [[Hr1 Hcm1]|[Hq1 Hcm1]]); simpl in Hsrc.
    + apply (wp_of_Ret _ _ _ _ _ (wait_completed r q1 _ s1 Hr1 Hcm1)).
      split_and!; [done|by split|]. right. by exists r, q1.
    + eapply wp_mono; [by apply (wait_pending r q1)|].
      intros result s' (HI' & Hst' & Hr' & Hw' & q' & Hcm' & Hres & Hsrc').
      split_and!; [done|split; congruence|]. right. exists r, q'.
      split_and!; [congruence..|]. by rewrite Hw'.
Qed.

(** The last turn, which is not followed by another one. *)
Lemma last_turn id source part result s s' :
  0 ≤ part ≤ Z.of_nat (length source) → part ≤ UINT_MAX →
  (result = 0 → part = Z.of_nat (length source)) →
  (part = 0 → source = []) →
  turn_done id (take (Z.to_nat part) source) s result s' →
  ∃ parts wire, sends id source parts wire result s s'.
Proof.
  intros Hp Hmax Hall Hz (HI & Hrd & Ho). pose proof UINT_MAX_pos.
  pose proof (Z.div_pos (Z.of_nat (length source)) UINT_MAX).
  destruct Ho as [(Hne & Hcm & Hw)|(r & q & Hcm & Hsrc & Hres & Hw)].
  - exists [], []. split; try done; [by rewrite app_nil_r|by rewrite app_nil_r|apply prefix_nil| |simpl; lia].
    split; [done|]. by intros [? _].
  - exists [(r, q)], (written_part id (take (Z.to_nat part) source)).
    assert (sent [(r, q)] = take (Z.to_nat part) source) as Hsent
      by (unfold sent; simpl; by rewrite Hsrc, app_nil_r).
    split; try done; rewrite ?Hsent.
    + apply written_part_target. rewrite length_take. lia.
    + apply written_part_bytes.
    + apply prefix_take.
    + split.
      * intros Hr0. split_and!; [done| |repeat constructor; simpl; congruence].
        apply take_ge. specialize (Hall Hr0). lia.
      * intros (_ & _ & [Hr0 _]%Forall_cons). simpl in Hr0. congruence.
    + simpl. lia.
Qed.

(** A turn that succeeded, and the rest. *)
Lemma more_turns id source part s s1 s' r q parts wire result :
  0 < part ≤ Z.of_nat (length source) → part = UINT_MAX →
  cl_completed s1 = cl_completed s ++ [(r, q)] → rq_source q = take (Z.to_nat part) source →
  rq_result q = 0 → cl_wire s1 = cl_wire s ++ written_part id (take (Z.to_nat part) source) →
  sends id (drop (Z.to_nat part) source) parts wire result s1 s' → 
  part < Z.of_nat (length source) →
  sends id source ((r, q) :: parts) (written_part id (take (Z.to_nat part) source) ++ wire) result s s'.
Proof.
  intros Hp Hpu Hcm Hsrc Hres Hw [HI Hrd Hcm' Hw' Htg Hby Hpre Hwh Htn] Hlt.
  assert (Z.of_nat (length (drop (Z.to_nat part) source)) = Z.of_nat (length source) + (-1) * UINT_MAX)
    as Hrest by (rewrite length_drop; lia).
  rewrite Hrest, Z.div_add in Htn by lia.
  assert (sent ((r, q) :: parts) = take (Z.to_nat part) source ++ sent parts) as Hsent
    by (unfold sent; simpl; by rewrite Hsrc).
  split; try done; rewrite ?Hsent.
  - by rewrite Hcm', Hcm, <- app_assoc.
  - by rewrite Hw', Hw, <- app_assoc.
  - apply Forall_app. split; [apply written_part_target; rewrite length_take; lia|done].
  - by rewrite fmap_app, concat_app, written_part_bytes, Hby.
  - destruct Hpre as [k Hk]. exists k. by rewrite <- app_assoc, <- Hk, take_drop.
  - rewrite Hwh. split.
    + intros (Hne & Hs & Hall). split_and!; [done|by rewrite Hs, take_drop|by constructor].
    + intros (_ & Hs & [_ Hall]%Forall_cons). rewrite <- (take_drop (Z.to_nat part) source) in Hs at 2.
      apply app_inv_head in Hs. split_and!; [|done|done].
      intros ->. apply (f_equal length) in Hs. simpl in Hs. lia.
  - simpl. lia.
Qed.

Lemma send_loop_ok fuel id source s :
  CInv s → client_ready s → Z.of_nat (length source) / UINT_MAX < Z.of_nat fuel →
  wp (send_loop wait fuel id source)
    (λ result s', ∃ parts wire, sends id source parts wire result s s') s.
Proof.
  pose proof UINT_MAX_pos as HU.
  revert source s. induction fuel as [|fuel IH]; intros source s HI Hrd Hfuel.
  { pose proof (Z.div_pos (Z.of_nat (length source)) UINT_MAX). lia. }
  cbn [send_loop]. cbv zeta. set (size := Z.of_nat (length source)) in *.
  set (part := if UINT_MAX <? size then UINT_MAX else size).
  assert (0 ≤ part ≤ size ∧ part ≤ UINT_MAX ∧ (part = size ∨ part = UINT_MAX)) as (Hp1 & Hp2 & Hp3).
  { unfold part, size. destruct (Z.ltb_spec UINT_MAX (Z.of_nat (length source))); lia. }
  pose proof (length_take source (Z.to_nat part)) as Hlen.
  assert (part = 0 → source = []) as Hz by (intros; apply nil_length_inv; lia).
  apply wp_bind. eapply wp_mono; [apply (wp_bind_inv _ _ _ _ (send_turn id (take (Z.to_nat part) source) s HI Hrd ltac:(lia)))|].
  intros outcome s0 Hturn. apply wp_bind. eapply wp_mono; [exact Hturn|]. clear Hturn s0 outcome. cbv beta.
  intros result s1 Hturn.
  cl_step; [|cl_step; by apply (last_turn id source part)]. subst result.
  cl_step; [cl_step; by apply (last_turn id source part); try lia|].
  cl_step; [cl_step; by apply (last_turn id source part); try lia|].
  destruct Hturn as (HI1 & Hrd1 & [[? _]|(r & q & Hcm & Hsrc & Hres & Hw)]); [done|].
  assert (Z.of_nat (length (drop (Z.to_nat part) source)) = size + (-1) * UINT_MAX) as Hrest
    by (rewrite length_drop; lia).
  eapply wp_mono; [apply IH; [done|done|rewrite Hrest, Z.div_add; lia]|].
  intros result s' (parts & wire & Hs). exists ((r, q) :: parts), (written_part id (take (Z.to_nat part) source) ++ wire).
  eapply more_turns; try done; lia.
Qed.

(** C17 A send never faults and never runs out of turns: whatever the other thread
    does while the caller waits, as long as every wait ends with the result of its
    request, the buffer is split into parts no longer than libuv's buffers can be,
    which are given to [uv_write] for the connection in order and one at a time;
    what libuv has been given is the beginning of the buffer, and the result is 0
    exactly if at least one request was completed, libuv was given all of the
    buffer and every write succeeded. *)
Theorem client_send_whole id buffer source s :
  client_reachable s → client_ready s → buffer = true ∨ source = [] →
  wp (skyuv_client_runtime_send wait id buffer source)
    (λ result s', ∃ parts wire, sends id source parts wire result s s') s.
Proof.
  intros HI%client_reachable_ok Hrd Hbuf. unfold skyuv_client_runtime_send.
  assert (negb buffer && negb (Z.of_nat (length source) =? 0) = false) as ->.
  { destruct Hbuf as [-> | ->]; [done|]. by rewrite andb_false_r. }
  apply send_loop_ok; [done|done|]. pose proof UINT_MAX_pos.
  pose proof (Z.div_pos (Z.of_nat (length source)) UINT_MAX). lia.
Qed.

End send.

(** ** Destroying *)

(** The close callbacks that are still to come. *)
Fixpoint open_total (heap : gmap positive client_connection) (l : list positive) : Z :=
  match l with
  | [] => 0
  | p :: l => match heap !! p with Some c => cc_handles c | None => 0 end + open_total heap l
  end.

Lemma open_total_insert heap l p c c' :
  NoDup l → p ∈ l → heap !! p = Some c →
  open_total (<[p := c']> heap) l = open_total heap l - cc_handles c + cc_handles c'.
Proof.
  intros Hnd Hp Hc. assert (∀ k, p ∉ k → open_total (<[p := c']> heap) k = open_total heap k) as Hout.
  { induction k as [|q k IH]; intros Hnin; [done|]. simpl.
    rewrite lookup_insert_ne, IH by set_solver. done. }
  induction Hnd as [|q l Hq Hnd IH]; [by apply elem_of_nil in Hp|]. simpl.
  destruct (decide (q = p)) as [->|Hne].
  - rewrite lookup_insert_eq, Hc, Hout by done. lia.
  - rewrite lookup_insert_ne, IH by set_solver. lia.
Qed.

Lemma open_total_delete heap l l' p c :
  NoDup l → unlink p l = Some l' → heap !! p = Some c →
  open_total (delete p heap) l' = open_total heap l - cc_handles c.
Proof.
  intros Hnd Hl Hc. assert (∀ k, p ∉ k → open_total (delete p heap) k = open_total heap k) as Hout.
  { induction k as [|q k IH]; intros Hnin; [done|]. simpl.
    rewrite lookup_delete_ne, IH by set_solver. done. }
  revert l' Hl. induction Hnd as [|q l Hq Hnd IH]; intros l' Hl; simpl in *; [done|].
  destruct (decide (q = p)) as [->|Hne].
  - simplify_eq. rewrite Hc, Hout by done. lia.
  - destruct (unlink p l) as [l1|] eqn:E; simplify_eq/=.
    rewrite lookup_delete_ne, (IH l1) by done. lia.
Qed.

Section destroy.
Context {env : ClientEnv} {laws : ClientEnvLaws env}.
Implicit Types (s : skyuv_client_runtime) (c : client_connection) (p r : positive).

Definition client_callback_step s s' : Prop :=
  ∃ cb, client_enabled cb s ∧ run_client_callback cb s = Ret tt s'.

(** Nobody waits and every connection ends. *)
Record draining s : Prop := Draining {
  dr_inv : CInv s;
  dr_requests : cl_requests s = ∅;
  dr_closing p c : cl_heap s !! p = Some c → handle_closing (cc_tcp c) = true;
}.

Lemma draining_conn s p c :
  draining s → cl_heap s !! p = Some c →
  cc_request c = None ∧ cc_writing c = None ∧ cc_shutting c = None ∧ cc_connecting c = false ∧
  cc_timer c ≠ Active ∧ cc_reading c = false.
Proof.
  intros [HI Hr Hcl] Hp. assert (holds c = []) as Hho.
  { destruct (cv_waiting _ HI) as [[_ Hh]|(r & q & p' & Hq & _)]; [by apply (Hh p c)|].
    rewrite Hr in Hq. symmetry in Hq. by apply map_non_empty_singleton in Hq. }
  unfold holds in Hho. apply app_eq_nil in Hho as [H1 [H2 H3]%app_eq_nil].
  assert (∀ o : option positive, option_list o = [] → o = None) as Hnone by (by intros []).
  apply Hnone in H1, H2, H3. pose proof (Hcl p c Hp) as Ht.
  destruct (co_phase _ _ (ct_conn _ (cv_table _ HI) p c Hp)) as [[? ?]|? E|? ? ? ? ? Hco]; [congruence| |].
  - by rewrite E in Ht.
  - split_and!; try done. destruct (cc_connecting c); [|done]. destruct Hco as (_ & [? ?] & _); [done|congruence].
Qed.

(** One close callback less. *)
Lemma closed_drains p c c1 s :
  CInv s → cl_heap s !! p = Some c → cc_request c1 = None → cc_handles c1 = cc_handles c →
  wp (connection_closed p) (λ _ s', cl_requests s' = cl_requests s ∧
    open_total (cl_heap s') (cl_connections s') = open_total (cl_heap s) (cl_connections s) - 1 ∧
    ∀ q d, cl_heap s' !! q = Some d → cl_heap s !! q = Some d ∨ (q = p ∧ cc_tcp d = cc_tcp c1))
    (s <| cl_heap ::= <[p := c1]> |>).
Proof.
  intros HI Hp Hr Hh. pose proof (ct_nodup _ (cv_table _ HI)) as Hnd.
  assert (p ∈ cl_connections s) as Hin by (apply (ct_linked _ (cv_table _ HI)); eauto).
  destruct (unlink_spec p (cl_connections s) Hnd Hin) as (l & Hl & _).
  unfold connection_closed. do 5 cl_step; simpl in *.
  - do 2 cl_step. simpl. rewrite Hl. do 4 cl_step. simpl. rewrite Hr. cl_step. split_and!; simpl; try done.
    + rewrite insert_insert_eq, delete_insert_eq, (open_total_delete _ (cl_connections s) l p c) by done. lia.
    + intros q d. rewrite insert_insert_eq, delete_insert_eq, lookup_delete_Some. naive_solver.
  - cl_step. split_and!; simpl; try done.
    + rewrite insert_insert_eq, (open_total_insert _ _ p c) by done. simpl. lia.
    + intros q d. rewrite insert_insert_eq, lookup_insert_Some. naive_solver.
Qed.

Lemma draining_step s s' :
  draining s → client_callback_step s s' →
  draining s' ∧ open_total (cl_heap s') (cl_connections s') =
                open_total (cl_heap s) (cl_connections s) - 1.
Proof.
  intros Hd (cb & Hen & Hrun). pose proof Hd as [HI Hr Hcl].
  assert (CInv s') as HI' by (eapply client_step_ok; [by eapply client_step_callback|done]).
  pose proof (draining_conn s) as Hconn.
  assert (∀ p c c1, cl_heap s !! p = Some c → cc_request c1 = cc_request c →
    cc_handles c1 = cc_handles c → handle_closing (cc_tcp c1) = true →
    (set_conn p (λ _, c1) ;; connection_closed p) s = Ret tt s' →
    draining s' ∧ open_total (cl_heap s') (cl_connections s') =
                  open_total (cl_heap s) (cl_connections s) - 1) as Hclosed.
  { intros p c c1 Hp Hrq Hh Ht Hrun'. destruct (Hconn p c Hd Hp) as (Hn & _).
    assert (cc_request c1 = None) as Hn1 by congruence.
    pose proof (closed_drains p c c1 s HI Hp Hn1 Hh) as Hwp.
    unfold mbind, M_bind, set_conn in Hrun'. rewrite Hp in Hrun'. unfold wp in Hwp.
    rewrite Hrun' in Hwp. destruct Hwp as (Hreq & Htot & Hheap). split; [|done].
    split; [done|congruence|]. intros q d [Hq|[-> E]]%Hheap; [by eapply Hcl|congruence]. }
  destruct cb; simpl in Hen; destruct Hen as (c & Hp & Hen);
    destruct (Hconn _ c Hd Hp) as (H1 & H2 & H3 & H4 & H5 & H6).
  - destruct Hen. congruence.
  - done.
  - destruct Hen as [? _]. congruence.
  - rewrite H2 in Hen. by destruct Hen.
  - rewrite H3 in Hen. by destruct Hen.
  - apply (Hclosed p c (c <| cc_tcp := Closed |>)); try done.
    revert Hrun. simpl. unfold mbind, M_bind, set_conn. by rewrite Hp.
  - apply (Hclosed p c (c <| cc_timer := Closed |>)); try done; [exact (Hcl p c Hp)|].
    revert Hrun. simpl. unfold mbind, M_bind, set_conn. by rewrite Hp.
Qed.

(** C18 The loop of a destroyed runtime ends: destroying does not fault, after it
    libuv can make only as many callbacks as there are handles to close, none of
    them faults, and when none is left every connection has been released, which
    is when [uv_run] returns and the destroying thread is done waiting. *)
Theorem client_destroy_drains s :
  client_reachable s → client_ready s →
  ∃ s1, skyuv_client_runtime_destroy s = Ret tt s1 ∧
    ∀ n s2, nsteps client_callback_step n s1 s2 →
      Z.of_nat n ≤ open_total (cl_heap s1) (cl_connections s1) ∧
      (∀ cb, client_enabled cb s2 → ∃ s3, run_client_callback cb s2 = Ret tt s3) ∧
      ((∀ cb, ¬ client_enabled cb s2) → cl_heap s2 = ∅ ∧ cl_connections s2 = []).
Proof.
  intros HI%client_reachable_ok Hrd.
  destruct (wp_Ret _ _ _ (destroy_ok s HI Hrd)) as ([] & s1 & Hrun & HI1 & Hr1 & _ & _ & Hcl1).
  exists s1. split; [done|]. intros n s2 Hsteps.
  assert (draining s1) as Hd1 by done.
  assert (draining s2 ∧ open_total (cl_heap s2) (cl_connections s2) =
    open_total (cl_heap s1) (cl_connections s1) - Z.of_nat n) as [Hd2 Htot].
  { clear -Hsteps Hd1 laws. induction Hsteps as [s|n s s' s2 Hstep Hsteps IH]; [split; [done|lia]|].
    destruct (draining_step s s' Hd1 Hstep) as [Hd' Ht']. destruct (IH Hd') as [? ?]. split; [done|lia]. }
  pose proof Hd2 as [HI2 Hr2 Hcl2]. split_and!.
  - assert (0 ≤ open_total (cl_heap s2) (cl_connections s2)); [|lia].
    generalize (ct_conn _ (cv_table _ HI2)). clear. intros Hok. induction (cl_connections s2); simpl; [lia|].
    destruct (cl_heap s2 !! a) as [c|] eqn:E; [|lia]. pose proof (co_alive _ _ (Hok a c E)). lia.
  - intros cb Hen. destruct (wp_Ret _ _ _ (client_callback_ok cb s2 HI2 Hen)) as ([] & s3 & ? & _). eauto.
  - intros Hnone. assert (cl_heap s2 = ∅) as Hempty.
    { apply map_empty. intros p. apply eq_None_not_Some. intros [c Hp].
      pose proof (ct_conn _ (cv_table _ HI2) p c Hp) as [_ Hh Hpos _ _ _].
      destruct (draining_conn s2 p c Hd2 Hp) as (_ & ? & ? & ? & ? & _). specialize (Hcl2 p c Hp).
      destruct (cc_tcp c) eqn:Et; try done.
      - apply (Hnone (OnTcpClosed p)). by exists c.
      - apply (Hnone (OnTimerClosed p)). exists c. split; [done|].
        destruct (cc_timer c); try done; simpl in Hh; lia. }
    split; [done|]. destruct (cl_connections s2) as [|p l] eqn:E; [done|].
    assert (p ∈ cl_connections s2) as Hin by (rewrite E; set_solver).
    apply (ct_linked _ (cv_table _ HI2)) in Hin. rewrite Hempty in Hin. by destruct Hin.
Qed.

End destroy.
