(* ===== verification/ClientWitness.v ===== *)
(** * Concrete runs of the client

    A client driven by a list of actions in an environment in which every call
    succeeds; the runs instantiate the properties of the client. *)
From S2P Require Import Prelude ClientRuntime ClientInvariant ClientSafety ClientCalls ClientFrame.
From S2P Require Import ClientProperties ClientSend.

(** ** Running *)

#[export] Instance client_request_eq_dec : EqDecision client_request.
Proof. solve_decision. Defined.

Section play.
Context {env : ClientEnv}.
Implicit Types (s : skyuv_client_runtime).

#[export] Instance client_enabled_dec cb s : Decision (client_enabled cb s).
Proof.
  assert (∀ p (P : client_connection → Prop), (∀ c, Decision (P c)) →
    Decision (∃ c, cl_heap s !! p = Some c ∧ P c)) as H.
  { intros p P HP. destruct (cl_heap s !! p) as [c|] eqn:E.
    - destruct (decide (P c)) as [Hc|Hc]; [left; eauto|right].
      abstract (intros (c' & [= <-] & ?); done).
    - right. abstract (intros (c' & ? & ?); done). }
  destruct cb; simpl; apply H; intros c; apply _.
Defined.

#[export] Instance client_ready_dec s : Decision (client_ready s).
Proof. unfold client_ready. apply _. Defined.

Inductive client_action :=
| ClientCallback (cb : client_callback)
| ClientApi (api : client_api).

Definition client_act (a : client_action) s : option skyuv_client_runtime :=
  match a with
  | ClientCallback cb => if decide (client_enabled cb s) then exec (run_client_callback cb) s else None
  | ClientApi api => if decide (client_ready s) then exec (run_client_api api) s else None
  end.

Fixpoint client_play (script : list client_action) s : option skyuv_client_runtime :=
  match script with
  | [] => Some s
  | a :: script => match client_act a s with Some s' => client_play script s' | None => None end
  end.

(** The state a script ends in. *)
Definition client_played (script : list client_action) : skyuv_client_runtime :=
  default fresh_client (client_play script fresh_client).

Lemma client_act_step a s s' : client_act a s = Some s' → client_step s s'.
Proof.
  unfold client_act, exec. intros Ha. destruct a; repeat case_match; simplify_eq;
    match goal with u : () |- _ => destruct u end.
  - by eapply client_step_callback.
  - by eapply client_step_api.
Qed.

Lemma client_played_reachable script :
  is_Some (client_play script fresh_client) → client_reachable (client_played script).
Proof.
  intros [s Hs]. unfold client_played, client_reachable. rewrite Hs. simpl.
  revert Hs. generalize fresh_client. induction script as [|a script IH]; intros s0 Hs; simpl in Hs.
  - by simplify_eq.
  - destruct (client_act a s0) as [s1|] eqn:Ha; [|done].
    eapply rtc_l; [by eapply client_act_step|by apply IH].
Qed.

(** The state after one more computation, and its result. *)
Definition after {A} (m : C A) s : skyuv_client_runtime := default s (exec m s).

Definition returns {A} `{EqDecision A} (m : C A) (a : A) s : bool :=
  match m s with Ret a' _ => bool_decide (a' = a) | Fault _ => false end.

Lemma returns_after {A} `{EqDecision A} (m : C A) (a : A) s :
  returns m a s = true → m s = Ret a (after m s).
Proof.
  unfold returns, after, exec. destruct (m s); [|done]. by intros ->%bool_decide_eq_true.
Qed.

(** The connection at [p]. *)
Definition conn_at (p : positive) s : client_connection := default zero_connection (cl_heap s !! p).

Lemma conn_at_lookup p s :
  bool_decide (is_Some (cl_heap s !! p)) = true → cl_heap s !! p = Some (conn_at p s).
Proof. unfold conn_at. intros [c Hc]%bool_decide_eq_true. by rewrite Hc. Qed.

End play.

(** ** An environment without failures *)

Definition good_client : ClientEnv := {|
  client_alloc := λ _, true;
  client_uv := λ _ _, 0;
  client_ip4_addr := λ _ _, 0;
  UV_EOF := -4095; UV_EBADF := -9; UV_EPIPE := -32; UV_EAGAIN := -11; UV_EINVAL := -22;
  UV_ENOMEM := -12; UV_ENOSPC := -28; UV_ETIMEDOUT := -110; UV_ECANCELED := -125;
|}.

#[local] Existing Instance good_client.

#[local] Instance good_client_laws : ClientEnvLaws good_client.
Proof. split. repeat constructor. Qed.

(** A connect with a timeout, then its completion; the request is at address 1,
    the connection at 2. *)
Definition connecting_script : list client_action :=
  [ClientApi (CallConnect (Some "127.0.0.1"%string) 8000 100)].

Definition established_script : list client_action :=
  connecting_script ++ [ClientCallback (OnConnected 2 0)].

Lemma connecting_plays : is_Some (client_play connecting_script fresh_client).
Proof. apply is_Some_alt. vm_compute. exact I. Qed.

Lemma established_plays : is_Some (client_play established_script fresh_client).
Proof. apply is_Some_alt. vm_compute. exact I. Qed.

(** ** Witnesses *)

Lemma client_never_faults_witness :
  client_reachable (client_played established_script) ∧
  ∃ s', run_client_callback (OnTimerClosed 2) (client_played established_script) = Ret tt s' ∧ CInv s'.
Proof.
  pose proof (client_played_reachable _ established_plays) as Hr. split; [exact Hr|].
  destruct (client_never_faults _ Hr) as [Hcb _]. apply Hcb.
  apply (bool_decide_unpack _). vm_compute. exact I.
Defined.

#[local] Opaque client_played after.

(** Three bytes arrive, two are taken. *)
Definition stream_read : skyuv_client_runtime :=
  after (run_client_callback (OnRead 2 [1; 2; 3] 0)) (client_played established_script).

Definition stream_taken : skyuv_client_runtime :=
  after (skyuv_client_runtime_recv 1 true 2) stream_read.

Lemma client_stream_witness :
  contents (conn_at 2 stream_taken) = [3] ∧
  contents (conn_at 2 (client_played established_script)) ++
    flat_map (delivered 2) [LCallback (OnRead 2 [1; 2; 3] 0); LRecv 1 [1; 2]] =
  flat_map (taken (cc_id (conn_at 2 (client_played established_script))))
    [LCallback (OnRead 2 [1; 2; 3] 0); LRecv 1 [1; 2]] ++ contents (conn_at 2 stream_taken) ∧
  Z.of_nat (length (contents (conn_at 2 stream_taken))) ≤ CLIENT_RECEIVE_LIMIT.
Proof.
  split; [vm_compute; reflexivity|].
  apply (client_stream (client_played established_script) _ stream_taken).
  - exact (client_played_reachable _ established_plays).
  - apply (run_cons _ _ stream_read); [|apply (run_cons _ _ stream_taken); [|apply run_nil]].
    + apply lstep_callback; [apply (bool_decide_unpack _); vm_compute; exact I|].
      unfold stream_read. apply returns_after. vm_compute. reflexivity.
    + unfold stream_taken. apply (lstep_recv _ 1 2 0 [1; 2]); [apply (bool_decide_unpack _); vm_compute; exact I|lia|].
      apply returns_after. vm_compute. reflexivity.
  - apply conn_at_lookup. vm_compute. reflexivity.
  - apply conn_at_lookup. vm_compute. reflexivity.
Defined.

Definition connecting_request : client_request := Request 0 0 [] [] 0 100 false false.

Lemma client_requests_complete_witness :
  ∃ p c, cl_heap (client_played connecting_script) !! p = Some c ∧ holds c = [1%positive] ∧
    ∃ cb, client_enabled cb (client_played connecting_script) ∧ is_read cb = false ∧ callback_conn cb = p.
Proof.
  destruct (client_requests_complete (client_played connecting_script) 1 connecting_request)
    as (p & c & Hp & Hho & _ & Hcb & _).
  - exact (client_played_reachable _ connecting_plays).
  - apply (bool_decide_unpack _). vm_compute. exact I.
  - exists p, c. split_and!; [exact Hp|exact Hho|exact Hcb].
Defined.

Lemma client_send_whole_witness :
  wp (skyuv_client_runtime_send (run_until_done 8) 1 true [7; 8; 9])
    (λ result s', ∃ parts wire, sends 1 [7; 8; 9] parts wire result (client_played established_script) s')
    (client_played established_script) ∧
  returns (skyuv_client_runtime_send (run_until_done 8) 1 true [7; 8; 9]) 0
    (client_played established_script) = true.
Proof.
  split; [|vm_compute; reflexivity]. apply (client_send_whole (run_until_done 8)).
  - exact (client_played_reachable _ established_plays).
  - apply (bool_decide_unpack _). vm_compute. exact I.
  - left. reflexivity.
Defined.

Lemma client_destroy_drains_witness :
  ∃ s1, skyuv_client_runtime_destroy (client_played established_script) = Ret tt s1 ∧
    ∀ n s2, nsteps client_callback_step n s1 s2 →
      (∀ cb, ¬ client_enabled cb s2) → cl_heap s2 = ∅.
Proof.
  destruct (client_destroy_drains (client_played established_script)) as (s1 & Hrun & Hs1).
  - exact (client_played_reachable _ established_plays).
  - apply (bool_decide_unpack _). vm_compute. exact I.
  - exists s1. split; [exact Hrun|]. intros n s2 Hn Hnone. apply (Hs1 n s2 Hn), Hnone.
Defined.
