(* ===== verification/ClientStart.v ===== *)
(** * The thread of the client

    How [skyuv_client_runtime_create], [run] and [skyuv_client_runtime_destroy] of
    src/src/client/client_runtime.c hand the runtime from the thread that creates
    it to its own thread and back, and how [skyuv_client_runtime_wait] waits for a
    revision.  A step is what a thread does between two points at which the other
    may act: a call that initialises or releases something, locking the mutex, or
    the rest of a critical section. *)
From S2P Require Import Prelude ClientRuntime ClientWitness.

(** ** State *)

(** What the runtime consists of. *)
Inductive thing := TBlock | TMutex | TCond | TThread | TLoop | TAsync.

#[export] Instance thing_eq_dec : EqDecision thing.
Proof. solve_decision. Defined.

Inductive side := Caller | Loop.

(** Where the caller is, first in create, then in destroy. *)
Inductive caller_point :=
| CallocRuntime                          (** at the start of create *)
| MutexInit
| CondInit
| ThreadCreate
| LockReady                              (** before the mutex, or woken in [uv_cond_wait] *)
| TestReady                              (** at [while (!runtime->ready)] *)
| WaitReady                              (** asleep in [uv_cond_wait] *)
| JoinFailed (result : Z)
| CleanUp (result : Z)
| Created (result : Z) (output : bool)   (** create has returned *)
| LockStop                               (** in destroy *)
| SetStop
| JoinStopped
| FreeRuntime
| Destroyed.

#[export] Instance caller_point_eq_dec : EqDecision caller_point.
Proof. solve_decision. Defined.

(** Where the thread is that executes [run]. *)
Inductive loop_point :=
| NoThread
| LoopInit
| AsyncInit
| LockResult (result : Z)
| SetReady (result : Z)
| RunLoop                                (** in [uv_run] *)
| LockExecute                            (** in [execute], called for a wake-up *)
| TestStopping
| DrainLoop
| ThreadEnded.

Record start_state := StartState {
  ss_caller : caller_point;
  ss_loop : loop_point;
  ss_owner : option side;
  ss_ready : bool;
  ss_result : Z;
  ss_stopping : bool;
  ss_wakeup : bool;
  ss_held : list thing;
}.

Definition eta_start (s : start_state) : start_state :=
  StartState (ss_caller s) (ss_loop s) (ss_owner s) (ss_ready s) (ss_result s) (ss_stopping s)
    (ss_wakeup s) (ss_held s).
#[export] Instance set_ss_caller : Setter ss_caller := ltac:(mk_setter eta_start).
#[export] Instance set_ss_loop : Setter ss_loop := ltac:(mk_setter eta_start).
#[export] Instance set_ss_owner : Setter ss_owner := ltac:(mk_setter eta_start).
#[export] Instance set_ss_ready : Setter ss_ready := ltac:(mk_setter eta_start).
#[export] Instance set_ss_result : Setter ss_result := ltac:(mk_setter eta_start).
#[export] Instance set_ss_stopping : Setter ss_stopping := ltac:(mk_setter eta_start).
#[export] Instance set_ss_wakeup : Setter ss_wakeup := ltac:(mk_setter eta_start).
#[export] Instance set_ss_held : Setter ss_held := ltac:(mk_setter eta_start).

(** Before the call of create. *)
Definition not_started : start_state :=
  StartState CallocRuntime NoThread None false 0 false false [].

(** The results of the platform. *)
Class StartEnv := {
  start_calloc : bool;
  start_mutex : Z;
  start_cond : Z;
  start_thread : Z;
  start_loop : Z;
  start_async : Z;
}.

(** ** Steps *)

Section steps.
Context {client : ClientEnv} {start : StartEnv}.
Local Notation T := (M start_state).

Definition goto (p : caller_point) : T unit := modify (λ s, s <| ss_caller := p |>).
Definition loop_goto (p : loop_point) : T unit := modify (λ s, s <| ss_loop := p |>).

Definition acquire (t : thing) : T unit := modify (λ s, s <| ss_held ::= cons t |>).

(** [free] and the like: of something that is held; a mutex that is locked, or a
    condition that is waited for, must not be destroyed. *)
Definition give_back (t : thing) : T unit := λ s,
  if decide (t ∉ ss_held s) then Fault UseAfterFree
  else if decide (t = TMutex ∧ ss_owner s ≠ None) then Fault LockHeld
  else if decide (t = TCond ∧ ss_caller s = WaitReady) then Fault LockHeld
  else Ret tt (s <| ss_held ::= filter (.≠ t) |>).

(** Fields of the runtime and its mutex can be used only while they are there. *)
Definition touch (t : thing) : T unit := λ s,
  if decide (t ∈ ss_held s) then Ret tt s else Fault UseAfterFree.

Definition lock (who : side) : T unit :=
  touch TBlock ;; touch TMutex ;;
  owner ← gets ss_owner;
  match owner with
  | Some _ => throw LockHeld
  | None => modify (λ s, s <| ss_owner := Some who |>)
  end.

Definition unlock : T unit :=
  touch TMutex ;;
  owner ← gets ss_owner;
  match owner with
  | None => throw UnlockFree
  | Some _ => modify (λ s, s <| ss_owner := None |>)
  end.

(** [uv_cond_signal]: a caller that sleeps wakes up. *)
Definition cond_signal : T unit :=
  touch TCond ;;
  modify (λ s, match ss_caller s with WaitReady => s <| ss_caller := LockReady |> | _ => s end).

Definition skyuv_client_runtime_create (output : bool) (p : caller_point) : T unit :=
  match p with
  | CallocRuntime =>
      if negb output then goto (Created UV_EINVAL false)
      else if negb start_calloc then goto (Created UV_ENOMEM false)
      else acquire TBlock ;; goto MutexInit
  | MutexInit =>
      if start_mutex =? 0 then acquire TMutex ;; goto CondInit
      else give_back TBlock ;; goto (Created start_mutex false)
  | CondInit =>
      if start_cond =? 0 then acquire TCond ;; goto ThreadCreate
      else give_back TMutex ;; give_back TBlock ;; goto (Created start_cond false)
  | ThreadCreate =>
      if start_thread =? 0 then acquire TThread ;; loop_goto LoopInit ;; goto LockReady
      else goto (CleanUp start_thread)
  | LockReady => lock Caller ;; goto TestReady
  | TestReady =>
      touch TBlock ;;
      ready ← gets ss_ready;
      if negb ready then touch TCond ;; unlock ;; goto WaitReady
      else
        result ← gets ss_result;
        unlock ;;
        if negb (result =? 0) then goto (JoinFailed result) else goto (Created 0 true)
  | JoinFailed result => give_back TThread ;; goto (CleanUp result)
  | CleanUp result =>
      give_back TCond ;; give_back TMutex ;; give_back TBlock ;; goto (Created result false)
  | _ => skip
  end.

(** [skyuv_client_runtime_destroy], as the caller's thread executes it. *)
Definition destroy_client_runtime (p : caller_point) : T unit :=
  match p with
  | Created _ _ => goto LockStop
  | LockStop => lock Caller ;; goto SetStop
  | SetStop =>
      touch TBlock ;;
      modify (λ s, s <| ss_stopping := true |>) ;;
      touch TAsync ;;
      modify (λ s, s <| ss_wakeup := true |>) ;;
      unlock ;;
      goto JoinStopped
  | JoinStopped => give_back TThread ;; goto FreeRuntime
  | FreeRuntime => give_back TCond ;; give_back TMutex ;; give_back TBlock ;; goto Destroyed
  | _ => skip
  end.

Definition run (p : loop_point) : T unit :=
  match p with
  | LoopInit =>
      touch TBlock ;;
      if start_loop =? 0 then acquire TLoop ;; loop_goto AsyncInit
      else loop_goto (LockResult start_loop)
  | AsyncInit =>
      touch TBlock ;;
      if negb (start_async =? 0) then give_back TLoop ;; loop_goto (LockResult start_async)
      else acquire TAsync ;; loop_goto (LockResult start_async)
  | LockResult result => lock Loop ;; loop_goto (SetReady result)
  | SetReady result =>
      touch TBlock ;;
      modify (λ s, s <| ss_result := result |>) ;;
      modify (λ s, s <| ss_ready := true |>) ;;
      cond_signal ;;
      unlock ;;
      if result =? 0 then loop_goto RunLoop else loop_goto ThreadEnded
  | RunLoop => modify (λ s, s <| ss_wakeup := false |>) ;; loop_goto LockExecute
  | LockExecute => lock Loop ;; loop_goto TestStopping
  | TestStopping =>
      touch TBlock ;;
      stopping ← gets ss_stopping;
      unlock ;;
      if stopping : bool then loop_goto DrainLoop else loop_goto RunLoop
  | DrainLoop => give_back TAsync ;; give_back TLoop ;; loop_goto ThreadEnded
  | NoThread | ThreadEnded => skip
  end.

(** The caller calls destroy when create has succeeded. *)
Definition caller_runs (output : bool) (s : start_state) : T unit :=
  match ss_caller s with
  | Created _ _ | LockStop | SetStop | JoinStopped | FreeRuntime | Destroyed =>
      destroy_client_runtime (ss_caller s)
  | p => skyuv_client_runtime_create output p
  end.

(** Whether a thread has to wait: for the mutex, for the signal, for the end of
    the other thread, for a wake-up; or has nothing to do. *)
Definition caller_waits (s : start_state) : bool :=
  match ss_caller s with
  | LockReady | LockStop => bool_decide (is_Some (ss_owner s))
  | WaitReady | Created _ false | Destroyed => true
  | JoinFailed _ | JoinStopped => match ss_loop s with ThreadEnded => false | _ => true end
  | _ => false
  end.

Definition loop_waits (s : start_state) : bool :=
  match ss_loop s with
  | LockResult _ | LockExecute => bool_decide (is_Some (ss_owner s))
  | RunLoop => negb (ss_wakeup s)
  | NoThread | ThreadEnded => true
  | _ => false
  end.

(** A step of the caller, one of the loop, and waking up without a signal. *)
Inductive start_step (output : bool) (s : start_state) : start_state → Prop :=
| step_caller s' :
    caller_waits s = false → caller_runs output s s = Ret tt s' → start_step output s s'
| step_loop s' :
    loop_waits s = false → run (ss_loop s) s = Ret tt s' → start_step output s s'.

Definition spurious (s s' : start_state) : Prop :=
  ss_caller s = WaitReady ∧ s' = s <| ss_caller := LockReady |>.

Definition start_reachable (output : bool) : start_state → Prop :=
  rtc (λ s s', start_step output s s' ∨ spurious s s') not_started.

End steps.

(** ** The states that are reached *)

Section shapes.
Context {client : ClientEnv} {laws : ClientEnvLaws client} {start : StartEnv} (output : bool).

(** What [run] reports. *)
Definition run_result : Z := if start_loop =? 0 then start_async else start_loop.

Definition thread_starts : Prop :=
  output = true ∧ start_calloc = true ∧ start_mutex = 0 ∧ start_cond = 0 ∧ start_thread = 0.

(** Everything that create needs can be had. *)
Definition all_starts : Prop := thread_starts ∧ start_loop = 0 ∧ start_async = 0.

Definition of_caller : list thing := [TCond; TMutex; TBlock].
Definition with_thread : list thing := TThread :: of_caller.
Definition with_loop : list thing := TAsync :: TLoop :: with_thread.

(** What is held once the result of the thread is known. *)
Inductive result_held : list thing → Prop :=
| held_failed : run_result ≠ 0 → result_held with_thread
| held_ready : run_result = 0 → result_held with_loop.

(** The thread before it has announced its result, who has the mutex, and what is
    held. *)
Inductive starting : loop_point → option side → list thing → Prop :=
| starting_loop : starting LoopInit None with_thread
| starting_async : start_loop = 0 → starting AsyncInit None (TLoop :: with_thread)
| starting_lock h : result_held h → starting (LockResult run_result) None h
| starting_set h : result_held h → starting (SetReady run_result) (Some Loop) h.

(** The thread after a stop was asked for. *)
Inductive stopping : loop_point → option side → bool → list thing → Prop :=
| stopping_run : stopping RunLoop None true with_loop
| stopping_lock : stopping LockExecute None false with_loop
| stopping_test : stopping TestStopping (Some Loop) false with_loop
| stopping_drain : stopping DrainLoop None false with_loop
| stopping_ended : stopping ThreadEnded None false with_thread.

Inductive shape : start_state → Prop :=
| shape_calloc : shape not_started
| shape_mutex : output = true → start_calloc = true →
    shape (StartState MutexInit NoThread None false 0 false false [TBlock])
| shape_cond : output = true → start_calloc = true → start_mutex = 0 →
    shape (StartState CondInit NoThread None false 0 false false [TMutex; TBlock])
| shape_thread : output = true → start_calloc = true → start_mutex = 0 → start_cond = 0 →
    shape (StartState ThreadCreate NoThread None false 0 false false of_caller)
| shape_no_thread : start_thread ≠ 0 →
    shape (StartState (CleanUp start_thread) NoThread None false 0 false false of_caller)
| shape_refused r : r ≠ 0 → ¬ all_starts →
    shape (StartState (Created r false) NoThread None false 0 false false [])
| shape_lock l o h : thread_starts → starting l o h →
    shape (StartState LockReady l o false 0 false false h)
| shape_test l h : thread_starts → starting l None h →
    shape (StartState TestReady l (Some Caller) false 0 false false h)
| shape_wait l o h : thread_starts → starting l o h →
    shape (StartState WaitReady l o false 0 false false h)
| shape_failed_lock : thread_starts → run_result ≠ 0 →
    shape (StartState LockReady ThreadEnded None true run_result false false with_thread)
| shape_failed_test : thread_starts → run_result ≠ 0 →
    shape (StartState TestReady ThreadEnded (Some Caller) true run_result false false with_thread)
| shape_join : thread_starts → run_result ≠ 0 →
    shape (StartState (JoinFailed run_result) ThreadEnded None true run_result false false
             with_thread)
| shape_clean : thread_starts → run_result ≠ 0 →
    shape (StartState (CleanUp run_result) ThreadEnded None true run_result false false of_caller)
| shape_failed : thread_starts → run_result ≠ 0 →
    shape (StartState (Created run_result false) ThreadEnded None true run_result false false [])
| shape_ready_lock : all_starts →
    shape (StartState LockReady RunLoop None true 0 false false with_loop)
| shape_ready_test : all_starts →
    shape (StartState TestReady RunLoop (Some Caller) true 0 false false with_loop)
| shape_created : all_starts →
    shape (StartState (Created 0 true) RunLoop None true 0 false false with_loop)
| shape_lock_stop : all_starts →
    shape (StartState LockStop RunLoop None true 0 false false with_loop)
| shape_set_stop : all_starts →
    shape (StartState SetStop RunLoop (Some Caller) true 0 false false with_loop)
| shape_stopping l o w h : all_starts → stopping l o w h →
    shape (StartState JoinStopped l o true 0 true w h)
| shape_free : all_starts →
    shape (StartState FreeRuntime ThreadEnded None true 0 true false of_caller)
| shape_destroyed : all_starts →
    shape (StartState Destroyed ThreadEnded None true 0 true false []).

(** How many steps the two threads have left at most. *)
Definition caller_rank (p : caller_point) : nat :=
  match p with
  | CallocRuntime => 63 | MutexInit => 62 | CondInit => 61 | ThreadCreate => 60
  | LockReady => 15 | TestReady => 14 | WaitReady => 13
  | JoinFailed _ => 2 | CleanUp _ => 1 | Created _ false => 0
  | Created _ true => 12 | LockStop => 11 | SetStop => 10 | JoinStopped => 2 | FreeRuntime => 1
  | Destroyed => 0
  end.

Definition loop_rank (p : loop_point) : nat :=
  match p with
  | NoThread => 0 | LoopInit => 24 | AsyncInit => 23 | LockResult _ => 22 | SetReady _ => 21
  | RunLoop => 4 | LockExecute => 3 | TestStopping => 2 | DrainLoop => 1 | ThreadEnded => 0
  end.

Definition rank (s : start_state) : nat := caller_rank (ss_caller s) + loop_rank (ss_loop s).

Lemma no_start_code code : code ∈ [UV_EINVAL; UV_ENOMEM] → code ≠ 0.
Proof.
  pose proof client_codes as H. rewrite !Forall_cons in H.
  intros [->|[->|[]%not_elem_of_nil]%elem_of_cons]%elem_of_cons; lia.
Qed.

Lemma run_result_0 : run_result = 0 ↔ start_loop = 0 ∧ start_async = 0.
Proof. unfold run_result. destruct (Z.eqb_spec start_loop 0); intuition. Qed.

(** A step that is determined, up to the results of the platform. *)
Ltac start_case :=
  repeat match goal with
    | |- context [negb (?x =? 0)] => destruct (Z.eqb_spec x 0); cbn [negb]
    | |- context [?x =? 0] => destruct (Z.eqb_spec x 0)
    | |- context [if negb ?b then _ else _] => destruct b eqn:?; cbn [negb]
    end;
  (eapply wp_of_Ret; [reflexivity|]); (split; [|unfold rank; simpl; lia]).

Ltac refuse := intros [(? & ? & ? & ? & ?) [? ?]]; congruence.

Lemma refused_shape r :
  r ≠ 0 → ¬ all_starts →
  shape (StartState (Created r false) NoThread None false 0 false false []).
Proof. by constructor. Qed.

Ltac result_step :=
  repeat match goal with
    | H : starting _ _ _ |- _ => destruct H
    | H : stopping _ _ _ _ |- _ => destruct H
    | H : result_held _ |- _ => destruct H
    end.

(** Closing a goal on the shape of a state. *)
Ltac shape_tac :=
  first [ by constructor | constructor; [done|by constructor]
        | constructor; [done|constructor; by constructor] ].

Lemma caller_step_shape s :
  shape s → caller_waits s = false →
  wp (caller_runs output s) (λ _ s', shape s' ∧ (rank s' < rank s)%nat) s.
Proof.
  intros Hs. destruct Hs; intros Hw; try discriminate Hw;
    cbv [caller_runs ss_caller not_started skyuv_client_runtime_create destroy_client_runtime].
  - start_case; [shape_tac|..]; apply refused_shape;
      try (apply no_start_code; set_solver); refuse.
  - start_case; [shape_tac|]. apply refused_shape; [done|refuse].
  - start_case; [shape_tac|]. apply refused_shape; [done|refuse].
  - start_case; shape_tac.
  - start_case. apply refused_shape; [done|refuse].
  - result_step; try discriminate Hw; start_case; shape_tac.
  - match goal with H : starting _ None _ |- _ => inversion H; subst; clear H end; result_step;
      start_case; shape_tac.
  - start_case; shape_tac.
  - apply wp_of_Ret with (a := tt) (s' := StartState (JoinFailed run_result) ThreadEnded None true
      run_result false false with_thread); [|split; [shape_tac|unfold rank; simpl; lia]].
    destruct run_result; [done|reflexivity|reflexivity].
  - start_case; shape_tac.
  - start_case. shape_tac.
  - start_case; shape_tac.
  - start_case; shape_tac.
  - start_case; shape_tac.
  - start_case; shape_tac.
  - start_case; shape_tac.
  - result_step; try discriminate Hw; start_case; shape_tac.
  - start_case; shape_tac.
Qed.

Lemma run_result_loop : start_loop ≠ 0 → run_result = start_loop.
Proof. unfold run_result. by destruct (Z.eqb_spec start_loop 0). Qed.

Lemma run_result_async : start_loop = 0 → run_result = start_async.
Proof. unfold run_result. intros ->. done. Qed.

(** The initialisation of the loop, whatever the caller does meanwhile. *)
Lemma initialising_step c l o o' h :
  starting l o h → l = LoopInit ∨ l = AsyncInit →
  wp (run l) (λ _ s', ∃ l' h', s' = StartState c l' o' false 0 false false h' ∧
      starting l' None h' ∧ (loop_rank l' < loop_rank l)%nat)
    (StartState c l o' false 0 false false h).
Proof.
  intros Hl Hor. destruct Hl as [|H0| |]; try (by destruct Hor); cbv [run].
  - destruct (Z.eqb_spec start_loop 0) as [H0|H0]; (eapply wp_of_Ret; [reflexivity|]).
    + exists AsyncInit, (TLoop :: with_thread). split_and!; [done|by constructor|simpl; lia].
    + rewrite <- (run_result_loop H0). exists (LockResult run_result), with_thread.
      split_and!; [done| |simpl; lia]. constructor. constructor. by rewrite run_result_loop.
  - pose proof (run_result_async H0) as E. rewrite <- E.
    destruct (Z.eqb_spec run_result 0); cbn [negb]; (eapply wp_of_Ret; [reflexivity|]).
    + exists (LockResult run_result), with_loop. split_and!; [done|by constructor; constructor|simpl; lia].
    + exists (LockResult run_result), with_thread. split_and!; [done|by constructor; constructor|simpl; lia].
Qed.

(** The announcement of the result, which wakes the caller if it sleeps. *)
Lemma announce_step c h :
  thread_starts → result_held h → c = LockReady ∨ c = WaitReady →
  wp (run (SetReady run_result))
    (λ _ s', shape s' ∧ (rank s' < caller_rank c + loop_rank (SetReady run_result))%nat)
    (StartState c (SetReady run_result) (Some Loop) false 0 false false h).
Proof.
  intros Ht Hh Hc. cbv [run]. destruct Hh as [E|E].
  - rewrite (proj2 (Z.eqb_neq _ _) E).
    destruct Hc as [-> | ->]; (eapply wp_of_Ret; [reflexivity|]); unfold rank; simpl;
      (split; [by apply shape_failed_lock|lia]).
  - assert (all_starts) by (split; [done|by apply run_result_0]). rewrite E. simpl (0 =? 0). cbv iota.
    destruct Hc as [-> | ->]; (eapply wp_of_Ret; [reflexivity|]); unfold rank; simpl;
      (split; [by apply shape_ready_lock|lia]).
Qed.

(** Locking the mutex for the announcement. *)
Lemma lock_result_step c h :
  thread_starts → result_held h → c = LockReady ∨ c = WaitReady →
  wp (run (LockResult run_result))
    (λ _ s', shape s' ∧ (rank s' < caller_rank c + loop_rank (LockResult run_result))%nat)
    (StartState c (LockResult run_result) None false 0 false false h).
Proof.
  intros Ht Hh Hc. cbv [run].
  destruct Hc as [-> | ->]; destruct Hh; (eapply wp_of_Ret; [reflexivity|]); unfold rank; simpl;
    (split; [|lia]); [apply shape_lock|apply shape_lock|apply shape_wait|apply shape_wait];
    try done; constructor; by constructor.
Qed.

Lemma loop_step_shape s :
  shape s → loop_waits s = false →
  wp (run (ss_loop s)) (λ _ s', shape s' ∧ (rank s' < rank s)%nat) s.
Proof.
  intros Hs. destruct Hs as [| | | | | |l o h Ht Hl|l h Ht Hl|l o h Ht Hl| | | | | | | | | | |l o w h Ha Hl| |];
    intros Hw; try discriminate Hw; cbn [ss_loop].
  - pose proof Hl as Hl'. destruct Hl' as [|H0|h Hh|h Hh].
    3: by apply lock_result_step; auto. 3: by apply announce_step; auto.
    all: eapply wp_mono; [eapply initialising_step; [exact Hl|auto]|];
      intros [] s' (l' & h' & -> & Hl' & Hr); (split; [by apply shape_lock|unfold rank; simpl in *; lia]).
  - inversion Hl as [|H0|? Hh|]; subst; try discriminate Hw.
    all: eapply wp_mono; [eapply initialising_step; [exact Hl|auto]|];
      intros [] s' (l' & h' & -> & Hl' & Hr); (split; [by apply shape_test|unfold rank; simpl in *; lia]).
  - pose proof Hl as Hl'. destruct Hl' as [|H0|h Hh|h Hh].
    3: by apply lock_result_step; auto. 3: by apply announce_step; auto.
    all: eapply wp_mono; [eapply initialising_step; [exact Hl|auto]|];
      intros [] s' (l' & h' & -> & Hl' & Hr); (split; [by apply shape_wait|unfold rank; simpl in *; lia]).
  - destruct Hl; try discriminate Hw; cbv [run]; start_case; shape_tac.
Qed.

Lemma start_reachable_shape s : start_reachable output s → shape s.
Proof.
  revert s. apply rtc_ind_r; [constructor|].
  intros y z _ Hyz IH. destruct Hyz as [[s' Hw Hs|s' Hw Hs]|[Hc ->]].
  - pose proof (caller_step_shape y IH Hw) as H. unfold wp in H. rewrite Hs in H. apply H.
  - pose proof (loop_step_shape y IH Hw) as H. unfold wp in H. rewrite Hs in H. apply H.
  - destruct IH; try discriminate Hc. by apply shape_lock.
Qed.

End shapes.

(** ** Waiting for a revision *)

(** How a wait blocks: not at all, in [uv_sleep], in [uv_cond_wait], in
    [uv_cond_timedwait]. *)
Inductive wait_action := NoWait | SleepMs (ms : Z) | WaitForever | WaitNs (ns : Z).

#[export] Instance wait_action_eq_dec : EqDecision wait_action.
Proof. solve_decision. Defined.

(** [runtime] is the revision of the runtime, if there is one. *)
Definition skyuv_client_runtime_revision (runtime : option Z) : Z :=
  match runtime with None => 0 | Some revision => revision end.

Definition skyuv_client_runtime_wait (runtime : option Z) (revision timeout_ns : Z) : wait_action :=
  match runtime with
  | None =>
      if 0 <? timeout_ns then SleepMs (u32 (u64 (u64 timeout_ns + 999999) / 1000000)) else NoWait
  | Some current =>
      if current =? revision then
        if timeout_ns <? 0 then WaitForever else WaitNs (u64 timeout_ns)
      else NoWait
  end.

(** ** The theorems *)

(** C32 Creating and destroying the client's runtime, with its thread, under every
    interleaving of the two threads and any spurious wake-ups: no step uses what
    has been released, locks or unlocks the mutex wrongly or destroys it while it
    is used; as long as the caller is inside create or destroy one of the threads
    can go on, and every step but a spurious wake-up brings the end nearer; create
    succeeds exactly if everything can be had, and then the thread is in its loop
    with all of it; when create has failed, or destroy has returned, the thread
    has ended, or never existed, and nothing is left. *)
Theorem client_thread_lifetime {client : ClientEnv} {start : StartEnv} output s :
  ClientEnvLaws client → start_reachable output s →
  (caller_waits s = false →
     ∃ s', caller_runs output s s = Ret tt s' ∧ (rank s' < rank s)%nat) ∧
  (loop_waits s = false → ∃ s', run (ss_loop s) s = Ret tt s' ∧ (rank s' < rank s)%nat) ∧
  (caller_waits s = false ∨ loop_waits s = false ∨
   (∃ r, ss_caller s = Created r false) ∨ ss_caller s = Destroyed) ∧
  (∀ r o, ss_caller s = Created r o →
     (r = 0 ↔ o = true) ∧ (o = true ↔ all_starts output) ∧
     if o then ss_loop s = RunLoop ∧ ss_held s = with_loop
     else (ss_loop s = NoThread ∨ ss_loop s = ThreadEnded) ∧ ss_held s = []) ∧
  (ss_caller s = Destroyed → ss_loop s = ThreadEnded ∧ ss_held s = []).
Proof.
  intros Hlaws Hr. apply start_reachable_shape in Hr as Hs. split_and!.
  - intros Hw. destruct (wp_Ret _ _ _ (caller_step_shape _ s Hs Hw)) as ([] & s' & ? & _ & ?). eauto.
  - intros Hw. destruct (wp_Ret _ _ _ (loop_step_shape _ s Hs Hw)) as ([] & s' & ? & _ & ?). eauto.
  - destruct Hs; try (by left); try (by right; right; left; eauto); try (by do 3 right);
      repeat match goal with
        | H : starting _ _ _ |- _ => destruct H
        | H : stopping _ _ _ _ |- _ => destruct H end; try (by left); by right; left.
  - intros r o Hc. pose proof run_result_0. unfold all_starts in *.
    destruct Hs; simplify_eq/=; unfold all_starts in *; intuition congruence.
  - intros Hc. by destruct Hs; simplify_eq/=.
Qed.

(** ** Runs *)

Section runs.
Context {client : ClientEnv} {start : StartEnv}.

(** The threads take steps in a given order. *)
Definition turn (output : bool) (who : side) (s : start_state) : option start_state :=
  match who with
  | Caller => if caller_waits s then None else exec (caller_runs output s) s
  | Loop => if loop_waits s then None else exec (run (ss_loop s)) s
  end.

Fixpoint turns (output : bool) (order : list side) (s : start_state) : option start_state :=
  match order with
  | [] => Some s
  | who :: order => turn output who s ≫= turns output order
  end.

Lemma turns_reachable output order s s' :
  start_reachable output s → turns output order s = Some s' → start_reachable output s'.
Proof.
  revert s. induction order as [|who order IH]; intros s Hs Ht; simpl in Ht; [by simplify_eq|].
  apply bind_Some in Ht as (s1 & H1 & H2). apply (IH s1); [|done]. eapply rtc_r; [exact Hs|left].
  unfold turn, exec in H1. destruct who.
  - destruct (caller_waits s) eqn:Hw; [done|].
    destruct (caller_runs output s s) as [[] ?|] eqn:Hr; simplify_eq. by apply step_caller.
  - destruct (loop_waits s) eqn:Hw; [done|].
    destruct (run (ss_loop s) s) as [[] ?|] eqn:Hr; simplify_eq. by apply step_loop.
Qed.

End runs.

(** The caller sleeps before the thread is ready, and destroys the runtime. *)
Definition good_start : StartEnv := {|
  start_calloc := true; start_mutex := 0; start_cond := 0; start_thread := 0;
  start_loop := 0; start_async := 0
|}.
Definition destroy_order : list side :=
  replicate 6 Caller ++ replicate 4 Loop ++ replicate 5 Caller ++ replicate 4 Loop ++
  replicate 2 Caller.

Lemma client_thread_lifetime_witness :
  ∃ s, @turns good_client good_start true destroy_order not_started = Some s ∧
    ss_caller s = Destroyed ∧ ss_held s = [].
Proof.
  destruct (@turns good_client good_start true destroy_order not_started) as [s|] eqn:E;
    [|discriminate E].
  exists s. assert (ss_caller s = Destroyed) as Hd by (vm_compute in E; by simplify_eq).
  split_and!; [done|done|].
  assert (@start_reachable good_client good_start true s) as Hr
    by (eapply turns_reachable; [apply rtc_refl|exact E]).
  apply (@client_thread_lifetime good_client good_start true s good_client_laws Hr). exact Hd.
Defined.

(** A thread looks, another one announces a change, and the first does not sleep. *)
