(* ===== verification/ClientMonitor.v ===== *)
(** * The monitor of the client's revision

    [notify], [skyuv_client_runtime_revision] and [skyuv_client_runtime_wait] of
    src/src/client/client_runtime.c, call by call on the mutex and the condition
    of the runtime, as any number of threads run them.  A condition is what POSIX
    and libuv say it is: waiting on it gives up the mutex and blocks at once, a
    broadcast wakes everybody who is blocked then, whoever wakes up takes the mutex
    again, and one may wake up at any time, because the time is over or for no
    reason. *)
From S2P Require Import Prelude ClientRuntime ClientStart.
From stdpp Require Import functions.

#[local] Open Scope Z_scope.

(** ** Threads *)

(** What a thread does next.  [TestAndWait] is the body of the wait: the
    comparison and, if it succeeds, the wait on the condition; it carries the
    number of announcements that there were when its revision was read. *)
Inductive instruction :=
| Lock
| Unlock
| Increment                  (** [++runtime->revision] *)
| Broadcast
| ReadRevision
| TestAndWait (revision timeout_ns : Z) (changes : nat).

Definition notify_calls : list instruction := [Lock; Increment; Broadcast; Unlock].

Definition revision_calls : list instruction := [Lock; ReadRevision; Unlock].

Definition wait_calls (revision timeout_ns : Z) (changes : nat) : list instruction :=
  [Lock; TestAndWait revision timeout_ns changes; Unlock].

Inductive status := Running | Asleep (revision : Z) (changes : nat) | Waking.

(** The calls that are left, the status, and the revision that was read last. *)
Record thread := Thread {
  th_calls : list instruction;
  th_status : status;
  th_seen : option (Z * nat);
}.

(** The mutex with its holder, the revision, the number of announcements and the
    threads. *)
Record monitor := Monitor {
  mo_owner : option nat;
  mo_revision : Z;
  mo_changes : nat;
  mo_threads : nat → thread;
}.

Definition outside : thread := Thread [] Running None.
Definition start_monitor : monitor := Monitor None 0 0 (λ _, outside).

Definition holds_mutex (i : nat) (m : monitor) : bool := bool_decide (mo_owner m = Some i).

Definition rouse (th : thread) : thread :=
  match th_status th with
  | Asleep _ _ => Thread (th_calls th) Waking (th_seen th)
  | _ => th
  end.

(** One call of thread [i]; [rest] is what it has to do then.  Everything but
    taking the mutex needs it. *)
Definition execute (i : nat) (call : instruction) (rest : list instruction) (m : monitor) :
    outcome monitor unit :=
  let '(Monitor owner revision changes threads) := m in
  let seen := th_seen (threads i) in
  let goes_on := <[i := Thread rest Running seen]> in
  match call with
  | Lock =>
      if holds_mutex i m then Fault LockHeld
      else Ret tt (Monitor (Some i) revision changes (goes_on threads))
  | _ =>
      if negb (holds_mutex i m) then Fault UnlockFree
      else
        match call with
        | Lock | Unlock => Ret tt (Monitor None revision changes (goes_on threads))
        | Increment => Ret tt (Monitor owner (u64 (revision + 1)) (S changes) (goes_on threads))
        | Broadcast => Ret tt (Monitor owner revision changes (goes_on (rouse ∘ threads)))
        | ReadRevision => Ret tt (Monitor owner revision changes
            (<[i := Thread rest Running (Some (revision, changes))]> threads))
        | TestAndWait r timeout_ns n =>
            match skyuv_client_runtime_wait (Some revision) r timeout_ns with
            | WaitForever | WaitNs _ =>
                Ret tt (Monitor None revision changes (<[i := Thread rest (Asleep r n) seen]> threads))
            | _ => Ret tt (Monitor owner revision changes (goes_on threads))
            end
        end
  end.

(** A thread waits for the mutex if it is to take it and another one has it. *)
Definition may_run (i : nat) (m : monitor) : Prop :=
  th_status (mo_threads m i) = Running ∧
  match th_calls (mo_threads m i) with
  | [] => False
  | Lock :: _ => mo_owner m = None
  | _ => True
  end.

Definition set_thread (i : nat) (th : thread) (m : monitor) : monitor :=
  Monitor (mo_owner m) (mo_revision m) (mo_changes m) (<[i := th]> (mo_threads m)).

(** What a thread that is in no function may call: it waits for a change of the
    revision that it read last. *)
Inductive callable (seen : option (Z * nat)) : list instruction → Prop :=
| call_notify : callable seen notify_calls
| call_revision : callable seen revision_calls
| call_wait r n timeout_ns : seen = Some (r, n) → callable seen (wait_calls r timeout_ns n).

Inductive monitor_step (m : monitor) : monitor → Prop :=
| step_call i calls :
    th_calls (mo_threads m i) = [] → callable (th_seen (mo_threads m i)) calls →
    monitor_step m (set_thread i (Thread calls Running (th_seen (mo_threads m i))) m)
| step_execute i call rest m' :
    may_run i m → th_calls (mo_threads m i) = call :: rest → execute i call rest m = Ret tt m' →
    monitor_step m m'
| step_wake i r n :
    th_status (mo_threads m i) = Asleep r n →
    monitor_step m (set_thread i (rouse (mo_threads m i)) m)
| step_resume i :
    th_status (mo_threads m i) = Waking → mo_owner m = None →
    monitor_step m (Monitor (Some i) (mo_revision m) (mo_changes m)
      (<[i := Thread (th_calls (mo_threads m i)) Running (th_seen (mo_threads m i))]> (mo_threads m))).

Definition monitor_reachable : monitor → Prop := rtc monitor_step start_monitor.

(** ** The invariant *)

(** The revision that was current after [n] announcements. *)
Definition known (m : monitor) (r : Z) (n : nat) : Prop :=
  (n ≤ mo_changes m)%nat ∧ r = u64 (Z.of_nat n).

(** What can be left of the functions, outside and inside the mutex. *)
Inductive calls_ok (m : monitor) : list instruction → bool → Prop :=
| ok_none : calls_ok m [] false
| ok_callable seen calls : (∀ r n, seen = Some (r, n) → known m r n) → callable seen calls →
    calls_ok m calls false
| ok_increment : calls_ok m [Increment; Broadcast; Unlock] true
| ok_broadcast : calls_ok m [Broadcast; Unlock] true
| ok_read : calls_ok m [ReadRevision; Unlock] true
| ok_test r t n : known m r n → calls_ok m [TestAndWait r t n; Unlock] true
| ok_unlock : calls_ok m [Unlock] true.

(** Somebody has changed the revision and is about to say so. *)
Definition announcing (m : monitor) : Prop :=
  ∃ j, mo_owner m = Some j ∧ th_status (mo_threads m j) = Running ∧
       th_calls (mo_threads m j) = [Broadcast; Unlock].

Definition status_ok (m : monitor) (i : nat) (th : thread) : Prop :=
  match th_status th with
  | Running => calls_ok m (th_calls th) (holds_mutex i m)
  | Asleep r n => th_calls th = [Unlock] ∧ holds_mutex i m = false ∧ known m r n ∧
      (r = mo_revision m ∨ announcing m)
  | Waking => th_calls th = [Unlock] ∧ holds_mutex i m = false
  end.

Definition seen_ok (m : monitor) (th : thread) : Prop :=
  ∀ r n, th_seen th = Some (r, n) → known m r n.

Definition monitor_ok (m : monitor) : Prop :=
  mo_revision m = u64 (Z.of_nat (mo_changes m)) ∧
  ∀ i, seen_ok m (mo_threads m i) ∧ status_ok m i (mo_threads m i).

Lemma known_mono m m' r n : (mo_changes m ≤ mo_changes m')%nat → known m r n → known m' r n.
Proof. intros Hle [? ?]. split; [lia|done]. Qed.

Lemma calls_ok_mono m m' calls b :
  (mo_changes m ≤ mo_changes m')%nat → calls_ok m calls b → calls_ok m' calls b.
Proof.
  intros Hle [|seen calls' Hs Hc| | | |r t n Hk|]; try constructor.
  - apply (ok_callable _ seen); [|done]. intros r n E. by eapply known_mono, Hs.
  - by eapply known_mono.
Qed.

(** A thread that did not take the step. *)
Lemma bystander m m' i th :
  (mo_changes m ≤ mo_changes m')%nat → holds_mutex i m' = holds_mutex i m →
  (∀ r, r = mo_revision m ∨ announcing m → r = mo_revision m' ∨ announcing m') →
  seen_ok m th ∧ status_ok m i th → seen_ok m' th ∧ status_ok m' i th.
Proof.
  intros Hle Hh Ha [Hs Ho]. split; [intros r n E; by eapply known_mono, Hs|].
  unfold status_ok in *. rewrite Hh. destruct (th_status th).
  - by eapply calls_ok_mono.
  - destruct Ho as (? & ? & ? & ?). split_and!; [done|done|by eapply known_mono|auto].
  - done.
Qed.

(** A step of the thread [i] after which nobody's revision is out of date. *)
Lemma monitor_ok_step m m' i th' :
  monitor_ok m → mo_threads m' = <[i := th']> (mo_threads m) →
  mo_revision m' = mo_revision m → mo_changes m' = mo_changes m →
  (∀ j, j ≠ i → holds_mutex j m' = holds_mutex j m) → (announcing m → announcing m') →
  seen_ok m' th' → status_ok m' i th' → monitor_ok m'.
Proof.
  intros [Hr Hth] Ht Hrev Hch Hh Ha Hs Ho. split; [congruence|]. intros j. rewrite Ht.
  destruct (decide (j = i)) as [->|Hne]; [by rewrite fn_lookup_insert|].
  rewrite fn_lookup_insert_ne by done. eapply (bystander m); [lia|by apply Hh| |by apply Hth].
  intros r [?|?]; [left; congruence|auto].
Qed.

Lemma owner_others m m' i :
  (mo_owner m = None ∨ mo_owner m = Some i) → (mo_owner m' = None ∨ mo_owner m' = Some i) →
  ∀ j, j ≠ i → holds_mutex j m' = holds_mutex j m.
Proof.
  intros H H' j Hne. unfold holds_mutex. apply bool_decide_ext. intuition congruence.
Qed.

(** Nobody is announcing while the mutex is free or its holder does something
    else. *)
Lemma not_announcing m i :
  (mo_owner m = None ∨ mo_owner m = Some i) → th_calls (mo_threads m i) ≠ [Broadcast; Unlock] →
  ¬ announcing m.
Proof. intros [Ho|Ho] Hc (j & Hj & _ & E); congruence. Qed.

Lemma start_monitor_ok : monitor_ok start_monitor.
Proof. split; [done|]. intros i. split; [by intros ? ?|]. apply ok_none. Qed.

Lemma callable_lock m seen call rest :
  (∀ r n, seen = Some (r, n) → known m r n) → callable seen (call :: rest) →
  call = Lock ∧ calls_ok m rest true.
Proof. intros Hs Hc. inversion Hc; subst; split; try done; constructor. by apply Hs. Qed.

Lemma take_mutex i rest m :
  monitor_ok m → mo_owner m = None → th_calls (mo_threads m i) ≠ [Broadcast; Unlock] →
  calls_ok m rest true →
  monitor_ok (Monitor (Some i) (mo_revision m) (mo_changes m)
    (<[i := Thread rest Running (th_seen (mo_threads m i))]> (mo_threads m))).
Proof.
  intros Hok Ho Hc Hrest.
  eapply (monitor_ok_step m); [done|reflexivity|done|done|apply owner_others; auto| |apply Hok|].
  - intros Ha. destruct (not_announcing m i); auto.
  - unfold status_ok, holds_mutex. simpl. rewrite bool_decide_true by done.
    eapply calls_ok_mono; [|done]. done.
Qed.

(** A call under the mutex that changes neither the revision nor the sleepers. *)
Lemma go_on i th' owner m :
  monitor_ok m → mo_owner m = Some i → (owner = Some i ∨ owner = None) →
  th_calls (mo_threads m i) ≠ [Broadcast; Unlock] →
  let m' := Monitor owner (mo_revision m) (mo_changes m) (<[i := th']> (mo_threads m)) in
  seen_ok m' th' → status_ok m' i th' → monitor_ok m'.
Proof.
  intros Hok Ho Ho' Hc m' Hs Hst.
  eapply (monitor_ok_step m); [done|reflexivity|done|done|apply (owner_others m); tauto| |done|done].
  intros Ha. destruct (not_announcing m i); auto.
Qed.

Lemma increment_ok i m :
  monitor_ok m → mo_owner m = Some i →
  monitor_ok (Monitor (Some i) (u64 (mo_revision m + 1)) (S (mo_changes m))
    (<[i := Thread [Broadcast; Unlock] Running (th_seen (mo_threads m i))]> (mo_threads m))).
Proof.
  intros [Hr Hth] Ho. set (m' := Monitor _ _ _ _).
  assert (announcing m') as Ha by (exists i; simpl; by rewrite fn_lookup_insert).
  split.
  - simpl. rewrite Hr. unfold u64. rewrite uwrap_add_l by lia. f_equal. lia.
  - intros j. simpl. destruct (decide (j = i)) as [->|Hne].
    + rewrite fn_lookup_insert. split.
      * intros r n E. apply (known_mono m); [simpl; lia|]. by apply (Hth i).
      * unfold status_ok, holds_mutex. simpl. rewrite bool_decide_true by done. constructor.
    + rewrite fn_lookup_insert_ne by done. apply (bystander m); [simpl; lia| |auto|apply Hth].
      apply (owner_others m m' i); auto.
Qed.

Lemma broadcast_ok i m :
  monitor_ok m → mo_owner m = Some i →
  monitor_ok (Monitor (Some i) (mo_revision m) (mo_changes m)
    (<[i := Thread [Unlock] Running (th_seen (mo_threads m i))]> (rouse ∘ mo_threads m))).
Proof.
  intros [Hr Hth] Ho. split; [done|]. intros j. simpl. destruct (decide (j = i)) as [->|Hne].
  - rewrite fn_lookup_insert. split; [apply (Hth i)|]. unfold status_ok, holds_mutex. simpl.
    rewrite bool_decide_true by done. constructor.
  - rewrite fn_lookup_insert_ne by done. simpl. destruct (Hth j) as [Hs Hst].
    unfold rouse, status_ok, seen_ok, holds_mutex in *. rewrite Ho in Hst. simpl.
    destruct (th_status (mo_threads m j)) eqn:E; simpl; rewrite ?E; (split; [exact Hs|]).
    + by eapply calls_ok_mono; [|exact Hst].
    + by destruct Hst as (? & ? & _).
    + done.
Qed.

(** The call that is next is made without a fault, and after a broadcast nobody
    is asleep. *)
Lemma execute_ok i call rest m :
  monitor_ok m → may_run i m → th_calls (mo_threads m i) = call :: rest →
  ∃ m', execute i call rest m = Ret tt m' ∧ monitor_ok m' ∧
    (call = Broadcast → ∀ j r n, th_status (mo_threads m' j) ≠ Asleep r n).
Proof.
  intros Hok [Hrun Hmay] Hcalls. pose proof Hok as [Hr Hth]. destruct (Hth i) as [Hseen Hst].
  unfold status_ok in Hst. rewrite Hrun, Hcalls in Hst. rewrite Hcalls in Hmay.
  destruct m as [owner revision changes threads]. simpl in *.
  set (m := Monitor owner revision changes threads) in *. unfold holds_mutex in *. simpl in Hst.
  inversion Hst as [|seen calls Hs Hc Ec Eo|Ec Eo|Ec Eo|Ec Eo|r t n Hk Ec Eo|Ec Eo]; subst;
    try (symmetry in Eo; apply bool_decide_eq_true in Eo as ->).
  - destruct (callable_lock _ _ _ _ Hs Hc) as [-> Hrest]. simpl in Hmay. subst owner.
    eexists. split; [done|]. split; [|done]. apply (take_mutex i rest m); try done.
    simpl. by rewrite Hcalls.
  - eexists. split; [by rewrite bool_decide_true|]. split; [|done]. by apply (increment_ok i m).
  - eexists. split; [by rewrite bool_decide_true|]. split; [by apply (broadcast_ok i m)|].
    intros _ j r n. simpl. destruct (decide (j = i)) as [->|Hne]; [by rewrite fn_lookup_insert|].
    rewrite fn_lookup_insert_ne by done. simpl. unfold rouse.
    destruct (th_status (threads j)) eqn:E; simpl; by rewrite ?E.
  - eexists. split; [by rewrite bool_decide_true|]. split; [|done].
    apply (go_on i _ (Some i) m); simpl; auto; [by rewrite Hcalls| |].
    + intros r n [= <- <-]. by split.
    + unfold status_ok, holds_mutex. simpl. rewrite bool_decide_true by done. constructor.
  - rewrite bool_decide_true by done. cbn [negb].
    unfold skyuv_client_runtime_wait. set (revision := u64 (Z.of_nat changes)) in *.
    destruct (Z.eqb_spec revision r) as [Er|Hne].
    + assert (monitor_ok (Monitor None revision changes
        (<[i := Thread [Unlock] (Asleep r n) (th_seen (threads i))]> threads))).
      { apply (go_on i _ None m); simpl; auto; [by rewrite Hcalls|]. unfold status_ok. simpl. auto. }
      destruct (t <? 0); eauto.
    + eexists. split; [done|]. split; [|done].
      apply (go_on i _ (Some i) m); simpl; auto; [by rewrite Hcalls|].
      unfold status_ok, holds_mutex. simpl. rewrite bool_decide_true by done. constructor.
  - eexists. split; [by rewrite bool_decide_true|]. split; [|done].
    apply (go_on i _ None m); simpl; auto; [by rewrite Hcalls|].
    unfold status_ok, holds_mutex. simpl. constructor.
Qed.

Lemma call_ok i calls m :
  monitor_ok m → th_calls (mo_threads m i) = [] → callable (th_seen (mo_threads m i)) calls →
  monitor_ok (set_thread i (Thread calls Running (th_seen (mo_threads m i))) m).
Proof.
  intros Hok Hc Hcall. pose proof Hok as [_ Hth]. destruct (Hth i) as [Hs Hst].
  assert (holds_mutex i m = false) as Hh.
  { unfold status_ok in Hst. rewrite Hc in Hst. destruct (th_status _).
    - by inversion Hst as [|? ? ? Hc'| | | | |]; subst; [|inversion Hc'].
    - by destruct Hst.
    - by destruct Hst. }
  eapply (monitor_ok_step m); [done|reflexivity|done|done|done| |apply Hs|].
  - intros (j & Hj & Hr & E). exists j. simpl. rewrite fn_lookup_insert_ne; [done|].
    intros <-. congruence.
  - unfold status_ok. simpl. change (holds_mutex i _) with (holds_mutex i m). rewrite Hh.
    by eapply (calls_ok_mono m), ok_callable; [|exact Hs|].
Qed.

Lemma wake_ok i r n m :
  monitor_ok m → th_status (mo_threads m i) = Asleep r n →
  monitor_ok (set_thread i (rouse (mo_threads m i)) m).
Proof.
  intros Hok Hr. pose proof Hok as [_ Hth]. destruct (Hth i) as [Hs Hst].
  unfold status_ok, rouse in *. rewrite Hr in *. destruct Hst as (Hc & Hh & _).
  eapply (monitor_ok_step m); [done|reflexivity|done|done|done| |apply Hs|].
  - intros (j & Hj & Hj' & E). exists j. simpl. rewrite fn_lookup_insert_ne; [done|].
    intros <-. congruence.
  - unfold status_ok. simpl. by split.
Qed.

Lemma monitor_reachable_ok m : monitor_reachable m → monitor_ok m.
Proof.
  revert m. apply rtc_ind_r; [apply start_monitor_ok|].
  intros m m' _ Hs Hok. destruct Hs as [i calls Hc Hcall|i call rest m' Hmay Hc Hrun|i r n Hr|i Hr Ho].
  - by apply call_ok.
  - destruct (execute_ok i call rest m Hok Hmay Hc) as (m1 & Hrun' & Hok' & _). congruence.
  - by eapply wake_ok.
  - pose proof Hok as [_ Hth]. destruct (Hth i) as [_ Hst]. unfold status_ok in Hst.
    rewrite Hr in Hst. destruct Hst as [Hc _]. apply take_mutex; try done; rewrite Hc; [done|constructor].
Qed.

(** The thread that has the mutex is not kept from going on. *)
Lemma owner_runs m i : monitor_ok m → mo_owner m = Some i → may_run i m.
Proof.
  intros [_ Hth] Ho. destruct (Hth i) as [_ Hst]. unfold status_ok, holds_mutex, may_run in *.
  rewrite bool_decide_true in Hst by done.
  destruct (th_status (mo_threads m i)); [|by destruct Hst as (_ & ? & _)|by destruct Hst].
  split; [done|]. by inversion Hst as [|? ? ? Hc| | | | |]; subst.
Qed.

(** C33 Waiting for a change of the revision, however any number of threads look at
    it, wait for another one than they saw, announce changes, time out and wake up
    for no reason: no call on the mutex or the condition is made that the thread
    has no right to; the thread that has the mutex can go on; a thread that is
    blocked on the condition has seen the present revision, and no change was
    announced since it looked, unless 2^64 were, or else the thread that has the
    mutex is about to broadcast; and a broadcast leaves nobody blocked.  Without a
    runtime the wait is the time-out in milliseconds, rounded up and taken modulo
    2^32: not shorter than asked for up to UINT_MAX milliseconds. *)
Theorem client_wait_misses_nothing m :
  monitor_reachable m →
  (∀ i call rest, may_run i m → th_calls (mo_threads m i) = call :: rest →
     ∃ m', execute i call rest m = Ret tt m' ∧
       (call = Broadcast → ∀ j r n, th_status (mo_threads m' j) ≠ Asleep r n)) ∧
  (∀ i, mo_owner m = Some i → may_run i m) ∧
  (∀ i r n, th_status (mo_threads m i) = Asleep r n →
     announcing m ∨
     r = mo_revision m ∧
     (Z.of_nat (mo_changes m) < Z.of_nat n + 2 ^ 64 → mo_changes m = n)) ∧
  (∀ revision timeout_ns, 0 < timeout_ns ≤ INT64_MAX →
     ∃ ms, skyuv_client_runtime_wait None revision timeout_ns = SleepMs (ms mod 2 ^ 32) ∧
       ms * 1000000 - 1000000 < timeout_ns ≤ ms * 1000000 ∧
       (timeout_ns ≤ UINT_MAX * 1000000 → ms mod 2 ^ 32 = ms)).
Proof.
  intros Hm%monitor_reachable_ok. split_and!.
  - intros i call rest Hmay Hc. destruct (execute_ok i call rest m Hm Hmay Hc) as (m' & ? & _ & ?). eauto.
  - intros i. by apply owner_runs.
  - intros i r n Hi. destruct Hm as [Hr Hth]. destruct (Hth i) as [_ Hst]. unfold status_ok in Hst.
    rewrite Hi in Hst. destruct Hst as (_ & _ & [Hn Hk] & [->|?]); [right|by left]. split; [done|].
    intros Hlt. rewrite Hr in Hk. unfold u64, uwrap in Hk.
    assert ((Z.of_nat (mo_changes m) - Z.of_nat n) mod 2 ^ 64 = 0) as Hz.
    { rewrite Zminus_mod, Hk, Z.sub_diag. done. }
    rewrite Z.mod_small in Hz by lia. lia.
  - intros revision t Ht. unfold INT64_MAX, UINT_MAX in *. unfold skyuv_client_runtime_wait.
    destruct (Z.ltb_spec 0 t); [|lia]. exists ((t + 999999) / 1000000).
    unfold u64, u32. rewrite (uwrap_small 64 t), (uwrap_small 64 (t + _)) by lia.
    pose proof (Z.div_mod (t + 999999) 1000000 ltac:(lia)).
    pose proof (Z.mod_pos_bound (t + 999999) 1000000 ltac:(lia)).
    split_and!; [done|lia..|]. intros. apply Z.mod_small. lia.
Qed.

(** ** A run *)

(** A thread reads the revision and waits for another one. *)
Lemma sleeper_reachable :
  ∃ m, monitor_reachable m ∧ th_status (mo_threads m 0%nat) = Asleep 0 0 ∧ mo_owner m = None ∧
    mo_changes m = 0%nat.
Proof.
  eexists. split; [|split_and!].
  - eapply rtc_l; [eapply (step_call _ 0%nat); [done|apply call_revision]|].
    do 3 (eapply rtc_l; [eapply (step_execute _ 0%nat); [by split|reflexivity|vm_compute; reflexivity]|]).
    eapply rtc_l; [eapply (step_call _ 0%nat); [done|by apply (call_wait _ 0 0%nat 5)]|].
    do 2 (eapply rtc_l; [eapply (step_execute _ 0%nat); [by split|reflexivity|vm_compute; reflexivity]|]).
    apply rtc_refl.
  - reflexivity.
  - reflexivity.
  - reflexivity.
Qed.

Lemma client_wait_misses_nothing_witness :
  ∃ m, monitor_reachable m ∧ th_status (mo_threads m 0%nat) = Asleep 0 0 ∧ mo_revision m = 0 ∧
    ∃ ms, skyuv_client_runtime_wait None 0 1500000 = SleepMs (ms mod 2 ^ 32) ∧ ms mod 2 ^ 32 = ms.
Proof.
  destruct sleeper_reachable as (m & Hm & Hs & Ho & _).
  destruct (client_wait_misses_nothing m Hm) as (_ & _ & Hasleep & Hms). exists m.
  split_and!; [exact Hm|exact Hs| |].
  - destruct (Hasleep 0%nat 0 0%nat Hs) as [(j & Hj & _)|[<- _]]; [congruence|reflexivity].
  - destruct (Hms 0 1500000) as (ms & ? & _ & Hfit); [unfold INT64_MAX; lia|].
    exists ms. split; [done|]. apply Hfit. unfold UINT_MAX. lia.
Defined.
