(* ===== verification/ClientReady.v ===== *)
(** * The client between calls

    Nobody waits for the client: its thread can only deliver data and finish
    closing timers, a connection that has become ready stays ready, and every
    call ends in such a state again. *)
From S2P Require Import Prelude ClientRuntime ClientInvariant ClientSafety ClientCalls ClientSend.

Section ready.
Context {env : ClientEnv} {laws : ClientEnvLaws env}.
Implicit Types (s : skyuv_client_runtime) (c : client_connection) (p r : positive).

(** No call is under way. *)
Definition calm s : Prop := CInv s ∧ client_ready s.

(** Reading, or writing, on the connection with this id would not block, or would
    report its end. *)
Definition ready_for (writing : bool) (id : Z) s : Prop :=
  ∃ p c, cl_heap s !! p = Some c ∧ cc_id c = id ∧
    if writing then cc_write_closed c = false
    else cc_received_size c ≠ 0 ∨ cc_read_status c ≠ 0.

(** What was ready stays ready. *)
Definition lasting s s' : Prop := ∀ writing id, ready_for writing id s → ready_for writing id s'.

#[export] Instance lasting_preorder : PreOrder lasting.
Proof. split; [by intros s writing id|]. intros s1 s2 s3 H1 H2 writing id H. by apply H2, H1. Qed.

Lemma lasting_heap s s' : cl_heap s' = cl_heap s → lasting s s'.
Proof. intros He writing id (p & c & Hp & Hc). exists p, c. by rewrite He. Qed.

Lemma lasting_update p c c' s s' :
  cl_heap s !! p = Some c → cl_heap s' = <[p := c']> (cl_heap s) → cc_id c' = cc_id c →
  cc_write_closed c' = cc_write_closed c →
  (cc_received_size c ≠ 0 ∨ cc_read_status c ≠ 0 →
   cc_received_size c' ≠ 0 ∨ cc_read_status c' ≠ 0) → lasting s s'.
Proof.
  intros Hp He Hid Hwc Hrd writing id (q & d & Hq & Hd & Hr). destruct (decide (q = p)) as [->|Hne].
  - simplify_eq. exists p, c'. rewrite He, lookup_insert_eq, Hid. split_and!; [done..|].
    destruct writing; [congruence|auto].
  - exists q, d. rewrite He, lookup_insert_ne by done. done.
Qed.

Lemma calm_established s p c :
  calm s → cl_heap s !! p = Some c →
  conn_ok (cl_next_id s) c ∧ cc_tcp c = Active ∧ cc_connecting c = false ∧ cc_request c = None ∧
  cc_writing c = None ∧ cc_shutting c = None ∧ cc_timer c ≠ Active.
Proof.
  intros [HI [Hr Hs]] Hp. pose proof (ct_conn _ (cv_table _ HI) p c Hp) as Hok.
  assert (holds c = []) as Hh.
  { destruct (cv_waiting _ HI) as [[_ Hh]|(r & q & p' & Hq & _)]; [by apply (Hh p c)|].
    rewrite Hr in Hq. symmetry in Hq. by apply map_non_empty_singleton in Hq. }
  unfold holds in Hh. apply app_eq_nil in Hh as [H1 [H2 H3]%app_eq_nil].
  assert (∀ o : option positive, option_list o = [] → o = None) as Hnone by (by intros []).
  apply Hnone in H1, H2, H3.
  destruct (cv_awaited _ HI Hs p c Hp) as [Htcp|[? ?]]; [|congruence].
  destruct (co_phase _ _ Hok) as [[? ?]| |H]; [congruence|by split_and!|]. by rewrite Htcp in H.
Qed.

Lemma read_lasting p data error s :
  calm s → client_enabled (OnRead p data error) s →
  wp (read_callback p data error) (λ _ s', client_ready s' ∧ lasting s s') s.
Proof.
  intros Hc (c & Hp & Hrd & Hlen & Herr). destruct (calm_established s p c Hc Hp) as (Hok & _).
  pose proof (co_buffer _ _ Hok) as Hb. destruct (bo_reading _ Hb Hrd) as (_ & _ & Hst).
  eapply wp_read_callback; [done..|]. intros array n paused status reading revision c' Hb' Hcont _.
  split; [apply Hc|]. eapply (lasting_update p c c'); try done. intros [Hsz|?]; [|done]. left.
  assert (∀ d, buffer_ok d → Z.of_nat (length (contents d)) = cc_received_size d) as Hlength.
  { intros d [H1 H2 _]. unfold contents. rewrite length_take. lia. }
  pose proof (Hlength c Hb) as E. pose proof (Hlength c' Hb') as E'.
  rewrite Hcont, length_app in E'. pose proof (bo_size _ Hb). lia.
Qed.

Lemma timer_closed_lasting p s :
  calm s → client_enabled (OnTimerClosed p) s →
  wp (run_client_callback (OnTimerClosed p)) (λ _ s', client_ready s' ∧ lasting s s') s.
Proof.
  intros Hc (c & Hp & Ht). destruct (calm_established s p c Hc Hp) as (Hok & Htcp & _).
  pose proof (co_handles _ _ Hok) as Hh. rewrite Htcp, Ht in Hh. simpl in Hh.
  simpl run_client_callback. unfold connection_closed. do 7 cl_step; [simpl in *; lia|].
  cl_step. split; [apply Hc|]. simpl.
  eapply (lasting_update p c (c <| cc_timer := Closed |> <| cc_handles ::= λ n, n - 1 |>)); try done.
  simpl. by rewrite insert_insert_eq.
Qed.

Lemma callback_calm s s' :
  client_callback_step s s' → calm s → calm s' ∧ lasting s s'.
Proof.
  intros (cb & Hen & Hrun) Hc.
  assert (CInv s') as HI'.
  { pose proof (client_callback_ok cb s (proj1 Hc) Hen) as Hwp. unfold wp in Hwp. rewrite Hrun in Hwp. apply Hwp. }
  assert (wp (run_client_callback cb) (λ _ s', client_ready s' ∧ lasting s s') s) as Hwp.
  { pose proof Hen as Hen'. destruct cb; simpl in Hen'; destruct Hen' as (c & Hp & Hx);
      destruct (calm_established s p c Hc Hp) as (_ & E1 & E2 & E3 & E4 & E5 & E6).
    - destruct Hx as [Hx _]. congruence.
    - congruence.
    - by apply read_lasting.
    - rewrite E4 in Hx. by destruct Hx.
    - rewrite E5 in Hx. by destruct Hx.
    - destruct Hx as [Hx _]. congruence.
    - by apply timer_closed_lasting. }
  unfold wp in Hwp. rewrite Hrun in Hwp. destruct Hwp as [Hrd Hl]. by split.
Qed.

(** The thread of the client alone. *)
Lemma idle_calm s s' : rtc client_callback_step s s' → calm s → calm s' ∧ lasting s s'.
Proof.
  induction 1 as [s|s1 s2 s3 Hs _ IH]; intros Hc; [done|].
  destruct (callback_calm _ _ Hs Hc) as [Hc2 Hl]. destruct (IH Hc2) as [Hc3 Hl']. split; [done|].
  by etrans.
Qed.

(** ** Calls *)

Lemma settle_calm (wait : positive → C Z) `{!ClientWait wait} q o s s1 :
  answered q s o s1 → wp (settle wait o) (λ _ s', calm s') s1.
Proof.
  intros (HI1 & Hst & Ho). destruct o as [result|r]; simpl settle.
  - destruct Ho as (_ & Hr & _). cl_step. by split.
  - destruct Ho as (q1 & Hsrc & [[Hr1 Hcm1]|[Hq1 Hcm1]]).
    + apply (wp_of_Ret _ _ _ _ _ (wait_completed r q1 _ s1 Hr1 Hcm1)). by split.
    + eapply wp_mono; [by apply (wait_pending r q1)|].
      intros result s' (HI' & Hst' & Hr' & _). split; [done|]. split; congruence.
Qed.

(** [skyuv_client_runtime_ready] answers for the state it finds. *)
Lemma ready_spec id s :
  calm s →
  wp (skyuv_client_runtime_ready id) (λ o s', calm s' ∧ cl_heap s' = cl_heap s ∧
    (o.1 = 0 → ∀ writing : bool,
       (if writing then o.2.2 else o.2.1) = true ↔ ready_for writing id s)) s.
Proof.
  intros [HI Hrd]. apply (wp_run_request (zero_request <| rq_id := id |>) check_ready
    (λ result q, (result, (rq_read q, rq_write_enabled q)))); [done|done| |].
  { intros result q' s' Hne HI' Hrd' _ He'. split_and!; [by split|done|]. by intros ?. }
  intros r s1 Hu Hq He Hcm. unfold check_ready. cl_step. eapply wp_find_connection; [apply Hu|done| |].
  - intros p c Hp Hid. simpl in Hid. do 5 cl_step. split_and!; [|done|].
    { eapply unheld_same; [done..|]. simpl. rewrite Hq, insert_singleton_eq. eauto. }
    intros q' s' Hq' HI' Hrd' _ He'. simpl in Hq'. rewrite Hq, insert_singleton_eq in Hq'.
    apply (inj2 _) in Hq' as [_ <-]. simpl. split_and!; [by split|simpl in He'; congruence|].
    assert (∀ P : client_connection → Prop, (∃ p c, cl_heap s !! p = Some c ∧ cc_id c = id ∧ P c) ↔ P c) as Hex.
    { intros P. rewrite <- He. split; [|naive_solver]. intros (p' & c' & Hp' & Hid' & HP).
      assert (p' = p) as ->; [|congruence].
      by eapply (ct_ids _ (uh_table _ _ Hu) p' p c' c); [| |congruence]. }
    intros _ []; unfold ready_for; rewrite Hex; simpl.
    + by destruct (cc_write_closed c).
    + rewrite orb_true_iff, !negb_true_iff, !Z.eqb_neq. done.
  - intros _. cl_step. split_and!; [done|done|]. intros q' s' _ HI' Hrd' _ He'. simpl.
    split_and!; [by split|congruence|]. client_code.
Qed.

Lemma recv_calm id capacity s :
  calm s → 0 < capacity →
  wp (skyuv_client_runtime_recv id true capacity) (λ o s', calm s' ∧
    Z.of_nat (length o.2) ≤ capacity) s.
Proof.
  intros [HI Hrd] Hcap. eapply wp_mono; [by apply recv_ok|].
  intros o s' (HI' & Hrd' & _ & [(_ & -> & _)|(_ & p & c & c' & _ & _ & _ & _ & _ & _ & Hl)]);
    (split; [by split|]); simpl; lia.
Qed.

End ready.
