(* ===== verification/ClientStdin.v ===== *)
(** * Standard input of the client

    src/src/client/client_stdin.c: a thread reads standard input, cuts it into
    lines and puts them into a ring of 1024 pointers; Lua states take them out
    without blocking.  The ring is shared and every access to it is one critical
    section, so the two sides interleave critical section by critical section. *)
From Equations Require Import Equations.
From S2P Require Import Prelude.

(** ** State *)

(** The static [input]. *)
Record stdin_input := Input {
  in_lines : list (option (list Z));
  in_head : Z;
  in_tail : Z;
  in_started : bool;
  in_joined : bool;
  in_eof : bool;
  in_failed : bool;
  in_overflow : bool;
  in_init_error : Z;
  in_finished : bool;
  in_clock : nat;
}.

Definition eta_input (i : stdin_input) : stdin_input :=
  Input (in_lines i) (in_head i) (in_tail i) (in_started i) (in_joined i) (in_eof i) (in_failed i)
    (in_overflow i) (in_init_error i) (in_finished i) (in_clock i).
#[export] Instance set_in_lines : Setter in_lines := ltac:(mk_setter eta_input).
#[export] Instance set_in_head : Setter in_head := ltac:(mk_setter eta_input).
#[export] Instance set_in_tail : Setter in_tail := ltac:(mk_setter eta_input).
#[export] Instance set_in_started : Setter in_started := ltac:(mk_setter eta_input).
#[export] Instance set_in_joined : Setter in_joined := ltac:(mk_setter eta_input).
#[export] Instance set_in_eof : Setter in_eof := ltac:(mk_setter eta_input).
#[export] Instance set_in_failed : Setter in_failed := ltac:(mk_setter eta_input).
#[export] Instance set_in_overflow : Setter in_overflow := ltac:(mk_setter eta_input).
#[export] Instance set_in_init_error : Setter in_init_error := ltac:(mk_setter eta_input).
#[export] Instance set_in_finished : Setter in_finished := ltac:(mk_setter eta_input).
#[export] Instance set_in_clock : Setter in_clock := ltac:(mk_setter eta_input).

Definition stdin_zero : stdin_input :=
  Input (replicate 1024 None) 0 0 false false false false false 0 false 0.

(** Results of the platform: allocations by time, and the calls of the
    initialisation and of the start of the thread. *)
Class StdinEnv := {
  stdin_alloc : nat → bool;
  stdin_retain : Z;
  stdin_mutex_init : Z;
  stdin_thread_create : Z;
}.

Notation Stdin := (M stdin_input).

(** Access to the ring; outside the array is a fault. *)
Definition line_at (k : Z) : Stdin (option (list Z)) := λ i,
  match in_lines i !! Z.to_nat k with Some l => Ret l i | None => Fault OutOfBounds end.

Definition set_line (k : Z) (l : option (list Z)) : Stdin unit := λ i,
  if decide (Z.to_nat k < length (in_lines i))%nat
  then Ret tt (i <| in_lines ::= <[Z.to_nat k := l]> |>) else Fault OutOfBounds.

(** ** The reading thread *)

Definition is_eol (b : Z) : bool := (b =? 10) || (b =? 13).

(** [while (length > 0 && ...) --length;] *)
Fixpoint trimmed (buffer : list Z) (length : nat) : nat :=
  match length with
  | O => O
  | S n =>
      if is_eol (default 0 (buffer !! n)) then trimmed buffer n else length
  end.

Section stdin.
Context {env : StdinEnv}.

Definition malloc : Stdin bool := λ i, Ret (stdin_alloc (in_clock i)) (i <| in_clock ::= S |>).

Definition queue_line (buffer : list Z) (length : nat) : Stdin unit :=
  let length := trimmed buffer length in
  ok ← malloc;
  let line := take length buffer in
  tail ← gets in_tail;
  head ← gets in_head;
  let next := u32 (tail + 1) mod 1024 in
  if negb ok then modify (λ i, i <| in_failed := true |>)
  else if next =? head then modify (λ i, i <| in_overflow := true |>)
  else
    set_line tail (Some line) ;;
    modify (λ i, i <| in_tail := next |>).

(** [line[length++] = byte] in an array of 1024, and the cut behind it. *)
Fixpoint read_bytes (bytes line : list Z) (length : nat) : Stdin (list Z * nat) :=
  match bytes with
  | [] => mret (line, length)
  | b :: bytes =>
      if decide (length < base.length line)%nat then
        let line := <[length := b]> line in
        let length := S length in
        if (b =? 10) || bool_decide (length = 1023%nat)
        then queue_line line length ;; read_bytes bytes line 0
        else read_bytes bytes line length
      else throw OutOfBounds
  end.

(** The reads that succeed, each with its bytes. *)
Fixpoint read_chunks (chunks : list (list Z)) (line : list Z) (length : nat) : Stdin (list Z * nat) :=
  match chunks with
  | [] => mret (line, length)
  | bytes :: chunks =>
      r ← read_bytes bytes line length;
      read_chunks chunks r.1 r.2
  end.

Definition finish (result : Z) : Stdin unit :=
  modify (λ i, i <| in_eof := (result =? 0) |> <| in_failed ::= λ b, b || (result <? 0) |>
                 <| in_finished := true |>).

(** [uv_fs_read] returns the chunks, then [result], which is not positive; [line]
    is the array of 1024 bytes, uninitialised. *)
Definition read_input (chunks : list (list Z)) (result : Z) (line : list Z) : Stdin unit :=
  r ← read_chunks chunks line 0;
  whenM (negb (bool_decide (r.2 = 0%nat))) (queue_line r.1 r.2) ;;
  finish result.

(** ** The Lua side *)

Inductive stdin_result :=
| StdinError (error : Z)
| StdinLine (line : list Z)
| StdinEnd (reason : string)
| StdinNothing.

(** [lua_pushstring] copies up to the first NUL. *)
Fixpoint c_string (line : list Z) : list Z :=
  match line with
  | [] => []
  | b :: line => if b =? 0 then [] else b :: c_string line
  end.

Definition initialize : Stdin unit :=
  modify (λ i, i <| in_init_error := stdin_retain |>) ;;
  error ← gets in_init_error;
  whenM (error =? 0) (modify (λ i, i <| in_init_error := stdin_mutex_init |>)).

(** The critical section of [skyuv_client_readstdin]; the thread is joined after
    it if the second component says so. *)
Definition read_section : Stdin (option (list Z) * bool * stdin_input) :=
  started ← gets in_started;
  whenM (negb started)
    (modify (λ i, i <| in_started := true |>) ;;
     whenM (negb (stdin_thread_create =? 0))
       (modify (λ i, i <| in_failed := true |> <| in_joined := true |>))) ;;
  head ← gets in_head;
  tail ← gets in_tail;
  line ← (if negb (head =? tail) then
            line ← line_at head;
            set_line head None ;;
            modify (λ i, i <| in_head := u32 (head + 1) mod 1024 |>) ;;
            mret line
          else mret None);
  i ← gets id;
  let join := negb (in_joined i) && in_finished i in
  whenM join (modify (λ i, i <| in_joined := true |>)) ;;
  mret (line, join, i).

Definition skyuv_client_readstdin : Stdin stdin_result :=
  error ← gets in_init_error;
  if negb (error =? 0) then mret (StdinError error)
  else
    r ← read_section;
    let '(line, _, i) := r in
    mret match line with
         | Some line => StdinLine (c_string line)
         | None =>
             if in_overflow i || in_failed i || in_eof i
             then StdinEnd (if in_overflow i then "overflow" else if in_failed i then "error" else "eof")
             else StdinNothing
         end.

End stdin.
