(* ===== verification/StdinLines.v ===== *)
(** * Lines of standard input

    The reading thread queues the lines of a reference definition, whatever the
    sizes of its reads; the ring is a queue of at most 1023 lines; and together,
    whatever the interleaving, a client that is told of the end of the input has
    received every line of it, in order. *)
From Equations Require Import Equations.
From S2P Require Import Prelude ClientStdin.

Implicit Types (bytes cur line : list Z) (i : stdin_input).

(** ** The reference *)

(** A segment ends with the first newline, or after 1023 bytes. *)
Definition cut bytes : nat :=
  match list_find (λ b, b = 10) (take 1023 bytes) with
  | Some (k, _) => S k
  | None => 1023
  end.

Lemma cut_pos bytes : (0 < cut bytes)%nat.
Proof. unfold cut. destruct (list_find _ _) as [[k b]|]; lia. Qed.

Equations? segments (bytes : list Z) : list (list Z) by wf (length bytes) lt :=
  segments [] := [];
  segments (b :: bytes) :=
    take (cut (b :: bytes)) (b :: bytes) :: segments (drop (cut (b :: bytes)) (b :: bytes)).
Proof. rewrite length_drop. pose proof (cut_pos (b :: bytes)). simpl. lia. Qed.

(** A segment without its line ending, in a string of C. *)
Definition line_of (segment : list Z) : list Z := take (trimmed segment (length segment)) segment.

Lemma segments_cut cur b bytes :
  Forall (λ b, b ≠ 10) cur → (length cur < 1023)%nat → b = 10 ∨ length cur = 1022%nat →
  segments (cur ++ b :: bytes) = (cur ++ [b]) :: segments bytes.
Proof.
  intros Hno Hlen Hb. assert (cut (cur ++ b :: bytes) = S (length cur)) as Hcut.
  { unfold cut. destruct (list_find _ _) as [[k x]|] eqn:E.
    - apply list_find_Some in E as (Hk & -> & Hbefore). f_equal.
      apply lookup_take_Some in Hk as [Hk Hlt].
      destruct (decide (k < length cur)%nat) as [Hlo|Hhi].
      + rewrite lookup_app_l in Hk by done. rewrite Forall_lookup in Hno. by destruct (Hno k 10).
      + destruct (decide (k = length cur)) as [|Hne]; [done|]. destruct Hb as [->|Hb]; [|lia].
        destruct (Hbefore (length cur) 10); [|lia|done].
        rewrite lookup_take_lt by lia. by rewrite list_lookup_middle.
    - destruct Hb as [->|Hb]; [|lia]. apply list_find_None in E.
      rewrite take_app_ge, Forall_app in E by lia. destruct E as [_ E].
      destruct (1023 - length cur)%nat eqn:En; [lia|]. simpl in E. by inversion E. }
  destruct (cur ++ b :: bytes) as [|x l] eqn:E; [by destruct cur|]. simp segments.
  rewrite Hcut, <- E. f_equal.
  - rewrite cons_middle, app_assoc. apply take_app_length'. rewrite length_app. simpl. lia.
  - f_equal. rewrite cons_middle, app_assoc. apply drop_app_length'. rewrite length_app. simpl. lia.
Qed.

Lemma segments_last cur :
  Forall (λ b, b ≠ 10) cur → (length cur < 1023)%nat → cur ≠ [] → segments cur = [cur].
Proof.
  intros Hno Hlen Hne. assert (cut cur = 1023%nat) as Hcut.
  { unfold cut. destruct (list_find _ _) as [[k x]|] eqn:E; [|done].
    apply list_find_Some in E as (Hk & -> & _). apply lookup_take_Some in Hk as [Hk _].
    rewrite Forall_lookup in Hno. by destruct (Hno k 10). }
  destruct cur as [|x l]; [done|]. simp segments. rewrite Hcut, take_ge, drop_ge by lia. by simp segments.
Qed.

(** ** The reading thread *)

Section reader.
Context {env : StdinEnv}.

(** The reader of the reference: one critical section per segment. *)
Definition queue_segment (segment : list Z) : Stdin unit := queue_line segment (length segment).

Lemma trimmed_prefix buffer n : trimmed buffer n = trimmed (take n buffer) n ∧ (trimmed buffer n ≤ n)%nat.
Proof.
  assert (∀ m, (m ≤ n)%nat → trimmed buffer m = trimmed (take n buffer) m ∧ (trimmed buffer m ≤ m)%nat) as H.
  { induction m as [|m IH]; intros Hm; [done|]. simpl. rewrite lookup_take_lt by lia.
    destruct (is_eol _); [|lia]. destruct IH; [lia|]. split; [done|lia]. }
  by apply H.
Qed.

(** What the rest of the array holds does not matter. *)
Lemma queue_line_take buffer n :
  (n ≤ length buffer)%nat → queue_line buffer n = queue_segment (take n buffer).
Proof.
  intros Hn. unfold queue_segment, queue_line. rewrite length_take, Nat.min_l by done.
  destruct (trimmed_prefix buffer n) as [<- Hle]. by rewrite take_take, Nat.min_l by done.
Qed.

(** Bytes behind the [n] bytes of a line that was begun: the segments that are
    complete are queued and the last one is begun. *)
Lemma read_bytes_segments bytes line n :
  length line = 1024%nat → (n < 1023)%nat → Forall (λ b, b ≠ 10) (take n line) →
  ∃ full cur line', (∀ rest, segments (take n line ++ bytes ++ rest) = full ++ segments (cur ++ rest)) ∧
    length line' = 1024%nat ∧ (length cur < 1023)%nat ∧ Forall (λ b, b ≠ 10) cur ∧
    take (length cur) line' = cur ∧
    ∀ i, read_bytes bytes line n i = (forM full queue_segment ;; mret (line', length cur)) i.
Proof.
  revert line n. induction bytes as [|b bytes IH]; intros line n Hline Hn Hno.
  { exists [], (take n line), line. assert (length (take n line) = n) as -> by (rewrite length_take; lia).
    split_and!; try done. }
  cbn [read_bytes]. rewrite decide_True by lia.
  assert (take (S n) (<[n := b]> line) = take n line ++ [b]) as Htake.
  { rewrite (take_S_r _ _ b) by (rewrite list_lookup_insert_eq; [done|lia]). by rewrite take_insert_ge. }
  destruct ((b =? 10) || bool_decide (S n = 1023%nat)) eqn:Hcut.
  - assert (b = 10 ∨ n = 1022%nat) as Hb.
    { apply orb_true_iff in Hcut as [?%Z.eqb_eq|?%bool_decide_eq_true]; [by left|right; lia]. }
    destruct (IH (<[n := b]> line) 0%nat) as (full & cur & line' & Hseg & Hl' & Hcur & Hnc & Htk & Hrun);
      [by rewrite length_insert|lia|constructor|].
    exists ((take n line ++ [b]) :: full), cur, line'. split_and!; try done.
    + intros rest. simpl. rewrite segments_cut; [|done|rewrite length_take; lia|rewrite length_take, Hline].
      * simpl. f_equal. apply (Hseg rest).
      * destruct Hb; [by left|right; lia].
    + intros i. simpl. rewrite queue_line_take, Htake by (rewrite length_insert; lia).
      unfold mbind, M_bind. destruct (queue_segment _ i) as [[] i1|]; [|done]. apply (Hrun i1).
  - apply orb_false_iff in Hcut as [Hb%Z.eqb_neq Hn1%bool_decide_eq_false].
    destruct (IH (<[n := b]> line) (S n)) as (full & cur & line' & Hseg & Hrest);
      [by rewrite length_insert|lia|rewrite Htake; apply Forall_app_2; [done|by constructor]|].
    exists full, cur, line'. split; [|done]. intros rest. rewrite <- Hseg, Htake. by rewrite <- app_assoc.
Qed.

Lemma forM_app {S A} (l1 l2 : list A) (f : A → M S unit) s :
  forM (l1 ++ l2) f s = (forM l1 f ;; forM l2 f) s.
Proof.
  revert s. induction l1 as [|x l1 IH]; intros s; [done|]. cbn [app forM].
  unfold mbind, M_bind. destruct (f x s) as [[] s1|]; [apply IH|done].
Qed.

Lemma read_chunks_segments chunks line n :
  length line = 1024%nat → (n < 1023)%nat → Forall (λ b, b ≠ 10) (take n line) →
  ∃ full cur line', (∀ rest, segments (take n line ++ concat chunks ++ rest) = full ++ segments (cur ++ rest)) ∧
    length line' = 1024%nat ∧ (length cur < 1023)%nat ∧ Forall (λ b, b ≠ 10) cur ∧
    take (length cur) line' = cur ∧
    ∀ i, read_chunks chunks line n i = (forM full queue_segment ;; mret (line', length cur)) i.
Proof.
  revert line n. induction chunks as [|bytes chunks IH]; intros line n Hline Hn Hno.
  { exists [], (take n line), line. assert (length (take n line) = n) as -> by (rewrite length_take; lia).
    split_and!; try done. }
  destruct (read_bytes_segments bytes line n Hline Hn Hno)
    as (full1 & cur1 & line1 & Hseg1 & Hl1 & Hc1 & Hno1 & Htk1 & Hrun1).
  destruct (IH line1 (length cur1)) as (full2 & cur2 & line2 & Hseg2 & Hl2 & Hc2 & Hno2 & Htk2 & Hrun2);
    [done|done|by rewrite Htk1|]. rewrite Htk1 in Hseg2.
  exists (full1 ++ full2), cur2, line2. split_and!; try done.
  - intros rest. cbn [concat]. by rewrite <- (app_assoc bytes), Hseg1, Hseg2, app_assoc.
  - intros i. cbn [read_chunks]. unfold mbind at 1, M_bind at 1. rewrite Hrun1.
    unfold mbind, M_bind. rewrite forM_app. unfold mbind, M_bind.
    destruct (forM full1 queue_segment i) as [[] i1|]; [|done]. simpl. apply Hrun2.
Qed.

(** The reading thread is the reference. *)
Lemma read_input_segments chunks result line i :
  length line = 1024%nat →
  read_input chunks result line i =
  (forM (segments (concat chunks)) queue_segment ;; finish result) i.
Proof.
  intros Hline. destruct (read_chunks_segments chunks line 0)
    as (full & cur & line' & Hseg & Hl' & Hc & Hno & Htk & Hrun); [done|lia|constructor|].
  specialize (Hseg []). rewrite take_0, !app_nil_r in Hseg. simpl in Hseg. rewrite Hseg.
  unfold read_input. unfold mbind at 1, M_bind at 1. rewrite Hrun.
  unfold mbind, M_bind. rewrite forM_app. unfold mbind, M_bind.
  destruct (forM full queue_segment i) as [[] i1|]; [|done]. simpl.
  destruct (decide (cur = [])) as [->|Hne].
  - rewrite bool_decide_eq_true_2 by done. by simp segments.
  - rewrite bool_decide_eq_false_2 by (by intros ?%nil_length_inv).
    rewrite segments_last, queue_line_take, Htk by (done || lia). simpl. unfold mbind, M_bind, whenM. simpl.
    by destruct (queue_segment cur i1) as [[] ?|].
Qed.

End reader.

(** ** The ring *)

(** The ring holds the lines [l], oldest first. *)
Record ring i (l : list (list Z)) : Prop := Ring {
  rg_array : length (in_lines i) = 1024%nat;
  rg_head : 0 ≤ in_head i < 1024;
  rg_tail : in_tail i = (in_head i + Z.of_nat (length l)) mod 1024;
  rg_room : (length l ≤ 1023)%nat;
  rg_lines k x : l !! k = Some x →
    in_lines i !! Z.to_nat ((in_head i + Z.of_nat k) mod 1024) = Some (Some x);
}.

(** The fields that are not the ring. *)
Definition flags i : bool * bool * bool * Z * bool :=
  (in_started i, in_joined i, in_eof i, in_init_error i, in_finished i).

Lemma u32_succ z : 0 ≤ z < 1024 → u32 (z + 1) mod 1024 = (z + 1) mod 1024.
Proof. intros. unfold u32. by rewrite uwrap_small by lia. Qed.

Lemma mod_neq h j k : 0 ≤ j < 1024 → 0 ≤ k < 1024 → j ≠ k → (h + j) mod 1024 ≠ (h + k) mod 1024.
Proof.
  intros Hj Hk Hne E. apply Hne.
  pose proof (Z.div_mod (h + j) 1024). pose proof (Z.div_mod (h + k) 1024).
  assert (j - k = 1024 * ((h + j) / 1024 - (h + k) / 1024)) by lia. lia.
Qed.

Lemma ring_empty i l : ring i [] → ring i l → l = [].
Proof.
  intros [_ Hh Ht _ _] [_ _ Ht' Hr _]. apply nil_length_inv. rewrite Ht in Ht'. simpl in Ht'.
  destruct (decide (length l = 0%nat)); [done|].
  destruct (mod_neq (in_head i) 0 (Z.of_nat (length l))); lia.
Qed.

Section ring.
Context {env : StdinEnv}.

Lemma wp_set_line k x i (Q : unit → stdin_input → Prop) :
  (Z.to_nat k < length (in_lines i))%nat → Q tt (i <| in_lines ::= <[Z.to_nat k := x]> |>) →
  wp (set_line k x) Q i.
Proof. intros Hk HQ. unfold wp, set_line. by rewrite decide_True. Qed.

Lemma wp_line_at k x i (Q : option (list Z) → stdin_input → Prop) :
  in_lines i !! Z.to_nat k = Some x → Q x i → wp (line_at k) Q i.
Proof. intros Hk HQ. unfold wp, line_at. by rewrite Hk. Qed.

(** A critical section of the reading thread. *)
Lemma queue_segment_ring segment i l :
  ring i l →
  wp (queue_segment segment) (λ _ i', flags i' = flags i ∧
    ((ring i' l ∧ (in_failed i' = true ∨ in_overflow i' = true ∧ length l = 1023%nat) ∧
      (in_failed i = true → in_failed i' = true) ∧ (in_overflow i = true → in_overflow i' = true)) ∨
     (ring i' (l ++ [line_of segment]) ∧ in_failed i' = in_failed i ∧ in_overflow i' = in_overflow i))) i.
Proof.
  intros [Ha Hh Ht Hr Hl]. unfold queue_segment, queue_line. fold (line_of segment).
  pose proof (Z.mod_pos_bound (in_head i + Z.of_nat (length l)) 1024).
  apply wp_bind. change (wp malloc ?Q i) with (Q (stdin_alloc (in_clock i)) (i <| in_clock ::= S |>)).
  cbv beta. apply wp_bind, wp_gets, wp_bind, wp_gets. simpl.
  destruct (stdin_alloc (in_clock i)); cbn [negb].
  2:{ apply wp_modify. split; [done|]. left. split_and!; try done. by left. }
  rewrite u32_succ by lia.
  assert ((in_tail i + 1) mod 1024 = (in_head i + Z.of_nat (S (length l))) mod 1024) as Hnext.
  { rewrite Ht, Z.add_mod_idemp_l by lia. f_equal. lia. }
  destruct (Z.eqb_spec ((in_tail i + 1) mod 1024) (in_head i)) as [Hfull|Hroom].
  - apply wp_modify. split; [done|]. left. split_and!; try done.
    right. split; [done|]. destruct (decide (length l = 1023)%nat); [done|].
    rewrite Hnext in Hfull. destruct (mod_neq (in_head i) (Z.of_nat (S (length l))) 0); [lia..|].
    rewrite Hfull, Z.add_0_r. by rewrite Z.mod_small.
  - apply wp_bind. apply wp_set_line; [simpl; lia|]. apply wp_modify. split; [done|]. right.
    split_and!; try done. assert (length l ≠ 1023)%nat as Hne.
    { intros E. apply Hroom. rewrite Hnext, E. change (Z.of_nat 1024) with 1024.
      rewrite <- (Z.mod_small (in_head i) 1024) at 2 by lia. rewrite <- (Z.mul_1_l 1024) at 1.
      by rewrite Z.mod_add by lia. }
    split; simpl; try done.
    + by rewrite length_insert.
    + rewrite Hnext, length_app. simpl. f_equal. lia.
    + rewrite length_app. simpl. lia.
    + intros k x. pose proof (Z.mod_pos_bound (in_head i + Z.of_nat k) 1024).
      rewrite lookup_app_Some. intros [Hk|[Hge Hk]].
      * pose proof (lookup_lt_Some _ _ _ Hk). rewrite list_lookup_insert_ne; [by apply Hl|].
        rewrite Ht. pose proof (mod_neq (in_head i) (Z.of_nat (length l)) (Z.of_nat k)). lia.
      * apply list_lookup_singleton_Some in Hk as [Hk <-]. replace k with (length l) by lia.
        rewrite <- Ht. apply list_lookup_insert_eq. lia.
Qed.

(** The line a call of Lua takes. *)
Definition result_of i (o : option (list Z)) : stdin_result :=
  match o with
  | Some line => StdinLine (c_string line)
  | None =>
      if in_overflow i || in_failed i || in_eof i
      then StdinEnd (if in_overflow i then "overflow" else if in_failed i then "error" else "eof")
      else StdinNothing
  end.

Lemma readstdin_ring i l :
  ring i l → in_init_error i = 0 →
  wp skyuv_client_readstdin (λ r i',
    ring i' (tail l) ∧ r = result_of i' (head l) ∧ in_started i' = true ∧ in_init_error i' = 0 ∧
    in_overflow i' = in_overflow i ∧ in_eof i' = in_eof i ∧ in_finished i' = in_finished i ∧
    (in_failed i = true → in_failed i' = true)) i.
Proof.
  intros Hring Herr. unfold skyuv_client_readstdin, read_section.
  apply wp_bind, wp_gets. rewrite Herr. cbn [negb Z.eqb].
  do 2 apply wp_bind. apply wp_gets, wp_bind.
  apply (wp_mono _ (λ _ i1, ring i1 l ∧ in_started i1 = true ∧ in_init_error i1 = 0 ∧
    in_overflow i1 = in_overflow i ∧ in_eof i1 = in_eof i ∧ in_finished i1 = in_finished i ∧
    (in_failed i = true → in_failed i1 = true))).
  { apply wp_whenM; [intros Hst%negb_true_iff|intros Hst%negb_false_iff; by split_and!].
    apply wp_bind, wp_modify, wp_whenM; intros Hc.
    - apply wp_modify. destruct Hring. by split_and!.
    - destruct Hring. by split_and!. }
  intros _ i1 ([Ha Hh Ht Hr Hl] & Hst & Herr1 & Hov & Heof & Hfin & Hfail).
  apply wp_bind, wp_gets, wp_bind, wp_gets, wp_bind.
  apply (wp_mono _ (λ o i2, o = head l ∧ ring i2 (tail l) ∧ flags i2 = flags i1 ∧
    in_failed i2 = in_failed i1 ∧ in_overflow i2 = in_overflow i1)).
  { destruct l as [|x l]; simpl in Ht.
    - rewrite Z.add_0_r, Z.mod_small in Ht by lia. rewrite Ht, Z.eqb_refl. apply wp_ret.
      split_and!; try done. split; try done. simpl. by rewrite Z.add_0_r, Z.mod_small by lia.
    - assert (in_head i1 ≠ in_tail i1) as Hne.
      { rewrite Ht. simpl in Hr. pose proof (mod_neq (in_head i1) 0 (Z.of_nat (S (length l)))).
        rewrite Z.add_0_r, (Z.mod_small (in_head i1)) in * by lia. lia. }
      apply Z.eqb_neq in Hne. rewrite Hne. cbn [negb]. apply wp_bind.
      pose proof (Hl 0%nat x eq_refl) as Hx. rewrite Z.add_0_r, Z.mod_small in Hx by lia.
      eapply wp_line_at; [done|]. apply wp_bind. apply wp_set_line; [lia|].
      apply wp_bind, wp_modify, wp_ret. split_and!; try done. rewrite u32_succ by lia. simpl in Hr.
      split; simpl; try done; [by rewrite length_insert|apply Z.mod_pos_bound; lia| |lia|].
      + rewrite Ht, Z.add_mod_idemp_l by lia. f_equal. lia.
      + intros k y Hk. rewrite Z.add_mod_idemp_l by lia.
        replace (in_head i1 + 1 + Z.of_nat k) with (in_head i1 + Z.of_nat (S k)) by lia.
        pose proof (lookup_lt_Some _ _ _ Hk).
        pose proof (Z.mod_pos_bound (in_head i1 + Z.of_nat (S k)) 1024).
        rewrite list_lookup_insert_ne; [by apply Hl|].
        pose proof (mod_neq (in_head i1) 0 (Z.of_nat (S k))).
        rewrite Z.add_0_r, (Z.mod_small (in_head i1)) in * by lia. lia. }
  intros o i2 (-> & Hring2 & Hfl & Hfa2 & Hov2). unfold flags in Hfl. simplify_eq.
  apply wp_bind, wp_gets, wp_bind. destruct Hring2. apply wp_whenM; intros _; [apply wp_modify|];
    apply wp_ret; unfold id; simpl; split_and!; try done; intros;
    repeat match goal with H : ?f i2 = _ |- context [?f _] => progress (change (f (i2 <| in_joined := true |>)) with (f i2)) end;
    try congruence; rewrite Hfa2; auto.
Qed.

End ring.

(** ** The two threads *)

(** [sy_todo] are the segments the reading thread has still to queue, [sy_done]
    those it has been through, [sy_taken] the lines Lua has got. *)
Record stdin_system := System {
  sy_input : stdin_input;
  sy_todo : list (list Z);
  sy_done : list (list Z);
  sy_taken : list (list Z);
}.

Section system.
Context {env : StdinEnv}.
Implicit Types (s : stdin_system).

(** The lines a call returns. *)
Definition lines_of (r : stdin_result) : list (list Z) :=
  match r with StdinLine line => [line] | _ => [] end.

(** The reading thread exists once it was started with success. *)
Definition reading i : bool := in_started i && (stdin_thread_create =? 0).

Inductive stdin_step (result : Z) s : stdin_system → Prop :=
| reader_queues segment todo i' :
    reading (sy_input s) = true → sy_todo s = segment :: todo →
    queue_segment segment (sy_input s) = Ret tt i' →
    stdin_step result s (System i' todo (sy_done s ++ [segment]) (sy_taken s))
| reader_finishes i' :
    reading (sy_input s) = true → sy_todo s = [] → in_finished (sy_input s) = false →
    finish result (sy_input s) = Ret tt i' →
    stdin_step result s (System i' [] (sy_done s) (sy_taken s))
| lua_reads r i' :
    skyuv_client_readstdin (sy_input s) = Ret r i' →
    stdin_step result s (System i' (sy_todo s) (sy_done s) (sy_taken s ++ lines_of r)).

(** The input is [bytes]. *)
Definition stdin_start bytes : stdin_system := System stdin_zero (segments bytes) [] [].

(** What holds between critical sections. *)
Record stdin_ok (result : Z) bytes s : Prop := StdinOk {
  so_init : in_init_error (sy_input s) = 0;
  so_segments : segments bytes = sy_done s ++ sy_todo s;
  so_lines : ∃ l accepted, ring (sy_input s) l ∧ sy_taken s ++ (c_string <$> l) = c_string <$> accepted ∧
    accepted `sublist_of` (line_of <$> sy_done s) ∧
    (in_overflow (sy_input s) = false → in_failed (sy_input s) = false →
     accepted = line_of <$> sy_done s);
  so_eof : in_eof (sy_input s) = true → sy_todo s = [] ∧ result = 0;
}.

Lemma stdin_start_ok result bytes : stdin_ok result bytes (stdin_start bytes).
Proof.
  split; try done. exists [], []. split_and!; try done. split; simpl; try done; lia.
Qed.

Lemma lua_reads_ok result bytes s :
  stdin_ok result bytes s →
  wp skyuv_client_readstdin (λ r i',
    stdin_ok result bytes (System i' (sy_todo s) (sy_done s) (sy_taken s ++ lines_of r)) ∧
    (r = StdinEnd "eof" → in_eof i' = true ∧ in_overflow i' = false ∧ in_failed i' = false ∧
     ring i' [])) (sy_input s).
Proof.
  intros [Hi Hseg (l & acc & Hring & Htk & Hsub & Hall) Heof].
  eapply wp_mono; [by apply readstdin_ring|].
  intros r i' (Hring' & -> & Hst & Hi' & Hov & He & Hfin & Hfail). split.
  - split; simpl; try done.
    + exists (tail l), acc. split_and!; try done.
      * rewrite <- Htk, <- app_assoc. f_equal. destruct l as [|x l]; simpl; [|done].
        unfold result_of. by destruct (_ || _).
      * intros Hov' Hf'. apply Hall; [congruence|]. destruct (in_failed (sy_input s)); [|done].
        by rewrite Hfail in Hf'.
    + rewrite He. done.
  - destruct l as [|x l]; simpl; [|done]. unfold result_of.
    destruct (in_overflow i') eqn:E1, (in_failed i') eqn:E2, (in_eof i') eqn:E3; simpl; try done.
Qed.

Lemma reader_queues_ok result bytes segment todo s :
  stdin_ok result bytes s → sy_todo s = segment :: todo →
  wp (queue_segment segment) (λ _ i',
    stdin_ok result bytes (System i' todo (sy_done s ++ [segment]) (sy_taken s))) (sy_input s).
Proof.
  intros [Hi Hseg (l & acc & Hring & Htk & Hsub & Hall) Heof] Htodo.
  eapply wp_mono; [by apply queue_segment_ring|]. intros [] i' [Hfl Hcase]. unfold flags in Hfl.
  injection Hfl as _ _ He Hi' _. rewrite Htodo in *. split; simpl.
  - congruence.
  - by rewrite <- app_assoc.
  - rewrite fmap_app. destruct Hcase as [(Hring' & Hlost & Hf & Ho)|(Hring' & Hf & Ho)].
    + exists l, acc. split_and!; try done; [by apply sublist_inserts_r|].
      intros. destruct Hlost as [?|[? _]]; congruence.
    + exists (l ++ [line_of segment]), (acc ++ [line_of segment]). split_and!; try done.
      * by rewrite !fmap_app, app_assoc, Htk.
      * by apply sublist_app.
      * intros. rewrite Hall by congruence. done.
  - rewrite He. intros Ht. by destruct (Heof Ht).
Qed.

Lemma stdin_step_ok result bytes s s' :
  stdin_step result s s' → stdin_ok result bytes s → stdin_ok result bytes s'.
Proof.
  intros [segment todo i' Hrd Htodo Hrun|i' Hrd Htodo Hnf Hrun|r i' Hrun] Hok.
  - pose proof (reader_queues_ok result bytes segment todo s Hok Htodo) as Hwp. unfold wp in Hwp.
    by rewrite Hrun in Hwp.
  - injection Hrun as <-. destruct Hok as [Hi Hseg (l & acc & Hring & Htk & Hsub & Hall) Heof].
    rewrite Htodo in Hseg. split; simpl; try done.
    + exists l, acc. destruct Hring. split_and!; try done.
      intros Ho [Hf _]%orb_false_iff. by apply Hall.
    + intros ?%Z.eqb_eq. done.
  - pose proof (lua_reads_ok result bytes s Hok) as Hwp. unfold wp in Hwp. rewrite Hrun in Hwp. apply Hwp.
Qed.

Lemma stdin_reachable_ok result bytes s :
  rtc (stdin_step result) (stdin_start bytes) s → stdin_ok result bytes s.
Proof.
  generalize (stdin_start_ok result bytes). generalize (stdin_start bytes). intros s0 H0 Hs.
  induction Hs; eauto using stdin_step_ok.
Qed.

(** C19 The client gets its standard input.  Whatever the sizes of its reads, the
    reading thread is one critical section per line of the input, a line ending
    with its newline or after 1023 bytes, and never writes outside its array; and
    however those critical sections interleave with the calls of Lua states, no
    access to the ring is out of bounds, the lines Lua gets are lines of the
    input, in order and each at most once, and a call that reports the end of the
    input, rather than an overflow or an error, reports it after all of them. *)
Theorem stdin_lines chunks result line s :
  length line = 1024%nat → rtc (stdin_step result) (stdin_start (concat chunks)) s →
  let lines := c_string ∘ line_of <$> segments (concat chunks) in
  (∀ i, read_input chunks result line i =
        (forM (segments (concat chunks)) queue_segment ;; finish result) i) ∧
  (∀ segment todo, sy_todo s = segment :: todo → wp (queue_segment segment) (λ _ _, True) (sy_input s)) ∧
  wp skyuv_client_readstdin (λ r _,
    (sy_taken s ++ lines_of r) `sublist_of` lines ∧
    (r = StdinEnd "eof" → sy_taken s = lines ∧ result = 0)) (sy_input s).
Proof.
  intros Hline Hs lines. apply stdin_reachable_ok in Hs as Hok. split_and!.
  - intros i. by apply read_input_segments.
  - intros segment todo Htodo. eapply wp_mono; [by apply (reader_queues_ok result)|done].
  - eapply wp_mono; [by apply lua_reads_ok|].
    intros r i' [[_ Hseg (l & acc & Hring & Htk & Hsub & Hall) Heof] Hend]. simpl in *.
    assert (lines = c_string <$> (line_of <$> sy_done s) ++ (line_of <$> sy_todo s)) as Hlines.
    { unfold lines. by rewrite Hseg, <- fmap_app, <- list_fmap_compose. }
    split.
    + rewrite Hlines. transitivity (c_string <$> acc).
      * rewrite <- Htk. by apply sublist_inserts_r.
      * apply fmap_sublist. by apply sublist_inserts_r.
    + intros ->. destruct (Hend eq_refl) as (He & Ho & Hf & Hempty).
      destruct (Heof He) as [Htodo ->]. split; [|done]. rewrite Hlines, Htodo, app_nil_r, <- Hall by done.
      rewrite <- Htk, (ring_empty i' l) by done. simpl. by rewrite !app_nil_r.
Qed.

End system.

(** ** A run *)

Definition good_stdin : StdinEnv := {|
  stdin_alloc := λ _, true; stdin_retain := 0; stdin_mutex_init := 0; stdin_thread_create := 0 |}.

#[local] Existing Instance good_stdin.

(** A call of Lua, as a step of the system. *)
Definition lua_call (s : stdin_system) : stdin_system :=
  match skyuv_client_readstdin (sy_input s) with
  | Ret r i' => System i' (sy_todo s) (sy_done s) (sy_taken s ++ lines_of r)
  | Fault _ => s
  end.

(** The reading thread queues its next line. *)
Definition queue_call (s : stdin_system) : stdin_system :=
  match sy_todo s with
  | [] => s
  | segment :: todo =>
      match queue_segment segment (sy_input s) with
      | Ret _ i' => System i' todo (sy_done s ++ [segment]) (sy_taken s)
      | Fault _ => s
      end
  end.

(** Lua starts the thread, which queues the one line of "ab\r\ncd". *)
Lemma stdin_lines_witness :
  let s := queue_call (lua_call (stdin_start [97; 98; 13; 10; 99; 100])) in
  rtc (stdin_step 0) (stdin_start [97; 98; 13; 10; 99; 100]) s ∧
  wp skyuv_client_readstdin (λ r _, lines_of r `sublist_of` [[97; 98]; [99; 100]]) (sy_input s).
Proof.
  intros s.
  assert (rtc (stdin_step 0) (stdin_start (concat [[97; 98; 13]; [10; 99; 100]])) s) as Hs.
  { eapply rtc_l; [eapply lua_reads; vm_compute; reflexivity|].
    eapply rtc_l; [eapply reader_queues; vm_compute; reflexivity|]. vm_compute. apply rtc_refl. }
  split; [exact Hs|].
  destruct (stdin_lines [[97; 98; 13]; [10; 99; 100]] 0 (replicate 1024 0) s) as (_ & _ & Hwp);
    [reflexivity|exact Hs|].
  eapply wp_mono; [exact Hwp|]. intros r i' [Hsub _]. exact Hsub.
Defined.
