(* ===== verification/Doubles.v ===== *)
(** * Double precision

    The floating-point arithmetic of C that src/src/client/client_lua.c computes
    time-outs with.  A double is a [spec_float] of 53 bits, the operations are
    those of the Standard Library's specification of IEEE 754, rounding to nearest.

    To compare doubles with each other and with integers all are counted in one
    unit, [2 ^ -scale], of which every double is a multiple.  [rounded] says what is
    needed of a rounded result: it is on the same side of every double as the exact
    value. *)
From Stdlib Require Import Floats.SpecFloat.
From S2P Require Import Prelude.

(** ** Operations *)

Notation double := spec_float.

Definition prec : Z := 53.
Definition emax : Z := 1024.

Definition isfinite (x : double) : bool :=
  match x with S754_zero _ | S754_finite _ _ _ => true | _ => false end.

(** Every double of a C program is in canonical form. *)
Definition valid (x : double) : bool := valid_binary prec emax x.

Definition dmul : double → double → double := SFmul prec emax.
Definition ddiv : double → double → double := SFdiv prec emax.
Definition dsub : double → double → double := SFsub prec emax.
Definition dltb : double → double → bool := SFltb.
Definition dleb : double → double → bool := SFleb.

(** Conversion of an integer, rounded if it has more than 53 bits. *)
Definition of_Z (z : Z) : double := binary_normalize prec emax z 0 false.

(** The integer part, towards zero and upwards. *)
Definition trunc (x : double) : Z :=
  match x with
  | S754_finite s m e =>
      let n := if 0 <=? e then Z.pos m * 2 ^ e else Z.pos m / 2 ^ (- e) in
      if s then - n else n
  | _ => 0
  end.

Definition ceil_Z (x : double) : Z :=
  match x with
  | S754_finite s m e =>
      if 0 <=? e then (if s then - (Z.pos m * 2 ^ e) else Z.pos m * 2 ^ e)
      else if s then - (Z.pos m / 2 ^ (- e)) else - (- Z.pos m / 2 ^ (- e))
  | _ => 0
  end.

(** [ceil] of C, which keeps the sign of a zero. *)
Definition ceil (x : double) : double :=
  match x with
  | S754_finite s m e =>
      if 0 <=? e then x else if ceil_Z x =? 0 then S754_zero s else of_Z (ceil_Z x)
  | _ => x
  end.

(** The conversion to an integer type with bounds: undefined outside of them. *)
Definition to_integer (lo hi : Z) (x : double) : option Z :=
  if isfinite x && (lo <=? trunc x) && (trunc x <=? hi) then Some (trunc x) else None.

Definition to_int64 : double → option Z := to_integer (- 2 ^ 63) (2 ^ 63 - 1).
Definition to_uint32 : double → option Z := to_integer 0 UINT_MAX.

(** ** Values *)

Definition scale : Z := 4096.
#[global] Arguments scale : simpl never.

(** The value of [m * 2 ^ e] in units. *)
Definition mag (m e : Z) : Z := m * 2 ^ (e + scale).

Definition units (x : double) : Z :=
  match x with
  | S754_finite s m e => if s then - mag (Z.pos m) e else mag (Z.pos m) e
  | _ => 0
  end.

(** An integer in units. *)
Definition whole (z : Z) : Z := z * 2 ^ scale.

Lemma pow_pos' e : 0 ≤ e → 0 < 2 ^ e.
Proof. intros. lia. Qed.

Lemma whole_mag z : whole z = mag z 0.
Proof. done. Qed.

Lemma mag_shift m e k : 0 ≤ k → 0 ≤ e + scale → mag m (e + k) = mag (m * 2 ^ k) e.
Proof.
  intros. unfold mag. replace (e + k + scale) with (k + (e + scale)) by lia.
  rewrite Z.pow_add_r by lia. lia.
Qed.

Lemma mag_le m m' e : 0 ≤ e + scale → mag m e ≤ mag m' e ↔ m ≤ m'.
Proof. intros. unfold mag. pose proof (pow_pos' (e + scale)). nia. Qed.

Lemma mag_lt m m' e : 0 ≤ e + scale → mag m e < mag m' e ↔ m < m'.
Proof. intros. unfold mag. pose proof (pow_pos' (e + scale)). nia. Qed.

Lemma whole_le a b : whole a ≤ whole b ↔ a ≤ b.
Proof. rewrite !whole_mag. by apply mag_le. Qed.

Lemma whole_lt a b : whole a < whole b ↔ a < b.
Proof. rewrite !whole_mag. by apply mag_lt. Qed.

(** ** Mantissas and exponents *)

Lemma digits2_log2 m : Z.pos (digits2_pos m) = Z.log2 (Z.pos m) + 1.
Proof.
  induction m as [m IH|m IH|]; [..|done]; simpl digits2_pos; rewrite Pos2Z.inj_succ, IH.
  - rewrite (Pos2Z.inj_xI m), (Z.log2_succ_double (Z.pos m)) by lia. lia.
  - rewrite (Pos2Z.inj_xO m), (Z.log2_double (Z.pos m)) by lia. lia.
Qed.

Lemma Zdigits2_bounds m :
  0 ≤ m → m < 2 ^ Zdigits2 m ∧ (0 < m → 2 ^ (Zdigits2 m - 1) ≤ m) ∧ 0 ≤ Zdigits2 m.
Proof.
  intros Hm. destruct m as [|m|m]; [simpl; lia| |lia].
  change (Zdigits2 (Z.pos m)) with (Z.pos (digits2_pos m)). rewrite digits2_log2.
  pose proof (Z.log2_spec (Z.pos m) ltac:(lia)). pose proof (Z.log2_nonneg (Z.pos m)).
  rewrite Z.add_simpl_r, Z.add_1_r. lia.
Qed.

Lemma Zdigits2_unique m d : 0 < d → 2 ^ (d - 1) ≤ m < 2 ^ d → Zdigits2 m = d.
Proof.
  intros Hd Hm. pose proof (Z.pow_pos_nonneg 2 (d - 1)). destruct m as [|m|m]; try lia.
  change (Zdigits2 (Z.pos m)) with (Z.pos (digits2_pos m)). rewrite digits2_log2.
  rewrite (Z.log2_unique (Z.pos m) (d - 1)); [lia|lia|].
  by replace (Z.succ (d - 1)) with d by lia.
Qed.

(** What [bounded] says: 53 bits, all of them used unless the number is as small
    as possible. *)
Lemma bounded_spec m e :
  bounded prec emax m e = true ↔
  Z.pos m < 2 ^ 53 ∧ -1074 ≤ e ≤ 971 ∧ (-1074 < e → 2 ^ 52 ≤ Z.pos m).
Proof.
  unfold bounded, canonical_mantissa. rewrite andb_true_iff, Z.eqb_eq, Z.leb_le.
  change (Z.pos (digits2_pos m)) with (Zdigits2 (Z.pos m)).
  destruct (Zdigits2_bounds (Z.pos m)) as (Hhi & Hlo & Hd); [lia|]. specialize (Hlo ltac:(lia)).
  unfold fexp, emin, prec, emax. split.
  - intros [He Hb]. split_and!; [|lia|lia|].
    + apply Z.lt_le_trans with (1 := Hhi). apply Z.pow_le_mono_r; lia.
    + intros. etrans; [|apply Hlo]. apply Z.pow_le_mono_r; lia.
  - intros (Hm & He & Hn). split; [|lia].
    assert (Zdigits2 (Z.pos m) ≤ 53).
    { destruct (decide (Zdigits2 (Z.pos m) ≤ 53)) as [|Hgt]; [done|].
      pose proof (Z.pow_le_mono_r 2 53 (Zdigits2 (Z.pos m) - 1)). lia. }
    destruct (decide (e = -1074)) as [->|]; [lia|].
    rewrite (Zdigits2_unique (Z.pos m) 53); lia.
Qed.

(** ** Shifting *)

(** The integer of [mrs] times [w] is [num], rounded down; the two flags tell
    whether exactly. *)
Definition located (num w : Z) (mrs : shr_record) : Prop :=
  0 ≤ shr_m mrs ∧ w * shr_m mrs ≤ num < w * (shr_m mrs + 1) ∧
  (shr_r mrs || shr_s mrs = false ↔ num = w * shr_m mrs).

Lemma shr_1_spec m r s :
  0 ≤ m → shr_1 (Build_shr_record m r s) = Build_shr_record (m / 2) (Z.odd m) (r || s).
Proof.
  intros Hm. destruct m as [|[m|m|]|m]; try done; simpl; f_equal.
  - apply (Z.div_unique _ _ _ 1); lia.
  - apply (Z.div_unique _ _ _ 0); lia.
Qed.

Lemma shr_1_located num w mrs : 0 < w → located num w mrs → located num (w * 2) (shr_1 mrs).
Proof.
  destruct mrs as [m r s]. unfold located. intros Hw (Hm & Hb & He). simpl in Hm, Hb, He.
  rewrite shr_1_spec by done. simpl.
  pose proof (Zmod_odd m) as Ho. pose proof (Z.div_mod m 2 ltac:(lia)) as Hd.
  split; [apply Z.div_pos; lia|]. split; [destruct (Z.odd m); nia|].
  destruct (Z.odd m); simpl; [split; [done|nia]|]. rewrite He. split; nia.
Qed.

Lemma iter_shr_located n num w mrs :
  0 < w → located num w mrs → located num (w * 2 ^ Z.pos n) (SpecFloat.iter_pos shr_1 n mrs).
Proof.
  revert w mrs. induction n as [n IH|n IH|]; intros w mrs Hw Hl; simpl SpecFloat.iter_pos.
  - replace (w * 2 ^ Z.pos n~1) with (w * 2 * 2 ^ Z.pos n * 2 ^ Z.pos n).
    { apply IH; [lia|]. apply IH; [lia|]. by apply shr_1_located. }
    rewrite (Pos2Z.inj_xI n). replace (2 * Z.pos n + 1) with (1 + (Z.pos n + Z.pos n)) by lia.
    rewrite !Z.pow_add_r by lia. lia.
  - replace (w * 2 ^ Z.pos n~0) with (w * 2 ^ Z.pos n * 2 ^ Z.pos n).
    { apply IH; [lia|]. by apply IH. }
    rewrite (Pos2Z.inj_xO n). replace (2 * Z.pos n) with (Z.pos n + Z.pos n) by lia.
    rewrite !Z.pow_add_r by lia. lia.
  - by apply shr_1_located.
Qed.

Lemma shr_located num w mrs e n :
  0 < w → 0 ≤ n → located num w mrs →
  (shr mrs e n).2 = e + n ∧ located num (w * 2 ^ n) (shr mrs e n).1.
Proof.
  intros Hw Hn Hl. destruct n as [|n|n]; [|split; [done|by apply iter_shr_located]|lia].
  simpl. rewrite Z.mul_1_r. split; [lia|done].
Qed.

(** ** Rounding *)

(** The magnitude in units, and the sign. *)
Definition magnitude (x : double) : Z :=
  match x with S754_finite _ m e => mag (Z.pos m) e | _ => 0 end.

Definition sign (x : double) : bool :=
  match x with
  | S754_zero s | S754_infinity s | S754_finite s _ _ => s
  | S754_nan => false
  end.

(** [r] is a double with sign [s], and its magnitude is the magnitude [num / den],
    in units, rounded: no double lies between the two. *)
Record rounded (num den : Z) (s : bool) (r : double) : Prop := Rounded {
  rounded_valid : valid r = true;
  rounded_finite : isfinite r = true;
  rounded_sign : sign r = s;
  rounded_above m e :
    bounded prec emax m e = true → num ≤ den * mag (Z.pos m) e → magnitude r ≤ mag (Z.pos m) e;
  rounded_below m e :
    bounded prec emax m e = true → den * mag (Z.pos m) e ≤ num → mag (Z.pos m) e ≤ magnitude r;
  rounded_null : num = 0 → magnitude r = 0;
}.

(** [num / den] is not beyond the largest double. *)
Definition fits (num den : Z) : Prop :=
  ∃ m e, bounded prec emax m e = true ∧ num ≤ den * mag (Z.pos m) e.

Section rounding.
Context (num den : Z) (Hden : 0 < den).

Definition weight (e : Z) : Z := den * 2 ^ (e + scale).

Lemma weight_pos e : 0 ≤ e + scale → 0 < weight e.
Proof. intros. unfold weight. pose proof (pow_pos' (e + scale)). nia. Qed.

Lemma weight_shift e k : 0 ≤ e + scale → 0 ≤ k → weight e * 2 ^ k = weight (e + k).
Proof.
  intros. unfold weight. replace (e + k + scale) with (e + scale + k) by lia.
  rewrite (Z.pow_add_r 2 (e + scale) k) by lia. lia.
Qed.

Lemma weight_mag m e : weight e * m = den * mag m e.
Proof. unfold weight, mag. lia. Qed.

(** The exponent that is shifted to. *)
Definition exponent (m e : Z) : Z := fexp prec emax (Zdigits2 m + e).

Lemma shr_fexp_spec m e l :
  0 ≤ m → - scale ≤ e → e ≤ exponent m e → located num (weight e) (shr_record_of_loc m l) →
  ∃ mrs, shr_fexp prec emax m e l = (mrs, exponent m e) ∧
    located num (weight (exponent m e)) mrs ∧ shr_m mrs < 2 ^ 53 ∧ -1074 ≤ exponent m e ∧
    (-1074 < exponent m e → 2 ^ 52 ≤ shr_m mrs).
Proof.
  intros Hm He Hx Hl. set (E := exponent m e) in *. set (k := E - e).
  destruct (Zdigits2_bounds m Hm) as (Hhi & Hlo & Hd).
  assert (HE : E = Z.max (Zdigits2 m + e - 53) (-1074)) by done.
  pose proof (weight_pos e ltac:(lia)) as Hw.
  destruct (shr_located num (weight e) (shr_record_of_loc m l) e k) as [H1 H2]; [lia..|done|].
  unfold shr_fexp. change (fexp prec emax (Zdigits2 m + e) - e) with k.
  destruct (shr (shr_record_of_loc m l) e k) as [mrs e'] eqn:Hs. simpl in H1, H2.
  rewrite weight_shift in H2 by lia. replace (e + k) with E in * by lia. subst e'.
  exists mrs. split; [done|]. split; [done|].
  assert (Hr : shr_m (shr_record_of_loc m l) = m) by (by destruct l as [|[]]).
  destruct Hl as (_ & [Hl1 Hl2] & _), H2 as (H3 & [H4 H5] & _). rewrite Hr in Hl1, Hl2.
  assert (HwE : weight E = weight e * 2 ^ k) by (rewrite weight_shift by lia; f_equal; lia).
  pose proof (pow_pos' k ltac:(lia)). rewrite HwE in H4, H5.
  split_and!; [|lia|].
  - assert (2 ^ Zdigits2 m ≤ 2 ^ k * 2 ^ 53).
    { rewrite <- Z.pow_add_r by lia. apply Z.pow_le_mono_r; lia. }
    nia.
  - intros Hb. destruct (decide (m = 0)) as [->|Hm0]; [simpl in HE; lia|].
    assert (2 ^ (Zdigits2 m - 1) = 2 ^ k * 2 ^ 52) as Hp.
    { rewrite <- Z.pow_add_r by lia. f_equal. lia. }
    specialize (Hlo ltac:(lia)). nia.
Qed.

(** Rounding to an integer stays next to the exact value. *)
Lemma round_nearest_located w mrs :
  0 < w → located num w mrs →
  let n := round_nearest_even (shr_m mrs) (loc_of_shr_record mrs) in
  shr_m mrs ≤ n ≤ shr_m mrs + 1 ∧ ∀ b, num ≤ w * b → n ≤ b.
Proof.
  intros Hw (Hm & Hb & He). destruct mrs as [m r s]. simpl in *.
  assert (Hn : ∀ b, num ≤ w * b → m ≤ b) by (intros; nia).
  assert (Hup : r || s = true → ∀ b, num ≤ w * b → m + 1 ≤ b).
  { intros Hx b Hbb. assert (num ≠ w * m) by (intros Hq; apply He in Hq; congruence). nia. }
  destruct r, s; simpl; (split; [try case_match; lia|]); intros b Hbb;
    [by apply Hup| |by apply Hn..]. case_match; [by apply Hn|by apply Hup].
Qed.

(** The second shift, which only a carry needs. *)
Lemma carry_spec n e :
  0 ≤ n ≤ 2 ^ 53 → -1074 ≤ e → (-1074 < e → 2 ^ 52 ≤ n) →
  ∃ m' e', shr_fexp prec emax n e loc_Exact = (Build_shr_record m' false false, e') ∧
    0 ≤ m' < 2 ^ 53 ∧ mag m' e' = mag n e ∧ -1074 ≤ e' ≤ e + 1 ∧ (-1074 < e' → 2 ^ 52 ≤ m').
Proof.
  intros Hn He Hlow. destruct (decide (n = 2 ^ 53)) as [->|Hne].
  - exists (2 ^ 52), (e + 1).
    assert (shr_fexp prec emax (2 ^ 53) e loc_Exact =
            shr (Build_shr_record (2 ^ 53) false false) e 1) as ->.
    { unfold shr_fexp. f_equal. rewrite (Zdigits2_unique (2 ^ 53) 54) by lia.
      unfold fexp, emin, prec, emax. lia. }
    split; [done|]. split; [lia|]. split; [|lia]. rewrite mag_shift by (unfold scale; lia). done.
  - exists n, e. destruct (Zdigits2_bounds n) as (_ & Hlo & Hd); [lia|].
    assert (shr_fexp prec emax n e loc_Exact = (Build_shr_record n false false, e)) as ->.
    { unfold shr_fexp, shr. simpl shr_record_of_loc.
      assert (fexp prec emax (Zdigits2 n + e) - e ≤ 0); [|by destruct (_ - e); [| lia |]].
      assert (Zdigits2 n ≤ 53); [|unfold fexp, emin, prec, emax; lia].
      destruct (decide (n = 0)) as [->|]; [done|]. specialize (Hlo ltac:(lia)).
      destruct (decide (Zdigits2 n ≤ 53)) as [|Hgt]; [done|].
      pose proof (Z.pow_le_mono_r 2 53 (Zdigits2 n - 1)). lia. }
    split; [done|]. split; [lia|]. split; [done|]. lia.
Qed.

(** A mantissa that is not too small is beyond every double with a lower
    exponent. *)
Lemma mag_beyond m e m' e' :
  m < 2 ^ 53 → 2 ^ 52 ≤ m' → - scale ≤ e < e' → mag m e < mag m' e'.
Proof.
  intros Hm Hm' He. replace e' with (e + (e' - e)) by lia. rewrite mag_shift by lia.
  apply mag_lt; [lia|]. assert (2 ^ 1 ≤ 2 ^ (e' - e)) by (apply Z.pow_le_mono_r; lia). nia.
Qed.

Lemma round_aux_rounded s m e l :
  0 ≤ m → - scale ≤ e → e ≤ exponent m e → located num (weight e) (shr_record_of_loc m l) →
  fits num den → rounded num den s (binary_round_aux prec emax s m e l).
Proof.
  intros Hm He Hx Hl (mf & ef & Hfb & Hff).
  destruct (shr_fexp_spec m e l Hm He Hx Hl) as (mrs & Hs & Hl' & Hlt & HE & Hlo).
  unfold binary_round_aux. rewrite Hs. set (E := exponent m e) in *.
  pose proof (weight_pos E ltac:(unfold scale; lia)) as Hw.
  destruct (round_nearest_located (weight E) mrs Hw Hl') as [Hn Hup].
  set (n := round_nearest_even (shr_m mrs) (loc_of_shr_record mrs)) in *.
  pose proof Hl' as (Hm0 & Hb & _).
  destruct (carry_spec n E) as (m' & e' & -> & Hm' & Hmag & He' & Hlo'); [lia..|]. simpl.
  assert (Habove : ∀ mb eb, bounded prec emax mb eb = true → num ≤ den * mag (Z.pos mb) eb →
    mag m' e' ≤ mag (Z.pos mb) eb).
  { intros mb eb (Hb1 & Hb2 & Hb3)%bounded_spec Hnb. rewrite Hmag.
    destruct (decide (E ≤ eb)) as [Hle|Hgt].
    - replace eb with (E + (eb - E)) in * by lia. rewrite mag_shift in * by (unfold scale; lia).
      apply mag_le; [unfold scale; lia|]. apply Hup. by rewrite weight_mag.
    - exfalso. rewrite weight_mag in Hb.
      pose proof (mag_beyond (Z.pos mb) eb (shr_m mrs) E ltac:(lia) ltac:(lia)
        ltac:(unfold scale; lia)). nia. }
  assert (Hbelow : ∀ mb eb, bounded prec emax mb eb = true → den * mag (Z.pos mb) eb ≤ num →
    mag (Z.pos mb) eb ≤ mag m' e').
  { intros mb eb (Hb1 & Hb2 & Hb3)%bounded_spec Hnb. rewrite Hmag.
    destruct (decide (E ≤ eb)) as [Hle|Hgt].
    - replace eb with (E + (eb - E)) in * by lia. rewrite mag_shift in * by (unfold scale; lia).
      apply mag_le; [unfold scale; lia|]. rewrite <- weight_mag in Hnb. nia.
    - apply Z.lt_le_incl, mag_beyond; [lia|lia|unfold scale; lia]. }
  assert (Hnull : num = 0 → m' = 0).
  { intros ->. specialize (Hup 0 ltac:(lia)). assert (n = 0) as Hn0 by lia. rewrite Hn0 in Hmag.
    unfold mag in Hmag. pose proof (pow_pos' (e' + scale) ltac:(unfold scale; lia)). nia. }
  assert (He971 : m' ≠ 0 → e' ≤ 971).
  { intros Hne. destruct (decide (e' ≤ 971)) as [|Hgt]; [done|]. exfalso.
    pose proof (Habove mf ef Hfb Hff) as Hle. apply bounded_spec in Hfb as (Hf1 & Hf2 & _).
    pose proof (mag_beyond (Z.pos mf) ef m' e' ltac:(lia) ltac:(lia) ltac:(unfold scale; lia)). lia. }
  destruct m' as [|m'|m']; [..|lia].
  - split; simpl; [done..| | |done]; intros; [unfold mag; lia|]. by apply Hbelow.
  - destruct (Z.leb_spec e' (emax - prec)) as [Hle|Hgt]; [|unfold emax, prec in *; lia].
    split; simpl; [|done..|]; [apply bounded_spec; lia|]. by intros ?%Hnull.
Qed.

End rounding.

(** ** Operations *)

Lemma located_exact num w m : 0 ≤ m → num = w * m → 0 < w → located num w (shr_record_of_loc m loc_Exact).
Proof. intros Hm -> Hw. split; simpl; [done|]. split; [nia|done]. Qed.

Lemma rounded_zero den s : 0 < den → rounded 0 den s (S754_zero s).
Proof.
  intros Hd. split; [done..| | |done]; intros m e _; simpl.
  - intros _. unfold mag. pose proof (Z.pow_nonneg 2 (e + scale)). nia.
  - intros Hle. destruct (decide (0 ≤ mag (Z.pos m) e)); [|lia]. nia.
Qed.

Lemma valid_spec s m e :
  valid (S754_finite s m e) = true ↔
  Z.pos m < 2 ^ 53 ∧ -1074 ≤ e ≤ 971 ∧ (-1074 < e → 2 ^ 52 ≤ Z.pos m).
Proof. apply bounded_spec. Qed.

Lemma Zdigits2_mono a b : 0 ≤ a ≤ b → Zdigits2 a ≤ Zdigits2 b.
Proof.
  intros Hab. destruct (Zdigits2_bounds a) as (_ & Ha & _); [lia|].
  destruct (Zdigits2_bounds b) as (Hb & _ & Hbn); [lia|].
  destruct (decide (a = 0)) as [->|]; [done|]. specialize (Ha ltac:(lia)).
  destruct (decide (Zdigits2 a ≤ Zdigits2 b)) as [|Hgt]; [done|].
  pose proof (Z.pow_le_mono_r 2 (Zdigits2 b) (Zdigits2 a - 1)). lia.
Qed.

Lemma normal_digits s m e : valid (S754_finite s m e) = true → -1074 < e → Zdigits2 (Z.pos m) = 53.
Proof. intros (H1 & _ & H2)%valid_spec He. apply Zdigits2_unique; lia. Qed.

Lemma mag_mul m1 e1 m2 e2 :
  - scale ≤ e1 → - scale ≤ e2 → - scale ≤ e1 + e2 →
  mag m1 e1 * mag m2 e2 = weight (2 ^ scale) (e1 + e2) * (m1 * m2).
Proof.
  intros. unfold mag, weight.
  assert (2 ^ (e1 + scale) * 2 ^ (e2 + scale) = 2 ^ scale * 2 ^ (e1 + e2 + scale)) as Hp.
  { rewrite <- !Z.pow_add_r by (unfold scale in *; lia). f_equal. lia. }
  transitivity (m1 * m2 * (2 ^ (e1 + scale) * 2 ^ (e2 + scale))); [lia|]. rewrite Hp. lia.
Qed.

(** The product of the magnitudes in units is [magnitude x * magnitude y / 2 ^ scale]. *)
Lemma dmul_rounded x y :
  valid x = true → valid y = true → isfinite x = true → isfinite y = true →
  fits (magnitude x * magnitude y) (2 ^ scale) →
  rounded (magnitude x * magnitude y) (2 ^ scale) (xorb (sign x) (sign y)) (dmul x y).
Proof.
  intros Hx Hy Hfx Hfy Hf.
  destruct x as [sx| | |sx mx ex], y as [sy| | |sy my ey]; try discriminate; simpl magnitude;
    rewrite ?Z.mul_0_r, ?Z.mul_0_l; try (by apply rounded_zero).
  pose proof Hx as (Hx1 & Hx2 & Hx3)%valid_spec. pose proof Hy as (Hy1 & Hy2 & Hy3)%valid_spec.
  apply round_aux_rounded; [done|lia|unfold scale; lia| | |done].
  - assert (Zdigits2 (Z.pos mx) ≤ Zdigits2 (Z.pos (mx * my))) by (apply Zdigits2_mono; nia).
    assert (Zdigits2 (Z.pos my) ≤ Zdigits2 (Z.pos (mx * my))) by (apply Zdigits2_mono; nia).
    unfold exponent, fexp, emin, prec, emax.
    destruct (decide (ex = -1074)) as [->|]; [destruct (decide (ey = -1074)) as [->|]|].
    + lia.
    + rewrite (normal_digits sy my ey Hy) in * by lia. lia.
    + rewrite (normal_digits sx mx ex Hx) in * by lia. lia.
  - apply located_exact; [lia| |apply weight_pos; [done|unfold scale; lia]].
    apply mag_mul; unfold scale; lia.
Qed.

Lemma new_location_located num w m r q :
  0 < w → 0 ≤ q → 0 ≤ r < m → num = w * (m * q + r) →
  located num (w * m) (shr_record_of_loc q (new_location m r)).
Proof.
  intros Hw Hq Hr ->.
  assert (∃ l, new_location m r = l ∧ (l = loc_Exact ↔ r = 0)) as (l & -> & Hl).
  { eexists. split; [done|]. unfold new_location, new_location_even, new_location_odd.
    destruct (Z.even m), (Z.eqb_spec r 0) as [->|]; split; done. }
  split; [by destruct l as [|[]]|]. assert (Hm : shr_m (shr_record_of_loc q l) = q) by (by destruct l as [|[]]).
  rewrite Hm. split; [nia|]. assert (shr_r (shr_record_of_loc q l) || shr_s (shr_record_of_loc q l) = false ↔ l = loc_Exact)
    as -> by (by destruct l as [|[]]).
  rewrite Hl. split; nia.
Qed.

Lemma quotient_digits a b s :
  0 < a → 0 < b → 0 ≤ s → Zdigits2 a + s - Zdigits2 b ≤ Zdigits2 (a * 2 ^ s / b).
Proof.
  intros Ha Hb Hs. pose proof (pow_pos' s Hs). pose proof (Z.div_pos (a * 2 ^ s) b ltac:(nia) Hb).
  destruct (Zdigits2_bounds a) as (Ha0 & Ha1 & Ha2); [lia|]. specialize (Ha1 Ha).
  destruct (Zdigits2_bounds b) as (Hb1 & _ & Hb2); [lia|].
  destruct (Zdigits2_bounds (a * 2 ^ s / b)) as (Hq & _ & Hq2); [done|].
  destruct (decide (Zdigits2 a + s - Zdigits2 b ≤ Zdigits2 (a * 2 ^ s / b))) as [|Hgt]; [done|]. exfalso.
  pose proof (Z.mul_succ_div_gt (a * 2 ^ s) b Hb) as Hdiv.
  assert (2 ^ Zdigits2 b * 2 ^ Zdigits2 (a * 2 ^ s / b) ≤ 2 ^ (Zdigits2 a - 1) * 2 ^ s).
  { destruct (decide (Zdigits2 a = 0)) as [Hz|]; [rewrite Hz in Ha0; simpl in Ha0; lia|].
    rewrite <- !Z.pow_add_r by lia. apply Z.pow_le_mono_r; lia. }
  nia.
Qed.

(** The quotient of the magnitudes in units is [magnitude x * 2 ^ scale / magnitude y]. *)
Lemma ddiv_rounded x y :
  valid x = true → valid y = true → isfinite x = true → isfinite y = true → magnitude y ≠ 0 →
  fits (magnitude x * 2 ^ scale) (magnitude y) →
  rounded (magnitude x * 2 ^ scale) (magnitude y) (xorb (sign x) (sign y)) (ddiv x y).
Proof.
  intros Hx Hy Hfx Hfy Hnz Hf.
  destruct x as [sx| | |sx mx ex], y as [sy| | |sy my ey]; try discriminate; try done.
  { apply rounded_zero. simpl. apply valid_spec in Hy. unfold mag.
    pose proof (pow_pos' (ey + scale) ltac:(unfold scale; lia)). nia. }
  apply valid_spec in Hx as (Hx1 & Hx2 & Hx3), Hy as (Hy1 & Hy2 & Hy3).
  unfold ddiv, SFdiv, SFdiv_core_binary.
  set (e' := Z.min _ (ex - ey)). set (s := ex - ey - e').
  assert (0 ≤ s) as Hs by lia.
  assert (-2045 ≤ e') as He' by (unfold e', fexp, emin, prec, emax; lia).
  assert (match s with 0 => Z.pos mx | Z.pos _ => Z.shiftl (Z.pos mx) s | Z.neg _ => 0 end =
    Z.pos mx * 2 ^ s) as ->.
  { destruct s; [lia|by apply Z.shiftl_mul_pow2|lia]. }
  pose proof (Z_div_mod (Z.pos mx * 2 ^ s) (Z.pos my) ltac:(lia)) as Hdm.
  pose proof (quotient_digits (Z.pos mx) (Z.pos my) s ltac:(lia) ltac:(lia) Hs) as Hq.
  unfold Z.div in Hq. destruct (Z.div_eucl (Z.pos mx * 2 ^ s) (Z.pos my)) as [q r].
  destruct Hdm as [Hdm Hr].
  assert (0 ≤ q) by (pose proof (pow_pos' s Hs); nia).
  assert (0 < mag (Z.pos my) ey).
  { unfold mag. pose proof (pow_pos' (ey + scale) ltac:(unfold scale; lia)). nia. }
  apply round_aux_rounded; [done|done|unfold scale; lia| | |done].
  - unfold exponent, fexp, emin, prec, emax in *. lia.
  - set (w := 2 ^ (ey + scale) * 2 ^ (e' + scale)).
    replace (weight (magnitude (S754_finite sy my ey)) e') with (w * Z.pos my)
      by (unfold weight, w, magnitude, mag; lia).
    apply new_location_located; [unfold w; unfold scale; lia|done|done|]. rewrite <- Hdm.
    unfold magnitude, mag, w.
    assert (2 ^ (ex + scale) * 2 ^ scale = 2 ^ (ey + scale) * 2 ^ (e' + scale) * 2 ^ s) as Hp.
    { rewrite <- !Z.pow_add_r by (unfold scale; lia). f_equal. lia. }
    transitivity (Z.pos mx * (2 ^ (ex + scale) * 2 ^ scale)); [lia|]. rewrite Hp. lia.
Qed.

Lemma iter_xO m d : Z.pos (Pos.iter xO m d) = Z.pos m * 2 ^ Z.pos d.
Proof.
  induction d as [|d IH] using Pos.peano_ind; [simpl; lia|].
  rewrite Pos.iter_succ, Pos2Z.inj_xO, IH, Pos2Z.inj_succ, Z.pow_succ_r by lia. lia.
Qed.

Lemma shl_align_spec m e e' :
  shl_align m e e' = (m, e) ∧ e ≤ e' ∨
  e' < e ∧ (shl_align m e e').2 = e' ∧ Z.pos (shl_align m e e').1 = Z.pos m * 2 ^ (e - e').
Proof.
  unfold shl_align. destruct (e' - e) as [|d|d] eqn:Hd; [left; split; [done|lia]..|right].
  split; [lia|]. split; [done|]. simpl. rewrite iter_xO. do 2 f_equal. lia.
Qed.

Lemma rounded_exact s m e :
  valid (S754_finite s m e) = true → rounded (mag (Z.pos m) e) 1 s (S754_finite s m e).
Proof. intros Hv. split; try done; simpl; lia. Qed.

Lemma normalize_rounded m e :
  -1074 ≤ e → fits (mag (Z.abs m) e) 1 →
  rounded (mag (Z.abs m) e) 1 (m <? 0) (binary_normalize prec emax m e false).
Proof.
  intros He Hf.
  assert (Hpos : ∀ s p, fits (mag (Z.pos p) e) 1 →
    rounded (mag (Z.pos p) e) 1 s (binary_round prec emax s p e)).
  { clear m Hf. intros s p Hf. unfold binary_round.
    set (x := fexp prec emax (Z.pos (digits2_pos p) + e)).
    assert (-1074 ≤ x) by (unfold x, fexp, emin, prec, emax; lia).
    change (Z.pos (digits2_pos p)) with (Zdigits2 (Z.pos p)) in x.
    destruct (Zdigits2_bounds (Z.pos p)) as (Hb1 & Hb2 & Hb3); [lia|]. specialize (Hb2 ltac:(lia)).
    destruct (shl_align_spec p e x) as [[-> Hle]|(Hlt & H2 & H1)].
    - apply round_aux_rounded; [done|lia|unfold scale; lia|done| |done].
      apply located_exact; [lia| |apply weight_pos; [done|unfold scale; lia]].
      rewrite weight_mag by done. lia.
    - destruct (shl_align p e x) as [mz ez]. simpl in H1, H2. subst ez.
      apply round_aux_rounded; [done|lia|unfold scale; lia| | |done].
      + unfold exponent. rewrite (Zdigits2_unique (Z.pos mz) (Zdigits2 (Z.pos p) + (e - x))).
        * replace (Zdigits2 (Z.pos p) + (e - x) + x) with (Zdigits2 (Z.pos p) + e) by lia. done.
        * lia.
        * rewrite H1. replace (Zdigits2 (Z.pos p) + (e - x) - 1) with (Zdigits2 (Z.pos p) - 1 + (e - x)) by lia.
          destruct (decide (Zdigits2 (Z.pos p) = 0)) as [Hz|]; [rewrite Hz in Hb1; lia|].
          rewrite !Z.pow_add_r by lia. pose proof (pow_pos' (e - x)). nia.
      + apply located_exact; [lia| |apply weight_pos; [done|unfold scale; lia]].
        rewrite weight_mag, H1 by done. rewrite <- mag_shift by (unfold scale; lia).
        replace (x + (e - x)) with e by lia. lia. }
  destruct m as [|m|m]; simpl in *; [|by apply Hpos..].
  change (mag 0 e) with 0. by apply rounded_zero.
Qed.

(** ** Rounding, with signs *)

(** [r] is [num / den], in units, rounded to nearest. *)
Record nearest (num den : Z) (r : double) : Prop := Nearest {
  nearest_valid : valid r = true;
  nearest_finite : isfinite r = true;
  nearest_above b :
    valid b = true → isfinite b = true → num ≤ den * units b → units r ≤ units b;
  nearest_below b :
    valid b = true → isfinite b = true → den * units b ≤ num → units b ≤ units r;
}.

Lemma units_magnitude x : units x = if sign x then - magnitude x else magnitude x.
Proof. by destruct x as [[]|[]| |[]]. Qed.

Lemma magnitude_nonneg x : valid x = true → 0 ≤ magnitude x.
Proof.
  destruct x as [| | |s m e]; simpl; [done..|]. intros He%bounded_spec. unfold mag.
  pose proof (pow_pos' (e + scale) ltac:(unfold scale; lia)). nia.
Qed.

Lemma rounded_nearest num den s r :
  0 < den → 0 ≤ num → rounded num den s r → nearest (if s then - num else num) den r.
Proof.
  intros Hd Hn Hr. pose proof (magnitude_nonneg r (rounded_valid _ _ _ _ Hr)) as Hs.
  assert (Hge : ∀ b, valid b = true → isfinite b = true → num ≤ den * magnitude b → magnitude r ≤ magnitude b).
  { intros [| | |sb m e] Hv Hf Hle; try done; simpl in *; [|by eapply rounded_above].
    rewrite (rounded_null _ _ _ _ Hr); lia. }
  assert (Hle : ∀ b, valid b = true → isfinite b = true → den * magnitude b ≤ num → magnitude b ≤ magnitude r).
  { intros [| | |sb m e] Hv Hf Hle; try done; simpl in *. by eapply rounded_below. }
  assert (Hz : num = 0 → magnitude r = 0) by apply Hr.
  split; [apply Hr|apply Hr|..]; intros b Hv Hf Hb; pose proof (magnitude_nonneg b Hv);
    rewrite !units_magnitude in *; rewrite (rounded_sign _ _ _ _ Hr) in *;
    specialize (Hge b Hv Hf); specialize (Hle b Hv Hf); destruct s, (sign b); nia.
Qed.

(** [fits] for what is at most a given double. *)
Lemma fits_below num den b :
  valid b = true → isfinite b = true → num ≤ den * magnitude b → 0 < den → fits num den.
Proof.
  intros Hv Hf Hle Hd. destruct b as [| | |s m e]; try done; simpl in *.
  - exists (2 ^ 52)%positive, 0. split; [done|]. change (mag (Z.pos (2 ^ 52)) 0) with (whole (2 ^ 52)).
    unfold whole, scale. lia.
  - by exists m, e.
Qed.

Lemma dmul_nearest x y b :
  valid x = true → valid y = true → isfinite x = true → isfinite y = true →
  valid b = true → isfinite b = true → magnitude x * magnitude y ≤ 2 ^ scale * magnitude b →
  nearest (units x * units y) (2 ^ scale) (dmul x y).
Proof.
  intros Hx Hy Hfx Hfy Hb Hfb Hle. pose proof (pow_pos' scale ltac:(done)) as Hp.
  pose proof (magnitude_nonneg x Hx). pose proof (magnitude_nonneg y Hy).
  replace (units x * units y)
    with (if xorb (sign x) (sign y) then - (magnitude x * magnitude y) else magnitude x * magnitude y)
    by (rewrite !units_magnitude; destruct (sign x), (sign y); simpl; lia).
  apply rounded_nearest; [done|nia|]. apply dmul_rounded; [done..|]. by eapply fits_below.
Qed.

Lemma ddiv_nearest x y b :
  valid x = true → valid y = true → isfinite x = true → isfinite y = true → 0 < units y →
  valid b = true → isfinite b = true → magnitude x * 2 ^ scale ≤ magnitude y * magnitude b →
  nearest (units x * 2 ^ scale) (units y) (ddiv x y).
Proof.
  intros Hx Hy Hfx Hfy Hpos Hb Hfb Hle. pose proof (pow_pos' scale ltac:(done)) as Hp.
  pose proof (magnitude_nonneg x Hx). pose proof (magnitude_nonneg y Hy).
  assert (units y = magnitude y) as Hu by (rewrite units_magnitude in *; destruct (sign y); lia).
  assert (sign y = false) as Hsy.
  { rewrite units_magnitude in Hpos. destruct (sign y); [lia|done]. }
  replace (units x * 2 ^ scale)
    with (if xorb (sign x) (sign y) then - (magnitude x * 2 ^ scale) else magnitude x * 2 ^ scale)
    by (rewrite Hsy, units_magnitude; destruct (sign x); simpl; lia).
  rewrite Hu in *. apply rounded_nearest; [done|nia|].
  apply ddiv_rounded; [done..|lia|]. by eapply fits_below.
Qed.

Lemma normalize_nearest m e b :
  -1074 ≤ e → valid b = true → isfinite b = true → mag (Z.abs m) e ≤ magnitude b →
  nearest (mag m e) 1 (binary_normalize prec emax m e false).
Proof.
  intros He Hb Hfb Hle. pose proof (pow_pos' (e + scale) ltac:(unfold scale; lia)).
  replace (mag m e) with (if m <? 0 then - mag (Z.abs m) e else mag (Z.abs m) e)
    by (unfold mag; destruct (Z.ltb_spec m 0); nia).
  apply rounded_nearest; [done|unfold mag; nia|].
  apply normalize_rounded; [done|]. eapply fits_below; [done..| |done]. lia.
Qed.

Lemma of_Z_nearest z b :
  valid b = true → isfinite b = true → whole (Z.abs z) ≤ magnitude b → nearest (whole z) 1 (of_Z z).
Proof. intros. by eapply (normalize_nearest z 0 b). Qed.

(** A double rounds to itself. *)
Lemma nearest_self x : valid x = true → isfinite x = true → nearest (units x) 1 x.
Proof. intros. split; [done..| |]; intros; lia. Qed.

Lemma opp_valid x : valid (SFopp x) = valid x ∧ isfinite (SFopp x) = isfinite x ∧ units (SFopp x) = - units x.
Proof. destruct x as [[]|[]| |[]]; simpl; split_and!; try done; lia. Qed.

Lemma aligned_units s m e ez :
  ez ≤ e → - scale ≤ ez →
  mag (cond_Zopp s (Z.pos (shl_align m e ez).1)) ez = units (S754_finite s m e).
Proof.
  intros He Hz. assert (mag (Z.pos (shl_align m e ez).1) ez = mag (Z.pos m) e) as Hm.
  { destruct (shl_align_spec m e ez) as [[-> ?]|(? & ? & ->)].
    - simpl. by replace e with ez by lia.
    - rewrite <- mag_shift by lia. f_equal. lia. }
  destruct s; simpl in *; rewrite <- Hm; [unfold mag; lia|done].
Qed.

Lemma dsub_nearest x y b :
  valid x = true → valid y = true → isfinite x = true → isfinite y = true →
  valid b = true → isfinite b = true → Z.abs (units x - units y) ≤ magnitude b →
  nearest (units x - units y) 1 (dsub x y).
Proof.
  intros Hx Hy Hfx Hfy Hb Hfb Hle.
  destruct x as [sx| | |sx mx ex] eqn:Ex, y as [sy| | |sy my ey] eqn:Ey; try discriminate.
  - by destruct sx, sy; apply (nearest_self (S754_zero _)).
  - destruct (opp_valid y) as (Hv & Hf & Hu). rewrite <- Ey in *.
    replace (units (S754_zero sx) - units y) with (units (SFopp y)) by (simpl; lia).
    replace (dsub (S754_zero sx) y) with (SFopp y) by (by rewrite Ey).
    apply nearest_self; congruence.
  - rewrite Z.sub_0_r. by apply nearest_self.
  - apply valid_spec in Hx as (_ & Hx & _), Hy as (_ & Hy & _).
    pose proof (aligned_units sx mx ex (Z.min ex ey) ltac:(lia) ltac:(unfold scale; lia)) as Hux.
    pose proof (aligned_units sy my ey (Z.min ex ey) ltac:(lia) ltac:(unfold scale; lia)) as Huy.
    unfold dsub, SFsub.
    set (z := cond_Zopp sx _ - cond_Zopp sy _).
    assert (mag z (Z.min ex ey) = units (S754_finite sx mx ex) - units (S754_finite sy my ey)) as <-.
    { rewrite <- Hux, <- Huy. unfold z, mag. lia. }
    apply normalize_nearest with b; [lia|done|done|].
    etrans; [|apply Hle]. rewrite <- Hux, <- Huy. unfold z, mag.
    rewrite <- Z.mul_sub_distr_r, Z.abs_mul.
    rewrite (Z.abs_eq (2 ^ _)) by (apply Z.pow_nonneg; lia). lia.
Qed.

(** ** Comparisons *)

Lemma mag_compare m1 e1 m2 e2 s1 s2 :
  valid (S754_finite s1 m1 e1) = true → valid (S754_finite s2 m2 e2) = true →
  match e1 ?= e2 with Lt => Lt | Gt => Gt | Eq => Pos.compare_cont Eq m1 m2 end =
  (mag (Z.pos m1) e1 ?= mag (Z.pos m2) e2).
Proof.
  intros (H1 & H1e & H1n)%valid_spec (H2 & H2e & H2n)%valid_spec. symmetry.
  destruct (Z.compare_spec e1 e2) as [<-|Hlt|Hgt].
  - change (Pos.compare_cont Eq m1 m2) with (Z.pos m1 ?= Z.pos m2).
    pose proof (pow_pos' (e1 + scale) ltac:(unfold scale; lia)).
    unfold mag. symmetry. apply Zmult_compare_compat_r. lia.
  - apply Z.compare_lt_iff, mag_beyond; [lia|lia|unfold scale; lia].
  - apply Z.compare_gt_iff, mag_beyond; [lia|lia|unfold scale; lia].
Qed.

Lemma mag_pos s m e : valid (S754_finite s m e) = true → 0 < mag (Z.pos m) e.
Proof.
  intros (_ & He & _)%valid_spec. unfold mag.
  pose proof (pow_pos' (e + scale) ltac:(unfold scale; lia)). nia.
Qed.

Lemma compare_units x y :
  valid x = true → valid y = true → isfinite x = true → isfinite y = true →
  SFcompare x y = Some (units x ?= units y).
Proof.
  intros Hx Hy Hfx Hfy.
  destruct x as [sx| | |sx mx ex], y as [sy| | |sy my ey]; try discriminate;
    cbn [SFcompare units]; f_equal.
  - apply mag_pos in Hy. symmetry. destruct sy; [apply Z.compare_gt_iff|apply Z.compare_lt_iff]; lia.
  - apply mag_pos in Hx. symmetry. destruct sx; [apply Z.compare_lt_iff|apply Z.compare_gt_iff]; lia.
  - pose proof (mag_pos _ _ _ Hx). pose proof (mag_pos _ _ _ Hy).
    pose proof (mag_compare _ _ _ _ _ _ Hx Hy) as Hc. destruct sx, sy.
    + rewrite Z.compare_opp, (Z.compare_antisym (mag (Z.pos mx) ex)), <- Hc.
      destruct (ex ?= ey) eqn:?; simpl; try done.
    + symmetry. apply Z.compare_lt_iff. lia.
    + symmetry. apply Z.compare_gt_iff. lia.
    + done.
Qed.

Lemma dltb_units x y :
  valid x = true → valid y = true → isfinite x = true → isfinite y = true →
  dltb x y = (units x <? units y).
Proof.
  intros. unfold dltb, SFltb. rewrite compare_units by done. unfold Z.ltb. by destruct (_ ?= _).
Qed.

Lemma dleb_units x y :
  valid x = true → valid y = true → isfinite x = true → isfinite y = true →
  dleb x y = (units x <=? units y).
Proof.
  intros. unfold dleb, SFleb. rewrite compare_units by done. unfold Z.leb. by destruct (_ ?= _).
Qed.

(** ** Integers *)

(** Every multiple of a power of two by 53 bits is a double. *)
Lemma double_exists (sg : bool) m e :
  0 < m < 2 ^ 53 → -1074 ≤ e ≤ 971 →
  ∃ b, valid b = true ∧ isfinite b = true ∧ units b = if sg then - mag m e else mag m e.
Proof.
  intros Hm He. set (d := Zdigits2 m). set (k := Z.min (53 - d) (e + 1074)).
  destruct (Zdigits2_bounds m) as (Hb1 & Hb2 & Hb3); [lia|]. specialize (Hb2 ltac:(lia)).
  fold d in Hb1, Hb2, Hb3.
  assert (0 < d) by (destruct (decide (d = 0)) as [Hd|]; [rewrite Hd in Hb1; simpl in Hb1|]; lia).
  assert (d ≤ 53).
  { destruct (decide (d ≤ 53)); [done|]. pose proof (Z.pow_le_mono_r 2 53 (d - 1)). lia. }
  pose proof (pow_pos' k ltac:(lia)).
  assert (Z.pos (Z.to_pos (m * 2 ^ k)) = m * 2 ^ k) as Hp by (apply Z2Pos.id; nia).
  exists (S754_finite sg (Z.to_pos (m * 2 ^ k)) (e - k)). split; [|split; [done|]].
  - apply valid_spec. rewrite Hp.
    assert (2 ^ d * 2 ^ k ≤ 2 ^ 53) by (rewrite <- Z.pow_add_r by lia; apply Z.pow_le_mono_r; lia).
    split_and!; [nia|lia|lia|]. intros Hlow.
    assert (2 ^ 52 = 2 ^ (d - 1) * 2 ^ k) by (rewrite <- Z.pow_add_r by lia; f_equal; lia). nia.
  - simpl. rewrite Hp. rewrite <- mag_shift by (unfold scale; lia).
    by replace (e - k + k) with e by lia.
Qed.

(** Below [2 ^ 20] doubles are closer than [2 ^ -33] to each other. *)
Lemma double_before x :
  valid x = true → 2 ^ (scale - 33) < units x → units x < whole (2 ^ 20) →
  ∃ b, valid b = true ∧ isfinite b = true ∧ units b = units x - 2 ^ (scale - 33).
Proof.
  intros Hv Hlo Hhi. pose proof (pow_pos' (scale - 33) ltac:(unfold scale; lia)).
  destruct x as [| | |[] m e]; simpl in Hlo, Hhi; try lia.
  { apply mag_pos in Hv. lia. }
  pose proof Hv as (Hm & He & Hn)%valid_spec.
  assert (e ≤ -33) as He33.
  { destruct (decide (e ≤ -33)) as [|Hgt]; [done|]. exfalso. specialize (Hn ltac:(lia)).
    assert (mag (2 ^ 52) (-32) = whole (2 ^ 20)) as Hw.
    { rewrite whole_mag. change 0 with (-32 + 32). rewrite mag_shift by (unfold scale; lia). done. }
    rewrite <- Hw in Hhi.
    destruct (decide (e = -32)) as [->|]; [apply mag_lt in Hhi; [lia|unfold scale; lia]|].
    replace e with (-32 + (e + 32)) in Hhi by lia. rewrite mag_shift in Hhi by (unfold scale; lia).
    apply mag_lt in Hhi; [|unfold scale; lia].
    assert (2 ^ 1 ≤ 2 ^ (e + 32)) by (apply Z.pow_le_mono_r; lia). nia. }
  assert (2 ^ (scale - 33) = mag (2 ^ (- 33 - e)) e) as Hp.
  { unfold mag. rewrite <- Z.pow_add_r by (unfold scale in *; lia). f_equal. lia. }
  rewrite Hp in *. apply mag_lt in Hlo; [|unfold scale; lia].
  pose proof (pow_pos' (- 33 - e) ltac:(lia)).
  destruct (double_exists false (Z.pos m - 2 ^ (- 33 - e)) e) as (b & Hb1 & Hb2 & Hb3); [lia..|].
  exists b. split_and!; [done..|]. rewrite Hb3. unfold units, mag. lia.
Qed.

(** Integers of 53 bits are doubles. *)
Lemma whole_double z :
  Z.abs z < 2 ^ 53 → ∃ b, valid b = true ∧ isfinite b = true ∧ units b = whole z.
Proof.
  intros Hz. destruct (decide (z = 0)) as [->|Hnz]; [by exists (S754_zero false)|].
  destruct (double_exists (z <? 0) (Z.abs z) 0) as (b & Hv & Hf & Hu); [lia..|].
  exists b. split_and!; [done..|]. rewrite Hu, whole_mag. unfold mag.
  destruct (Z.ltb_spec z 0); lia.
Qed.

(** So rounding does not cross them, *)
Lemma nearest_whole num den r z :
  nearest num den r → Z.abs z < 2 ^ 53 →
  (num ≤ den * whole z → units r ≤ whole z) ∧ (den * whole z ≤ num → whole z ≤ units r).
Proof.
  intros Hr (b & Hv & Hf & <-)%whole_double.
  split; [by apply (nearest_above _ _ _ Hr)|by apply (nearest_below _ _ _ Hr)].
Qed.

(** and converting them is exact. *)
Lemma of_Z_exact z :
  Z.abs z < 2 ^ 53 → valid (of_Z z) = true ∧ isfinite (of_Z z) = true ∧ units (of_Z z) = whole z.
Proof.
  intros Hz. destruct (whole_double z Hz) as (b & Hv & Hf & Hu).
  assert (nearest (whole z) 1 (of_Z z)) as Hn.
  { apply of_Z_nearest with b; [done..|]. pose proof (units_magnitude b) as Hs. rewrite Hu in Hs.
    pose proof (magnitude_nonneg b Hv). unfold whole in *. pose proof (pow_pos' scale ltac:(done)).
    destruct (sign b); nia. }
  split; [apply Hn|]. split; [apply Hn|].
  destruct (nearest_whole _ _ _ z Hn Hz) as [H1 H2]. lia.
Qed.

Lemma scale_split e : e < 0 → - scale ≤ e → 2 ^ scale = 2 ^ (- e) * 2 ^ (e + scale).
Proof. intros. rewrite <- Z.pow_add_r by lia. f_equal. lia. Qed.

Lemma trunc_units x : valid x = true → trunc x = Z.quot (units x) (2 ^ scale).
Proof.
  destruct x as [| | |s m e]; [done..|]. intros (_ & He & _)%valid_spec.
  assert (Hn : (if 0 <=? e then Z.pos m * 2 ^ e else Z.pos m / 2 ^ (- e)) = mag (Z.pos m) e / 2 ^ scale).
  { unfold mag. destruct (Z.leb_spec 0 e).
    - rewrite Z.pow_add_r by (done || unfold scale; lia). rewrite Z.mul_assoc, Z.div_mul; [done|].
      pose proof (pow_pos' scale ltac:(done)). lia.
    - rewrite (scale_split e) by (unfold scale; lia).
      rewrite Z.div_mul_cancel_r; [done|..]; apply Z.pow_nonzero; unfold scale; lia. }
  simpl. rewrite Hn. assert (0 ≤ mag (Z.pos m) e) by (unfold mag; apply Z.mul_nonneg_nonneg; [lia|by apply Z.pow_nonneg]).
  pose proof (pow_pos' scale ltac:(done)).
  destruct s; [rewrite Z.quot_opp_l by lia; f_equal|]; symmetry; apply Z.quot_div_nonneg; lia.
Qed.

Lemma ceil_Z_units x : valid x = true → ceil_Z x = - (- units x / 2 ^ scale).
Proof.
  destruct x as [| | |s m e]; [done..|]. intros (_ & He & _)%valid_spec. simpl. unfold mag.
  pose proof (pow_pos' scale ltac:(done)). destruct (Z.leb_spec 0 e).
  - rewrite Z.pow_add_r by (done || unfold scale; lia).
    destruct s; [rewrite Z.opp_involutive|]; rewrite ?Z.mul_assoc, <- ?Z.mul_opp_l, Z.div_mul by lia; lia.
  - rewrite (scale_split e) by (unfold scale; lia).
    destruct s; [rewrite Z.opp_involutive|rewrite <- Z.mul_opp_l];
      (rewrite Z.div_mul_cancel_r; [done|..]; apply Z.pow_nonzero; unfold scale; lia).
Qed.

Lemma trunc_between x a b :
  valid x = true → whole a ≤ units x ≤ whole b → a ≤ trunc x ≤ b.
Proof.
  intros Hv [Ha Hb]. rewrite trunc_units by done. pose proof (pow_pos' scale ltac:(done)) as Hp.
  unfold whole in *. split.
  - rewrite <- (Z.quot_mul a (2 ^ scale)) by lia. by apply Z.quot_le_mono.
  - rewrite <- (Z.quot_mul b (2 ^ scale)) by lia. by apply Z.quot_le_mono.
Qed.

Lemma ceil_Z_between x a b :
  valid x = true → whole a ≤ units x ≤ whole b → a ≤ ceil_Z x ≤ b.
Proof.
  intros Hv [Ha Hb]. rewrite ceil_Z_units by done. pose proof (pow_pos' scale ltac:(done)) as Hp.
  unfold whole in *. split.
  - assert (- units x / 2 ^ scale ≤ - a); [|lia].
    rewrite <- (Z.div_mul (- a) (2 ^ scale)) by lia. apply Z.div_le_mono; lia.
  - assert (- b ≤ - units x / 2 ^ scale); [|lia].
    rewrite <- (Z.div_mul (- b) (2 ^ scale)) by lia. apply Z.div_le_mono; lia.
Qed.

(** [ceil] and the conversion give the number rounded up. *)
Lemma trunc_ceil x :
  valid x = true → isfinite x = true → trunc (ceil x) = ceil_Z x ∧ isfinite (ceil x) = true.
Proof.
  intros Hv Hf. destruct x as [| | |s m e]; try done.
  unfold ceil. destruct (Z.leb_spec 0 e) as [He|He].
  { simpl. rewrite (Zle_imp_le_bool _ _ He). by destruct s. }
  destruct (Z.eqb_spec (ceil_Z (S754_finite s m e)) 0) as [->|Hnz]; [done|].
  apply valid_spec in Hv as (Hm & He' & _).
  assert (Z.abs (ceil_Z (S754_finite s m e)) < 2 ^ 53) as Hb.
  { simpl. destruct (Z.leb_spec 0 e); [lia|]. pose proof (pow_pos' (- e) ltac:(lia)).
    assert (2 ^ 1 ≤ 2 ^ (- e)) by (apply Z.pow_le_mono_r; lia).
    pose proof (Z.div_mod (Z.pos m) (2 ^ (- e)) ltac:(lia)). pose proof (Z.mod_pos_bound (Z.pos m) (2 ^ (- e))).
    pose proof (Z.div_mod (- Z.pos m) (2 ^ (- e)) ltac:(lia)). pose proof (Z.mod_pos_bound (- Z.pos m) (2 ^ (- e))).
    destruct s; nia. }
  destruct (of_Z_exact _ Hb) as (H1 & H2 & H3). split; [|done].
  rewrite trunc_units, H3 by done. unfold whole. apply Z.quot_mul. by apply Z.pow_nonzero.
Qed.

Lemma to_integer_ceil lo hi x a b :
  valid x = true → isfinite x = true → whole a ≤ units x ≤ whole b → lo ≤ a → b ≤ hi →
  to_integer lo hi (ceil x) = Some (ceil_Z x) ∧ a ≤ ceil_Z x ≤ b.
Proof.
  intros Hv Hf Hu Ha Hb. pose proof (ceil_Z_between x a b Hv Hu) as Hc.
  destruct (trunc_ceil x Hv Hf) as [Ht Hfc]. split; [|done]. unfold to_integer. rewrite Ht, Hfc.
  destruct (Z.leb_spec lo (ceil_Z x)), (Z.leb_spec (ceil_Z x) hi); simpl; [done|lia..].
Qed.

Lemma to_integer_trunc lo hi x a b :
  valid x = true → isfinite x = true → whole a ≤ units x ≤ whole b → lo ≤ a → b ≤ hi →
  to_integer lo hi x = Some (trunc x) ∧ a ≤ trunc x ≤ b.
Proof.
  intros Hv Hf Hu Ha Hb. pose proof (trunc_between x a b Hv Hu) as Hc. split; [|done].
  unfold to_integer. rewrite Hf.
  destruct (Z.leb_spec lo (trunc x)), (Z.leb_spec (trunc x) hi); simpl; [done|lia..].
Qed.

Lemma of_Z_valid z : - 2 ^ 63 ≤ z < 2 ^ 63 → valid (of_Z z) = true ∧ isfinite (of_Z z) = true.
Proof.
  intros Hz. assert (nearest (whole z) 1 (of_Z z)) as Hn; [|split; apply Hn].
  apply of_Z_nearest with (S754_finite false (2 ^ 52) 12); [done..|].
  change (magnitude (S754_finite false (2 ^ 52) 12)) with (mag (2 ^ 52) (0 + 12)).
  rewrite mag_shift, <- whole_mag by done. apply whole_le. lia.
Qed.
