(* ===== verification/Lua.v ===== *)
(** * The Lua interface

    What src/src/client/client_lua.c uses of the C API of Lua, which is not part of
    the program: a class of operations on an abstract state, and a class of laws
    that state what the reference manual says of them, through the stack of the
    running function and the contents of tables.  [plain_lua], at the end, is a
    state for which the laws hold. *)
From S2P Require Import Prelude Doubles.

(** ** Values *)

(** A table is a reference; [LOther] stands for the types that the program does not
    look into. *)
Inductive lua_value :=
| LNil
| LBoolean (b : bool)
| LInteger (z : Z)
| LNumber (x : double)
| LString (s : list Z)
| LTable (t : positive)
| LOther.

(** [LUA_MINSTACK]: the slots that a function has besides its arguments. *)
Definition LUA_MINSTACK : Z := 20.

(** ** The interface *)

(** The state [L] holds the stack of the function, first argument first, and the
    tables by integer key; the two projections occur in the laws only.  [None]
    stands for the error that Lua raises when it is out of memory. *)
Class LuaApi (L : Type) := {
  lua_stack : L → list lua_value;
  lua_table : L → positive → Z → lua_value;
  value_integer : lua_value → option Z;
  value_number : lua_value → option double;
  value_string : lua_value → option (list Z);
  lua_gettop : L → Z;
  lua_settop : Z → L → L;
  lua_isnoneornil : Z → L → bool;
  lua_isnil : Z → L → bool;
  lua_istable : Z → L → bool;
  lua_isnumber : Z → L → bool;
  lua_tointegerx : Z → L → option Z;
  lua_tonumberx : Z → L → option double;
  lua_tolstring : Z → L → option (list Z * L);
  lua_pushnil : L → L;
  lua_pushboolean : bool → L → L;
  lua_pushinteger : Z → L → L;
  lua_pushlstring : list Z → L → option L;
  lua_newtable : L → option L;
  lua_rawlen : Z → L → Z;
  lua_rawgeti : Z → Z → L → L;
  lua_rawseti : Z → Z → L → option L;
}.

(** The position an index means: from the bottom, or, if negative, from the top. *)
Definition absindex {A} (stack : list A) (i : Z) : option nat :=
  if (0 <? i) && (i <=? Z.of_nat (length stack)) then Some (Z.to_nat (i - 1))
  else if (i <? 0) && (- i <=? Z.of_nat (length stack)) then Some (Z.to_nat (Z.of_nat (length stack) + i))
  else None.

Definition index_value `{LuaApi L} (l : L) (i : Z) : option lua_value :=
  k ← absindex (lua_stack l) i; lua_stack l !! k.

Definition table_at `{LuaApi L} (l : L) (i : Z) (t : positive) : Prop :=
  index_value l i = Some (LTable t).

(** What the manual says. *)
Class LuaLaws `(api : LuaApi L) : Prop := {
  value_integer_self z : - 2 ^ 63 ≤ z < 2 ^ 63 → value_integer (LInteger z) = Some z;
  value_integer_range v z : value_integer v = Some z → - 2 ^ 63 ≤ z < 2 ^ 63;
  value_number_integer z : - 2 ^ 63 ≤ z < 2 ^ 63 → value_number (LInteger z) = Some (of_Z z);
  value_number_self x : valid x = true → value_number (LNumber x) = Some x;
  value_number_valid v x : value_number v = Some x → valid x = true;
  value_number_none v : v = LNil ∨ (∃ b, v = LBoolean b) ∨ (∃ t, v = LTable t) → value_number v = None;
  value_string_self s : value_string (LString s) = Some s;
  lua_gettop_spec l : lua_gettop l = Z.of_nat (length (lua_stack l));
  (** to a height that is not above the present one *)
  lua_settop_spec n l : 0 ≤ n ≤ lua_gettop l →
    lua_stack (lua_settop n l) = take (Z.to_nat n) (lua_stack l) ∧
    lua_table (lua_settop n l) = lua_table l;
  lua_isnoneornil_spec i l :
    lua_isnoneornil i l = true ↔ index_value l i = None ∨ index_value l i = Some LNil;
  lua_isnil_spec i l : lua_isnil i l = true ↔ index_value l i = Some LNil;
  lua_istable_spec i l : lua_istable i l = true ↔ ∃ t, table_at l i t;
  lua_isnumber_spec i l : lua_isnumber i l = true ↔ is_Some (index_value l i ≫= value_number);
  lua_tointegerx_spec i l : lua_tointegerx i l = index_value l i ≫= value_integer;
  lua_tonumberx_spec i l : lua_tonumberx i l = index_value l i ≫= value_number;
  (** a number becomes a string in place *)
  lua_tolstring_spec i l :
    match lua_tolstring i l with
    | None => True
    | Some (s, l') => ∃ k v, absindex (lua_stack l) i = Some k ∧ lua_stack l !! k = Some v ∧
        value_string v = Some s ∧ lua_stack l' = <[k := LString s]> (lua_stack l) ∧
        lua_table l' = lua_table l
    end;
  lua_pushnil_spec l :
    lua_stack (lua_pushnil l) = lua_stack l ++ [LNil] ∧ lua_table (lua_pushnil l) = lua_table l;
  lua_pushboolean_spec b l :
    lua_stack (lua_pushboolean b l) = lua_stack l ++ [LBoolean b] ∧
    lua_table (lua_pushboolean b l) = lua_table l;
  lua_pushinteger_spec z l :
    lua_stack (lua_pushinteger z l) = lua_stack l ++ [LInteger z] ∧
    lua_table (lua_pushinteger z l) = lua_table l;
  lua_pushlstring_spec s l l' : lua_pushlstring s l = Some l' →
    lua_stack l' = lua_stack l ++ [LString s] ∧ lua_table l' = lua_table l;
  (** a table that was not there before, and empty *)
  lua_newtable_spec l l' : lua_newtable l = Some l' → ∃ t,
    lua_stack l' = lua_stack l ++ [LTable t] ∧ LTable t ∉ lua_stack l ∧
    (∀ i, lua_table l' t i = LNil) ∧ (∀ u, u ≠ t → lua_table l' u = lua_table l u);
  (** a border of the table *)
  lua_rawlen_spec i l t : table_at l i t →
    0 ≤ lua_rawlen i l ∧
    (lua_rawlen i l = 0 ∨ lua_table l t (lua_rawlen i l) ≠ LNil) ∧
    lua_table l t (lua_rawlen i l + 1) = LNil;
  lua_rawgeti_spec i n l t : table_at l i t →
    lua_stack (lua_rawgeti i n l) = lua_stack l ++ [lua_table l t n] ∧
    lua_table (lua_rawgeti i n l) = lua_table l;
  (** the value is taken from the top *)
  lua_rawseti_spec i n l l' t rest v :
    lua_rawseti i n l = Some l' → table_at l i t → lua_stack l = rest ++ [v] →
    lua_stack l' = rest ∧ lua_table l' t n = v ∧
    (∀ k, k ≠ n → lua_table l' t k = lua_table l t k) ∧
    (∀ u, u ≠ t → lua_table l' u = lua_table l u);
}.

(** ** Functions that raise errors *)

(** The errors: [luaL_argerror], the messages of the program, Lua's own. *)
Inductive lua_error :=
| BadArgument (arg : Z)
| LuaError (message : string)
| UvError (result : Z)
| ConnectError (address : list Z) (port result : Z)
| InvalidMode (c : Z)
| StdinFailed (error : Z)
| NotEnoughMemory.

(** A computation that returns, or raises an error, which no C code in between
    catches. *)
Definition Raising (S A : Type) : Type := M S (lua_error + A).

#[export] Instance raising_ret S : MRet (Raising S) := λ A a s, Ret (inr a) s.
#[export] Instance raising_bind S : MBind (Raising S) := λ A B k m s,
  match m s with
  | Ret (inr a) s' => k a s'
  | Ret (inl e) s' => Ret (inl e) s'
  | Fault f => Fault f
  end.

Definition raise {S A} (e : lua_error) : Raising S A := λ s, Ret (inl e) s.

(** A computation that does not raise. *)
Definition lift {S A} (m : M S A) : Raising S A := λ s,
  match m s with Ret a s' => Ret (inr a) s' | Fault f => Fault f end.

(** [rwp m Q E s]: [m] does not fault; if it returns [Q] holds, if it raises an
    error [E]. *)
Definition rwp {S A} (m : Raising S A) (Q : A → S → Prop) (E : lua_error → S → Prop) (s : S) : Prop :=
  match m s with
  | Ret (inr a) s' => Q a s'
  | Ret (inl e) s' => E e s'
  | Fault _ => False
  end.

(** The same of a loop, which may also be out of fuel. *)
Definition rwlp {S A} (m : Raising S A) (Q : A → S → Prop) (E : lua_error → S → Prop) (s : S) : Prop :=
  match m s with
  | Ret (inr a) s' => Q a s'
  | Ret (inl e) s' => E e s'
  | Fault f => f = OutOfFuel
  end.

Section rwp.
Context {S : Type}.

Lemma rwp_ret {A} (a : A) (Q : A → S → Prop) E s : Q a s → rwp (mret a) Q E s.
Proof. done. Qed.

Lemma rwp_raise {A} e (Q : A → S → Prop) (E : lua_error → S → Prop) s : E e s → rwp (raise e) Q E s.
Proof. done. Qed.

Lemma rwp_bind {A B} (m : Raising S A) (k : A → Raising S B) Q E s :
  rwp m (λ a, rwp (k a) Q E) E s → rwp (m ≫= k) Q E s.
Proof. unfold rwp, mbind, raising_bind. by destruct (m s) as [[|]|]. Qed.

Lemma rwp_mono {A} (m : Raising S A) (P Q : A → S → Prop) (E F : lua_error → S → Prop) s :
  rwp m P E s → (∀ a s', P a s' → Q a s') → (∀ e s', E e s' → F e s') → rwp m Q F s.
Proof. unfold rwp. destruct (m s) as [[|]|]; naive_solver. Qed.

Lemma rwlp_of_rwp {A} (m : Raising S A) (Q : A → S → Prop) E s : rwp m Q E s → rwlp m Q E s.
Proof. unfold rwp, rwlp. by destruct (m s) as [[|]|]. Qed.

Lemma rwlp_mono {A} (m : Raising S A) (P Q : A → S → Prop) (E F : lua_error → S → Prop) s :
  rwlp m P E s → (∀ a s', P a s' → Q a s') → (∀ e s', E e s' → F e s') → rwlp m Q F s.
Proof. unfold rwlp. destruct (m s) as [[|]|]; naive_solver. Qed.

Lemma rwlp_bind {A B} (m : Raising S A) (k : A → Raising S B) Q E s :
  rwp m (λ a, rwlp (k a) Q E) E s → rwlp (m ≫= k) Q E s.
Proof. unfold rwp, rwlp, mbind, raising_bind. by destruct (m s) as [[|]|]. Qed.

Lemma rwp_lift {A} (m : M S A) (Q : A → S → Prop) E s : wp m Q s → rwp (lift m) Q E s.
Proof. unfold rwp, wp, lift. by destruct (m s). Qed.

Lemma rwp_if {A} (b : bool) (m n : Raising S A) Q E s :
  (b = true → rwp m Q E s) → (b = false → rwp n Q E s) → rwp (if b then m else n) Q E s.
Proof. destruct b; auto. Qed.

End rwp.

(** The type constructor is not unfolded when a monad is looked for. *)
#[global] Typeclasses Opaque Raising.

Ltac r_step :=
  lazymatch goal with
  | |- rwp (mret _) _ _ _ => apply rwp_ret
  | |- rwp (raise _) _ _ _ => apply rwp_raise
  | |- rwp (mbind _ _) _ _ _ => apply rwp_bind
  | |- rwp (if _ then _ else _) _ _ _ => apply rwp_if; intros
  end.

(** ** A state for which the laws hold *)

Record plain_state := Plain {
  pl_stack : list lua_value;
  pl_tables : gmap positive (gmap Z lua_value);
}.

Definition plain_table (l : plain_state) (t : positive) (i : Z) : lua_value :=
  default LNil (default ∅ (pl_tables l !! t) !! i).

Definition is_nil (v : lua_value) : bool := match v with LNil => true | _ => false end.

(** The first border from [n] on. *)
Fixpoint border (fuel : nat) (f : Z → lua_value) (n : Z) : Z :=
  match fuel with
  | O => n
  | S fuel => if is_nil (f (n + 1)) then n else border fuel f (n + 1)
  end.

Definition plain_value (l : plain_state) (i : Z) : option lua_value :=
  k ← absindex (pl_stack l) i; pl_stack l !! k.

Definition plain_ref (l : plain_state) (i : Z) : positive :=
  match plain_value l i with Some (LTable t) => t | _ => 1%positive end.

Definition table_ref (v : lua_value) : option positive :=
  match v with LTable t => Some t | _ => None end.

Definition in_int64 (z : Z) : bool := (- 2 ^ 63 <=? z) && (z <? 2 ^ 63).

Definition plain_integer (v : lua_value) : option Z :=
  match v with LInteger z => if in_int64 z then Some z else None | _ => None end.

Definition plain_number (v : lua_value) : option double :=
  match v with
  | LInteger z => if in_int64 z then Some (of_Z z) else None
  | LNumber x => if valid x then Some x else None
  | _ => None
  end.

Definition plain_string (v : lua_value) : option (list Z) :=
  match v with LString s => Some s | _ => None end.

Definition plain_push (v : lua_value) (l : plain_state) : plain_state :=
  Plain (pl_stack l ++ [v]) (pl_tables l).

#[export] Instance plain_lua : LuaApi plain_state := {|
  lua_stack := pl_stack;
  lua_table := plain_table;
  value_integer := plain_integer;
  value_number := plain_number;
  value_string := plain_string;
  lua_gettop l := Z.of_nat (length (pl_stack l));
  lua_settop n l := Plain (take (Z.to_nat n) (pl_stack l)) (pl_tables l);
  lua_isnoneornil i l := match plain_value l i with None => true | Some v => is_nil v end;
  lua_isnil i l := match plain_value l i with None => false | Some v => is_nil v end;
  lua_istable i l := match plain_value l i with Some (LTable _) => true | _ => false end;
  lua_isnumber i l := bool_decide (is_Some (plain_value l i ≫= plain_number));
  lua_tointegerx i l := plain_value l i ≫= plain_integer;
  lua_tonumberx i l := plain_value l i ≫= plain_number;
  lua_tolstring i l :=
    s ← plain_value l i ≫= plain_string; Some (s, l);
  lua_pushnil := plain_push LNil;
  lua_pushboolean b := plain_push (LBoolean b);
  lua_pushinteger z := plain_push (LInteger z);
  lua_pushlstring s l := Some (plain_push (LString s) l);
  lua_newtable l :=
    let t := fresh (list_to_set (omap table_ref (pl_stack l)) : gset positive) in
    Some (Plain (pl_stack l ++ [LTable t]) (<[t := ∅]> (pl_tables l)));
  lua_rawlen i l :=
    let m := default ∅ (pl_tables l !! plain_ref l i) in
    border (S (size m)) (λ k, default LNil (m !! k)) 0;
  lua_rawgeti i n l := plain_push (plain_table l (plain_ref l i) n) l;
  lua_rawseti i n l :=
    v ← last (pl_stack l);
    Some (Plain (take (length (pl_stack l) - 1) (pl_stack l))
            (partial_alter (λ m, Some (<[n := v]> (default ∅ m))) (plain_ref l i) (pl_tables l)));
|}.

Lemma border_spec (m : gmap Z lua_value) fuel n :
  0 ≤ n → Z.of_nat (size m) < n + Z.of_nat fuel →
  (∀ k, 1 ≤ k ≤ n → default LNil (m !! k) ≠ LNil) →
  let b := border fuel (λ k, default LNil (m !! k)) n in
  0 ≤ b ∧ (b = 0 ∨ default LNil (m !! b) ≠ LNil) ∧ default LNil (m !! (b + 1)) = LNil.
Proof.
  revert n. induction fuel as [|fuel IH]; intros n Hn Hlt Hfull; simpl.
  { exfalso. assert (list_to_set (seqZ 1 n) ⊆ dom m) as Hsub.
    { intros k. rewrite elem_of_list_to_set, elem_of_seqZ, elem_of_dom. intros Hk.
      specialize (Hfull k ltac:(lia)). destruct (m !! k); [eauto|done]. }
    apply subseteq_size in Hsub. rewrite size_list_to_set, length_seqZ, size_dom in Hsub by apply NoDup_seqZ.
    lia. }
  destruct (is_nil _) eqn:Hnil.
  - split; [done|]. split; [|by destruct (default LNil (m !! (n + 1)))].
    destruct (decide (n = 0)); [by left|]. right. apply Hfull. lia.
  - apply IH; [lia..|]. intros k Hk. destruct (decide (k = n + 1)) as [->|]; [|apply Hfull; lia].
    by intros E; rewrite E in Hnil.
Qed.

Lemma in_int64_spec z : in_int64 z = true ↔ - 2 ^ 63 ≤ z < 2 ^ 63.
Proof. unfold in_int64. rewrite andb_true_iff, Z.leb_le, Z.ltb_lt. done. Qed.

Lemma absindex_lt {A} (stack : list A) i k : absindex stack i = Some k → (k < length stack)%nat.
Proof. unfold absindex. repeat case_match; intros; simplify_eq/=; lia. Qed.

Lemma plain_ref_at l i t : table_at l i t → plain_ref l i = t ∧ plain_value l i = Some (LTable t).
Proof.
  intros Ht. assert (plain_value l i = Some (LTable t)) as Hv by exact Ht.
  unfold plain_ref. by rewrite Hv.
Qed.

#[export] Instance plain_lua_laws : LuaLaws plain_lua.
Proof.
  split; simpl.
  - intros z Hz%in_int64_spec. by rewrite Hz.
  - intros [] y; simpl; try done. case_match eqn:E; intros; simplify_eq. by apply in_int64_spec.
  - intros z Hz%in_int64_spec. by rewrite Hz.
  - intros x ->. done.
  - intros [] y; simpl; try done; case_match eqn:E; intros; simplify_eq; [|done].
    by apply of_Z_valid, in_int64_spec.
  - by intros v [->|[[b ->]|[t ->]]].
  - done.
  - done.
  - done.
  - intros i l. change (index_value l i) with (plain_value l i).
    destruct (plain_value l i) as [[]|]; simpl; naive_solver.
  - intros i l. change (index_value l i) with (plain_value l i).
    destruct (plain_value l i) as [[]|]; simpl; naive_solver.
  - intros i l. unfold table_at. change (index_value l i) with (plain_value l i).
    destruct (plain_value l i) as [[]|]; simpl; naive_solver.
  - intros i l. apply bool_decide_eq_true.
  - done.
  - done.
  - intros i l. unfold plain_value. destruct (absindex (pl_stack l) i) as [k|] eqn:Hk; simpl; [|done].
    destruct (pl_stack l !! k) as [v|] eqn:Hv; simpl; [|done].
    destruct v; simpl; try done. exists k, (LString s). split_and!; try done. by rewrite list_insert_id.
  - done.
  - done.
  - done.
  - by intros s l l' [= <-].
  - intros l l' [= <-]. set (t := fresh _). exists t. simpl. split_and!; [done|..].
    + intros Hin. apply (is_fresh (list_to_set (omap table_ref (pl_stack l)) : gset positive)).
      apply elem_of_list_to_set, list_elem_of_omap. by exists (LTable t).
    + intros i. unfold plain_table. simpl. by rewrite lookup_insert_eq.
    + intros u Hu. unfold plain_table. simpl. by rewrite lookup_insert_ne.
  - intros i l t [-> _]%plain_ref_at. unfold plain_table.
    apply (border_spec (default ∅ (pl_tables l !! t)) (S (size (default ∅ (pl_tables l !! t)))) 0); lia.
  - by intros i n l t [-> _]%plain_ref_at.
  - intros i n l l' t rest v Hs [Ht _]%plain_ref_at Hst. rewrite Ht, Hst, last_snoc in Hs. simpl in Hs.
    simplify_eq/=. rewrite length_app, Nat.add_sub, take_app_length. split_and!; [done|..].
    + unfold plain_table. simpl. rewrite lookup_partial_alter_eq. simpl. by rewrite lookup_insert_eq.
    + intros k Hk. unfold plain_table. simpl. rewrite lookup_partial_alter_eq. simpl. by rewrite lookup_insert_ne.
    + intros u Hu. unfold plain_table. simpl. by rewrite lookup_partial_alter_ne.
Qed.
