(* ===== verification/ClientLua.v ===== *)
(** * The Lua module of the client

    src/src/client/client_lua.c: the functions of the module client.socket, which
    take their arguments from the Lua stack, call the client's runtime and push
    results.  Lua is the interface of [Lua].  The runtime is the one of
    [ClientRuntime]: a call that blocks waits as in [ClientSend], and while the
    Lua thread is elsewhere, or waits for a revision, the thread of the runtime
    makes callbacks. *)
From S2P Require Import Prelude Doubles Lua ClientRuntime ClientInvariant ClientStart ClientStdin.

(** ** State *)

(** A call of a function of the module: Lua's state with the height to which the
    stack may grow, [context->runtime], the static state of standard input, the
    number of readings of the clock and of returns to the runtime's thread so far,
    and the arguments of [uv_sleep]. *)
Record lua_frame (L : Type) := LuaFrame {
  lc_lua : L;
  lc_limit : Z;
  lc_runtime : option skyuv_client_runtime;
  lc_stdin : stdin_input;
  lc_clock : nat;
  lc_slept : list Z;
}.
Arguments LuaFrame {L} _ _ _ _ _ _.
Arguments lc_lua {L} _.
Arguments lc_limit {L} _.
Arguments lc_runtime {L} _.
Arguments lc_stdin {L} _.
Arguments lc_clock {L} _.
Arguments lc_slept {L} _.

#[export] Instance set_lc_lua {L} : Setter (@lc_lua L) := λ f s,
  LuaFrame (f (lc_lua s)) (lc_limit s) (lc_runtime s) (lc_stdin s) (lc_clock s) (lc_slept s).
#[export] Instance set_lc_runtime {L} : Setter (@lc_runtime L) := λ f s,
  LuaFrame (lc_lua s) (lc_limit s) (f (lc_runtime s)) (lc_stdin s) (lc_clock s) (lc_slept s).
#[export] Instance set_lc_stdin {L} : Setter (@lc_stdin L) := λ f s,
  LuaFrame (lc_lua s) (lc_limit s) (lc_runtime s) (f (lc_stdin s)) (lc_clock s) (lc_slept s).
#[export] Instance set_lc_clock {L} : Setter (@lc_clock L) := λ f s,
  LuaFrame (lc_lua s) (lc_limit s) (lc_runtime s) (lc_stdin s) (f (lc_clock s)) (lc_slept s).
#[export] Instance set_lc_slept {L} : Setter (@lc_slept L) := λ f s,
  LuaFrame (lc_lua s) (lc_limit s) (lc_runtime s) (lc_stdin s) (lc_clock s) (f (lc_slept s)).

(** What the module meets: [uv_hrtime] by time; the result of
    [skyuv_client_runtime_create], which stores a runtime exactly if it is 0 (see
    [ClientStart]); the wait of a blocking call; and what the thread of the runtime
    does while the Lua thread waits, or, with [NoWait], until its next call. *)
Class LuaHost := {
  host_hrtime : nat → Z;
  host_create : nat → Z;
  host_wait : positive → C Z;
  host_idle : wait_action → C unit;
}.

(** The bytes of a C string as a string. *)
Definition to_string (bytes : list Z) : string :=
  fold_right (λ b s, String (Ascii.ascii_of_N (Z.to_N b)) s) EmptyString bytes.

(** ** Elementary actions *)

Section binding.
Context {L : Type} {api : LuaApi L} {client : ClientEnv} {stdin : StdinEnv} {host : LuaHost}.
Local Notation B := (Raising (lua_frame L)).

Definition look {A} (f : L → A) : B A := λ s, Ret (inr (f (lc_lua s))) s.

(** Lua's stack has room for 20 values more than the arguments; writing beyond is
    undefined. *)
Definition push (f : L → option L) : B unit := λ s,
  if lc_limit s <=? lua_gettop (lc_lua s) then Fault OutOfBounds
  else
    match f (lc_lua s) with
    | Some l => Ret (inr tt) (s <| lc_lua := l |>)
    | None => Ret (inl NotEnoughMemory) s
    end.

(** An operation that does not grow the stack, and may be out of memory. *)
Definition alter_lua (f : L → option L) : B unit := λ s,
  match f (lc_lua s) with
  | Some l => Ret (inr tt) (s <| lc_lua := l |>)
  | None => Ret (inl NotEnoughMemory) s
  end.

Definition luaL_checkinteger (arg : Z) : B Z := λ s,
  match lua_tointegerx arg (lc_lua s) with
  | Some z => Ret (inr z) s
  | None => Ret (inl (BadArgument arg)) s
  end.

Definition luaL_checknumber (arg : Z) : B double := λ s,
  match lua_tonumberx arg (lc_lua s) with
  | Some x => Ret (inr x) s
  | None => Ret (inl (BadArgument arg)) s
  end.

Definition luaL_optnumber (arg : Z) (d : double) : B double :=
  none ← look (lua_isnoneornil arg);
  if none : bool then mret d else luaL_checknumber arg.

Definition luaL_checklstring (arg : Z) : B (list Z) := λ s,
  match lua_tolstring arg (lc_lua s) with
  | Some (bytes, l) => Ret (inr bytes) (s <| lc_lua := l |>)
  | None => Ret (inl (BadArgument arg)) s
  end.

(** The characters before the first NUL. *)
Definition luaL_checkstring (arg : Z) : B (list Z) :=
  bytes ← luaL_checklstring arg; mret (c_string bytes).

Definition luaL_error {A} (message : string) : B A := raise (LuaError message).

Definition report {A} (result : Z) : B A := raise (UvError result).

(** A call of the runtime, before which its thread may have made callbacks; the
    result without a runtime is [null]. *)
Definition with_runtime {A} (null : A) (m : C A) : B A := λ s,
  match lc_runtime s with
  | None => Ret (inr null) s
  | Some r =>
      match (host_idle NoWait ;; m) r with
      | Ret a r' => Ret (inr a) (s <| lc_runtime := Some r' |>)
      | Fault f => Fault f
      end
  end.

Definition blocking (m : C client_outcome) : C Z := o ← m; settle host_wait o.

Definition uv_hrtime : B Z := λ s,
  Ret (inr (host_hrtime (lc_clock s))) (s <| lc_clock ::= S |>).

Definition uv_sleep (ms : Z) : B unit := λ s, Ret (inr tt) (s <| lc_slept ::= λ l, l ++ [ms] |>).

(** A conversion of C, undefined if the value does not fit. *)
Definition convert (x : option Z) : B Z := λ s,
  match x with Some z => Ret (inr z) s | None => Fault OutOfBounds end.

(** [int] arithmetic, undefined on overflow. *)
Definition add_int (a b : Z) : B Z := λ s,
  if a + b <=? INT_MAX then Ret (inr (a + b)) s else Fault OutOfBounds.

(** ** The functions *)

(** [__gc] of the userdata: the runtime is destroyed, its thread joined. *)
Definition dispose : B Z := λ s,
  match lc_runtime s with
  | None => Ret (inr 0) s
  | Some r =>
      match (host_idle NoWait ;; skyuv_client_runtime_destroy) r with
      | Ret _ _ => Ret (inr 0) (s <| lc_runtime := None |>)
      | Fault f => Fault f
      end
  end.

(** [skyuv_client_runtime_create(&context->runtime)]. *)
Definition create_runtime : B Z := λ s,
  let result := host_create (lc_clock s) in
  Ret (inr result) (s <| lc_clock ::= S |>
    <| lc_runtime := if result =? 0 then Some fresh_client else None |>).

Definition no_runtime : B bool := λ s,
  Ret (inr (match lc_runtime s with None => true | Some _ => false end)) s.

(** The id that a completed request has got. *)
Definition completed_id : C Z := gets (λ r,
  match last (cl_completed r) with Some (_, q) => rq_id q | None => 0 end).

(** The result, and the id if it is 0. *)
Definition connect_runtime (address : list Z) (port timeout_ms : Z) : C (Z * Z) :=
  result ← blocking (skyuv_client_runtime_connect_timeout (Some (to_string address)) port timeout_ms);
  id ← completed_id;
  mret (result, if result =? 0 then id else 0).

(** [seconds < 0 ? -1 : (int64_t)ceil(seconds * 1000)] *)
Definition connect_milliseconds (seconds : double) : option Z :=
  if dltb seconds (of_Z 0) then Some (-1) else to_int64 (ceil (dmul seconds (of_Z 1000))).

Definition connect_socket : B Z :=
  address ← luaL_checkstring 1;
  port ← luaL_checkinteger 2;
  seconds ← luaL_optnumber 3 (of_Z (-1));
  if (port <? 0) || (65535 <? port) || negb (isfinite seconds) || dltb (of_Z 1000000) seconds
  then luaL_error "invalid port or connect timeout"
  else
    null ← no_runtime;
    result ← (if null : bool then create_runtime else mret 0);
    r ← (if result =? 0 then
           timeout_ms ← convert (connect_milliseconds seconds);
           with_runtime (UV_EINVAL, 0) (connect_runtime address port timeout_ms)
         else mret (result, 0));
    if negb (r.1 =? 0) then raise (ConnectError address port r.1)
    else push (λ l, Some (lua_pushinteger r.2 l)) ;; mret 1.

Definition close_socket : B Z :=
  id ← luaL_checkinteger 1;
  result ← with_runtime UV_EBADF (blocking (skyuv_client_runtime_close id));
  if result =? 0 then mret 0 else report result.

Definition send_socket : B Z :=
  id ← luaL_checkinteger 1;
  data ← luaL_checklstring 2;
  result ← with_runtime UV_EINVAL (skyuv_client_runtime_send host_wait id true data);
  if result =? 0 then mret 0 else report result.

Definition recv_socket : B Z :=
  id ← luaL_checkinteger 1;
  r ← with_runtime (UV_EINVAL, []) (skyuv_client_runtime_recv id true 4096);
  if r.1 =? UV_EAGAIN then mret 0
  else if negb (r.1 =? 0) && negb (r.1 =? UV_EOF) then report r.1
  else push (lua_pushlstring r.2) ;; mret 1.

(** The loop over the characters of the mode: ['r'] is 114, ['w'] is 119. *)
Fixpoint shutdown_mode (mode : list Z) (read write : bool) : B (bool * bool) :=
  match mode with
  | [] => mret (read, write)
  | c :: mode =>
      if c =? 114 then shutdown_mode mode true write
      else if c =? 119 then shutdown_mode mode read true
      else raise (InvalidMode c)
  end.

Definition shutdown_socket : B Z :=
  id ← luaL_checkinteger 1;
  mode ← luaL_checkstring 2;
  r ← shutdown_mode mode false false;
  result ← with_runtime UV_EINVAL (blocking (skyuv_client_runtime_shutdown id r.1 r.2));
  if result =? 0 then mret 0 else report result.

(** [(unsigned int)ceil(microseconds / 1000)] *)
Definition sleep_milliseconds (microseconds : double) : option Z :=
  to_uint32 (ceil (ddiv microseconds (of_Z 1000))).

Definition sleep_socket : B Z :=
  microseconds ← luaL_checknumber 1;
  if negb (isfinite microseconds) || dltb microseconds (of_Z 0) || dltb (of_Z 1000000000) microseconds
  then luaL_error "invalid sleep duration"
  else
    ms ← convert (sleep_milliseconds microseconds);
    uv_sleep ms ;;
    mret 0.

(** An entry of a table as an id: it is pushed, converted and popped. *)
Definition entry_id (index i : Z) : B Z :=
  push (λ l, Some (lua_rawgeti index i l)) ;;
  id ← luaL_checkinteger (-1);
  alter_lua (λ l, Some (lua_settop (lua_gettop l - 1) l)) ;;
  mret id.

(** [lua_pushinteger(L, id); lua_rawseti(L, -2, ++ready);] *)
Definition add_ready (id ready : Z) : B Z :=
  push (λ l, Some (lua_pushinteger id l)) ;;
  ready ← add_int ready 1;
  alter_lua (lua_rawseti (-2) ready) ;;
  mret ready.

(** The body of the loop of [ready_table], for the entries with the given numbers;
    [ready] and [*sockets] so far. *)
Fixpoint ready_entries (index : Z) (writing : bool) (entries : list Z) (ready sockets : Z) :
    B (Z * Z) :=
  match entries with
  | [] => mret (ready, sockets)
  | i :: entries =>
      id ← entry_id index i;
      if id <? 0 then ready_entries index writing entries ready sockets
      else
        r ← with_runtime (UV_EINVAL, (false, false)) (skyuv_client_runtime_ready id);
        if negb (r.1 =? 0) then report r.1
        else if (if writing then r.2.2 else r.2.1) : bool then
          ready ← add_ready id ready;
          ready_entries index writing entries ready (u64 (sockets + 1))
        else ready_entries index writing entries ready (u64 (sockets + 1))
  end.

Definition ready_table (index : Z) (writing : bool) (sockets : Z) : B (Z * Z) :=
  count ← look (lua_rawlen index);
  push lua_newtable ;;
  ready_entries index writing (seqZ 1 count) 0 sockets.

(** [(double)(uv_hrtime() - start)] *)
Definition elapsed (start now : Z) : double := of_Z (u64 (now - start)).

(** [(double)(uv_hrtime() - start) / 1000000000.0 >= seconds] *)
Definition time_is_up (seconds : double) (start now : Z) : bool :=
  dleb seconds (ddiv (elapsed start now) (of_Z 1000000000)).

(** [(int64_t)(seconds * 1000000000.0 - (double)(uv_hrtime() - start))] *)
Definition remaining_ns (seconds : double) (start now : Z) : option Z :=
  to_int64 (dsub (dmul seconds (of_Z 1000000000)) (elapsed start now)).

(** [skyuv_client_runtime_wait], and what happens meanwhile. *)
Definition wait_runtime (revision timeout_ns : Z) : B unit := λ s,
  let action := skyuv_client_runtime_wait (cl_revision <$> lc_runtime s) revision timeout_ns in
  match lc_runtime s with
  | None =>
      match action with
      | SleepMs ms => uv_sleep ms (s <| lc_clock ::= S |>)
      | _ => Ret (inr tt) (s <| lc_clock ::= S |>)
      end
  | Some r =>
      match host_idle action r with
      | Ret _ r' => Ret (inr tt) (s <| lc_clock ::= S |> <| lc_runtime := Some r' |>)
      | Fault f => Fault f
      end
  end.

(** The passes of a turn: [ready] and [sockets]. *)
Definition select_pass (has_read has_write : bool) : B (Z * Z) :=
  read ← (if has_read then ready_table 1 false 0 else mret (0, 0));
  if has_write then
    (if has_read then mret tt else push lua_newtable) ;;
    write ← ready_table 2 true read.2;
    ready ← add_int read.1 write.1;
    mret (ready, write.2)
  else mret read.

(** The wait of a turn. *)
Definition select_wait (seconds : double) (start revision : Z) : B unit :=
  remaining ← (if dltb seconds (of_Z 0) then mret (-1)
               else now ← uv_hrtime; convert (remaining_ns seconds start now));
  let remaining := if dleb (of_Z 0) seconds && (remaining <? 0) then 0 else remaining in
  wait_runtime revision remaining.

Definition current_revision : B Z := λ s,
  Ret (inr (skyuv_client_runtime_revision (cl_revision <$> lc_runtime s))) s.

(** One turn of the loop: the number of results, or nothing if it goes on. *)
Definition select_turn (has_read has_write : bool) (seconds : double) (start arguments : Z) :
    B (option Z) :=
  revision ← current_revision;
  both ← select_pass has_read has_write;
  if negb (both.1 =? 0) then mret (Some (if has_write then 2 else 1))
  else
    alter_lua (λ l, Some (lua_settop arguments l)) ;;
    if (both.2 =? 0) && dltb seconds (of_Z 0)
    then luaL_error "no open sockets to check and no timeout set"
    else
      now ← (if dleb (of_Z 0) seconds then uv_hrtime else mret start);
      if dleb (of_Z 0) seconds && time_is_up seconds start now then
        push (λ l, Some (lua_pushboolean false l)) ;; mret (Some 1)
      else
        select_wait seconds start revision ;;
        mret None.

Fixpoint select_loop (fuel : nat) (has_read has_write : bool) (seconds : double) (start arguments : Z) :
    B Z :=
  match fuel with
  | O => lift (throw OutOfFuel)
  | S fuel =>
      turn ← select_turn has_read has_write seconds start arguments;
      match turn with
      | Some results => mret results
      | None => select_loop fuel has_read has_write seconds start arguments
      end
  end.

(** Which argument is the time-out. *)
Definition timeout_index (has_read has_write nil_2 number_3 : bool) : Z :=
  if has_read && negb has_write && nil_2 && number_3 then 3
  else if has_write then 3 else if has_read then 2 else 1.

(** The time-out, if the arguments are in order. *)
Definition select_options (has_read has_write : bool) : B double :=
  nil_2 ← look (lua_isnil 2);
  number_3 ← look (lua_isnumber 3);
  let index := timeout_index has_read has_write nil_2 number_3 in
  top ← look lua_gettop;
  if index <? top then luaL_error "invalid select options"
  else
    seconds ← luaL_optnumber index (of_Z (-1));
    if negb (isfinite seconds) || dltb (of_Z 1000000) seconds
    then luaL_error "invalid select timeout"
    else mret seconds.

Definition select_socket (fuel : nat) : B Z :=
  has_read ← look (lua_istable 1);
  has_write ← look (lua_istable 2);
  seconds ← select_options has_read has_write;
  start ← uv_hrtime;
  arguments ← look lua_gettop;
  select_loop fuel has_read has_write seconds start arguments.

(** The Lua side of [skyuv_client_readstdin] (src/src/client/client_stdin.c). *)
Definition readstdin : B Z := λ s,
  match skyuv_client_readstdin (lc_stdin s) with
  | Fault f => Fault f
  | Ret result i =>
      (match result with
       | StdinError error => raise (StdinFailed error)
       | StdinLine line => push (lua_pushlstring line) ;; mret 1
       | StdinEnd reason =>
           push (λ l, Some (lua_pushnil l)) ;;
           push (lua_pushlstring ((λ c, Z.of_N (Ascii.N_of_ascii c)) <$> String.list_ascii_of_string reason)) ;;
           mret 2
       | StdinNothing => mret 0
       end : B Z) (s <| lc_stdin := i |>)
  end.

(** ** The module *)

(** The state when [luaopen_client_socket] has run: no runtime yet. *)
Definition opened (l : L) (limit : Z) : lua_frame L := LuaFrame l limit None stdin_zero 0 [].

Inductive module_function :=
| FConnect | FSend | FRecv | FClose | FShutdown | FSelect | FSleep | FReadstdin | FDispose.

#[export] Instance module_function_eq_dec : EqDecision module_function.
Proof. solve_decision. Defined.

(** [functions] of [luaopen_client_socket]; [__gc] is not one of them. *)
Definition functions : list (string * module_function) :=
  [("connect", FConnect); ("send", FSend); ("recv", FRecv); ("close", FClose);
   ("shutdown", FShutdown); ("select", FSelect); ("poll", FSelect); ("usleep", FSleep);
   ("readstdin", FReadstdin)]%string.

Definition call_function (f : module_function) (fuel : nat) : B Z :=
  match f with
  | FConnect => connect_socket
  | FSend => send_socket
  | FRecv => recv_socket
  | FClose => close_socket
  | FShutdown => shutdown_socket
  | FSelect => select_socket fuel
  | FSleep => sleep_socket
  | FReadstdin => readstdin
  | FDispose => dispose
  end.

End binding.
