(* ===== verification/ClientLuaTimes.v ===== *)
(** * Durations of the Lua module

    The conversions of seconds and microseconds, as doubles, into the integers that
    the client and libuv take: they never leave the range of the C type, and they
    are off by less than one unit.  [units x] is the value of [x] in units of
    [2 ^ -scale], [whole n] that of an integer. *)
From S2P Require Import Prelude Doubles ClientRuntime ClientStart ClientLua.

(** A finite double of C. *)
Definition number (x : double) : Prop := valid x = true ∧ isfinite x = true.

Lemma of_Z_number z : Z.abs z < 2 ^ 53 → number (of_Z z) ∧ units (of_Z z) = whole z.
Proof. intros (? & ? & ?)%of_Z_exact. done. Qed.

Lemma dltb_number x y : number x → number y → dltb x y = (units x <? units y).
Proof. intros [] []. by apply dltb_units. Qed.

Lemma dleb_number x y : number x → number y → dleb x y = (units x <=? units y).
Proof. intros [] []. by apply dleb_units. Qed.

(** Comparison with an integer. *)
Lemma dltb_Z x z : number x → Z.abs z < 2 ^ 53 → dltb x (of_Z z) = (units x <? whole z).
Proof. intros Hx Hz. destruct (of_Z_number z Hz) as [Hn Hu]. by rewrite dltb_number, Hu. Qed.

Lemma Z_dltb x z : number x → Z.abs z < 2 ^ 53 → dltb (of_Z z) x = (whole z <? units x).
Proof. intros Hx Hz. destruct (of_Z_number z Hz) as [Hn Hu]. by rewrite dltb_number, Hu. Qed.

Lemma Z_dleb x z : number x → Z.abs z < 2 ^ 53 → dleb (of_Z z) x = (whole z <=? units x).
Proof. intros Hx Hz. destruct (of_Z_number z Hz) as [Hn Hu]. by rewrite dleb_number, Hu. Qed.

Lemma magnitude_units x : valid x = true → magnitude x = Z.abs (units x).
Proof.
  intros Hv. pose proof (magnitude_nonneg x Hv). rewrite units_magnitude. destruct (sign x); lia.
Qed.

Lemma scale_pos : 0 < 2 ^ scale.
Proof. done. Qed.

Lemma whole_nonneg z : 0 ≤ z → 0 ≤ whole z.
Proof. intros Hz. change 0 with (whole 0). by apply whole_le. Qed.

(** The product of a duration with an integer. *)
Lemma mul_nearest x n bound :
  number x → 0 ≤ units x ≤ whole bound → 0 ≤ n → 0 ≤ n * bound < 2 ^ 53 → n < 2 ^ 53 →
  nearest (units x * whole n) (2 ^ scale) (dmul x (of_Z n)).
Proof.
  intros [Hv Hf] Hx Hn Hb Hn'. pose proof scale_pos as Hp.
  destruct (of_Z_number n ltac:(lia)) as [[Hv' Hf'] Hu].
  destruct (whole_double (n * bound) ltac:(lia)) as (b & Hbv & Hbf & Hbu).
  rewrite <- Hu. eapply dmul_nearest; [done..| |].
  - exact Hbf.
  - pose proof (whole_nonneg n Hn). pose proof (whole_nonneg (n * bound) ltac:(lia)).
    rewrite !magnitude_units, Hu, Hbu, !Z.abs_eq by (assumption || lia).
    transitivity (whole bound * whole n); [nia|]. unfold whole. lia.
Qed.

(** Doubles are dense: the multiples of [2 ^ -j] below [2 ^ (53 - j)] are doubles. *)
Lemma grid_double q j :
  Z.abs q < 2 ^ 53 → 0 ≤ j ≤ 1000 → ∃ b, number b ∧ units b = q * 2 ^ (scale - j).
Proof.
  intros Hq Hj. destruct (decide (q = 0)) as [->|Hnz].
  { destruct (whole_double 0 ltac:(done)) as (b & Hv & Hf & Hu). by exists b. }
  destruct (double_exists (q <? 0) (Z.abs q) (- j)) as (b & Hv & Hf & Hu); [lia..|].
  exists b. split; [done|]. rewrite Hu. unfold mag. replace (- j + scale) with (scale - j) by lia.
  destruct (Z.ltb_spec q 0); lia.
Qed.

(** So a rounded number is less than [2 ^ -j] away. *)
Lemma nearest_close num den r j :
  nearest num den r → 0 < den → 0 ≤ j ≤ 1000 →
  - ((2 ^ 53 - 1) * (den * 2 ^ (scale - j))) ≤ num < (2 ^ 53 - 1) * (den * 2 ^ (scale - j)) →
  num - den * 2 ^ (scale - j) ≤ den * units r ≤ num + den * 2 ^ (scale - j).
Proof.
  intros Hr Hd Hj Hb. pose proof (pow_pos' (scale - j) ltac:(unfold scale; lia)) as Hu.
  remember (2 ^ (scale - j)) as u eqn:Eu.
  assert (0 < den * u) as Hw by nia. pose proof (Z.div_mod num (den * u) ltac:(lia)) as Hm.
  pose proof (Z.mod_pos_bound num (den * u) Hw) as Hmb.
  set (q := num / (den * u)) in *. set (m := num mod (den * u)) in *. clearbody q m.
  assert (- (2 ^ 53 - 1) ≤ q < 2 ^ 53 - 1) as Hq by (split; nia).
  destruct (grid_double q j ltac:(lia) Hj) as (b & [Hbv Hbf] & Hbu).
  destruct (grid_double (q + 1) j ltac:(lia) Hj) as (c & [Hcv Hcf] & Hcu).
  assert (units b ≤ units r) as H1.
  { apply (nearest_below _ _ _ Hr); [done..|]. rewrite Hbu, <-Eu. nia. }
  assert (units r ≤ units c) as H2.
  { apply (nearest_above _ _ _ Hr); [done..|]. rewrite Hcu, <-Eu. nia. }
  rewrite Hbu, <-Eu in H1. rewrite Hcu, <-Eu in H2. nia.
Qed.

(** [n] is [num / den], in units, rounded up to an integer: the least one that is
    not smaller, but for less than [2 ^ -23] that the double has lost. *)
Definition rounded_up (num den n : Z) : Prop :=
  num ≤ den * (whole n + 2 ^ (scale - 23)) ∧ ∀ k, num ≤ den * whole k → n ≤ k.

(** [n] is [num / den], in units, rounded down or up to an integer. *)
Definition adjacent (num den n : Z) : Prop :=
  ∀ k, (den * whole k ≤ num → k ≤ n) ∧ (num ≤ den * whole k → n ≤ k).

Lemma ceil_adjacent num den r bound lo hi :
  nearest num den r → 0 < den → 0 ≤ num ≤ den * whole bound → bound < 2 ^ 53 → lo ≤ 0 → bound ≤ hi →
  ∃ n, to_integer lo hi (ceil r) = Some n ∧ 0 ≤ n ≤ bound ∧ adjacent num den n ∧
    (0 < units r → 0 < n) ∧ (bound < 2 ^ 30 → rounded_up num den n).
Proof.
  intros Hr Hd [Hn1 Hn2] Hb Hlo Hhi. pose proof (nearest_valid _ _ _ Hr) as Hv.
  assert (0 ≤ bound).
  { apply whole_le. change (whole 0) with 0. nia. }
  assert (∀ k, 0 ≤ k ≤ bound → (num ≤ den * whole k → units r ≤ whole k) ∧
    (den * whole k ≤ num → whole k ≤ units r)) as Hk
    by (intros k Hk; apply (nearest_whole _ _ _ k Hr); lia).
  assert (whole 0 ≤ units r ≤ whole bound) as Hu.
  { split; [apply Hk; [lia|]|apply Hk; lia]. change (whole 0) with 0. lia. }
  destruct (to_integer_ceil lo hi r 0 bound Hv (nearest_finite _ _ _ Hr) Hu Hlo Hhi) as [-> Hc].
  assert (units r ≤ whole (ceil_Z r)) as Hup.
  { rewrite (ceil_Z_units r Hv). pose proof (Z.mul_div_le (- units r) (2 ^ scale) scale_pos).
    unfold whole. lia. }
  assert (adjacent num den (ceil_Z r)) as Hadj; [|exists (ceil_Z r); split_and!; [done|lia|lia|done| |]].
  - intros k. destruct (decide (0 ≤ k ≤ bound)) as [Hin|Hout].
    + destruct (Hk k Hin) as [Ha Hbl]. split; intros H'.
      * apply (ceil_Z_between r k bound Hv). split; [by apply Hbl|apply Hu].
      * apply (ceil_Z_between r 0 k Hv). split; [apply Hu|by apply Ha].
    + split; intros H'; [|destruct (decide (k < 0)); [|lia]].
      * destruct (decide (k < 0)); [lia|].
        assert (whole k ≤ whole bound) as H'' by nia. apply (proj1 (whole_le _ _)) in H''. lia.
      * assert (whole k < whole 0) as Hneg by (by apply whole_lt). change (whole 0) with 0 in Hneg.
        pose proof (Z.mul_pos_neg den (whole k) Hd Hneg). lia.
  - intros Hpos. destruct (decide (0 < ceil_Z r)) as [|Hz]; [done|].
    rewrite (ceil_Z_units r Hv) in Hz, Hc.
    pose proof (Z.mul_div_le (- units r) (2 ^ scale) scale_pos). pose proof scale_pos.
    assert (- units r / 2 ^ scale = 0) as E by lia. rewrite E in H0. lia.
  - intros Hb30. split; [|intros k; apply Hadj].
    assert (2 ^ scale = 2 ^ 23 * 2 ^ (scale - 23)) as Hp
      by (rewrite <- Z.pow_add_r by (unfold scale; lia); f_equal; lia).
    pose proof (pow_pos' (scale - 23) ltac:(unfold scale; lia)).
    destruct (nearest_close _ _ _ 23 Hr Hd ltac:(lia)) as [Hclose _]; [|nia].
    unfold whole in Hn2. rewrite Hp in Hn2. split; [nia|]. nia.
Qed.

(** A duration that connect and select accept and that is not negative. *)
Definition duration (x : double) : Prop := number x ∧ 0 ≤ units x ≤ whole 1000000.

Lemma mul_duration x n :
  duration x → 0 ≤ n ≤ 1000000000 →
  nearest (units x * whole n) (2 ^ scale) (dmul x (of_Z n)) ∧
  0 ≤ units x * whole n ≤ 2 ^ scale * whole (n * 1000000).
Proof.
  intros [Hn Hx] Hb. split; [by apply (mul_nearest x n 1000000); [..|lia|lia|lia]|].
  pose proof (whole_nonneg n ltac:(lia)). pose proof scale_pos.
  split; [nia|]. transitivity (whole 1000000 * whole n); [nia|]. unfold whole. lia.
Qed.

Lemma connect_milliseconds_spec x :
  duration x → ∃ ms, connect_milliseconds x = Some ms ∧ 0 ≤ ms ≤ 1000000000 ∧
    rounded_up (units x * whole 1000) (2 ^ scale) ms ∧ (0 < units x → 0 < ms).
Proof.
  intros Hd. pose proof Hd as [Hn Hx]. unfold connect_milliseconds. rewrite dltb_Z by done.
  destruct (Z.ltb_spec (units x) (whole 0)) as [Hlt|_]; [change (whole 0) with 0 in Hlt; lia|].
  destruct (mul_duration x 1000 Hd) as [Hr Hb]; [lia|].
  destruct (ceil_adjacent _ _ _ (1000 * 1000000) (- 2 ^ 63) (2 ^ 63 - 1) Hr scale_pos Hb)
    as (ms & Hms & Hrange & _ & Hpos & Hup); [lia..|].
  exists ms. split_and!; [done|lia|lia|apply Hup; lia|]. intros Hux. apply Hpos.
  apply Z.lt_le_trans with (1 := Hux). apply (nearest_below _ _ _ Hr); [apply Hn..|].
  unfold whole. pose proof scale_pos. nia.
Qed.

Lemma sleep_milliseconds_spec x :
  number x → 0 ≤ units x ≤ whole 1000000000 →
  ∃ ms, sleep_milliseconds x = Some ms ∧ 0 ≤ ms ≤ 1000000 ∧
    rounded_up (units x * 2 ^ scale) (whole 1000) ms.
Proof.
  intros [Hv Hf] Hx. unfold sleep_milliseconds. pose proof scale_pos as Hp.
  destruct (of_Z_number 1000 ltac:(lia)) as [[Hv' Hf'] Hu].
  destruct (whole_double 1000000 ltac:(lia)) as (b & Hbv & Hbf & Hbu).
  assert (whole 0 < whole 1000) as Hpos by (by apply whole_lt). change (whole 0) with 0 in Hpos.
  assert (units x * 2 ^ scale ≤ whole 1000 * whole 1000000) as Hle.
  { transitivity (whole 1000000000 * 2 ^ scale); [nia|]. unfold whole. lia. }
  assert (nearest (units x * 2 ^ scale) (whole 1000) (ddiv x (of_Z 1000))) as Hr.
  { rewrite <- Hu. eapply ddiv_nearest; [done..|by rewrite Hu|exact Hbv|done|].
    pose proof (whole_nonneg 1000000 ltac:(lia)).
    rewrite !magnitude_units, Hu, Hbu, !Z.abs_eq by (assumption || lia). lia. }
  destruct (ceil_adjacent _ _ _ 1000000 0 UINT_MAX Hr Hpos ltac:(nia))
    as (ms & Hms & Hrange & _ & _ & Hup); [lia|lia|unfold UINT_MAX; lia|].
  exists ms. split_and!; [done|lia|lia|apply Hup; lia].
Qed.

(** ** The clock *)

(** 2 to the power of 63 is a double; so is its negative. *)
Lemma max_double (sg : bool) :
  ∃ b, number b ∧ units b = whole (if sg then - 2 ^ 63 else 2 ^ 63) ∧ magnitude b = whole (2 ^ 63).
Proof.
  destruct (double_exists sg (2 ^ 52) 11) as (b & Hv & Hf & Hu); [lia..|].
  assert (mag (2 ^ 52) 11 = whole (2 ^ 63)) as Hm.
  { change 11 with (0 + 11). rewrite mag_shift by done. done. }
  rewrite Hm in Hu. pose proof (whole_nonneg (2 ^ 63) ltac:(lia)).
  exists b. split; [done|]. rewrite magnitude_units by done. rewrite Hu.
  destruct sg; unfold whole in *; split; lia.
Qed.

(** The time that has passed, as the program computes it. *)
Lemma elapsed_spec start now :
  0 ≤ start ≤ now → now < 2 ^ 63 →
  number (elapsed start now) ∧ whole 0 ≤ units (elapsed start now) ≤ whole (2 ^ 63) ∧
  (now - start < 2 ^ 53 → units (elapsed start now) = whole (now - start)) ∧
  (∀ k, 0 ≤ k < 2 ^ 53 → k ≤ now - start → whole k ≤ units (elapsed start now)).
Proof.
  intros Hs Hn. unfold elapsed. assert (u64 (now - start) = now - start) as -> by (apply uwrap_small; lia).
  destruct (max_double false) as (b & [Hv Hf] & Hu & Hm).
  assert (nearest (whole (now - start)) 1 (of_Z (now - start))) as Hr.
  { apply of_Z_nearest with b; [done..|]. rewrite Hm. apply whole_le. lia. }
  split; [split; apply Hr|]. split; [split|split].
  - apply (nearest_whole _ _ _ 0 Hr); [done|]. rewrite Z.mul_1_l. apply whole_le. lia.
  - rewrite <- Hu. apply (nearest_above _ _ _ Hr); [done..|]. rewrite Hu, Z.mul_1_l. apply whole_le. lia.
  - intros Hlt. apply of_Z_exact. lia.
  - intros k Hk Hle. apply (nearest_whole _ _ _ k Hr); [lia|]. rewrite Z.mul_1_l. by apply whole_le.
Qed.

(** Truncation loses less than one. *)
Lemma trunc_near r :
  valid r = true → whole (trunc r - 1) < units r < whole (trunc r + 1).
Proof.
  intros Hv. rewrite (trunc_units r Hv). pose proof scale_pos as Hp.
  pose proof (Z.quot_rem (units r) (2 ^ scale) ltac:(lia)) as Hq.
  pose proof (Z.rem_bound_abs (units r) (2 ^ scale) ltac:(lia)) as Hr. unfold whole. lia.
Qed.

Lemma remaining_close x t y r :
  duration x → 0 ≤ t < 2 ^ 50 →
  nearest (units x * whole 1000000000) (2 ^ scale) y → nearest (units y - whole t) 1 r →
  whole (t + trunc r - 2) < units x * 1000000000 < whole (t + trunc r + 2).
Proof.
  intros [_ Hx] Ht Hy Hr. pose proof (trunc_near r (nearest_valid _ _ _ Hr)) as Htr.
  assert (2 ^ scale = 8 * 2 ^ (scale - 3)) as Hp
    by (change 8 with (2 ^ 3); rewrite <- Z.pow_add_r by (unfold scale; lia); f_equal; lia).
  pose proof (pow_pos' (scale - 3) ltac:(unfold scale; lia)) as Hu.
  remember (2 ^ (scale - 3)) as u eqn:Eu. unfold whole in *. rewrite Hp in *.
  assert (units x * 1000000000 - u ≤ units y ≤ units x * 1000000000 + u) as Hyc.
  { pose proof (nearest_close _ _ _ 3 Hy ltac:(lia) ltac:(lia)) as Hc. rewrite <- Eu in Hc.
    assert (0 ≤ units x * u ≤ 8000000 * (u * u)) as Hxu by (split; nia).
    assert (0 < u * u) by nia. destruct Hc as [H1 H2]; [lia|].
    split; apply (Z.mul_le_mono_pos_l _ _ (8 * u)); lia. }
  pose proof (nearest_close _ _ _ 3 Hr ltac:(lia) ltac:(lia)) as Hc. rewrite <- Eu in Hc.
  assert (0 ≤ t * u ≤ (2 ^ 50 - 1) * u) as Htu by nia. destruct Hc as [H1 H2]; lia.
Qed.

Lemma remaining_ns_spec x start now :
  duration x → 0 ≤ start ≤ now → now < 2 ^ 63 →
  ∃ ns, remaining_ns x start now = Some ns ∧ - 2 ^ 63 ≤ ns ≤ 1000000000000000 ∧
    (now - start < 2 ^ 50 →
       whole (now - start + ns - 2) < units x * 1000000000 < whole (now - start + ns + 2)) ∧
    (2 ^ 50 ≤ now - start → ns < 0).
Proof.
  intros Hd Hs Hn.
  destruct (elapsed_spec start now Hs Hn) as ([Hev Hef] & [He1 He2] & Hexact & Hmin).
  destruct (mul_duration x 1000000000 Hd) as [Hr Hb]; [lia|].
  set (y := dmul x (of_Z 1000000000)) in *. set (e := elapsed start now) in *.
  assert (whole 0 ≤ units y ≤ whole 1000000000000000) as [Hy1 Hy2].
  { split; apply (nearest_whole _ _ _ _ Hr); try done; [change (whole 0) with 0; lia|].
    apply Hb. }
  destruct (max_double true) as (b & [Hbv Hbf] & Hbu & Hbm).
  assert (units b ≤ units y - units e) as Hlow.
  { rewrite Hbu. change (whole 0) with 0 in *. unfold whole in *. lia. }
  assert (units y - units e ≤ whole 1000000000000000) as Hup by (change (whole 0) with 0 in *; lia).
  assert (nearest (units y - units e) 1 (dsub y e)) as Hsub.
  { apply dsub_nearest with b; [apply Hr|done|apply Hr|done|done|done|]. rewrite Hbm.
    assert (whole 1000000000000000 ≤ whole (2 ^ 63)) by (apply whole_le; lia).
    rewrite Hbu in Hlow. unfold whole in *. lia. }
  unfold remaining_ns. fold y e. unfold to_int64.
  destruct (to_integer_trunc (- 2 ^ 63) (2 ^ 63 - 1) (dsub y e) (- 2 ^ 63) 1000000000000000)
    as [-> Ht]; [apply Hsub|apply Hsub| |lia|lia|].
  - split.
    + rewrite <- Hbu. apply (nearest_below _ _ _ Hsub); [done..|lia].
    + apply (nearest_whole _ _ _ _ Hsub); [done|lia].
  - eexists. split_and!; [done|lia|lia| |].
    + intros Hlt. rewrite (Hexact ltac:(lia)) in Hsub. by apply remaining_close with y; [|lia|..].
    + intros Hge. assert (units (dsub y e) ≤ whole (1000000000000000 - 2 ^ 50)) as Hneg.
      { apply (nearest_whole _ _ _ _ Hsub); [lia|].
        pose proof (Hmin (2 ^ 50) ltac:(lia) Hge). unfold whole in *. lia. }
      pose proof (trunc_near (dsub y e) (nearest_valid _ _ _ Hsub)) as [Htr _].
      assert (trunc (dsub y e) - 1 < 1000000000000000 - 2 ^ 50); [|lia].
      apply whole_lt. lia.
Qed.

Lemma elapsed_seconds start now :
  0 ≤ start ≤ now → now < 2 ^ 63 →
  nearest (units (elapsed start now) * 2 ^ scale) (whole 1000000000)
    (ddiv (elapsed start now) (of_Z 1000000000)).
Proof.
  intros Hs Hn. destruct (elapsed_spec start now Hs Hn) as ([Hv Hf] & [H1 H2] & _).
  destruct (of_Z_number 1000000000 ltac:(lia)) as [[Hgv Hgf] Hgu].
  destruct (max_double false) as (b & [Hbv Hbf] & _ & Hbm).
  assert (whole 0 < whole 1000000000) as Hpos by (by apply whole_lt). change (whole 0) with 0 in *.
  rewrite <- Hgu. eapply ddiv_nearest; [done..|by rewrite Hgu|exact Hbv|done|].
  rewrite Hbm, !magnitude_units, Hgu, !Z.abs_eq by (assumption || lia).
  pose proof scale_pos. transitivity (whole (2 ^ 63) * 2 ^ scale); [nia|]. unfold whole. nia.
Qed.

(** Time is up once the duration has passed, *)
Lemma time_is_up_after x start now :
  duration x → 0 ≤ start ≤ now → now < 2 ^ 63 →
  units x * 1000000000 ≤ whole (now - start) → time_is_up x start now = true.
Proof.
  intros [Hn Hx] Hs Hnow Hle. pose proof (elapsed_seconds start now Hs Hnow) as Hr.
  destruct (elapsed_spec start now Hs Hnow) as (_ & _ & He & Hmin).
  unfold time_is_up. rewrite dleb_number by (done || split; apply Hr). apply Z.leb_le.
  apply (nearest_below _ _ _ Hr); [apply Hn..|].
  assert (units x * 1000000000 ≤ units (elapsed start now)).
  { destruct (decide (now - start < 2 ^ 53)) as [Hlt|Hge]; [by rewrite He|].
    etrans; [|apply (Hmin 1000000000000000); lia]. unfold whole in *. lia. }
  unfold whole in *. pose proof scale_pos. nia.
Qed.

(** and not before, but for one nanosecond. *)
Lemma time_is_up_before x start now :
  duration x → 0 ≤ start ≤ now → now < 2 ^ 63 →
  time_is_up x start now = true → units x * 1000000000 ≤ whole (now - start + 1).
Proof.
  intros [Hn Hx] Hs Hnow Hup. pose proof (elapsed_seconds start now Hs Hnow) as Hr.
  unfold time_is_up in Hup. rewrite dleb_number in Hup by (done || split; apply Hr).
  apply Z.leb_le in Hup.
  destruct (decide (units x * 1000000000 ≤ whole (now - start + 1))) as [|Hgt]; [done|]. exfalso.
  apply Z.nle_gt in Hgt.
  assert (now - start + 1 < 1000000000000000) as Hsmall.
  { apply whole_lt. eapply Z.lt_le_trans; [exact Hgt|]. unfold whole in *. lia. }
  destruct (elapsed_spec start now Hs Hnow) as (_ & _ & He & _). rewrite He in Hr by lia.
  assert (∃ b, number b ∧ units b = units x - 2 ^ (scale - 33)) as (b & [Hbv Hbf] & Hbu).
  { destruct (double_before x) as (b & ? & ? & ?); [apply Hn|..|by exists b].
    - assert (2 ^ scale = 2 ^ 33 * 2 ^ (scale - 33)) as Hp
        by (rewrite <- Z.pow_add_r by (unfold scale; lia); f_equal; lia).
      pose proof (pow_pos' (scale - 33) ltac:(unfold scale; lia)). unfold whole in *. rewrite Hp in *. nia.
    - eapply Z.le_lt_trans; [apply Hx|]. by apply whole_lt. }
  assert (units (ddiv (elapsed start now) (of_Z 1000000000)) ≤ units b) as Hle.
  { apply (nearest_above _ _ _ Hr); [done..|]. rewrite Hbu. unfold whole in *.
    assert (2 ^ scale = 2 ^ 33 * 2 ^ (scale - 33)) as Hp by (rewrite <- Z.pow_add_r by (unfold scale; lia); f_equal; lia).
    pose proof (pow_pos' (scale - 33) ltac:(unfold scale; lia)). rewrite Hp in *. nia. }
  pose proof (pow_pos' (scale - 33) ltac:(unfold scale; lia)). lia.
Qed.
