(* ===== verification/ClientLuaSafety.v ===== *)
(** * Safety of the Lua module

    Every function of the module, called with any arguments in any state of the
    runtime, ends without undefined behaviour, unless [select] is given no bound,
    leaves the runtime in order and its results on the stack. *)
From S2P Require Import Prelude Doubles Lua ClientRuntime ClientInvariant ClientSafety ClientCalls.
From S2P Require Import ClientSend ClientStart ClientStdin StdinLines ClientReady ClientLua ClientLuaTimes.

(** What the host promises: the clock of libuv runs forward and does not wrap, a
    wait of a blocking call is one of [ClientWait], and the other thread makes
    callbacks only. *)
Class HostLaws {client : ClientEnv} (host : LuaHost) : Prop := {
  hrtime_range n : 0 ≤ host_hrtime n < 2 ^ 63;
  hrtime_mono m n : (m ≤ n)%nat → host_hrtime m ≤ host_hrtime n;
  host_wait_ok :: ClientWait host_wait;
  host_idle_ok a r : calm r → wp (host_idle a) (λ _ r', rtc client_callback_step r r') r;
}.

Ltac l_step :=
  lazymatch goal with
  | |- rwp (luaL_error _) _ _ _ => apply rwp_raise
  | |- rwp (report _) _ _ _ => apply rwp_raise
  | |- _ => r_step
  end.

Section safety.
Context {L : Type} {api : LuaApi L} {lua : LuaLaws api}.
Context {client : ClientEnv} {laws : ClientEnvLaws client} {stdin : StdinEnv}.
Context {host : LuaHost} {hlaws : HostLaws host}.
Local Notation S := (lua_frame L).
Implicit Types (s : S) (r : skyuv_client_runtime).

(** ** Predicates *)

Definition stack s : list lua_value := lua_stack (lc_lua s).

(** The runtime, if there is one, waits for calls, and the lines of standard input
    are a ring. *)
Definition quiet s : Prop :=
  (∀ r, lc_runtime s = Some r → calm r) ∧ ∃ l, ring (lc_stdin s) l.

(** Slots that are left. *)
Definition room (n : Z) s : Prop := Z.of_nat (length (stack s)) + n ≤ lc_limit s.

Definition ready_in (writing : bool) (id : Z) s : Prop :=
  ∃ r, lc_runtime s = Some r ∧ ready_for writing id r.

(** What was ready stays ready. *)
Definition later s s' : Prop := ∀ writing id, ready_in writing id s → ready_in writing id s'.

#[export] Instance later_preorder : PreOrder later.
Proof. split; [by intros s writing id|]. intros s1 s2 s3 H1 H2 writing id H. by apply H2, H1. Qed.

Lemma later_same s s' : lc_runtime s' = lc_runtime s → later s s'.
Proof. intros E writing id (r & Hr & H). exists r. by rewrite E. Qed.

(** ** Rules *)

Lemma rwp_look {A} (f : L → A) (Q : A → S → Prop) E s : Q (f (lc_lua s)) s → rwp (look f) Q E s.
Proof. done. Qed.

Lemma rwp_push f (Q : unit → S → Prop) (E : lua_error → S → Prop) s :
  room 1 s → (∀ l, f (lc_lua s) = Some l → Q tt (s <| lc_lua := l |>)) →
  (∀ e, E e s) → rwp (push f) Q E s.
Proof.
  unfold room, stack. intros Hr HQ HE. unfold rwp, push. rewrite lua_gettop_spec.
  destruct (Z.leb_spec (lc_limit s) (Z.of_nat (length (lua_stack (lc_lua s))))); [lia|].
  destruct (f (lc_lua s)); auto.
Qed.

Lemma rwp_alter f (Q : unit → S → Prop) (E : lua_error → S → Prop) s :
  (∀ l, f (lc_lua s) = Some l → Q tt (s <| lc_lua := l |>)) → (∀ e, E e s) →
  rwp (alter_lua f) Q E s.
Proof. intros HQ HE. unfold rwp, alter_lua. destruct (f (lc_lua s)); auto. Qed.

Lemma rwp_checkinteger arg (Q : Z → S → Prop) (E : lua_error → S → Prop) s :
  (∀ v z, index_value (lc_lua s) arg = Some v → value_integer v = Some z →
     - 2 ^ 63 ≤ z < 2 ^ 63 → Q z s) →
  (∀ e, E e s) → rwp (luaL_checkinteger arg) Q E s.
Proof.
  intros HQ HE. unfold rwp, luaL_checkinteger. rewrite lua_tointegerx_spec.
  destruct (index_value (lc_lua s) arg) as [v|] eqn:Hv; simpl; [|apply HE].
  destruct (value_integer v) as [z|] eqn:Hz; [|apply HE].
  eapply HQ; [done..|]. by eapply value_integer_range.
Qed.

Lemma rwp_checknumber arg (Q : double → S → Prop) (E : lua_error → S → Prop) s :
  (∀ x, valid x = true → Q x s) → (∀ e, E e s) → rwp (luaL_checknumber arg) Q E s.
Proof.
  intros HQ HE. unfold rwp, luaL_checknumber. rewrite lua_tonumberx_spec.
  destruct (index_value (lc_lua s) arg) as [v|] eqn:Hv; simpl; [|apply HE].
  destruct (value_number v) as [z|] eqn:Hz; [|apply HE].
  apply HQ. by eapply value_number_valid.
Qed.

Lemma rwp_optnumber arg d (Q : double → S → Prop) (E : lua_error → S → Prop) s :
  valid d = true → (∀ x, valid x = true → Q x s) → (∀ e, E e s) → rwp (luaL_optnumber arg d) Q E s.
Proof.
  intros Hd HQ HE. unfold luaL_optnumber. l_step. apply rwp_look. l_step; [l_step; by apply HQ|].
  by apply rwp_checknumber.
Qed.

(** The stack keeps its height. *)
Lemma rwp_checklstring arg (Q : list Z → S → Prop) (E : lua_error → S → Prop) s :
  (∀ bytes l, length (lua_stack l) = length (stack s) → Q bytes (s <| lc_lua := l |>)) →
  (∀ e, E e s) → rwp (luaL_checklstring arg) Q E s.
Proof.
  intros HQ HE. unfold rwp, luaL_checklstring. pose proof (lua_tolstring_spec arg (lc_lua s)) as H.
  destruct (lua_tolstring arg (lc_lua s)) as [[bytes l]|]; [|apply HE].
  destruct H as (k & v & _ & _ & _ & Hst & _). apply HQ. by rewrite Hst, length_insert.
Qed.

Lemma rwp_checkstring arg (Q : list Z → S → Prop) (E : lua_error → S → Prop) s :
  (∀ bytes l, length (lua_stack l) = length (stack s) → Q bytes (s <| lc_lua := l |>)) →
  (∀ e, E e s) → rwp (luaL_checkstring arg) Q E s.
Proof.
  intros HQ HE. unfold luaL_checkstring. l_step. apply rwp_checklstring; [|done].
  intros. l_step. by apply HQ.
Qed.

Lemma rwp_with_runtime {A} null (m : C A) (Q : A → S → Prop) E s :
  quiet s → (lc_runtime s = None → Q null s) →
  (∀ r0 r, lc_runtime s = Some r0 → calm r → lasting r0 r →
     wp m (λ a r', Q a (s <| lc_runtime := Some r' |>)) r) →
  rwp (with_runtime null m) Q E s.
Proof.
  intros [Hq _] HN HS. unfold rwp, with_runtime. destruct (lc_runtime s) as [r|] eqn:Hr; [|by apply HN].
  assert (wp (host_idle NoWait ;; m) (λ a r', Q a (s <| lc_runtime := Some r' |>)) r) as Hwp.
  { apply wp_bind. eapply wp_mono; [by apply host_idle_ok, Hq|]. intros [] r' Hi.
    pose proof (idle_calm _ _ Hi (Hq r eq_refl)) as [? ?]. by apply (HS r). }
  unfold wp in Hwp. by destruct ((host_idle NoWait ;; m) r).
Qed.

Lemma rwp_convert x z (Q : Z → S → Prop) E s : x = Some z → Q z s → rwp (convert x) Q E s.
Proof. by intros ->. Qed.

Lemma rwp_add_int a b (Q : Z → S → Prop) E s :
  a + b ≤ INT_MAX → Q (a + b) s → rwp (add_int a b) Q E s.
Proof. intros Hle HQ. unfold rwp, add_int. destruct (Z.leb_spec (a + b) INT_MAX); [done|lia]. Qed.

Lemma quiet_lua s l : quiet s → quiet (s <| lc_lua := l |>).
Proof. done. Qed.

Lemma quiet_runtime s r : quiet s → calm r → quiet (s <| lc_runtime := Some r |>).
Proof. intros [_ Hs] Hc. split; [|done]. simpl. by intros r' [= <-]. Qed.

Lemma blocking_calm m q r :
  wp m (answered q r) r → wp (blocking m) (λ _ r', calm r') r.
Proof.
  intros Hm. unfold blocking. apply wp_bind. eapply wp_mono; [exact Hm|].
  intros o r1 Ho. exact (settle_calm host_wait q o r r1 Ho).
Qed.

(** ** Results *)

(** What a function leaves: the values it returns on top of as many as there were
    arguments. *)
Definition results (P : list lua_value → Prop) (arguments : nat) (n : Z) s : Prop :=
  quiet s ∧ ∃ below vs, stack s = below ++ vs ∧ length below = arguments ∧
    n = Z.of_nat (length vs) ∧ P vs.

Definition returns_safely (P : list lua_value → Prop) (m : Raising S Z) : Prop :=
  ∀ s, quiet s → room LUA_MINSTACK s → rwp m (results P (length (stack s))) (λ _, quiet) s.

Lemma results_none (P : list lua_value → Prop) n s :
  P [] → quiet s → length (stack s) = n → results P n 0 s.
Proof. intros HP Hq Hn. split; [done|]. exists (stack s), []. by rewrite app_nil_r. Qed.

Lemma results_one (P : list lua_value → Prop) n v s :
  P [v] → quiet s → ∀ below, stack s = below ++ [v] → length below = n → results P n 1 s.
Proof. intros HP Hq below Hs Hn. split; [done|]. by exists below, [v]. Qed.

(** ** Connecting and closing *)

Lemma connect_runtime_calm address port timeout_ms r :
  calm r → wp (connect_runtime address port timeout_ms) (λ _ r', calm r') r.
Proof.
  intros [HI Hr]. unfold connect_runtime. apply wp_bind.
  eapply wp_mono; [by eapply blocking_calm, connect_timeout_ok|]. intros result r' Hc. done.
Qed.

(** The time-out that is handed on. *)
Lemma connect_timeout_converts x :
  valid x = true → isfinite x = true → dltb (of_Z 1000000) x = false →
  ∃ ms, connect_milliseconds x = Some ms.
Proof.
  intros Hv Hf Hmax. assert (number x) as Hn by done. rewrite Z_dltb in Hmax by done.
  apply Z.ltb_ge in Hmax. destruct (Z.ltb_spec (units x) (whole 0)) as [Hlt|Hge].
  - exists (-1). unfold connect_milliseconds. rewrite dltb_Z by done.
    by rewrite (proj2 (Z.ltb_lt _ _) Hlt).
  - destruct (connect_milliseconds_spec x) as (ms & ? & _); [|by exists ms].
    split; [done|]. change (whole 0) with 0 in Hge. lia.
Qed.

Lemma connect_safe : returns_safely (λ vs, ∃ id, vs = [LInteger id]) connect_socket.
Proof.
  intros s Hq Hroom. unfold connect_socket. l_step. apply rwp_checkstring; [|done].
  intros address l Hl. l_step. apply rwp_checkinteger; [|done]. intros _ port _ _ _.
  l_step. apply rwp_optnumber; [done| |done]. intros seconds Hsec.
  l_step; [by l_step|]. apply orb_false_iff in H as [[[_ _]%orb_false_iff Hfin]%orb_false_iff Hmax].
  apply negb_false_iff in Hfin. destruct (connect_timeout_converts _ Hsec Hfin Hmax) as [ms Hms].
  set (s1 := s <| lc_lua := l |>). assert (room LUA_MINSTACK s1) as Hroom1 by (unfold room, stack in *; simpl; lia).
  assert (length (stack s1) = length (stack s)) as Hlen by done. rewrite <- Hlen. clear Hlen.
  assert (quiet s1) as Hq1 by done. clearbody s1. clear s Hq Hroom Hl.
  l_step. eapply (rwp_mono _ (λ null s2, s2 = s1 ∧ (null = false → lc_runtime s1 ≠ None)) _ (λ _, quiet));
    [unfold rwp, no_runtime; by destruct (lc_runtime s1)| |done].
  intros null s2 [-> Hnull]. l_step.
  apply (rwp_mono _ (λ result s2, quiet s2 ∧ lc_lua s2 = lc_lua s1 ∧ lc_limit s2 = lc_limit s1) _ (λ _, quiet));
    [|clear Hq1|done].
  { destruct null; [|by l_step]. unfold rwp, create_runtime. simpl. split; [|done].
    split; [|apply Hq1]. simpl. destruct (_ =? 0); [|done]. intros r [= <-].
    split; [apply fresh_client_ok|done]. }
  intros result s2 (Hq2 & Hl2 & Hlim). l_step.
  apply (rwp_mono _ (λ _ s3, quiet s3 ∧ lc_lua s3 = lc_lua s1 ∧ lc_limit s3 = lc_limit s1) _ (λ _, quiet)); [| |done].
  { l_step; [|by l_step]. l_step. eapply rwp_convert; [exact Hms|]. apply rwp_with_runtime; [done|done|].
    intros r0 r Hr0 Hc _. eapply wp_mono; [by apply connect_runtime_calm|]. intros a r' Hc'.
    split; [by apply quiet_runtime|done]. }
  intros o s3 (Hq3 & Hl3 & Hlim3). l_step; [by l_step|]. l_step.
  apply rwp_push; [unfold room, stack, LUA_MINSTACK in *; rewrite Hl3, Hlim3; lia| |done].
  intros l' [= <-]. l_step. eapply results_one; [by eexists|done| |].
  - unfold stack. simpl. apply lua_pushinteger_spec.
  - by rewrite Hl3.
Qed.

(** A function that ends with a call of the runtime and [report]. *)
Lemma report_safe (P : list lua_value → Prop) n null (m : C Z) s :
  P [] → quiet s → length (stack s) = n → (∀ r, calm r → wp m (λ _ r', calm r') r) →
  rwp (result ← with_runtime null m; if result =? 0 then mret 0 else report result)
    (results P n) (λ _, quiet) s.
Proof.
  intros HP Hq Hn Hm. l_step. apply rwp_with_runtime; [done|..].
  - intros _. l_step; l_step; [by apply results_none|done].
  - intros r0 r Hr0 Hc _. eapply wp_mono; [by apply Hm|]. intros result r' Hc'.
    assert (quiet (s <| lc_runtime := Some r' |>)) by (by apply quiet_runtime).
    l_step; l_step; [|done]. by apply results_none.
Qed.

Lemma close_safe : returns_safely (.= []) close_socket.
Proof.
  intros s Hq _. unfold close_socket. l_step. apply rwp_checkinteger; [|done]. intros _ id _ _ _.
  apply report_safe; [done..|]. intros r [HI Hr]. by eapply blocking_calm, close_ok.
Qed.

Lemma send_safe : returns_safely (.= []) send_socket.
Proof.
  intros s Hq _. unfold send_socket. l_step. apply rwp_checkinteger; [|done]. intros _ id _ _ _.
  l_step. apply rwp_checklstring; [|done]. intros data l Hl.
  apply report_safe; [done..|]. intros r [HI Hr].
  unfold skyuv_client_runtime_send. cbn [negb andb].
  eapply wp_mono; [apply (send_loop_ok host_wait); [done|done|]|].
  - pose proof (Z.div_pos (Z.of_nat (length data)) UINT_MAX). pose proof UINT_MAX_pos. lia.
  - intros result r' (parts & wire & Hs). split; [apply Hs|apply Hs].
Qed.

Lemma shutdown_mode_same mode read write s :
  rwp (shutdown_mode mode read write) (λ _ s', s' = s) (λ _ s', s' = s) s.
Proof.
  revert read write. induction mode as [|c mode IH]; intros; simpl; [by l_step|].
  l_step; [apply IH|]. l_step; [apply IH|by l_step].
Qed.

Lemma shutdown_safe : returns_safely (.= []) shutdown_socket.
Proof.
  intros s Hq _. unfold shutdown_socket. l_step. apply rwp_checkinteger; [|done]. intros _ id _ _ _.
  l_step. apply rwp_checkstring; [|done]. intros mode l Hl. l_step.
  eapply rwp_mono; [apply shutdown_mode_same| |by intros e s' ->]. intros m s' ->.
  apply report_safe; [done..|]. intros r [HI Hr].
  by eapply blocking_calm, shutdown_ok.
Qed.

(** ** Receiving *)

Lemma recv_safe :
  returns_safely (λ vs, vs = [] ∨ ∃ b, vs = [LString b] ∧ (length b ≤ 4096)%nat) recv_socket.
Proof.
  intros s Hq Hroom. unfold recv_socket. l_step. apply rwp_checkinteger; [|done]. intros _ id _ _ _.
  l_step. eapply (rwp_mono _ (λ o s', quiet s' ∧ lc_lua s' = lc_lua s ∧ lc_limit s' = lc_limit s ∧
    (length o.2 ≤ 4096)%nat) _ (λ _, quiet)); [| |done].
  { apply rwp_with_runtime; [done|intros _; do 3 (split; [done|]); simpl; lia|].
    intros r0 r _ Hc _.
    eapply wp_mono; [by apply recv_calm|]. intros o r' [Hc' Hl].
    split; [by apply quiet_runtime|]. do 2 (split; [done|]). lia. }
  intros o s' (Hq' & Hl & Hlim & Hlen).
  l_step; [l_step; apply results_none; [by left|done|unfold stack; by rewrite Hl]|].
  l_step; [by l_step|]. l_step.
  apply rwp_push; [unfold room, stack, LUA_MINSTACK in *; rewrite Hl, Hlim; lia| |done].
  intros l Hp. l_step. apply lua_pushlstring_spec in Hp as [Hp _].
  eapply results_one; [right; by eexists|done| |].
  - unfold stack. simpl. exact Hp.
  - by rewrite Hl.
Qed.

(** ** Sleeping, standard input, the end *)

Lemma sleep_safe : returns_safely (.= []) sleep_socket.
Proof.
  intros s Hq _. unfold sleep_socket. l_step. apply rwp_checknumber; [|done]. intros x Hx.
  l_step; [by l_step|]. apply orb_false_iff in H as [[Hf Hneg]%orb_false_iff Hmax].
  apply negb_false_iff in Hf. assert (number x) as Hn by done.
  rewrite dltb_Z in Hneg by done. rewrite Z_dltb in Hmax by done.
  apply Z.ltb_ge in Hneg, Hmax. change (whole 0) with 0 in Hneg.
  destruct (sleep_milliseconds_spec x Hn ltac:(lia)) as (ms & Hms & _ & _).
  l_step. eapply rwp_convert; [exact Hms|]. l_step.
  change (rwp (mret 0) (results (.= []) (length (stack s))) (λ _ : lua_error, quiet)
    (s <| lc_slept ::= λ l, l ++ [ms] |>)). l_step.
  by apply results_none.
Qed.

Lemma readstdin_safe :
  returns_safely (λ vs, vs = [] ∨ (∃ b, vs = [LString b]) ∨ ∃ b, vs = [LNil; LString b]) readstdin.
Proof.
  intros s Hq Hroom. unfold readstdin.
  assert (wp skyuv_client_readstdin (λ _ i, ∃ l, ring i l) (lc_stdin s)) as Hwp.
  { pose proof Hq as [_ [l Hl]]. destruct (decide (in_init_error (lc_stdin s) = 0)) as [E|E].
    - eapply wp_mono; [by apply readstdin_ring|]. intros r i' [Hr _]. eauto.
    - unfold skyuv_client_readstdin. apply wp_bind, wp_gets.
      rewrite (proj2 (Z.eqb_neq _ _) E). apply wp_ret. eauto. }
  unfold wp in Hwp. unfold rwp. destruct (skyuv_client_readstdin (lc_stdin s)) as [o i|]; [|done].
  set (s1 := s <| lc_stdin := i |>). assert (quiet s1) as Hq1 by (split; [apply Hq|exact Hwp]).
  assert (room LUA_MINSTACK s1) as Hr1 by exact Hroom.
  change (length (stack s)) with (length (stack s1)). clearbody s1. clear s Hq Hroom Hwp.
  match goal with |- match ?m s1 with _ => _ end => change (rwp m
    (results (λ vs, vs = [] ∨ (∃ b, vs = [LString b]) ∨ ∃ b, vs = [LNil; LString b])
      (length (stack s1))) (λ _, quiet) s1) end.
  destruct o as [error|line|reason|]; [by l_step|..|l_step; apply results_none; [by left|done|done]].
  - l_step. apply rwp_push; [unfold room, LUA_MINSTACK in *; lia| |done]. intros l Hp. l_step.
    apply lua_pushlstring_spec in Hp as [Hp _].
    eapply results_one; [right; left; by eexists|done| |done]. exact Hp.
  - l_step. apply rwp_push; [unfold room, LUA_MINSTACK in *; lia| |done]. intros l [= <-].
    destruct (lua_pushnil_spec (lc_lua s1)) as [Hn _].
    l_step. apply rwp_push; [unfold room, stack, LUA_MINSTACK in *; simpl; rewrite Hn, length_app; simpl; lia| |done].
    intros l Hp. apply lua_pushlstring_spec in Hp as [Hp _]. l_step. split; [done|].
    eexists (stack s1), [LNil; LString _]. split_and!; [|done|done|right; right; by eexists].
    unfold stack. simpl. rewrite Hp. simpl. rewrite Hn, <- app_assoc. done.
Qed.

Lemma dispose_safe : returns_safely (.= []) dispose.
Proof.
  intros s [Hq Hs] _. unfold rwp, dispose. destruct (lc_runtime s) as [r|] eqn:Hr.
  - specialize (Hq r eq_refl). assert (wp (host_idle NoWait ;; skyuv_client_runtime_destroy) (λ _ _, True) r) as Hwp.
    { apply wp_bind. eapply wp_mono; [by apply host_idle_ok|]. intros [] r' Hi.
      pose proof (idle_calm _ _ Hi Hq) as [[HI Hrd] _]. eapply wp_mono; [by apply destroy_ok|done]. }
    unfold wp in Hwp. destruct ((host_idle NoWait ;; skyuv_client_runtime_destroy) r); [|done].
    by apply results_none.
  - apply results_none; [done| |done]. split; [by rewrite Hr|done].
Qed.

End safety.
