(* ===== verification/ClientLuaSelect.v ===== *)
(** * Select

    What [select] of the Lua module reports: exactly sockets that are ready, every
    socket that was ready when it was called, and the end of the time not early.
    The tables that it is given may have holes: Lua's length is then one of several
    borders, and a hole below it raises an error. *)
From S2P Require Import Prelude Doubles Lua ClientRuntime ClientInvariant ClientSafety ClientCalls.
From S2P Require Import ClientSend ClientStart ClientStdin StdinLines ClientReady ClientLua ClientLuaTimes.
From S2P Require Import ClientLuaSafety.

Section select.
Context {L : Type} {api : LuaApi L} {lua : LuaLaws api}.
Context {client : ClientEnv} {laws : ClientEnvLaws client} {stdin : StdinEnv}.
Context {host : LuaHost} {hlaws : HostLaws host}.
Local Notation S := (lua_frame L).
Implicit Types (s : S) (r : skyuv_client_runtime) (t u : positive) (vs : list lua_value).

(** ** The stack and tables *)

(** The table holds these values at 1, 2, ... and no others. *)
Definition contains (tab : Z → lua_value) vs : Prop :=
  ∀ k, tab k = if 0 <? k then default LNil (vs !! Z.to_nat (k - 1)) else LNil.

(** It holds these values at 1, 2, ... and none at higher numbers. *)
Definition holds (tab : Z → lua_value) vs : Prop :=
  ∀ k, 0 < k → tab k = default LNil (vs !! Z.to_nat (k - 1)).

Lemma index_base l base rest i v :
  lua_stack l = base ++ rest → 0 < i → base !! Z.to_nat (i - 1) = Some v → index_value l i = Some v.
Proof.
  intros Hs Hi Hv. unfold index_value, absindex. rewrite Hs.
  pose proof (lookup_lt_Some _ _ _ Hv). rewrite length_app.
  destruct (Z.ltb_spec 0 i); [|lia].
  destruct (Z.leb_spec i (Z.of_nat (length base + length rest))); [|lia]. simpl.
  by apply lookup_app_l_Some.
Qed.

Lemma index_top l base v rest i :
  lua_stack l = base ++ v :: rest → i = - Z.of_nat (length (v :: rest)) → index_value l i = Some v.
Proof.
  intros Hs ->. unfold index_value, absindex. rewrite Hs, length_app.
  destruct (Z.ltb_spec 0 (- Z.of_nat (length (v :: rest)))); [simpl in *; lia|]. cbn [andb].
  destruct (Z.ltb_spec (- Z.of_nat (length (v :: rest))) 0); [|simpl in *; lia].
  destruct (Z.leb_spec (- - Z.of_nat (length (v :: rest))) (Z.of_nat (length base + length (v :: rest))));
    [|lia]. simpl.
  rewrite lookup_app_r by lia. by replace (_ - length base)%nat with 0%nat by (simpl; lia).
Qed.

(** A border is not beyond the last value, and of a sequence it is the length. *)
Lemma border l i t vs :
  table_at l i t → holds (lua_table l t) vs →
  0 ≤ lua_rawlen i l ≤ Z.of_nat (length vs) ∧
  (LNil ∉ vs → lua_rawlen i l = Z.of_nat (length vs)).
Proof.
  intros Ht Hc. destruct (lua_rawlen_spec i l t Ht) as (Hpos & Hb & Hnil).
  set (n := lua_rawlen i l) in *.
  assert (n ≤ Z.of_nat (length vs)) as Hle.
  { destruct (decide (n = 0)) as [->|]; [lia|]. destruct Hb as [|Hb]; [lia|].
    rewrite Hc in Hb by lia. destruct (vs !! Z.to_nat (n - 1)) eqn:Hv; [|done].
    apply lookup_lt_Some in Hv. lia. }
  split; [done|]. intros Hn. rewrite Hc in Hnil by lia.
  destruct (decide (n = Z.of_nat (length vs))) as [|Hne]; [done|]. exfalso. apply Hn.
  replace (Z.to_nat (n + 1 - 1)) with (Z.to_nat n) in Hnil by lia.
  destruct (lookup_lt_is_Some_2 vs (Z.to_nat n)) as [v Hv]; [lia|].
  rewrite Hv in Hnil. simpl in Hnil. subst v. by eapply list_elem_of_lookup_2.
Qed.

(** ** One pass over a table *)

(** Nothing but the runtime's readiness, which grows, and Lua's state changed. *)
Record kept s s' : Prop := Kept {
  kept_quiet : quiet s';
  kept_later : later s s';
  kept_limit : lc_limit s' = lc_limit s;
  kept_clock : lc_clock s' = lc_clock s;
}.

Lemma kept_refl s : quiet s → kept s s.
Proof. by split. Qed.

Lemma kept_trans s1 s2 s3 : kept s1 s2 → kept s2 s3 → kept s1 s3.
Proof. intros [? ? ? ?] [? ? ? ?]. split; [done|by etrans|congruence|congruence]. Qed.

Lemma kept_lua s s' l : kept s s' → kept s (s' <| lc_lua := l |>).
Proof. by intros [? ? ? ?]. Qed.

(** The ids that a list of values stands for. *)
Definition stands_for vs (id : Z) : Prop := 0 ≤ id ∧ ∃ v, v ∈ vs ∧ value_integer v = Some id.

(** What a pass over the values [vs] finds, from [s] to [s']. *)
Record found (writing : bool) vs (ids : list Z) s s' : Prop := Found {
  found_ready id : id ∈ ids → stands_for vs id ∧ ready_in writing id s';
  found_all id : stands_for vs id → ready_in writing id s → id ∈ ids;
}.

(** What a pass over a table with the values [vs] finds; it goes over all of a
    sequence. *)
Record found_in (writing : bool) vs (ids : list Z) s s' : Prop := FoundIn {
  in_ready id : id ∈ ids → stands_for vs id ∧ ready_in writing id s';
  in_all id : LNil ∉ vs → stands_for vs id → ready_in writing id s → id ∈ ids;
}.

Lemma found_take writing vs n ids s0 s s' :
  later s0 s → (LNil ∉ vs → n = length vs) →
  found writing (take n vs) ids s s' → found_in writing vs ids s0 s'.
Proof.
  intros Hl Hn [Hr Ha]. split.
  - intros id Hid. destruct (Hr id Hid) as [[Hp (v & Hv & Hi)] Hrd]. split; [|done].
    split; [done|]. exists v. split; [|done]. eapply elem_of_take in Hv as (k & Hk & _).
    by eapply list_elem_of_lookup_2.
  - intros id Hseq Hid Hrd. apply Ha; [|by apply Hl]. by rewrite (Hn Hseq), firstn_all.
Qed.

Lemma found_nil writing s : found writing [] [] s s.
Proof. split; [by intros id ?%elem_of_nil|]. by intros id (_ & v & ?%elem_of_nil & _). Qed.

Lemma found_cons writing v vs ids ids0 s s1 s' :
  later s s1 → later s1 s' → found writing vs ids s1 s' →
  (∀ id, value_integer v = Some id → 0 ≤ id →
     (id ∈ ids0 ∧ ready_in writing id s1) ∨ ¬ ready_in writing id s1) →
  (∀ id, id ∈ ids0 → value_integer v = Some id ∧ 0 ≤ id ∧ ready_in writing id s1) →
  found writing (v :: vs) (ids0 ++ ids) s s'.
Proof.
  intros H1 H2 [Hr Ha] Hv H0. split.
  - intros id [Hid|Hid]%elem_of_app.
    + destruct (H0 id Hid) as (Hi & Hp & Hrd). split; [|by apply H2].
      split; [done|]. exists v. split; [set_solver|done].
    + destruct (Hr id Hid) as [[Hp (v' & Hin & Hi)] Hrd]. split; [|done].
      split; [done|]. exists v'. split; [set_solver|done].
  - intros id (Hp & v' & [->|Hin]%elem_of_cons & Hi) Hrd; apply elem_of_app.
    + left. destruct (Hv id Hi Hp) as [[? _]|Hno]; [done|]. destruct Hno. by apply H1.
    + right. apply Ha; [by split; [|exists v']|by apply H1].
Qed.

(** The value at the number that comes next. *)
Lemma holds_next tab vs k v rest :
  holds tab vs → 0 ≤ k → drop (Z.to_nat k) vs = v :: rest → tab (k + 1) = v.
Proof.
  intros Hc Hk Hd. rewrite Hc by lia.
  replace (k + 1 - 1) with k by lia.
  assert (vs !! Z.to_nat k = Some v) as ->; [|done].
  rewrite <- (Nat.add_0_r (Z.to_nat k)), <- lookup_drop, Hd. done.
Qed.

Lemma contains_insert tab tab' ids id n :
  contains tab (LInteger <$> ids) → n = Z.of_nat (length ids) + 1 → tab' n = LInteger id →
  (∀ k, k ≠ n → tab' k = tab k) → contains tab' (LInteger <$> (ids ++ [id])).
Proof.
  intros Hc -> Hn Hk k. destruct (decide (k = Z.of_nat (length ids) + 1)) as [->|Hne].
  - rewrite Hn. destruct (Z.ltb_spec 0 (Z.of_nat (length ids) + 1)); [|lia].
    replace (Z.to_nat _) with (length ids) by lia.
    by rewrite list_lookup_fmap, list_lookup_middle.
  - rewrite Hk, Hc by done. destruct (Z.ltb_spec 0 k); [|done].
    rewrite !list_lookup_fmap. destruct (decide (Z.to_nat (k - 1) < length ids)%nat) as [Hlt|Hge].
    + by rewrite lookup_app_l.
    + rewrite (lookup_ge_None_2 ids), (lookup_ge_None_2 (ids ++ [id])); [done| |lia].
      rewrite length_app. simpl. lia.
Qed.

(** The state in a pass: the result [t] on top, the argument [u] below. *)
Record passing (i : Z) u t (base : list lua_value) (tab : Z → lua_value) (ids : list Z) s : Prop := Passing {
  pa_quiet : quiet s;
  pa_room : room 1 s;
  pa_stack : stack s = base ++ [LTable t];
  pa_index : 0 < i;
  pa_argument : base !! Z.to_nat (i - 1) = Some (LTable u);
  pa_other : u ≠ t;
  pa_values : lua_table (lc_lua s) u = tab;
  pa_found : contains (lua_table (lc_lua s) t) (LInteger <$> ids);
}.

(** The next value is looked at and taken from the stack again. *)
Lemma entry_value i u t base tab ids k s (Q : Z → S → Prop) :
  passing i u t base tab ids s →
  (∀ id l, value_integer (tab k) = Some id → lua_stack l = stack s →
     lua_table l = lua_table (lc_lua s) → Q id (s <| lc_lua := l |>)) →
  rwp (entry_id i k) Q (λ _, quiet) s.
Proof.
  intros [Hq Hroom Hst Hi Harg Hne Htab Hids] HQ. unfold entry_id.
  assert (table_at (lc_lua s) i u) as Hat by (by eapply index_base).
  destruct (lua_rawgeti_spec i k (lc_lua s) u Hat) as [Hg1 Hg2]. rewrite Htab in Hg1.
  l_step. apply rwp_push; [done| |done]. intros l [= <-]. l_step.
  apply rwp_checkinteger; [|done]. intros v id Hv Hid _.
  assert (v = tab k) as ->.
  { pose proof (index_top (lua_rawgeti i k (lc_lua s)) (lua_stack (lc_lua s)) (tab k) [] (-1) Hg1 eq_refl) as Hx.
    simpl in Hv. rewrite Hx in Hv. by simplify_eq. }
  l_step. apply rwp_alter; [|done]. intros l [= <-]. l_step. simpl.
  destruct (lua_settop_spec (lua_gettop (lua_rawgeti i k (lc_lua s)) - 1) (lua_rawgeti i k (lc_lua s)))
    as [Hs1 Hs2].
  { rewrite lua_gettop_spec, Hg1, length_app. simpl. lia. }
  apply HQ; [done| |by rewrite Hs2].
  rewrite Hs1, lua_gettop_spec, Hg1, length_app. simpl.
  replace (Z.to_nat _) with (length (lua_stack (lc_lua s))) by lia. apply take_app_length.
Qed.

(** A socket that is ready is added to the result. *)
Lemma entry_add i u t base tab ids id s (Q : Z → S → Prop) :
  passing i u t base tab ids s → Z.of_nat (length ids) + 1 ≤ INT_MAX →
  (∀ s', passing i u t base tab (ids ++ [id]) s' → kept s s' →
     (∀ x, x ≠ t → lua_table (lc_lua s') x = lua_table (lc_lua s) x) →
     lc_runtime s' = lc_runtime s → Q (Z.of_nat (length (ids ++ [id]))) s') →
  rwp (add_ready id (Z.of_nat (length ids))) Q (λ _, quiet) s.
Proof.
  intros [Hq Hroom Hst Hi Harg Hne Htab Hids] Hmax HQ. unfold add_ready.
  l_step. apply rwp_push; [done| |done]. intros l [= <-].
  destruct (lua_pushinteger_spec id (lc_lua s)) as [Hp1 Hp2].
  l_step. apply rwp_add_int; [done|]. l_step. apply rwp_alter; [|done]. simpl. intros l Hl. l_step.
  assert (table_at (lua_pushinteger id (lc_lua s)) (-2) t) as Hat.
  { eapply index_top; [|by instantiate (1 := [LInteger id])]. rewrite Hp1. unfold stack in Hst.
    by rewrite Hst, <- app_assoc. }
  destruct (lua_rawseti_spec _ _ _ _ _ _ _ Hl Hat Hp1) as (H1 & H2 & H3 & H4). rewrite Hp2 in H3, H4.
  replace (Z.of_nat (length ids) + 1) with (Z.of_nat (length (ids ++ [id])))
    by (rewrite length_app; simpl; lia).
  apply HQ; simpl.
  - split; simpl; try done.
    + unfold room, stack in *. simpl. by rewrite H1.
    + unfold stack. simpl. by rewrite H1.
    + by rewrite H4.
    + by eapply contains_insert.
  - split; [done|by apply later_same|done|done].
  - intros x Hx. by rewrite H4.
  - done.
Qed.

(** The count of a pass is an int: with INT_MAX sockets in the result the next one
    overflows it. *)
Lemma ready_overflow id s : room 1 s → add_ready id INT_MAX s = Fault OutOfBounds.
Proof.
  intros Hroom. unfold add_ready, mbind, raising_bind, push. rewrite lua_gettop_spec.
  unfold room, stack in Hroom.
  destruct (Z.leb_spec (lc_limit s) (Z.of_nat (length (lua_stack (lc_lua s))))); [lia|done].
Qed.

(** From [s] to [s'] a pass has gone over [vs] and added what it found to [ids]. *)
Definition passed (i : Z) (writing : bool) u t base tab (ids : list Z) vs s (n : Z) s' : Prop :=
  ∃ more, n = Z.of_nat (length (ids ++ more)) ∧ passing i u t base tab (ids ++ more) s' ∧
    kept s s' ∧ (∀ x, x ≠ t → lua_table (lc_lua s') x = lua_table (lc_lua s) x) ∧
    found writing vs more s s' ∧ (length more ≤ length vs)%nat.

(** After one entry: [new] is its id, if it is ready. *)
Record entered (i : Z) (writing : bool) u t base tab (ids : list Z) (v : lua_value) (new : list Z) s s1 : Prop := Entered {
  en_passing : passing i u t base tab (ids ++ new) s1;
  en_kept : kept s s1;
  en_length : (length new ≤ 1)%nat;
  en_tables x : x ≠ t → lua_table (lc_lua s1) x = lua_table (lc_lua s) x;
  en_all id : value_integer v = Some id → 0 ≤ id →
    (id ∈ new ∧ ready_in writing id s1) ∨ ¬ ready_in writing id s1;
  en_ready id : id ∈ new → value_integer v = Some id ∧ 0 ≤ id ∧ ready_in writing id s1;
}.

Lemma passed_cons i writing u t base tab ids v new vs s s1 n s' :
  entered i writing u t base tab ids v new s s1 →
  passed i writing u t base tab (ids ++ new) vs s1 n s' →
  passed i writing u t base tab ids (v :: vs) s n s'.
Proof.
  intros [Hpa Hk Hlen Hx Hall Hrd] (more & Ho & Hpa' & Hk' & Hx' & Hf' & Hl').
  rewrite <- app_assoc in Ho, Hpa'. exists (new ++ more). split_and!; try done.
  - by eapply kept_trans.
  - intros x Hne. by rewrite Hx', Hx.
  - eapply found_cons; [apply Hk|apply Hk'|done|done|done].
  - rewrite length_app. simpl. lia.
Qed.

Lemma entered_none i writing u t base tab ids v s s1 :
  passing i u t base tab ids s1 → kept s s1 →
  (∀ x, x ≠ t → lua_table (lc_lua s1) x = lua_table (lc_lua s) x) →
  (∀ id, value_integer v = Some id → 0 ≤ id → ¬ ready_in writing id s1) →
  entered i writing u t base tab ids v [] s s1.
Proof.
  intros Hpa Hk Hx Hno. split; rewrite ?app_nil_r; try done; [simpl; lia|by right; apply Hno|].
  by intros id ?%elem_of_nil.
Qed.

(** One question to the runtime, which changes nothing. *)
Lemma ready_question i (writing : bool) u t base tab ids id s (Q : Z * (bool * bool) → S → Prop) :
  passing i u t base tab ids s →
  (∀ o s', passing i u t base tab ids s' → kept s s' → lc_lua s' = lc_lua s →
     (o.1 = 0 → (if writing then o.2.2 else o.2.1) = true ↔ ready_in writing id s') → Q o s') →
  rwp (with_runtime (UV_EINVAL, (false, false)) (skyuv_client_runtime_ready id)) Q (λ _, quiet) s.
Proof.
  intros Hpa HQ. apply rwp_with_runtime; [apply Hpa|..].
  { intros Hno. apply HQ; [done|by apply kept_refl, Hpa|done|]. simpl.
    pose proof client_codes. decompose_Forall_hyps. lia. }
  intros r0 r Hr0 Hcalm Hlast. eapply wp_mono; [by apply ready_spec|].
  intros o r' (Hcalm' & He' & Ho).
  assert (quiet (s <| lc_runtime := Some r' |>)) as Hq by (apply quiet_runtime; [apply Hpa|done]).
  apply HQ; [by destruct Hpa; split|split; try done|done|].
  - intros w x (r1 & Hr1 & Hrd). exists r'. split; [done|]. simplify_eq.
    apply (lasting_heap r r' He'), Hlast. congruence.
  - intros H0. rewrite (Ho H0). split.
    + intros Hrd. exists r'. split; [done|]. by apply (lasting_heap r r' He').
    + intros (r1 & [= <-] & Hrd). by apply (lasting_heap r' r).
Qed.

Lemma ready_entries_ok i writing u t tab base pre vs post ids sockets s :
  passing i u t base tab ids s → holds tab (pre ++ vs ++ post) →
  Z.of_nat (length ids + length vs) ≤ INT_MAX →
  rwp (ready_entries i writing (seqZ (Z.of_nat (length pre) + 1) (Z.of_nat (length vs)))
         (Z.of_nat (length ids)) sockets)
    (λ o, passed i writing u t base tab ids vs s o.1) (λ _, quiet) s.
Proof.
  revert pre ids sockets s. induction vs as [|v vs IH]; intros pre ids sockets s Hpa Hc Hmax.
  { simpl. l_step. exists []. rewrite app_nil_r. split_and!; try done; [by apply kept_refl, Hpa|].
    apply found_nil. }
  rewrite seqZ_cons by (simpl; lia). cbn [ready_entries].
  replace (Z.succ (Z.of_nat (length pre) + 1)) with (Z.of_nat (length (pre ++ [v])) + 1)
    by (rewrite length_app; simpl; lia).
  replace (Z.pred (Z.of_nat (length (v :: vs)))) with (Z.of_nat (length vs)) by (simpl; lia).
  assert (tab (Z.of_nat (length pre) + 1) = v) as Hv.
  { apply (holds_next tab (pre ++ (v :: vs) ++ post) _ v (vs ++ post)); [done|lia|].
    rewrite Nat2Z.id. apply drop_app_length. }
  assert (∀ new s2 sockets', entered i writing u t base tab ids v new s s2 →
    rwp (ready_entries i writing (seqZ (Z.of_nat (length (pre ++ [v])) + 1) (Z.of_nat (length vs)))
         (Z.of_nat (length (ids ++ new))) sockets')
      (λ o, passed i writing u t base tab ids (v :: vs) s o.1) (λ _, quiet) s2) as Hnext.
  { intros new s2 sockets' Hen. eapply rwp_mono; [apply (IH (pre ++ [v]) (ids ++ new))| |done].
    - apply Hen.
    - by rewrite <- app_assoc.
    - pose proof (en_length _ _ _ _ _ _ _ _ _ _ _ Hen). rewrite length_app. simpl in Hmax. lia.
    - intros o s'. by apply passed_cons. }
  l_step. eapply entry_value; [done|]. rewrite Hv. intros id l Hid Hls Hlt.
  set (s1 := s <| lc_lua := l |>).
  assert (passing i u t base tab ids s1) as Hpa1.
  { destruct Hpa. split; simpl; try done; [by unfold room, stack in *; simpl; rewrite Hls
      |by unfold stack in *; simpl; rewrite Hls|by rewrite Hlt|by rewrite Hlt]. }
  assert (kept s s1) as Hk1 by (split; [apply Hpa|by apply later_same|done|done]).
  assert (lua_table (lc_lua s1) = lua_table (lc_lua s)) as Ht1 by done. clearbody s1.
  pose proof (Hnext []) as Hnone. rewrite app_nil_r in Hnone. l_step.
  { apply Hnone, entered_none; [done|done|by intros x _; rewrite Ht1|].
    intros id' Hid' Hp. apply Z.ltb_lt in H. simplify_eq. lia. }
  apply Z.ltb_ge in H. l_step. apply (ready_question i writing u t base tab ids); [done|].
  intros r s2 Hpa2 Hk2 Hl2 Hr. l_step; [l_step; apply Hpa2|].
  apply negb_false_iff, Z.eqb_eq in H0. specialize (Hr H0).
  assert (kept s s2) as Hk by (by eapply kept_trans). l_step.
  - l_step. eapply entry_add; [done|simpl in Hmax; lia|].
    intros s3 Hpa3 Hk3 Hx3 Hr3. apply Hnext. assert (ready_in writing id s3) by (by apply Hk3, Hr).
    split; try done; [by eapply kept_trans|by intros x Hx; rewrite Hx3, Hl2, Ht1| |].
    + intros id' Hid' _. left. simplify_eq. split; [set_solver|done].
    + by intros id' ->%list_elem_of_singleton.
  - apply Hnone, entered_none; [done|done|by intros x _; rewrite Hl2, Ht1|].
    intros id' Hid' _. simplify_eq. rewrite <- Hr. congruence.
Qed.

(** A pass puts its result on top of the stack. *)
Lemma ready_table_ok i writing u vs sockets s :
  quiet s → room 2 s → 0 < i → stack s !! Z.to_nat (i - 1) = Some (LTable u) →
  holds (lua_table (lc_lua s) u) vs → Z.of_nat (length vs) ≤ INT_MAX →
  rwp (ready_table i writing sockets)
    (λ o s', ∃ t ids, o.1 = Z.of_nat (length ids) ∧ stack s' = stack s ++ [LTable t] ∧
       LTable t ∉ stack s ∧ contains (lua_table (lc_lua s') t) (LInteger <$> ids) ∧
       (∀ x, x ≠ t → lua_table (lc_lua s') x = lua_table (lc_lua s) x) ∧
       kept s s' ∧ found_in writing vs ids s s' ∧ (length ids ≤ length vs)%nat)
    (λ _, quiet) s.
Proof.
  intros Hq Hroom Hi Hu Hc Hmax. unfold ready_table. l_step. apply rwp_look.
  destruct (border (lc_lua s) i u vs) as [Hb Hseq];
    [by eapply (index_base _ (stack s) []); [rewrite app_nil_r|..]|done|].
  set (n := lua_rawlen i (lc_lua s)) in *. clearbody n.
  assert (length (take (Z.to_nat n) vs) = Z.to_nat n) as Hlen by (rewrite length_take; lia).
  l_step. apply rwp_push; [unfold room in *; lia| |done]. intros l Hl.
  apply lua_newtable_spec in Hl as (t & Hst & Hnew & Hempty & Hsame).
  set (s1 := s <| lc_lua := l |>).
  assert (u ≠ t) as Hne.
  { intros ->. apply Hnew. by eapply list_elem_of_lookup_2. }
  assert (passing i u t (stack s) (lua_table (lc_lua s) u) [] s1) as Hpa.
  { split; simpl; try done.
    - unfold room, stack in *. simpl. rewrite Hst, length_app. simpl. lia.
    - by rewrite Hsame.
    - intros k. rewrite Hempty. by destruct (0 <? k). }
  assert (kept s s1) as Hk1 by (split; [done|by apply later_same|done|done]).
  replace (seqZ 1 n) with (seqZ 1 (Z.of_nat (length (take (Z.to_nat n) vs)))) by (f_equal; lia).
  eapply rwp_mono; [apply (ready_entries_ok i writing u t (lua_table (lc_lua s) u) (stack s) []
    (take (Z.to_nat n) vs) (drop (Z.to_nat n) vs) []);
      [done|by rewrite app_nil_l, take_drop|simpl; lia]| |done].
  intros o s' (ids & Ho & Hpa' & Hk' & Hx & Hf & Hle). exists t, ids. split_and!; try done.
  - apply Hpa'.
  - apply Hpa'.
  - intros x Hx'. rewrite Hx by done. simpl. by apply Hsame.
  - by eapply kept_trans.
  - eapply found_take; [apply Hk1| |exact Hf]. intros Hn. rewrite (Hseq Hn). lia.
  - lia.
Qed.

(** ** Both passes *)

(** The argument at [i] is a table with these values at positive numbers. *)
Definition argument s (i : Z) (o : option (list lua_value)) : Prop :=
  match o with
  | None => True
  | Some vs => ∃ u, stack s !! Z.to_nat (i - 1) = Some (LTable u) ∧
      holds (lua_table (lc_lua s) u) vs
  end.

Definition given (o : option (list lua_value)) : bool :=
  match o with Some _ => true | None => false end.

Definition entries (o : option (list lua_value)) : Z := Z.of_nat (length (default [] o)).

(** What has been found for an argument, by [s']. *)
Definition reported (writing : bool) (o : option (list lua_value)) (ids : list Z) s s' : Prop :=
  match o with None => ids = [] | Some vs => found_in writing vs ids s s' end.

Lemma reported_later writing o ids s0 s s1 s' :
  later s0 s → later s1 s' → reported writing o ids s s1 → reported writing o ids s0 s'.
Proof.
  intros H1 H2. destruct o as [vs|]; simpl; [|done]. intros [Hr Ha]. split.
  - intros id Hid. destruct (Hr id Hid). split; [done|by apply H2].
  - intros id Hn Hid Hrd. apply Ha; [done|done|by apply H1].
Qed.

(** What lies on the stack of [s] is the same in [s']. *)
Definition undisturbed s s' : Prop :=
  ∀ x, LTable x ∈ stack s → lua_table (lc_lua s') x = lua_table (lc_lua s) x.

(** The arguments, which are below whatever is pushed, stay what they are. *)
Lemma argument_same s s' rest i o :
  stack s' = stack s ++ rest → undisturbed s s' → argument s i o → argument s' i o.
Proof.
  intros Hs Hx. destruct o as [vs|]; [|done]. intros (u & Hu & Hc). exists u.
  split; [|rewrite Hx; [done|by eapply list_elem_of_lookup_2]].
  rewrite Hs. by apply lookup_app_l_Some.
Qed.

(** The tables that a turn has pushed, and what they hold. *)
Definition pushed s s' (idss : list (list Z)) : Prop :=
  ∃ ts, stack s' = stack s ++ (LTable <$> ts) ∧
    Forall2 (λ t ids, contains (lua_table (lc_lua s') t) (LInteger <$> ids)) ts idss.

(** A turn's passes from [s] to [s']. *)
Record passes (idss : list (list Z)) s s' : Prop := Passes {
  ps_kept : kept s s';
  ps_undisturbed : undisturbed s s';
  ps_pushed : pushed s s' idss;
}.

Lemma passes_refl s : quiet s → passes [] s s.
Proof. intros Hq. split; [by apply kept_refl|done|]. exists []. by rewrite app_nil_r. Qed.

(** One more table on top. *)
Lemma passes_table s s1 s' idss ids t :
  passes idss s s1 → kept s1 s' → stack s' = stack s1 ++ [LTable t] → LTable t ∉ stack s1 →
  contains (lua_table (lc_lua s') t) (LInteger <$> ids) →
  (∀ x, x ≠ t → lua_table (lc_lua s') x = lua_table (lc_lua s1) x) → passes (idss ++ [ids]) s s'.
Proof.
  intros [Hk Hu (ts & Hst & Hts)] Hk' Hst' Hnew Hc Hx. rewrite Hst in Hnew. split.
  - by eapply kept_trans.
  - intros x Hin. rewrite Hx; [by apply Hu|]. intros ->. set_solver.
  - exists (ts ++ [t]). rewrite Hst', Hst, fmap_app, <- app_assoc. split; [done|].
    apply Forall2_app; [|by constructor]. assert (t ∉ ts) as Hnot.
    { intros Hin. apply Hnew, elem_of_app. right. by apply list_elem_of_fmap_2. }
    clear Hst Hnew Hst'. induction Hts as [|x ids' ts idss Hc' _ IH]; constructor; [|apply IH; set_solver].
    rewrite Hx; [done|set_solver].
Qed.

Lemma passes_argument s s' idss i o : passes idss s s' → argument s i o → argument s' i o.
Proof. intros [_ Hu (ts & Hst & _)]. by apply (argument_same s s' (LTable <$> ts)). Qed.

Lemma passes_room s s' idss n m :
  passes idss s s' → room n s → m + Z.of_nat (length idss) ≤ n → room m s'.
Proof.
  intros [Hk _ (ts & Hst & Hts)] Hr Hm. pose proof (Forall2_length _ _ _ Hts).
  unfold room in *. rewrite Hst, (kept_limit _ _ Hk), length_app, length_fmap. lia.
Qed.

(** A pass after others. *)
Lemma table_pass s s1 i (writing : bool) vs idss sockets (Q : Z * Z → S → Prop) :
  passes idss s s1 → room 2 s1 → 0 < i → argument s i (Some vs) → Z.of_nat (length vs) ≤ INT_MAX →
  (∀ o s' ids, o.1 = Z.of_nat (length ids) → passes (idss ++ [ids]) s s' → later s1 s' →
     found_in writing vs ids s1 s' → (length ids ≤ length vs)%nat → Q o s') →
  rwp (ready_table i writing sockets) Q (λ _, quiet) s1.
Proof.
  intros Hps Hroom Hi Harg Hmax HQ.
  destruct (passes_argument _ _ _ _ _ Hps Harg) as (u & Hu & Hc).
  eapply rwp_mono; [apply (ready_table_ok i writing u vs); try done; apply Hps| |done].
  intros o s' (t & ids & Ho & Hst & Hnew & Hc' & Hx & Hk & Hf & Hl).
  apply (HQ o s' ids); try done; [by eapply passes_table|apply Hk].
Qed.

(** The results of a turn in which something is ready. *)
Definition outcome (rd wr : option (list lua_value)) (rids wids : list Z) : list (list Z) :=
  if given wr then [rids; wids] else if given rd then [rids] else [].

(** The first table, without which the second would be the first. *)
Lemma first_table s (Q : unit → S → Prop) :
  quiet s → room 1 s → (∀ s', passes [[]] s s' → Q tt s') →
  rwp (push lua_newtable) Q (λ _, quiet) s.
Proof.
  intros Hq Hroom HQ. apply rwp_push; [done| |done]. intros l Hl.
  apply lua_newtable_spec in Hl as (t & Hst & Hnew & Hempty & Hsame). apply HQ.
  apply (passes_table s s _ [] [] t); [by apply passes_refl| |done|done| |done].
  - split; [done|by apply later_same|done|done].
  - intros k. simpl. rewrite Hempty. by destruct (0 <? k).
Qed.

Lemma select_pass_ok rd wr s :
  quiet s → room 5 s → argument s 1 rd → argument s 2 wr → entries rd + entries wr ≤ INT_MAX →
  rwp (select_pass (given rd) (given wr))
    (λ o s', ∃ rids wids, o.1 = Z.of_nat (length rids + length wids) ∧
       passes (outcome rd wr rids wids) s s' ∧
       reported false rd rids s s' ∧ reported true wr wids s s')
    (λ _, quiet) s.
Proof.
  intros Hq Hroom Hrd Hwr Hmax. pose proof (passes_refl s Hq) as H0. unfold select_pass, entries in *.
  assert (∀ n, n ≤ 5 → room n s) as Hroom' by (unfold room in *; lia). l_step.
  destruct rd as [vs|]; cbn [given].
  - apply (table_pass s s 1 false vs []); [done|apply Hroom'; lia|done|done|simpl in *; lia|].
    intros o s1 rids Ho H1 Hl1 Hf1 Hlen1. destruct wr as [ws|]; cbn [given].
    + do 3 l_step. apply (table_pass s s1 2 true ws [rids]);
        [done|by eapply passes_room; [..|simpl]|done|done|simpl in *; lia|].
      intros o' s2 wids Ho' H2 Hl2 Hf2 Hlen2. l_step. rewrite Ho, Ho'.
      apply rwp_add_int; [simpl in *; lia|]. l_step. exists rids, wids. split_and!; [simpl; lia|done|..].
      * by eapply reported_later; [reflexivity|exact Hl2|].
      * by eapply reported_later; [exact Hl1|reflexivity|].
    + l_step. exists rids, []. split_and!; [simpl; lia|done|done|done].
  - l_step. destruct wr as [ws|]; cbn [given].
    + l_step. apply first_table; [done|apply Hroom'; lia|]. intros s1 H1. l_step.
      apply (table_pass s s1 2 true ws [[]]);
        [done|by eapply passes_room; [..|simpl]|done|done|simpl in *; lia|].
      intros o' s2 wids Ho' H2 Hl2 Hf2 Hlen2. l_step. rewrite Ho'.
      apply rwp_add_int; [simpl in *; lia|]. l_step. exists [], wids. split_and!; [simpl; lia|done|done|].
      eapply reported_later; [apply H1|reflexivity|done].
    + l_step. exists [], []. by split_and!.
Qed.

End select.
