(* ===== verification/ClientLuaLoop.v ===== *)
(** * The loop of select

    Each turn of [select] reports what is ready, finds that the time is up, or
    waits and goes on in the same state; so [select] reports exactly sockets that
    are ready and every one that was ready when it was called, or the end of the
    time, not early; with a time-out it ends.  Then the module as a whole. *)
From S2P Require Import Prelude Doubles Lua ClientRuntime ClientInvariant ClientSafety ClientCalls.
From S2P Require Import ClientSend ClientStart ClientStdin StdinLines ClientReady ClientLua ClientLuaTimes.
From S2P Require Import ClientLuaSafety ClientLuaSelect.

Section loop.
Context {L : Type} {api : LuaApi L} {lua : LuaLaws api}.
Context {client : ClientEnv} {laws : ClientEnvLaws client} {stdin : StdinEnv}.
Context {host : LuaHost} {hlaws : HostLaws host}.
Local Notation S := (lua_frame L).
Implicit Types (s : S) (r : skyuv_client_runtime) (rd wr : option (list lua_value)).

(** ** Time *)

(** A time-out that [select] accepts; negative means none. *)
Definition timeout (x : double) : Prop := number x ∧ units x ≤ whole 1000000.

Lemma timeout_sign x :
  timeout x → dltb x (of_Z 0) = negb (dleb (of_Z 0) x) ∧ (dleb (of_Z 0) x = true → duration x).
Proof.
  intros [Hn Hx]. rewrite dltb_Z, Z_dleb by done. change (whole 0) with 0. split.
  - by rewrite <- Z.ltb_antisym.
  - intros H%Z.leb_le. split; [done|]. lia.
Qed.

(** The time from the call in [s0] to the reading of the clock with this number. *)
Definition since s0 (n : nat) : Z := host_hrtime n - host_hrtime (lc_clock s0).

Lemma hrtime_between m n :
  (m ≤ n)%nat → 0 ≤ host_hrtime m ≤ host_hrtime n ∧ host_hrtime n < 2 ^ 63.
Proof. intros Hle. pose proof (hrtime_mono m n Hle). pose proof (hrtime_range m). pose proof (hrtime_range n). lia. Qed.

(** ** A turn *)

(** Between turns: everything is as it was when [select] was called in [s0], but
    for time and what has become ready. *)
Record between s0 s : Prop := Between {
  bt_quiet : quiet s;
  bt_stack : stack s = stack s0;
  bt_undisturbed : undisturbed s0 s;
  bt_later : later s0 s;
  bt_limit : lc_limit s = lc_limit s0;
  bt_clock : (lc_clock s0 < lc_clock s)%nat;
}.

(** What [select] returns. *)
Inductive selected rd wr (x : double) s0 s' : list lua_value → Prop :=
| SelectedReady ts rids wids :
    rids ++ wids ≠ [] →
    Forall2 (λ t ids, contains (lua_table (lc_lua s') t) (LInteger <$> ids)) ts (outcome rd wr rids wids) →
    reported false rd rids s0 s' → reported true wr wids s0 s' →
    selected rd wr x s0 s' (LTable <$> ts)
| SelectedTimeout n :
    reported false rd [] s0 s' → reported true wr [] s0 s' →
    0 ≤ units x → lc_clock s' = Datatypes.S n → units x * 1000000000 ≤ whole (since s0 n + 1) →
    selected rd wr x s0 s' [LBoolean false].

Definition select_post rd wr x s0 (n : Z) s' : Prop :=
  quiet s' ∧ ∃ vs, stack s' = stack s0 ++ vs ∧ n = Z.of_nat (length vs) ∧ selected rd wr x s0 s' vs.

(** The time has run out by this reading of the clock. *)
Definition overdue (x : double) s0 (n : nat) : Prop :=
  0 ≤ units x ∧ units x * 1000000000 ≤ whole (since s0 n).

(** After the passes found nothing, the stack is taken back. *)
Lemma between_passes rd wr s0 s s1 l :
  between s0 s → passes (outcome rd wr [] []) s s1 →
  lua_stack l = stack s → lua_table l = lua_table (lc_lua s1) → between s0 (s1 <| lc_lua := l |>).
Proof.
  intros [Hq Hst Hu Hl Hlim Hck] [[Hq1 Hl1 Hlim1 Hck1] Hu1 _] Hls Hlt. split; simpl; try done.
  - unfold stack at 1. simpl. congruence.
  - intros t Ht. simpl. rewrite Hlt, Hu1; [by apply Hu|by rewrite Hst].
  - by etrans; [|etrans; [exact Hl1|apply later_same]].
  - congruence.
  - lia.
Qed.

Lemma wait_runtime_ok s0 s revision timeout_ns :
  between s0 s →
  rwp (wait_runtime revision timeout_ns)
    (λ _ s', between s0 s' ∧ (lc_clock s < lc_clock s')%nat) (λ _, quiet) s.
Proof.
  intros [Hq Hst Hu Hl Hlim Hck]. unfold rwp, wait_runtime. destruct (lc_runtime s) as [r|] eqn:Hr.
  - pose proof (host_idle_ok (skyuv_client_runtime_wait (cl_revision <$> Some r) revision timeout_ns)
      r (proj1 Hq r Hr)) as Hwp. unfold wp in Hwp. destruct (host_idle _ r) as [[] r'|]; [|done].
    destruct (idle_calm _ _ Hwp (proj1 Hq r Hr)) as [Hc Hlast].
    split; [|simpl; lia]. split; simpl; try done; [by apply quiet_runtime| |lia].
    etrans; [exact Hl|]. intros w id (r0 & Hr0 & Hrd). exists r'. split; [done|].
    apply Hlast. congruence.
  - destruct (skyuv_client_runtime_wait _ _ _); simpl; (split; [|lia]); split; simpl; try done; lia.
Qed.

Lemma select_wait_ok s0 s x revision :
  timeout x → between s0 s →
  rwp (select_wait x (host_hrtime (lc_clock s0)) revision)
    (λ _ s', between s0 s' ∧ (lc_clock s < lc_clock s')%nat) (λ _, quiet) s.
Proof.
  intros Hx Hb. unfold select_wait. destruct (timeout_sign x Hx) as [-> Hd].
  destruct (dleb (of_Z 0) x); simpl negb.
  - l_step. l_step. set (s1 := s <| lc_clock ::= Datatypes.S |>).
    assert (between s0 s1) as Hb1 by (destruct Hb; split; simpl; try done; lia).
    apply (rwp_mono _ (λ now s', s' = s1 ∧ now = host_hrtime (lc_clock s)) _ (λ _, quiet)); [done| |done].
    intros now s' [-> ->].
    destruct (hrtime_between (lc_clock s0) (lc_clock s)) as [Hs Hn]; [apply Nat.lt_le_incl, Hb|].
    destruct (remaining_ns_spec x _ _ (Hd eq_refl) Hs Hn) as (ns & Hns & _).
    eapply rwp_convert; [exact Hns|]. eapply rwp_mono; [by apply wait_runtime_ok| |done].
    intros [] s' [? ?]. split; [done|]. simpl in *. lia.
  - l_step. l_step. by apply wait_runtime_ok.
Qed.

(** The arguments of the call in [s0]. *)
Record arguments rd wr s0 : Prop := Arguments_ {
  ag_read : argument s0 1 rd;
  ag_write : argument s0 2 wr;
  ag_entries : entries rd + entries wr ≤ INT_MAX;
}.

Lemma between_argument s0 s i o : between s0 s → argument s0 i o → argument s i o.
Proof.
  intros [_ Hst Hu _ _ _]. apply (argument_same s0 s []); [by rewrite app_nil_r|done].
Qed.

(** Something is ready. *)
Lemma turn_ready rd wr x s0 s s1 rids wids :
  between s0 s → passes (outcome rd wr rids wids) s s1 →
  reported false rd rids s s1 → reported true wr wids s s1 →
  (length rids + length wids ≠ 0)%nat →
  select_post rd wr x s0 (if given wr then 2 else 1) s1.
Proof.
  intros [_ Hst _ Hl _ _] [Hk _ (ts & Hst1 & Hts)] Hrd Hwr Hne. split; [apply Hk|].
  exists (LTable <$> ts). split_and!.
  - by rewrite Hst1, Hst.
  - rewrite length_fmap, (Forall2_length _ _ _ Hts). unfold outcome.
    destruct rd, wr; simpl in *; subst; simpl in *; done.
  - apply (SelectedReady _ _ _ _ _ _ rids wids); [|done|..].
    + intros [-> ->]%app_eq_nil. by apply Hne.
    + by eapply reported_later; [exact Hl|reflexivity|].
    + by eapply reported_later; [exact Hl|reflexivity|].
Qed.

(** The time is up. *)
Lemma turn_timeout rd wr x s0 s l :
  between s0 s → timeout x → dleb (of_Z 0) x = true →
  reported false rd [] s0 s → reported true wr [] s0 s →
  time_is_up x (host_hrtime (lc_clock s0)) (host_hrtime (lc_clock s)) = true →
  lua_stack l = stack s ++ [LBoolean false] →
  select_post rd wr x s0 1 (s <| lc_clock ::= Datatypes.S |> <| lc_lua := l |>).
Proof.
  intros [Hq Hst _ _ _ Hck] Hx Hpos Hrd Hwr Hup Hls. split; [done|].
  exists [LBoolean false]. split_and!; [by rewrite <- Hst|done|].
  pose proof (proj2 (timeout_sign x Hx) Hpos) as Hd.
  destruct (hrtime_between (lc_clock s0) (lc_clock s)) as [Hs Hn]; [lia|].
  apply (SelectedTimeout _ _ _ _ _ (lc_clock s)).
  - by eapply (reported_later _ _ _ s0 s0 s); [|apply later_same|].
  - by eapply (reported_later _ _ _ s0 s0 s); [|apply later_same|].
  - apply Hd.
  - done.
  - by apply time_is_up_before.
Qed.

Definition turn_post rd wr x s0 s (o : option Z) s' : Prop :=
  match o with
  | Some n => select_post rd wr x s0 n s'
  | None => between s0 s' ∧ (lc_clock s < lc_clock s')%nat ∧ ¬ overdue x s0 (lc_clock s) ∧
      reported false rd [] s0 s' ∧ reported true wr [] s0 s'
  end.

(** Nothing that was ready has been found, whatever happens next. *)
Lemma reported_still s s' s0 writing o : reported writing o [] s0 s → reported writing o [] s0 s'.
Proof.
  destruct o as [vs|]; [|done]. intros [_ Ha]. split; [by intros id ?%elem_of_nil|exact Ha].
Qed.

(** The turn after nothing was found ready. *)
Lemma turn_rest rd wr x s0 s (sockets : Z) revision :
  timeout x → room 5 s0 → between s0 s → reported false rd [] s0 s → reported true wr [] s0 s →
  let start := host_hrtime (lc_clock s0) in
  rwp (if (sockets =? 0) && dltb x (of_Z 0)
    then luaL_error "no open sockets to check and no timeout set"
    else
      now ← (if dleb (of_Z 0) x then uv_hrtime else mret start);
      if dleb (of_Z 0) x && time_is_up x start now then
        push (λ l, Some (lua_pushboolean false l)) ;; mret (Some 1)
      else
        select_wait x start revision ;;
        mret None)
    (turn_post rd wr x s0 s) (λ _, quiet) s.
Proof.
  intros Hx Hroom Hb Hrd Hwr start. l_step; [l_step; apply Hb|]. clear H.
  assert (room 1 s) as Hroom' by (unfold room in *; rewrite (bt_stack _ _ Hb), (bt_limit _ _ Hb); lia).
  destruct (timeout_sign x Hx) as [_ Hd]. destruct (dleb (of_Z 0) x) eqn:Hpos; cbn [andb]; l_step.
  - set (s1 := s <| lc_clock ::= Datatypes.S |>).
    assert (between s0 s1) as Hb1 by (destruct Hb; split; simpl; try done; lia).
    apply (rwp_mono _ (λ now s', s' = s1 ∧ now = host_hrtime (lc_clock s)) _ (λ _, quiet)); [done| |done].
    intros now s' [-> ->]. l_step.
    + l_step. apply rwp_push; [done| |intros; apply Hb1]. intros l [= <-]. l_step.
      by eapply turn_timeout; [..|apply lua_pushboolean_spec].
    + l_step. eapply rwp_mono; [by apply select_wait_ok| |done]. intros [] s' [Hb' Hck]. l_step.
      split_and!; [done|simpl in *; lia| |by apply (reported_still s)..]. intros [_ Hover].
      destruct (hrtime_between (lc_clock s0) (lc_clock s)) as [Hs Hn]; [apply Nat.lt_le_incl, Hb|].
      rewrite (time_is_up_after x) in H; [done|by apply Hd|done..].
  - l_step. l_step. eapply rwp_mono; [by apply select_wait_ok| |done]. intros [] s' [Hb' Hck]. l_step.
    split_and!; [done|done| |by apply (reported_still s)..]. intros [Hnonneg _]. rewrite Z_dleb in Hpos by (done || apply Hx).
    change (whole 0) with 0 in Hpos. lia.
Qed.

Lemma select_turn_ok rd wr x s0 s :
  timeout x → arguments rd wr s0 → room 5 s0 → between s0 s →
  rwp (select_turn (given rd) (given wr) x (host_hrtime (lc_clock s0)) (Z.of_nat (length (stack s0))))
    (turn_post rd wr x s0 s) (λ _, quiet) s.
Proof.
  intros Hx [Hrd Hwr Hmax] Hroom Hb. unfold select_turn. l_step.
  apply (rwp_mono _ (λ _ s', s' = s) _ (λ _, quiet)); [done| |done]. intros revision s' ->.
  assert (room 5 s) as Hroom' by (unfold room in *; by rewrite (bt_stack _ _ Hb), (bt_limit _ _ Hb)).
  l_step. eapply rwp_mono; [apply (select_pass_ok rd wr s); try done; [apply Hb|by eapply between_argument..]| |done].
  intros both s1 (rids & wids & Ho & Hps & Hrd1 & Hwr1). l_step.
  { l_step. apply (turn_ready rd wr x s0 s s1 rids wids); try done.
    apply negb_true_iff, Z.eqb_neq in H. lia. }
  apply negb_false_iff, Z.eqb_eq in H.
  assert (rids = [] ∧ wids = []) as [-> ->] by (destruct rids, wids; simpl in *; split; (done || lia)).
  l_step. apply rwp_alter; [|intros; apply Hps]. intros l [= <-].
  destruct (ps_pushed _ _ _ Hps) as (ts & Hst & _). unfold stack in Hst at 1.
  rewrite (bt_stack _ _ Hb) in Hst.
  destruct (lua_settop_spec (Z.of_nat (length (stack s0))) (lc_lua s1)) as [Hs1 Hs2].
  { rewrite lua_gettop_spec, Hst, length_app. lia. }
  assert (lc_clock s = lc_clock s1) as Hck by (symmetry; apply Hps).
  set (l := lua_settop _ _) in *. replace (turn_post rd wr x s0 s) with
    (turn_post rd wr x s0 (s1 <| lc_lua := l |>)) by (unfold turn_post; simpl; by rewrite Hck).
  apply turn_rest; [done..| | |].
  - eapply between_passes; [done|done| |done].
    by rewrite Hs1, Nat2Z.id, Hst, take_app_length, (bt_stack _ _ Hb).
  - by eapply (reported_later _ _ _ s0 s s1); [apply Hb|apply later_same|].
  - by eapply (reported_later _ _ _ s0 s s1); [apply Hb|apply later_same|].
Qed.

(** ** The loop *)

Lemma select_loop_safe fuel rd wr x s0 s :
  timeout x → arguments rd wr s0 → room 5 s0 → between s0 s →
  rwlp (select_loop fuel (given rd) (given wr) x (host_hrtime (lc_clock s0)) (Z.of_nat (length (stack s0))))
    (select_post rd wr x s0) (λ _, quiet) s.
Proof.
  intros Hx Ha Hroom. revert s. induction fuel as [|fuel IH]; intros s Hb; [done|]. cbn [select_loop].
  apply rwlp_bind. eapply rwp_mono; [by apply select_turn_ok| |done].
  intros [n|] s' Ho; [exact Ho|]. apply IH, Ho.
Qed.

Lemma overdue_later x s0 m n : (m ≤ n)%nat → overdue x s0 m → overdue x s0 n.
Proof.
  intros Hle [Hx Hover]. split; [done|]. etrans; [exact Hover|]. apply whole_le. unfold since.
  pose proof (hrtime_mono m n Hle). lia.
Qed.

(** As many turns are enough as there are readings of the clock until the time is
    over. *)
Lemma select_loop_ends fuel n rd wr x s0 s :
  timeout x → arguments rd wr s0 → room 5 s0 → between s0 s →
  overdue x s0 n → (0 < fuel)%nat → (n < fuel + lc_clock s)%nat →
  rwp (select_loop fuel (given rd) (given wr) x (host_hrtime (lc_clock s0)) (Z.of_nat (length (stack s0))))
    (select_post rd wr x s0) (λ _, quiet) s.
Proof.
  intros Hx Ha Hroom. revert s. induction fuel as [|fuel IH]; intros s Hb Hover Hpos Hfuel; [lia|].
  cbn [select_loop]. l_step. eapply rwp_mono; [by apply select_turn_ok| |done].
  intros [k|] s' Ho; [exact Ho|]. destruct Ho as (Hb' & Hck & Hno & _).
  destruct (decide (n ≤ lc_clock s)%nat) as [Hle|Hgt]; [by destruct Hno; eapply overdue_later|].
  apply IH; [done|done|lia|lia].
Qed.

(** A socket of a sequence that is ready when the loop begins ends it in its first
    turn. *)
Definition ready_at_call rd wr s0 : Prop :=
  ∃ (writing : bool) vs id, (if writing then wr else rd) = Some vs ∧ LNil ∉ vs ∧
    stands_for vs id ∧ ready_in writing id s0.

Lemma select_loop_immediate fuel rd wr x s0 s :
  timeout x → arguments rd wr s0 → room 5 s0 → between s0 s → ready_at_call rd wr s0 → (0 < fuel)%nat →
  rwp (select_loop fuel (given rd) (given wr) x (host_hrtime (lc_clock s0)) (Z.of_nat (length (stack s0))))
    (select_post rd wr x s0) (λ _, quiet) s.
Proof.
  intros Hx Ha Hroom Hb (writing & vs & id & Ho & Hseq & Hid & Hready) Hpos. destruct fuel as [|fuel]; [lia|].
  cbn [select_loop]. l_step. eapply rwp_mono; [by apply select_turn_ok| |done].
  intros [k|] s' Hp; [exact Hp|]. exfalso. destruct Hp as (_ & _ & _ & Hrd & Hwr).
  assert (reported writing (Some vs) [] s0 s') as [_ Hall] by (destruct writing; by rewrite <- Ho).
  by apply (elem_of_nil id), Hall.
Qed.

(** ** The call *)

(** The arguments of a call of [select]: what is a table has these values, at most
    INT_MAX together. *)
Record select_arguments rd wr s : Prop := SelectArguments {
  sa_read : lua_istable 1 (lc_lua s) = given rd;
  sa_write : lua_istable 2 (lc_lua s) = given wr;
  sa_arguments : arguments rd wr s;
}.

(** The time-out: -1 if it is not given, nothing if it is not a number. *)
Definition select_timeout rd wr s : option double :=
  let i := timeout_index (given rd) (given wr) (lua_isnil 2 (lc_lua s)) (lua_isnumber 3 (lc_lua s)) in
  if lua_isnoneornil i (lc_lua s) then Some (of_Z (-1)) else lua_tonumberx i (lc_lua s).

Lemma select_options_ok rd wr s :
  rwp (select_options (given rd) (given wr))
    (λ x s', s' = s ∧ timeout x ∧ select_timeout rd wr s = Some x) (λ _ s', s' = s) s.
Proof.
  unfold select_options, select_timeout. l_step. apply rwp_look. l_step. apply rwp_look.
  set (i := timeout_index _ _ _ _). l_step. apply rwp_look. l_step; [by l_step|]. l_step.
  apply (rwp_mono _ (λ x s', s' = s ∧ valid x = true ∧ select_timeout rd wr s = Some x) _ (λ _ s', s' = s));
    [| |done].
  - unfold select_timeout. fold i. unfold luaL_optnumber. l_step. apply rwp_look.
    destruct (lua_isnoneornil i (lc_lua s)); [by l_step|]. unfold rwp, luaL_checknumber.
    rewrite lua_tonumberx_spec. destruct (index_value (lc_lua s) i) as [v|]; simpl; [|done].
    destruct (value_number v) eqn:Hv; [|done]. split_and!; [done| |done]. by eapply value_number_valid.
  - intros x s' (-> & Hv & Hx). unfold select_timeout in Hx. fold i in Hx. l_step; [by l_step|].
    apply orb_false_iff in H0 as [Hf Hm]. apply negb_false_iff in Hf. l_step.
    assert (number x) as Hn by done. rewrite Z_dltb in Hm by done. apply Z.ltb_ge in Hm. done.
Qed.

Definition select_result rd wr s (n : Z) s' : Prop :=
  ∃ x, select_timeout rd wr s = Some x ∧ select_post rd wr x s n s'.

Lemma between_start s : quiet s → between s (s <| lc_clock ::= Datatypes.S |>).
Proof. intros Hq. split; simpl; try done; [by apply later_same|lia]. Qed.

Lemma rwp_hrtime (Q : Z → S → Prop) E s :
  Q (host_hrtime (lc_clock s)) (s <| lc_clock ::= Datatypes.S |>) → rwp uv_hrtime Q E s.
Proof. done. Qed.

Lemma room_less n m s : room n s → m ≤ n → room m s.
Proof. unfold room. lia. Qed.

Lemma select_ok rd wr fuel s :
  quiet s → room LUA_MINSTACK s → select_arguments rd wr s →
  rwlp (select_socket fuel) (select_result rd wr s) (λ _, quiet) s.
Proof.
  intros Hq Hroom [Hrd Hwr Ha]. unfold select_socket.
  apply rwlp_bind, rwp_look. rewrite Hrd. apply rwlp_bind, rwp_look. rewrite Hwr.
  apply rwlp_bind. eapply rwp_mono; [apply select_options_ok| |by intros e s' ->].
  intros x s' (-> & Hx & Hsel). apply rwlp_bind, rwp_hrtime, rwlp_bind, rwp_look. simpl.
  rewrite lua_gettop_spec. apply (rwlp_mono _ (select_post rd wr x s) _ (λ _, quiet)); [|intros n s' Hp; by exists x|done].
  apply (select_loop_safe fuel rd wr x s); [done|done|apply (room_less LUA_MINSTACK); [done|by vm_compute]|by apply between_start].
Qed.

(** What makes [select] end: a socket that is ready, or a time-out that is over by
    a reading of the clock within reach. *)
Definition select_bounded rd wr s (fuel : nat) : Prop :=
  ready_at_call rd wr s ∨ ∃ x, select_timeout rd wr s = Some x ∧ overdue x s fuel.

Lemma select_total rd wr fuel s :
  quiet s → room LUA_MINSTACK s → select_arguments rd wr s → select_bounded rd wr s fuel → (0 < fuel)%nat →
  rwp (select_socket fuel) (select_result rd wr s) (λ _, quiet) s.
Proof.
  intros Hq Hroom [Hrd Hwr Ha] Hend Hpos. unfold select_socket.
  l_step. apply rwp_look. rewrite Hrd. l_step. apply rwp_look. rewrite Hwr.
  l_step. eapply rwp_mono; [apply select_options_ok| |by intros e s' ->].
  intros x s' (-> & Hx & Hsel). l_step. apply rwp_hrtime. l_step. apply rwp_look. simpl.
  rewrite lua_gettop_spec.
  apply (rwp_mono _ (select_post rd wr x s) _ (λ _, quiet)); [|intros k s' Hp; by exists x|done].
  assert (room 5 s) as Hroom' by (apply (room_less LUA_MINSTACK); [done|by vm_compute]).
  pose proof (between_start s Hq) as Hb. destruct Hend as [Hready|(x' & Hsel' & Hover)].
  - by apply select_loop_immediate.
  - simplify_eq. apply (select_loop_ends fuel fuel); try done. simpl. lia.
Qed.

(** ** The module *)

(** The values that a function returns. *)
Definition result_type (f : module_function) (vs : list lua_value) : Prop :=
  match f with
  | FConnect => ∃ id, vs = [LInteger id]
  | FRecv => vs = [] ∨ ∃ b, vs = [LString b] ∧ (length b ≤ 4096)%nat
  | FSelect => vs = [LBoolean false] ∨ ∃ ts, vs = LTable <$> ts ∧ (0 < length ts ≤ 2)%nat
  | FReadstdin => vs = [] ∨ (∃ b, vs = [LString b]) ∨ ∃ b, vs = [LNil; LString b]
  | _ => vs = []
  end.

Lemma select_result_type rd wr s n s' :
  select_result rd wr s n s' → results (result_type FSelect) (length (stack s)) n s'.
Proof.
  intros (x & _ & Hq & vs & Hst & Hn & Hsel). split; [done|]. exists (stack s), vs.
  split_and!; try done. destruct Hsel as [ts rids wids Hne Hts Hr Hw|]; [right|by left].
  exists ts. split; [done|]. rewrite (Forall2_length _ _ _ Hts).
  unfold outcome. destruct rd, wr; simpl in *; subst; simpl in *; (done || lia).
Qed.

End loop.
