(* ===== verification/ClientLuaProperties.v ===== *)
(** * Properties of the Lua module

    The theorems about client.socket, with a run in which [select] is asked about
    a connection that has just been made. *)
From S2P Require Import Prelude Doubles Lua ClientRuntime ClientInvariant ClientSafety ClientCalls.
From S2P Require Import ClientSend ClientWitness ClientStart ClientStdin StdinLines ClientReady ClientLua.
From S2P Require Import ClientLuaTimes ClientLuaSafety ClientLuaSelect ClientLuaLoop.

Section properties.
Context {L : Type} {api : LuaApi L} {lua : LuaLaws api}.
Context {client : ClientEnv} {laws : ClientEnvLaws client} {stdin : StdinEnv}.
Context {host : LuaHost} {hlaws : HostLaws host}.
Local Notation S := (lua_frame L).
Implicit Types (s : S) (rd wr : option (list lua_value)).

(** C34 Every function of the module client.socket, with any arguments, whatever the
    thread of the runtime does meanwhile, has no undefined behaviour, provided that
    the tables that select is given have at most INT_MAX entries together (holes
    counted), without which its int count can overflow: no function writes beyond
    the Lua stack, converts a double out of range, overflows an int or makes a call
    of the runtime in a wrong state.  It returns values of the function's type, on
    top of the stack, or raises a Lua error, and leaves the runtime waiting for the
    next call; only select can fail to end. *)
Theorem client_module_safe f fuel rd wr s
    (Hq : quiet s) (Hroom : room LUA_MINSTACK s) (Ha : f = FSelect → select_arguments rd wr s) :
  (if decide (f = FSelect) then rwlp else rwp) (call_function f fuel)
    (results (result_type f) (length (stack s))) (λ _, quiet) s.
Proof.
  destruct f; simpl.
  - by apply connect_safe.
  - by apply send_safe.
  - by apply recv_safe.
  - by apply close_safe.
  - by apply shutdown_safe.
  - eapply rwlp_mono; [by eapply select_ok, Ha|by apply select_result_type|done].
  - by apply sleep_safe.
  - by apply readstdin_safe.
  - by apply dispose_safe.
Qed.

(** C35 What select returns, if it returns: either one table, or two if there is a
    table of sockets to write to, in which exactly ids of the argument are, of
    sockets that are ready for reading, or writing, and among them, for a table
    without holes, every socket of the argument that was ready when select was
    called, at least one in all; or false, if no such socket was ready at the call,
    the time-out is not negative and the time has passed since the call, less at
    most one nanosecond. *)
Theorem select_reports_ready rd wr fuel s
    (Hq : quiet s) (Hroom : room LUA_MINSTACK s) (Ha : select_arguments rd wr s) :
  rwlp (select_socket fuel) (select_result rd wr s) (λ _, quiet) s.
Proof. by apply select_ok. Qed.

(** C36 Select ends, in at most as many turns as given, if a socket of its tables
    (without holes) is ready when it is called, or if the time-out is not negative and is over by the
    reading of the clock with that number. *)
Theorem select_ends rd wr fuel s
    (Hq : quiet s) (Hroom : room LUA_MINSTACK s) (Ha : select_arguments rd wr s)
    (Hend : select_bounded rd wr s fuel) (Hfuel : (0 < fuel)%nat) :
  match select_socket fuel s with
  | Ret (inr n) s' => select_result rd wr s n s'
  | Ret (inl e) s' => quiet s'
  | Fault _ => False
  end.
Proof. exact (select_total rd wr fuel s Hq Hroom Ha Hend Hfuel). Qed.

(** C37 The conversions of times from double stay in the range of their C type, for
    every reading of the clock.  The milliseconds of a connect (up to 1000000
    seconds, and positive if the seconds are) and of usleep (up to 1000000000
    microseconds) are the exact product or quotient rounded up, but for less than
    2 to the power of -23 of a millisecond that the double has lost.  The
    nanoseconds that select still waits are less than 2 away from the exact
    difference, and negative once 2 to the power of 50 have passed.  Time is up once
    the duration has passed and not before, but for one nanosecond. *)
Theorem durations_in_range x start now
    (Hx : number x) (Hpos : 0 ≤ units x) (Hs : 0 ≤ start ≤ now) (Hn : now < 2 ^ 63) :
  (units x ≤ whole 1000000 →
     (∃ ms, connect_milliseconds x = Some ms ∧ 0 ≤ ms ≤ 1000000000 ∧
        rounded_up (units x * whole 1000) (2 ^ scale) ms ∧ (0 < units x → 0 < ms)) ∧
     (∃ ns, remaining_ns x start now = Some ns ∧ - 2 ^ 63 ≤ ns ≤ 1000000000000000 ∧
        (now - start < 2 ^ 50 →
           whole (now - start + ns - 2) < units x * 1000000000 < whole (now - start + ns + 2)) ∧
        (2 ^ 50 ≤ now - start → ns < 0)) ∧
     (units x * 1000000000 ≤ whole (now - start) → time_is_up x start now = true) ∧
     (time_is_up x start now = true → units x * 1000000000 ≤ whole (now - start + 1))) ∧
  (units x ≤ whole 1000000000 →
     ∃ ms, sleep_milliseconds x = Some ms ∧ 0 ≤ ms ≤ 1000000 ∧
       rounded_up (units x * 2 ^ scale) (whole 1000) ms).
Proof.
  split; intros Hle.
  - assert (duration x) as Hd by done. split_and!.
    + by apply connect_milliseconds_spec.
    + by apply remaining_ns_spec.
    + by apply time_is_up_after.
    + by apply time_is_up_before.
  - by apply sleep_milliseconds_spec.
Qed.

End properties.

(** ** A run *)

#[local] Existing Instance good_client.
#[local] Existing Instance good_stdin.

#[local] Instance good_client_ok : ClientEnvLaws good_client.
Proof. split. repeat constructor. Qed.

(** The clock advances by half a second with each reading; the thread of the
    runtime does nothing by itself. *)
Definition quiet_host : LuaHost := {|
  host_hrtime n := Z.min (Z.of_nat n * 500000000) (2 ^ 63 - 1);
  host_create _ := 0;
  host_wait := run_until_done 8;
  host_idle _ := mret tt;
|}.

#[local] Existing Instance quiet_host.

#[local] Instance quiet_host_laws : HostLaws quiet_host.
Proof.
  split; simpl; [lia|lia|apply _|]. intros a r _. by apply wp_ret.
Qed.

(** The connection with id 1 has been made; select is asked whether it can be
    written to. *)
Definition connected_client : skyuv_client_runtime := client_played established_script.

Definition ask_write : lua_frame plain_state :=
  LuaFrame (Plain [LNil; LTable 1; LInteger 1] {[ 1%positive := {[ 1 := LInteger 1 ]} ]})
    23 (Some connected_client) stdin_zero 0 [].

(** Whether it can be read from, for a second. *)
Definition ask_read : lua_frame plain_state :=
  LuaFrame (Plain [LTable 1; LInteger 1] {[ 1%positive := {[ 1 := LInteger 1 ]} ]})
    22 (Some connected_client) stdin_zero 0 [].

Lemma connected_calm : calm connected_client.
Proof.
  split; [by apply client_reachable_ok, client_played_reachable, established_plays|].
  apply (bool_decide_unpack _). vm_compute. exact I.
Qed.

Lemma ask_quiet (s : lua_frame plain_state) :
  lc_runtime s = Some connected_client → lc_stdin s = stdin_zero → quiet s.
Proof.
  intros Hr Hs. split; [|exists []].
  - rewrite Hr. intros r [= <-]. apply connected_calm.
  - rewrite Hs. split; try done; simpl; lia.
Qed.

Lemma one_entry : holds (plain_table (lc_lua ask_write) 1) [LInteger 1].
Proof.
  intros k Hpos. unfold plain_table.
  change (default ∅ (pl_tables (lc_lua ask_write) !! 1%positive)) with ({[ 1 := LInteger 1 ]} : gmap Z lua_value).
  destruct (decide (k = 1)) as [->|Hk]; [done|].
  rewrite (lookup_singleton_ne (M:=gmap Z)) by done.
  rewrite (lookup_ge_None_2 [LInteger 1]); [done|simpl; lia].
Qed.

Lemma ask_write_arguments : select_arguments None (Some [LInteger 1]) ask_write.
Proof.
  split; [done..|]. split; [done| |vm_compute; done]. exists 1%positive.
  split; [done|apply one_entry].
Qed.

Lemma ask_read_arguments : select_arguments (Some [LInteger 1]) None ask_read.
Proof.
  split; [done..|]. split; [|done|vm_compute; done]. exists 1%positive.
  split; [done|apply one_entry].
Qed.

(** The number of results, or the error. *)
Definition select_answer (s : lua_frame plain_state) (fuel : nat) : option (list lua_value) :=
  match select_socket fuel s with
  | Ret (inr n) s' => Some (drop (length (stack s)) (stack s'))
  | _ => None
  end.

Lemma client_module_safe_witness :
  select_answer ask_write 1 = Some [LTable 2; LTable 3] ∧
  rwlp (call_function FSelect 1) (results (result_type FSelect) 3) (λ _, quiet) ask_write ∧
  rwp (call_function FRecv 1) (results (result_type FRecv) 3) (λ _, quiet) ask_write.
Proof.
  assert (quiet ask_write) as Hq by (by apply ask_quiet).
  assert (room LUA_MINSTACK ask_write) as Hroom by (vm_compute; done). split_and!.
  - vm_compute. reflexivity.
  - exact (client_module_safe FSelect 1 None (Some [LInteger 1]) ask_write Hq Hroom (λ _, ask_write_arguments)).
  - apply (client_module_safe FRecv 1 None None ask_write Hq Hroom). discriminate.
Defined.

(** The connection can be written to: select returns an empty table and one with
    its id. *)
Lemma select_reports_ready_witness :
  ∃ s', select_socket 1 ask_write = Ret (inr 2) s' ∧
    select_result None (Some [LInteger 1]) ask_write 2 s' ∧
    plain_table (lc_lua s') 3 1 = LInteger 1.
Proof.
  assert (quiet ask_write) as Hq by (by apply ask_quiet).
  assert (room LUA_MINSTACK ask_write) as Hroom by (vm_compute; done).
  pose proof (select_reports_ready None (Some [LInteger 1]) 1 ask_write Hq Hroom ask_write_arguments) as H.
  assert (match select_socket 1 ask_write with
    | Ret (inr n) s' => 
        (n =? 2) && match plain_table (lc_lua s') 3 1 with LInteger id => id =? 1 | _ => false end
    | _ => false
    end = true) as E by (vm_compute; reflexivity).
  unfold rwlp in H. destruct (select_socket 1 ask_write) as [[e|n] s'|]; [discriminate| |discriminate].
  apply andb_true_iff in E as [->%Z.eqb_eq Ht]. exists s'. split_and!; [done|done|].
  destruct (plain_table _ _ _); try discriminate. apply Z.eqb_eq in Ht. by subst.
Defined.

(** Nothing arrives: after two turns a second is over. *)
Lemma select_ends_witness :
  select_answer ask_read 2 = Some [LBoolean false] ∧
  match select_socket 2 ask_read with
  | Ret (inr n) s' => select_result (Some [LInteger 1]) None ask_read n s'
  | Ret (inl e) s' => quiet s'
  | Fault _ => False
  end.
Proof.
  split; [vm_compute; reflexivity|]. apply select_ends.
  - by apply ask_quiet.
  - vm_compute. done.
  - apply ask_read_arguments.
  - right. exists (of_Z 1). split; [reflexivity|]. split; vm_compute; discriminate.
  - lia.
Defined.

(** A second and a half. *)
Lemma durations_in_range_witness :
  connect_milliseconds (ddiv (of_Z 3) (of_Z 2)) = Some 1500 ∧
  time_is_up (ddiv (of_Z 3) (of_Z 2)) 0 1500000000 = true.
Proof.
  destruct (durations_in_range (ddiv (of_Z 3) (of_Z 2)) 0 1500000000) as [Hc _];
    [split; reflexivity|vm_compute; discriminate|lia|lia|].
  destruct Hc as ((ms & Hms & _) & _ & Hup & _); [vm_compute; discriminate|]. split.
  - rewrite Hms. vm_compute in Hms. congruence.
  - apply Hup. vm_compute. discriminate.
Defined.
