(* ===== verification/Memory.v ===== *)
(** * The memory interface on Windows

    src/src/memory/memory.c: blocks of the process heap with an aligned pointer
    into each, and a header just before that pointer which finds the block
    again.  A word has 64 bits. *)
From S2P Require Import Prelude.

(** ** The process heap *)

(** [HeapAlloc], by the blocks that exist, with their sizes, and the size. *)
Class ProcessHeap := {
  heap_alloc : gmap Z Z → Z → option Z;
}.

(** A block is within the address space and overlaps no other. *)
Class ProcessHeapLaws `(ProcessHeap) : Prop := {
  heap_alloc_fresh blocks size base :
    0 < size → heap_alloc blocks size = Some base →
    0 < base ∧ base + size ≤ 2 ^ 64 ∧
    ∀ b t, blocks !! b = Some t → base + size ≤ b ∨ b + t ≤ base;
}.

(** [struct skyuv_memory_header]. *)
Record skyuv_memory_header := Header {
  hd_base : Z;
  hd_size : Z;
}.

(** The blocks, the headers by address, and the bytes; a byte that was never
    written, or that a header covers, has no value. *)
Record memory := Memory {
  me_blocks : gmap Z Z;
  me_headers : gmap Z skyuv_memory_header;
  me_bytes : Z → option Z;
}.

Definition eta_memory (m : memory) : memory := Memory (me_blocks m) (me_headers m) (me_bytes m).
#[export] Instance set_me_blocks : Setter me_blocks := ltac:(mk_setter eta_memory).
#[export] Instance set_me_headers : Setter me_headers := ltac:(mk_setter eta_memory).
#[export] Instance set_me_bytes : Setter me_bytes := ltac:(mk_setter eta_memory).

Notation Heap := (M memory).

(** [sizeof] of a pointer and of the header. *)
Definition pointer_size : Z := 8.
Definition header_size : Z := 16.

Definition SKYUV_WINDOWS_DEFAULT_ALIGNMENT : Z := 2 * pointer_size.

Definition within (a base size : Z) : bool := (base <=? a) && (a <? base + size).

Section windows.
Context `{ProcessHeap}.

Definition HeapAlloc (zero : bool) (size : Z) : Heap (option Z) := λ m,
  match heap_alloc (me_blocks m) size with
  | None => Ret None m
  | Some base =>
      Ret (Some base) (m <| me_blocks ::= <[base := size]> |>
        <| me_bytes ::= λ bytes a, if within a base size then (if zero then Some 0 else None) else bytes a |>)
  end.

(** What was in the block is gone. *)
Definition HeapFree (base : Z) : Heap unit := λ m,
  match me_blocks m !! base with
  | None => Fault UseAfterFree
  | Some size =>
      Ret tt (m <| me_blocks ::= delete base |>
        <| me_headers ::= filter (λ x, hd_base x.2 ≠ base) |>
        <| me_bytes ::= λ bytes a, if within a base size then None else bytes a |>)
  end.

Definition write_header (a : Z) (h : skyuv_memory_header) : Heap unit :=
  modify (λ m, m <| me_headers ::= <[a := h]> |>
    <| me_bytes ::= λ bytes b, if within b a header_size then None else bytes b |>).

Definition read_header (a : Z) : Heap skyuv_memory_header := λ m,
  match me_headers m !! a with Some h => Ret h m | None => Fault UseAfterFree end.

Definition memcpy (target source size : Z) : Heap unit :=
  modify (λ m, m <| me_bytes ::= λ bytes a,
    if within a target size then bytes (a - target + source) else bytes a |>).

(** ** The interface *)

Definition skyuv_is_power_of_two (value : Z) : bool :=
  negb (value =? 0) && (Z.land value (value - 1) =? 0).

Definition skyuv_heap_allocate (alignment size : Z) (zero_memory : bool) : Heap (option Z) :=
  let normalized_size := if size =? 0 then 1 else size in
  if negb (skyuv_is_power_of_two alignment) || (alignment <? pointer_size) then mret None
  else
    let extra := u64 (header_size + alignment - 1) in
    if SIZE_MAX - extra <? normalized_size then mret None
    else
      block ← HeapAlloc zero_memory (u64 (normalized_size + extra));
      match block with
      | None => mret None
      | Some base =>
          let candidate := u64 (base + header_size) in
          let aligned := Z.land (u64 (candidate + alignment - 1)) (u64 (Z.lnot (alignment - 1))) in
          write_header (aligned - header_size) (Header base normalized_size) ;;
          mret (Some aligned)
      end.

Definition skyuv_malloc (size : Z) : Heap (option Z) :=
  skyuv_heap_allocate SKYUV_WINDOWS_DEFAULT_ALIGNMENT size false.

Definition skyuv_calloc (count size : Z) : Heap (option Z) :=
  if negb (count =? 0) && (SIZE_MAX / count <? size) then mret None
  else skyuv_heap_allocate SKYUV_WINDOWS_DEFAULT_ALIGNMENT (u64 (count * size)) true.

Definition skyuv_free (pointer : option Z) : Heap unit :=
  match pointer with
  | None => skip
  | Some p =>
      h ← read_header (p - header_size);
      HeapFree (hd_base h)
  end.

Definition skyuv_realloc (pointer : option Z) (size : Z) : Heap (option Z) :=
  match pointer with
  | None => skyuv_malloc size
  | Some p =>
      if size =? 0 then skyuv_free pointer ;; mret None
      else
        replacement ← skyuv_malloc size;
        match replacement with
        | None => mret None
        | Some q =>
            h ← read_header (p - header_size);
            let copy_size := if hd_size h <? size then hd_size h else size in
            memcpy q p copy_size ;;
            skyuv_free pointer ;;
            mret (Some q)
        end
  end.

Definition skyuv_aligned_alloc (alignment size : Z) : Heap (option Z) :=
  skyuv_heap_allocate alignment size false.

(** [ENOMEM] and [EINVAL] of the platform; the pointer is stored on success. *)
Definition ENOMEM : Z := 12.
Definition EINVAL : Z := 22.

Definition skyuv_posix_memalign (result : bool) (alignment size : Z) : Heap (Z * option Z) :=
  if negb result || negb (skyuv_is_power_of_two alignment) || (alignment <? pointer_size)
  then mret (EINVAL, None)
  else
    pointer ← skyuv_aligned_alloc alignment size;
    match pointer with
    | None => mret (ENOMEM, None)
    | Some p => mret (0, Some p)
    end.

End windows.

(** ** Arithmetic *)

Lemma power_of_two value :
  0 ≤ value → skyuv_is_power_of_two value = true → ∃ k, 0 ≤ k ∧ value = 2 ^ k.
Proof.
  unfold skyuv_is_power_of_two. intros Hv [Hz%negb_true_iff%Z.eqb_neq Hl%Z.eqb_eq]%andb_true_iff.
  exists (Z.log2 value). split; [apply Z.log2_nonneg|].
  destruct (Z.log2_spec value) as [Hlo Hhi]; [lia|].
  destruct (decide (value = 2 ^ Z.log2 value)) as [|Hne]; [done|].
  assert (Z.testbit (Z.land value (value - 1)) (Z.log2 value) = true) as Hbit.
  { rewrite Z.land_spec, Z.bit_log2 by lia.
    assert (Z.log2 (value - 1) = Z.log2 value) as <- by (apply Z.log2_unique; [apply Z.log2_nonneg|lia]).
    pose proof (Z.pow_pos_nonneg 2 (Z.log2 value)). pose proof (Z.log2_nonneg value).
    by rewrite Z.bit_log2 by lia. }
  by rewrite Hl, Z.bits_0 in Hbit.
Qed.

(** Rounding down to a multiple of a power of two. *)
Lemma align_down x k :
  0 ≤ x < 2 ^ 64 → 0 ≤ k ≤ 64 → Z.land x (u64 (Z.lnot (2 ^ k - 1))) = x / 2 ^ k * 2 ^ k.
Proof.
  intros Hx Hk. rewrite <- Z.shiftr_div_pow2, <- Z.shiftl_mul_pow2 by lia.
  apply Z.bits_inj'. intros n Hn. rewrite Z.land_spec, Z.shiftl_spec by lia.
  unfold u64, uwrap. rewrite <- Z.land_ones, Z.land_spec, Z.testbit_ones_nonneg by lia.
  rewrite Z.lnot_spec, Z.sub_1_r, <- Z.ones_equiv, Z.testbit_ones_nonneg by lia.
  destruct (Z.ltb_spec n k) as [Hnk|Hnk]; simpl.
  - by rewrite andb_false_r, Z.testbit_neg_r by lia.
  - rewrite Z.shiftr_spec by lia. replace (n - k + k) with n by lia.
    destruct (Z.ltb_spec n 64) as [H64|H64]; [by rewrite andb_true_r|].
    rewrite Z.bits_above_log2; [done|lia|]. destruct (decide (x = 0)) as [->|]; [simpl; lia|].
    apply Z.log2_lt_pow2; [lia|]. apply Z.lt_le_trans with (2 ^ 64); [lia|]. apply Z.pow_le_mono_r; lia.
Qed.
