(* ===== verification/MemoryProperties.v ===== *)
(** * What the memory interface promises

    Every pointer it hands out is aligned and has its size to itself; the header
    before it, and nothing else, finds its block again; releasing it gives the
    block back and moving it keeps its bytes. *)
From S2P Require Import Prelude Memory.

Implicit Types (m : memory) (p q a b n t : Z) (h : skyuv_memory_header).

#[global] Arguments header_size : simpl never.
#[global] Arguments pointer_size : simpl never.
#[global] Arguments SIZE_MAX : simpl never.

(** ** Pointers *)

(** The size behind a pointer that was handed out and not released. *)
Definition live m p : option Z := hd_size <$> me_headers m !! (p - header_size).

(** The live pointers but [p] are live in [m'] with the bytes they had. *)
Definition keeps p m m' : Prop :=
  ∀ q n, q ≠ p → live m q = Some n →
    live m' q = Some n ∧ ∀ a, q ≤ a < q + n → me_bytes m' a = me_bytes m a.

(** Nothing live overlaps the [n] bytes at [p]. *)
Definition unused m p n : Prop := ∀ q k, live m q = Some k → p + n ≤ q ∨ q + k ≤ p.

(** Headers are within their blocks, one in each, and blocks are disjoint. *)
Record MInv m : Prop := MkMInv {
  mi_block b t : me_blocks m !! b = Some t → 0 < b ∧ 0 < t ∧ b + t ≤ 2 ^ 64;
  mi_disjoint b1 t1 b2 t2 : me_blocks m !! b1 = Some t1 → me_blocks m !! b2 = Some t2 → b1 ≠ b2 →
    b1 + t1 ≤ b2 ∨ b2 + t2 ≤ b1;
  mi_header a h : me_headers m !! a = Some h → ∃ t, me_blocks m !! hd_base h = Some t ∧
    hd_base h ≤ a ∧ a + header_size + hd_size h ≤ hd_base h + t ∧ 0 < hd_size h;
  mi_unique a1 a2 h1 h2 : me_headers m !! a1 = Some h1 → me_headers m !! a2 = Some h2 →
    hd_base h1 = hd_base h2 → a1 = a2;
  mi_owned b t : me_blocks m !! b = Some t → ∃ a h, me_headers m !! a = Some h ∧ hd_base h = b;
}.

Lemma live_header m p n :
  live m p = Some n → ∃ h, me_headers m !! (p - header_size) = Some h ∧ hd_size h = n.
Proof. unfold live. intros (h & Hh & ->)%fmap_Some. eauto. Qed.

Lemma within_true a base size : within a base size = true ↔ base ≤ a < base + size.
Proof. unfold within. rewrite andb_true_iff, Z.leb_le, Z.ltb_lt. done. Qed.

Lemma within_false a base size : within a base size = false ↔ ¬ (base ≤ a < base + size).
Proof. rewrite <- within_true. destruct (within a base size); naive_solver. Qed.

(** The test for a product that does not fit. *)
Lemma overflow_check count size :
  0 ≤ count ≤ SIZE_MAX → 0 ≤ size ≤ SIZE_MAX →
  SIZE_MAX < count * size ↔ negb (count =? 0) && (SIZE_MAX / count <? size) = true.
Proof.
  intros Hc Hs. rewrite andb_true_iff, negb_true_iff, Z.eqb_neq, Z.ltb_lt. split.
  - intros Hlt. split; [intros ->; unfold SIZE_MAX in *; lia|]. apply Z.div_lt_upper_bound; lia.
  - intros [Hne Hlt]. pose proof (Z.mul_succ_div_gt SIZE_MAX count). nia.
Qed.

Section contract.
Context `{ProcessHeap} {laws : ProcessHeapLaws _}.

(** ** Allocation *)

(** The state after a block of [n] bytes and [extra] more was allocated at [base]
    and the pointer [p] was put into it. *)
Definition placed (zero : bool) p n extra base m : memory :=
  Memory (<[base := n + extra]> (me_blocks m))
    (<[p - header_size := Header base n]> (me_headers m))
    (λ b, if within b (p - header_size) header_size then None
          else if within b base (n + extra) then (if zero then Some 0 else None) else me_bytes m b).

Record placement alignment p n extra base m : Prop := Placement {
  pl_aligned : p mod alignment = 0;
  pl_header : base + header_size ≤ p;
  pl_end : p + n ≤ base + n + extra;
  pl_size : 0 < n;
  pl_base : 0 < base ∧ base + (n + extra) ≤ 2 ^ 64;
  pl_fresh b t : me_blocks m !! b = Some t → base + (n + extra) ≤ b ∨ b + t ≤ base;
}.

Lemma wp_heap_allocate alignment size zero m (Q : option Z → memory → Prop) :
  0 ≤ alignment ≤ SIZE_MAX → 0 ≤ size ≤ SIZE_MAX → Q None m →
  (∀ p extra base, skyuv_is_power_of_two alignment = true → pointer_size ≤ alignment →
     placement alignment p (Z.max 1 size) extra base m →
     Q (Some p) (placed zero p (Z.max 1 size) extra base m)) →
  wp (skyuv_heap_allocate alignment size zero) Q m.
Proof.
  intros Hal Hsz HN HS. unfold skyuv_heap_allocate. cbv zeta.
  replace (if size =? 0 then 1 else size) with (Z.max 1 size)
    by (destruct (Z.eqb_spec size 0); lia). set (n := Z.max 1 size) in *.
  destruct (skyuv_is_power_of_two alignment) eqn:Hpow; [|by apply wp_ret]. cbn [negb orb].
  destruct (Z.ltb_spec alignment pointer_size) as [|Hge]; [by apply wp_ret|].
  destruct (power_of_two alignment) as (k & Hk & Hak); [lia|done|].
  unfold pointer_size in Hge.
  assert (alignment ≤ 2 ^ 63) as Hhalf.
  { rewrite Hak. apply Z.pow_le_mono_r; [lia|]. apply Z.lt_succ_r, (Z.pow_lt_mono_r_iff 2); [lia..|].
    rewrite <- Hak. unfold SIZE_MAX in Hal. lia. }
  assert (k ≤ 64) as Hk64.
  { apply Z.lt_le_incl, (Z.pow_lt_mono_r_iff 2); [lia..|]. rewrite <- Hak. lia. }
  assert (u64 (header_size + alignment - 1) = header_size + alignment - 1) as ->
    by (apply uwrap_small; unfold header_size; lia).
  set (extra := header_size + alignment - 1).
  destruct (Z.ltb_spec (SIZE_MAX - extra) n) as [|Hfit]; [by apply wp_ret|].
  assert (u64 (n + extra) = n + extra) as ->
    by (apply uwrap_small; unfold extra, header_size, SIZE_MAX in *; lia).
  apply wp_bind. unfold wp at 1, HeapAlloc. destruct (heap_alloc _ _) as [base|] eqn:Hb; [|by apply wp_ret].
  destruct (heap_alloc_fresh (me_blocks m) (n + extra) base) as (Hpos & Htop & Hfresh);
    [unfold extra, header_size; lia|done|].
  assert (u64 (base + header_size) = base + header_size) as ->
    by (apply uwrap_small; unfold extra, header_size in *; lia).
  assert (u64 (base + header_size + alignment - 1) = base + header_size + alignment - 1) as ->
    by (apply uwrap_small; unfold extra, header_size in *; lia).
  rewrite Hak, align_down, <- Hak by (unfold extra, header_size in *; lia).
  set (x := base + header_size + alignment - 1).
  apply wp_bind, wp_modify, wp_ret.
  pose proof (Z.div_mod x alignment). pose proof (Z.mod_pos_bound x alignment).
  apply (HS (x / alignment * alignment) extra base); [done|unfold pointer_size; lia|].
  split; try done; try (unfold x, extra in *; lia). apply Z.mod_mul. lia.
Qed.

Section placed.
Context {alignment p n extra base : Z} {m : memory} (zero : bool).
Context (HI : MInv m) (Hpl : placement alignment p n extra base m).

(** Nothing that existed touches the new block. *)
Lemma placed_apart a h :
  me_headers m !! a = Some h →
  hd_base h ≠ base ∧ (base + (n + extra) ≤ a ∨ a + header_size + hd_size h ≤ base).
Proof using HI Hpl.
  intros Hh. destruct (mi_header _ HI a h Hh) as (t & Ht & Hlo & Hhi & Hpos).
  destruct (mi_block _ HI _ _ Ht) as (? & ? & _). destruct Hpl as [_ ? ? ? _ Hfresh].
  unfold header_size in *. destruct (Hfresh _ _ Ht); lia.
Qed.

Lemma placed_new : me_headers m !! (p - header_size) = None ∧ me_blocks m !! base = None.
Proof using HI Hpl.
  destruct Hpl as [_ ? ? ? _ Hfresh]. unfold header_size in *. split.
  - destruct (me_headers m !! (p - 16)) as [h|] eqn:E; [|done].
    destruct (mi_header _ HI _ _ E) as (t & _ & _ & _ & ?).
    apply placed_apart in E as [_ E]. unfold header_size in E. lia.
  - destruct (me_blocks m !! base) as [t|] eqn:E; [|done].
    destruct (mi_block _ HI _ _ E) as (? & ? & _). destruct (Hfresh _ _ E); lia.
Qed.

Lemma placed_inv : MInv (placed zero p n extra base m).
Proof using HI Hpl.
  pose proof placed_apart as Hap. destruct placed_new as [Hnh Hnb]. pose proof Hpl as [_ Hlo Hhi Hpos Hb Hfresh].
  unfold header_size in *. split; simpl.
  - intros b t. rewrite lookup_insert_Some. intros [[<- <-]|[_ Hbt]]; [lia|by apply (mi_block _ HI)].
  - intros b1 t1 b2 t2. rewrite !lookup_insert_Some.
    intros [[<- <-]|[? H1]] [[<- <-]|[? H2]] Hne; [done| | |by apply (mi_disjoint _ HI)].
    + by apply Hfresh.
    + destruct (Hfresh _ _ H1); [by right|by left].
  - intros a h. rewrite lookup_insert_Some. intros [[<- <-]|[_ Hh]]; simpl.
    + exists (n + extra). rewrite lookup_insert_eq. unfold header_size. split_and!; try done; lia.
    + destruct (mi_header _ HI a h Hh) as (t & Ht & ?). exists t. split; [|done].
      rewrite lookup_insert_ne; [done|]. intros ->. by destruct (Hap a h Hh).
  - intros a1 a2 h1 h2. rewrite !lookup_insert_Some.
    intros [[<- <-]|[? H1]] [[<- <-]|[? H2]] Heq; simpl in *; [done| | |by eapply (mi_unique _ HI)].
    + by destruct (Hap _ _ H2).
    + by destruct (Hap _ _ H1).
  - intros b t. rewrite lookup_insert_Some. intros [[<- <-]|[Hne Hbt]].
    + exists (p - 16), (Header base n). by rewrite lookup_insert_eq.
    + destruct (mi_owned _ HI b t Hbt) as (a & h & Hh & ?). exists a, h. split; [|done].
      rewrite lookup_insert_ne; [done|]. intros <-. unfold header_size in *. congruence.
Qed.

Lemma placed_live q :
  live (placed zero p n extra base m) q = if decide (q = p) then Some n else live m q.
Proof using.
  unfold live, placed. simpl. destruct (decide (q = p)) as [->|Hne].
  - by rewrite lookup_insert_eq.
  - by rewrite lookup_insert_ne by lia.
Qed.

Lemma placed_spec :
  live m p = None ∧ unused m p n ∧ keeps p m (placed zero p n extra base m) ∧
  (∀ a, p ≤ a < p + n → me_bytes (placed zero p n extra base m) a = if zero then Some 0 else None).
Proof using HI Hpl.
  destruct placed_new as [Hnh _]. pose proof Hpl as [_ Hlo Hhi Hpos _ _]. unfold header_size in *.
  split_and!.
  - unfold live. unfold header_size. by rewrite Hnh.
  - intros q k (h & Hh & <-)%live_header. apply placed_apart in Hh as [_ Hh]. unfold header_size in *. lia.
  - intros q k Hne Hq. rewrite placed_live, decide_False by done. split; [done|]. intros a Ha.
    apply live_header in Hq as (h & Hh & <-). apply placed_apart in Hh as [_ Hh]. unfold placed. simpl.
    unfold header_size in *. rewrite !(proj2 (within_false _ _ _)) by lia. done.
  - intros a Ha. unfold placed. simpl. unfold header_size.
    rewrite (proj2 (within_false _ _ _)) by lia. by rewrite (proj2 (within_true _ _ _)) by lia.
Qed.

End placed.

(** ** Release *)

Lemma wp_free p n m (Q : unit → memory → Prop) :
  MInv m → live m p = Some n →
  (∀ m', MInv m' → me_headers m' = delete (p - header_size) (me_headers m) → keeps p m m' →
     size (me_blocks m') = pred (size (me_blocks m)) → Q tt m') →
  wp (skyuv_free (Some p)) Q m.
Proof.
  intros HI (h & Hh & <-)%live_header HQ. unfold skyuv_free. apply wp_bind. unfold wp at 1, read_header.
  rewrite Hh. destruct (mi_header _ HI _ _ Hh) as (t & Ht & Hlo & Hhi & Hpos).
  unfold wp, HeapFree. rewrite Ht. set (m' := m <| me_blocks ::= _ |> <| me_headers ::= _ |> <| me_bytes ::= _ |>).
  assert (me_headers m' = delete (p - header_size) (me_headers m)) as Hhd.
  { apply map_eq. intros a. apply option_eq. intros x. simpl.
    rewrite map_lookup_filter_Some, lookup_delete_Some. simpl. split.
    - intros [Hx Hne]. split; [|done]. intros <-. simplify_eq.
    - intros [Hne Hx]. split; [done|]. intros Heq. apply Hne. by eapply (mi_unique _ HI). }
  apply HQ; [|done| |].
  - split; simpl.
    + intros b t'. rewrite lookup_delete_Some. intros [_ ?]. by apply (mi_block _ HI).
    + intros b1 t1 b2 t2. rewrite !lookup_delete_Some. intros [_ ?] [_ ?]. by apply (mi_disjoint _ HI).
    + intros a x. rewrite map_lookup_filter_Some. simpl. intros [Hx Hne].
      destruct (mi_header _ HI a x Hx) as (t' & Ht' & ?). exists t'.
      by rewrite lookup_delete_ne by congruence.
    + intros a1 a2 h1 h2. rewrite !map_lookup_filter_Some. intros [? _] [? _]. by eapply (mi_unique _ HI).
    + intros b t'. rewrite lookup_delete_Some. intros [Hne Hb].
      destruct (mi_owned _ HI b t' Hb) as (a & x & Hx & <-). exists a, x.
      rewrite map_lookup_filter_Some. simpl. split; [|done]. split; congruence.
  - intros q k Hne Hq. apply live_header in Hq as (x & Hx & <-).
    split; [unfold live; rewrite Hhd, lookup_delete_ne by lia; by rewrite Hx|].
    intros a Ha. simpl. rewrite (proj2 (within_false _ _ _)); [done|].
    destruct (mi_header _ HI _ _ Hx) as (t' & Ht' & ? & ? & ?). unfold header_size in *.
    destruct (mi_disjoint _ HI _ _ _ _ Ht Ht'); [|lia|lia].
    intros Heq. apply Hne. assert (q - 16 = p - 16); [by eapply (mi_unique _ HI)|lia].
  - simpl. rewrite map_size_delete_Some by eauto. done.
Qed.

(** ** The contract *)

Lemma MInv_bytes m m' :
  MInv m → me_blocks m' = me_blocks m → me_headers m' = me_headers m → MInv m'.
Proof. intros [] Hb Hh. by split; rewrite ?Hb, ?Hh. Qed.

(** The result of an allocation of [n] bytes. *)
Definition allocated alignment n (zero : bool) m (o : option Z) m' : Prop :=
  MInv m' ∧
  match o with
  | None => m' = m
  | Some p =>
      p mod alignment = 0 ∧ 0 < p ∧ p + n ≤ 2 ^ 64 ∧ live m p = None ∧ live m' p = Some n ∧
      unused m p n ∧ keeps p m m' ∧ (zero = true → ∀ a, p ≤ a < p + n → me_bytes m' a = Some 0)
  end.

Lemma heap_allocate_ok alignment size zero m :
  MInv m → 0 ≤ alignment ≤ SIZE_MAX → 0 ≤ size ≤ SIZE_MAX →
  wp (skyuv_heap_allocate alignment size zero) (allocated alignment (Z.max 1 size) zero m) m.
Proof.
  intros HI Hal Hsz. apply wp_heap_allocate; [done|done|by split|].
  intros p extra base _ _ Hpl. destruct (placed_spec zero HI Hpl) as (Hnl & Hun & Hk & Hz).
  split; [by eapply placed_inv|]. destruct Hpl as [? ? ? ? [? ?] _]. unfold header_size in *.
  rewrite placed_live, decide_True by done. split_and!; try done; try lia. intros ->. apply Hz.
Qed.

Lemma windows_calloc_ok count size m :
  MInv m → 0 ≤ count ≤ SIZE_MAX → 0 ≤ size ≤ SIZE_MAX →
  wp (skyuv_calloc count size) (λ o m', (SIZE_MAX < count * size → o = None) ∧
    allocated SKYUV_WINDOWS_DEFAULT_ALIGNMENT (Z.max 1 (count * size)) true m o m') m.
Proof.
  intros HI Hc Hs. unfold skyuv_calloc. pose proof (overflow_check count size Hc Hs) as Hover.
  destruct (negb (count =? 0) && _); [by apply wp_ret|].
  assert (count * size ≤ SIZE_MAX) as Hle by (apply Z.nlt_ge; intros ?; naive_solver).
  assert (u64 (count * size) = count * size) as -> by (apply uwrap_small; unfold SIZE_MAX in *; nia).
  eapply wp_mono; [apply heap_allocate_ok; [done|done|nia]|].
  intros o m' Ha. split; [lia|done].
Qed.

Lemma realloc_ok p n size m :
  MInv m → live m p = Some n → 0 < size ≤ SIZE_MAX →
  wp (skyuv_realloc (Some p) size) (λ o m', MInv m' ∧
    match o with
    | None => m' = m
    | Some q => q mod SKYUV_WINDOWS_DEFAULT_ALIGNMENT = 0 ∧ 0 < q ∧ q + size ≤ 2 ^ 64 ∧
        live m q = None ∧ live m' p = None ∧ live m' q = Some size ∧ keeps p m m' ∧
        ∀ k, 0 ≤ k < Z.min n size → me_bytes m' (q + k) = me_bytes m (p + k)
    end) m.
Proof.
  intros HI Hp Hsz. unfold skyuv_realloc. rewrite (proj2 (Z.eqb_neq size 0)) by lia. apply wp_bind.
  eapply wp_mono; [apply heap_allocate_ok; [done|done|lia]|].
  rewrite Z.max_r by lia. intros [q|] m1 [HI1 Hq]; [|by apply wp_ret].
  destruct Hq as (Hal & Hqp & Hqe & Hnq & Hlq & Hun & Hk & _).
  assert (p ≠ q) as Hpq by congruence. destruct (Hk p n Hpq Hp) as [Hp1 Hpb].
  destruct (live_header _ _ _ Hp1) as (h & Hh & Hn). pose proof (mi_header _ HI1 _ _ Hh) as (_ & _ & _ & _ & Hpos).
  apply wp_bind. unfold wp at 1, read_header. rewrite Hh, Hn. apply wp_bind, wp_modify.
  set (copy := if n <? size then n else size).
  assert (copy = Z.min n size) as Hcopy by (unfold copy; destruct (Z.ltb_spec n size); lia).
  set (m2 := m1 <| me_bytes ::= _ |>). apply wp_bind.
  apply (wp_free p n m2); [by apply (MInv_bytes m1)|done|].
  intros m' HI' Hhd Hk' _. apply wp_ret. split; [done|].
  assert (∀ r, r ≠ p → live m' r = live m1 r) as Hlive.
  { intros r Hr. unfold live. by rewrite Hhd, lookup_delete_ne by lia. }
  destruct (Hk' q size) as [_ Hqb]; [done|done|]. split_and!; [done..| | | |].
  - unfold live. by rewrite Hhd, lookup_delete_eq.
  - by rewrite Hlive.
  - intros r k Hr Hrl. assert (r ≠ q) as Hrq by congruence. destruct (Hk r k Hrq Hrl) as [Hr1 Hrb].
    split; [by rewrite Hlive|]. intros a Ha. destruct (Hk' r k Hr) as [_ Hrb']; [done|].
    rewrite Hrb' by done. simpl. rewrite <- Hrb by done. rewrite (proj2 (within_false _ _ _)); [done|].
    destruct (Hun r k Hrl); lia.
  - intros k Hkr. rewrite Hqb by lia. simpl. rewrite (proj2 (within_true _ _ _)) by lia.
    replace (q + k - q + p) with (p + k) by lia. apply Hpb. lia.
Qed.

(** The memory interface on Windows keeps its promises, whatever the process
    heap returns.  A pointer that is handed out is a multiple of its alignment,
    its bytes are within the address space and disjoint from those of every
    pointer still live, which keep their sizes and contents; a request that would
    overflow is refused, and zeroed memory is zero; releasing a pointer releases
    exactly its block; and a pointer that is moved keeps its bytes up to the
    smaller size, while a failed move changes nothing. *)
Theorem memory_contract m :
  MInv m →
  (∀ alignment size zero, 0 ≤ alignment ≤ SIZE_MAX → 0 ≤ size ≤ SIZE_MAX →
     wp (skyuv_heap_allocate alignment size zero) (allocated alignment (Z.max 1 size) zero m) m) ∧
  (∀ count size, 0 ≤ count ≤ SIZE_MAX → 0 ≤ size ≤ SIZE_MAX →
     wp (skyuv_calloc count size) (λ o m', (SIZE_MAX < count * size → o = None) ∧
       allocated SKYUV_WINDOWS_DEFAULT_ALIGNMENT (Z.max 1 (count * size)) true m o m') m) ∧
  (∀ p n, live m p = Some n →
     wp (skyuv_free (Some p)) (λ _ m', MInv m' ∧ live m' p = None ∧ keeps p m m' ∧
       base.size (me_blocks m') = pred (base.size (me_blocks m))) m) ∧
  (∀ p n size, live m p = Some n → 0 < size ≤ SIZE_MAX →
     wp (skyuv_realloc (Some p) size) (λ o m', MInv m' ∧
       match o with
       | None => m' = m
       | Some q => q mod SKYUV_WINDOWS_DEFAULT_ALIGNMENT = 0 ∧ 0 < q ∧ q + size ≤ 2 ^ 64 ∧
           live m q = None ∧ live m' p = None ∧ live m' q = Some size ∧ keeps p m m' ∧
           ∀ k, 0 ≤ k < Z.min n size → me_bytes m' (q + k) = me_bytes m (p + k)
       end) m).
Proof.
  intros HI. split_and!.
  - intros. by apply heap_allocate_ok.
  - intros. by apply windows_calloc_ok.
  - intros p n Hp. eapply wp_free; [done|done|]. intros m' HI' Hhd Hk Hsz. split_and!; try done.
    unfold live. by rewrite Hhd, lookup_delete_eq.
  - intros. by apply realloc_ok.
Qed.

End contract.

(** ** A heap *)

(** Where the last block ends. *)
Definition blocks_end (blocks : gmap Z Z) : Z := map_fold (λ b t top, Z.max top (b + t)) 4096 blocks.

Lemma blocks_end_spec blocks :
  4096 ≤ blocks_end blocks ∧ ∀ b t, blocks !! b = Some t → b + t ≤ blocks_end blocks.
Proof.
  apply (map_fold_weak_ind (λ top blocks, 4096 ≤ top ∧ ∀ b t, blocks !! b = Some t → b + t ≤ top)).
  - split; [done|]. intros b t. by rewrite lookup_empty.
  - intros b t blocks' top Hb [IH1 IH2]. split; [lia|]. intros b' t'. rewrite lookup_insert_Some.
    intros [[<- <-]|[_ Hb']]; [lia|]. specialize (IH2 _ _ Hb'). lia.
Qed.

(** Blocks one after the other. *)
Definition bump_heap : ProcessHeap := {|
  heap_alloc blocks size :=
    if blocks_end blocks + size <=? 2 ^ 64 then Some (blocks_end blocks) else None;
|}.

#[local] Existing Instance bump_heap.

#[local] Instance bump_heap_laws : ProcessHeapLaws bump_heap.
Proof.
  split. intros blocks size base Hsize. simpl. destruct (blocks_end_spec blocks) as [Hlo Hhi].
  destruct (Z.leb_spec (blocks_end blocks + size) (2 ^ 64)); intros [= <-].
  split_and!; [lia|done|]. intros b t Hb. right. by apply Hhi.
Qed.

Definition empty_memory : memory := Memory ∅ ∅ (λ _, None).

Lemma empty_memory_ok : MInv empty_memory.
Proof. split; simpl; intros *; by rewrite ?lookup_empty. Qed.

(** Three bytes aligned to 64: the header needs 16 bytes of the 82. *)
Lemma memory_contract_witness :
  wp (skyuv_heap_allocate 64 3 true) (allocated 64 3 true empty_memory) empty_memory ∧
  match skyuv_heap_allocate 64 3 true empty_memory with
  | Ret (Some p) m => p = 4160 ∧ live m p = Some 3 ∧ me_blocks m !! 4096 = Some 82
  | _ => False
  end.
Proof.
  split; [|vm_compute; done].
  destruct (memory_contract empty_memory empty_memory_ok) as [Halloc _].
  apply (Halloc 64 3 true); split; vm_compute; discriminate.
Defined.
