(* ===== verification/MemoryInterface.v ===== *)
(** * The memory interface

    src/include/skyuv/memory.h, as what its callers may rely on on every
    platform, and the allocator that Lua states get from it
    (src/src/compat/skynet/skyuv_runtime.c), which is proved against it.  The
    implementation for Windows keeps the promise. *)
From S2P Require Import Prelude Memory MemoryProperties.

(** ** What is promised *)

(** The operations of memory.h; [None] is NULL.  [skyuv_posix_memalign] is told
    whether its argument [result] points somewhere and returns what it stores. *)
Class MemoryOps (S : Type) := {
  mem_malloc : Z → M S (option Z);
  mem_calloc : Z → Z → M S (option Z);
  mem_realloc : option Z → Z → M S (option Z);
  mem_free : option Z → M S unit;
  mem_aligned_alloc : Z → Z → M S (option Z);
  mem_posix_memalign : bool → Z → Z → M S (Z * option Z);
}.

(** What can be seen of a state: that it is one the operations lead to, the sizes
    behind live pointers, and the bytes; one that was not written has no value. *)
Class MemoryView (S : Type) := {
  view_ok : S → Prop;
  view_live : S → Z → option Z;
  view_byte : S → Z → option Z;
}.

(** Every block that is not asked to be aligned is to this. *)
Definition max_alignment : Z := 16.

(** The alignments that can be asked for. *)
Definition suitable (alignment : Z) : bool :=
  skyuv_is_power_of_two alignment && (pointer_size <=? alignment).

Section view.
Context {S : Type} `{MemoryView S}.
Implicit Types (s : S) (p q n : Z).

(** The live pointers but [p] stay live with the bytes they have. *)
Definition others_kept p s s' : Prop :=
  ∀ q n, q ≠ p → view_live s q = Some n →
    view_live s' q = Some n ∧ ∀ a, q ≤ a < q + n → view_byte s' a = view_byte s a.

(** Memory is handed out, or nothing happens. *)
Definition granted (alignment n : Z) (zero : bool) s (o : option Z) s' : Prop :=
  view_ok s' ∧
  match o with
  | None => s' = s
  | Some p =>
      p mod alignment = 0 ∧ 0 < p ∧ p + n ≤ 2 ^ 64 ∧ view_live s p = None ∧ view_live s' p = Some n ∧
      (∀ q k, view_live s q = Some k → p + n ≤ q ∨ q + k ≤ p) ∧ others_kept p s s' ∧
      (zero = true → ∀ a, p ≤ a < p + n → view_byte s' a = Some 0)
  end.

Definition given_back p s s' : Prop :=
  view_ok s' ∧ view_live s' p = None ∧ others_kept p s s'.

(** A block of [n] bytes becomes one of [size], perhaps elsewhere. *)
Definition resized p n size s (o : option Z) s' : Prop :=
  view_ok s' ∧
  match o with
  | None => s' = s
  | Some q =>
      q mod max_alignment = 0 ∧ 0 < q ∧ q + size ≤ 2 ^ 64 ∧ (q = p ∨ view_live s q = None) ∧
      (q ≠ p → view_live s' p = None) ∧ view_live s' q = Some size ∧ others_kept p s s' ∧
      ∀ k, 0 ≤ k < Z.min n size → view_byte s' (q + k) = view_byte s (p + k)
  end.

End view.

Class MemoryContract (S : Type) (ops : MemoryOps S) (view : MemoryView S) : Prop := {
  malloc_ok size s : view_ok s → 0 ≤ size ≤ SIZE_MAX →
    wp (mem_malloc size) (granted max_alignment (Z.max 1 size) false s) s;
  calloc_ok count size s : view_ok s → 0 ≤ count ≤ SIZE_MAX → 0 ≤ size ≤ SIZE_MAX →
    wp (mem_calloc count size) (λ o s', (SIZE_MAX < count * size → o = None) ∧
      granted max_alignment (Z.max 1 (count * size)) true s o s') s;
  free_ok p n s : view_ok s → view_live s p = Some n →
    wp (mem_free (Some p)) (λ _, given_back p s) s;
  free_null_ok s : wp (mem_free None) (λ _ s', s' = s) s;
  resize_ok p n size s : view_ok s → view_live s p = Some n → 0 < size ≤ SIZE_MAX →
    wp (mem_realloc (Some p) size) (resized p n size s) s;
  resize_zero_ok p n s : view_ok s → view_live s p = Some n →
    wp (mem_realloc (Some p) 0) (λ o s', o = None ∧ given_back p s s') s;
  (** for neither block nor size an implementation may answer NULL or hand out a
      block of one byte *)
  resize_null_ok size s : view_ok s → 0 ≤ size ≤ SIZE_MAX →
    wp (mem_realloc None size) (granted max_alignment (Z.max 1 size) false s) s;
  aligned_alloc_ok alignment size s : view_ok s → 0 ≤ alignment ≤ SIZE_MAX → 0 ≤ size ≤ SIZE_MAX →
    wp (mem_aligned_alloc alignment size) (λ o s', (suitable alignment = false → o = None) ∧
      granted alignment (Z.max 1 size) false s o s') s;
  posix_memalign_ok result alignment size s :
    view_ok s → 0 ≤ alignment ≤ SIZE_MAX → 0 ≤ size ≤ SIZE_MAX →
    wp (mem_posix_memalign result alignment size) (λ r s',
      granted alignment (Z.max 1 size) false s r.2 s' ∧
      (if result && suitable alignment then r.1 = if r.2 then 0 else ENOMEM
       else r = (EINVAL, None))) s;
}.

(** ** The allocator of Lua states *)

Definition skynet_lalloc {S} `{MemoryOps S} (ptr : option Z) (old_size new_size : Z) : M S (option Z) :=
  mem_realloc ptr new_size.

(** What Lua asks of its allocator for a block of [n] bytes at [ptr], or for none:
    a size of 0 releases the block and the answer is NULL; otherwise the answer is
    a block of that size with the bytes of the old one, or NULL, and then nothing
    has changed.  For neither block nor size Lua wants NULL; what the contract gives
    is NULL with nothing changed or a block of one byte. *)
Definition lua_allocated {S} `{MemoryView S} (ptr : option (Z * Z)) (new_size : Z) (s : S) (o : option Z) s' : Prop :=
  match ptr with
  | None => granted max_alignment (Z.max 1 new_size) false s o s'
  | Some (p, n) =>
      if new_size =? 0 then o = None ∧ given_back p s s' else resized p n new_size s o s'
  end.

Lemma lalloc_ok {S} (ops : MemoryOps S) (view : MemoryView S) {contract : MemoryContract S ops view}
    ptr old_size new_size (s : S) :
  view_ok s → 0 ≤ new_size ≤ SIZE_MAX →
  match ptr with None => True | Some (p, n) => view_live s p = Some n end →
  wp (skynet_lalloc (fst <$> ptr) old_size new_size) (lua_allocated ptr new_size s) s.
Proof.
  intros Hs Hsize Hp. unfold skynet_lalloc, lua_allocated. destruct ptr as [[p n]|]; simpl.
  - destruct (Z.eqb_spec new_size 0) as [->|]; [by eapply resize_zero_ok|].
    apply resize_ok; [done|done|lia].
  - by apply resize_null_ok.
Qed.

(** ** Windows *)

Section windows.
Context `{ProcessHeap} {laws : ProcessHeapLaws _}.

#[export] Instance windows_view : MemoryView memory := {|
  view_ok := MInv; view_live := live; view_byte := me_bytes;
|}.

#[export] Instance windows_ops : MemoryOps memory := {|
  mem_malloc := skyuv_malloc;
  mem_calloc := skyuv_calloc;
  mem_realloc := skyuv_realloc;
  mem_free := skyuv_free;
  mem_aligned_alloc := skyuv_aligned_alloc;
  mem_posix_memalign := skyuv_posix_memalign;
|}.

Lemma suitable_spec alignment :
  suitable alignment = negb (negb (skyuv_is_power_of_two alignment) || (alignment <? pointer_size)).
Proof.
  unfold suitable. rewrite negb_orb, negb_involutive. f_equal. by rewrite <- Z.leb_antisym.
Qed.

Lemma unsuitable_none alignment size zero m :
  suitable alignment = false → skyuv_heap_allocate alignment size zero m = Ret None m.
Proof.
  rewrite suitable_spec, negb_false_iff. intros Hs. unfold skyuv_heap_allocate. by rewrite Hs.
Qed.

Lemma windows_aligned_alloc alignment size m :
  MInv m → 0 ≤ alignment ≤ SIZE_MAX → 0 ≤ size ≤ SIZE_MAX →
  wp (skyuv_aligned_alloc alignment size) (λ o m', (suitable alignment = false → o = None) ∧
    granted alignment (Z.max 1 size) false m o m') m.
Proof.
  intros HI Ha Hs. unfold skyuv_aligned_alloc.
  pose proof (heap_allocate_ok alignment size false m HI Ha Hs) as Hwp. unfold wp in *.
  destruct (skyuv_heap_allocate alignment size false m) as [o m'|] eqn:E; [|done]. split; [|done].
  intros Hno. rewrite unsuitable_none in E by done. by simplify_eq.
Qed.

#[export] Instance windows_contract : MemoryContract memory windows_ops windows_view.
Proof using laws.
  split.
  - intros. by apply heap_allocate_ok.
  - intros. by apply windows_calloc_ok.
  - intros p n s HI Hp. eapply wp_free; [done|done|]. intros m' HI' Hhd Hk _. split_and!; try done.
    simpl. unfold live. by rewrite Hhd, lookup_delete_eq.
  - intros s. by apply wp_ret.
  - intros p n size s HI Hp Hsz. eapply wp_mono; [by apply realloc_ok|].
    intros [q|] m' [HI' Hq]; [|done]. destruct Hq as (? & ? & ? & ? & ? & ? & ? & ?).
    split; [done|]. split_and!; try done; by right.
  - intros p n s HI Hp. simpl. apply wp_bind. eapply wp_free; [done|done|].
    intros m' HI' Hhd Hk _. apply wp_ret. split; [done|]. split_and!; try done.
    simpl. unfold live. by rewrite Hhd, lookup_delete_eq.
  - intros size s HI Hsz. by apply heap_allocate_ok.
  - intros. by apply windows_aligned_alloc.
  - intros result alignment size s HI Ha Hs. simpl. unfold skyuv_posix_memalign.
    rewrite <- orb_assoc. destruct result; cbn [negb orb andb]; [|by apply wp_ret].
    pose proof (suitable_spec alignment) as Hsu. destruct (_ || _); simpl in Hsu; rewrite Hsu; [by apply wp_ret|].
    apply wp_bind. eapply wp_mono; [by apply windows_aligned_alloc|]. intros [p|] m' [_ Hg]; by apply wp_ret.
Qed.

End windows.
