(* ===== verification/MemoryPosix.v ===== *)
(** * The memory interface on POSIX

    src/src/memory/memory.c without Windows: the functions of the C library, or of
    jemalloc, behind the checks of the program.  They are never asked for 0 bytes,
    of which every library makes something else, and the interface is the one that
    Windows has too. *)
From S2P Require Import Prelude Memory MemoryProperties MemoryInterface.

(** ** The backend *)

(** Where the library puts a block, by the blocks that exist, with their sizes, the
    alignment and the size; and where a block is when its size has changed. *)
Class PosixHeap := {
  posix_place : gmap Z Z → Z → Z → option Z;
  posix_replace : gmap Z Z → Z → Z → option Z;
}.

(** The block of [size] bytes at [p] is aligned, within the address space and
    overlaps no other. *)
Definition free_place (blocks : gmap Z Z) (alignment size p : Z) : Prop :=
  p mod alignment = 0 ∧ 0 < p ∧ p + size ≤ 2 ^ 64 ∧
  ∀ b t, blocks !! b = Some t → p + size ≤ b ∨ b + t ≤ p.

Class PosixHeapLaws `(PosixHeap) : Prop := {
  posix_place_ok blocks alignment size p :
    0 < size → posix_place blocks alignment size = Some p → free_place blocks alignment size p;
  posix_replace_ok blocks p size q :
    0 < size → posix_replace blocks p size = Some q → free_place (delete p blocks) max_alignment size q;
}.

(** The blocks and the bytes; a byte that was never written has no value. *)
Record posix_memory := PosixMemory {
  pm_blocks : gmap Z Z;
  pm_bytes : Z → option Z;
}.

Module Posix.

Notation Heap := (M posix_memory).

Section posix.
Context `{PosixHeap}.

(** A new block; a size of 0 has no meaning that is the same everywhere. *)
Definition backend_place (alignment size : Z) (zero : bool) : Heap (option Z) := λ m,
  if size =? 0 then Fault OutOfBounds
  else
    match posix_place (pm_blocks m) alignment size with
    | None => Ret None m
    | Some p =>
        Ret (Some p) (PosixMemory (<[p := size]> (pm_blocks m))
          (λ a, if within a p size then (if zero then Some 0 else None) else pm_bytes m a))
    end.

Definition backend_malloc (size : Z) : Heap (option Z) := backend_place max_alignment size false.

Definition backend_calloc (count size : Z) : Heap (option Z) :=
  if SIZE_MAX <? count * size then mret None else backend_place max_alignment (count * size) true.

Definition backend_free (pointer : option Z) : Heap unit := λ m,
  match pointer with
  | None => Ret tt m
  | Some p =>
      match pm_blocks m !! p with
      | None => Fault UseAfterFree
      | Some size =>
          Ret tt (PosixMemory (delete p (pm_blocks m))
            (λ a, if within a p size then None else pm_bytes m a))
      end
  end.

(** The bytes of the old block, as far as both reach, are in the new one. *)
Definition backend_realloc (pointer : option Z) (size : Z) : Heap (option Z) :=
  match pointer with
  | None => backend_malloc size
  | Some p => λ m,
      if size =? 0 then Fault OutOfBounds
      else
        match pm_blocks m !! p with
        | None => Fault UseAfterFree
        | Some old =>
            match posix_replace (pm_blocks m) p size with
            | None => Ret None m
            | Some q =>
                Ret (Some q) (PosixMemory (<[q := size]> (delete p (pm_blocks m)))
                  (λ a, if within a q (Z.min old size) then pm_bytes m (a - q + p)
                        else if within a q size || within a p old then None else pm_bytes m a))
            end
        end
  end.

Definition backend_posix_memalign (alignment size : Z) : Heap (Z * option Z) :=
  if negb (suitable alignment) then mret (EINVAL, None)
  else
    block ← backend_place alignment size false;
    mret (match block with Some p => (0, Some p) | None => (ENOMEM, None) end).

(** ** The functions *)

Definition skyuv_malloc (size : Z) : Heap (option Z) := backend_malloc (if size =? 0 then 1 else size).

Definition skyuv_calloc (count size : Z) : Heap (option Z) :=
  if negb (count =? 0) && (SIZE_MAX / count <? size) then mret None
  else if (count =? 0) || (size =? 0) then backend_calloc 1 1
  else backend_calloc count size.

Definition skyuv_realloc (pointer : option Z) (size : Z) : Heap (option Z) :=
  if size =? 0 then backend_free pointer ;; mret None else backend_realloc pointer size.

Definition skyuv_free (pointer : option Z) : Heap unit := backend_free pointer.

Definition skyuv_aligned_alloc (alignment size : Z) : Heap (option Z) :=
  if (alignment <? pointer_size) || negb (Z.land alignment (u64 (alignment - 1)) =? 0) then mret None
  else
    r ← backend_posix_memalign alignment (if size =? 0 then 1 else size);
    mret (if negb (r.1 =? 0) then None else r.2).

Definition skyuv_posix_memalign (result : bool) (alignment size : Z) : Heap (Z * option Z) :=
  if negb result || (alignment <? pointer_size) || negb (Z.land alignment (u64 (alignment - 1)) =? 0)
  then mret (EINVAL, None)
  else backend_posix_memalign alignment (if size =? 0 then 1 else size).

#[export] Instance posix_ops : MemoryOps posix_memory := {|
  mem_malloc := skyuv_malloc;
  mem_calloc := skyuv_calloc;
  mem_realloc := skyuv_realloc;
  mem_free := skyuv_free;
  mem_aligned_alloc := skyuv_aligned_alloc;
  mem_posix_memalign := skyuv_posix_memalign;
|}.

End posix.
End Posix.

(** ** The contract *)

(** Blocks lie in the address space and apart. *)
Record posix_ok (m : posix_memory) : Prop := PosixOk {
  po_block b t : pm_blocks m !! b = Some t → 0 < b ∧ 0 < t ∧ b + t ≤ 2 ^ 64;
  po_disjoint b1 t1 b2 t2 : pm_blocks m !! b1 = Some t1 → pm_blocks m !! b2 = Some t2 → b1 ≠ b2 →
    b1 + t1 ≤ b2 ∨ b2 + t2 ≤ b1;
}.

#[export] Instance posix_view : MemoryView posix_memory := {|
  view_ok := posix_ok; view_live m p := pm_blocks m !! p; view_byte := pm_bytes;
|}.

Section contract.
Context `{PosixHeap} {laws : PosixHeapLaws _}.
Implicit Types (m : posix_memory) (p q n : Z).

Lemma free_place_new blocks m alignment size p :
  posix_ok m → blocks ⊆ pm_blocks m → 0 < size → free_place blocks alignment size p → blocks !! p = None.
Proof.
  intros Hm Hsub Hs (_ & _ & _ & Hd). destruct (blocks !! p) as [t|] eqn:E; [|done].
  destruct (po_block _ Hm p t) as (_ & Ht & _); [by eapply lookup_weaken|].
  destruct (Hd p t E); lia.
Qed.

(** A block is added to some of those that exist. *)
Lemma posix_ok_insert blocks m alignment size p bytes :
  posix_ok m → blocks ⊆ pm_blocks m → 0 < size → free_place blocks alignment size p →
  posix_ok (PosixMemory (<[p := size]> blocks) bytes).
Proof.
  intros Hm Hsub Hs (_ & Hp & He & Hd). split; simpl.
  - intros b t. rewrite lookup_insert_Some. intros [[<- <-]|[_ Hb]]; [lia|].
    eapply (po_block _ Hm). by eapply lookup_weaken.
  - intros b1 t1 b2 t2. rewrite !lookup_insert_Some.
    intros [[<- <-]|[? H1]] [[<- <-]|[? H2]] Hne; [done| | |].
    + by apply Hd.
    + destruct (Hd _ _ H1); [by right|by left].
    + eapply (po_disjoint _ Hm); [by eapply lookup_weaken..|done].
Qed.

Lemma place_ok alignment size zero m :
  posix_ok m → 0 < size →
  wp (Posix.backend_place alignment size zero) (granted alignment size zero m) m.
Proof.
  intros Hm Hs. unfold wp, Posix.backend_place. destruct (Z.eqb_spec size 0); [lia|].
  destruct (posix_place _ _ _) as [p|] eqn:E; [|by split].
  apply posix_place_ok in E; [|done]. pose proof E as (Ha & Hp & He & Hd).
  assert (pm_blocks m !! p = None) as Hnew 
    by (apply (free_place_new (pm_blocks m) m alignment size); [done|reflexivity|done|done]).
  split; [apply (posix_ok_insert (pm_blocks m) m alignment); [done|reflexivity|done|done]|]. split_and!; try done; simpl.
  - by rewrite lookup_insert_eq.
  - intros q k Hne Hq. simpl in *. rewrite lookup_insert_ne by done. split; [done|]. intros a Hin.
    rewrite (proj2 (within_false _ _ _)); [done|]. destruct (Hd q k Hq); lia.
  - intros -> a Hin. by rewrite (proj2 (within_true _ _ _)).
Qed.

Lemma posix_free_ok p n m :
  posix_ok m → pm_blocks m !! p = Some n → wp (Posix.backend_free (Some p)) (λ _, given_back p m) m.
Proof.
  intros Hm Hp. unfold wp, Posix.backend_free. rewrite Hp. split_and!.
  - split; simpl; intros *; rewrite !lookup_delete_Some.
    + intros [_ ?]. by apply (po_block _ Hm).
    + intros [_ ?] [_ ?]. by apply (po_disjoint _ Hm).
  - simpl. apply lookup_delete_eq.
  - intros q k Hne Hq. simpl in *. rewrite lookup_delete_ne by done. split; [done|]. intros a Hin.
    rewrite (proj2 (within_false _ _ _)); [done|].
    destruct (po_disjoint _ Hm p n q k); [done..|lia|lia].
Qed.

Lemma posix_resize_ok p n size m :
  posix_ok m → pm_blocks m !! p = Some n → 0 < size →
  wp (Posix.backend_realloc (Some p) size) (resized p n size m) m.
Proof.
  intros Hm Hp Hs. unfold wp, Posix.backend_realloc. destruct (Z.eqb_spec size 0); [lia|]. rewrite Hp.
  destruct (posix_replace _ _ _) as [q|] eqn:E; [|by split].
  apply posix_replace_ok in E; [|done]. pose proof E as (Ha & Hq & He & Hd).
  assert (delete p (pm_blocks m) ⊆ pm_blocks m) as Hsub by apply delete_subseteq.
  assert (delete p (pm_blocks m) !! q = None) as Hnew by (by apply (free_place_new _ m max_alignment size)).
  split; [by apply (posix_ok_insert _ m max_alignment)|]. split_and!; try done; simpl.
  - apply lookup_delete_None in Hnew. destruct Hnew; auto.
  - intros Hne. by rewrite lookup_insert_ne, lookup_delete_eq by done.
  - by rewrite lookup_insert_eq.
  - intros r k Hne Hr. simpl in *. assert (delete p (pm_blocks m) !! r = Some k) as Hr'
      by (by rewrite lookup_delete_ne by done).
    rewrite lookup_insert_ne by congruence. split; [done|]. intros a Hin.
    pose proof (Hd r k Hr') as Hapart.
    pose proof (po_disjoint _ Hm p n r k Hp Hr ltac:(done)) as Hapart'.
    rewrite !(proj2 (within_false _ _ _)) by lia. done.
  - intros k Hk. rewrite (proj2 (within_true _ _ _)) by lia. f_equal. lia.
Qed.

(** The test of the alignment is the one of the other platform. *)
Lemma suitable_test alignment :
  0 ≤ alignment ≤ SIZE_MAX →
  (alignment <? pointer_size) || negb (Z.land alignment (u64 (alignment - 1)) =? 0) =
  negb (suitable alignment).
Proof.
  intros Ha. unfold suitable, skyuv_is_power_of_two. rewrite negb_andb, <- Z.ltb_antisym, orb_comm.
  destruct (Z.ltb_spec alignment pointer_size) as [|Hge]; [by rewrite !orb_true_r|].
  rewrite !orb_false_r. unfold pointer_size in Hge. rewrite (proj2 (Z.eqb_neq alignment 0)) by lia.
  by replace (u64 (alignment - 1)) with (alignment - 1)
    by (symmetry; apply uwrap_small; unfold SIZE_MAX in *; lia).
Qed.

Lemma memalign_ok alignment size m :
  posix_ok m → 0 ≤ size →
  wp (Posix.backend_posix_memalign alignment (if size =? 0 then 1 else size)) (λ r m',
    granted alignment (Z.max 1 size) false m r.2 m' ∧
    (if suitable alignment then r.1 = if r.2 then 0 else ENOMEM else r = (EINVAL, None))) m.
Proof.
  intros Hm Hs. unfold Posix.backend_posix_memalign. destruct (suitable alignment); cbn [negb]; [|by apply wp_ret].
  replace (if size =? 0 then 1 else size) with (Z.max 1 size) by (destruct (Z.eqb_spec size 0); lia).
  apply wp_bind. eapply wp_mono; [apply place_ok; [done|lia]|]. intros [p|] m' Hg; by apply wp_ret.
Qed.

#[export] Instance posix_contract : MemoryContract posix_memory Posix.posix_ops posix_view.
Proof using laws.
  split; simpl.
  - intros size m Hm Hs. unfold Posix.skyuv_malloc, Posix.backend_malloc.
    replace (if size =? 0 then 1 else size) with (Z.max 1 size) by (destruct (Z.eqb_spec size 0); lia).
    apply place_ok; [done|lia].
  - intros count size m Hm Hc Hs. unfold Posix.skyuv_calloc. pose proof (overflow_check count size Hc Hs) as Hover.
    destruct (negb (count =? 0) && _); [by apply wp_ret|].
    assert (count * size ≤ SIZE_MAX) as Hle by (apply Z.nlt_ge; intros ?; naive_solver).
    assert (wp (Posix.backend_place max_alignment (Z.max 1 (count * size)) true)
      (λ o s', (SIZE_MAX < count * size → o = None) ∧
         granted max_alignment (Z.max 1 (count * size)) true m o s') m) as Hwp.
    { eapply wp_mono; [apply place_ok; [done|lia]|]. intros o m' Hg. split; [lia|done]. }
    unfold Posix.backend_calloc. destruct ((count =? 0) || (size =? 0)) eqn:E.
    + replace (count * size) with 0 in * by (apply orb_true_iff in E as [?%Z.eqb_eq|?%Z.eqb_eq]; nia). exact Hwp.
    + apply orb_false_iff in E as [?%Z.eqb_neq ?%Z.eqb_neq].
      rewrite (proj2 (Z.ltb_ge _ _)) by done. rewrite Z.max_r in Hwp by nia.
      rewrite Z.max_r by nia. exact Hwp.
  - intros p n m Hm Hp. by eapply posix_free_ok.
  - done.
  - intros p n size m Hm Hp Hs. unfold Posix.skyuv_realloc. rewrite (proj2 (Z.eqb_neq size 0)) by lia.
    apply posix_resize_ok; [done|done|lia].
  - intros p n m Hm Hp. unfold Posix.skyuv_realloc. simpl. apply wp_bind.
    eapply wp_mono; [by eapply posix_free_ok|]. intros [] m' Hr. by apply wp_ret.
  - intros size m Hm Hs. unfold Posix.skyuv_realloc.
    destruct (Z.eqb_spec size 0) as [->|]; [by apply wp_bind, wp_ret, wp_ret|].
    rewrite Z.max_r by lia. apply place_ok; [done|lia].
  - intros alignment size m Hm Ha Hs. unfold Posix.skyuv_aligned_alloc. rewrite suitable_test by done.
    destruct (suitable alignment) eqn:E; cbn [negb]; [|by apply wp_ret].
    apply wp_bind. eapply wp_mono; [apply memalign_ok; [done|lia]|]. rewrite E.
    intros [c o] m' [Hg Hc]. simpl in *. subst c. apply wp_ret. split; [done|]. by destruct o.
  - intros result alignment size m Hm Ha Hs. unfold Posix.skyuv_posix_memalign.
    rewrite <- orb_assoc, suitable_test by done.
    destruct result; cbn [negb orb andb]; [|by apply wp_ret].
    destruct (suitable alignment) eqn:E; cbn [negb]; [|by apply wp_ret].
    eapply wp_mono; [apply memalign_ok; [done|lia]|]. rewrite E. done.
Qed.

End contract.

(** ** Both platforms *)

(** The call with neither block nor size takes a block on Windows. *)
Lemma windows_nothing `{ProcessHeap} {laws : ProcessHeapLaws _} old_size w :
  MInv w →
  wp (@skynet_lalloc memory windows_ops None old_size 0) (λ o w',
    (o = None ↔ heap_alloc (me_blocks w) (1 + header_size + max_alignment - 1) = None) ∧
    ∀ p, o = Some p → live w p = None ∧ live w' p = Some 1) w.
Proof.
  intros Hw. assert (@skynet_lalloc memory windows_ops None old_size 0 =
    skyuv_heap_allocate max_alignment 0 false) as -> by done.
  pose proof (heap_allocate_ok max_alignment 0 false w Hw) as Hok. unfold wp in *.
  assert (match skyuv_heap_allocate max_alignment 0 false w with
    | Ret o _ => o = None ↔ heap_alloc (me_blocks w) (1 + header_size + max_alignment - 1) = None
    | Fault _ => True end) as Hnone.
  { unfold skyuv_heap_allocate.
    change (negb (skyuv_is_power_of_two max_alignment) || (max_alignment <? pointer_size)) with false.
    change (SIZE_MAX - u64 (header_size + max_alignment - 1) <? (if 0 =? 0 then 1 else 0)) with false.
    cbv iota zeta. unfold mbind, M_bind, HeapAlloc.
    change (u64 ((if 0 =? 0 then 1 else 0) + u64 (header_size + max_alignment - 1))) with
      (1 + header_size + max_alignment - 1).
    by destruct (heap_alloc _ _). }
  destruct (skyuv_heap_allocate max_alignment 0 false w) as [o w'|];
    [|by apply Hok; split; vm_compute].
  split; [done|]. intros p ->. destruct Hok as [_ Ho]; [split; by vm_compute..|].
  by destruct Ho as (_ & _ & _ & ? & ? & _).
Qed.

(** C38 The interface of memory.h is the same contract on both platforms, whatever
    blocks the process heap of Windows or the library of POSIX hands out: every
    pointer is aligned, has the bytes that were asked for (one, if none were) to
    itself, zeroed by calloc; a product that does not fit is refused; release takes
    exactly that block; a resized block keeps its bytes up to the smaller size and
    a failed resize changes nothing; a resize to 0 releases; alignments that are not
    a power of two, or too small, are refused, by posix_memalign with EINVAL and
    otherwise with ENOMEM for want of memory.  Over every implementation of the
    contract the allocator that Lua states are given does this for every call: for a
    block, a size of 0 releases it and gives NULL, and another size gives a block of
    it with the old bytes, or NULL with the old block untouched; for no block it
    gives a new one of the size, or NULL with nothing changed.  The platforms differ
    in the call with neither block nor size, for which Lua wants NULL: POSIX gives
    NULL and changes nothing; Windows gives a block of one byte whenever its heap
    has one. *)
Theorem memory_interface_implemented (windows : ProcessHeap) (posix : PosixHeap)
    (wlaws : ProcessHeapLaws windows) (plaws : PosixHeapLaws posix) :
  MemoryContract memory windows_ops windows_view ∧
  MemoryContract posix_memory Posix.posix_ops posix_view ∧
  (∀ S (ops : MemoryOps S) (view : MemoryView S), MemoryContract S ops view →
    ∀ ptr old_size new_size (s : S), view_ok s → 0 ≤ new_size ≤ SIZE_MAX →
      match ptr with None => True | Some (p, n) => view_live s p = Some n end →
      wp (skynet_lalloc (fst <$> ptr) old_size new_size) (lua_allocated ptr new_size s) s) ∧
  (∀ old_size m, @skynet_lalloc posix_memory Posix.posix_ops None old_size 0 m = Ret None m) ∧
  (∀ old_size w, MInv w →
     wp (@skynet_lalloc memory windows_ops None old_size 0) (λ o w',
       (o = None ↔ heap_alloc (me_blocks w) (1 + header_size + max_alignment - 1) = None) ∧
       ∀ p, o = Some p → live w p = None ∧ live w' p = Some 1) w).
Proof.
  split_and!; [apply _|apply _|intros; by apply lalloc_ok|done|intros; by apply windows_nothing].
Qed.

(** The call with neither block nor size, with which Lua releases what it never
    had, answers NULL and changes nothing on POSIX; on Windows it takes a block from
    the heap that nobody will release. *)
Theorem lalloc_nothing `{PosixHeap} `{ProcessHeap} {laws : ProcessHeapLaws _} m w :
  @skynet_lalloc posix_memory Posix.posix_ops None 0 0 m = Ret None m ∧
  (MInv w → wp (@skynet_lalloc memory windows_ops None 0 0)
    (λ o w', ∀ p, o = Some p → live w p = None ∧ live w' p = Some 1) w).
Proof.
  split; [done|]. intros Hw. eapply wp_mono; [by apply windows_nothing|]. by intros o w' [_ Ho].
Qed.

(** ** A library *)

(** Blocks one after the other, aligned, and moved when resized. *)
Definition bump_place (blocks : gmap Z Z) (alignment size : Z) : option Z :=
  let p := (blocks_end blocks + alignment - 1) / alignment * alignment in
  if (0 <? alignment) && (p + size <=? 2 ^ 64) then Some p else None.

Definition bump_posix : PosixHeap := {|
  posix_place := bump_place;
  posix_replace blocks p size := bump_place blocks max_alignment size;
|}.

Lemma bump_place_ok blocks alignment size p :
  bump_place blocks alignment size = Some p → free_place blocks alignment size p.
Proof.
  unfold bump_place. destruct (Z.ltb_spec 0 alignment) as [Ha|]; [|done].
  destruct (blocks_end_spec blocks) as [Hlo Hhi]. simpl.
  set (x := blocks_end blocks + alignment - 1).
  destruct (Z.leb_spec (x / alignment * alignment + size) (2 ^ 64)); [|done]. intros [= <-].
  pose proof (Z.div_mod x alignment ltac:(lia)). pose proof (Z.mod_pos_bound x alignment Ha).
  split_and!; [apply Z.mod_mul; lia|unfold x in *; nia|done|].
  intros b t Hb. right. specialize (Hhi _ _ Hb). unfold x in *. nia.
Qed.

#[local] Instance bump_posix_laws : PosixHeapLaws bump_posix.
Proof.
  split; simpl; intros blocks *.
  - intros _. apply bump_place_ok.
  - intros _ (Ha & Hp & He & Hd)%bump_place_ok. split_and!; try done.
    intros b t [_ Hb]%lookup_delete_Some. by apply Hd.
Qed.

Definition empty_posix : posix_memory := PosixMemory ∅ (λ _, None).

Lemma empty_posix_ok : posix_ok empty_posix.
Proof. split; simpl; intros *; by rewrite ?lookup_empty. Qed.

(** A block of two bytes grows to four. *)
Definition two_bytes : posix_memory :=
  PosixMemory {[ 4096 := 2 ]} (λ a, if within a 4096 2 then Some (a - 4089) else None).

Lemma two_bytes_ok : posix_ok two_bytes.
Proof.
  split; simpl; intros *; rewrite ?lookup_singleton_Some.
  - intros [<- <-]. done.
  - intros [<- <-] [<- <-] ?. done.
Qed.

(** On both platforms at once: zeroed memory on POSIX, and Lua's block moved. *)
Lemma memory_interface_implemented_witness :
  wp (@mem_calloc posix_memory (@Posix.posix_ops bump_posix) 3 0)
    (λ o m', (SIZE_MAX < 3 * 0 → o = None) ∧ granted max_alignment 1 true empty_posix o m') empty_posix ∧
  wp (@skynet_lalloc posix_memory (@Posix.posix_ops bump_posix) (Some 4096) 2 4)
    (lua_allocated (Some (4096, 2)) 4 two_bytes) two_bytes ∧
  match @skynet_lalloc posix_memory (@Posix.posix_ops bump_posix) (Some 4096) 2 4 two_bytes with
  | Ret (Some p) m => p ≠ 4096 ∧ pm_bytes m p = Some 7 ∧ pm_bytes m (p + 1) = Some 8
  | _ => False
  end.
Proof.
  destruct (memory_interface_implemented bump_heap bump_posix bump_heap_laws bump_posix_laws)
    as (_ & Hc & Hlua & _). split_and!; [..|vm_compute; done].
  - apply (@calloc_ok _ _ _ Hc 3 0 empty_posix empty_posix_ok); split; vm_compute; discriminate.
  - apply (Hlua _ _ _ Hc (Some (4096, 2)) 2 4 two_bytes);
      [apply two_bytes_ok|split; vm_compute; discriminate|reflexivity].
Defined.
