(* ===== verification/Atomic.v ===== *)
(** * Atomic operations: the interface (src/include/skyuv/atomic.h)

    The header offers one set of operations for [int32_t], [uintptr_t] and
    [unsigned long], and two thinner sets for pointers and [size_t].  atomic.c
    implements them twice: with the Interlocked functions of MSVC ([AtomicMsvc])
    and with the [__atomic] builtins of GCC and Clang ([AtomicNative]).  This file
    states what both promise, as a reference object that holds a value of the C
    type, and models the wrappers for pointers and sizes, which are written
    against the operations of [uintptr_t] only.

    An object is its bits, a [Z] below [2 ^ w]; an operation is one access to it,
    so it is one step of the thread that performs it. *)
From S2P Require Import Prelude.

Inductive skyuv_memory_order :=
| SKYUV_MEMORY_RELAXED
| SKYUV_MEMORY_ACQUIRE
| SKYUV_MEMORY_RELEASE
| SKYUV_MEMORY_ACQ_REL
| SKYUV_MEMORY_SEQ_CST.

#[export] Instance skyuv_memory_order_eq_dec : EqDecision skyuv_memory_order.
Proof. solve_decision. Defined.

(** ** C integer types *)

Record int_type := IntType { int_signed : bool; int_width : Z }.

(** The conversion to a type, and the bits of a value. *)
Definition conv (ty : int_type) (z : Z) : Z :=
  if int_signed ty then swrap (int_width ty) z else uwrap (int_width ty) z.
Definition bits (ty : int_type) (z : Z) : Z := uwrap (int_width ty) z.

Definition int32_t : int_type := IntType true 32.
Definition uint_t (w : Z) : int_type := IntType false w.

(** [z] is a value of the type. *)
Definition in_type (ty : int_type) (z : Z) : Prop := conv ty z = z.

#[export] Instance in_type_dec ty z : Decision (in_type ty z).
Proof. unfold in_type. apply _. Defined.

(** ** The operations *)

Record cell_ops := CellOps {
  op_init : Z → M Z unit;
  op_load : skyuv_memory_order → M Z Z;
  op_store : Z → skyuv_memory_order → M Z unit;
  op_exchange : Z → skyuv_memory_order → M Z Z;
  (** the answer, and what is left in [*expected] *)
  op_compare_exchange :
    Z → Z → skyuv_memory_order → skyuv_memory_order → M Z (bool * Z);
}.

Record atomic_ops := AtomicOps {
  op_cell : cell_ops;
  op_fetch_add : Z → skyuv_memory_order → M Z Z;
  op_fetch_sub : Z → skyuv_memory_order → M Z Z;
  op_fetch_and : Z → skyuv_memory_order → M Z Z;
}.

Inductive cell_call :=
| Init (value : Z)
| Load (order : skyuv_memory_order)
| Store (value : Z) (order : skyuv_memory_order)
| Exchange (value : Z) (order : skyuv_memory_order)
| CompareExchange (expected desired : Z) (success failure : skyuv_memory_order).

Inductive atomic_call :=
| Cell (c : cell_call)
| FetchAdd (value : Z) (order : skyuv_memory_order)
| FetchSub (value : Z) (order : skyuv_memory_order)
| FetchAnd (value : Z) (order : skyuv_memory_order).

Inductive answer :=
| NoAnswer
| Value (z : Z)
| Swapped (ok : bool) (expected : Z).

#[export] Instance answer_eq_dec : EqDecision answer.
Proof. solve_decision. Defined.

Definition perform_cell (ops : cell_ops) (c : cell_call) : M Z answer :=
  match c with
  | Init v => op_init ops v ;; mret NoAnswer
  | Load o => z ← op_load ops o; mret (Value z)
  | Store v o => op_store ops v o ;; mret NoAnswer
  | Exchange v o => z ← op_exchange ops v o; mret (Value z)
  | CompareExchange e d s f =>
      r ← op_compare_exchange ops e d s f; mret (Swapped r.1 r.2)
  end.

Definition perform (ops : atomic_ops) (c : atomic_call) : M Z answer :=
  match c with
  | Cell c => perform_cell (op_cell ops) c
  | FetchAdd v o => z ← op_fetch_add ops v o; mret (Value z)
  | FetchSub v o => z ← op_fetch_sub ops v o; mret (Value z)
  | FetchAnd v o => z ← op_fetch_and ops v o; mret (Value z)
  end.

(** A sequence of operations on one object, by whatever threads. *)
Fixpoint perform_all {C} (one : C → M Z answer) (cs : list C) : M Z (list answer) :=
  match cs with
  | [] => mret []
  | c :: cs => a ← one c; l ← perform_all one cs; mret (a :: l)
  end.

(** ** What they promise

    The reference object holds a value of the C type; [old] is that value. *)

Definition cell_meaning (c : cell_call) (old : Z) : answer * Z :=
  match c with
  | Init v => (NoAnswer, v)
  | Load _ => (Value old, old)
  | Store v _ => (NoAnswer, v)
  | Exchange v _ => (Value old, v)
  | CompareExchange e d _ _ =>
      if old =? e then (Swapped true e, d) else (Swapped false old, old)
  end.

Definition meaning (ty : int_type) (c : atomic_call) (old : Z) : answer * Z :=
  match c with
  | Cell c => cell_meaning c old
  | FetchAdd v _ => (Value old, conv ty (old + v))
  | FetchSub v _ => (Value old, conv ty (old - v))
  | FetchAnd v _ => (Value old, Z.land old v)
  end.

Fixpoint meaning_all {C} (one : C → Z → answer * Z) (cs : list C) (old : Z) :
    list answer * Z :=
  match cs with
  | [] => ([], old)
  | c :: cs =>
      let '(a, new) := one c old in
      let '(l, last) := meaning_all one cs new in (a :: l, last)
  end.

(** The orders C11 admits for a load and a store; an access that reads and writes
    admits all. *)
Definition load_order (o : skyuv_memory_order) : bool :=
  match o with SKYUV_MEMORY_RELEASE | SKYUV_MEMORY_ACQ_REL => false | _ => true end.
Definition store_order (o : skyuv_memory_order) : bool :=
  match o with SKYUV_MEMORY_ACQUIRE | SKYUV_MEMORY_ACQ_REL => false | _ => true end.

(** The failure order of an exchange may not be stronger than its success order;
    the compilers compare the orders by their position in the enumeration. *)
Definition order_rank (o : skyuv_memory_order) : Z :=
  match o with
  | SKYUV_MEMORY_RELAXED => 0
  | SKYUV_MEMORY_ACQUIRE => 1
  | SKYUV_MEMORY_RELEASE => 2
  | SKYUV_MEMORY_ACQ_REL => 3
  | SKYUV_MEMORY_SEQ_CST => 4
  end.
Definition failure_order (s f : skyuv_memory_order) : bool :=
  load_order f && (order_rank f <=? order_rank s).

(** The arguments are values of the type and the orders are admitted. *)
Definition cell_call_ok (ty : int_type) (c : cell_call) : Prop :=
  match c with
  | Init v => in_type ty v
  | Load o => load_order o = true
  | Store v o => in_type ty v ∧ store_order o = true
  | Exchange v _ => in_type ty v
  | CompareExchange e d s f => in_type ty e ∧ in_type ty d ∧ failure_order s f = true
  end.

Definition call_ok (ty : int_type) (c : atomic_call) : Prop :=
  match c with
  | Cell c => cell_call_ok ty c
  | FetchAdd v _ | FetchSub v _ | FetchAnd v _ => in_type ty v
  end.

#[export] Instance cell_call_ok_dec ty c : Decision (cell_call_ok ty c).
Proof. destruct c; simpl; apply _. Defined.
#[export] Instance call_ok_dec ty c : Decision (call_ok ty c).
Proof. destruct c; simpl; apply _. Defined.

(** [one], which works on the bits, does what [ref] says of the value. *)
Definition refines {C} (ty : int_type) (ok : C → Prop) (one : C → M Z answer)
    (ref : C → Z → answer * Z) : Prop :=
  ∀ c old, in_type ty old → ok c →
    one c (bits ty old) = Ret (ref c old).1 (bits ty (ref c old).2) ∧
    in_type ty (ref c old).2.

Class CellLaws (ty : int_type) (ops : cell_ops) : Prop :=
  cell_laws : refines ty (cell_call_ok ty) (perform_cell ops) cell_meaning.
Class AtomicLaws (ty : int_type) (ops : atomic_ops) : Prop :=
  atomic_laws : refines ty (call_ok ty) (perform ops) (meaning ty).

(** ** Wrappers: pointers and sizes

    A pointer is the [uintptr_t] it converts to, and [size_t] has its width. *)

Section wrappers.
Context (w : Z) (uintptr : atomic_ops).
Local Notation to_uintptr := (conv (uint_t w)).

Definition skyuv_atomic_pointer_init (value : Z) : M Z unit :=
  op_init (op_cell uintptr) (to_uintptr value).

Definition skyuv_atomic_pointer_load (order : skyuv_memory_order) : M Z Z :=
  op_load (op_cell uintptr) order.

Definition skyuv_atomic_pointer_store (value : Z) (order : skyuv_memory_order) : M Z unit :=
  op_store (op_cell uintptr) (to_uintptr value) order.

Definition skyuv_atomic_pointer_exchange (value : Z) (order : skyuv_memory_order) : M Z Z :=
  op_exchange (op_cell uintptr) (to_uintptr value) order.

Definition skyuv_atomic_pointer_compare_exchange (expected desired : Z)
    (success failure : skyuv_memory_order) : M Z (bool * Z) :=
  '(result, integer_expected) ←
    op_compare_exchange (op_cell uintptr) (to_uintptr expected) (to_uintptr desired)
      success failure;
  mret (result, if negb result then integer_expected else expected).

Definition skyuv_atomic_size_init (value : Z) : M Z unit :=
  op_init (op_cell uintptr) (to_uintptr value).

Definition skyuv_atomic_size_load (order : skyuv_memory_order) : M Z Z :=
  z ← op_load (op_cell uintptr) order; mret (to_uintptr z).

Definition skyuv_atomic_size_store (value : Z) (order : skyuv_memory_order) : M Z unit :=
  op_store (op_cell uintptr) (to_uintptr value) order.

Definition skyuv_atomic_size_exchange (value : Z) (order : skyuv_memory_order) : M Z Z :=
  z ← op_exchange (op_cell uintptr) (to_uintptr value) order; mret (to_uintptr z).

Definition skyuv_atomic_size_compare_exchange (expected desired : Z)
    (success failure : skyuv_memory_order) : M Z (bool * Z) :=
  '(result, integer_expected) ←
    op_compare_exchange (op_cell uintptr) (to_uintptr expected) (to_uintptr desired)
      success failure;
  mret (result, if negb result then to_uintptr integer_expected else expected).

Definition skyuv_atomic_size_fetch_add (value : Z) (order : skyuv_memory_order) : M Z Z :=
  z ← op_fetch_add uintptr (to_uintptr value) order; mret (to_uintptr z).

Definition skyuv_atomic_size_fetch_sub (value : Z) (order : skyuv_memory_order) : M Z Z :=
  z ← op_fetch_sub uintptr (to_uintptr value) order; mret (to_uintptr z).

Definition skyuv_atomic_size_fetch_and (value : Z) (order : skyuv_memory_order) : M Z Z :=
  z ← op_fetch_and uintptr (to_uintptr value) order; mret (to_uintptr z).

Definition skyuv_atomic_pointer : cell_ops :=
  CellOps skyuv_atomic_pointer_init skyuv_atomic_pointer_load skyuv_atomic_pointer_store
    skyuv_atomic_pointer_exchange skyuv_atomic_pointer_compare_exchange.

Definition skyuv_atomic_size : atomic_ops :=
  AtomicOps
    (CellOps skyuv_atomic_size_init skyuv_atomic_size_load skyuv_atomic_size_store
       skyuv_atomic_size_exchange skyuv_atomic_size_compare_exchange)
    skyuv_atomic_size_fetch_add skyuv_atomic_size_fetch_sub skyuv_atomic_size_fetch_and.

End wrappers.

(** ** Lemmas on conversions *)

Section conversions.
Context (ty : int_type) (Hw : 0 < int_width ty).

Lemma conv_bits z : conv ty (bits ty z) = conv ty z.
Proof.
  unfold conv, bits. case_match; [apply swrap_uwrap; lia|apply uwrap_idemp; lia].
Qed.

Lemma bits_conv z : bits ty (conv ty z) = bits ty z.
Proof.
  unfold conv, bits. case_match; [apply uwrap_swrap; lia|apply uwrap_idemp; lia].
Qed.

Lemma conv_in_type z : in_type ty (conv ty z).
Proof. unfold in_type. by rewrite <-(conv_bits (conv ty z)), bits_conv, conv_bits. Qed.

Lemma bits_inj x y : in_type ty x → in_type ty y → bits ty x = bits ty y → x = y.
Proof. intros Hx Hy E. by rewrite <-Hx, <-Hy, <-(conv_bits x), E, conv_bits. Qed.

Lemma bits_eqb x y : in_type ty x → in_type ty y → (bits ty x =? bits ty y) = (x =? y).
Proof.
  intros. apply eq_true_iff_eq. rewrite !Z.eqb_eq. split; [by apply bits_inj|congruence].
Qed.

Lemma bits_range z : 0 ≤ bits ty z < 2 ^ int_width ty.
Proof. apply uwrap_range. lia. Qed.

Lemma land_in_type x y : in_type ty x → in_type ty y → in_type ty (Z.land x y).
Proof.
  unfold in_type, conv. destruct (int_signed ty).
  - intros Hx Hy. apply swrap_small; [done|]. rewrite <-Hx, <-Hy.
    apply land_signed_range; [lia|by apply swrap_range..].
  - intros Hx Hy. rewrite uwrap_land by lia. by rewrite Hx, Hy.
Qed.

(** Adding or subtracting on the bits is adding or subtracting on the values. *)
Lemma bits_add x y : bits ty (bits ty x + y) = bits ty (x + y).
Proof. apply uwrap_add_l. lia. Qed.

Lemma bits_land x y : Z.land (bits ty x) (bits ty y) = bits ty (Z.land x y).
Proof. symmetry. apply uwrap_land. lia. Qed.

End conversions.

Lemma uint_conv_bits w z : conv (uint_t w) z = bits (uint_t w) z.
Proof. done. Qed.

(** A value read back from the bits of any type of the same width. *)
Lemma in_type_read ty z : 0 < int_width ty → in_type ty z → conv ty (bits ty z) = z.
Proof. intros. by rewrite conv_bits. Qed.

(** ** Sequences *)

Lemma refines_all {C} ty (ok : C → Prop) one ref cs old :
  refines ty ok one ref → in_type ty old → Forall ok cs →
  perform_all one cs (bits ty old) =
    Ret (meaning_all ref cs old).1 (bits ty (meaning_all ref cs old).2).
Proof.
  intros Href. revert old. induction cs as [|c cs IH]; intros old Hold Hok; [done|].
  inversion_clear Hok as [|?? Hc Hcs]. destruct (Href c old Hold Hc) as [Hone Hin]. simpl.
  rewrite (bind_Ret _ _ _ _ _ Hone). destruct (ref c old) as [a new]; simpl in *.
  rewrite (bind_Ret _ _ _ _ _ (IH new Hin Hcs)). by destruct (meaning_all ref cs new).
Qed.

(** ** The wrappers keep the promise *)

Section wrapper_laws.
Context (w : Z) (Hw : 0 < w) (uintptr : atomic_ops) (H : AtomicLaws (uint_t w) uintptr).

Lemma cell_law c old :
  in_type (uint_t w) old → cell_call_ok (uint_t w) c →
  perform_cell (op_cell uintptr) c (bits (uint_t w) old) =
    Ret (cell_meaning c old).1 (bits (uint_t w) (cell_meaning c old).2) ∧
  in_type (uint_t w) (cell_meaning c old).2.
Proof. intros Hold Hc. apply (H (Cell c) old Hold Hc). Qed.

(** Conversions of values of the type vanish. *)
Ltac in_types := repeat match goal with
  | h : in_type ?ty ?v |- context [conv ?ty ?v] => rewrite (h : conv ty v = v)
  end.

(** Reads the law of the operation behind a call off the law of the call, and
    runs the wrapper with it. *)
Ltac wrapped law :=
  let E := fresh in let Hin := fresh in
  destruct law as [E Hin]; split; [in_types|exact Hin];
  simpl in E |- *; repeat case_match; simpl in E |- *;
  let R := fresh in apply bind_Ret_inv in E as (? & ? & E & R);
  unfold mret, M_ret in R; simplify_eq/=;
  repeat match goal with x : (bool * Z)%type |- _ => destruct x; simplify_eq/= end;
  unfold mbind, M_bind, mret, M_ret in *; rewrite ?E; simplify_eq/=; in_types; try done.

#[export] Instance skyuv_atomic_pointer_laws : CellLaws (uint_t w) (skyuv_atomic_pointer w uintptr).
Proof.
  intros c old Hold Hc. pose proof Hc as Hok. destruct c; simpl in Hok; destruct_and?;
    pose proof (cell_law _ old Hold Hc) as L; unfold perform_cell, skyuv_atomic_pointer,
      skyuv_atomic_pointer_init, skyuv_atomic_pointer_load, skyuv_atomic_pointer_store,
      skyuv_atomic_pointer_exchange, skyuv_atomic_pointer_compare_exchange; simpl; wrapped L.
Qed.

Lemma skyuv_atomic_size_cell : CellLaws (uint_t w) (op_cell (skyuv_atomic_size w uintptr)).
Proof.
  intros c old Hold Hc. pose proof Hc as Hok. destruct c; simpl in Hok; destruct_and?;
    pose proof (cell_law _ old Hold Hc) as L; unfold perform_cell, skyuv_atomic_size,
      skyuv_atomic_size_init, skyuv_atomic_size_load, skyuv_atomic_size_store,
      skyuv_atomic_size_exchange, skyuv_atomic_size_compare_exchange; simpl; wrapped L.
Qed.

#[export] Instance skyuv_atomic_size_laws : AtomicLaws (uint_t w) (skyuv_atomic_size w uintptr).
Proof.
  intros c old Hold Hc. pose proof Hc as Hok.
  destruct c; [by apply skyuv_atomic_size_cell|..]; simpl in Hok;
    pose proof (H _ old Hold Hc) as L; unfold perform, skyuv_atomic_size,
      skyuv_atomic_size_fetch_add, skyuv_atomic_size_fetch_sub,
      skyuv_atomic_size_fetch_and; simpl; wrapped L.
Qed.

End wrapper_laws.
