(* ===== verification/AtomicMsvc.v ===== *)
(** * Atomic operations with MSVC (src/src/platform/atomic.c, first half)

    The Interlocked functions work on [long] and [long long] and always order all
    accesses, so the orders are ignored; a load is a compare-exchange of 0 with 0,
    a subtraction the addition of the negated value, and [fetch_and] on
    [uintptr_t] a loop of compare-exchanges. *)
From S2P Require Import Prelude Atomic.

(** ** The Interlocked functions on signed words of [w] bits *)

Section interlocked.
Context (w : Z).

Definition _InterlockedCompareExchange (exchange comparand : Z) : M Z Z := λ word,
  if swrap w word =? comparand then Ret (swrap w word) (uwrap w exchange)
  else Ret (swrap w word) word.

Definition _InterlockedExchange (value : Z) : M Z Z := λ word,
  Ret (swrap w word) (uwrap w value).

Definition _InterlockedExchangeAdd (value : Z) : M Z Z := λ word,
  Ret (swrap w word) (uwrap w (word + value)).

Definition _InterlockedAnd (value : Z) : M Z Z := λ word,
  Ret (swrap w word) (Z.land word (uwrap w value)).

End interlocked.

(** ** int32_t *)

Definition long : Z → Z := swrap 32.

Definition skyuv_atomic_i32_init (value : Z) : M Z unit :=
  modify (λ _, u32 value).

Definition skyuv_atomic_i32_load (order : skyuv_memory_order) : M Z Z :=
  previous ← _InterlockedCompareExchange 32 0 0;
  mret (i32 previous).

Definition skyuv_atomic_i32_store (value : Z) (order : skyuv_memory_order) : M Z unit :=
  _InterlockedExchange 32 (long value) ;; mret tt.

Definition skyuv_atomic_i32_exchange (value : Z) (order : skyuv_memory_order) : M Z Z :=
  previous ← _InterlockedExchange 32 (long value);
  mret (i32 previous).

Definition skyuv_atomic_i32_compare_exchange (expected desired : Z)
    (success failure : skyuv_memory_order) : M Z (bool * Z) :=
  previous ← _InterlockedCompareExchange 32 (long desired) (long expected);
  if i32 previous =? expected then mret (true, expected)
  else mret (false, i32 previous).

Definition skyuv_atomic_i32_fetch_add (value : Z) (order : skyuv_memory_order) : M Z Z :=
  previous ← _InterlockedExchangeAdd 32 (long value);
  mret (i32 previous).

Definition skyuv_atomic_i32_fetch_sub (value : Z) (order : skyuv_memory_order) : M Z Z :=
  let delta := long (i32 (u32 (0 - u32 value))) in
  previous ← _InterlockedExchangeAdd 32 delta;
  mret (i32 previous).

Definition skyuv_atomic_i32_fetch_and (value : Z) (order : skyuv_memory_order) : M Z Z :=
  previous ← _InterlockedAnd 32 (long value);
  mret (i32 previous).

Definition msvc_i32 : atomic_ops :=
  AtomicOps
    (CellOps skyuv_atomic_i32_init skyuv_atomic_i32_load skyuv_atomic_i32_store
       skyuv_atomic_i32_exchange skyuv_atomic_i32_compare_exchange)
    skyuv_atomic_i32_fetch_add skyuv_atomic_i32_fetch_sub skyuv_atomic_i32_fetch_and.

(** ** uintptr_t, of 32 or 64 bits *)

Section uintptr.
Context (w : Z).

(** The casts to [uintptr_t] and to the Interlocked type. *)
Definition uintptr_t : Z → Z := uwrap w.
Definition skyuv_interlocked_uintptr : Z → Z := swrap w.

Definition skyuv_atomic_uintptr_init (value : Z) : M Z unit :=
  modify (λ _, uintptr_t value).

Definition skyuv_atomic_uintptr_load (order : skyuv_memory_order) : M Z Z :=
  previous ← _InterlockedCompareExchange w 0 0;
  mret (uintptr_t previous).

Definition skyuv_atomic_uintptr_store (value : Z) (order : skyuv_memory_order) : M Z unit :=
  _InterlockedExchange w (skyuv_interlocked_uintptr value) ;; mret tt.

Definition skyuv_atomic_uintptr_exchange (value : Z) (order : skyuv_memory_order) : M Z Z :=
  previous ← _InterlockedExchange w (skyuv_interlocked_uintptr value);
  mret (uintptr_t previous).

Definition skyuv_atomic_uintptr_compare_exchange (expected desired : Z)
    (success failure : skyuv_memory_order) : M Z (bool * Z) :=
  previous ← _InterlockedCompareExchange w (skyuv_interlocked_uintptr desired)
               (skyuv_interlocked_uintptr expected);
  if uintptr_t previous =? expected then mret (true, expected)
  else mret (false, uintptr_t previous).

Definition skyuv_atomic_uintptr_fetch_add (value : Z) (order : skyuv_memory_order) : M Z Z :=
  previous ← _InterlockedExchangeAdd w (skyuv_interlocked_uintptr value);
  mret (uintptr_t previous).

Definition skyuv_atomic_uintptr_fetch_sub (value : Z) (order : skyuv_memory_order) : M Z Z :=
  skyuv_atomic_uintptr_fetch_add (uintptr_t (0 - value)) order.

(** [others] is what the other threads do to the word before each access of the
    loop; the loop has not returned when they are used up. *)
Fixpoint fetch_and_loop (others : list (Z → Z)) (expected value : Z)
    (order : skyuv_memory_order) : M Z Z :=
  match others with
  | [] => throw OutOfFuel
  | f :: others =>
      modify f ;;
      '(ok, expected) ← skyuv_atomic_uintptr_compare_exchange expected
                          (Z.land expected value) order SKYUV_MEMORY_RELAXED;
      if negb ok then fetch_and_loop others expected value order else mret expected
  end.

Definition skyuv_atomic_uintptr_fetch_and (first : Z → Z) (others : list (Z → Z))
    (value : Z) (order : skyuv_memory_order) : M Z Z :=
  modify first ;;
  expected ← skyuv_atomic_uintptr_load SKYUV_MEMORY_RELAXED;
  fetch_and_loop others expected value order.

(** As one operation it runs without interference. *)
Definition msvc_uintptr : atomic_ops :=
  AtomicOps
    (CellOps skyuv_atomic_uintptr_init skyuv_atomic_uintptr_load skyuv_atomic_uintptr_store
       skyuv_atomic_uintptr_exchange skyuv_atomic_uintptr_compare_exchange)
    skyuv_atomic_uintptr_fetch_add skyuv_atomic_uintptr_fetch_sub
    (skyuv_atomic_uintptr_fetch_and id [id]).

End uintptr.

(** ** unsigned long, of 32 bits on Windows *)

Definition ulong : Z → Z := uwrap 32.
Definition ULONG_MAX : Z := 4294967295.

Definition skyuv_atomic_ulong_init (value : Z) : M Z unit :=
  modify (λ _, ulong value).

Definition skyuv_atomic_ulong_load (order : skyuv_memory_order) : M Z Z :=
  previous ← _InterlockedCompareExchange 32 0 0;
  mret (ulong previous).

Definition skyuv_atomic_ulong_store (value : Z) (order : skyuv_memory_order) : M Z unit :=
  _InterlockedExchange 32 (long value) ;; mret tt.

Definition skyuv_atomic_ulong_exchange (value : Z) (order : skyuv_memory_order) : M Z Z :=
  previous ← _InterlockedExchange 32 (long value);
  mret (ulong previous).

Definition skyuv_atomic_ulong_compare_exchange (expected desired : Z)
    (success failure : skyuv_memory_order) : M Z (bool * Z) :=
  old ← _InterlockedCompareExchange 32 (long desired) (long expected);
  let previous := ulong old in
  if previous =? expected then mret (true, expected)
  else mret (false, previous).

Definition skyuv_atomic_ulong_fetch_add (value : Z) (order : skyuv_memory_order) : M Z Z :=
  previous ← _InterlockedExchangeAdd 32 (long value);
  mret (ulong previous).

Definition skyuv_atomic_ulong_fetch_sub (value : Z) (order : skyuv_memory_order) : M Z Z :=
  skyuv_atomic_ulong_fetch_add (ulong (ulong (ULONG_MAX - value) + 1)) order.

Definition skyuv_atomic_ulong_fetch_and (value : Z) (order : skyuv_memory_order) : M Z Z :=
  previous ← _InterlockedAnd 32 (long value);
  mret (ulong previous).

Definition msvc_ulong : atomic_ops :=
  AtomicOps
    (CellOps skyuv_atomic_ulong_init skyuv_atomic_ulong_load skyuv_atomic_ulong_store
       skyuv_atomic_ulong_exchange skyuv_atomic_ulong_compare_exchange)
    skyuv_atomic_ulong_fetch_add skyuv_atomic_ulong_fetch_sub skyuv_atomic_ulong_fetch_and.

(** ** Laws

    The three sets convert to and from the signed word the same way. *)

Section generic.
Context (ty : int_type) (Hw : 0 < int_width ty).
Local Notation w := (int_width ty).

Lemma conv_signed z : conv ty (swrap w z) = conv ty z.
Proof.
  rewrite <-(conv_bits ty Hw (swrap w z)), <-(conv_bits ty Hw z). f_equal.
  apply uwrap_swrap. lia.
Qed.

Lemma read_back z : in_type ty z → conv ty (swrap w (bits ty z)) = z.
Proof. intros. by rewrite conv_signed, conv_bits. Qed.

Lemma signed_eqb x y : in_type ty x → in_type ty y →
  (swrap w (bits ty x) =? swrap w y) = (x =? y).
Proof.
  intros Hx Hy. apply eq_true_iff_eq. rewrite !Z.eqb_eq. split.
  - intros E. by rewrite <-(read_back x Hx), E, conv_signed.
  - intros ->. apply swrap_uwrap. lia.
Qed.

Lemma interlocked_load z :
  _InterlockedCompareExchange w 0 0 (bits ty z) = Ret (swrap w (bits ty z)) (bits ty z).
Proof.
  unfold _InterlockedCompareExchange. destruct (Z.eqb_spec (swrap w (bits ty z)) 0) as [E|]; [|done].
  f_equal. rewrite <-E, uwrap_swrap by lia. apply uwrap_idemp. lia.
Qed.

Definition generic_cell : cell_ops :=
  CellOps (λ v, modify (λ _, uwrap w v))
    (λ _, previous ← _InterlockedCompareExchange w 0 0; mret (conv ty previous))
    (λ v _, _InterlockedExchange w (swrap w v) ;; mret tt)
    (λ v _, previous ← _InterlockedExchange w (swrap w v); mret (conv ty previous))
    (λ e d _ _, previous ← _InterlockedCompareExchange w (swrap w d) (swrap w e);
       if conv ty previous =? e then mret (true, e) else mret (false, conv ty previous)).

Lemma generic_cell_laws : CellLaws ty generic_cell.
Proof.
  intros c old Hold Hc. destruct c as [v|o|v o|v o|e d s f]; simpl in Hc |- *.
  - done.
  - unfold mbind, M_bind. rewrite interlocked_load. simpl. by rewrite read_back.
  - split; [|by destruct Hc]. unfold mbind, M_bind, _InterlockedExchange, bits; simpl.
    rewrite uwrap_swrap by lia. done.
  - split; [|done]. unfold mbind, M_bind, _InterlockedExchange; simpl. rewrite read_back by done.
    unfold bits. rewrite uwrap_swrap by lia. done.
  - destruct Hc as (He & Hd & _). unfold mbind, M_bind, _InterlockedCompareExchange.
    rewrite signed_eqb by done.
    destruct (Z.eqb_spec old e) as [->|Hne]; simpl; rewrite read_back by done.
    + rewrite Z.eqb_refl. unfold bits. rewrite uwrap_swrap by lia. done.
    + rewrite (proj2 (Z.eqb_neq _ _) Hne). done.
Qed.

(** Adding a signed word with the bits of [delta]. *)
Lemma interlocked_add value delta old :
  in_type ty old → bits ty value = bits ty delta →
  (previous ← _InterlockedExchangeAdd w (swrap w value); mret (conv ty previous)) (bits ty old) =
    Ret old (bits ty (conv ty (old + delta))).
Proof.
  intros Hold E. unfold mbind, M_bind, _InterlockedExchangeAdd; simpl.
  rewrite read_back, bits_conv by done. unfold mret, M_ret. f_equal. unfold bits in *.
  rewrite uwrap_add_l, Z.add_comm, <-uwrap_add_l, uwrap_swrap, E, uwrap_add_l, Z.add_comm by lia.
  done.
Qed.

Lemma interlocked_and value old :
  in_type ty old →
  (previous ← _InterlockedAnd w (swrap w value); mret (conv ty previous)) (bits ty old) =
    Ret old (bits ty (Z.land old value)).
Proof.
  intros Hold. unfold mbind, M_bind, _InterlockedAnd; simpl. rewrite read_back by done.
  unfold mret, M_ret. f_equal. unfold bits. rewrite uwrap_swrap, <-uwrap_land by lia. done.
Qed.

End generic.

(** ** The loop of [fetch_and] under interference

    [quiet others word] is the first word that the other threads leave alone
    between two accesses of the loop. *)
Fixpoint quiet (others : list (Z → Z)) (word : Z) : option Z :=
  match others with
  | [] => None
  | f :: others => if f word =? word then Some word else quiet others (f word)
  end.

Section fetch_and.
Context (w : Z) (Hw : 0 < w).
Local Notation in_range := (in_type (uint_t w)).

Lemma in_range_bits x : in_range x → bits (uint_t w) x = x.
Proof. intros Hx. exact Hx. Qed.

Lemma uintptr_compare_exchange_word expected desired s f word :
  in_range expected → in_range desired → in_range word →
  skyuv_atomic_uintptr_compare_exchange w expected desired s f word =
    if word =? expected then Ret (true, expected) desired else Ret (false, word) word.
Proof.
  intros He Hd Hword. pose proof (generic_cell_laws (uint_t w) Hw
    (CompareExchange expected desired SKYUV_MEMORY_RELAXED SKYUV_MEMORY_RELAXED) word Hword
    (conj He (conj Hd eq_refl))) as [L _].
  rewrite (in_range_bits _ Hword) in L. simpl in L.
  apply bind_Ret_inv in L as ([ok e] & s' & L & R). unfold mret, M_ret in R.
  change (skyuv_atomic_uintptr_compare_exchange w expected desired s f word = Ret (ok, e) s') in L.
  rewrite L. destruct (word =? expected); simplify_eq/=; by rewrite in_range_bits.
Qed.

Lemma fetch_and_loop_quiet others value order word :
  Forall (λ f, ∀ x, in_range x → in_range (f x)) others → in_range value → in_range word →
  fetch_and_loop w others word value order word =
    match quiet others word with
    | Some r => Ret r (Z.land r value)
    | None => Fault OutOfFuel
    end.
Proof.
  intros Hf Hv. revert word. induction Hf as [|f others Hf Hfs IH]; intros word Hword; [done|].
  simpl. unfold mbind, M_bind; simpl. unfold mbind, M_bind.
  rewrite uintptr_compare_exchange_word by (try apply land_in_type; simpl; auto).
  destruct (f word =? word); [done|]. by apply IH, Hf.
Qed.

Lemma uintptr_load_word order word :
  in_range word → skyuv_atomic_uintptr_load w order word = Ret word word.
Proof.
  intros Hword.
  pose proof (generic_cell_laws (uint_t w) Hw (Load SKYUV_MEMORY_RELAXED) word Hword eq_refl)
    as [L _].
  apply bind_Ret_inv in L as (a & s & L & R). unfold mret, M_ret in R. simplify_eq/=.
  by rewrite in_range_bits in L.
Qed.

Lemma fetch_and_quiet first others value order word :
  Forall (λ f, ∀ x, in_range x → in_range (f x)) (first :: others) →
  in_range value → in_range word →
  skyuv_atomic_uintptr_fetch_and w first others value order word =
    match quiet others (first word) with
    | Some r => Ret r (Z.land r value)
    | None => Fault OutOfFuel
    end.
Proof.
  intros Hf Hv Hword. inversion_clear Hf as [|?? Hfirst Hothers].
  unfold skyuv_atomic_uintptr_fetch_and. rewrite (bind_Ret _ _ _ tt (first word)) by done.
  erewrite bind_Ret by by apply uintptr_load_word, Hfirst. apply fetch_and_loop_quiet; auto.
Qed.

End fetch_and.

(** ** The promise of the interface *)

#[export] Instance msvc_i32_laws : AtomicLaws int32_t msvc_i32.
Proof.
  assert (0 < int_width int32_t) as Hw by done.
  intros [c|v o|v o|v o] old Hold Hc; [by apply (generic_cell_laws int32_t)|..]; simpl in Hc;
    (split; [|try (by apply conv_in_type); by apply land_in_type]); unfold perform.
  - by erewrite bind_Ret by by apply (interlocked_add int32_t Hw v v).
  - erewrite bind_Ret; [|apply (interlocked_add int32_t Hw _ (- v)); [done|]]; [done|].
    change (u32 (swrap 32 (u32 (0 - u32 v))) = u32 (- v)). unfold u32.
    rewrite uwrap_swrap, uwrap_idemp by done. unfold uwrap.
    rewrite Zminus_mod_idemp_r. done.
  - by erewrite bind_Ret by by apply (interlocked_and int32_t Hw).
Qed.

#[export] Instance msvc_ulong_laws : AtomicLaws (uint_t 32) msvc_ulong.
Proof.
  assert (0 < int_width (uint_t 32)) as Hw by done.
  intros [c|v o|v o|v o] old Hold Hc; [by apply (generic_cell_laws (uint_t 32))|..];
    simpl in Hc; (split; [|try (by apply conv_in_type); by apply land_in_type]); unfold perform.
  - by erewrite bind_Ret by by apply (interlocked_add (uint_t 32) Hw v v).
  - erewrite bind_Ret; [|apply (interlocked_add (uint_t 32) Hw _ (- v)); [done|]]; [done|].
    unfold bits, ulong; simpl. rewrite uwrap_idemp, uwrap_add_l by done.
    unfold uwrap, ULONG_MAX. replace (4294967295 - v + 1) with (- v + 1 * 2 ^ 32) by lia.
    apply Z_mod_plus_full.
  - by erewrite bind_Ret by by apply (interlocked_and (uint_t 32) Hw).
Qed.

Lemma msvc_uintptr_laws w : 0 < w → AtomicLaws (uint_t w) (msvc_uintptr w).
Proof.
  intros Hw [c|v o|v o|v o] old Hold Hc; [by apply (generic_cell_laws (uint_t w))|..];
    simpl in Hc; (split; [|try (by apply conv_in_type); by apply land_in_type]); unfold perform.
  - by erewrite bind_Ret by by apply (interlocked_add (uint_t w) Hw v v).
  - erewrite bind_Ret; [|apply (interlocked_add (uint_t w) Hw _ (- v)); [done|]]; [done|].
    apply uwrap_idemp. lia.
  - rewrite in_range_bits by done. simpl op_fetch_and.
    pose proof (fetch_and_quiet w Hw id [id] v o old ltac:(repeat constructor; done) Hc Hold)
      as L.
    simpl in L. rewrite Z.eqb_refl in L. rewrite (bind_Ret _ _ _ _ _ L). simpl.
    by rewrite in_range_bits by by apply land_in_type.
Qed.
