(* ===== verification/AtomicNative.v ===== *)
(** * Atomic operations with GCC and Clang (src/src/platform/atomic.c, second half)

    One macro defines the operations of the three types from the [__atomic]
    builtins; the orders are passed on. *)
From S2P Require Import Prelude Atomic AtomicMsvc.

(** ** The builtins *)

Inductive native_order :=
| __ATOMIC_RELAXED
| __ATOMIC_ACQUIRE
| __ATOMIC_RELEASE
| __ATOMIC_ACQ_REL
| __ATOMIC_SEQ_CST.

Definition native_memory_order (order : skyuv_memory_order) : native_order :=
  match order with
  | SKYUV_MEMORY_RELAXED => __ATOMIC_RELAXED
  | SKYUV_MEMORY_ACQUIRE => __ATOMIC_ACQUIRE
  | SKYUV_MEMORY_RELEASE => __ATOMIC_RELEASE
  | SKYUV_MEMORY_ACQ_REL => __ATOMIC_ACQ_REL
  | SKYUV_MEMORY_SEQ_CST => __ATOMIC_SEQ_CST
  end.

Definition native_rank (o : native_order) : Z :=
  match o with
  | __ATOMIC_RELAXED => 0
  | __ATOMIC_ACQUIRE => 2
  | __ATOMIC_RELEASE => 3
  | __ATOMIC_ACQ_REL => 4
  | __ATOMIC_SEQ_CST => 5
  end.

Definition native_load_order (o : native_order) : bool :=
  match o with __ATOMIC_RELEASE | __ATOMIC_ACQ_REL => false | _ => true end.
Definition native_store_order (o : native_order) : bool :=
  match o with __ATOMIC_ACQUIRE | __ATOMIC_ACQ_REL => false | _ => true end.

Section builtins.
Context (ty : int_type).

Definition checked {A} (ok : bool) (m : M Z A) : M Z A :=
  if ok then m else throw InvalidOrder.

Definition __atomic_load_n (o : native_order) : M Z Z :=
  checked (native_load_order o) (gets (conv ty)).

Definition __atomic_store_n (value : Z) (o : native_order) : M Z unit :=
  checked (native_store_order o) (modify (λ _, bits ty value)).

Definition __atomic_exchange_n (value : Z) (o : native_order) : M Z Z :=
  λ word, Ret (conv ty word) (bits ty value).

Definition __atomic_compare_exchange_n (expected desired : Z)
    (success failure : native_order) : M Z (bool * Z) :=
  checked (native_load_order failure && (native_rank failure <=? native_rank success))
    (λ word, if word =? bits ty expected then Ret (true, expected) (bits ty desired)
             else Ret (false, conv ty word) word).

Definition __atomic_fetch_add (value : Z) (o : native_order) : M Z Z :=
  λ word, Ret (conv ty word) (bits ty (word + value)).

Definition __atomic_fetch_sub (value : Z) (o : native_order) : M Z Z :=
  λ word, Ret (conv ty word) (bits ty (word - value)).

Definition __atomic_fetch_and (value : Z) (o : native_order) : M Z Z :=
  λ word, Ret (conv ty word) (Z.land word (bits ty value)).

(** ** What [DEFINE_ATOMIC_FUNCTIONS] expands to, for one type *)

Definition skyuv_atomic_init (value : Z) : M Z unit :=
  __atomic_store_n value __ATOMIC_RELAXED.

Definition skyuv_atomic_load (order : skyuv_memory_order) : M Z Z :=
  __atomic_load_n (native_memory_order order).

Definition skyuv_atomic_store (value : Z) (order : skyuv_memory_order) : M Z unit :=
  __atomic_store_n value (native_memory_order order).

Definition skyuv_atomic_exchange (value : Z) (order : skyuv_memory_order) : M Z Z :=
  __atomic_exchange_n value (native_memory_order order).

Definition skyuv_atomic_compare_exchange (expected desired : Z)
    (success failure : skyuv_memory_order) : M Z (bool * Z) :=
  __atomic_compare_exchange_n expected desired (native_memory_order success)
    (native_memory_order failure).

Definition skyuv_atomic_fetch_add (value : Z) (order : skyuv_memory_order) : M Z Z :=
  __atomic_fetch_add value (native_memory_order order).

Definition skyuv_atomic_fetch_sub (value : Z) (order : skyuv_memory_order) : M Z Z :=
  __atomic_fetch_sub value (native_memory_order order).

(** The three functions after the macro. *)
Definition skyuv_atomic_fetch_and (value : Z) (order : skyuv_memory_order) : M Z Z :=
  __atomic_fetch_and value (native_memory_order order).

Definition native : atomic_ops :=
  AtomicOps
    (CellOps skyuv_atomic_init skyuv_atomic_load skyuv_atomic_store skyuv_atomic_exchange
       skyuv_atomic_compare_exchange)
    skyuv_atomic_fetch_add skyuv_atomic_fetch_sub skyuv_atomic_fetch_and.

Lemma native_cell_laws : 0 < int_width ty → CellLaws ty (op_cell native).
Proof.
  intros Hw c old Hold Hc. destruct c as [v|o|v o|v o|e d s f]; simpl in Hc.
  - done.
  - destruct o; try done; simpl; unfold mbind, M_bind; simpl; by rewrite in_type_read by done.
  - destruct Hc as [? Ho]. by destruct o.
  - simpl. unfold mbind, M_bind; simpl. by rewrite in_type_read by done.
  - destruct Hc as (He & Hd & Hf). simpl. unfold mbind, M_bind; simpl.
    unfold skyuv_atomic_compare_exchange, __atomic_compare_exchange_n.
    assert (native_load_order (native_memory_order f) &&
      (native_rank (native_memory_order f) <=? native_rank (native_memory_order s)) = true) as ->.
    { by destruct s, f. }
    simpl. rewrite bits_eqb by done. destruct (old =? e); simpl; [done|].
    by rewrite in_type_read by done.
Qed.

Lemma native_laws : 0 < int_width ty → AtomicLaws ty native.
Proof.
  intros Hw [c|v o|v o|v o] old Hold Hc; [by apply native_cell_laws|..]; simpl in Hc;
    (split; [|try (by apply conv_in_type); by apply land_in_type]); simpl;
    unfold mbind, M_bind; simpl; rewrite in_type_read by done; unfold mret, M_ret; f_equal.
  - by rewrite bits_conv, bits_add by done.
  - rewrite bits_conv by done. apply uwrap_sub_l. lia.
  - by apply bits_land.
Qed.

End builtins.

(** ** The platforms agree *)

(** An implementation of the operations of a type: with MSVC, with GCC, and the
    one of [size_t] over that of [uintptr_t]. *)
Inductive platform_ops : int_type → atomic_ops → Prop :=
| MsvcI32 : platform_ops int32_t msvc_i32
| MsvcUlong : platform_ops (uint_t 32) msvc_ulong
| MsvcUintptr w : 0 < w → platform_ops (uint_t w) (msvc_uintptr w)
| Native ty : 0 < int_width ty → platform_ops ty (native ty)
| SizeOver w ops : 0 < w → platform_ops (uint_t w) ops →
    platform_ops (uint_t w) (skyuv_atomic_size w ops).

Lemma platform_laws ty ops : platform_ops ty ops → AtomicLaws ty ops.
Proof.
  induction 1; [apply msvc_i32_laws|apply msvc_ulong_laws|by apply msvc_uintptr_laws|
    by apply native_laws|by apply skyuv_atomic_size_laws].
Qed.

(** C22 Both implementations of the atomic operations, and the operations of
    [size_t] built on them, are the same object: whatever operations are
    performed on it, with values of its type and orders that the operation
    admits, no access is undefined, every answer and the final value are those of
    a variable of the C type, with the wrap-around of that type for additions and
    subtractions.  The same holds for the operations of pointers. *)
Theorem atomics_refine ty ops calls cells w old :
  platform_ops ty ops → in_type ty old → Forall (call_ok ty) calls →
  perform_all (perform ops) calls (bits ty old) =
    Ret (meaning_all (meaning ty) calls old).1 (bits ty (meaning_all (meaning ty) calls old).2) ∧
  (0 < w → ty = uint_t w → Forall (cell_call_ok ty) cells →
   perform_all (perform_cell (skyuv_atomic_pointer w ops)) cells (bits ty old) =
     Ret (meaning_all cell_meaning cells old).1 (bits ty (meaning_all cell_meaning cells old).2)).
Proof.
  intros Hops Hold Hcalls. apply platform_laws in Hops. split.
  - by apply (refines_all ty (call_ok ty)).
  - intros Hw -> Hcells.
    by apply (refines_all (uint_t w) (cell_call_ok (uint_t w)) _ _ _ _
                (skyuv_atomic_pointer_laws w ops Hops)).
Qed.

(** Counting down below zero and setting flags, as MSVC and GCC do it. *)
Definition sample_calls : list atomic_call :=
  [FetchSub 1 SKYUV_MEMORY_ACQ_REL; Cell (Load SKYUV_MEMORY_ACQUIRE);
   FetchAdd 2147483647 SKYUV_MEMORY_RELAXED; FetchAdd 2147483647 SKYUV_MEMORY_RELAXED;
   Cell (CompareExchange (-3) 12 SKYUV_MEMORY_RELEASE SKYUV_MEMORY_RELAXED);
   Cell (CompareExchange (-3) 12 SKYUV_MEMORY_RELEASE SKYUV_MEMORY_RELAXED);
   FetchAnd (-5) SKYUV_MEMORY_SEQ_CST; Cell (Exchange (-1) SKYUV_MEMORY_ACQUIRE)].

Lemma atomics_refine_witness :
  perform_all (perform msvc_i32) sample_calls 0 =
    Ret [Value 0; Value (-1); Value (-1); Value 2147483646; Swapped true (-3);
         Swapped false 12; Value 12; Value 8] 4294967295 ∧
  perform_all (perform_cell (skyuv_atomic_pointer 64 (native (uint_t 64))))
    [Store 4096 SKYUV_MEMORY_RELEASE; Load SKYUV_MEMORY_ACQUIRE] 0 =
    Ret [NoAnswer; Value 4096] 4096.
Proof.
  split.
  - apply (atomics_refine int32_t msvc_i32 sample_calls [] 1 0 MsvcI32 eq_refl).
    apply (bool_decide_unpack _). vm_compute. exact I.
  - apply (proj2 (atomics_refine (uint_t 64) (native (uint_t 64)) []
      [Store 4096 SKYUV_MEMORY_RELEASE; Load SKYUV_MEMORY_ACQUIRE] 64 0
      (Native (uint_t 64) eq_refl) eq_refl (List.Forall_nil _))); [done|done|].
    apply (bool_decide_unpack _). vm_compute. exact I.
Defined.

Lemma quiet_found before f after word :
  (let seen := foldl (λ x g, g x) word before in f seen = seen) →
  ∃ r n, quiet (before ++ f :: after) word = Some r ∧
    (n < length (before ++ f :: after))%nat ∧
    r = foldl (λ x g, g x) word (take (S n) (before ++ f :: after)).
Proof.
  revert word. induction before as [|g before IH]; intros word Hf; simpl in *.
  - exists word, 0%nat. rewrite Hf, Z.eqb_refl. split_and!; [done|lia|]. done.
  - destruct (Z.eqb_spec (g word) word) as [E|_].
    + exists word, 0%nat. split_and!; [done|lia|]. done.
    + destruct (IH (g word) Hf) as (r & n & Hr & Hn & Heq). exists r, (S n).
      split_and!; [done|lia|done].
Qed.

(** The loop that implements [fetch_and] on [uintptr_t] with MSVC, under any
    writes of other threads: it returns at the first attempt before which they
    have left the word alone, and then has replaced a word by its conjunction with
    the value, in one access, and returned that word; as long as it has not
    returned it has written nothing and every attempt met a changed word. *)
Theorem fetch_and_is_atomic w first others value order word :
  0 < w → Forall (λ f, ∀ x, in_type (uint_t w) x → in_type (uint_t w) (f x)) (first :: others) →
  in_type (uint_t w) value → in_type (uint_t w) word →
  skyuv_atomic_uintptr_fetch_and w first others value order word =
    match quiet others (first word) with
    | Some r => Ret r (Z.land r value)
    | None => Fault OutOfFuel
    end ∧
  ((∃ before f after, others = before ++ f :: after ∧
      let seen := foldl (λ x g, g x) (first word) before in f seen = seen) →
   ∃ r, skyuv_atomic_uintptr_fetch_and w first others value order word = Ret r (Z.land r value) ∧
     ∃ n, (n < length others)%nat ∧ r = foldl (λ x g, g x) (first word) (take (S n) others)).
Proof.
  intros Hw Hf Hv Hword. pose proof (fetch_and_quiet w Hw first others value order word Hf Hv Hword)
    as ->. split; [done|]. intros (before & f & after & -> & Hquiet).
  destruct (quiet_found before f after (first word) Hquiet) as (r & n & -> & Hn & ->). eauto.
Qed.

Lemma fetch_and_is_atomic_witness :
  skyuv_atomic_uintptr_fetch_and 64 id [λ _, 7; λ _, 5; id; λ _, 9] 12 SKYUV_MEMORY_ACQ_REL 3 =
    Ret 5 4.
Proof.
  rewrite (proj1 (fetch_and_is_atomic 64 id [λ _, 7; λ _, 5; id; λ _, 9] 12
    SKYUV_MEMORY_ACQ_REL 3 eq_refl ltac:(repeat constructor; done) eq_refl eq_refl)).
  reflexivity.
Defined.
