(* ===== verification/Spinlock.v ===== *)
(** * The spin lock of Skynet (src/src/compat/skynet/spinlock.h)

    The lock is one [int32_t] that is accessed by the atomic operations only, so
    it is modelled over the interface of [Atomic], and its theorems hold with
    every implementation of it.  A function that makes several accesses is a
    function of the point it has reached: between two accesses any other thread
    may run. *)
From S2P Require Import Prelude Atomic AtomicMsvc AtomicNative.

Section spinlock.
Context (i32_ops : atomic_ops).
Local Notation cell := (op_cell i32_ops).

Definition spinlock_init : M Z unit := op_init cell 0.

(** Where [spinlock_lock] is: before the exchange, or in the inner loop. *)
Inductive lock_point := LockExchange | LockSpin.

(** One access of [spinlock_lock]: the next point, or [None] when it returns. *)
Definition spinlock_lock (p : lock_point) : M Z (option lock_point) :=
  match p with
  | LockExchange =>
      old ← op_exchange cell 1 SKYUV_MEMORY_ACQUIRE;
      if old =? 0 then mret None else mret (Some LockSpin)
  | LockSpin =>
      value ← op_load cell SKYUV_MEMORY_RELAXED;
      if negb (value =? 0) then mret (Some LockSpin) else mret (Some LockExchange)
  end.

(** Where [spinlock_trylock] is: before the first or the second operand of [&&]. *)
Inductive trylock_point := TryLoad | TryExchange.

(** One access of [spinlock_trylock]: the next point, or the value it returns. *)
Definition spinlock_trylock (p : trylock_point) : M Z (trylock_point + bool) :=
  match p with
  | TryLoad =>
      value ← op_load cell SKYUV_MEMORY_RELAXED;
      if value =? 0 then mret (inl TryExchange) else mret (inr false)
  | TryExchange =>
      old ← op_exchange cell 1 SKYUV_MEMORY_ACQUIRE;
      mret (inr (old =? 0))
  end.

Definition spinlock_unlock : M Z unit := op_store cell 0 SKYUV_MEMORY_RELEASE.

(** ** Threads

    A thread takes the lock by one of the two functions and releases it only when
    it holds it, which is how Skynet's SPIN_LOCK and SPIN_UNLOCK are used. *)

Inductive thread :=
| Outside
| Locking (p : lock_point)
| Trying (p : trylock_point)
| Inside.

Definition after_lock (r : option lock_point) : thread :=
  match r with Some p => Locking p | None => Inside end.
Definition after_trylock (r : trylock_point + bool) : thread :=
  match r with inl p => Trying p | inr b => if b then Inside else Outside end.

Inductive move : thread → M Z thread → Prop :=
| CallLock : move Outside (mret (Locking LockExchange))
| CallTrylock : move Outside (mret (Trying TryLoad))
| StepLock p : move (Locking p) (r ← spinlock_lock p; mret (after_lock r))
| StepTrylock p : move (Trying p) (r ← spinlock_trylock p; mret (after_trylock r))
| Unlock : move Inside (spinlock_unlock ;; mret Outside).

Record lock_state := LockState { lock_word : Z; lock_threads : list thread }.

(** A step of thread [i]. *)
Inductive lock_step (i : nat) : lock_state → lock_state → Prop :=
| LockStep word word' threads t t' m :
    threads !! i = Some t → move t m → m word = Ret t' word' →
    lock_step i (LockState word threads) (LockState word' (<[i := t']> threads)).

Inductive lock_reachable (n : nat) : lock_state → Prop :=
| LockInit z word' :
    in_type int32_t z → spinlock_init (bits int32_t z) = Ret tt word' →
    lock_reachable n (LockState word' (replicate n Outside))
| LockNext i s s' : lock_reachable n s → lock_step i s s' → lock_reachable n s'.

(** Thread [i] alone takes at most [k] steps from [s] to [s']. *)
Inductive alone (i : nat) : nat → lock_state → lock_state → Prop :=
| AloneDone k s : alone i k s s
| AloneStep k s s' s'' : lock_step i s s' → alone i k s' s'' → alone i (S k) s s''.

Definition is_inside (t : thread) : bool := match t with Inside => true | _ => false end.

(** How many threads hold the lock. *)
Definition holders (l : list thread) : nat := length (filter is_inside l).

(** ** The accesses, by the promise of the interface *)

Section laws.
Context (L : AtomicLaws int32_t i32_ops).

(** The word is 0 or 1, which is its own representation. *)
Definition lock_value (z : Z) : Prop := z = 0 ∨ z = 1.

Lemma lock_value_bits z : lock_value z → bits int32_t z = z.
Proof. by intros [-> | ->]. Qed.

Lemma lock_value_in z : lock_value z → in_type int32_t z.
Proof. by intros [-> | ->]. Qed.

Lemma exchange_1 o z : lock_value z → op_exchange cell 1 o z = Ret z 1.
Proof.
  intros Hz. destruct (L (Cell (Exchange 1 o)) z (lock_value_in z Hz) eq_refl) as [E _].
  rewrite lock_value_bits in E by done.
  apply bind_Ret_inv in E as (? & ? & E & R). unfold mret, M_ret in R. simplify_eq/=. done.
Qed.

Lemma load_word o z : lock_value z → load_order o = true → op_load cell o z = Ret z z.
Proof.
  intros Hz Ho. destruct (L (Cell (Load o)) z (lock_value_in z Hz) Ho) as [E _].
  rewrite lock_value_bits in E by done.
  apply bind_Ret_inv in E as (? & ? & E & R). unfold mret, M_ret in R. simplify_eq/=.
  by rewrite lock_value_bits in E.
Qed.

Lemma store_0 z : lock_value z → spinlock_unlock z = Ret tt 0.
Proof.
  intros Hz. destruct (L (Cell (Store 0 SKYUV_MEMORY_RELEASE)) z (lock_value_in z Hz)) as [E _];
    [done|].
  rewrite lock_value_bits in E by done.
  apply bind_Ret_inv in E as ([] & ? & E & R). unfold mret, M_ret in R. by simplify_eq/=.
Qed.

(** Initialising works on a word that holds anything of the type. *)
Lemma init_0 z : in_type int32_t z → spinlock_init (bits int32_t z) = Ret tt 0.
Proof.
  intros Hz. destruct (L (Cell (Init 0)) z Hz) as [E _]; [done|].
  apply bind_Ret_inv in E as ([] & ? & E & R). unfold mret, M_ret in R. by simplify_eq/=.
Qed.

(** Every move runs, and the word is 1 exactly while a thread is inside. *)
Lemma move_effect t m word :
  move t m → lock_value word → (t = Inside → word = 1) →
  ∃ t' word', m word = Ret t' word' ∧ lock_value word' ∧
    word' - (if is_inside t' then 1 else 0) = word - (if is_inside t then 1 else 0).
Proof.
  intros Hm Hw Hin. unfold lock_value.
  destruct Hm as [| |[]|[]|]; simpl; unfold mbind, M_bind, mret, M_ret.
  - eauto 10.
  - eauto 10.
  - rewrite exchange_1 by done. destruct Hw as [-> | ->]; simpl; eauto 10.
  - rewrite load_word by done. destruct Hw as [-> | ->]; simpl; eauto 10.
  - rewrite load_word by done. destruct Hw as [-> | ->]; simpl; eauto 10.
  - rewrite exchange_1 by done. destruct Hw as [-> | ->]; simpl; eauto 10.
  - rewrite store_0 by done. rewrite Hin by done. eauto 10.
Qed.

Definition lock_inv (s : lock_state) : Prop :=
  lock_value (lock_word s) ∧ Z.of_nat (holders (lock_threads s)) = lock_word s.

Lemma holders_insert l i t t' :
  l !! i = Some t →
  Z.of_nat (holders (<[i := t']> l)) - (if is_inside t' then 1 else 0) =
    Z.of_nat (holders l) - (if is_inside t then 1 else 0).
Proof.
  intros Hi. assert (i < length l)%nat by by eapply lookup_lt_Some.
  rewrite insert_take_drop by done. rewrite <-(take_drop_middle l i t Hi) at 3.
  unfold holders. rewrite !filter_app, !length_app, !filter_cons.
  repeat case_decide; destruct t, t'; simpl in *; try done; lia.
Qed.

Lemma holders_inside l i : l !! i = Some Inside → (0 < holders l)%nat.
Proof.
  intros Hi. unfold holders. assert (Inside ∈ filter is_inside l) as Hin.
  { apply list_elem_of_filter. split; [done|]. by eapply list_elem_of_lookup_2. }
  destruct (filter is_inside l); [by apply not_elem_of_nil in Hin|simpl; lia].
Qed.

Lemma lock_reachable_inv n s : lock_reachable n s → lock_inv s.
Proof.
  induction 1 as [z word' Hz E|i s s' _ IH Hstep].
  - rewrite init_0 in E by done. simplify_eq/=. split; [by left|]. simpl.
    change 0 with (Z.of_nat 0). f_equal.
    unfold holders. clear. induction n; [done|]. simpl. rewrite filter_cons. by case_decide.
  - destruct Hstep as [word word' l t t' m Hi Hm Hrun]. destruct IH as [Hv Hcount]; simpl in *.
    destruct (move_effect t m word Hm Hv) as (t2 & w2 & Hrun2 & Hv2 & Hd).
    { intros ->. apply holders_inside in Hi. destruct Hv; lia. }
    rewrite Hrun in Hrun2. simplify_eq. split; [done|]. simpl. pose proof (holders_insert l i t t2 Hi). lia.
Qed.

(** A waiting thread that runs alone while the lock is free gets it. *)
Lemma lock_alone n s i p :
  lock_reachable n s → lock_threads s !! i = Some (Locking p) → holders (lock_threads s) = 0%nat →
  ∃ s', alone i 2 s s' ∧ lock_threads s' !! i = Some Inside.
Proof.
  intros Hr Hi Hfree. apply lock_reachable_inv in Hr as [Hv Hcount].
  destruct s as [word l]; simpl in *. rewrite Hfree in Hcount. simpl in Hcount. subst word.
  assert (i < length l)%nat by by eapply lookup_lt_Some.
  assert (∀ l', l' !! i = Some (Locking LockExchange) →
    lock_step i (LockState 0 l') (LockState 1 (<[i := Inside]> l'))) as Hex.
  { intros l' Hl'. eapply (LockStep _ _ _ _ _ _ _ Hl' (StepLock _)).
    unfold mbind, M_bind; simpl; unfold mbind, M_bind. by rewrite exchange_1. }
  destruct p.
  - eexists. split; [eapply AloneStep; [by apply Hex|apply AloneDone]|].
    simpl. by rewrite list_lookup_insert_eq.
  - eexists. split.
    + eapply AloneStep; [|eapply AloneStep; [apply Hex|apply AloneDone]].
      * eapply (LockStep _ _ _ _ _ _ _ Hi (StepLock _)).
        unfold mbind, M_bind; simpl; unfold mbind, M_bind. by rewrite load_word.
      * by rewrite list_lookup_insert_eq.
    + simpl. by rewrite list_lookup_insert_eq by by rewrite length_insert.
Qed.

(** An attempt fails only on a word that is not 0. *)
Lemma trylock_outcome p word r word' :
  lock_value word → spinlock_trylock p word = Ret r word' →
  match r with
  | inl q => p = TryLoad ∧ q = TryExchange ∧ word = 0 ∧ word' = 0
  | inr true => p = TryExchange ∧ word = 0 ∧ word' = 1
  | inr false => word = 1 ∧ word' = 1
  end.
Proof.
  intros Hv E. destruct p; simpl in E; unfold mbind, M_bind in E;
    rewrite ?load_word, ?exchange_1 in E by done; destruct Hv as [-> | ->]; simpl in E;
    unfold mret, M_ret in E; by simplify_eq/=.
Qed.

End laws.
End spinlock.

(** C23 The spin lock excludes: with any number of threads that lock, try and
    unlock in any interleaving, over either implementation of the atomics, at most
    one thread is between a lock and its unlock, the word is 1 exactly while one
    is, and no access of any thread is undefined. *)
Theorem spinlock_excludes ops n s :
  AtomicLaws int32_t ops → lock_reachable ops n s →
  (holders (lock_threads s) ≤ 1)%nat ∧
  lock_word s = Z.of_nat (holders (lock_threads s)) ∧
  (∀ i t m, lock_threads s !! i = Some t → move ops t m →
     ∃ t' word', m (lock_word s) = Ret t' word').
Proof.
  intros L Hr. apply lock_reachable_inv in Hr as [Hv Hcount]; [|done]. split_and!.
  - destruct Hv; lia.
  - done.
  - intros i t m Hi Hm. destruct (move_effect ops L t m _ Hm Hv) as (t' & word' & E & _); [|eauto].
    intros ->. apply holders_inside in Hi. destruct Hv; lia.
Qed.

(** The spin lock is live: a thread in [spinlock_lock] that finds the lock
    free and is left alone has it after at most two accesses, and
    [spinlock_trylock] returns after at most two accesses, with success exactly
    when it changed the word from 0 to 1 and with failure only when another thread
    held the lock. *)
Theorem spinlock_live ops n s i p q r word' :
  AtomicLaws int32_t ops → lock_reachable ops n s →
  (lock_threads s !! i = Some (Locking p) → holders (lock_threads s) = 0%nat →
   ∃ s', alone ops i 2 s s' ∧ lock_threads s' !! i = Some Inside) ∧
  (spinlock_trylock ops q (lock_word s) = Ret r word' →
   match r with
   | inl q' => q = TryLoad ∧ q' = TryExchange ∧ word' = lock_word s
   | inr true => q = TryExchange ∧ holders (lock_threads s) = 0%nat ∧ word' = 1
   | inr false => holders (lock_threads s) = 1%nat ∧ word' = lock_word s
   end).
Proof.
  intros L Hr. split; [by eapply lock_alone|]. intros E.
  apply lock_reachable_inv in Hr as [Hv Hcount]; [|done].
  apply trylock_outcome in E; [|done..]. destruct r as [q'|[]]; naive_solver lia.
Qed.

(** Two threads with MSVC's atomics: the first has the lock, the second spins. *)
Lemma contended : lock_reachable msvc_i32 2 (LockState 1 [Inside; Locking LockSpin]).
Proof.
  eapply (LockNext _ _ 1 (LockState 1 [Inside; Locking LockExchange]));
    [|by apply (LockStep msvc_i32 1 1 1 [_; _] _ (Locking LockSpin) _ eq_refl (StepLock _ _))].
  eapply (LockNext _ _ 1 (LockState 1 [Inside; Outside]));
    [|by apply (LockStep msvc_i32 1 1 1 [_; _] _ _ _ eq_refl (CallLock _))].
  eapply (LockNext _ _ 0 (LockState 0 [Locking LockExchange; Outside]));
    [|by apply (LockStep msvc_i32 0 0 1 [_; _] _ Inside _ eq_refl (StepLock _ _))].
  eapply (LockNext _ _ 0 (LockState 0 [Outside; Outside]));
    [|by apply (LockStep msvc_i32 0 0 0 [_; _] _ _ _ eq_refl (CallLock _))].
  by apply (LockInit msvc_i32 2 7 0).
Qed.

Lemma released : lock_reachable msvc_i32 2 (LockState 0 [Outside; Locking LockSpin]).
Proof.
  eapply (LockNext _ _ 0 _ _ contended).
  by apply (LockStep msvc_i32 0 1 0 [_; _] _ Outside _ eq_refl (Unlock _)).
Qed.

Lemma spinlock_excludes_witness :
  (holders [Inside; Locking LockSpin] ≤ 1)%nat.
Proof. apply (spinlock_excludes msvc_i32 2 _ msvc_i32_laws contended). Defined.

Lemma spinlock_live_witness :
  (∃ s', alone msvc_i32 1 2 (LockState 0 [Outside; Locking LockSpin]) s' ∧
     lock_threads s' !! 1%nat = Some Inside) ∧
  holders [Inside; Locking LockSpin] = 1%nat.
Proof.
  split.
  - by apply (spinlock_live msvc_i32 2 _ 1 LockSpin TryLoad (inr false) 0 msvc_i32_laws released).
  - by apply (spinlock_live msvc_i32 2 _ 1 LockSpin TryLoad (inr false) 1 msvc_i32_laws contended).
Defined.
