(* ===== verification/AtomicCompat.v ===== *)
(** * The atomic names of Skynet (src/src/compat/skynet/atomic.h)

    The macros choose, by the type of the object, the operations of [int32_t],
    [unsigned long] or [uintptr_t], always with the strongest order; the four
    compare-and-swap functions drop the value that was found.  What they do is
    proved against the interface of [Atomic], so it holds on every platform. *)
From S2P Require Import Prelude Atomic AtomicMsvc AtomicNative.

(** The association of [_Generic]: [ATOM_INT], [ATOM_ULONG], and [ATOM_POINTER] and
    [ATOM_SIZET], which are [uintptr_t]. *)
Inductive atom_type := ATOM_INT | ATOM_ULONG | ATOM_UINTPTR.

Section atomics.
Context (w long_w : Z) (i32 ulong uintptr : atomic_ops).

Definition generic (t : atom_type) : atomic_ops :=
  match t with ATOM_INT => i32 | ATOM_ULONG => ulong | ATOM_UINTPTR => uintptr end.

Definition c_type (t : atom_type) : int_type :=
  match t with ATOM_INT => int32_t | ATOM_ULONG => uint_t long_w | ATOM_UINTPTR => uint_t w end.

Definition ATOM_INIT (t : atom_type) (value : Z) : M Z unit := op_init (op_cell (generic t)) value.

Definition ATOM_LOAD (t : atom_type) : M Z Z := op_load (op_cell (generic t)) SKYUV_MEMORY_SEQ_CST.

Definition ATOM_STORE (t : atom_type) (value : Z) : M Z unit :=
  op_store (op_cell (generic t)) value SKYUV_MEMORY_SEQ_CST.

Definition ATOM_FADD (t : atom_type) (value : Z) : M Z Z :=
  op_fetch_add (generic t) value SKYUV_MEMORY_SEQ_CST.

Definition ATOM_FSUB (t : atom_type) (value : Z) : M Z Z :=
  op_fetch_sub (generic t) value SKYUV_MEMORY_SEQ_CST.

Definition ATOM_FAND (t : atom_type) (value : Z) : M Z Z :=
  op_fetch_and (generic t) value SKYUV_MEMORY_SEQ_CST.

Definition ATOM_FINC (t : atom_type) : M Z Z := ATOM_FADD t 1.
Definition ATOM_FDEC (t : atom_type) : M Z Z := ATOM_FSUB t 1.

Definition skyuv_compat_atomic_cas_i32 (expected desired : Z) : M Z bool :=
  r ← op_compare_exchange (op_cell i32) expected desired SKYUV_MEMORY_SEQ_CST SKYUV_MEMORY_SEQ_CST;
  mret r.1.

Definition skyuv_compat_atomic_cas_ulong (expected desired : Z) : M Z bool :=
  r ← op_compare_exchange (op_cell ulong) expected desired SKYUV_MEMORY_SEQ_CST SKYUV_MEMORY_SEQ_CST;
  mret r.1.

Definition skyuv_compat_atomic_cas_size (expected desired : Z) : M Z bool :=
  r ← skyuv_atomic_size_compare_exchange w uintptr expected desired
        SKYUV_MEMORY_SEQ_CST SKYUV_MEMORY_SEQ_CST;
  mret r.1.

Definition skyuv_compat_atomic_cas_uintptr (expected desired : Z) : M Z bool :=
  r ← op_compare_exchange (op_cell uintptr) expected desired SKYUV_MEMORY_SEQ_CST SKYUV_MEMORY_SEQ_CST;
  mret r.1.

(** The macros [ATOM_CAS], [ATOM_CAS_ULONG], [ATOM_CAS_SIZET], [ATOM_CAS_POINTER]. *)
Inductive cas_name := ATOM_CAS | ATOM_CAS_ULONG | ATOM_CAS_SIZET | ATOM_CAS_POINTER.

Definition cas (c : cas_name) : Z → Z → M Z bool :=
  match c with
  | ATOM_CAS => skyuv_compat_atomic_cas_i32
  | ATOM_CAS_ULONG => skyuv_compat_atomic_cas_ulong
  | ATOM_CAS_SIZET => skyuv_compat_atomic_cas_size
  | ATOM_CAS_POINTER => skyuv_compat_atomic_cas_uintptr
  end.

Definition cas_type (c : cas_name) : atom_type :=
  match c with ATOM_CAS => ATOM_INT | ATOM_CAS_ULONG => ATOM_ULONG | _ => ATOM_UINTPTR end.

(** A name with its arguments. *)
Inductive atom_call :=
| AtomInit (v : Z) | AtomLoad | AtomStore (v : Z) | AtomFadd (v : Z) | AtomFsub (v : Z) | AtomFand (v : Z)
| AtomFinc | AtomFdec | AtomCas (c : cas_name) (expected desired : Z).

Definition atom_perform (t : atom_type) (c : atom_call) : M Z answer :=
  match c with
  | AtomInit v => ATOM_INIT t v ;; mret NoAnswer
  | AtomLoad => z ← ATOM_LOAD t; mret (Value z)
  | AtomStore v => ATOM_STORE t v ;; mret NoAnswer
  | AtomFadd v => z ← ATOM_FADD t v; mret (Value z)
  | AtomFsub v => z ← ATOM_FSUB t v; mret (Value z)
  | AtomFand v => z ← ATOM_FAND t v; mret (Value z)
  | AtomFinc => z ← ATOM_FINC t; mret (Value z)
  | AtomFdec => z ← ATOM_FDEC t; mret (Value z)
  | AtomCas c e d => b ← cas c e d; mret (Value (if b : bool then 1 else 0))
  end.

(** What a plain variable of the type would do in one step. *)
Definition atom_meaning (ty : int_type) (c : atom_call) (old : Z) : answer * Z :=
  match c with
  | AtomInit v | AtomStore v => (NoAnswer, v)
  | AtomLoad => (Value old, old)
  | AtomFadd v => (Value old, conv ty (old + v))
  | AtomFsub v => (Value old, conv ty (old - v))
  | AtomFand v => (Value old, Z.land old v)
  | AtomFinc => (Value old, conv ty (old + 1))
  | AtomFdec => (Value old, conv ty (old - 1))
  | AtomCas _ e d => if old =? e then (Value 1, d) else (Value 0, old)
  end.

Definition atom_ok (t : atom_type) (c : atom_call) : Prop :=
  match c with
  | AtomInit v | AtomStore v | AtomFadd v | AtomFsub v | AtomFand v => in_type (c_type t) v
  | AtomCas c e d => cas_type c = t ∧ in_type (c_type t) e ∧ in_type (c_type t) d
  | _ => True
  end.

(** ** Correctness *)

Context (Hw : 1 < w) (Hlong : 1 < long_w).
Context (Li : AtomicLaws int32_t i32) (Ll : AtomicLaws (uint_t long_w) ulong) (Lu : AtomicLaws (uint_t w) uintptr).

Lemma generic_laws t : AtomicLaws (c_type t) (generic t).
Proof using Li Ll Lu. by destruct t. Qed.

Lemma one_in_type t : in_type (c_type t) 1.
Proof using Hlong Hw.
  unfold in_type, conv. destruct t; simpl; [done|..]; apply uwrap_small.
  - pose proof (Z.pow_gt_1 2 long_w). lia.
  - pose proof (Z.pow_gt_1 2 w). lia.
Qed.

Lemma cas_ok t c e d old :
  in_type (c_type t) old → cas_type c = t → in_type (c_type t) e → in_type (c_type t) d →
  atom_perform t (AtomCas c e d) (bits (c_type t) old) =
    Ret (atom_meaning (c_type t) (AtomCas c e d) old).1
        (bits (c_type t) (atom_meaning (c_type t) (AtomCas c e d) old).2) ∧
  in_type (c_type t) (atom_meaning (c_type t) (AtomCas c e d) old).2.
Proof using Hw Li Ll Lu.
  intros Hold Hc He Hd.
  set (call := Cell (CompareExchange e d SKYUV_MEMORY_SEQ_CST SKYUV_MEMORY_SEQ_CST)).
  assert (∀ ops, AtomicLaws (c_type t) ops →
    (r ← op_compare_exchange (op_cell ops) e d SKYUV_MEMORY_SEQ_CST SKYUV_MEMORY_SEQ_CST;
     mret (Value (if r.1 : bool then 1 else 0))) (bits (c_type t) old) =
    Ret (if old =? e then Value 1 else Value 0) (bits (c_type t) (if old =? e then d else old))) as Hone.
  { intros ops L. destruct (L call old Hold) as [H1 _]; [done|]. simpl in H1.
    apply bind_Ret_inv in H1 as (r & z & Hm & R). unfold mret, M_ret in R.
    unfold mbind, M_bind. rewrite Hm. destruct (old =? e); by injection R as -> _ ->. }
  split; [|simpl; by destruct (old =? e)].
  assert (∀ m : M Z (bool * Z), (b ← (r ← m; mret r.1); mret (Value (if b : bool then 1 else 0))) (bits (c_type t) old) =
    (r ← m; mret (Value (if r.1 : bool then 1 else 0))) (bits (c_type t) old)) as Hassoc.
  { intros m. unfold mbind, M_bind, mret, M_ret. by destruct (m _). }
  assert ((atom_meaning (c_type t) (AtomCas c e d) old) =
    (if old =? e then Value 1 else Value 0, if old =? e then d else old)) as -> by (simpl; by destruct (old =? e)).
  cbn [atom_perform fst snd]. destruct c; cbn [cas]; unfold skyuv_compat_atomic_cas_i32,
    skyuv_compat_atomic_cas_ulong, skyuv_compat_atomic_cas_size, skyuv_compat_atomic_cas_uintptr;
    rewrite Hassoc; simpl in Hc; subst t; [by apply Hone..| |by apply Hone].
  apply (Hone (skyuv_atomic_size w uintptr)). by apply skyuv_atomic_size_laws.
Qed.

(** Each name is one step on a variable of its type. *)
Lemma atom_refines t : refines (c_type t) (atom_ok t) (atom_perform t) (atom_meaning (c_type t)).
Proof using Hw Hlong Li Ll Lu.
  intros c old Hold Hok. pose proof (one_in_type t) as H1.
  destruct c as [v| |v|v|v|v| | |c e d]; [..|by apply cas_ok; destruct Hok as (? & ? & ?)];
    [set (call := Cell (Init v))|set (call := Cell (Load SKYUV_MEMORY_SEQ_CST))
    |set (call := Cell (Store v SKYUV_MEMORY_SEQ_CST))|set (call := FetchAdd v SKYUV_MEMORY_SEQ_CST)
    |set (call := FetchSub v SKYUV_MEMORY_SEQ_CST)|set (call := FetchAnd v SKYUV_MEMORY_SEQ_CST)
    |set (call := FetchAdd 1 SKYUV_MEMORY_SEQ_CST)|set (call := FetchSub 1 SKYUV_MEMORY_SEQ_CST)];
    by apply (generic_laws t call old Hold).
Qed.

End atomics.

(** The atomic names of Skynet mean the same on every platform: whatever
    sequence of them is applied to an object, with values of its type, the answers
    and the final value are those of a plain variable of the C type, each name one
    step; a compare-and-swap answers 1 exactly if it found what was expected, and
    then has stored the new value. *)
Theorem atom_names_refine w long_w i32 ulong uintptr t calls old
    (Hw : 1 < w) (Hlong : 1 < long_w) (Hi : platform_ops int32_t i32)
    (Hl : platform_ops (uint_t long_w) ulong) (Hu : platform_ops (uint_t w) uintptr)
    (Hold : in_type (c_type w long_w t) old) (Hcalls : Forall (atom_ok w long_w t) calls) :
  let ty := c_type w long_w t in
  perform_all (atom_perform w i32 ulong uintptr t) calls (bits ty old) =
    Ret (meaning_all (atom_meaning ty) calls old).1 (bits ty (meaning_all (atom_meaning ty) calls old).2).
Proof.
  apply (refines_all (c_type w long_w t) (atom_ok w long_w t)); [|done|done].
  apply atom_refines; [done|done|by apply platform_laws..].
Qed.

(** A counter that wraps around. *)
Lemma atom_names_refine_witness :
  perform_all (atom_perform 64 (native int32_t) (native (uint_t 64)) (native (uint_t 64)) ATOM_INT)
    [AtomFinc; AtomCas ATOM_CAS 5 6; AtomCas ATOM_CAS (-2147483648) 7; AtomLoad] 2147483647 =
  Ret [Value 2147483647; Value 0; Value 1; Value 7] 7.
Proof.
  refine (atom_names_refine 64 64 (native int32_t) (native (uint_t 64)) (native (uint_t 64)) ATOM_INT
    [AtomFinc; AtomCas ATOM_CAS 5 6; AtomCas ATOM_CAS (-2147483648) 7; AtomLoad] 2147483647 _ _ _ _ _ _ _);
    [lia|lia|by constructor..|reflexivity|].
  repeat constructor.
Defined.
