(* ===== verification/Time.v ===== *)
(** * Clocks (src/src/platform/time.c, src/src/compat/skynet/skyuv_time.h)

    The clocks of the platform are parameters; the conversions of their readings
    to nanoseconds, and back for Skynet's [clock_gettime], are in 64 bits. *)
From S2P Require Import Prelude SocketTypes.

(** What libuv reports: the monotonic clock, the result and the reading of the
    wall clock in seconds and nanoseconds, the result and the user and system
    times of the thread in seconds and microseconds. *)
Class Clocks := {
  uv_hrtime : Z;
  uv_clock_gettime : Z * (Z * Z);
  uv_getrusage_thread : Z * ((Z * Z) * (Z * Z));
}.

Definition UINT64_MAX : Z := 18446744073709551615.
Definition NANOSECONDS_PER_SECOND : Z := 1000000000.
Definition NANOSECONDS_PER_MICROSECOND : Z := 1000.
Definition UV_ENOTSUP : Z := -95.

(** A function with an out-parameter returns its status, and what it stored. *)
Definition timeval_to_nanoseconds (time : Z * Z) : Z * option Z :=
  let '(tv_sec, tv_usec) := time in
  if (tv_sec <? 0) || (tv_usec <? 0) then (SKYUV_ERROR_SYSTEM, None)
  else
    let seconds := u64 tv_sec in
    let microseconds := u64 tv_usec in
    if UINT64_MAX / NANOSECONDS_PER_SECOND <? seconds then (SKYUV_ERROR_SYSTEM, None)
    else (SKYUV_OK, Some (u64 (u64 (seconds * NANOSECONDS_PER_SECOND) +
                               u64 (microseconds * NANOSECONDS_PER_MICROSECOND)))).

Section time.
Context `{Clocks}.

(** [out]: the caller passed a pointer that is not NULL. *)
Definition skyuv_time_monotonic (out : bool) : Z * option Z :=
  if negb out then (SKYUV_ERROR_INVALID_ARGUMENT, None)
  else (SKYUV_OK, Some uv_hrtime).

Definition skyuv_time_realtime (out : bool) : Z * option Z :=
  if negb out then (SKYUV_ERROR_INVALID_ARGUMENT, None)
  else
    let '(result, (tv_sec, tv_nsec)) := uv_clock_gettime in
    if negb (result =? 0) || (tv_sec <? 0) || (tv_nsec <? 0) || (1000000000 <=? tv_nsec)
    then (SKYUV_ERROR_SYSTEM, None)
    else if UINT64_MAX / NANOSECONDS_PER_SECOND <? u64 tv_sec then (SKYUV_ERROR_SYSTEM, None)
    else (SKYUV_OK, Some (u64 (u64 (u64 tv_sec * NANOSECONDS_PER_SECOND) + u64 tv_nsec))).

Definition skyuv_time_thread_cpu (out : bool) : Z * option Z :=
  if negb out then (SKYUV_ERROR_INVALID_ARGUMENT, None)
  else
    let '(result, (ru_utime, ru_stime)) := uv_getrusage_thread in
    if result =? UV_ENOTSUP then (SKYUV_ERROR_NOT_SUPPORTED, None)
    else if negb (result =? 0) then (SKYUV_ERROR_SYSTEM, None)
    else
      match timeval_to_nanoseconds ru_utime, timeval_to_nanoseconds ru_stime with
      | (_, Some user_ns), (_, Some system_ns) =>
          if UINT64_MAX - system_ns <? user_ns then (SKYUV_ERROR_SYSTEM, None)
          else (SKYUV_OK, Some (u64 (user_ns + system_ns)))
      | _, _ => (SKYUV_ERROR_SYSTEM, None)
      end.

Definition CLOCK_REALTIME : Z := 0.
Definition CLOCK_MONOTONIC : Z := 1.
Definition CLOCK_THREAD_CPUTIME_ID : Z := 2.

(** Skynet's [clock_gettime]: the status, and the seconds and nanoseconds. *)
Definition skyuv_compat_clock_gettime (clock_id : Z) : Z * option (Z * Z) :=
  let split '(result, time_ns) :=
    match time_ns with
    | Some ns => (0, Some (ns / 1000000000, ns mod 1000000000))
    | None => (-1, None)
    end in
  if clock_id =? CLOCK_REALTIME then split (skyuv_time_realtime true)
  else if clock_id =? CLOCK_MONOTONIC then split (skyuv_time_monotonic true)
  else if clock_id =? CLOCK_THREAD_CPUTIME_ID then split (skyuv_time_thread_cpu true)
  else (-1, None).

End time.

(** ** Conversions are exact *)

(** A reading in seconds and units of [scale] nanoseconds. *)
Definition nanoseconds (scale : Z) (time : Z * Z) : Z :=
  time.1 * NANOSECONDS_PER_SECOND + time.2 * scale.

(** What the checks admit: parts that are not negative, seconds that fit; the sum
    of both parts may still wrap. *)
Definition admitted (time : Z * Z) : Prop :=
  0 ≤ time.1 ∧ 0 ≤ time.2 ∧ time.1 * NANOSECONDS_PER_SECOND ≤ UINT64_MAX.

#[export] Instance admitted_dec time : Decision (admitted time).
Proof. apply _. Defined.

Lemma timeval_reading sec usec :
  sec ≤ INT64_MAX → usec ≤ INT64_MAX →
  timeval_to_nanoseconds (sec, usec) =
    if decide (admitted (sec, usec)) then (SKYUV_OK, Some (nanoseconds 1000 (sec, usec) mod 2 ^ 64))
    else (SKYUV_ERROR_SYSTEM, None).
Proof.
  unfold timeval_to_nanoseconds, nanoseconds, admitted, UINT64_MAX, NANOSECONDS_PER_SECOND,
    NANOSECONDS_PER_MICROSECOND, INT64_MAX; cbn [fst snd]. intros Hs Hu.
  destruct (Z.ltb_spec sec 0); [by rewrite decide_False by lia|].
  destruct (Z.ltb_spec usec 0); [by rewrite decide_False by lia|]. cbn [orb].
  unfold u64. rewrite (uwrap_small 64 sec), (uwrap_small 64 usec) by lia.
  change (18446744073709551615 / 1000000000) with 18446744073.
  destruct (Z.ltb_spec 18446744073 sec); [by rewrite decide_False by lia|].
  rewrite decide_True by lia. rewrite (uwrap_small 64 (sec * _)) by lia.
  do 2 f_equal. unfold uwrap. by rewrite Zplus_mod_idemp_r.
Qed.

(** The wall clock, on every reading libuv can report. *)
Lemma realtime_reading `{Clocks} sec nsec :
  uv_clock_gettime = (0, (sec, nsec)) → sec ≤ INT64_MAX →
  skyuv_time_realtime true =
    if decide (0 ≤ sec ≤ 18446744073 ∧ 0 ≤ nsec < NANOSECONDS_PER_SECOND)
    then (SKYUV_OK, Some (u64 (nanoseconds 1 (sec, nsec))))
    else (SKYUV_ERROR_SYSTEM, None).
Proof.
  intros E Hsec. unfold skyuv_time_realtime. rewrite E. simpl.
  unfold nanoseconds, NANOSECONDS_PER_SECOND, UINT64_MAX, INT64_MAX in *; simpl.
  destruct (Z.ltb_spec sec 0); [by rewrite decide_False by lia|].
  destruct (Z.ltb_spec nsec 0); [by rewrite decide_False by lia|].
  destruct (Z.leb_spec 1000000000 nsec); [by rewrite decide_False by lia|]. simpl.
  unfold u64. rewrite (uwrap_small 64 sec), (uwrap_small 64 nsec) by lia.
  change (18446744073709551615 / 1000000000) with 18446744073.
  destruct (Z.ltb_spec 18446744073 sec); [by rewrite decide_False by lia|].
  rewrite decide_True by lia. rewrite uwrap_add_l by lia. by rewrite Z.mul_1_r.
Qed.

Lemma wall_clock `{Clocks} rc sec nsec :
  uv_clock_gettime = (rc, (sec, nsec)) → sec ≤ INT64_MAX →
  let wall := nanoseconds 1 (sec, nsec) in
  if decide (rc = 0 ∧ admitted (sec, nsec) ∧ nsec < NANOSECONDS_PER_SECOND) then
    skyuv_time_realtime true = (SKYUV_OK, Some (wall mod 2 ^ 64)) ∧
    (wall ≤ UINT64_MAX ↔ wall mod 2 ^ 64 = wall) ∧
    (wall ≤ UINT64_MAX ↔ skyuv_compat_clock_gettime CLOCK_REALTIME = (0, Some (sec, nsec)))
  else skyuv_time_realtime true = (SKYUV_ERROR_SYSTEM, None) ∧
       skyuv_compat_clock_gettime CLOCK_REALTIME = (-1, None).
Proof.
  intros E Hsec wall.
  case_decide as Hok.
  + destruct Hok as (-> & (H1 & H2 & H3) & H4). simpl in H1, H2, H3.
    pose proof (realtime_reading sec nsec E Hsec) as R.
    unfold admitted, UINT64_MAX, NANOSECONDS_PER_SECOND in *.
    rewrite decide_True in R by lia. fold wall in R. change (u64 wall) with (wall mod 2 ^ 64) in R.
    assert (wall = sec * 1000000000 + nsec) as Hw
      by (unfold wall, nanoseconds, NANOSECONDS_PER_SECOND; simpl; lia).
    pose proof (Z.mod_pos_bound wall (2 ^ 64) ltac:(lia)).
    split_and!; [done| |].
    * split; [intros; apply Z.mod_small; lia|lia].
    * unfold skyuv_compat_clock_gettime. simpl. rewrite R. simpl. split.
      -- intros. rewrite (Z.mod_small wall) by lia. rewrite Hw. do 3 f_equal;
           Z.div_mod_to_equations; lia.
      -- intros [= Hd Hm]. pose proof (Z.div_mod (wall mod 2 ^ 64) 1000000000 ltac:(lia)). lia.
  + assert (skyuv_time_realtime true = (SKYUV_ERROR_SYSTEM, None)) as R.
    { destruct (decide (rc = 0)) as [->|Hrc].
      - rewrite (realtime_reading sec nsec E Hsec), decide_False; [done|].
        unfold admitted, UINT64_MAX, NANOSECONDS_PER_SECOND in *. simpl in *. lia.
      - unfold skyuv_time_realtime. rewrite E. by rewrite (proj2 (Z.eqb_neq rc 0)). }
    split; [done|]. unfold skyuv_compat_clock_gettime. simpl. by rewrite R.
Qed.

Lemma processor_time `{Clocks} ru user system :
  uv_getrusage_thread = (ru, (user, system)) →
  Forall (λ x, x ≤ INT64_MAX) [user.1; user.2; system.1; system.2] →
  let value := λ time, nanoseconds 1000 time mod 2 ^ 64 in
  skyuv_time_thread_cpu true =
    (if decide (ru = UV_ENOTSUP) then (SKYUV_ERROR_NOT_SUPPORTED, None)
     else if decide (ru = 0 ∧ admitted user ∧ admitted system ∧
                     value user + value system ≤ UINT64_MAX)
     then (SKYUV_OK, Some (value user + value system))
     else (SKYUV_ERROR_SYSTEM, None)).
Proof.
  intros Eu Hmax value. rewrite !Forall_cons in Hmax.
  destruct Hmax as (Hu1 & Hu2 & Hs1 & Hs2 & _).
  unfold skyuv_time_thread_cpu. rewrite Eu. cbn [negb]. destruct user as [us uu], system as [ss su].
  simpl in Hu1, Hu2, Hs1, Hs2. destruct (Z.eqb_spec ru UV_ENOTSUP); [by rewrite decide_True|].
  rewrite (decide_False (P := ru = UV_ENOTSUP)) by done.
  destruct (Z.eqb_spec ru 0); cbn [negb]; [|by rewrite decide_False by tauto].
  rewrite !timeval_reading by done.
  destruct (decide (admitted (us, uu))); [|by rewrite decide_False by tauto].
  destruct (decide (admitted (ss, su))); [|by rewrite decide_False by tauto].
  fold (value (us, uu)) (value (ss, su)).
  destruct (Z.ltb_spec (UINT64_MAX - value (ss, su)) (value (us, uu)));
    [by rewrite decide_False by lia|]. rewrite decide_True by (split_and!; try done; lia).
  do 2 f_equal. apply uwrap_small. unfold UINT64_MAX in *.
  pose proof (Z.mod_pos_bound (nanoseconds 1000 (us, uu)) (2 ^ 64) ltac:(lia)).
  pose proof (Z.mod_pos_bound (nanoseconds 1000 (ss, su)) (2 ^ 64) ltac:(lia)).
  unfold value in *. lia.
Qed.

(** C24 The clocks, for every reading the platform can give.  The wall clock is an
    error if it cannot be read, if a part of it is negative, if the nanoseconds are
    a second or more or if the seconds alone do not fit into 64 bits of
    nanoseconds; otherwise its value is the sum modulo 2^64.  So it is exact, and
    [clock_gettime] gives back the seconds and nanoseconds that were read, exactly
    if the sum fits.  A thread's processor time is an error if it cannot be read,
    if one of the two times has a negative part or seconds that do not fit, or if
    the two values do not fit together; otherwise it is their sum, exact if both
    times fit. *)
Theorem clocks_are_exact `{Clocks} rc sec nsec ru user system :
  uv_clock_gettime = (rc, (sec, nsec)) → sec ≤ INT64_MAX →
  uv_getrusage_thread = (ru, (user, system)) →
  Forall (λ x, x ≤ INT64_MAX) [user.1; user.2; system.1; system.2] →
  let wall := nanoseconds 1 (sec, nsec) in
  let value := λ time, nanoseconds 1000 time mod 2 ^ 64 in
  (if decide (rc = 0 ∧ admitted (sec, nsec) ∧ nsec < NANOSECONDS_PER_SECOND) then
     skyuv_time_realtime true = (SKYUV_OK, Some (wall mod 2 ^ 64)) ∧
     (wall ≤ UINT64_MAX ↔ wall mod 2 ^ 64 = wall) ∧
     (wall ≤ UINT64_MAX ↔ skyuv_compat_clock_gettime CLOCK_REALTIME = (0, Some (sec, nsec)))
   else skyuv_time_realtime true = (SKYUV_ERROR_SYSTEM, None) ∧
        skyuv_compat_clock_gettime CLOCK_REALTIME = (-1, None)) ∧
  skyuv_time_thread_cpu true =
    (if decide (ru = UV_ENOTSUP) then (SKYUV_ERROR_NOT_SUPPORTED, None)
     else if decide (ru = 0 ∧ admitted user ∧ admitted system ∧
                     value user + value system ≤ UINT64_MAX)
     then (SKYUV_OK, Some (value user + value system))
     else (SKYUV_ERROR_SYSTEM, None)) ∧
  (∀ time, admitted time → nanoseconds 1000 time ≤ UINT64_MAX →
     value time = nanoseconds 1000 time).
Proof.
  intros E Hsec Eu Hmax wall value. split_and!.
  - by apply wall_clock.
  - by apply processor_time.
  - intros [s u] (? & ? & ?) ?. unfold value. apply Z.mod_small.
    unfold nanoseconds, UINT64_MAX, NANOSECONDS_PER_SECOND in *. simpl in *. lia.
Qed.

(** Readings of July 2025, for the conversions. *)
Definition sample_clocks : Clocks :=
  {| uv_hrtime := 17; uv_clock_gettime := (0, (1752000000, 999999999));
     uv_getrusage_thread := (0, ((3, 250000), (0, 750001))) |}.

Lemma clocks_are_exact_witness :
  @skyuv_compat_clock_gettime sample_clocks CLOCK_REALTIME = (0, Some (1752000000, 999999999)) ∧
  @skyuv_time_thread_cpu sample_clocks true = (SKYUV_OK, Some 4000001000).
Proof.
  destruct (@clocks_are_exact sample_clocks 0 1752000000 999999999 0 (3, 250000) (0, 750001)
    eq_refl ltac:(done) eq_refl) as (H1 & H2 & _); [repeat constructor; by vm_compute|].
  rewrite decide_True in H1 by (by vm_compute). destruct H1 as (_ & _ & H1).
  split; [by apply H1|]. rewrite H2. by vm_compute.
Defined.

(** The check of the seconds alone does not exclude a wrap: within the last second
    that passes it the sum overflows, and the clock reads 0 again. *)
Lemma realtime_wraps :
  let clocks := {| uv_hrtime := 0; uv_clock_gettime := (0, (18446744073, 709551616));
                   uv_getrusage_thread := (0, ((0, 0), (0, 0))) |} in
  @skyuv_time_realtime clocks true = (SKYUV_OK, Some 0) ∧
  UINT64_MAX < nanoseconds 1 (18446744073, 709551616).
Proof. by vm_compute. Qed.
