(* ===== verification/Threads.v ===== *)
(** * Threads, locks and dynamic libraries

    src/src/platform/thread.c and dynamic.c, and the pthread names that Skynet
    uses them by (src/src/compat/skynet/start/pthread.h).  An object of the
    program holds a pointer to what libuv works on, allocated when the object is
    initialised; the model keeps the heap of these blocks, the objects, the
    threads that libuv has created and that have not run yet, and what libuv was
    called with. *)
From S2P Require Import Prelude SocketTypes.

(** ** State *)

Inductive kind := KThread | KMutex | KCond | KRwlock | KTls | KLibrary.

#[export] Instance kind_eq_dec : EqDecision kind.
Proof. solve_decision. Defined.

(** What a thread is started with: a function of the program, or
    [skyuv_compat_thread_entry] with the block it frees. *)
Inductive thread_entry := Entry (function : positive) | CompatEntry.

(** Blocks: allocated and not initialised, initialised by libuv for an object,
    and the two kinds of start records.  The object a block was allocated for, and
    the record that holds the pointer to a compat record, are recorded only. *)
Inductive block :=
| Raw
| Native (k : kind) (owner : positive)
| Start (entry : thread_entry) (argument : positive)
| CompatStart (routine argument : positive).

(** [skyuv_thread], [skyuv_mutex] and the like: the pointer; for [skyuv_tls] the
    stored key, with the flag. *)
Record object := Object {
  o_kind : kind;
  o_implementation : option positive;
  o_initialized : bool;
}.

(** Calls of libuv that the wrappers pass on. *)
Inductive uv_call :=
| UvMutexLock (p : positive)
| UvMutexTrylock (p : positive)
| UvMutexUnlock (p : positive)
| UvCondSignal (p : positive)
| UvCondBroadcast (p : positive)
| UvCondWait (p mutex : positive)
| UvCondTimedwait (p mutex : positive) (timeout_ns : Z)
| UvRwlockRdlock (p : positive)
| UvRwlockTryrdlock (p : positive)
| UvRwlockRdunlock (p : positive)
| UvRwlockWrlock (p : positive)
| UvRwlockTrywrlock (p : positive)
| UvRwlockWrunlock (p : positive)
| UvKeyGet (p : positive)
| UvKeySet (p : positive) (value : Z)
| UvDlsym (p : positive) (name : string)
| UvDlerror (p : positive).

(** The blocks that a call dereferences, and the kind each has to be of. *)
Definition call_blocks (c : uv_call) : list (kind * positive) :=
  match c with
  | UvMutexLock p | UvMutexTrylock p | UvMutexUnlock p => [(KMutex, p)]
  | UvCondSignal p | UvCondBroadcast p => [(KCond, p)]
  | UvCondWait p m | UvCondTimedwait p m _ => [(KCond, p); (KMutex, m)]
  | UvRwlockRdlock p | UvRwlockTryrdlock p | UvRwlockRdunlock p
  | UvRwlockWrlock p | UvRwlockTrywrlock p | UvRwlockWrunlock p => [(KRwlock, p)]
  | UvKeyGet p | UvKeySet p _ => [(KTls, p)]
  | UvDlsym p _ | UvDlerror p => [(KLibrary, p)]
  end.

Record process := Process {
  p_heap : gmap positive block;
  p_next : positive;
  p_time : nat;
  p_objects : gmap positive object;
  p_pending : list positive;           (** start records of threads to run *)
  p_ran : list (positive * positive);  (** functions that were called, arguments *)
  p_calls : list uv_call;
}.

Definition eta_process (p : process) : process :=
  Process (p_heap p) (p_next p) (p_time p) (p_objects p) (p_pending p) (p_ran p) (p_calls p).
#[export] Instance set_p_heap : Setter p_heap := ltac:(mk_setter eta_process).
#[export] Instance set_p_next : Setter p_next := ltac:(mk_setter eta_process).
#[export] Instance set_p_time : Setter p_time := ltac:(mk_setter eta_process).
#[export] Instance set_p_objects : Setter p_objects := ltac:(mk_setter eta_process).
#[export] Instance set_p_pending : Setter p_pending := ltac:(mk_setter eta_process).
#[export] Instance set_p_ran : Setter p_ran := ltac:(mk_setter eta_process).
#[export] Instance set_p_calls : Setter p_calls := ltac:(mk_setter eta_process).

(** Results of the allocator and of libuv, by time. *)
Class PlatformEnv := {
  malloc_succeeds : nat → bool;
  uv_result : nat → Z;
  UV_ETIMEDOUT : Z;
}.

(** ** Elementary actions *)

Section threads.
Context `{PlatformEnv}.
Local Notation T := (M process).

Definition malloc : T (option positive) := λ s,
  if malloc_succeeds (p_time s) then
    Ret (Some (p_next s))
      (s <| p_time ::= S |> <| p_heap ::= insert (p_next s) Raw |> <| p_next ::= Pos.succ |>)
  else Ret None (s <| p_time ::= S |>).

(** [free(NULL)] does nothing; a block is freed once. *)
Definition free (p : option positive) : T unit := λ s,
  match p with
  | None => Ret tt s
  | Some p =>
      match p_heap s !! p with
      | Some _ => Ret tt (s <| p_heap ::= delete p |>)
      | None => Fault UseAfterFree
      end
  end.

Definition put (p : positive) (b : block) : T unit := λ s,
  match p_heap s !! p with
  | Some _ => Ret tt (s <| p_heap ::= insert p b |>)
  | None => Fault UseAfterFree
  end.

Definition read (p : positive) : T block := λ s,
  match p_heap s !! p with
  | Some b => Ret b s
  | None => Fault UseAfterFree
  end.

(** A libuv function with a result. *)
Definition uv : T Z := λ s, Ret (uv_result (p_time s)) (s <| p_time ::= S |>).

Definition get_object (o : positive) : T object := λ s,
  match p_objects s !! o with
  | Some ob => Ret ob s
  | None => Fault UseAfterFree
  end.

Definition set_implementation (o : positive) (p : option positive) : T unit :=
  modify (λ s, s <| p_objects ::=
    alter (λ ob, Object (o_kind ob) p (o_initialized ob)) o |>).

(** libuv initialises a block for an object, or a key for thread-local data. *)
Definition native_init (k : kind) (o : positive) (p : positive) : T Z :=
  result ← uv;
  whenM (result =? 0) (put p (Native k o)) ;;
  mret result.

(** libuv is called with initialised blocks of the right kind. *)
Definition call_uv (c : uv_call) : T unit := λ s,
  if forallb (λ '(k, p), match p_heap s !! p with
                         | Some (Native k' _) => bool_decide (k = k')
                         | _ => false
                         end) (call_blocks c)
  then Ret tt (s <| p_calls ::= λ l, l ++ [c] |>)
  else Fault UseAfterFree.

(** The implementation that a wrapper without checks dereferences. *)
Definition implementation_of (o : positive) : T positive :=
  ob ← get_object o;
  match o_implementation ob with
  | Some p => mret p
  | None => throw UseAfterFree
  end.

(** ** Threads *)

(** A pointer argument is [None] for NULL. *)
Definition skyuv_thread_create (thread : option positive) (entry : option thread_entry)
    (argument : positive) : T Z :=
  match thread, entry with
  | Some thread, Some entry =>
      ob ← get_object thread;
      if bool_decide (o_implementation ob ≠ None) then mret SKYUV_ERROR_INVALID_STATE
      else
        implementation ← malloc;
        start ← malloc;
        match implementation, start with
        | Some i, Some st =>
            put st (Start entry argument) ;;
            result ← native_init KThread thread i;
            if negb (result =? 0) then
              free (Some st) ;; free (Some i) ;; mret SKYUV_ERROR_SYSTEM
            else
              modify (λ s, s <| p_pending ::= λ l, l ++ [st] |>) ;;
              set_implementation thread (Some i) ;; mret SKYUV_OK
        | _, _ => free implementation ;; free start ;; mret SKYUV_ERROR_OUT_OF_MEMORY
        end
  | _, _ => mret SKYUV_ERROR_INVALID_ARGUMENT
  end.

Definition called (function argument : positive) : T unit :=
  modify (λ s, s <| p_ran ::= λ l, l ++ [(function, argument)] |>).

Definition skyuv_compat_thread_entry (argument : positive) : T unit :=
  b ← read argument;
  match b with
  | CompatStart routine routine_argument =>
      free (Some argument) ;; called routine routine_argument
  | _ => throw UseAfterFree
  end.

(** The new thread runs; its start record leaves the list of those to run. *)
Definition thread_start (argument : positive) : T unit :=
  modify (λ s, s <| p_pending ::= filter (λ p, p ≠ argument) |>) ;;
  b ← read argument;
  match b with
  | Start entry entry_argument =>
      free (Some argument) ;;
      match entry with
      | Entry function => called function entry_argument
      | CompatEntry => skyuv_compat_thread_entry entry_argument
      end
  | _ => throw UseAfterFree
  end.

Definition skyuv_thread_join (thread : option positive) : T Z :=
  match thread with
  | None => mret SKYUV_ERROR_INVALID_ARGUMENT
  | Some thread =>
      ob ← get_object thread;
      match o_implementation ob with
      | None => mret SKYUV_ERROR_INVALID_STATE
      | Some implementation =>
          result ← uv;
          if negb (result =? 0) then mret SKYUV_ERROR_SYSTEM
          else
            free (Some implementation) ;;
            set_implementation thread None ;; mret SKYUV_OK
      end
  end.

(** ** Mutexes, condition variables, read-write locks *)

Definition skyuv_mutex_init (mutex : option positive) : T Z :=
  match mutex with
  | None => mret SKYUV_ERROR_INVALID_ARGUMENT
  | Some mutex =>
      ob ← get_object mutex;
      if bool_decide (o_implementation ob ≠ None) then mret SKYUV_ERROR_INVALID_STATE
      else
        implementation ← malloc;
        match implementation with
        | None => mret SKYUV_ERROR_OUT_OF_MEMORY
        | Some i =>
            result ← native_init KMutex mutex i;
            if negb (result =? 0) then free (Some i) ;; mret SKYUV_ERROR_SYSTEM
            else set_implementation mutex (Some i) ;; mret SKYUV_OK
        end
  end.

Definition skyuv_mutex_destroy (mutex : option positive) : T unit :=
  match mutex with
  | None => mret tt
  | Some mutex =>
      ob ← get_object mutex;
      match o_implementation ob with
      | None => mret tt
      | Some implementation =>
          put implementation Raw ;;
          free (Some implementation) ;;
          set_implementation mutex None
      end
  end.

Definition skyuv_mutex_lock (mutex : positive) : T unit :=
  p ← implementation_of mutex; call_uv (UvMutexLock p).

Definition skyuv_mutex_trylock (mutex : positive) : T bool :=
  p ← implementation_of mutex; call_uv (UvMutexTrylock p) ;;
  result ← uv; mret (result =? 0).

Definition skyuv_mutex_unlock (mutex : positive) : T unit :=
  p ← implementation_of mutex; call_uv (UvMutexUnlock p).

(** The two macros, with the type that libuv initialises as argument. *)
Definition DEFINE_PLATFORM_INIT (k : kind) (object : option positive) : T Z :=
  match object with
  | None => mret SKYUV_ERROR_INVALID_ARGUMENT
  | Some object =>
      ob ← get_object object;
      if bool_decide (o_implementation ob ≠ None) then mret SKYUV_ERROR_INVALID_STATE
      else
        implementation ← malloc;
        match implementation with
        | None => mret SKYUV_ERROR_OUT_OF_MEMORY
        | Some i =>
            result ← native_init k object i;
            if negb (result =? 0) then free (Some i) ;; mret SKYUV_ERROR_SYSTEM
            else set_implementation object (Some i) ;; mret SKYUV_OK
        end
  end.

Definition DEFINE_PLATFORM_DESTROY (k : kind) (object : option positive) : T unit :=
  match object with
  | None => mret tt
  | Some object =>
      ob ← get_object object;
      match o_implementation ob with
      | None => mret tt
      | Some implementation =>
          put implementation Raw ;;
          free (Some implementation) ;;
          set_implementation object None
      end
  end.

Definition skyuv_cond_init := DEFINE_PLATFORM_INIT KCond.
Definition skyuv_cond_destroy := DEFINE_PLATFORM_DESTROY KCond.

Definition skyuv_cond_signal (condition : positive) : T unit :=
  p ← implementation_of condition; call_uv (UvCondSignal p).

Definition skyuv_cond_broadcast (condition : positive) : T unit :=
  p ← implementation_of condition; call_uv (UvCondBroadcast p).

Definition skyuv_cond_wait (condition mutex : positive) : T unit :=
  p ← implementation_of condition; m ← implementation_of mutex; call_uv (UvCondWait p m).

Definition skyuv_cond_timedwait (condition mutex : positive) (timeout_ns : Z) : T Z :=
  p ← implementation_of condition; m ← implementation_of mutex;
  call_uv (UvCondTimedwait p m timeout_ns) ;;
  result ← uv;
  if result =? 0 then mret SKYUV_OK
  else if result =? UV_ETIMEDOUT then mret SKYUV_ERROR_TIMEOUT
  else mret SKYUV_ERROR_SYSTEM.

Definition skyuv_rwlock_init := DEFINE_PLATFORM_INIT KRwlock.
Definition skyuv_rwlock_destroy := DEFINE_PLATFORM_DESTROY KRwlock.

Definition skyuv_rwlock_rdlock (rwlock : positive) : T unit :=
  p ← implementation_of rwlock; call_uv (UvRwlockRdlock p).

Definition skyuv_rwlock_tryrdlock (rwlock : positive) : T bool :=
  p ← implementation_of rwlock; call_uv (UvRwlockTryrdlock p) ;;
  result ← uv; mret (result =? 0).

Definition skyuv_rwlock_rdunlock (rwlock : positive) : T unit :=
  p ← implementation_of rwlock; call_uv (UvRwlockRdunlock p).

Definition skyuv_rwlock_wrlock (rwlock : positive) : T unit :=
  p ← implementation_of rwlock; call_uv (UvRwlockWrlock p).

Definition skyuv_rwlock_trywrlock (rwlock : positive) : T bool :=
  p ← implementation_of rwlock; call_uv (UvRwlockTrywrlock p) ;;
  result ← uv; mret (result =? 0).

Definition skyuv_rwlock_wrunlock (rwlock : positive) : T unit :=
  p ← implementation_of rwlock; call_uv (UvRwlockWrunlock p).

(** ** Thread-local storage

    The key lies in the object itself; libuv creates it there. *)

Definition uv_key_create (tls : positive) : T Z :=
  result ← uv;
  whenM (result =? 0)
    (p ← gets p_next;
     modify (λ s, s <| p_heap ::= insert p (Native KTls tls) |> <| p_next ::= Pos.succ |>) ;;
     set_implementation tls (Some p)) ;;
  mret result.

(** The key in the storage; the initial zeros are no key that libuv creates. *)
Definition tls_implementation (tls : positive) : T positive :=
  ob ← get_object tls; mret (default 1%positive (o_implementation ob)).

Definition set_initialized (o : positive) (b : bool) : T unit :=
  modify (λ s, s <| p_objects ::=
    alter (λ ob, Object (o_kind ob) (o_implementation ob) b) o |>).

Definition skyuv_tls_init (tls : option positive) : T Z :=
  match tls with
  | None => mret SKYUV_ERROR_INVALID_ARGUMENT
  | Some tls =>
      ob ← get_object tls;
      if o_initialized ob then mret SKYUV_ERROR_INVALID_STATE
      else
        result ← uv_key_create tls;
        if negb (result =? 0) then mret SKYUV_ERROR_SYSTEM
        else set_initialized tls true ;; mret SKYUV_OK
  end.

Definition skyuv_tls_destroy (tls : option positive) : T unit :=
  match tls with
  | None => mret tt
  | Some tls =>
      ob ← get_object tls;
      if negb (o_initialized ob) then mret tt
      else
        p ← tls_implementation tls;
        free (Some p) ;;
        set_initialized tls false
  end.

Definition skyuv_tls_get (tls : positive) : T unit :=
  p ← tls_implementation tls; call_uv (UvKeyGet p).

Definition skyuv_tls_set (tls : positive) (value : Z) : T unit :=
  p ← tls_implementation tls; call_uv (UvKeySet p value).

(** ** Dynamic libraries *)

(** [uv_dlopen] fills in the block also when it fails: it holds the message. *)
Definition skyuv_dlopen (library : option positive) (path : option string) : T Z :=
  match library, path with
  | Some library, Some path =>
      ob ← get_object library;
      if bool_decide (o_implementation ob ≠ None) then mret SKYUV_ERROR_INVALID_STATE
      else
        implementation ← malloc;
        match implementation with
        | None => mret SKYUV_ERROR_OUT_OF_MEMORY
        | Some i =>
            result ← uv;
            put i (Native KLibrary library) ;;
            set_implementation library (Some i) ;;
            mret (if result =? 0 then SKYUV_OK else SKYUV_ERROR_SYSTEM)
        end
  | _, _ => mret SKYUV_ERROR_INVALID_ARGUMENT
  end.

Definition skyuv_dlsym (library : option positive) (name : option string) (symbol : bool) :
    T Z :=
  match library, name with
  | Some library, Some name =>
      if negb symbol then mret SKYUV_ERROR_INVALID_ARGUMENT
      else
        ob ← get_object library;
        match o_implementation ob with
        | None => mret SKYUV_ERROR_INVALID_STATE
        | Some p =>
            call_uv (UvDlsym p name) ;;
            result ← uv;
            mret (if result =? 0 then SKYUV_OK else SKYUV_ERROR_SYSTEM)
        end
  | _, _ => mret SKYUV_ERROR_INVALID_ARGUMENT
  end.

Definition skyuv_dlclose (library : option positive) : T unit :=
  match library with
  | None => mret tt
  | Some library =>
      ob ← get_object library;
      match o_implementation ob with
      | None => mret tt
      | Some implementation =>
          put implementation Raw ;;
          free (Some implementation) ;;
          set_implementation library None
      end
  end.

(** Whether there is a message. *)
Definition skyuv_dlerror (library : option positive) : T bool :=
  match library with
  | None => mret false
  | Some library =>
      ob ← get_object library;
      match o_implementation ob with
      | None => mret false
      | Some p => call_uv (UvDlerror p) ;; mret true
      end
  end.

(** ** The pthread names *)

(** [*object = INITIALIZER]. *)
Definition initialize_object (o : positive) : T unit :=
  modify (λ s, s <| p_objects ::= alter (λ ob, Object (o_kind ob) None false) o |>).

Definition skyuv_compat_pthread_create (thread : positive) (routine argument : positive) : T Z :=
  initialize_object thread ;;
  start ← malloc;
  match start with
  | None => mret SKYUV_ERROR_OUT_OF_MEMORY
  | Some start =>
      put start (CompatStart routine argument) ;;
      result ← skyuv_thread_create (Some thread) (Some CompatEntry) start;
      whenM (negb (result =? SKYUV_OK)) (free (Some start)) ;;
      mret result
  end.

Definition skyuv_compat_pthread_mutex_init (mutex : positive) : T Z :=
  initialize_object mutex ;; skyuv_mutex_init (Some mutex).

Definition skyuv_compat_pthread_mutex_destroy (mutex : positive) : T Z :=
  skyuv_mutex_destroy (Some mutex) ;; mret 0.

Definition skyuv_compat_pthread_cond_init (condition : positive) : T Z :=
  initialize_object condition ;; skyuv_cond_init (Some condition).

Definition skyuv_compat_pthread_cond_destroy (condition : positive) : T Z :=
  skyuv_cond_destroy (Some condition) ;; mret 0.

End threads.

(** ** The life of an object *)

(** The block that an object holds. *)
Definition held (ob : object) : option positive :=
  match o_kind ob with
  | KTls => if o_initialized ob then Some (default 1%positive (o_implementation ob)) else None
  | _ => o_implementation ob
  end.

(** Blocks and owners correspond: an initialised block belongs to the object that
    holds it, a start record to a thread that has not run, a compat record to a
    start record, and there is no other block. *)
Record Owned (s : process) : Prop := {
  owned_native p k o :
    p_heap s !! p = Some (Native k o) ↔
    ∃ ob, p_objects s !! o = Some ob ∧ o_kind ob = k ∧ held ob = Some p;
  owned_start p : (∃ e a, p_heap s !! p = Some (Start e a)) ↔ p ∈ p_pending s;
  owned_pending : NoDup (p_pending s);
  owned_compat p :
    (∃ r a, p_heap s !! p = Some (CompatStart r a)) ↔
    ∃ q, p_heap s !! q = Some (Start CompatEntry p);
  owned_compat_once p q q' :
    p_heap s !! q = Some (Start CompatEntry p) →
    p_heap s !! q' = Some (Start CompatEntry p) → q = q';
  owned_raw p : p_heap s !! p ≠ Some Raw;
  owned_next p b : p_heap s !! p = Some b → (p < p_next s)%positive;
}.
