(* ===== verification/ThreadLife.v ===== *)
(** * The life of threads, locks and libraries

    Every operation of [Threads] keeps blocks and owners in correspondence, so
    that nothing is freed twice, used after it was freed, or lost. *)
From S2P Require Import Prelude SocketTypes Threads.

Lemma alter_Some {A} (f : A → A) (m : gmap positive A) i x :
  m !! i = Some x → alter f i m = <[i := f x]> m.
Proof.
  intros Hi. apply map_eq. intros j. destruct (decide (i = j)) as [->|].
  - by rewrite lookup_alter_eq, lookup_insert_eq, Hi.
  - by rewrite lookup_alter_ne, lookup_insert_ne.
Qed.

(** ** Steps between states that are in correspondence *)

Section owned.
Context (s : process) (Hs : Owned s).

Lemma owned_fresh p : (p_next s ≤ p)%positive → p_heap s !! p = None.
Proof.
  intros Hp. destruct (p_heap s !! p) eqn:E; [|done]. apply (owned_next s Hs) in E. lia.
Qed.

(** An object changes without the block it holds. *)
Lemma Owned_same o ob ob' s' :
  p_objects s !! o = Some ob → o_kind ob' = o_kind ob → held ob' = held ob →
  p_heap s' = p_heap s → p_objects s' = <[o := ob']> (p_objects s) →
  p_pending s' = p_pending s → (p_next s ≤ p_next s')%positive → Owned s'.
Proof.
  intros Ho Hk Hh Eh Eo Ep Hn. destruct Hs as [H1 H2 H3 H4 H5 H6 H7].
  split; rewrite ?Eh, ?Ep; auto.
  - intros p k o'. rewrite H1, Eo. split; intros (ob1 & Hob1 & Hk1 & Hh1).
    + destruct (decide (o = o')) as [->|].
      * exists ob'. rewrite lookup_insert_eq. simplify_eq. by rewrite Hh.
      * exists ob1. by rewrite lookup_insert_ne.
    + destruct (decide (o = o')) as [->|].
      * rewrite lookup_insert_eq in Hob1. simplify_eq. exists ob. by rewrite <-Hh.
      * rewrite lookup_insert_ne in Hob1 by done. eauto.
  - intros p b Hb. apply H7 in Hb. lia.
Qed.

Lemma Owned_idle s' :
  p_heap s' = p_heap s → p_objects s' = p_objects s →
  p_pending s' = p_pending s → (p_next s ≤ p_next s')%positive → Owned s'.
Proof.
  intros Eh Eo Ep Hn. destruct Hs as [H1 H2 H3 H4 H5 H6 H7].
  split; rewrite ?Eh, ?Ep, ?Eo; auto. intros p b Hb. apply H7 in Hb. lia.
Qed.

(** An object takes a new block. *)
Lemma Owned_take o ob ob' p s' :
  p_objects s !! o = Some ob → held ob = None → held ob' = Some p →
  p_heap s !! p = None → (p < p_next s')%positive →
  p_heap s' = <[p := Native (o_kind ob') o]> (p_heap s) →
  p_objects s' = <[o := ob']> (p_objects s) →
  p_pending s' = p_pending s → (p_next s ≤ p_next s')%positive → Owned s'.
Proof.
  intros Ho Hh Hh' Hp Hlt Eh Eo Ep Hn. destruct Hs as [H1 H2 H3 H4 H5 H6 H7].
  assert (∀ q b, p_heap s' !! q = Some b → (∀ k o, b ≠ Native k o) → p_heap s !! q = Some b)
    as Hback.
  { intros q b. rewrite Eh. destruct (decide (p = q)) as [->|].
    - rewrite lookup_insert_eq. intros [= <-] Hb. by destruct (Hb (o_kind ob') o).
    - by rewrite lookup_insert_ne. }
  assert (∀ q b, p_heap s !! q = Some b → p_heap s' !! q = Some b) as Hfwd.
  { intros q b Hq. rewrite Eh, lookup_insert_ne by congruence. done. }
  split.
  - intros q k o'. rewrite Eh, Eo. destruct (decide (p = q)) as [->|].
    + rewrite lookup_insert_eq. split.
      * intros [= <- <-]. exists ob'. by rewrite lookup_insert_eq.
      * intros (ob1 & Hob1 & Hk1 & Hh1). destruct (decide (o = o')) as [->|].
        -- rewrite lookup_insert_eq in Hob1. by simplify_eq.
        -- rewrite lookup_insert_ne in Hob1 by done.
           assert (p_heap s !! q = Some (Native k o')) by (apply H1; eauto). congruence.
    + rewrite lookup_insert_ne by done. rewrite H1.
      destruct (decide (o = o')) as [->|].
      * rewrite lookup_insert_eq. split; intros (ob1 & Hob1 & Hk1 & Hh1); simplify_eq; congruence.
      * rewrite lookup_insert_ne by done. done.
  - intros q. rewrite Ep, <-H2. split; intros (e & a & Hq); exists e, a; [by apply Hback|auto].
  - by rewrite Ep.
  - intros q. split.
    + intros (r & a & Hq). apply Hback in Hq; [|done].
      destruct (proj1 (H4 q)) as [q' Hq']; eauto.
    + intros [q' Hq']. apply Hback in Hq'; [|done].
      destruct (proj2 (H4 q)) as (r & a & Hq''); eauto.
  - intros q q1 q2 Hq1 Hq2. apply Hback in Hq1, Hq2; [|done..]. eauto.
  - intros q Hq. apply Hback in Hq; [|done]. by eapply H6.
  - intros q b. rewrite Eh. destruct (decide (p = q)) as [->|]; [done|].
    rewrite lookup_insert_ne by done. intros Hb. apply H7 in Hb. lia.
Qed.

(** An object gives its block back. *)
Lemma Owned_give o ob ob' p s' :
  p_objects s !! o = Some ob → held ob = Some p → held ob' = None →
  p_heap s' = delete p (p_heap s) → p_objects s' = <[o := ob']> (p_objects s) →
  p_pending s' = p_pending s → (p_next s ≤ p_next s')%positive → Owned s'.
Proof.
  intros Ho Hh Hh' Eh Eo Ep Hn. destruct Hs as [H1 H2 H3 H4 H5 H6 H7].
  assert (p_heap s !! p = Some (Native (o_kind ob) o)) as Hp by (apply H1; eauto).
  assert (∀ q b, (∀ k o, b ≠ Native k o) → p_heap s' !! q = Some b ↔ p_heap s !! q = Some b)
    as Hother.
  { intros q b Hb. rewrite Eh, lookup_delete_Some. split; [by intros [_ ?]|].
    intros Hq. split; [|done]. intros ->. rewrite Hp in Hq. simplify_eq. by eapply Hb. }
  split.
  - intros q k o'. rewrite Eh, Eo, lookup_delete_Some, H1.
    destruct (decide (o = o')) as [->|].
    + rewrite lookup_insert_eq. split; [|naive_solver].
      intros [Hne (ob1 & Hob1 & _ & Hh1)]. congruence.
    + rewrite lookup_insert_ne by done. split; [by intros [_ ?]|].
      intros (ob1 & Hob1 & Hk1 & Hh1). split; [|eauto]. intros ->.
      assert (p_heap s !! q = Some (Native k o')) by (apply H1; eauto). congruence.
  - intros q. rewrite Ep, <-H2. split; intros (e & a & Hq); exists e, a; by apply Hother.
  - by rewrite Ep.
  - intros q. setoid_rewrite Hother; [apply H4|done..].
  - intros q q1 q2. rewrite !Hother by done. apply H5.
  - intros q. rewrite Hother by done. apply H6.
  - intros q b. rewrite Eh, lookup_delete_Some. intros [_ Hb]. apply H7 in Hb. lia.
Qed.

(** A start record is made for a thread to run. *)
Lemma Owned_spawn st f a s' :
  p_heap s !! st = None → (st < p_next s')%positive →
  p_heap s' = <[st := Start (Entry f) a]> (p_heap s) → p_objects s' = p_objects s →
  p_pending s' = p_pending s ++ [st] → (p_next s ≤ p_next s')%positive → Owned s'.
Proof.
  intros Hst Hlt Eh Eo Ep Hn. destruct Hs as [H1 H2 H3 H4 H5 H6 H7].
  assert (∀ q b, b ≠ Start (Entry f) a →
    p_heap s' !! q = Some b ↔ p_heap s !! q = Some b) as Hother.
  { intros q b Hb. rewrite Eh, lookup_insert_Some. naive_solver congruence. }
  split.
  - intros q k o. rewrite Hother, Eo by done. apply H1.
  - intros q. rewrite Ep, elem_of_app, list_elem_of_singleton, <-H2, Eh.
    setoid_rewrite lookup_insert_Some. naive_solver congruence.
  - rewrite Ep. apply NoDup_app. split_and!; [done| |apply NoDup_singleton].
    intros q Hq ->%list_elem_of_singleton. apply H2 in Hq as (e & x & Hq). congruence.
  - intros q. setoid_rewrite Hother; [apply H4|done..].
  - intros q q1 q2. rewrite !Hother by done. apply H5.
  - intros q. rewrite Hother by done. apply H6.
  - intros q b. rewrite Eh, lookup_insert_Some. intros [[<- _]|[_ Hb]]; [done|].
    apply H7 in Hb. lia.
Qed.

Lemma Owned_spawn_compat st c r a s' :
  p_heap s !! st = None → p_heap s !! c = None → st ≠ c →
  (st < p_next s')%positive → (c < p_next s')%positive →
  p_heap s' = <[st := Start CompatEntry c]> (<[c := CompatStart r a]> (p_heap s)) →
  p_objects s' = p_objects s → p_pending s' = p_pending s ++ [st] →
  (p_next s ≤ p_next s')%positive → Owned s'.
Proof.
  intros Hst Hc Hne Hlt Hlt' Eh Eo Ep Hn. destruct Hs as [H1 H2 H3 H4 H5 H6 H7].
  assert (∀ q b, p_heap s' !! q = Some b ↔
    (q = st ∧ b = Start CompatEntry c) ∨ (q = c ∧ b = CompatStart r a) ∨ p_heap s !! q = Some b)
    as Hother.
  { intros q b. rewrite Eh, !lookup_insert_Some. naive_solver congruence. }
  assert (∀ q, p_heap s !! q ≠ Some (Start CompatEntry c)) as Hnone.
  { intros q Hq. destruct (proj2 (H4 c)) as (r' & a' & Hq'); [eauto|congruence]. }
  split.
  - intros q k o. rewrite Hother, Eo, <-H1. naive_solver.
  - intros q. rewrite Ep, elem_of_app, list_elem_of_singleton, <-H2.
    setoid_rewrite Hother. naive_solver.
  - rewrite Ep. apply NoDup_app. split_and!; [done| |apply NoDup_singleton].
    intros q Hq ->%list_elem_of_singleton. apply H2 in Hq as (e & x & Hq). congruence.
  - intros q. setoid_rewrite Hother. specialize (H4 q). naive_solver congruence.
  - intros q q1 q2. rewrite !Hother. specialize (H5 q q1 q2). naive_solver congruence.
  - intros q. rewrite Hother. specialize (H6 q). naive_solver.
  - intros q b. rewrite Hother. intros [[-> _]|[[-> _]|Hb]]; [done..|].
    apply H7 in Hb. lia.
Qed.

(** A thread runs: its start record goes, and the compat record with it. *)
Lemma Owned_run p e a s' :
  p_heap s !! p = Some (Start e a) →
  p_heap s' = (match e with
               | Entry _ => delete p (p_heap s)
               | CompatEntry => delete a (delete p (p_heap s))
               end) →
  p_objects s' = p_objects s → p_pending s' = filter (λ q, q ≠ p) (p_pending s) →
  (p_next s ≤ p_next s')%positive → Owned s'.
Proof.
  intros Hp Eh Eo Ep Hn. destruct Hs as [H1 H2 H3 H4 H5 H6 H7].
  assert (∀ q b, p_heap s' !! q = Some b ↔
    p_heap s !! q = Some b ∧ q ≠ p ∧ (e = CompatEntry → q ≠ a)) as Hother.
  { intros q b. rewrite Eh. destruct e; rewrite ?lookup_delete_Some; naive_solver. }
  assert (e = CompatEntry → ∃ r x, p_heap s !! a = Some (CompatStart r x)) as Ha.
  { intros ->. apply H4. eauto. }
  split.
  - intros q k o. rewrite Hother, Eo, <-H1. split; [naive_solver|]. intros Hq.
    split_and!; [done|congruence|]. intros He ->. destruct (Ha He) as (? & ? & ?). congruence.
  - intros q. rewrite Ep, list_elem_of_filter, <-H2. setoid_rewrite Hother.
    split; [naive_solver|]. intros [Hne (e' & a' & Hq)]. exists e', a'. split_and!; [done..|].
    intros He ->. destruct (Ha He) as (? & ? & ?). congruence.
  - rewrite Ep. by apply NoDup_filter.
  - intros q. setoid_rewrite Hother. split.
    + intros (r & x & Hq & Hne & Hnea). destruct (proj1 (H4 q)) as [q' Hq']; [eauto|].
      exists q'. split_and!; [done| |].
      * intros ->. rewrite Hp in Hq'. simplify_eq. by apply Hnea.
      * intros He ->. destruct (Ha He) as (? & ? & ?). congruence.
    + intros (q' & Hq' & Hne & Hnea). destruct (proj2 (H4 q)) as (r & x & Hq); [eauto|].
      exists r, x. split_and!; [done|congruence|]. intros -> ->. apply Hne.
      by apply (H5 a).
  - intros q q1 q2. rewrite !Hother. intros [? _] [? _]. eauto.
  - intros q. rewrite Hother. intros [? _]. by eapply H6.
  - intros q b. rewrite Hother. intros [Hb _]. apply H7 in Hb. lia.
Qed.

End owned.

(** ** Elementary actions

    [core] is the part of the state that ownership is about; the rules step
    through a computation with the core written out. *)

Definition core (s : process) :=
  (p_heap s, p_objects s, p_pending s, p_next s).

Section rules.
Context `{PlatformEnv} (h : gmap positive block) (obs : gmap positive object)
  (pd : list positive) (n : positive).
Local Notation at_core s := (core s = (h, obs, pd, n)).

(** A new block lies above all others. *)
Lemma wp_malloc Q s :
  at_core s →
  (∀ s', at_core s' → Q None s') →
  (∀ s', core s' = (<[n := Raw]> h, obs, pd, Pos.succ n) → Q (Some n) s') →
  wp malloc Q s.
Proof.
  intros [= <- <- <- <-] H1 H2. unfold wp, malloc.
  destruct (malloc_succeeds _); [by apply H2|by apply H1].
Qed.

Lemma wp_free_block p b Q s :
  at_core s → h !! p = Some b → (∀ s', core s' = (delete p h, obs, pd, n) → Q tt s') →
  wp (free (Some p)) Q s.
Proof. intros [= <- <- <- <-] Hb HQ. unfold wp, free. rewrite Hb. by apply HQ. Qed.

Lemma wp_put p b b' Q s :
  at_core s → h !! p = Some b' → (∀ s', core s' = (<[p := b]> h, obs, pd, n) → Q tt s') →
  wp (put p b) Q s.
Proof. intros [= <- <- <- <-] Hb HQ. unfold wp, put. rewrite Hb. by apply HQ. Qed.

Lemma wp_read p b Q s : at_core s → h !! p = Some b → Q b s → wp (read p) Q s.
Proof. intros [= <- <- <- <-] Hb. unfold wp, read. by rewrite Hb. Qed.

Lemma wp_get_object o ob Q s :
  at_core s → obs !! o = Some ob → Q ob s → wp (get_object o) Q s.
Proof. intros [= <- <- <- <-] Ho. unfold wp, get_object. by rewrite Ho. Qed.

Lemma wp_uv_result Q s : at_core s → (∀ r s', at_core s' → Q r s') → wp uv Q s.
Proof. intros [= <- <- <- <-] HQ. by apply HQ. Qed.

Lemma wp_set_implementation o ob p Q s :
  at_core s → obs !! o = Some ob →
  (∀ s', core s' = (h, <[o := Object (o_kind ob) p (o_initialized ob)]> obs, pd, n) → Q tt s') →
  wp (set_implementation o p) Q s.
Proof.
  intros [= <- <- <- <-] Ho HQ. apply HQ. unfold core. simpl.
  change (p_objects (_ <| p_objects ::= ?f |>)) with (f (p_objects s)).
  by rewrite (alter_Some _ _ _ _ Ho).
Qed.

Lemma wp_native_init k o p b Q s :
  at_core s → h !! p = Some b →
  (∀ s', core s' = (<[p := Native k o]> h, obs, pd, n) → Q 0 s') →
  (∀ r s', r ≠ 0 → at_core s' → Q r s') →
  wp (native_init k o p) Q s.
Proof.
  intros Hs Hp H0 H1. apply wp_bind, wp_uv_result; [done|]. intros r s1 Hs1. apply wp_bind.
  destruct (Z.eqb_spec r 0) as [->|Hr].
  - injection Hs1 as Eh Eo Ep En. unfold whenM, wp at 1, put. rewrite Eh, Hp. apply wp_ret, H0.
    unfold core. by rewrite <-Eh, <-Eo, <-Ep, <-En.
  - by apply wp_skip, wp_ret, H1.
Qed.

End rules.

Lemma core_refl s : core s = (p_heap s, p_objects s, p_pending s, p_next s).
Proof. done. Qed.

(** Inserting and deleting a fresh block changes nothing. *)
Lemma delete_fresh (h : gmap positive block) p b : h !! p = None → delete p (<[p := b]> h) = h.
Proof. apply delete_insert_id. Qed.

(** A failed operation leaves all blocks, objects and threads as they were. *)
Definition unchanged (s s' : process) : Prop :=
  p_heap s' = p_heap s ∧ p_objects s' = p_objects s ∧ p_pending s' = p_pending s.

Lemma unchanged_core s s' h n :
  core s' = (h, p_objects s, p_pending s, n) → h = p_heap s → unchanged s s'.
Proof. intros [= ? ? ? ?] ?. unfold unchanged. by subst. Qed.

Lemma Owned_unchanged s s' h n :
  Owned s → core s' = (h, p_objects s, p_pending s, n) → h = p_heap s →
  (p_next s ≤ n)%positive → Owned s' ∧ unchanged s s'.
Proof.
  intros Hs E Eh Hn. pose proof (unchanged_core s s' h n E Eh) as (? & ? & ?).
  injection E as ? ? ? ?. split; [|done]. apply (Owned_idle s); [done..|lia].
Qed.

(** What an operation that initialises object [o] does: it succeeds and the object
    has a new block, or it fails and nothing has changed; an object that has one
    is refused. *)
Definition init_outcome (o : positive) (r : Z) (s s' : process) : Prop :=
  r = SKYUV_OK ∧ p_objects s !! o ≫= held = None ∧ is_Some (p_objects s' !! o ≫= held) ∧
    p_pending s' = p_pending s ∨
  r ≠ SKYUV_OK ∧ unchanged s s' ∧
    (is_Some (p_objects s !! o ≫= held) → r = SKYUV_ERROR_INVALID_STATE).

Section effects.
Context `{PlatformEnv}.

Lemma held_pointer ob : o_kind ob ≠ KTls → held ob = o_implementation ob.
Proof. unfold held. by destruct (o_kind ob). Qed.

Lemma init_effect k o ob s :
  Owned s → p_objects s !! o = Some ob → o_kind ob = k → k ≠ KTls →
  wp (DEFINE_PLATFORM_INIT k (Some o)) (λ r s', Owned s' ∧ init_outcome o r s s') s.
Proof.
  intros Hs Ho <- Hne. unfold DEFINE_PLATFORM_INIT, init_outcome. rewrite Ho. simpl.
  rewrite held_pointer by done.
  assert (p_heap s !! p_next s = None) as Hfresh by (apply owned_fresh; [done|lia]).
  eapply wp_bind, (wp_get_object _ _ _ _ o ob); [apply core_refl|done|].
  case_bool_decide as Himp; [by apply wp_ret; split; [|right]|].
  rewrite Himp.
  eapply wp_bind, wp_malloc; [apply core_refl| |]; intros s1 E1.
  { apply wp_ret. edestruct (Owned_unchanged s s1) as [? ?]; [done..|lia|].
    split; [done|right]. split_and!; [done..|]. by intros [? ?]. }
  eapply wp_bind, wp_native_init; [done|by rewrite lookup_insert_eq| |].
  - intros s2 E2. simpl. eapply wp_bind, wp_set_implementation; [done|done|].
    intros s3 E3. apply wp_ret. rewrite insert_insert_eq in E3. injection E3 as Eh Eo Ep En. split.
    + apply (Owned_take s Hs o ob (Object (o_kind ob) (Some (p_next s)) (o_initialized ob))
        (p_next s)); rewrite ?held_pointer by done; done || lia.
    + left. rewrite Eo, lookup_insert_eq. simpl. rewrite held_pointer by done. simpl. eauto.
  - intros r s2 Hr E2. rewrite (proj2 (Z.eqb_neq _ _) Hr). simpl.
    eapply wp_bind, wp_free_block; [done|by rewrite lookup_insert_eq|]. intros s3 E3. apply wp_ret.
    edestruct (Owned_unchanged s s3) as [? ?]; [done..|by apply delete_fresh|lia|].
    split; [done|right]. split_and!; [done..|]. by intros [? ?].
Qed.

(** Destroying an object frees the block it has. *)
Lemma destroy_effect k o ob s :
  Owned s → p_objects s !! o = Some ob → o_kind ob = k → k ≠ KTls →
  wp (DEFINE_PLATFORM_DESTROY k (Some o)) (λ _ s',
    Owned s' ∧ p_objects s' !! o ≫= held = None ∧ p_pending s' = p_pending s) s.
Proof.
  intros Hs Ho <- Hne. unfold DEFINE_PLATFORM_DESTROY.
  eapply wp_bind, (wp_get_object _ _ _ _ o ob); [apply core_refl|done|].
  destruct (o_implementation ob) as [p|] eqn:Hp.
  - assert (p_heap s !! p = Some (Native (o_kind ob) o)) as Hb.
    { apply (owned_native s Hs). exists ob. by rewrite held_pointer. }
    eapply wp_bind, wp_put; [apply core_refl|done|]. intros s1 E1.
    eapply wp_bind, wp_free_block; [done|by rewrite lookup_insert_eq|]. intros s2 E2.
    eapply wp_set_implementation; [done|done|]. intros s3 E3.
    rewrite delete_insert_eq in E3. injection E3 as Eh Eo Ep En. split_and!; [| |done].
    + apply (Owned_give s Hs o ob (Object (o_kind ob) None (o_initialized ob)) p);
        rewrite ?held_pointer by done; done || lia.
    + rewrite Eo, lookup_insert_eq. simpl. by rewrite held_pointer.
  - apply wp_ret. split_and!; [done| |done]. rewrite Ho. simpl. by rewrite held_pointer.
Qed.

(** Creating a thread: on success both blocks are in use, on failure both are
    gone. *)
Lemma create_core h obs pd n o ob e a s :
  core s = (h, obs, pd, n) → obs !! o = Some ob → o_implementation ob = None →
  (∀ p, (n ≤ p)%positive → h !! p = None) →
  wp (skyuv_thread_create (Some o) (Some e) a) (λ r s',
    (r = SKYUV_OK ∧ core s' =
       (<[n := Native KThread o]> (<[Pos.succ n := Start e a]> h),
        <[o := Object (o_kind ob) (Some n) (o_initialized ob)]> obs, pd ++ [Pos.succ n],
        Pos.succ (Pos.succ n))) ∨
    (r ≠ SKYUV_OK ∧ ∃ n', core s' = (h, obs, pd, n') ∧ (n ≤ n')%positive)) s.
Proof.
  intros E0 Ho Himp Hfresh. unfold skyuv_thread_create.
  assert (n ≠ Pos.succ n) as Hne by lia.
  eapply wp_bind, (wp_get_object _ _ _ _ o ob); [done..|]. rewrite Himp.
  rewrite bool_decide_false by (intros Hn; by apply Hn).
  eapply wp_bind, wp_malloc; [done| |]; intros s1 E1; (eapply wp_bind, wp_malloc; [done| |]);
    intros s2 E2.
  - eapply wp_bind, wp_skip, wp_bind, wp_skip, wp_ret. right. eauto with lia.
  - eapply wp_bind, wp_skip, wp_bind, wp_free_block; [done|by rewrite lookup_insert_eq|].
    intros s3 E3. rewrite delete_fresh in E3 by (apply Hfresh; lia).
    apply wp_ret. right. eauto with lia.
  - eapply wp_bind, wp_free_block; [done|by rewrite lookup_insert_eq|]. intros s3 E3.
    rewrite delete_fresh in E3 by (apply Hfresh; lia).
    eapply wp_bind, wp_skip, wp_ret. right. eauto with lia.
  - eapply wp_bind, wp_put; [done|by rewrite lookup_insert_eq|]. intros s3 E3.
    rewrite insert_insert_eq, insert_insert_ne in E3 by done.
    eapply wp_bind, wp_native_init; [done|by rewrite lookup_insert_eq| |].
    + intros s4 E4. rewrite insert_insert_eq in E4. simpl. injection E4 as Eh Eo Ep En.
      apply wp_bind, wp_modify. eapply wp_bind, wp_set_implementation; [apply core_refl| |].
      * change (p_objects (_ <| p_pending ::= _ |>)) with (p_objects s4). by rewrite Eo.
      * intros s5 E5. apply wp_ret. left. split; [done|]. rewrite E5.
        change (p_heap (s4 <| p_pending ::= _ |>)) with (p_heap s4).
        change (p_objects (s4 <| p_pending ::= _ |>)) with (p_objects s4).
        change (p_next (s4 <| p_pending ::= _ |>)) with (p_next s4).
        change (p_pending (s4 <| p_pending ::= ?f |>)) with (f (p_pending s4)).
        by rewrite Eh, Eo, Ep, En.
    + intros r s4 Hr E4. rewrite (proj2 (Z.eqb_neq _ _) Hr). simpl.
      rewrite insert_insert_ne in E4 by done.
      eapply wp_bind, wp_free_block; [done|by rewrite lookup_insert_eq|]. intros s5 E5.
      rewrite delete_fresh in E5 by (rewrite lookup_insert_ne by done; apply Hfresh; lia).
      eapply wp_bind, wp_free_block; [done|by rewrite lookup_insert_eq|]. intros s6 E6.
      rewrite delete_fresh in E6 by (apply Hfresh; lia).
      apply wp_ret. right. split; [done|]. eexists. split; [done|lia].
Qed.

(** A created thread is to run with the entry, or nothing has changed. *)
Definition create_outcome (o : positive) (r : Z) (s s' : process) : Prop :=
  (r = SKYUV_OK ∧ p_objects s !! o ≫= held = None ∧ is_Some (p_objects s' !! o ≫= held) ∧
     ∃ st, p_pending s' = p_pending s ++ [st]) ∨
  (r ≠ SKYUV_OK ∧ unchanged s s' ∧
     (is_Some (p_objects s !! o ≫= held) → r = SKYUV_ERROR_INVALID_STATE)).

Lemma create_effect o ob f a s :
  Owned s → p_objects s !! o = Some ob → o_kind ob = KThread →
  wp (skyuv_thread_create (Some o) (Some (Entry f)) a) (λ r s',
    Owned s' ∧ create_outcome o r s s') s.
Proof.
  intros Hs Ho Hk. pose proof (held_pointer ob ltac:(by rewrite Hk)) as Hheld.
  unfold create_outcome. rewrite Ho. simpl. rewrite Hheld.
  destruct (o_implementation ob) as [p|] eqn:Himp.
  { eapply wp_bind, (wp_get_object _ _ _ _ o ob); [apply core_refl|done|]. rewrite Himp.
    by apply wp_ret; split; [|right]. }
  eapply wp_mono; [eapply (create_core _ _ _ _ o ob); [apply core_refl|done|done|]|].
  { apply (owned_fresh s Hs). }
  intros r s' [[-> E]|[Hr (n' & E & Hn)]].
  - split; [|left]; injection E as Eh Eo Ep En.
    + set (mid := Process (<[Pos.succ (p_next s) := Start (Entry f) a]> (p_heap s))
        (Pos.succ (Pos.succ (p_next s))) (p_time s) (p_objects s)
        (p_pending s ++ [Pos.succ (p_next s)]) (p_ran s) (p_calls s)).
      assert (Owned mid) as Hmid.
      { apply (Owned_spawn s Hs (Pos.succ (p_next s)) f a); simpl; try (done || lia).
        apply owned_fresh; [done|lia]. }
      apply (Owned_take mid Hmid o ob (Object KThread (Some (p_next s)) (o_initialized ob))
        (p_next s)); simpl; rewrite ?Eh, ?Eo, ?Ep, ?En, ?Hk; try (done || lia).
      rewrite lookup_insert_ne by lia. apply owned_fresh; [done|lia].
    + split_and!; [done|done| |eauto]. rewrite Eo, lookup_insert_eq. simpl. rewrite Hk. eauto.
  - edestruct (Owned_unchanged s s') as [? ?]; [done..|]. split; [done|right].
    split_and!; [done..|]. by intros [? ?].
Qed.

(** [pthread_create]: the thread has been created, with three blocks, or nothing is
    left but an object that holds nothing. *)
Definition compat_outcome (o : positive) (r : Z) (s s' : process) : Prop :=
  (r = SKYUV_OK ∧ is_Some (p_objects s' !! o ≫= held) ∧
     ∃ st, p_pending s' = p_pending s ++ [st]) ∨
  (r ≠ SKYUV_OK ∧ p_heap s' = p_heap s ∧ p_pending s' = p_pending s ∧
     p_objects s' !! o ≫= held = None).

Section compat.
Context (o : positive) (ob : object) (s : process) (Hs : Owned s)
  (Ho : p_objects s !! o = Some ob) (Hk : o_kind ob = KThread) (Hnone : held ob = None).
Let obs := <[o := Object KThread None false]> (p_objects s).
Let start := Process (p_heap s) (p_next s) (p_time s) obs (p_pending s) (p_ran s) (p_calls s).

Lemma compat_start_owned : Owned start.
Proof.
  apply (Owned_same s Hs o ob (Object KThread None false)); simpl; rewrite ?Hk, ?Hnone;
    done || lia.
Qed.

Lemma compat_failed r s' n :
  r ≠ SKYUV_OK → core s' = (p_heap s, obs, p_pending s, n) → (p_next s ≤ n)%positive →
  Owned s' ∧ compat_outcome o r s s'.
Proof.
  intros Hr E Hn. injection E as Eh Eo Ep En. split.
  - apply (Owned_idle start compat_start_owned); simpl; done || lia.
  - right. split_and!; [done..|]. rewrite Eo. unfold obs. by rewrite lookup_insert_eq.
Qed.

Lemma compat_created r0 a s' :
  let n := p_next s in
  core s' = (<[Pos.succ n := Native KThread o]>
      (<[Pos.succ (Pos.succ n) := Start CompatEntry n]> (<[n := CompatStart r0 a]> (p_heap s))),
    <[o := Object KThread (Some (Pos.succ n)) false]> (p_objects s),
    p_pending s ++ [Pos.succ (Pos.succ n)], Pos.succ (Pos.succ (Pos.succ n))) →
  Owned s' ∧ compat_outcome o SKYUV_OK s s'.
Proof.
  simpl. intros [= Eh Eo Ep En]. pose proof (owned_fresh s Hs) as Hfresh.
  set (mid := Process (<[Pos.succ (Pos.succ (p_next s)) := Start CompatEntry (p_next s)]>
      (<[p_next s := CompatStart r0 a]> (p_heap s)))
    (Pos.succ (Pos.succ (Pos.succ (p_next s)))) (p_time s) obs
    (p_pending s ++ [Pos.succ (Pos.succ (p_next s))]) (p_ran s) (p_calls s)).
  assert (Owned mid) as Hmid.
  { apply (Owned_spawn_compat start compat_start_owned (Pos.succ (Pos.succ (p_next s)))
      (p_next s) r0 a); simpl; try (done || lia); apply Hfresh; lia. }
  split.
  - apply (Owned_take mid Hmid o (Object KThread None false)
      (Object KThread (Some (Pos.succ (p_next s))) false) (Pos.succ (p_next s))); simpl;
      rewrite ?Eh, ?Eo, ?Ep, ?En; unfold obs; rewrite ?lookup_insert_eq, ?insert_insert_eq;
      try (done || lia).
    rewrite !lookup_insert_ne by lia. apply Hfresh. lia.
  - left. split_and!; [done| |eauto]. rewrite Eo, lookup_insert_eq. simpl. eauto.
Qed.

Lemma compat_create_effect r0 a :
  wp (skyuv_compat_pthread_create o r0 a) (λ r s', Owned s' ∧ compat_outcome o r s s') s.
Proof.
  pose proof (owned_fresh s Hs) as Hfresh. apply wp_bind, wp_modify.
  assert (core (s <| p_objects ::= alter (λ ob, Object (o_kind ob) None false) o |>) =
    (p_heap s, obs, p_pending s, p_next s)) as E0.
  { unfold core. change (p_objects (_ <| p_objects ::= ?f |>)) with (f (p_objects s)).
    by rewrite (alter_Some _ _ _ _ Ho), Hk. }
  eapply wp_bind, wp_malloc; [exact E0| |]; intros s1 E1.
  { apply wp_ret. eapply compat_failed; [done..|lia]. }
  eapply wp_bind, wp_put; [done|by rewrite lookup_insert_eq|]. intros s2 E2.
  rewrite insert_insert_eq in E2.
  apply wp_bind. eapply wp_mono;
    [eapply (create_core _ _ _ _ o (Object KThread None false)); [exact E2| |done|]|].
  { unfold obs. by rewrite lookup_insert_eq. }
  { intros p Hp. rewrite lookup_insert_ne by lia. apply Hfresh. lia. }
  intros r s3 [[-> E3]|[Hr (n' & E3 & Hn)]]; apply wp_bind.
  - apply wp_skip, wp_ret. simpl in E3. unfold obs in E3. rewrite insert_insert_eq in E3.
    by eapply compat_created.
  - rewrite (proj2 (Z.eqb_neq _ _) Hr). simpl.
    eapply wp_free_block; [done|by rewrite lookup_insert_eq|]. intros s4 E4. apply wp_ret.
    rewrite delete_fresh in E4 by (apply Hfresh; lia). eapply compat_failed; [done..|lia].
Qed.

End compat.

(** The entry of a created thread is called once, with its argument. *)
Lemma run_effect st s :
  Owned s → st ∈ p_pending s →
  wp (thread_start st) (λ _ s',
    Owned s' ∧ st ∉ p_pending s' ∧ p_objects s' = p_objects s ∧
    ∃ f a, p_ran s' = p_ran s ++ [(f, a)] ∧
      (p_heap s !! st = Some (Start (Entry f) a) ∨
       ∃ c, p_heap s !! st = Some (Start CompatEntry c) ∧
            p_heap s !! c = Some (CompatStart f a))) s.
Proof.
  intros Hs Hst. apply (owned_start s Hs) in Hst as (e & a & Hst).
  assert (st ∉ filter (λ p, p ≠ st) (p_pending s)) as Hgone.
  { rewrite list_elem_of_filter. by intros [? _]. }
  set (s1 := s <| p_pending ::= filter (λ p, p ≠ st) |>).
  unfold thread_start. apply wp_bind, wp_modify. fold s1.
  eapply wp_bind, wp_read; [apply core_refl|done|].
  apply wp_bind. unfold wp at 1, free.
  change (p_heap s1) with (p_heap s). rewrite Hst. destruct e as [f|].
  - unfold called. apply wp_modify. split_and!; [|done|done|exists f, a; by split; [|left]].
    by apply (Owned_run s Hs st (Entry f) a).
  - destruct (proj2 (owned_compat s Hs a)) as (r & x & Ha); [eauto|].
    assert (delete st (p_heap s) !! a = Some (CompatStart r x)) as Ha'.
    { rewrite lookup_delete_ne by congruence. done. }
    eapply wp_bind, wp_read; [apply core_refl|exact Ha'|].
    apply wp_bind. unfold wp at 1, free.
    change (p_heap (s1 <| p_heap ::= delete st |>)) with (delete st (p_heap s)). rewrite Ha'.
    unfold called. apply wp_modify.
    split_and!; [|done|done|exists r, x; split; [done|right; eauto]].
    by apply (Owned_run s Hs st CompatEntry a).
Qed.

(** Joining frees the block, unless libuv refuses. *)
Lemma join_effect o ob s :
  Owned s → p_objects s !! o = Some ob → o_kind ob = KThread →
  wp (skyuv_thread_join (Some o)) (λ r s',
    Owned s' ∧ (r = SKYUV_OK ∧ is_Some (held ob) ∧ p_objects s' !! o ≫= held = None ∧
                  p_pending s' = p_pending s ∨
                r ≠ SKYUV_OK ∧ unchanged s s' ∧
                  (held ob = None → r = SKYUV_ERROR_INVALID_STATE))) s.
Proof.
  intros Hs Ho Hk. pose proof (held_pointer ob ltac:(by rewrite Hk)) as Hheld.
  unfold skyuv_thread_join. eapply wp_bind, (wp_get_object _ _ _ _ o ob); [apply core_refl|done|].
  destruct (o_implementation ob) as [p|] eqn:Hp; [|by apply wp_ret; split; [|right]].
  eapply wp_bind, wp_uv_result; [apply core_refl|]. intros r s1 E1.
  destruct (Z.eqb_spec r 0) as [->|Hr]; simpl.
  - assert (p_heap s !! p = Some (Native KThread o)) as Hb.
    { apply (owned_native s Hs). exists ob. by rewrite Hheld. }
    eapply wp_bind, wp_free_block; [done|done|]. intros s2 E2.
    eapply wp_bind, wp_set_implementation; [done|done|]. intros s3 E3. apply wp_ret.
    injection E3 as Eh Eo Ep En. split; [|left; split_and!; [done|by rewrite Hheld| |done]].
    + apply (Owned_give s Hs o ob (Object (o_kind ob) None (o_initialized ob)) p);
        rewrite ?held_pointer by (simpl; by rewrite Hk); done || lia.
    + rewrite Eo, lookup_insert_eq. simpl. rewrite held_pointer; [done|simpl; by rewrite Hk].
  - apply wp_ret. edestruct (Owned_unchanged s s1) as [? ?]; [done..|lia|].
    split; [done|right]. by rewrite Hheld.
Qed.

Lemma wp_set_initialized h obs pd n o ob b Q s :
  core s = (h, obs, pd, n) → obs !! o = Some ob →
  (∀ s', core s' = (h, <[o := Object (o_kind ob) (o_implementation ob) b]> obs, pd, n) →
     Q tt s') →
  wp (set_initialized o b) Q s.
Proof.
  intros [= <- <- <- <-] Ho HQ. apply HQ. unfold core. simpl.
  change (p_objects (_ <| p_objects ::= ?f |>)) with (f (p_objects s)).
  by rewrite (alter_Some _ _ _ _ Ho).
Qed.

Lemma tls_init_effect o ob s :
  Owned s → p_objects s !! o = Some ob → o_kind ob = KTls →
  wp (skyuv_tls_init (Some o)) (λ r s', Owned s' ∧ init_outcome o r s s') s.
Proof.
  intros Hs Ho Hk. unfold skyuv_tls_init, init_outcome. rewrite Ho. simpl.
  assert (held ob = if o_initialized ob then Some (default 1%positive (o_implementation ob))
    else None) as -> by (unfold held; by rewrite Hk).
  eapply wp_bind, (wp_get_object _ _ _ _ o ob); [apply core_refl|done|].
  destruct (o_initialized ob) eqn:Hi; [by apply wp_ret; split; [|right]|].
  unfold uv_key_create. do 2 apply wp_bind. eapply wp_uv_result; [apply core_refl|]. intros r s1 E1.
  apply wp_bind. destruct (Z.eqb_spec r 0) as [->|Hr]; simpl.
  - apply wp_bind, wp_gets, wp_bind, wp_modify. injection E1 as Eh Eo Ep En.
    eapply wp_set_implementation; [apply core_refl|by rewrite <-Eo in Ho|]. intros s2 E2.
    apply wp_ret. simpl.
    eapply wp_bind, wp_set_initialized; [exact E2|by rewrite lookup_insert_eq|]. intros s3 E3.
    apply wp_ret. simpl in E3. rewrite insert_insert_eq in E3. injection E3 as Fh Fo Fp Fn.
    rewrite Eo, Hk, En in Fo. rewrite Ep in Fp. rewrite En in Fn. rewrite Eh, En in Fh. split.
    + apply (Owned_take s Hs o ob (Object KTls (Some (p_next s)) true) (p_next s)); simpl;
        rewrite ?En; try (done || lia).
      * unfold held. by rewrite Hk, Hi.
      * apply owned_fresh; [done|lia].
    + left. rewrite Fo, lookup_insert_eq. split_and!; [done..|simpl; eauto|done].
  - apply wp_skip, wp_ret. rewrite (proj2 (Z.eqb_neq _ _) Hr). simpl. apply wp_ret.
    edestruct (Owned_unchanged s s1) as [? ?]; [done..|lia|].
    split; [done|right]. split_and!; [done..|]. by intros [? ?].
Qed.

Lemma tls_destroy_effect o ob s :
  Owned s → p_objects s !! o = Some ob → o_kind ob = KTls →
  wp (skyuv_tls_destroy (Some o)) (λ _ s',
    Owned s' ∧ p_objects s' !! o ≫= held = None ∧ p_pending s' = p_pending s) s.
Proof.
  intros Hs Ho Hk. unfold skyuv_tls_destroy.
  eapply wp_bind, (wp_get_object _ _ _ _ o ob); [apply core_refl|done|].
  destruct (o_initialized ob) eqn:Hi; simpl.
  - unfold tls_implementation. apply wp_bind.
    eapply wp_bind, (wp_get_object _ _ _ _ o ob); [apply core_refl|done|]. apply wp_ret.
    set (p := default 1%positive (o_implementation ob)).
    assert (held ob = Some p) as Hheld by (unfold held; by rewrite Hk, Hi).
    assert (p_heap s !! p = Some (Native KTls o)) as Hb by (apply (owned_native s Hs); eauto).
    eapply wp_bind, wp_free_block; [apply core_refl|done|]. intros s1 E1.
    eapply wp_set_initialized; [done|done|]. intros s2 E2. injection E2 as Eh Eo Ep En.
    rewrite Hk in Eo. split_and!; [|by rewrite Eo, lookup_insert_eq|done].
    apply (Owned_give s Hs o ob (Object KTls (o_implementation ob) false) p); done || lia.
  - apply wp_ret. split_and!; [done| |done]. rewrite Ho. simpl. unfold held. by rewrite Hk, Hi.
Qed.

(** A library keeps its block also when it could not be opened. *)
(** Opening a library that is closed gives it a block, also if it fails: the block
    has the message.  A library that is open is refused. *)
Definition dlopen_outcome (o : positive) (r : Z) (s s' : process) : Prop :=
  p_pending s' = p_pending s ∧
  (p_objects s !! o ≫= held = None ∧
     ((r = SKYUV_OK ∨ r = SKYUV_ERROR_SYSTEM) ∧ is_Some (p_objects s' !! o ≫= held) ∨
      r = SKYUV_ERROR_OUT_OF_MEMORY ∧ unchanged s s') ∨
   is_Some (p_objects s !! o ≫= held) ∧ r = SKYUV_ERROR_INVALID_STATE ∧ unchanged s s').

Lemma dlopen_effect o ob path s :
  Owned s → p_objects s !! o = Some ob → o_kind ob = KLibrary →
  wp (skyuv_dlopen (Some o) (Some path)) (λ r s', Owned s' ∧ dlopen_outcome o r s s') s.
Proof.
  intros Hs Ho Hk. pose proof (held_pointer ob ltac:(by rewrite Hk)) as Hheld.
  unfold skyuv_dlopen, dlopen_outcome. rewrite Ho. simpl. rewrite Hheld.
  eapply wp_bind, (wp_get_object _ _ _ _ o ob); [apply core_refl|done|].
  case_bool_decide as Himp.
  { apply wp_ret. split_and!; [done|done|]. right. split_and!; [|done..].
    by destruct (o_implementation ob). }
  rewrite Himp. eapply wp_bind, wp_malloc; [apply core_refl| |]; intros s1 E1.
  { apply wp_ret. edestruct (Owned_unchanged s s1) as [? [? [? ?]]]; [done..|lia|].
    split_and!; [done|done|]. left. split; [done|by right]. }
  eapply wp_bind, wp_uv_result; [done|]. intros r s2 E2.
  eapply wp_bind, wp_put; [done|by rewrite lookup_insert_eq|]. intros s3 E3.
  rewrite insert_insert_eq in E3.
  eapply wp_bind, wp_set_implementation; [done|done|]. intros s4 E4. apply wp_ret.
  injection E4 as Eh Eo Ep En. rewrite Hk in Eo.
  split_and!; [|done|left; split; [done|left; split]].
  - apply (Owned_take s Hs o ob (Object KLibrary (Some (p_next s)) (o_initialized ob))
      (p_next s)); rewrite ?Hheld; try (done || lia). apply owned_fresh; [done|lia].
  - destruct (r =? 0); auto.
  - rewrite Eo, lookup_insert_eq. simpl. eauto.
Qed.

End effects.

(** ** All operations *)

Inductive life_op :=
| ThreadCreate (thread function : option positive) (argument : positive)
| ThreadRun (start : positive)
| ThreadJoin (thread : option positive)
| MutexInit (mutex : option positive)
| MutexDestroy (mutex : option positive)
| CondInit (condition : option positive)
| CondDestroy (condition : option positive)
| RwlockInit (rwlock : option positive)
| RwlockDestroy (rwlock : option positive)
| TlsInit (tls : option positive)
| TlsDestroy (tls : option positive)
| DlOpen (library : option positive) (path : option string)
| DlClose (library : option positive)
| DlSym (library : option positive) (name : option string) (symbol : bool)
| DlError (library : option positive)
| PthreadCreate (thread routine argument : positive)
| PthreadMutexInit (mutex : positive)
| PthreadMutexDestroy (mutex : positive)
| PthreadCondInit (condition : positive)
| PthreadCondDestroy (condition : positive)
| MutexLock (mutex : positive)
| MutexTrylock (mutex : positive)
| MutexUnlock (mutex : positive)
| CondSignal (condition : positive)
| CondBroadcast (condition : positive)
| CondWait (condition mutex : positive)
| CondTimedwait (condition mutex : positive) (timeout_ns : Z)
| RwlockRdlock (rwlock : positive)
| RwlockTryrdlock (rwlock : positive)
| RwlockRdunlock (rwlock : positive)
| RwlockWrlock (rwlock : positive)
| RwlockTrywrlock (rwlock : positive)
| RwlockWrunlock (rwlock : positive)
| TlsGet (tls : positive)
| TlsSet (tls : positive) (value : Z).

Section all_operations.
Context `{PlatformEnv}.

(** The result as a number: 0 for [void], 0 or 1 for [bool]. *)
Definition unit_code (m : M process unit) : M process Z := m ;; mret 0.
Definition bool_code (m : M process bool) : M process Z := b ← m; mret (Z.b2z b).

Definition run_op (op : life_op) : M process Z :=
  match op with
  | ThreadCreate t f a => skyuv_thread_create t (Entry <$> f) a
  | ThreadRun st => unit_code (thread_start st)
  | ThreadJoin t => skyuv_thread_join t
  | MutexInit m => skyuv_mutex_init m
  | MutexDestroy m => unit_code (skyuv_mutex_destroy m)
  | CondInit c => skyuv_cond_init c
  | CondDestroy c => unit_code (skyuv_cond_destroy c)
  | RwlockInit r => skyuv_rwlock_init r
  | RwlockDestroy r => unit_code (skyuv_rwlock_destroy r)
  | TlsInit t => skyuv_tls_init t
  | TlsDestroy t => unit_code (skyuv_tls_destroy t)
  | DlOpen l p => skyuv_dlopen l p
  | DlClose l => unit_code (skyuv_dlclose l)
  | DlSym l n sym => skyuv_dlsym l n sym
  | DlError l => bool_code (skyuv_dlerror l)
  | PthreadCreate t r a => skyuv_compat_pthread_create t r a
  | PthreadMutexInit m => skyuv_compat_pthread_mutex_init m
  | PthreadMutexDestroy m => skyuv_compat_pthread_mutex_destroy m
  | PthreadCondInit c => skyuv_compat_pthread_cond_init c
  | PthreadCondDestroy c => skyuv_compat_pthread_cond_destroy c
  | MutexLock m => unit_code (skyuv_mutex_lock m)
  | MutexTrylock m => bool_code (skyuv_mutex_trylock m)
  | MutexUnlock m => unit_code (skyuv_mutex_unlock m)
  | CondSignal c => unit_code (skyuv_cond_signal c)
  | CondBroadcast c => unit_code (skyuv_cond_broadcast c)
  | CondWait c m => unit_code (skyuv_cond_wait c m)
  | CondTimedwait c m t => skyuv_cond_timedwait c m t
  | RwlockRdlock r => unit_code (skyuv_rwlock_rdlock r)
  | RwlockTryrdlock r => bool_code (skyuv_rwlock_tryrdlock r)
  | RwlockRdunlock r => unit_code (skyuv_rwlock_rdunlock r)
  | RwlockWrlock r => unit_code (skyuv_rwlock_wrlock r)
  | RwlockTrywrlock r => bool_code (skyuv_rwlock_trywrlock r)
  | RwlockWrunlock r => unit_code (skyuv_rwlock_wrunlock r)
  | TlsGet t => unit_code (skyuv_tls_get t)
  | TlsSet t v => unit_code (skyuv_tls_set t v)
  end.

(** ** When an operation may be called

    A pointer that is not NULL points to an object of the type of the parameter;
    the functions without a result for it need an initialised object, and the
    pthread initialisers overwrite one that is not in use. *)

Definition is_kind (s : process) (k : kind) (o : positive) : Prop :=
  ∃ ob, p_objects s !! o = Some ob ∧ o_kind ob = k.
Definition is_held (s : process) (k : kind) (o : positive) : Prop :=
  ∃ ob p, p_objects s !! o = Some ob ∧ o_kind ob = k ∧ held ob = Some p.
Definition is_free (s : process) (k : kind) (o : positive) : Prop :=
  ∃ ob, p_objects s !! o = Some ob ∧ o_kind ob = k ∧ held ob = None.
Definition or_null (P : positive → Prop) (o : option positive) : Prop :=
  match o with Some o => P o | None => True end.

Definition op_ok (s : process) (op : life_op) : Prop :=
  match op with
  | ThreadCreate t _ _ | ThreadJoin t => or_null (is_kind s KThread) t
  | ThreadRun st => st ∈ p_pending s
  | MutexInit m | MutexDestroy m => or_null (is_kind s KMutex) m
  | CondInit c | CondDestroy c => or_null (is_kind s KCond) c
  | RwlockInit r | RwlockDestroy r => or_null (is_kind s KRwlock) r
  | TlsInit t | TlsDestroy t => or_null (is_kind s KTls) t
  | DlOpen l _ | DlClose l | DlSym l _ _ | DlError l => or_null (is_kind s KLibrary) l
  | PthreadCreate t _ _ => is_free s KThread t
  | PthreadMutexInit m => is_free s KMutex m
  | PthreadMutexDestroy m => is_kind s KMutex m
  | PthreadCondInit c => is_free s KCond c
  | PthreadCondDestroy c => is_kind s KCond c
  | MutexLock m | MutexTrylock m | MutexUnlock m => is_held s KMutex m
  | CondSignal c | CondBroadcast c => is_held s KCond c
  | CondWait c m | CondTimedwait c m _ => is_held s KCond c ∧ is_held s KMutex m
  | RwlockRdlock r | RwlockTryrdlock r | RwlockRdunlock r | RwlockWrlock r
  | RwlockTrywrlock r | RwlockWrunlock r => is_held s KRwlock r
  | TlsGet t | TlsSet t _ => is_held s KTls t
  end.

(** ** Passing calls on *)

Lemma wp_implementation_of k o s Q :
  Owned s → is_held s k o → k ≠ KTls →
  (∀ p, p_heap s !! p = Some (Native k o) → Q p s) → wp (implementation_of o) Q s.
Proof.
  intros Hs (ob & p & Ho & <- & Hp) Hne HQ. unfold implementation_of.
  eapply wp_bind, (wp_get_object _ _ _ _ o ob); [apply core_refl|done|].
  assert (p_heap s !! p = Some (Native (o_kind ob) o)) by (apply (owned_native s Hs); eauto).
  rewrite held_pointer in Hp by done. rewrite Hp. by apply wp_ret, HQ.
Qed.

Lemma wp_tls_implementation o s Q :
  Owned s → is_held s KTls o →
  (∀ p, p_heap s !! p = Some (Native KTls o) → Q p s) → wp (tls_implementation o) Q s.
Proof.
  intros Hs (ob & p & Ho & Hk & Hp) HQ. unfold tls_implementation.
  eapply wp_bind, (wp_get_object _ _ _ _ o ob); [apply core_refl|done|]. apply wp_ret, HQ.
  apply (owned_native s Hs). exists ob. split_and!; [done..|].
  unfold held in *. rewrite Hk in *. by destruct (o_initialized ob).
Qed.

(** A call that finds its blocks initialised reaches libuv and changes nothing of
    ownership. *)
Lemma wp_call_uv c Q s :
  Owned s → Forall (λ '(k, p), ∃ o, p_heap s !! p = Some (Native k o)) (call_blocks c) →
  (∀ s', Owned s' → core s' = core s → Q tt s') → wp (call_uv c) Q s.
Proof.
  intros Hs Hblocks HQ. unfold wp, call_uv.
  assert (forallb (λ '(k, p), match p_heap s !! p with
    | Some (Native k' _) => bool_decide (k = k') | _ => false end) (call_blocks c) = true) as ->.
  { apply forallb_forall. intros [k p] Hin%list_elem_of_In. rewrite Forall_forall in Hblocks.
    destruct (Hblocks _ Hin) as [o ->]. by apply bool_decide_eq_true. }
  apply HQ; [by apply (Owned_idle s Hs)|done].
Qed.

Lemma wp_uv_core Q s :
  Owned s → (∀ r s', Owned s' → core s' = core s → Q r s') → wp uv Q s.
Proof. intros Hs HQ. apply HQ; [by apply (Owned_idle s Hs)|done]. Qed.

(** ** What each operation does *)

Definition no_block (o : positive) (s' : process) : Prop := p_objects s' !! o ≫= held = None.

Definition op_outcome (op : life_op) (r : Z) (s s' : process) : Prop :=
  match op with
  | ThreadCreate (Some t) (Some _) _ => create_outcome t r s s'
  | ThreadRun st => st ∉ p_pending s' ∧ p_objects s' = p_objects s ∧
      ∃ f a, p_ran s' = p_ran s ++ [(f, a)] ∧
        (p_heap s !! st = Some (Start (Entry f) a) ∨
         ∃ c, p_heap s !! st = Some (Start CompatEntry c) ∧
              p_heap s !! c = Some (CompatStart f a))
  | ThreadJoin (Some t) =>
      r = SKYUV_OK ∧ no_block t s' ∧ p_pending s' = p_pending s ∨
      r ≠ SKYUV_OK ∧ unchanged s s' ∧ (no_block t s → r = SKYUV_ERROR_INVALID_STATE)
  | MutexInit (Some o) | CondInit (Some o) | RwlockInit (Some o) | TlsInit (Some o) =>
      init_outcome o r s s'
  | PthreadMutexInit o | PthreadCondInit o =>
      (r = SKYUV_OK ∧ is_Some (p_objects s' !! o ≫= held) ∨
       r ≠ SKYUV_OK ∧ p_heap s' = p_heap s ∧ no_block o s') ∧ p_pending s' = p_pending s
  | MutexDestroy (Some o) | CondDestroy (Some o) | RwlockDestroy (Some o) | TlsDestroy (Some o)
  | DlClose (Some o) | PthreadMutexDestroy o | PthreadCondDestroy o =>
      no_block o s' ∧ p_pending s' = p_pending s
  | DlOpen (Some o) (Some _) => dlopen_outcome o r s s'
  | PthreadCreate t _ _ => compat_outcome t r s s'
  | ThreadCreate _ _ _ | ThreadJoin None | MutexInit None | CondInit None | RwlockInit None
  | TlsInit None | DlOpen _ _ | DlSym None _ _ =>
      r = SKYUV_ERROR_INVALID_ARGUMENT ∧ unchanged s s'
  | _ => unchanged s s'
  end.

Lemma unchanged_refl s : unchanged s s.
Proof. done. Qed.

Lemma core_unchanged s s' : core s' = core s → unchanged s s'.
Proof. intros [= ? ? ? ?]. done. Qed.

(** The wrappers that only pass a call on. *)
Ltac pass_on :=
  repeat lazymatch goal with
  | |- wp (mbind _ _) _ _ => apply wp_bind
  | |- wp (implementation_of _) _ _ =>
      eapply wp_implementation_of; [done|done|done|]; intros ? ?
  | |- wp (tls_implementation _) _ _ => eapply wp_tls_implementation; [done|done|]; intros ? ?
  | |- wp (call_uv _) _ _ =>
      apply wp_call_uv; [done|repeat constructor; eauto|]; intros ? ? ?
  | |- wp uv _ _ => apply wp_uv_core; [done|]; intros ? ? ? ?
  | |- wp (mret _) _ _ => apply wp_ret
  | |- wp (if ?b then _ else _) _ _ => destruct b
  end.

Lemma use_effect op s :
  Owned s → op_ok s op →
  match op with
  | MutexLock _ | MutexTrylock _ | MutexUnlock _ | CondSignal _ | CondBroadcast _ | CondWait _ _
  | CondTimedwait _ _ _ | RwlockRdlock _ | RwlockTryrdlock _ | RwlockRdunlock _
  | RwlockWrlock _ | RwlockTrywrlock _ | RwlockWrunlock _ | TlsGet _ | TlsSet _ _ => True
  | _ => False
  end → wp (run_op op) (λ _ s', Owned s' ∧ unchanged s s') s.
Proof.
  intros Hs Hok Hop. destruct op; try done; simpl in Hok; destruct_and?; simpl;
    unfold unit_code, bool_code, skyuv_mutex_lock, skyuv_mutex_trylock, skyuv_mutex_unlock,
      skyuv_cond_signal, skyuv_cond_broadcast, skyuv_cond_wait, skyuv_cond_timedwait,
      skyuv_rwlock_rdlock, skyuv_rwlock_tryrdlock, skyuv_rwlock_rdunlock, skyuv_rwlock_wrlock,
      skyuv_rwlock_trywrlock, skyuv_rwlock_wrunlock, skyuv_tls_get, skyuv_tls_set;
    pass_on; (split; [done|apply core_unchanged; congruence]).
Qed.

(** A destroying function, with its result dropped. *)
Lemma destroyed k o s :
  Owned s → is_kind s k o → k ≠ KTls →
  wp (DEFINE_PLATFORM_DESTROY k (Some o)) (λ _ s',
    Owned s' ∧ no_block o s' ∧ p_pending s' = p_pending s) s.
Proof. intros Hs (ob & Ho & Hk) Hne. by apply (destroy_effect k o ob). Qed.

Lemma initialised k o s :
  Owned s → is_kind s k o → k ≠ KTls →
  wp (DEFINE_PLATFORM_INIT k (Some o)) (λ r s', Owned s' ∧ init_outcome o r s s') s.
Proof. intros Hs (ob & Ho & Hk) Hne. by apply (init_effect k o ob). Qed.

(** The pthread initialisers start from an object that holds nothing. *)
Lemma pthread_initialised k o s :
  Owned s → is_free s k o → k ≠ KTls →
  wp (initialize_object o ;; DEFINE_PLATFORM_INIT k (Some o)) (λ r s',
    Owned s' ∧
    (r = SKYUV_OK ∧ is_Some (p_objects s' !! o ≫= held) ∨
     r ≠ SKYUV_OK ∧ p_heap s' = p_heap s ∧ no_block o s') ∧ p_pending s' = p_pending s) s.
Proof.
  intros Hs (ob & Ho & Hk & Hnone) Hne. apply wp_bind, wp_modify.
  set (s1 := s <| p_objects ::= alter (λ ob, Object (o_kind ob) None false) o |>).
  assert (p_objects s1 = <[o := Object k None false]> (p_objects s)) as E1.
  { change (p_objects s1) with (alter (λ ob, Object (o_kind ob) None false) o (p_objects s)).
    by rewrite (alter_Some _ _ _ _ Ho), Hk. }
  assert (p_objects s1 !! o = Some (Object k None false)) as Ho1 by by rewrite E1, lookup_insert_eq.
  assert (Owned s1) as Hs1.
  { apply (Owned_same s Hs o ob (Object k None false)); try done.
    rewrite Hnone. by destruct k. }
  eapply wp_mono; [by eapply (init_effect k o _ s1 Hs1 Ho1)|].
  intros r s' [Hs' [(-> & _ & Hheld & Hpd)|(Hr & (Eh & Eo & Ep) & _)]]; split; auto.
  split; [right|done]. split_and!; [done..|]. unfold no_block. rewrite Eo, Ho1. by destruct k.
Qed.

(** Lifts the effect of a function to the operation that drops its result. *)
Lemma wp_unit_code (m : M process unit) (Q : Z → process → Prop) s :
  wp m (λ _, Q 0) s → wp (unit_code m) Q s.
Proof. intros Hm. apply wp_bind. eapply wp_mono; [exact Hm|]. intros [] s'. apply wp_ret. Qed.

Lemma library_effect op s :
  Owned s → op_ok s op →
  match op with DlSym _ _ _ | DlError _ => True | _ => False end →
  wp (run_op op) (λ r s', Owned s' ∧ op_outcome op r s s') s.
Proof.
  intros Hs Hok Hop. destruct op as [| | | | | | | | | | | | |l name sym|l| | | | | | | | | | | | | | | | | | | |];
    try done; simpl in Hok |- *; (destruct l as [l|]; [|by apply wp_ret]).
  - destruct name as [name|]; [|by apply wp_ret]. unfold skyuv_dlsym.
    destruct sym; simpl; [|by apply wp_ret]. destruct Hok as (ob & Ho & Hk).
    eapply wp_bind, (wp_get_object _ _ _ _ l ob); [apply core_refl|done|].
    destruct (o_implementation ob) as [p|] eqn:Hp; [|by apply wp_ret].
    assert (p_heap s !! p = Some (Native KLibrary l)).
    { apply (owned_native s Hs). exists ob. by rewrite held_pointer by by rewrite Hk. }
    pass_on; (split; [done|apply core_unchanged; congruence]).
  - destruct Hok as (ob & Ho & Hk). unfold bool_code, skyuv_dlerror. apply wp_bind.
    eapply wp_bind, (wp_get_object _ _ _ _ l ob); [apply core_refl|done|].
    destruct (o_implementation ob) as [p|] eqn:Hp; [|by apply wp_ret, wp_ret].
    assert (p_heap s !! p = Some (Native KLibrary l)).
    { apply (owned_native s Hs). exists ob. by rewrite held_pointer by by rewrite Hk. }
    pass_on; (split; [done|apply core_unchanged; congruence]).
Qed.

Lemma op_effect op s :
  Owned s → op_ok s op → wp (run_op op) (λ r s', Owned s' ∧ op_outcome op r s s') s.
Proof.
  intros Hs Hok. pose proof Hok as Hok'.
  destruct op as [t f a|st|t|o|o|o|o|o|o|o|o|o path|o|o name sym|o|t f a|o|o|o|o| | | | | | | | | | | | | | |];
    try (by apply library_effect); try (by eapply use_effect); simpl in Hok;
    try (apply wp_unit_code); simpl.
  - destruct t as [t|], f as [f|]; try (by apply wp_ret). destruct Hok as (ob & Ho & Hk).
    by apply (create_effect t ob).
  - by apply run_effect.
  - destruct t as [t|]; [|by apply wp_ret]. destruct Hok as (ob & Ho & Hk).
    eapply wp_mono; [by apply (join_effect t ob)|].
    intros r s' [Hs' [(-> & _ & Hb & Hp)|(Hr & Hu & Hst)]]; split; auto. right.
    split_and!; [done..|]. unfold no_block. rewrite Ho. apply Hst.
  - destruct o as [o|]; [|by apply wp_ret]. by apply (initialised KMutex).
  - destruct o as [o|]; [|by apply wp_ret]. by apply (destroyed KMutex).
  - destruct o as [o|]; [|by apply wp_ret]. by apply (initialised KCond).
  - destruct o as [o|]; [|by apply wp_ret]. by apply (destroyed KCond).
  - destruct o as [o|]; [|by apply wp_ret]. by apply (initialised KRwlock).
  - destruct o as [o|]; [|by apply wp_ret]. by apply (destroyed KRwlock).
  - destruct o as [o|]; [|by apply wp_ret]. destruct Hok as (ob & Ho & Hk).
    by apply (tls_init_effect o ob).
  - destruct o as [o|]; [|by apply wp_ret]. destruct Hok as (ob & Ho & Hk).
    by apply (tls_destroy_effect o ob).
  - destruct o as [o|], path as [path|]; try (by apply wp_ret). destruct Hok as (ob & Ho & Hk).
    by apply (dlopen_effect o ob).
  - destruct o as [o|]; [|by apply wp_ret]. by apply (destroyed KLibrary).
  - destruct Hok as (ob & Ho & Hk & Hn). by apply (compat_create_effect t ob).
  - by apply (pthread_initialised KMutex).
  - by apply (destroyed KMutex).
  - by apply (pthread_initialised KCond).
  - by apply (destroyed KCond).
Qed.

End all_operations.

(** ** Runs *)

(** The state of a program that has declared objects, with the initialisers of
    the headers, and has used none. *)
Definition declared (objects : gmap positive object) : process :=
  Process ∅ 2 0 objects [] [] [].

Inductive life_reachable `{PlatformEnv} (objects : gmap positive object) : process → Prop :=
| LifeStart : life_reachable objects (declared objects)
| LifeStep s op r s' :
    life_reachable objects s → op_ok s op → run_op op s = Ret r s' → life_reachable objects s'.

Lemma declared_owned objects :
  map_Forall (λ _ ob, held ob = None) objects → Owned (declared objects).
Proof.
  intros Hnone. split; simpl; try done.
  - intros p k o. rewrite lookup_empty. split; [done|]. intros (ob & Ho & _ & Hp).
    apply Hnone in Ho. congruence.
  - intros p. split; [|by intros ?%not_elem_of_nil]. intros (e & a & Hp). by rewrite lookup_empty in Hp.
  - constructor.
  - intros p. split; [intros (r & a & Hp)|intros [q Hp]]; by rewrite lookup_empty in Hp.
Qed.

Lemma life_owned `{PlatformEnv} objects s :
  map_Forall (λ _ ob, held ob = None) objects → life_reachable objects s → Owned s.
Proof.
  intros Hnone. induction 1 as [|s op r s' _ IH Hok E]; [by apply declared_owned|].
  pose proof (op_effect op s IH Hok) as Hwp. unfold wp in Hwp. rewrite E in Hwp. apply Hwp.
Qed.

(** When no object is in use and every thread has run, no memory is left. *)
Lemma nothing_left s :
  Owned s → map_Forall (λ _ ob, held ob = None) (p_objects s) → p_pending s = [] → p_heap s = ∅.
Proof.
  intros Hs Hfree Hpd. apply map_empty. intros p. destruct (p_heap s !! p) as [b|] eqn:Hp; [|done].
  assert (∀ q e a, p_heap s !! q ≠ Some (Start e a)) as Hstart.
  { intros q e a Hq. assert (q ∈ p_pending s) as Hin by (apply (owned_start s Hs); eauto).
    rewrite Hpd in Hin. by apply not_elem_of_nil in Hin. }
  destruct b as [|k o|e a|r a].
  - by apply (owned_raw s Hs) in Hp.
  - apply (owned_native s Hs) in Hp as (ob & Ho & _ & Hh). apply Hfree in Ho. congruence.
  - by apply Hstart in Hp.
  - destruct (proj1 (owned_compat s Hs p)) as [q Hq]; [eauto|]. by apply Hstart in Hq.
Qed.

(** A mutex, and a thread that Skynet creates. *)
Definition sample_objects : gmap positive object :=
  {[ 1%positive := Object KMutex None false; 2%positive := Object KThread None false ]}.

Definition sample_platform : PlatformEnv :=
  {| malloc_succeeds := λ _, true; uv_result := λ t, if (t =? 9)%nat then -12 else 0;
     UV_ETIMEDOUT := -110 |}.

Definition after_ops (ops : list life_op) : process :=
  default (declared sample_objects)
    (exec (@forM process life_op ops (λ op, @run_op sample_platform op ;; mret tt))
       (declared sample_objects)).

Definition sample_state : process :=
  after_ops [MutexInit (Some 1%positive); MutexLock 1; PthreadCreate 2 7 8].

Lemma sample_reachable : @life_reachable sample_platform sample_objects sample_state.
Proof.
  refine (LifeStep _ (after_ops [MutexInit (Some 1%positive); MutexLock 1])
    (PthreadCreate 2 7 8) 0 _ _ _ _).
  2: by exists (Object KThread None false). 2: by vm_compute.
  refine (LifeStep _ (after_ops [MutexInit (Some 1%positive)]) (MutexLock 1) 0 _ _ _ _).
  2: by exists (Object KMutex (Some 2%positive) false), 2%positive. 2: by vm_compute.
  refine (LifeStep _ _ (MutexInit (Some 1%positive)) 0 _ (LifeStart _) _ _); [|by vm_compute].
  by exists (Object KMutex None false).
Qed.
