(* ===== verification/PthreadNames.v ===== *)
(** * The pthread names that Skynet uses

    src/src/compat/skynet/start/pthread.h and tls/pthread.h.  pthread_t and
    pthread_key_t are passed by value: the functions work on a copy of the object,
    and what they store in it is lost.  A joined thread, or a deleted key, leaves
    the caller's object as it was, which the program may only create again; that
    is proved to be the same as passing a pointer. *)
From S2P Require Import Prelude SocketTypes Threads ThreadLife.

Section names.
Context `{PlatformEnv}.
Local Notation T := (M process).

(** A parameter that is an object: [m] gets a copy of its own. *)
Definition by_value {A} (o : positive) (m : positive → T A) : T A :=
  ob ← get_object o;
  copy ← gets (λ s, fresh (dom (p_objects s)));
  modify (λ s, s <| p_objects ::= insert copy ob |>) ;;
  a ← m copy;
  modify (λ s, s <| p_objects ::= delete copy |>) ;;
  mret a.

Definition skyuv_compat_pthread_join (thread : positive) : T Z :=
  by_value thread (λ thread, skyuv_thread_join (Some thread)).

Definition skyuv_compat_pthread_mutex_lock (mutex : positive) : T Z :=
  skyuv_mutex_lock mutex ;; mret 0.

Definition skyuv_compat_pthread_mutex_unlock (mutex : positive) : T Z :=
  skyuv_mutex_unlock mutex ;; mret 0.

Definition skyuv_compat_pthread_cond_signal (condition : positive) : T Z :=
  skyuv_cond_signal condition ;; mret 0.

Definition skyuv_compat_pthread_cond_broadcast (condition : positive) : T Z :=
  skyuv_cond_broadcast condition ;; mret 0.

Definition skyuv_compat_pthread_cond_wait (condition mutex : positive) : T Z :=
  skyuv_cond_wait condition mutex ;; mret 0.

Definition skyuv_compat_pthread_key_create (key : positive) (destructor : bool) : T Z :=
  if destructor then mret SKYUV_ERROR_INVALID_ARGUMENT
  else initialize_object key ;; skyuv_tls_init (Some key).

Definition skyuv_compat_pthread_key_delete (key : positive) : T Z :=
  by_value key (λ key, skyuv_tls_destroy (Some key) ;; mret 0).

(** The value itself is libuv's. *)
Definition skyuv_compat_pthread_getspecific (key : positive) : T unit :=
  by_value key skyuv_tls_get.

Definition skyuv_compat_pthread_setspecific (key : positive) (value : Z) : T Z :=
  by_value key (λ key, skyuv_tls_set key value ;; mret 0).

(** ** By value and by reference *)

(** [m] run on a copy of the object of [s]. *)
Definition forgets {A} (s : process) (r : outcome process A) : outcome process A :=
  match r with
  | Ret a s' => Ret a (s' <| p_objects := p_objects s |>)
  | Fault f => Fault f
  end.

Lemma copy_objects (obs : gmap positive object) ob :
  let c := fresh (dom obs) in
  <[c := ob]> obs !! c = Some ob ∧ delete c (<[c := ob]> obs) = obs ∧
  ∀ f, delete c (alter f c (<[c := ob]> obs)) = obs.
Proof.
  intros c. assert (obs !! c = None) as Hc by (apply not_elem_of_dom, is_fresh).
  split_and!; [by rewrite lookup_insert_eq|by apply delete_insert_id|]. intros f.
  by rewrite alter_insert_eq, delete_insert_id.
Qed.

(** Steps through both computations, with the state written out. *)
Ltac run_copy s ob :=
  destruct s as [h n t obs pd rn cs]; simpl in *;
  destruct (copy_objects obs ob) as (Hcopy & Hsame & Hgone);
  unfold by_value, tls_implementation, set_initialized, mbind, M_bind, get_object, gets, modify, mret, M_ret,
    forgets; simpl.
Ltac run_more :=
  cbv [upd_field set_p_objects set_p_heap set_p_time set_p_calls]; simpl;
  repeat case_match; simplify_eq/=; try congruence.

Lemma join_by_value o ob s :
  p_objects s !! o = Some ob →
  skyuv_compat_pthread_join o s = forgets s (skyuv_thread_join (Some o) s).
Proof.
  intros Ho. unfold skyuv_compat_pthread_join, skyuv_thread_join. run_copy s ob. rewrite Ho. simpl. rewrite Hcopy. simpl.
  run_more.
Qed.

Lemma key_delete_by_value o ob s :
  p_objects s !! o = Some ob →
  skyuv_compat_pthread_key_delete o s = forgets s ((skyuv_tls_destroy (Some o) ;; mret 0) s).
Proof.
  intros Ho. unfold skyuv_compat_pthread_key_delete, skyuv_tls_destroy. run_copy s ob. rewrite Ho. simpl.
  rewrite Hcopy. simpl. destruct (o_initialized ob); simpl.
  - rewrite Ho. simpl. rewrite Hcopy. cbv [upd_field set_p_objects set_p_heap]. simpl.
    destruct (h !! default 1%positive (o_implementation ob)); simpl; [|done]. by rewrite Hgone.
  - cbv [upd_field set_p_objects]. simpl. by rewrite Hsame.
Qed.

(** Reading and writing a key leaves the object alone. *)
Lemma getspecific_by_value o ob s :
  p_objects s !! o = Some ob → skyuv_compat_pthread_getspecific o s = skyuv_tls_get o s.
Proof.
  intros Ho. unfold skyuv_compat_pthread_getspecific, skyuv_tls_get. run_copy s ob.
  rewrite Ho. simpl. rewrite Hcopy. unfold call_uv. simpl.
  destruct (h !! _) as [[]|]; try done. case_bool_decide; [|done]. simpl.
  cbv [upd_field set_p_objects set_p_calls]. simpl. by rewrite Hsame.
Qed.

Lemma setspecific_by_value o ob v s :
  p_objects s !! o = Some ob → skyuv_compat_pthread_setspecific o v s = (skyuv_tls_set o v ;; mret 0) s.
Proof.
  intros Ho. unfold skyuv_compat_pthread_setspecific, skyuv_tls_set. run_copy s ob.
  rewrite Ho. simpl. rewrite Hcopy. unfold call_uv. simpl.
  destruct (h !! _) as [[]|]; try done. case_bool_decide; [|done]. simpl.
  cbv [upd_field set_p_objects set_p_calls]. simpl. by rewrite Hsame.
Qed.

(** ** Once more *)

Definition cleared (o : positive) (s : process) : process :=
  s <| p_objects ::= alter (λ ob, Object (o_kind ob) None false) o |>.

(** Clearing the object does away with what was stored in it. *)
Lemma alter_cleared (f : object → object) o (obs : gmap positive object) :
  (∀ ob, o_kind (f ob) = o_kind ob) →
  alter (λ ob, Object (o_kind ob) None false) o (alter f o obs) =
  alter (λ ob, Object (o_kind ob) None false) o obs.
Proof.
  intros Hf. apply map_eq. intros i. destruct (decide (i = o)) as [->|].
  - rewrite !lookup_alter_eq. destruct (obs !! o) as [ob|]; simpl; [|done]. by rewrite Hf.
  - by rewrite !lookup_alter_ne.
Qed.

Lemma join_cleared o r s s' :
  skyuv_thread_join (Some o) s = Ret r s' →
  cleared o (s' <| p_objects := p_objects s |>) = cleared o s' ∧
  (r ≠ SKYUV_OK → s' <| p_objects := p_objects s |> = s').
Proof.
  unfold skyuv_thread_join, set_implementation. destruct s as [h n t obs pd rn cs].
  unfold mbind, M_bind, get_object, modify, mret, M_ret, cleared. simpl.
  destruct (obs !! o) as [ob|]; simpl; [|done].
  destruct (o_implementation ob) as [p|]; [|by intros [= <- <-]].
  simpl. destruct (negb _); [by intros [= <- <-]|]. simpl.
  destruct (h !! p); [|done]. intros [= <- <-]. split; [|done].
  cbv [upd_field set_p_objects set_p_heap set_p_time]. simpl. by rewrite alter_cleared.
Qed.

Lemma tls_destroy_cleared o r s s' :
  (skyuv_tls_destroy (Some o) ;; mret 0) s = Ret r s' →
  cleared o (s' <| p_objects := p_objects s |>) = cleared o s'.
Proof.
  unfold skyuv_tls_destroy, tls_implementation, set_initialized. destruct s as [h n t obs pd rn cs].
  unfold mbind, M_bind, get_object, modify, mret, M_ret, cleared. simpl.
  destruct (obs !! o) as [ob|] eqn:Ho; simpl; [|done].
  destruct (o_initialized ob); simpl; [|by intros [= <- <-]]. rewrite Ho. simpl.
  destruct (h !! _); [|done]. intros [= <- <-]. cbv [upd_field set_p_objects set_p_heap]. simpl.
  by rewrite alter_cleared.
Qed.

(** A thread that is joined and created again, a key that is deleted and created
    again. *)
Definition join_create (join : positive → T Z) (thread routine argument : positive) : T Z :=
  r ← join thread;
  if r =? SKYUV_OK then skyuv_compat_pthread_create thread routine argument else mret r.

Definition delete_create (delete : positive → T Z) (key : positive) : T Z :=
  delete key ;; skyuv_compat_pthread_key_create key false.

Lemma initialize_cleared o (m : T Z) s1 s2 :
  cleared o s1 = cleared o s2 → (initialize_object o ;; m) s1 = (initialize_object o ;; m) s2.
Proof. unfold initialize_object, modify, mbind, M_bind, cleared. by intros ->. Qed.

Lemma join_create_by_value o ob f a s :
  p_objects s !! o = Some ob →
  join_create skyuv_compat_pthread_join o f a s = join_create (λ o, skyuv_thread_join (Some o)) o f a s.
Proof.
  intros Ho. unfold join_create. unfold mbind at 1 2, M_bind at 1 2. rewrite (join_by_value o ob) by done.
  destruct (skyuv_thread_join (Some o) s) as [r s'|] eqn:E; [|done]. simpl forgets. cbv iota beta.
  destruct (join_cleared o r s s' E) as [Hc Hr]. destruct (Z.eqb_spec r SKYUV_OK) as [->|Hne].
  - by apply initialize_cleared.
  - by rewrite Hr.
Qed.

Lemma delete_create_by_value o ob s :
  p_objects s !! o = Some ob →
  delete_create skyuv_compat_pthread_key_delete o s =
  delete_create (λ o, skyuv_tls_destroy (Some o) ;; mret 0) o s.
Proof.
  intros Ho. unfold delete_create. unfold mbind at 1 2, M_bind at 1 2. rewrite (key_delete_by_value o ob) by done.
  destruct ((skyuv_tls_destroy (Some o) ;; mret 0) s) as [r s'|] eqn:E; [|done]. simpl forgets. cbv iota beta.
  apply initialize_cleared. by eapply tls_destroy_cleared.
Qed.

Lemma cleared_kind k o s s' :
  cleared o (s' <| p_objects := p_objects s |>) = cleared o s' → is_kind s k o → is_kind s' k o.
Proof.
  intros E (ob & Ho & Hk). apply (f_equal (λ s, p_objects s !! o)) in E.
  unfold cleared in E. cbv [upd_field set_p_objects] in E. simpl in E.
  rewrite !lookup_alter_eq, Ho in E. simpl in E.
  destruct (p_objects s' !! o) as [ob'|] eqn:Ho'; simpl in E; [|done].
  exists ob'. split; [done|]. by injection E as <-.
Qed.

Lemma wp_with {A} (m : T A) (P Q : A → process → Prop) s :
  wp m P s → (∀ a s', m s = Ret a s' → P a s' → Q a s') → wp m Q s.
Proof. unfold wp. destruct (m s); auto. Qed.

Lemma wp_at {A} (m1 m2 : T A) Q s : m1 s = m2 s → wp m2 Q s → wp m1 Q s.
Proof. unfold wp. by intros ->. Qed.

(** The functions that get a thread or a key by value behave as with a pointer,
    for a program that uses the object afterwards only to create it again. *)
Definition by_value_safe o s : Prop :=
  (is_kind s KThread o → ∀ f a,
     join_create skyuv_compat_pthread_join o f a s = join_create (λ o, skyuv_thread_join (Some o)) o f a s ∧
     wp (join_create skyuv_compat_pthread_join o f a) (λ _, Owned) s) ∧
  (is_kind s KTls o →
     delete_create skyuv_compat_pthread_key_delete o s =
       delete_create (λ o, skyuv_tls_destroy (Some o) ;; mret 0) o s ∧
     wp (delete_create skyuv_compat_pthread_key_delete o) (λ _, Owned) s ∧
     skyuv_compat_pthread_getspecific o s = skyuv_tls_get o s ∧
     ∀ v, skyuv_compat_pthread_setspecific o v s = (skyuv_tls_set o v ;; mret 0) s).

Lemma pthread_by_value o s (Hs : Owned s) : by_value_safe o s.
Proof.
  split; intros (ob & Ho & Hk).
  - intros f a. pose proof (join_create_by_value o ob f a s Ho) as E. split; [done|].
    eapply wp_at; [exact E|]. unfold join_create. apply wp_bind.
    eapply wp_with; [by apply (join_effect o ob)|].
    intros r s' Er [Hs' [(-> & _ & Hb & _)|(Hr & _)]].
    + rewrite Z.eqb_refl. destruct (cleared_kind KThread o s s') as (ob' & Ho' & Hk');
        [by apply (join_cleared o SKYUV_OK)|by exists ob|].
      eapply wp_mono; [apply (compat_create_effect o ob' s' Hs' Ho' Hk')|naive_solver].
      by rewrite Ho' in Hb.
    + rewrite (proj2 (Z.eqb_neq _ _)) by done. by apply wp_ret.
  - pose proof (delete_create_by_value o ob s Ho) as E. split_and!; [done| |by eapply getspecific_by_value|].
    2: by intros v; eapply setspecific_by_value.
    eapply wp_at; [exact E|]. unfold delete_create. apply wp_bind.
    apply (wp_with _ (λ _ s', Owned s' ∧ p_objects s' !! o ≫= held = None ∧ p_pending s' = p_pending s)).
    { apply wp_bind. eapply wp_mono; [by apply (tls_destroy_effect o ob)|]. intros [] s' H'. apply wp_ret. exact H'. }
    intros r s' Er (Hs' & Hb & _).
    destruct (cleared_kind KTls o s s') as (ob' & Ho' & Hk'); [by eapply tls_destroy_cleared|by exists ob|].
    rewrite Ho' in Hb. unfold skyuv_compat_pthread_key_create. apply wp_bind, wp_modify.
    set (s1 := s' <| p_objects ::= _ |>).
    assert (p_objects s1 = <[o := Object (o_kind ob') None false]> (p_objects s')) as Eo.
    { by rewrite <- (alter_Some (λ ob, Object (o_kind ob) None false) _ _ _ Ho'). }
    eapply wp_mono; [apply (tls_init_effect o (Object (o_kind ob') None false) s1)|naive_solver].
    + apply (Owned_same s' Hs' o ob' (Object (o_kind ob') None false)); try done.
      simpl in Hb. rewrite Hb. unfold held. simpl. by rewrite Hk'.
    + by rewrite Eo, lookup_insert_eq.
    + done.
Qed.

(** The functions that take a pointer pass the call on and return 0. *)
Lemma pthread_uses_safe s c m :
  Owned s → is_held s KCond c → is_held s KMutex m →
  Forall (λ f : T Z, wp f (λ _ s', Owned s' ∧ unchanged s s') s)
    [skyuv_compat_pthread_mutex_lock m; skyuv_compat_pthread_mutex_unlock m;
     skyuv_compat_pthread_cond_signal c; skyuv_compat_pthread_cond_broadcast c;
     skyuv_compat_pthread_cond_wait c m].
Proof.
  intros Hs Hc Hm. rewrite !Forall_cons. split_and!; [..|done].
  - by apply (use_effect (MutexLock m)).
  - by apply (use_effect (MutexUnlock m)).
  - by apply (use_effect (CondSignal c)).
  - by apply (use_effect (CondBroadcast c)).
  - by apply (use_effect (CondWait c m)).
Qed.

(** C21 Threads, mutexes, condition variables, read-write locks, thread-local keys
    and libraries: whatever sequence of operations a program performs on its
    objects by pointer, also by their pthread names, each one that may be called
    ends without using memory that is not there, and does what its contract says:
    an object is initialised and has a block, or the operation fails and leaves
    everything as it was, except opening a library, which keeps the block with the
    message when the system refuses; a second initialisation is refused;
    destroying and joining free the block; a created thread calls its function
    once, with its argument.  When no object is in use and every thread has run, no
    memory is left.  The pthread names that get a thread or a key by value leave
    the caller's object as it was; for a program that uses it afterwards only to
    create it again they end with the same result in the same state as with a
    pointer, and reading and writing a key is the same outright. *)
Theorem thread_objects_correct objects s :
  map_Forall (λ _ ob, held ob = None) objects → life_reachable objects s →
  (∀ op, op_ok s op → wp (run_op op) (λ r s', Owned s' ∧ op_outcome op r s s') s) ∧
  (map_Forall (λ _ ob, held ob = None) (p_objects s) → p_pending s = [] → p_heap s = ∅) ∧
  (∀ o, by_value_safe o s).
Proof.
  intros Hnone Hr. apply life_owned in Hr as Hs; [|done]. split_and!.
  - by intros; apply op_effect.
  - by apply nothing_left.
  - intros o. by apply pthread_by_value.
Qed.

End names.

(** The thread of the sample, joined by value, is gone and its object stays. *)
Lemma thread_objects_correct_witness :
  (∀ op, op_ok sample_state op →
     wp (@run_op sample_platform op) (λ r s', Owned s' ∧ op_outcome op r sample_state s')
       sample_state) ∧
  @by_value_safe sample_platform 2 sample_state ∧
  match @skyuv_compat_pthread_join sample_platform 2 sample_state with
  | Ret r s => r = SKYUV_OK ∧ p_objects s !! 2%positive = p_objects sample_state !! 2%positive ∧
      size (p_heap sample_state) = 4%nat ∧ size (p_heap s) = 3%nat
  | Fault _ => False
  end.
Proof.
  destruct (@thread_objects_correct sample_platform sample_objects sample_state) as (Hop & _ & Hval).
  - apply (bool_decide_unpack _). vm_compute. exact I.
  - exact sample_reachable.
  - split; [exact Hop|]. split; [exact (Hval 2%positive)|]. vm_compute. done.
Defined.
