(* ===== verification/Dlfcn.v ===== *)
(** * The dynamic loader's names that Skynet uses

    src/src/compat/skynet/dynamic/dlfcn.h: libraries that are allocated when they
    are opened, and one static text for the last error, cut to the array. *)
From S2P Require Import Prelude SocketTypes Threads ThreadLife ClientStdin.

(** The messages of [uv_dlerror], by time. *)
Class DlMessages := { dl_message : nat → list Z }.

Definition SKYUV_COMPAT_DLERROR_SIZE : nat := 512.

(** The static text beside the process. *)
Record loader := Loader {
  ld_process : process;
  ld_text : list Z;
}.

Definition eta_loader (s : loader) : loader := Loader (ld_process s) (ld_text s).
#[export] Instance set_ld_process : Setter ld_process := ltac:(mk_setter eta_loader).
#[export] Instance set_ld_text : Setter ld_text := ltac:(mk_setter eta_loader).

(** At most [n] characters, and zeros up to [n]. *)
Definition strncpy (target source : list Z) (n : nat) : list Z :=
  take n (c_string source ++ replicate n 0) ++ drop n target.

Section loader.
Context `{PlatformEnv} `{DlMessages}.
Local Notation D := (M loader).

Definition on_process {A} (m : M process A) : D A := λ s,
  match m (ld_process s) with
  | Ret a p => Ret a (s <| ld_process := p |>)
  | Fault f => Fault f
  end.

(** [malloc(sizeof(skyuv_dl))] and the initialiser; [free] of it. *)
Definition new_library : M process (option positive) := λ s,
  if malloc_succeeds (p_time s) then
    let o := fresh (dom (p_objects s)) in
    Ret (Some o) (s <| p_time ::= S |> <| p_objects ::= insert o (Object KLibrary None false) |>)
  else Ret None (s <| p_time ::= S |>).

Definition free_library (o : positive) : M process unit := λ s,
  match p_objects s !! o with
  | Some _ => Ret tt (s <| p_objects ::= delete o |>)
  | None => Fault UseAfterFree
  end.

Definition set_text (f : list Z → list Z) : D unit := modify (λ s, s <| ld_text ::= f |>).

(** [text[0] = '\0'] *)
Definition clear_text : D unit := set_text (insert 0%nat 0).

Definition copy_text (source : list Z) : D unit :=
  set_text (λ text, strncpy text source (SKYUV_COMPAT_DLERROR_SIZE - 1)) ;;
  set_text (insert (SKYUV_COMPAT_DLERROR_SIZE - 1)%nat 0).

Definition skyuv_compat_save_dlerror (library : positive) : D unit :=
  error ← on_process (skyuv_dlerror (Some library));
  if negb error then clear_text
  else message ← gets (λ s, dl_message (p_time (ld_process s))); copy_text message.

Definition out_of_memory : list Z :=
  (λ c, Z.of_N (Ascii.N_of_ascii c)) <$> String.list_ascii_of_string "out of memory".

Definition skyuv_compat_dlopen (path : option string) : D (option positive) :=
  library ← on_process new_library;
  match library with
  | None => copy_text out_of_memory ;; mret None
  | Some library =>
      result ← on_process (skyuv_dlopen (Some library) path);
      if negb (result =? SKYUV_OK) then
        skyuv_compat_save_dlerror library ;;
        on_process (skyuv_dlclose (Some library)) ;;
        on_process (free_library library) ;;
        mret None
      else
        clear_text ;;
        mret (Some library)
  end.

(** Whether a symbol was found. *)
Definition skyuv_compat_dlsym (handle : positive) (name : option string) : D bool :=
  result ← on_process (skyuv_dlsym (Some handle) name true);
  if negb (result =? SKYUV_OK) then skyuv_compat_save_dlerror handle ;; mret false
  else mret true.

Definition skyuv_compat_dlerror : D (option (list Z)) := gets (λ s,
  match ld_text s with 0 :: _ | [] => None | text => Some (c_string text) end).

(** ** The text *)

(** The array ends with a zero. *)
Definition text_ok (text : list Z) : Prop :=
  length text = SKYUV_COMPAT_DLERROR_SIZE ∧ text !! (SKYUV_COMPAT_DLERROR_SIZE - 1)%nat = Some 0.

(** What [dlerror] returns. *)
Definition error_of (s : loader) : option (list Z) :=
  match ld_text s with 0 :: _ | [] => None | text => Some (c_string text) end.

(** A message as it is kept: cut, and none if it is empty. *)
Definition kept_message (message : list Z) : option (list Z) :=
  match take (SKYUV_COMPAT_DLERROR_SIZE - 1) (c_string message) with [] => None | l => Some l end.

Lemma c_string_nonzero l : Forall (λ b, b ≠ 0) (c_string l).
Proof.
  induction l as [|b l IH]; simpl; [constructor|]. destruct (Z.eqb_spec b 0); by constructor.
Qed.

Lemma c_string_app l rest : Forall (λ b, b ≠ 0) l → c_string (l ++ 0 :: rest) = l.
Proof.
  induction 1 as [|b l Hb Hl IH]; simpl; [done|]. rewrite (proj2 (Z.eqb_neq b 0)) by done. by rewrite IH.
Qed.

Lemma length_strncpy target source n : (n ≤ length target)%nat → length (strncpy target source n) = length target.
Proof.
  intros Hn. unfold strncpy. rewrite length_app, length_take, length_drop, length_app, length_replicate. lia.
Qed.

Lemma copied_text target source :
  length target = SKYUV_COMPAT_DLERROR_SIZE →
  let n := (SKYUV_COMPAT_DLERROR_SIZE - 1)%nat in
  ∃ rest, <[n := 0]> (strncpy target source n) = take n (c_string source) ++ 0 :: rest.
Proof.
  intros Hlen n. unfold strncpy.
  assert (∃ x, drop n target = [x]) as [x Hd].
  { assert (length (drop n target) = 1%nat) as E by (by rewrite length_drop, Hlen).
    destruct (drop n target) as [|x [|]]; [done|by exists x|done]. }
  rewrite Hd. clearbody n.
  assert (length (take n (c_string source ++ replicate n 0)) = n) as Hn.
  { rewrite length_take, length_app, length_replicate. lia. }
  rewrite insert_app_r_alt by lia. rewrite Hn, Nat.sub_diag. simpl.
  rewrite take_app. destruct (decide (length (c_string source) < n)%nat) as [Hlt|Hge].
  - rewrite take_replicate, Nat.min_l by lia.
    destruct (n - length (c_string source))%nat as [|k] eqn:E; [lia|]. simpl.
    exists (replicate k 0 ++ [0]). by rewrite <- app_assoc.
  - exists []. rewrite take_replicate. replace (n - length (c_string source))%nat with 0%nat by lia.
    simpl. by rewrite app_nil_r.
Qed.

Lemma wp_copy_text source (Q : unit → loader → Prop) s :
  text_ok (ld_text s) →
  (∀ text, text_ok text → error_of (s <| ld_text := text |>) = kept_message source → Q tt (s <| ld_text := text |>)) →
  wp (copy_text source) Q s.
Proof.
  intros [Hlen _] HQ. unfold copy_text, set_text. apply wp_bind, wp_modify, wp_modify.
  set (n := (SKYUV_COMPAT_DLERROR_SIZE - 1)%nat).
  apply (HQ (<[n := 0]> (strncpy (ld_text s) source n))).
  - assert (length (strncpy (ld_text s) source n) = SKYUV_COMPAT_DLERROR_SIZE) as E.
    { rewrite length_strncpy; [done|]. rewrite Hlen. subst n. lia. }
    split; [by rewrite length_insert|]. apply list_lookup_insert_eq. rewrite E. by apply Nat.ltb_lt.
  - destruct (copied_text (ld_text s) source Hlen) as [rest Hr]. unfold error_of, kept_message.
    cbn [ld_text set_ld_text upd_field]. fold n in Hr |- *. rewrite Hr.
    pose proof (c_string_nonzero source) as Hnz. apply (Forall_take _ n) in Hnz.
    destruct (take n (c_string source)) as [|b l] eqn:E; [done|]. simpl app.
    inversion Hnz as [|? ? Hb Hl]; subst. destruct b; [done|..]; f_equal; by apply (c_string_app (_ :: l)).
Qed.

Lemma wp_clear_text (Q : unit → loader → Prop) s :
  text_ok (ld_text s) →
  (∀ text, text_ok text → error_of (s <| ld_text := text |>) = None → Q tt (s <| ld_text := text |>)) →
  wp clear_text Q s.
Proof.
  intros [Hlen Hz] HQ. unfold clear_text, set_text. apply wp_modify. apply (HQ (<[0%nat := 0]> (ld_text s))).
  - split; [by rewrite length_insert|]. rewrite list_lookup_insert_ne; [done|].
    by unfold SKYUV_COMPAT_DLERROR_SIZE.
  - unfold error_of. simpl. destruct (ld_text s); [done|]. done.
Qed.

Lemma wp_on_process {A} (m : M process A) (Q : A → loader → Prop) s :
  wp m (λ a p, Q a (s <| ld_process := p |>)) (ld_process s) → wp (on_process m) Q s.
Proof. unfold wp, on_process. by destruct (m (ld_process s)). Qed.

(** ** Libraries *)

Lemma Owned_new s o s' :
  Owned s → p_objects s !! o = None → p_heap s' = p_heap s →
  p_objects s' = <[o := Object KLibrary None false]> (p_objects s) → p_pending s' = p_pending s →
  p_next s' = p_next s → Owned s'.
Proof.
  intros [H1 H2 H3 H4 H5 H6 H7] Hnew Eh Eo Ep En. split; rewrite ?Eh, ?Ep, ?En; auto.
  intros p k o'. rewrite H1, Eo. split; intros (ob & Ho & Hk & Hh).
  - exists ob. rewrite lookup_insert_ne by congruence. done.
  - apply lookup_insert_Some in Ho as [[<- <-]|[_ Ho]]; [done|by exists ob].
Qed.

Lemma Owned_gone s o ob s' :
  Owned s → p_objects s !! o = Some ob → held ob = None → p_heap s' = p_heap s →
  p_objects s' = delete o (p_objects s) → p_pending s' = p_pending s →
  (p_next s ≤ p_next s')%positive → Owned s'.
Proof.
  intros [H1 H2 H3 H4 H5 H6 H7] Ho Hnone Eh Eo Ep En. split; rewrite ?Eh, ?Ep; auto.
  - intros p k o'. rewrite H1, Eo. split; intros (ob' & Ho' & Hk & Hh).
    + exists ob'. rewrite lookup_delete_ne by congruence. done.
    + apply lookup_delete_Some in Ho' as [_ Ho']. by exists ob'.
  - intros p b Hb. apply H7 in Hb. lia.
Qed.

(** [skyuv_dlopen] of a new library: the block, if there is one, is new too. *)
Lemma open_new o path (Q : Z → process → Prop) h obs pd n s :
  core s = (h, <[o := Object KLibrary None false]> obs, pd, n) → h !! n = None →
  (∀ r s', r ≠ SKYUV_OK → core s' = (h, <[o := Object KLibrary None false]> obs, pd, n) → Q r s') →
  (∀ r s', core s' = (<[n := Native KLibrary o]> h, <[o := Object KLibrary (Some n) false]> obs, pd, Pos.succ n) →
     Q r s') →
  wp (skyuv_dlopen (Some o) path) Q s.
Proof.
  intros Hc Hn Hno Hyes. unfold skyuv_dlopen. destruct path as [path|]; [|apply wp_ret; by apply Hno].
  eapply wp_bind, wp_get_object; [exact Hc|by rewrite lookup_insert_eq|]. simpl.
  eapply wp_bind, wp_malloc; [exact Hc| |]; intros s1 E1; [apply wp_ret; by apply Hno|].
  eapply wp_bind, wp_uv_result; [exact E1|]. intros r s2 E2.
  eapply wp_bind, wp_put; [exact E2|by rewrite lookup_insert_eq|]. intros s3 E3.
  eapply wp_bind, wp_set_implementation; [exact E3|by rewrite lookup_insert_eq|]. intros s4 E4. apply wp_ret.
  apply Hyes. rewrite E4. by rewrite !insert_insert_eq.
Qed.

(** Whatever the state of the library: the text is set, and the library is gone. *)
Lemma discard_new o (Q : option positive → loader → Prop) s0 s ob h n :
  Owned (ld_process s0) → text_ok (ld_text s) → p_objects (ld_process s0) !! o = None →
  core (ld_process s) = (h, <[o := ob]> (p_objects (ld_process s0)), p_pending (ld_process s0), n) →
  (p_next (ld_process s0) ≤ n)%positive →
  (h = p_heap (ld_process s0) ∧ ob = Object KLibrary None false ∨
   ∃ i, p_heap (ld_process s0) !! i = None ∧ h = <[i := Native KLibrary o]> (p_heap (ld_process s0)) ∧
     ob = Object KLibrary (Some i) false) →
  (∀ s', Owned (ld_process s') → unchanged (ld_process s0) (ld_process s') → text_ok (ld_text s') →
     (error_of s' = None ∨ ∃ t, error_of s' = kept_message (dl_message t)) → Q None s') →
  wp (skyuv_compat_save_dlerror o ;;
      on_process (skyuv_dlclose (Some o)) ;; on_process (free_library o) ;; mret None) Q s.
Proof.
  intros Hs Ht Hnew Hc Hn Hob HQ. set (p0 := ld_process s0) in *.
  assert (∀ s1, core (ld_process s1) = core (ld_process s) → text_ok (ld_text s1) →
    (error_of s1 = None ∨ ∃ t, error_of s1 = kept_message (dl_message t)) →
    wp (on_process (skyuv_dlclose (Some o)) ;; on_process (free_library o) ;; mret None) Q s1) as Hrest.
  { intros s1 E1 Ht1 He1. rewrite Hc in E1. apply wp_bind, wp_on_process. unfold skyuv_dlclose.
    eapply wp_bind, wp_get_object; [exact E1|by rewrite lookup_insert_eq|].
    assert (∀ p, core p = (p_heap p0, <[o := Object KLibrary None false]> (p_objects p0), p_pending p0, n) →
      wp (on_process (free_library o) ;; mret None) Q (s1 <| ld_process := p |>)) as Hend.
    { intros p Ep. injection Ep as Eh Eo Epd En. apply wp_bind, wp_on_process. unfold wp, free_library. simpl.
      assert (delete o (p_objects p) = p_objects p0) as Ed by (rewrite Eo; by apply delete_insert_id).
      rewrite Eo, lookup_insert_eq. apply HQ; [|by split_and!|done|done].
      apply (Owned_idle p0 Hs); simpl; try done. congruence. }
    destruct Hob as [[-> ->]|(i & Hi & -> & ->)]; simpl o_implementation; cbv iota.
    - apply wp_ret. by apply Hend.
    - eapply wp_bind, wp_put; [exact E1|by rewrite lookup_insert_eq|]. intros p1 Ep1.
      eapply wp_bind, wp_free_block; [exact Ep1|by rewrite lookup_insert_eq|]. intros p2 Ep2.
      eapply wp_set_implementation; [exact Ep2|by rewrite lookup_insert_eq|]. intros p3 Ep3. apply Hend.
      rewrite Ep3. by rewrite insert_insert_eq, delete_fresh, insert_insert_eq. }
  unfold skyuv_compat_save_dlerror. apply wp_bind, wp_bind, wp_on_process. unfold skyuv_dlerror.
  eapply wp_bind, wp_get_object; [exact Hc|by rewrite lookup_insert_eq|].
  destruct Hob as [[-> ->]|(i & Hi & -> & ->)]; simpl o_implementation; cbv iota.
  - apply wp_ret. simpl negb. cbv iota. apply wp_clear_text; [done|]. intros text Ht' He.
    apply Hrest; [done|done|by left].
  - apply wp_bind. unfold wp at 1, call_uv. simpl. injection Hc as Eh _ _ _. rewrite Eh, lookup_insert_eq.
    rewrite bool_decide_true by done. simpl. apply wp_ret. simpl negb. cbv iota. apply wp_bind, wp_gets.
    apply wp_copy_text; [done|]. intros text Ht' He. apply Hrest; [|done|right; eauto].
    simpl. unfold core. simpl. done.
Qed.

(** What [dlerror] may say after a failure. *)
Definition failure_text (s : loader) : Prop :=
  error_of s = None ∨ error_of s = Some out_of_memory ∨ ∃ t, error_of s = kept_message (dl_message t).

Lemma dlopen_ok path s :
  Owned (ld_process s) → text_ok (ld_text s) →
  wp (skyuv_compat_dlopen path) (λ o s', Owned (ld_process s') ∧ text_ok (ld_text s') ∧
    match o with
    | Some o => p_objects (ld_process s) !! o = None ∧ is_held (ld_process s') KLibrary o ∧ error_of s' = None
    | None => unchanged (ld_process s) (ld_process s') ∧ failure_text s'
    end) s.
Proof.
  intros Hs Ht. unfold skyuv_compat_dlopen. apply wp_bind, wp_on_process. unfold wp at 1, new_library.
  destruct (malloc_succeeds _).
  2: { apply wp_bind, wp_copy_text; [done|]. intros text Ht' He. apply wp_ret.
       split; [by apply (Owned_idle (ld_process s) Hs)|]. split; [done|]. split; [done|]. right. left.
       by rewrite He. }
  set (o := fresh _). assert (p_objects (ld_process s) !! o = None) as Hnew by (apply not_elem_of_dom, is_fresh).
  set (s1 := s <| ld_process := _ |>). apply wp_bind, wp_on_process.
  pose proof (owned_fresh (ld_process s) Hs (p_next (ld_process s)) ltac:(lia)) as Hfresh.
  assert (∀ s', Owned (ld_process s') → unchanged (ld_process s) (ld_process s') → text_ok (ld_text s') →
    (error_of s' = None ∨ ∃ t, error_of s' = kept_message (dl_message t)) →
    Owned (ld_process s') ∧ text_ok (ld_text s') ∧ unchanged (ld_process s) (ld_process s') ∧ failure_text s') as Hfail.
  { intros s' H1 H2 H3 H4. split_and!; try done. unfold failure_text. naive_solver. }
  eapply open_new; [done|exact Hfresh|..].
  - intros r p Hr Ep. rewrite (proj2 (Z.eqb_neq _ _)) by done. simpl negb. cbv iota.
    eapply (discard_new o _ s); [done|done|done|exact Ep|done|by left|done].
  - intros r p Ep. destruct (Z.eqb_spec r SKYUV_OK) as [->|Hr]; simpl negb; cbv iota.
    + apply wp_bind, wp_clear_text; [done|]. intros text Ht' He. apply wp_ret.
      injection Ep as Eh Eo Epd En. assert (Owned p) as Hp.
      { assert (Owned (ld_process s1)) as H1 by (by apply (Owned_new (ld_process s) o)).
        apply (Owned_take (ld_process s1) H1 o (Object KLibrary None false)
          (Object KLibrary (Some (p_next (ld_process s))) false) (p_next (ld_process s))); simpl; try done.
        - by rewrite lookup_insert_eq.
        - rewrite En. lia.
        - by rewrite Eo, insert_insert_eq.
        - rewrite En. lia. }
      split_and!; try done. eexists _, _. simpl. rewrite Eo, lookup_insert_eq. done.
    + eapply (discard_new o _ s); [done|done|done|exact Ep|simpl; lia|right; by eexists|done].
Qed.

Lemma dlsym_ok handle name s :
  Owned (ld_process s) → text_ok (ld_text s) → is_kind (ld_process s) KLibrary handle →
  wp (skyuv_compat_dlsym handle name) (λ found s', Owned (ld_process s') ∧
    unchanged (ld_process s) (ld_process s') ∧ text_ok (ld_text s') ∧
    if found : bool then ld_text s' = ld_text s else failure_text s') s.
Proof.
  intros Hs Ht Hk. unfold skyuv_compat_dlsym. apply wp_bind, wp_on_process.
  pose proof (op_effect (DlSym (Some handle) name true) (ld_process s) Hs Hk) as Hop. simpl in Hop.
  eapply wp_mono; [exact Hop|]. intros r p [Hp Hu].
  assert (unchanged (ld_process s) p) as Hun by (by destruct name; [|destruct Hu]). clear Hu Hop.
  destruct (Z.eqb_spec r SKYUV_OK) as [->|Hr]; simpl negb; cbv iota; [by apply wp_ret|].
  apply wp_bind. unfold skyuv_compat_save_dlerror. apply wp_bind, wp_on_process. simpl.
  pose proof Hk as (ob & Ho & Hkl). pose proof Hun as (Eh & Eo & Ep). rewrite <- Eo in Ho.
  unfold skyuv_dlerror. eapply wp_bind, (wp_get_object _ _ _ _ handle ob); [apply core_refl|done|].
  destruct (o_implementation ob) as [i|] eqn:Hi.
  - assert (p_heap p !! i = Some (Native KLibrary handle)).
    { apply (owned_native p Hp). exists ob. by rewrite held_pointer by by rewrite Hkl. }
    apply wp_bind, wp_call_uv; [done|repeat constructor; eauto|]. intros p' Hp' [= ? ? ? ?]. apply wp_ret.
    simpl negb. cbv iota. apply wp_bind, wp_gets, wp_copy_text; [done|]. intros text Ht' He. apply wp_ret.
    split; [done|]. split; [split_and!; simpl; congruence|]. split; [done|]. right. right. eauto.
  - apply wp_ret. simpl negb. cbv iota. apply wp_clear_text; [done|]. intros text Ht' He. apply wp_ret.
    split_and!; try done. by left.
Qed.

(** C39 The loader's functions for Skynet: a library that is opened is new and the
    error text is empty; if it cannot be opened nothing of it is left, neither the
    library nor its block; looking up a symbol changes nothing but the text.  The
    text always ends within its array, and is, after a failure, the message of
    libuv cut to 511 characters, or that memory is out, or empty. *)
Theorem dlfcn_correct s (Hs : Owned (ld_process s)) (Ht : text_ok (ld_text s)) :
  (∀ path, wp (skyuv_compat_dlopen path) (λ o s', Owned (ld_process s') ∧ text_ok (ld_text s') ∧
     match o with
     | Some o => p_objects (ld_process s) !! o = None ∧ is_held (ld_process s') KLibrary o ∧ error_of s' = None
     | None => unchanged (ld_process s) (ld_process s') ∧ failure_text s'
     end) s) ∧
  (∀ handle name, is_kind (ld_process s) KLibrary handle →
     wp (skyuv_compat_dlsym handle name) (λ found s', Owned (ld_process s') ∧
       unchanged (ld_process s) (ld_process s') ∧ text_ok (ld_text s') ∧
       if found : bool then ld_text s' = ld_text s else failure_text s') s).
Proof. split; intros; [by apply dlopen_ok|by apply dlsym_ok]. Qed.

(** When the memory for the library is there and that for its block is not, dlopen
    fails and dlerror has nothing to say. *)
Theorem dlopen_silent path s :
  malloc_succeeds (p_time (ld_process s)) = true → malloc_succeeds (S (p_time (ld_process s))) = false →
  text_ok (ld_text s) → wp (skyuv_compat_dlopen (Some path)) (λ o s', o = None ∧ error_of s' = None) s.
Proof.
  intros H1 H2 Ht. unfold skyuv_compat_dlopen. apply wp_bind, wp_on_process. unfold wp at 1, new_library.
  rewrite H1. set (o := fresh _). apply wp_bind, wp_on_process. simpl.
  unfold skyuv_dlopen. apply wp_bind. unfold wp at 1, get_object. simpl. rewrite lookup_insert_eq. simpl.
  apply wp_bind. unfold wp at 1, Threads.malloc. simpl. rewrite H2. apply wp_ret. simpl.
  apply wp_bind. unfold skyuv_compat_save_dlerror. apply wp_bind, wp_on_process. simpl.
  apply wp_bind. unfold wp at 1, get_object. simpl. rewrite lookup_insert_eq. apply wp_ret. simpl.
  apply wp_clear_text; [done|]. intros text Ht' He. apply wp_bind, wp_on_process. simpl.
  apply wp_bind. unfold wp at 1, get_object. simpl. rewrite lookup_insert_eq. apply wp_ret.
  apply wp_bind, wp_on_process. unfold wp at 1, free_library. simpl. rewrite lookup_insert_eq.
  apply wp_ret. done.
Qed.

End loader.

(** ** A run *)

(** The library is not there. *)
Definition failing_platform : PlatformEnv :=
  {| malloc_succeeds := λ _, true; uv_result := λ _, -2; UV_ETIMEDOUT := -110 |}.

Definition sample_messages : DlMessages := {| dl_message := λ _, [78; 111] |}.

Definition new_loader : loader := Loader (declared ∅) (replicate 512 0).

Lemma dlfcn_correct_witness :
  match @skyuv_compat_dlopen failing_platform sample_messages (Some "service/logger.so"%string) new_loader with
  | Ret o s => o = None ∧ error_of s = Some [78; 111] ∧ p_heap (ld_process s) = ∅ ∧ text_ok (ld_text s)
  | Fault _ => False
  end.
Proof.
  assert (Owned (ld_process new_loader)) as Hs by (by apply declared_owned).
  assert (text_ok (ld_text new_loader)) as Ht by (by split).
  destruct (@dlfcn_correct failing_platform sample_messages new_loader Hs Ht) as [Hopen _].
  specialize (Hopen (Some "service/logger.so"%string)). unfold wp in Hopen.
  assert (match @skyuv_compat_dlopen failing_platform sample_messages (Some "service/logger.so"%string) new_loader with
    | Ret None s => error_of s = Some [78; 111] | _ => False end) as E by (vm_compute; reflexivity).
  destruct (@skyuv_compat_dlopen failing_platform sample_messages _ new_loader) as [[o|] s|]; [done| |done].
  destruct Hopen as (_ & Ht' & (Eh & _) & _). by split_and!.
Defined.
