(* ===== verification/Paths.v ===== *)
(** * Paths (src/src/platform/runtime_paths.c, src/src/runtime/runtime_paths.h)

    A path is the list of its characters, without the terminator.  A function that
    fills a buffer returns its code and, on success, the text in the buffer; the
    buffers have room for [capacity] characters including the terminator.  The
    file system is a parameter. *)
From S2P Require Import Prelude.
From Stdlib Require Export Ascii.

Definition text := list ascii.

(** The characters of a literal. *)
Definition chars (s : string) : text := String.list_ascii_of_string s.

Definition SKYUV_RUNTIME_PATH_CAPACITY : Z := 4096.

(** Results of libuv; the code compares some of its errors. *)
Inductive uv_code :=
| UV_OK
| UV_EINVAL
| UV_ENAMETOOLONG
| UV_EEXIST
| UV_ENOENT
| UV_ENOTDIR
| UV_OTHER (code : Z).

#[export] Instance uv_code_eq_dec : EqDecision uv_code.
Proof. solve_decision. Defined.

Definition slash : ascii := "/"%char.
Definition backslash : ascii := "\"%char.
Definition colon : ascii := ":"%char.

(** The character at an index of a C string; beyond the end, the terminator. *)
Definition char_at (path : text) (i : nat) : ascii := nth i path zero.

(** [strrchr]: the index of the last occurrence. *)
Fixpoint strrchr (path : text) (c : ascii) : option nat :=
  match path with
  | [] => None
  | x :: path =>
      match strrchr path c with
      | Some i => Some (S i)
      | None => if Ascii.eqb x c then Some 0%nat else None
      end
  end.

(** The file system: what the code asks of it.  [fs_stat] also says whether the
    path is a directory. *)
Class FileSystem (ST : Type) := {
  fs_stat : text → ST → uv_code * bool;
  fs_realpath : text → ST → uv_code * text;
  fs_mkdir : text → ST → uv_code * ST;
}.

Section paths.
Context (win32 : bool).

Definition normalize_separators (path : text) : text :=
  if win32 then (λ c, if Ascii.eqb c backslash then slash else c) <$> path else path.

Section files.
Context {ST : Type} `{FileSystem ST}.

Definition skyuv_path_exists (path : text) (s : ST) : bool :=
  bool_decide ((fs_stat path s).1 = UV_OK).

Definition skyuv_path_real (path : text) (capacity : Z) (s : ST) : uv_code * option text :=
  let '(result, resolved) := fs_realpath path s in
  if decide (result = UV_OK) then
    if capacity <=? Z.of_nat (length resolved) then (UV_ENAMETOOLONG, None)
    else (UV_OK, Some (normalize_separators resolved))
  else (result, None).

End files.

(** The code, and the path that is left in the buffer. *)
Definition skyuv_path_parent (path : text) : uv_code * text :=
  let path := normalize_separators path in
  match strrchr path slash with
  | None => (UV_EINVAL, path)
  | Some separator =>
      if (separator =? 0)%nat then (UV_OK, take 1 path)
      else if win32 && (separator =? 2)%nat && Ascii.eqb (char_at path 1) colon
      then (UV_OK, take (separator + 1) path)
      else (UV_OK, take separator path)
  end.

(** [uv_exepath] gives a code and the path of the executable. *)
Definition skyuv_find_install_root (exepath : uv_code * text) (capacity : Z) : option text :=
  let '(result, path) := exepath in
  let size := length path in
  if negb (bool_decide (result = UV_OK)) || (size =? 0)%nat || (capacity <=? Z.of_nat size) then None
  else
    let '(result, path) := skyuv_path_parent path in
    if negb (bool_decide (result = UV_OK)) then None
    else
      match strrchr path slash with
      | None => None
      | Some separator =>
          if negb (bool_decide (drop (separator + 1) path = chars "bin")) then None
          else
            let '(result, path) := skyuv_path_parent path in
            if bool_decide (result = UV_OK) then Some path else None
      end.

Definition skyuv_path_is_absolute (path : text) : bool :=
  let absolute := Ascii.eqb (char_at path 0) slash in
  if win32 then
    absolute || Ascii.eqb (char_at path 0) backslash ||
    ((negb (Ascii.eqb (char_at path 0) zero) && Ascii.eqb (char_at path 1) colon) &&
     (Ascii.eqb (char_at path 2) slash || Ascii.eqb (char_at path 2) backslash))
  else absolute.

(** [snprintf] into a buffer: the text if it fits. *)
Definition fits (capacity : Z) (out : text) : uv_code * option text :=
  if capacity <=? Z.of_nat (length out) then (UV_ENAMETOOLONG, None)
  else (UV_OK, Some (normalize_separators out)).

Definition is_separator (c : ascii) : bool := Ascii.eqb c slash || Ascii.eqb c backslash.

Definition skyuv_path_absolute (base path : text) (capacity : Z) : uv_code * option text :=
  let absolute := skyuv_path_is_absolute path in
  if win32 && negb (Ascii.eqb (char_at path 0) zero) && Ascii.eqb (char_at path 1) colon &&
     negb absolute then (UV_EINVAL, None)
  else if win32 && is_separator (char_at path 0) && negb (is_separator (char_at path 1)) then
    if Ascii.eqb (char_at base 0) zero || negb (Ascii.eqb (char_at base 1) colon)
    then (UV_EINVAL, None)
    else fits capacity (char_at base 0 :: colon :: path)
  else if Ascii.eqb (char_at path 0) zero then (UV_EINVAL, None)
  else fits capacity (if absolute then path else base ++ slash :: path).

(** Directories are made from the last one that exists on; [fuel] bounds the
    calls that are nested. *)
Fixpoint skyuv_path_mkdir {ST} `{FileSystem ST} (fuel : nat) (path : text) : M ST uv_code :=
  match fuel with
  | O => throw OutOfFuel
  | S fuel =>
      result ← (λ s, Ret (fs_mkdir path s).1 (fs_mkdir path s).2);
      if decide (result = UV_EEXIST) then
        '(result, directory) ← gets (fs_stat path);
        mret (if bool_decide (result = UV_OK) && negb directory then UV_ENOTDIR else result)
      else if decide (result ≠ UV_ENOENT) then mret result
      else if SKYUV_RUNTIME_PATH_CAPACITY <=? Z.of_nat (length path) then mret UV_ENAMETOOLONG
      else
        let '(result, parent) := skyuv_path_parent path in
        if negb (bool_decide (result = UV_OK)) || bool_decide (parent = path) then mret UV_ENOENT
        else
          result ← skyuv_path_mkdir fuel parent;
          if decide (result ≠ UV_OK) then mret result
          else skyuv_path_mkdir fuel path
  end.

Definition skyuv_daemon_supported : bool := negb win32.

End paths.
