(* ===== verification/PathProperties.v ===== *)
(** * Properties of paths

    Parents, the installation root, absolute paths and the creation of
    directories. *)
From S2P Require Import Prelude Paths.

(** ** The last separator *)

Lemma strrchr_None p c : strrchr p c = None ↔ c ∉ p.
Proof.
  induction p as [|x p IH]; simpl; [split; [by intros _ ?%not_elem_of_nil|done]|].
  rewrite not_elem_of_cons. destruct (strrchr p c) as [i|].
  - split; [done|]. intros [_ Hp]. apply IH in Hp. done.
  - destruct (Ascii.eqb_spec x c) as [->|Hne]; [naive_solver|].
    split; [|done]. intros _. split; [congruence|]. by apply IH.
Qed.

Lemma strrchr_app l r c : c ∉ r → strrchr (l ++ c :: r) c = Some (length l).
Proof.
  intros Hr. apply strrchr_None in Hr. induction l as [|x l IH]; simpl.
  - by rewrite Hr, Ascii.eqb_refl.
  - by rewrite IH.
Qed.

Lemma strrchr_Some p c i :
  strrchr p c = Some i → ∃ l r, p = l ++ c :: r ∧ length l = i ∧ c ∉ r.
Proof.
  revert i. induction p as [|x p IH]; intros i; simpl; [done|].
  destruct (strrchr p c) as [j|] eqn:E.
  - intros [= <-]. destruct (IH j eq_refl) as (l & r & -> & <- & Hr).
    exists (x :: l), r. done.
  - apply strrchr_None in E. destruct (Ascii.eqb_spec x c) as [->|]; [|done].
    intros [= <-]. by exists [], p.
Qed.

(** ** Separators of Windows *)

Lemma normalize_length w p : length (normalize_separators w p) = length p.
Proof. unfold normalize_separators. destruct w; [|done]. apply length_fmap. Qed.

Lemma normalize_clean p : backslash ∉ normalize_separators true p.
Proof.
  unfold normalize_separators. intros (c & Hc & _)%list_elem_of_fmap.
  destruct (Ascii.eqb_spec c backslash); [done|congruence].
Qed.

(** A path without backslashes, or on a system that gives them no meaning. *)
Definition normal (w : bool) (p : text) : Prop := normalize_separators w p = p.

#[export] Instance normal_dec w p : Decision (normal w p).
Proof. unfold normal. apply _. Defined.

Lemma normal_take w p n : normal w p → normal w (take n p).
Proof.
  unfold normal, normalize_separators. destruct w; [|done]. intros E.
  by rewrite fmap_take, E.
Qed.

Lemma normalize_normal w p : normal w (normalize_separators w p).
Proof.
  unfold normal, normalize_separators. destruct w; [|done]. rewrite <-list_fmap_compose.
  apply list_fmap_ext. intros i c _. simpl. by destruct (Ascii.eqb_spec c backslash) as [->|Hne];
    [|rewrite (proj2 (Ascii.eqb_neq _ _) Hne)].
Qed.

(** ** Parents *)

(** A drive with its root, which is its own parent. *)
Definition is_drive (w : bool) (dir : text) : bool :=
  w && (length dir =? 2)%nat && Ascii.eqb (char_at dir 1) colon.

(** The directory whose path is the text before a separator. *)
Definition folder (w : bool) (dir : text) : text :=
  if decide (dir = []) then [slash] else if is_drive w dir then dir ++ [slash] else dir.

(** The directory of a file: what comes before the last separator. *)
Definition directory_of (w : bool) (file dir : text) : Prop :=
  ∃ before name, file = before ++ slash :: name ∧ slash ∉ name ∧ dir = folder w before.

Lemma parent_of w dir name :
  normal w (dir ++ slash :: name) → slash ∉ name →
  skyuv_path_parent w (dir ++ slash :: name) = (UV_OK, folder w dir).
Proof.
  intros Hn Hs. unfold skyuv_path_parent, folder. cbv zeta. rewrite !Hn, strrchr_app by done.
  destruct dir as [|c dir]; [done|]. rewrite decide_False by done.
  change ((length (c :: dir) =? 0)%nat) with false. cbv iota.
  assert (w && (length (c :: dir) =? 2)%nat &&
    Ascii.eqb (char_at ((c :: dir) ++ slash :: name) 1) colon = is_drive w (c :: dir)) as ->.
  { unfold is_drive. destruct w; [|done].
    destruct (Nat.eqb_spec (length (c :: dir)) 2) as [Hl|]; [|done]. by destruct dir as [|d [|]]. }
  destruct (is_drive w (c :: dir)); [|by rewrite take_app_length].
  rewrite (app_assoc (c :: dir) [slash] name : (c :: dir) ++ slash :: name = _).
  f_equal. apply take_app_length'. by rewrite length_app.
Qed.

Lemma parent_inv w p q :
  normal w p → skyuv_path_parent w p = (UV_OK, q) → directory_of w p q.
Proof.
  intros Hn Hq. assert (∃ i, strrchr p slash = Some i) as [i Hi].
  { unfold skyuv_path_parent in Hq. rewrite Hn in Hq. destruct (strrchr p slash); [eauto|done]. }
  apply strrchr_Some in Hi as (dir & name & -> & _ & Hs). exists dir, name.
  rewrite parent_of in Hq by done. by simplify_eq.
Qed.

Lemma parent_length w p : (length (skyuv_path_parent w p).2 ≤ length p)%nat.
Proof.
  unfold skyuv_path_parent. rewrite <-(normalize_length w p).
  repeat case_match; simpl; rewrite ?length_take; lia.
Qed.

(** A parent is shorter, or the path is a root. *)
Lemma parent_shorter w p q :
  normal w p → skyuv_path_parent w p = (UV_OK, q) → q ≠ p →
  normal w q ∧ (length q < length p)%nat.
Proof.
  intros Hn Hq Hne. destruct (parent_inv w p q Hn Hq) as (dir & name & -> & Hs & ->).
  assert (normal w dir ∧ normal w (dir ++ [slash])) as [Hd Hd'].
  { split.
    - apply (normal_take w _ (length dir)) in Hn. by rewrite take_app_length in Hn.
    - apply (normal_take w _ (length (dir ++ [slash]))) in Hn.
      by rewrite (app_assoc dir [slash] name : dir ++ slash :: name = _), take_app_length in Hn. }
  rewrite length_app. simpl. unfold folder in *. case_decide as He; [subst dir|].
  - split; [by destruct w|]. destruct name; [done|]. simpl. lia.
  - destruct (is_drive w dir); [|split; [done|lia]].
    split; [done|]. rewrite length_app. simpl. destruct name; [done|]. simpl. lia.
Qed.

(** ** The installation root *)

Lemma install_root_found w root name capacity :
  normal w (root ++ chars "/bin/" ++ name) → slash ∉ name → is_drive w root = false →
  Z.of_nat (length (root ++ chars "/bin/" ++ name)) < capacity →
  skyuv_find_install_root w (UV_OK, root ++ chars "/bin/" ++ name) capacity =
    Some (if decide (root = []) then [slash] else root).
Proof.
  intros Hn Hs Hd Hlen. unfold skyuv_find_install_root.
  assert (root ++ chars "/bin/" ++ name = (root ++ chars "/bin") ++ slash :: name) as E
    by by rewrite <-(assoc_L (++)).
  rewrite E in *. rewrite bool_decide_true by done. simpl negb.
  assert ((length ((root ++ chars "/bin") ++ slash :: name) =? 0)%nat = false) as ->.
  { apply Nat.eqb_neq. rewrite !length_app. simpl. lia. }
  rewrite (proj2 (Z.leb_gt _ _) Hlen). simpl orb. cbv iota.
  assert (normal w (root ++ chars "/bin")) as Hn'.
  { apply (normal_take w _ (length (root ++ chars "/bin"))) in Hn.
    by rewrite take_app_length in Hn. }
  assert (is_drive w (root ++ chars "/bin") = false) as Hd'.
  { unfold is_drive. destruct w; [|done]. destruct root as [|? [|? ?]]; simpl; try done.
    by rewrite length_app, Nat.add_comm. }
  rewrite parent_of by done. unfold folder. rewrite decide_False, Hd' by by destruct root.
  rewrite bool_decide_true by done. cbn [negb].
  change (root ++ chars "/bin") with (root ++ slash :: chars "bin").
  change (normal w (root ++ slash :: chars "bin")) in Hn'.
  rewrite strrchr_app by (vm_compute; set_solver).
  assert (drop (length root + 1) (root ++ slash :: chars "bin") = chars "bin") as ->.
  { rewrite <-drop_drop, drop_app_length. done. }
  rewrite bool_decide_true by done. cbn [negb].
  rewrite parent_of by (done || (vm_compute; set_solver)). unfold folder. rewrite Hd.
  by rewrite bool_decide_true.
Qed.

Lemma install_root_length w exe capacity root :
  skyuv_find_install_root w exe capacity = Some root → Z.of_nat (length root) < capacity.
Proof.
  unfold skyuv_find_install_root. destruct exe as [r exe].
  destruct (bool_decide (r = UV_OK)); [|done]. destruct (length exe =? 0)%nat; [done|].
  destruct (Z.leb_spec capacity (Z.of_nat (length exe))); [done|]. simpl.
  pose proof (parent_length w exe). destruct (skyuv_path_parent w exe) as [r1 p].
  destruct (bool_decide (r1 = UV_OK)); [|done]. simpl.
  destruct (strrchr p slash); [|done]. destruct (bool_decide _); [|done]. simpl.
  pose proof (parent_length w p). destruct (skyuv_path_parent w p) as [r2 p'].
  destruct (bool_decide _); [|done]. intros [= <-]. simpl in *. lia.
Qed.

Lemma parent_normal w p q :
  normal w p → skyuv_path_parent w p = (UV_OK, q) → normal w q.
Proof.
  intros Hn Hq. destruct (decide (q = p)) as [->|Hne]; [done|].
  by apply (parent_shorter w p q).
Qed.

Lemma folder_bin w dir l : folder w dir = l ++ slash :: chars "bin" → dir = folder w dir.
Proof.
  unfold folder. intros E. case_decide as He.
  { by destruct l as [|? [|]]. }
  destruct (is_drive w dir); [|done]. exfalso.
  change (l ++ slash :: chars "bin") with (l ++ chars "/bi" ++ ["n"%char]) in E.
  rewrite (assoc_L (++)) in E. apply app_inj_tail in E as [_ ?]. done.
Qed.

Lemma install_root_inv w exe capacity root :
  normal w exe → skyuv_find_install_root w (UV_OK, exe) capacity = Some root →
  Z.of_nat (length exe) < capacity ∧
  ∃ dir name, exe = dir ++ chars "/bin/" ++ name ∧ slash ∉ name ∧ root = folder w dir.
Proof.
  intros Hn. unfold skyuv_find_install_root. rewrite bool_decide_true by done. cbn [negb orb].
  destruct (length exe =? 0)%nat; [done|]. destruct (Z.leb_spec capacity (Z.of_nat (length exe))); [done|].
  cbn [orb]. destruct (skyuv_path_parent w exe) as [r p] eqn:Hp.
  case_bool_decide as Hr; cbn [negb]; [subst r|done].
  pose proof (parent_normal w exe p Hn Hp) as Hnp.
  destruct (parent_inv w exe p Hn Hp) as (dir & name & -> & Hs & Eq).
  destruct (strrchr p slash) as [i|] eqn:Hi; [|done].
  case_bool_decide as Hbin; cbn [negb]; [|done].
  apply strrchr_Some in Hi as (l & r & Hlr & <- & Hr).
  assert (r = chars "bin") as ->.
  { rewrite Hlr, <-drop_drop, drop_app_length in Hbin. done. }
  rewrite Hlr in Hnp |- *. rewrite parent_of, bool_decide_true by done. intros [= <-].
  split; [done|]. exists l, name. split_and!; [|done|done].
  rewrite (folder_bin w dir l) by congruence. rewrite <-Eq, Hlr. by rewrite <-(assoc_L (++)).
Qed.

(** ** Creating directories *)

Section mkdir.
Context {ST : Type} {FS : FileSystem ST} (w : bool).

Definition is_directory (s : ST) (path : text) : Prop := fs_stat path s = (UV_OK, true).

(** What POSIX and Windows say of making a directory while other processes make and
    remove directories.  What they do up to the end of a call is part of the call;
    [removals] bounds the removals that are still to come.  Success means that the
    directory is there; a directory goes away, or is missing although it was there
    before the call, only by a removal. *)
Class MkdirLaws (removals : ST → nat) : Prop := {
  mkdir_removals path s : (removals (fs_mkdir path s).2 ≤ removals s)%nat;
  mkdir_keeps path s q :
    removals (fs_mkdir path s).2 = removals s → is_directory s q →
    is_directory (fs_mkdir path s).2 q;
  mkdir_makes path s : (fs_mkdir path s).1 = UV_OK → is_directory (fs_mkdir path s).2 path;
  mkdir_missing path parent s :
    (fs_mkdir path s).1 = UV_ENOENT → skyuv_path_parent w path = (UV_OK, parent) →
    parent ≠ path → is_directory s parent → (removals (fs_mkdir path s).2 < removals s)%nat;
}.

Context (removals : ST → nat) {laws : MkdirLaws removals}.

(** A call returns; on success the path is a directory, and what was a directory
    stays one unless somebody removes directories. *)
Definition mkdir_done (path : text) (s : ST) (r : uv_code) (s' : ST) : Prop :=
  (r = UV_OK → is_directory s' path) ∧ (removals s' ≤ removals s)%nat ∧
  (removals s' = removals s → ∀ q, is_directory s q → is_directory s' q).

Lemma mkdir_done_trans path q s r s1 r' s2 :
  mkdir_done q s r s1 → mkdir_done path s1 r' s2 → mkdir_done path s r' s2.
Proof.
  intros (_ & L1 & K1) (H2 & L2 & K2). split_and!; [done|lia|].
  intros E p Hp. apply K2; [lia|]. apply K1; [lia|done].
Qed.

(** One call of the system. *)
Lemma mkdir_call path s r s1 :
  fs_mkdir path s = (r, s1) → mkdir_done path s r s1.
Proof.
  intros E. pose proof (mkdir_keeps path s) as Hk. pose proof (mkdir_makes path s) as Hm.
  pose proof (mkdir_removals path s) as Hr. rewrite E in *. simpl in *. split_and!; auto.
Qed.

Definition parent_there (path : text) (s : ST) : Prop :=
  ∃ parent, skyuv_path_parent w path = (UV_OK, parent) ∧ parent ≠ path ∧ is_directory s parent.

(** The nested calls that are enough: fewer if the parent is there. *)
Definition mkdir_depth (path : text) (s : ST) (fuel : nat) : Prop :=
  (removals s * (length path + 3) + 1 ≤ fuel)%nat ∧
  (parent_there path s ∨ (removals s + 1) * (length path + 3) ≤ fuel)%nat.

Lemma mkdir_terminates_aux fuel path s :
  normal w path → mkdir_depth path s fuel →
  wp (skyuv_path_mkdir w fuel path) (mkdir_done path s) s.
Proof.
  revert path s. induction fuel as [|fuel IH]; intros path s Hn [Hf1 Hf2]; [lia|]. simpl.
  apply wp_bind. unfold wp at 1. destruct (fs_mkdir path s) as [r s1] eqn:E. simpl.
  pose proof (mkdir_call _ _ _ _ E) as Hcall. destruct Hcall as (Hmake & Hle & Hkeep).
  destruct (decide (r = UV_EEXIST)) as [->|].
  { apply wp_bind, wp_gets. destruct (fs_stat path s1) as [r' d] eqn:Es. apply wp_ret.
    split; [|done]. case_bool_decide as Hr; simpl; [subst r'|done]. by destruct d. }
  destruct (decide (r ≠ UV_ENOENT)) as [|Hr]; [by apply wp_ret|].
  apply dec_stable in Hr. subst r.
  destruct (SKYUV_RUNTIME_PATH_CAPACITY <=? Z.of_nat (length path)); [by apply wp_ret|].
  destruct (skyuv_path_parent w path) as [r1 parent] eqn:Hp.
  case_bool_decide as Hr1; simpl; [subst r1|by apply wp_ret].
  case_bool_decide as Hpp; [by apply wp_ret|].
  destruct (parent_shorter w path parent Hn Hp Hpp) as [Hn' Hlt].
  assert ((removals s1 < removals s)%nat ∨ (removals s + 1) * (length path + 3) ≤ S fuel)%nat
    as Hfuel.
  { destruct Hf2 as [(q & Hq & Hne & Hdir)|]; [|by right]. left.
    pose proof (mkdir_missing path q s) as Hmiss. rewrite E, Hq in Hmiss. auto. }
  apply wp_bind. eapply wp_mono; [apply IH; [done|]|].
  { split; [|right]; destruct Hfuel; nia. }
  intros r2 s2 (Hmade & Hle2 & Hkept).
  assert (mkdir_done path s r2 s2 ∨ r2 = UV_OK) as Hd.
  { destruct (decide (r2 = UV_OK)) as [->|]; [by right|left].
    split_and!; [done|lia|]. intros Eq q Hq. apply Hkept, Hkeep; lia || done. }
  destruct (decide (r2 ≠ UV_OK)) as [|Hr2]; [apply wp_ret; by destruct Hd|].
  apply dec_stable in Hr2. eapply wp_mono; [apply IH; [done|]|].
  { split; [destruct Hfuel; nia|]. left. exists parent. auto. }
  intros r3 s3 H3. eapply mkdir_done_trans; [|exact H3].
  eapply mkdir_done_trans; [apply (mkdir_call _ _ _ _ E)|]. by split_and!.
Qed.

Lemma mkdir_terminates fuel path s :
  normal w path → ((removals s + 1) * (length path + 3) ≤ fuel)%nat →
  wp (skyuv_path_mkdir w fuel path) (mkdir_done path s) s.
Proof.
  intros Hn Hf. apply mkdir_terminates_aux; [done|]. split; [nia|by right].
Qed.

End mkdir.

(** ** Absolute paths *)

Lemma fits_Some w capacity out code o :
  fits w capacity out = (code, Some o) →
  code = UV_OK ∧ o = normalize_separators w out ∧ Z.of_nat (length out) < capacity.
Proof. unfold fits. destruct (Z.leb_spec capacity (Z.of_nat (length out))); naive_solver. Qed.

(** A path that does not depend on where the process is. *)
Definition fixed (w : bool) (path : text) : Prop :=
  if w then
    is_separator (char_at path 0) = true ∧ is_separator (char_at path 1) = true ∨
    char_at path 0 ≠ zero ∧ char_at path 1 = colon ∧ is_separator (char_at path 2) = true
  else char_at path 0 = slash.

Lemma char_at_normalize w p i : char_at (normalize_separators w p) i =
  if w then (if Ascii.eqb (char_at p i) backslash then slash else char_at p i) else char_at p i.
Proof.
  unfold normalize_separators, char_at. destruct w; [|done].
  revert i. induction p as [|c p IH]; intros [|i]; simpl; try done.
Qed.

Lemma is_separator_normalize (w : bool) (c : ascii) : is_separator c = true →
  is_separator (if w then (if Ascii.eqb c backslash then slash else c) else c) = true.
Proof. intros Hc. destruct w; [|done]. by destruct (Ascii.eqb c backslash). Qed.

Lemma char_at_app (p q : text) i : (i < length p)%nat → char_at (p ++ q) i = char_at p i.
Proof. intros. unfold char_at. by apply app_nth1. Qed.

Lemma char_at_length (p : text) i : char_at p i ≠ zero → (i < length p)%nat.
Proof.
  intros H. apply Nat.nle_gt. intros Hle. apply H. unfold char_at. by apply nth_overflow.
Qed.

(** Extending a fixed path keeps it fixed. *)
Lemma fixed_app w (p q : text) : fixed w p → fixed w (p ++ q).
Proof.
  unfold fixed. destruct w.
  - intros [[H0 H1]|(H0 & H1 & H2)].
    + left. rewrite !char_at_app; try done; apply char_at_length; intros E;
        [rewrite E in H1|rewrite E in H0]; by vm_compute in H0, H1.
    + right. rewrite !char_at_app; try done; apply char_at_length; intros E;
        [rewrite E in H2|rewrite E in H1|]; done.
  - intros H0. rewrite char_at_app; [done|]. apply char_at_length. by rewrite H0.
Qed.

Lemma fixed_normalize w p : fixed w p → fixed w (normalize_separators w p).
Proof.
  unfold fixed. rewrite !char_at_normalize. destruct w; [|done].
  intros [[H0 H1]|(H0 & H1 & H2)].
  - left. split; by apply (is_separator_normalize true).
  - right. rewrite H1. split_and!; [by destruct (Ascii.eqb _ _)|done|].
    by apply (is_separator_normalize true).
Qed.

Lemma eqb_false_ne (x y : ascii) : Ascii.eqb x y = false → x ≠ y.
Proof. apply Ascii.eqb_neq. Qed.

(** The cases of [skyuv_path_absolute] in which it fills the buffer. *)
Lemma absolute_fixed w base path capacity code o :
  skyuv_path_absolute w base path capacity = (code, Some o) → fixed w base → fixed w o.
Proof.
  unfold skyuv_path_absolute. cbv zeta. intros E Hbase. destruct w; cbn [andb] in E.
  - destruct (negb (Ascii.eqb (char_at path 0) zero) && Ascii.eqb (char_at path 1) colon &&
      negb (skyuv_path_is_absolute true path)) eqn:Hrel; [done|].
    destruct (is_separator (char_at path 0) && negb (is_separator (char_at path 1))) eqn:Hroot.
    + apply andb_true_iff in Hroot as [H0 _].
      destruct (Ascii.eqb (char_at base 0) zero) eqn:Hb0; [done|]. cbn [orb] in E.
      destruct (Ascii.eqb (char_at base 1) colon); cbn [negb] in E; [|done].
      apply fits_Some in E as (_ & -> & _). apply eqb_false_ne in Hb0.
      right. rewrite !char_at_normalize. split_and!.
      * change (char_at (char_at base 0 :: colon :: path) 0) with (char_at base 0).
        by destruct (Ascii.eqb (char_at base 0) backslash).
      * done.
      * change (char_at (char_at base 0 :: colon :: path) 2) with (char_at path 0).
        by apply (is_separator_normalize true).
    + destruct (Ascii.eqb (char_at path 0) zero) eqn:Hz; [done|].
      apply fits_Some in E as (_ & -> & _). apply fixed_normalize.
      destruct (skyuv_path_is_absolute true path) eqn:Habs; [|by apply fixed_app].
      unfold skyuv_path_is_absolute in Habs. fold (is_separator (char_at path 0)) in Habs.
      fold (is_separator (char_at path 2)) in Habs. rewrite Hz in Habs. cbn [negb andb] in Habs.
      apply orb_true_iff in Habs as [Hsep|[Hc Hs]%andb_true_iff].
      * left. rewrite Hsep in Hroot. by destruct (is_separator (char_at path 1)).
      * right. split_and!; [by apply eqb_false_ne|by apply Ascii.eqb_eq|done].
  - destruct (Ascii.eqb (char_at path 0) zero); [done|].
    apply fits_Some in E as (_ & -> & _). simpl.
    unfold skyuv_path_is_absolute. destruct (Ascii.eqb_spec (char_at path 0) slash); [done|].
    by apply (fixed_app false).
Qed.

(** *** What resolving a path means *)

(** A path that is taken relative to the base. *)
Definition relative (w : bool) (path : text) : Prop :=
  char_at path 0 ≠ zero ∧ char_at path 0 ≠ slash ∧
  (w = true → char_at path 0 ≠ backslash ∧ char_at path 1 ≠ colon).

(** Absolute paths are taken as they are, one without a drive is on the drive of
    the base, and relative ones are below the base. *)
Inductive resolves (w : bool) (base path : text) : text → Prop :=
| resolves_absolute : w = false → char_at path 0 = slash → resolves w base path path
| resolves_network : w = true → is_separator (char_at path 0) = true →
    is_separator (char_at path 1) = true → resolves w base path path
| resolves_drive : w = true → char_at path 0 ≠ zero → is_separator (char_at path 0) = false →
    char_at path 1 = colon → is_separator (char_at path 2) = true → resolves w base path path
| resolves_rooted drive : w = true → is_separator (char_at path 0) = true →
    is_separator (char_at path 1) = false →
    char_at base 0 = drive → drive ≠ zero → char_at base 1 = colon →
    resolves w base path (drive :: colon :: path)
| resolves_relative : relative w path → resolves w base path (base ++ slash :: path).

Definition resolved (w : bool) (base path out : text) : Prop :=
  ∃ p, resolves w base path p ∧ out = normalize_separators w p ∧
    Z.of_nat (length out) < SKYUV_RUNTIME_PATH_CAPACITY.

Lemma separator_false c : is_separator c = false ↔ c ≠ slash ∧ c ≠ backslash.
Proof.
  unfold is_separator. rewrite orb_false_iff, !Ascii.eqb_neq. done.
Qed.

Lemma absolute_resolved w base path code out :
  skyuv_path_absolute w base path SKYUV_RUNTIME_PATH_CAPACITY = (code, Some out) →
  code = UV_OK ∧ resolved w base path out ∧
  (skyuv_path_is_absolute w path = false → relative w path).
Proof.
  unfold skyuv_path_absolute. cbv zeta. intros E.
  assert (∀ p, fits w SKYUV_RUNTIME_PATH_CAPACITY p = (code, Some out) → resolves w base path p →
    code = UV_OK ∧ resolved w base path out) as Hfits.
  { intros p (-> & -> & Hlen)%fits_Some Hp. split; [done|]. exists p.
    by rewrite normalize_length. }
  destruct w; cbn [andb] in E.
  - assert (skyuv_path_is_absolute true path = is_separator (char_at path 0) ||
      ((negb (Ascii.eqb (char_at path 0) zero) && Ascii.eqb (char_at path 1) colon) &&
       is_separator (char_at path 2))) as Ha by done.
    destruct (is_separator (char_at path 0)) eqn:Hs0.
    + rewrite Ha in E |- *. cbn [orb negb andb] in E. rewrite !andb_false_r in E.
      destruct (is_separator (char_at path 1)) eqn:Hs1; cbn [negb] in E.
      * destruct (Ascii.eqb (char_at path 0) zero); [done|].
        split_and!; [..|done]; by apply (Hfits path); [|apply resolves_network].
      * destruct (Ascii.eqb_spec (char_at base 0) zero); [done|]. cbn [orb] in E.
        destruct (Ascii.eqb_spec (char_at base 1) colon); [|done]. cbn [negb] in E.
        split_and!; [..|done]; by eapply Hfits; [|apply resolves_rooted].
    + cbn [andb orb] in *. destruct (Ascii.eqb_spec (char_at path 0) zero) as [|Hz]; cbn [negb andb] in *.
      { done. }
      destruct (Ascii.eqb_spec (char_at path 1) colon) as [Hc|Hc]; cbn [andb] in *; rewrite Ha in *.
      * destruct (is_separator (char_at path 2)) eqn:Hs2; cbn [negb] in E; [|done].
        split_and!; [..|done]; by apply (Hfits path); [|apply resolves_drive].
      * apply separator_false in Hs0 as [? ?]. assert (relative true path) by done.
        split_and!; [..|done];
          by apply (Hfits (base ++ slash :: path)); [|apply resolves_relative].
  - destruct (Ascii.eqb_spec (char_at path 0) zero) as [|Hz]; [done|].
    unfold skyuv_path_is_absolute in *. cbv iota zeta in *.
    destruct (Ascii.eqb_spec (char_at path 0) slash) as [Hs|Hs].
    + split_and!; [..|done]; by apply (Hfits path); [|apply resolves_absolute].
    + assert (relative false path) by done.
      split_and!; [..|done]; by apply (Hfits (base ++ slash :: path)); [|apply resolves_relative].
Qed.

(** A path from the root, or from that of a drive on Windows. *)
Definition anchored (w : bool) (p : text) : Prop :=
  if w then char_at p 0 ≠ zero ∧ is_separator (char_at p 0) = false ∧ char_at p 1 = colon ∧
            is_separator (char_at p 2) = true
  else char_at p 0 = slash.

Lemma folder_anchored w before rest :
  anchored w (before ++ slash :: rest) → anchored w (folder w before).
Proof.
  unfold anchored, folder. destruct w.
  - destruct before as [|c [|c' [|c'' before]]]; intros (H1 & H2 & H3 & H4); try done.
    change (c' = colon) in H3. subst c'. rewrite decide_False by done.
    by split_and!.
  - intros H. destruct before as [|c before]; [done|]. by rewrite decide_False.
Qed.

Lemma anchored_normalize w p : anchored w p → anchored w (normalize_separators w p).
Proof.
  unfold anchored. rewrite !char_at_normalize. destruct w; [|done]. intros (H1 & H2 & H3 & H4).
  apply separator_false in H2 as [H2 H2']. rewrite (proj2 (Ascii.eqb_neq _ _) H2').
  split_and!; [done|by apply separator_false| |by apply (is_separator_normalize true)].
  by rewrite H3.
Qed.

Lemma find_normalize w exe capacity :
  skyuv_find_install_root w (UV_OK, exe) capacity =
  skyuv_find_install_root w (UV_OK, normalize_separators w exe) capacity.
Proof.
  unfold skyuv_find_install_root. rewrite normalize_length.
  assert (skyuv_path_parent w (normalize_separators w exe) = skyuv_path_parent w exe) as ->; [|done].
  pose proof (normalize_normal w exe) as Hn. unfold normal in Hn. unfold skyuv_path_parent.
  cbv zeta. by rewrite !Hn.
Qed.

(** The installation root: for the path of an executable [DIR/bin/NAME] with
    either separator it is [DIR], or the root directory if [DIR] is empty; for
    any other path, or one that does not fit, there is none. *)
Theorem install_root_roundtrip w exe capacity :
  let path := normalize_separators w exe in
  (∀ dir name, path = dir ++ chars "/bin/" ++ name → slash ∉ name → is_drive w dir = false →
     Z.of_nat (length exe) < capacity →
     skyuv_find_install_root w (UV_OK, exe) capacity =
       Some (if decide (dir = []) then [slash] else dir)) ∧
  (∀ root, skyuv_find_install_root w (UV_OK, exe) capacity = Some root →
     Z.of_nat (length exe) < capacity ∧
     ∃ dir name, path = dir ++ chars "/bin/" ++ name ∧ slash ∉ name ∧ root = folder w dir).
Proof.
  intros path. rewrite find_normalize, <-(normalize_length w exe). fold path.
  pose proof (normalize_normal w exe) as Hn. fold path in Hn. split.
  - intros dir name E Hs Hd Hlen. rewrite E in *. by apply install_root_found.
  - intros root Hroot. by eapply install_root_inv.
Qed.

(** C25 Resolving a path against a base: the result fits into the buffer with its
    terminator, does not depend on the working directory or the current drive if
    the base does not, and has no backslashes on Windows; on POSIX it is the path
    itself if that is absolute and base/path otherwise, and the only refusals are
    the empty path and the lack of room. *)
Theorem absolute_path_correct w base path capacity code out :
  skyuv_path_absolute w base path capacity = (code, out) →
  (code = UV_OK ↔ is_Some out) ∧
  (∀ o, out = Some o → Z.of_nat (length o) < capacity ∧ normal w o ∧
     (fixed w base → fixed w o)) ∧
  (w = false → char_at path 0 ≠ zero →
     let o := if Ascii.eqb (char_at path 0) slash then path else base ++ slash :: path in
     (code, out) = if capacity <=? Z.of_nat (length o) then (UV_ENAMETOOLONG, None)
                   else (UV_OK, Some o)) ∧
  (w = false → path = [] → (code, out) = (UV_EINVAL, None)).
Proof.
  intros E. split_and!.
  - revert E. unfold skyuv_path_absolute, fits. repeat case_match; intros [= <- <-]; split;
      try done; try (by intros [? ?]); eauto.
  - intros o ->. split_and!; [| |by intros; eapply absolute_fixed].
    + revert E. unfold skyuv_path_absolute. repeat case_match; try done;
        intros (_ & -> & ?)%fits_Some; by rewrite normalize_length.
    + revert E. unfold skyuv_path_absolute. repeat case_match; try done;
        intros (_ & -> & _)%fits_Some; apply normalize_normal.
  - intros -> Hz o. rewrite <-E. unfold skyuv_path_absolute. cbn [andb].
    apply Ascii.eqb_neq in Hz. rewrite Hz. done.
  - intros -> ->. by rewrite <-E.
Qed.

Lemma absolute_path_correct_witness :
  skyuv_path_absolute true (chars "D:/app/etc") (chars "\log\skynet.log") 64 =
    (UV_OK, Some (chars "D:/log/skynet.log")) ∧ fixed true (chars "D:/log/skynet.log").
Proof.
  split; [reflexivity|].
  apply (absolute_path_correct true (chars "D:/app/etc") (chars "\log\skynet.log") 64 UV_OK
    (Some (chars "D:/log/skynet.log")) eq_refl); [reflexivity|].
  right. done.
Defined.

Lemma install_root_roundtrip_witness :
  skyuv_find_install_root false (UV_OK, chars "/opt/skyuv/bin/skynet") 4096 =
    Some (chars "/opt/skyuv").
Proof.
  apply (proj1 (install_root_roundtrip false (chars "/opt/skyuv/bin/skynet") 4096)
    (chars "/opt/skyuv") (chars "skynet")); try done.
  intros Hin. apply (bool_decide_unpack (¬ slash ∈ chars "skynet")); [by vm_compute|done].
Defined.

(** C26 Making a directory with its parents, while other processes make directories
    and remove at most a given number: it ends, after nested calls that are bounded
    by the length of the path and that number; if it reports success the path is a
    directory. *)
Theorem mkdir_makes_parents {ST} {FS : FileSystem ST} w removals fuel path s :
  MkdirLaws w removals → normal w path →
  ((removals s + 1) * (length path + 3) ≤ fuel)%nat →
  ∃ r s', skyuv_path_mkdir w fuel path s = Ret r s' ∧ (r = UV_OK → is_directory s' path).
Proof.
  intros laws Hn Hfuel. apply wp_Ret.
  eapply wp_mono; [by apply (mkdir_terminates w removals)|]. by intros r s' [H _].
Qed.

(** A file system of directories only, each created in an existing one, and the
    directories that another process will remove, one before each call. *)
Definition dirs := (list text * list text)%type.

Definition others_remove (s : dirs) : dirs :=
  match s.2 with
  | [] => s
  | d :: rest => (filter (λ q, q ≠ d) s.1, rest)
  end.

Definition dirs_fs : FileSystem dirs := {|
  fs_stat p s := if decide (p ∈ s.1) then (UV_OK, true) else (UV_ENOENT, false);
  fs_realpath p s := (UV_OK, p);
  fs_mkdir p s :=
    let s := others_remove s in
    if decide (p ∈ s.1) then (UV_EEXIST, s)
    else if decide ((skyuv_path_parent false p).2 ∈ s.1) then (UV_OK, (p :: s.1, s.2))
    else (UV_ENOENT, s)
|}.

Definition dirs_removals (s : dirs) : nat := length s.2.

Lemma dirs_fs_laws : @MkdirLaws dirs dirs_fs false dirs_removals.
Proof.
  assert (∀ s p, @is_directory _ dirs_fs s p ↔ p ∈ s.1) as Hdir.
  { intros s p. unfold is_directory. simpl. case_decide; naive_solver. }
  assert (∀ s, (dirs_removals (others_remove s) ≤ dirs_removals s)%nat ∧
    (dirs_removals (others_remove s) = dirs_removals s → others_remove s = s)) as Hrem.
  { intros [ds [|d rest]]; unfold others_remove, dirs_removals; simpl; [done|].
    split; [lia|]. intros E. exfalso. lia. }
  split.
  - intros path s. destruct (Hrem s). simpl. by repeat case_decide.
  - intros path s q E. rewrite !Hdir. destruct (Hrem s) as [_ Hs]. simpl in *.
    repeat case_decide; simpl in *; (rewrite Hs by done); set_solver.
  - intros path s. rewrite Hdir. simpl. repeat case_decide; simpl; try done. set_solver.
  - intros path parent s Hr Hp Hne. rewrite Hdir. destruct (Hrem s) as [Hle Hs]. simpl in *.
    rewrite Hp in *. repeat case_decide; try done. simpl. intros Hin.
    destruct (decide (dirs_removals (others_remove s) = dirs_removals s)) as [E|]; [|lia].
    by rewrite (Hs E) in *.
Qed.

Lemma mkdir_makes_parents_witness :
  ∃ r s', @skyuv_path_mkdir false dirs dirs_fs 40 (chars "/var/run/skyuv")
      ([chars "/"; chars "/var"], [chars "/var"]) = Ret r s' ∧
    (r = UV_OK → @is_directory _ dirs_fs s' (chars "/var/run/skyuv")).
Proof.
  apply (@mkdir_makes_parents dirs dirs_fs false dirs_removals 40 (chars "/var/run/skyuv")
    ([chars "/"; chars "/var"], [chars "/var"]) dirs_fs_laws eq_refl).
  vm_compute. lia.
Defined.

(** With the parent removed at the third call it is made again. *)
Example mkdir_run :
  @skyuv_path_mkdir false dirs dirs_fs 20 (chars "/var/run")
      ([chars "/"], [chars "/x"; chars "/x"; chars "/var"]) =
    Ret UV_OK ([chars "/var/run"; chars "/var"; chars "/"], []).
Proof. vm_compute. reflexivity. Qed.
