(* ===== verification/Launcher.v ===== *)
(** * The launcher (src/src/runtime/launcher.c)

    [main] with and without --runtime-paths: the arguments, the roots, and what
    Skynet is started with. *)
From S2P Require Import Prelude Paths PathProperties.

(** ** The arguments *)

(** [struct skyuv_runtime_paths]. *)
Record skyuv_runtime_paths := RuntimePaths {
  rp_enabled : bool;
  rp_install_root : text;
  rp_config_file : text;
  rp_config_root : text;
  rp_log_root : option text;
  rp_run_root : option text;
}.

Definition no_runtime_paths : skyuv_runtime_paths := RuntimePaths false [] [] [] None None.

Definition dash : ascii := "-"%char.

(** What the loop over the arguments collects. *)
Record options := Options {
  opt_install : option text;
  opt_log : option text;
  opt_run : option text;
}.

Definition eta_options (o : options) : options := Options (opt_install o) (opt_log o) (opt_run o).
#[export] Instance set_opt_install : Setter opt_install := ltac:(mk_setter eta_options).
#[export] Instance set_opt_log : Setter opt_log := ltac:(mk_setter eta_options).
#[export] Instance set_opt_run : Setter opt_run := ltac:(mk_setter eta_options).

Definition no_options : options := Options None None None.

(** The loop of [prepare_paths], on the arguments from the third on: [None] when
    it returns UV_EINVAL, else the configuration, if there was one, and the
    options. *)
Fixpoint parse_arguments (args : list text) (o : options) : option (option text * options) :=
  match args with
  | [] => Some (None, o)
  | a :: rest =>
      if bool_decide (a = chars "--") then
        match rest with
        | [config] => Some (Some config, o)
        | _ => None
        end
      else if negb (Ascii.eqb (char_at a 0) dash) then
        match rest with
        | [] => Some (Some a, o)
        | _ => None
        end
      else
        match rest with
        | [] => None
        | value :: rest =>
            if Ascii.eqb (char_at value 0) zero then None
            else if bool_decide (a = chars "--install-root") && bool_decide (opt_install o = None)
            then parse_arguments rest (o <| opt_install := Some value |>)
            else if bool_decide (a = chars "--log-root") && bool_decide (opt_log o = None)
            then parse_arguments rest (o <| opt_log := Some value |>)
            else if bool_decide (a = chars "--run-root") && bool_decide (opt_run o = None)
            then parse_arguments rest (o <| opt_run := Some value |>)
            else None
        end
  end.

(** ** The roots *)

(** What the process and libuv say: the working directory, the path of the
    executable, and whether a change of directory succeeds. *)
Class Platform := {
  uv_cwd : uv_code * text;
  uv_exepath : uv_code * text;
  uv_chdir : text → uv_code;
}.

Section launcher.
Context (win32 : bool) {ST : Type} {FS : FileSystem ST} {PL : Platform} (fs : ST).

(** The code, and the record when it is 0. *)
Definition prepare_paths (argv : list text) : uv_code * option skyuv_runtime_paths :=
  match parse_arguments (drop 2 argv) no_options with
  | None => (UV_EINVAL, None)
  | Some (config, o) =>
      match config with
      | None => (UV_EINVAL, None)
      | Some config =>
          if Ascii.eqb (char_at config 0) zero then (UV_EINVAL, None)
          else
            let '(result, working) := uv_cwd in
            if decide (result ≠ UV_OK) then (result, None)
            else
              let install :=
                match opt_install o with
                | Some install => skyuv_path_real win32 install SKYUV_RUNTIME_PATH_CAPACITY fs
                | None =>
                    match skyuv_find_install_root win32 uv_exepath SKYUV_RUNTIME_PATH_CAPACITY with
                    | Some root => (UV_OK, Some root)
                    | None => (UV_EINVAL, None)
                    end
                end in
              match install with
              | (_, Some install_root) =>
                  let found :=
                    match skyuv_path_absolute win32 working config SKYUV_RUNTIME_PATH_CAPACITY with
                    | (_, Some candidate) =>
                        if skyuv_path_exists candidate fs then (UV_OK, Some candidate)
                        else skyuv_path_absolute win32 install_root config
                               SKYUV_RUNTIME_PATH_CAPACITY
                    | (result, None) => (result, None)
                    end in
                  match found with
                  | (_, Some candidate) =>
                      match skyuv_path_real win32 candidate SKYUV_RUNTIME_PATH_CAPACITY fs with
                      | (_, Some config_file) =>
                          let '(result, config_root) := skyuv_path_parent win32 config_file in
                          if decide (result ≠ UV_OK) then (result, None)
                          else if decide (uv_chdir install_root ≠ UV_OK)
                          then (uv_chdir install_root, None)
                          else (UV_OK, Some (RuntimePaths true install_root config_file
                                               config_root (opt_log o) (opt_run o)))
                      | (result, None) => (result, None)
                      end
                  | (result, None) => (result, None)
                  end
              | (result, None) => (result, None)
              end
      end
  end.

(** How [main] ends: with an error, or in Skynet with arguments, the directory it
    changed to, and the record. *)
Inductive launch :=
| ExitFailure
| StartSkynet (arguments : list text) (directory : option text) (paths : skyuv_runtime_paths).

Definition main (argv : list text) : launch :=
  if (1 <? length argv)%nat && bool_decide (argv !! 1%nat = Some (chars "--runtime-paths")) then
    match prepare_paths argv with
    | (_, Some paths) =>
        StartSkynet [default [] (argv !! 0%nat); rp_config_file paths]
          (Some (rp_install_root paths)) paths
    | (_, None) => ExitFailure
    end
  else
    match argv !! 1%nat with
    | Some config =>
        if skyuv_path_exists config fs then StartSkynet argv None no_runtime_paths
        else
          match skyuv_find_install_root win32 uv_exepath SKYUV_RUNTIME_PATH_CAPACITY with
          | None => StartSkynet argv None no_runtime_paths
          | Some install_root =>
              let config_path := install_root ++ slash :: config in
              if (Z.of_nat (length config_path) <? SKYUV_RUNTIME_PATH_CAPACITY) &&
                 skyuv_path_exists config_path fs then
                if decide (uv_chdir install_root ≠ UV_OK) then ExitFailure
                else StartSkynet argv (Some install_root) no_runtime_paths
              else StartSkynet argv None no_runtime_paths
          end
    | None => StartSkynet argv None no_runtime_paths
    end.

End launcher.

(** ** The grammar of the arguments *)

Inductive option_key := InstallRoot | LogRoot | RunRoot.

#[export] Instance option_key_eq_dec : EqDecision option_key.
Proof. solve_decision. Defined.

Definition option_name (k : option_key) : text :=
  match k with
  | InstallRoot => chars "--install-root"
  | LogRoot => chars "--log-root"
  | RunRoot => chars "--run-root"
  end.

Definition option_value (k : option_key) (o : options) : option text :=
  match k with
  | InstallRoot => opt_install o
  | LogRoot => opt_log o
  | RunRoot => opt_run o
  end.

(** Options with their values, then the configuration; one that begins with a dash
    comes after "--". *)
Definition render (opts : list (option_key * text)) (config : text) (escaped : bool) : list text :=
  concat ((λ '(k, v), [option_name k; v]) <$> opts) ++
  (if escaped then [chars "--"; config] else [config]).

Fixpoint value_of (k : option_key) (opts : list (option_key * text)) : option text :=
  match opts with
  | [] => None
  | (k', v) :: opts => if decide (k = k') then Some v else value_of k opts
  end.

(** Each option at most once, no empty value. *)
Definition well_formed (opts : list (option_key * text)) (config : text) (escaped : bool) : Prop :=
  NoDup opts.*1 ∧ Forall (λ '(_, v), char_at v 0 ≠ zero) opts ∧
  (escaped = false → char_at config 0 ≠ dash).

Definition set_value (k : option_key) (v : text) (o : options) : options :=
  match k with
  | InstallRoot => o <| opt_install := Some v |>
  | LogRoot => o <| opt_log := Some v |>
  | RunRoot => o <| opt_run := Some v |>
  end.

Lemma option_value_set k k' v o :
  option_value k (set_value k' v o) = if decide (k = k') then Some v else option_value k o.
Proof. by destruct k, k'. Qed.

(** One option of the command line. *)
Lemma parse_option k v rest o :
  parse_arguments (option_name k :: v :: rest) o =
    if Ascii.eqb (char_at v 0) zero then None
    else if decide (option_value k o = None) then parse_arguments rest (set_value k v o) else None.
Proof.
  destruct k; simpl; destruct (Ascii.eqb (char_at v 0) zero); try done;
    (destruct (decide _) as [E|E]; [by rewrite bool_decide_true|by rewrite bool_decide_false]).
Qed.

(** An argument that begins with a dash and was accepted is an option. *)
Lemma parse_inv a v rest o r :
  a ≠ chars "--" → char_at a 0 = dash → parse_arguments (a :: v :: rest) o = Some r →
  ∃ k, a = option_name k.
Proof.
  intros Ha Hd. simpl. rewrite bool_decide_false by done. rewrite Hd. simpl.
  destruct (Ascii.eqb (char_at v 0) zero); [done|].
  case_bool_decide as H1; [by exists InstallRoot|]. simpl.
  case_bool_decide as H2; [by exists LogRoot|]. simpl.
  case_bool_decide as H3; [by exists RunRoot|done].
Qed.

(** What has been collected and what the options say together. *)
Definition collected (o : options) (opts : list (option_key * text)) (o' : options) : Prop :=
  (∀ k, k ∈ opts.*1 → option_value k o = None) ∧
  (∀ k, option_value k o' = match value_of k opts with
                            | Some v => Some v
                            | None => option_value k o
                            end).

Lemma value_of_None k opts : k ∉ opts.*1 → value_of k opts = None.
Proof.
  induction opts as [|[k' v] opts IH]; [done|]. simpl. rewrite not_elem_of_cons. intros [Hne Hk].
  rewrite decide_False by done. auto.
Qed.

Lemma collected_cons o k v opts o' :
  k ∉ opts.*1 → option_value k o = None →
  collected (set_value k v o) opts o' ↔ collected o ((k, v) :: opts) o'.
Proof.
  intros Hk Ho. unfold collected. setoid_rewrite option_value_set. split; intros [H1 H2]; split.
  - simpl. intros k'. rewrite elem_of_cons. intros [->|Hin]; [done|].
    specialize (H1 k' Hin). by destruct (decide (k' = k)) as [->|].
  - intros k'. rewrite H2, ?option_value_set. simpl. rewrite ?option_value_set.
    destruct (decide (k' = k)) as [->|]; [by rewrite value_of_None|done].
  - intros k' Hin. rewrite decide_False by congruence. apply H1. by right.
  - intros k'. rewrite H2, ?option_value_set. simpl. rewrite ?option_value_set.
    destruct (decide (k' = k)) as [->|]; [by rewrite value_of_None|done].
Qed.

Lemma options_ext o o' : (∀ k, option_value k o = option_value k o') → o = o'.
Proof.
  intros H. destruct o, o'. pose proof (H InstallRoot). pose proof (H LogRoot).
  pose proof (H RunRoot). simpl in *. congruence.
Qed.

(** The arguments of the grammar are accepted. *)
Lemma parse_render opts config escaped o o' :
  well_formed opts config escaped → collected o opts o' →
  parse_arguments (render opts config escaped) o = Some (Some config, o').
Proof.
  intros (Hnd & Hv & Hc). revert o. induction opts as [|[k v] opts IH]; intros o Hcol.
  - assert (o = o') as <- by (apply options_ext; symmetry; apply Hcol).
    unfold render. simpl. destruct escaped; simpl; [done|]. specialize (Hc eq_refl).
    rewrite bool_decide_false by (intros ->; by apply Hc).
    by rewrite (proj2 (Ascii.eqb_neq _ _) Hc).
  - simpl in Hnd. apply NoDup_cons in Hnd as [Hk Hnd]. apply Forall_cons in Hv as [Hv Hvs].
    assert (option_value k o = None) as Ho by (apply Hcol; by left).
    change (render ((k, v) :: opts) config escaped)
      with (option_name k :: v :: render opts config escaped).
    rewrite parse_option, (proj2 (Ascii.eqb_neq _ _) Hv), decide_True by done.
    apply IH; [done..|]. by apply collected_cons.
Qed.

(** Nothing else is. *)
Lemma parse_only n args o config o' :
  (length args ≤ n)%nat → parse_arguments args o = Some (Some config, o') →
  ∃ opts escaped, well_formed opts config escaped ∧ args = render opts config escaped ∧
    collected o opts o'.
Proof.
  assert (∀ o, collected o [] o) as Hnil.
  { intros o1. split; [by intros k ?%not_elem_of_nil|done]. }
  revert args o. induction n as [|n IH]; intros args o Hlen Hp.
  { destruct args; [done|simpl in Hlen; lia]. }
  destruct args as [|a rest]; [done|].
  destruct (decide (a = chars "--")) as [->|Ha].
  { simpl in Hp. destruct rest as [|c [|]]; try done. simplify_eq/=.
    exists [], true. split_and!; [|done|done]. split_and!; [constructor|constructor|done]. }
  destruct (decide (char_at a 0 = dash)) as [Hd|Hd].
  2: { simpl in Hp. rewrite bool_decide_false in Hp by done.
       rewrite (proj2 (Ascii.eqb_neq _ _) Hd) in Hp. destruct rest; [|done]. simplify_eq/=.
       exists [], false. split_and!; [|done|done]. split_and!; [constructor|constructor|done]. }
  destruct rest as [|v rest].
  { simpl in Hp. rewrite bool_decide_false in Hp by done. by rewrite Hd in Hp. }
  destruct (parse_inv a v rest o _ Ha Hd Hp) as [k ->]. rewrite parse_option in Hp.
  destruct (Ascii.eqb_spec (char_at v 0) zero) as [|Hv]; [done|].
  destruct (decide (option_value k o = None)) as [Hk|]; [|done].
  apply IH in Hp as (opts & escaped & (Hnd & Hvs & Hc) & -> & Hcol); [|simpl in *; lia].
  assert (k ∉ opts.*1) as Hnot.
  { intros Hin. apply (proj1 Hcol) in Hin. by rewrite option_value_set, decide_True in Hin. }
  exists ((k, v) :: opts), escaped. split_and!; [|done|by apply collected_cons].
  split_and!; [by apply NoDup_cons|by apply Forall_cons|done].
Qed.

(** C27 The command line: the arguments after --runtime-paths are accepted exactly
    if they are options, each at most once, in any order and with a value that is
    not empty, followed by the configuration file, which comes after "--" or does
    not begin with a dash; and then every option has the value it was given. *)
Theorem launcher_arguments args config o :
  parse_arguments args no_options = Some (Some config, o) ↔
  ∃ opts escaped, well_formed opts config escaped ∧ args = render opts config escaped ∧
    ∀ k, option_value k o = value_of k opts.
Proof.
  split.
  - intros Hp. destruct (parse_only _ args no_options config o (le_n _) Hp)
      as (opts & escaped & Hwf & -> & _ & Hcol).
    exists opts, escaped. split_and!; [done|done|]. intros k. rewrite Hcol.
    destruct (value_of k opts); [done|by destruct k].
  - intros (opts & escaped & Hwf & -> & Hval). apply parse_render; [done|].
    split; [by intros []|]. intros k. rewrite Hval. destruct (value_of k opts); [done|by destruct k].
Qed.

Section paths.
Context (win32 : bool) {ST : Type} {FS : FileSystem ST} {PL : Platform} (fs : ST).
Local Notation capacity := SKYUV_RUNTIME_PATH_CAPACITY.

Lemma path_real_Some path r out :
  skyuv_path_real win32 path capacity fs = (r, Some out) →
  Z.of_nat (length out) < capacity ∧ normal win32 out ∧
  ∃ x, fs_realpath path fs = (UV_OK, x) ∧ out = normalize_separators win32 x.
Proof.
  unfold skyuv_path_real. destruct (fs_realpath path fs) as [r' x]. case_decide; [|done].
  destruct (Z.leb_spec capacity (Z.of_nat (length x))); [done|]. intros [= <- <-]. subst r'.
  rewrite normalize_length. split_and!; [done|apply normalize_normal|eauto].
Qed.

(** The installation root: the directory that was given, without symbolic links,
    or the one that has the executable in its directory bin. *)
Definition root_from (given : option text) (root : text) : Prop :=
  match given with
  | Some d => ∃ x, fs_realpath d fs = (UV_OK, x) ∧ root = normalize_separators win32 x
  | None => ∃ exe dir name, uv_exepath = (UV_OK, exe) ∧ slash ∉ name ∧
              normalize_separators win32 exe = dir ++ chars "/bin/" ++ name ∧
              root = folder win32 dir
  end.

(** The configuration: the file named from the working directory if there is one,
    else the one named from the installation root. *)
Definition config_from (working install_root config candidate : text) : Prop :=
  ∃ here, resolved win32 working config here ∧
    ((fs_stat here fs).1 = UV_OK ∧ candidate = here ∨
     (fs_stat here fs).1 ≠ UV_OK ∧ resolved win32 install_root config candidate).

Lemma find_root_from root :
  skyuv_find_install_root win32 uv_exepath capacity = Some root →
  root_from None root ∧ Z.of_nat (length root) < capacity.
Proof.
  intros Hr. split; [|by eapply install_root_length].
  destruct uv_exepath as [r exe] eqn:Hexe. destruct (decide (r = UV_OK)) as [->|Hne].
  2: { unfold skyuv_find_install_root in Hr. by rewrite bool_decide_false in Hr. }
  destruct (proj2 (install_root_roundtrip win32 exe capacity) root Hr)
    as (_ & dir & name & Hp & Hs & ->).
  unfold root_from. by exists exe, dir, name.
Qed.

Lemma real_root_from d r root :
  skyuv_path_real win32 d capacity fs = (r, Some root) →
  root_from (Some d) root ∧ Z.of_nat (length root) < capacity.
Proof. intros (? & _ & ?)%path_real_Some. done. Qed.

(** Everything that has to hold for [prepare_paths] to succeed. *)
Lemma prepare_paths_inv argv r rp :
  prepare_paths win32 fs argv = (r, Some rp) →
  ∃ config o working candidate,
    parse_arguments (drop 2 argv) no_options = Some (Some config, o) ∧
    uv_cwd = (UV_OK, working) ∧ rp_log_root rp = opt_log o ∧ rp_run_root rp = opt_run o ∧
    (root_from (opt_install o) (rp_install_root rp) ∧
     Z.of_nat (length (rp_install_root rp)) < capacity) ∧
    config_from working (rp_install_root rp) config candidate ∧
    (∃ r, skyuv_path_real win32 candidate capacity fs = (r, Some (rp_config_file rp))) ∧
    skyuv_path_parent win32 (rp_config_file rp) = (UV_OK, rp_config_root rp) ∧
    uv_chdir (rp_install_root rp) = UV_OK.
Proof.
  unfold prepare_paths. destruct (parse_arguments _ _) as [[[config|] o]|]; try done.
  destruct (Ascii.eqb (char_at config 0) zero); [done|]. destruct uv_cwd as [rc working].
  case_decide as Hc; [done|]. subst rc.
  set (install := match opt_install o with Some _ => _ | None => _ end).
  destruct install as [ri [root|]] eqn:Hi; [|done]. cbv zeta.
  destruct (skyuv_path_absolute win32 working config capacity) as [ra [here|]] eqn:Ha; [|done].
  set (found := if skyuv_path_exists here fs then _ else _).
  destruct found as [rf [candidate|]] eqn:Hf; [|done].
  destruct (skyuv_path_real win32 candidate capacity fs) as [rr [file|]] eqn:Hr; [|done].
  destruct (skyuv_path_parent win32 file) as [rpar cr] eqn:Hpar.
  case_decide as H1; [done|]. subst rpar. case_decide as H2; [done|].
  intros [= <- <-]. exists config, o, working, candidate. simpl.
  assert (root_from (opt_install o) root ∧ Z.of_nat (length root) < capacity) as [Hroot Hlen].
  { unfold install in Hi. destruct (opt_install o); [by eapply real_root_from|].
    destruct (skyuv_find_install_root _ _ _) eqn:Hfind; [|done]. apply find_root_from. congruence. }
  split_and!; eauto. unfold found in Hf. unfold config_from.
  apply absolute_resolved in Ha as (_ & Ha & _). exists here. split; [done|].
  unfold skyuv_path_exists in Hf. case_bool_decide as He; [left; by simplify_eq|right].
  split; [done|]. by apply absolute_resolved in Hf as (_ & ? & _).
Qed.

(** The root of an installation is anchored if what the platform reports is. *)
Lemma root_anchored given root :
  (∀ p x, fs_realpath p fs = (UV_OK, x) → anchored win32 x) → anchored win32 uv_exepath.2 →
  root_from given root → anchored win32 root.
Proof.
  intros Hreal Hexe. destruct given as [d|]; simpl.
  - intros (x & Hx & ->). apply anchored_normalize. by eapply Hreal.
  - intros (exe & dir & name & E & _ & Hp & ->). rewrite E in Hexe.
    apply anchored_normalize in Hexe. simpl in Hexe. rewrite Hp in Hexe.
    by eapply folder_anchored.
Qed.

End paths.

(** C28 The roots: when the launcher starts Skynet with --runtime-paths, Skynet gets
    the name of the program and the configuration file.  The installation root is
    the directory that was given, without symbolic links, or the one that has the
    executable in its directory bin; the configuration is the file as named from
    the working directory if there is one, and else as named from the installation
    root, without symbolic links; its directory is the configuration root, the
    roots of logs and of run-time files are the options.  The three paths fit into
    their buffers, and the process is in the installation root.  If realpath and
    uv_exepath report paths from the root, or with a drive on Windows, so are the
    three paths. *)
Theorem launcher_roots {ST} {FS : FileSystem ST} {PL : Platform} win32 (fs : ST) argv args dir rp :
  main win32 fs argv = StartSkynet args dir rp → rp_enabled rp = true →
  args = [default [] (argv !! 0%nat); rp_config_file rp] ∧ dir = Some (rp_install_root rp) ∧
  uv_chdir (rp_install_root rp) = UV_OK ∧
  Forall (λ p, Z.of_nat (length p) < SKYUV_RUNTIME_PATH_CAPACITY)
    [rp_install_root rp; rp_config_file rp; rp_config_root rp] ∧
  directory_of win32 (rp_config_file rp) (rp_config_root rp) ∧
  (∃ opts escaped config working candidate x,
     drop 2 argv = render opts config escaped ∧ well_formed opts config escaped ∧
     uv_cwd = (UV_OK, working) ∧
     root_from win32 fs (value_of InstallRoot opts) (rp_install_root rp) ∧
     config_from win32 fs working (rp_install_root rp) config candidate ∧
     fs_realpath candidate fs = (UV_OK, x) ∧ rp_config_file rp = normalize_separators win32 x ∧
     rp_log_root rp = value_of LogRoot opts ∧ rp_run_root rp = value_of RunRoot opts) ∧
  ((∀ p x, fs_realpath p fs = (UV_OK, x) → anchored win32 x) → anchored win32 uv_exepath.2 →
   anchored win32 (rp_install_root rp) ∧ anchored win32 (rp_config_file rp) ∧
   anchored win32 (rp_config_root rp)).
Proof.
  unfold main. intros Hm Hen. destruct (_ && _); [|repeat case_match; by simplify_eq/=].
  destruct (prepare_paths win32 fs argv) as [r [rp'|]] eqn:Hp; [|done]. injection Hm as <- <- <-.
  apply prepare_paths_inv in Hp as (config & o & working & candidate & Hparse & Hcwd &
    Hlog & Hrun & [Hinst Hroot] & Hcand & [rr Hreal] & Hpar & Hch).
  destruct (path_real_Some _ _ _ _ _ Hreal) as (Hlen & Hnorm & x & Hx & Hfile).
  pose proof (parent_length win32 (rp_config_file rp')) as Hplen. rewrite Hpar in Hplen.
  pose proof (parent_inv _ _ _ Hnorm Hpar) as Hdir.
  destruct (parse_only _ _ no_options config o (le_n _) Hparse)
    as (opts & escaped & Hwf & Hren & _ & Hcol).
  assert (∀ k, option_value k o = value_of k opts) as Hval.
  { intros k. rewrite Hcol. by destruct (value_of k opts), k. }
  pose proof (Hval InstallRoot) as HI. pose proof (Hval LogRoot) as HL.
  pose proof (Hval RunRoot) as HR. simpl in HI, HL, HR.
  split_and!; try done.
  { repeat constructor; simpl in *; lia. }
  { exists opts, escaped, config, working, candidate, x. rewrite <-HI, <-HL, <-HR.
    by split_and!. }
  intros Habs Hexe. assert (anchored win32 (rp_config_file rp')) as Hfile0.
  { rewrite Hfile. apply anchored_normalize. by eapply Habs. }
  split_and!; [by eapply root_anchored|done|].
  destruct Hdir as (before & name & E & _ & ->). rewrite E in Hfile0. by eapply folder_anchored.
Qed.

(** A run: an installation under /opt/skyuv, started in /home/op. *)
Definition sample_fs : FileSystem unit := {|
  fs_stat p _ := if decide (p = chars "/opt/skyuv/etc/main.conf") then (UV_OK, false)
                 else (UV_ENOENT, false);
  fs_realpath p _ := (UV_OK, p);
  fs_mkdir p s := (UV_OTHER (-1), s)
|}.
Definition sample_platform : Platform := {|
  uv_cwd := (UV_OK, chars "/home/op");
  uv_exepath := (UV_OK, chars "/opt/skyuv/bin/skyuv");
  uv_chdir _ := UV_OK
|}.
Definition sample_argv : list text :=
  [chars "skyuv"; chars "--runtime-paths"; chars "--run-root"; chars "/run/skyuv";
   chars "etc/main.conf"].
Definition sample_paths : skyuv_runtime_paths :=
  RuntimePaths true (chars "/opt/skyuv") (chars "/opt/skyuv/etc/main.conf")
    (chars "/opt/skyuv/etc") None (Some (chars "/run/skyuv")).

Lemma launcher_roots_witness :
  @main false unit sample_fs sample_platform tt sample_argv =
    StartSkynet [chars "skyuv"; chars "/opt/skyuv/etc/main.conf"] (Some (chars "/opt/skyuv"))
      sample_paths ∧
  directory_of false (rp_config_file sample_paths) (rp_config_root sample_paths).
Proof.
  split; [reflexivity|].
  apply (@launcher_roots unit sample_fs sample_platform false tt sample_argv
    [chars "skyuv"; chars "/opt/skyuv/etc/main.conf"] (Some (chars "/opt/skyuv")) sample_paths
    eq_refl eq_refl).
Defined.
