(* ===== verification/Config.v ===== *)
(** * Loading the configuration (src/src/runtime/config.c)

    The Lua script leaves a table; with --runtime-paths the roots of logs and of
    run-time files are resolved, and the paths of the log and of the pid file are
    replaced by absolute ones.  Lua and the environment are parameters. *)
From S2P Require Import Prelude Paths PathProperties Launcher.

(** A value of the table; a string may contain zeros. *)
Inductive lua_value := LuaString (t : text) | LuaOther.

#[export] Instance lua_value_eq_dec : EqDecision lua_value.
Proof. solve_decision. Defined.

Notation table := (gmap string lua_value).

Definition LUA_OK : Z := 0.
Definition LUA_ERRRUN : Z := 2.

(** The text before the first zero. *)
Fixpoint c_text (t : text) : text :=
  match t with
  | [] => []
  | c :: t => if Ascii.eqb c zero then [] else c :: c_text t
  end.

(** The value as a C string, and whether it is valid. *)
Definition config_string (tbl : table) (key : string) : option text * bool :=
  match tbl !! key with
  | None => (None, true)
  | Some LuaOther => (None, false)
  | Some (LuaString t) => (Some (c_text t), bool_decide (length (c_text t) = length t))
  end.

Definition set_string (key : string) (value : text) (tbl : table) : table :=
  <[key := LuaString value]> tbl.

(** The environment of the process, and Lua: the result of loading the script and
    of calling it, with the table it returns. *)
Class ConfigEnv := {
  uv_os_getenv : string → uv_code * text;
  lua_load : bool → Z;
  lua_call : bool → text → table → Z * table;
}.

Section config.
Context (win32 : bool) {ST : Type} {FS : FileSystem ST} {CE : ConfigEnv}.
Context (paths : skyuv_runtime_paths).
Local Notation capacity := SKYUV_RUNTIME_PATH_CAPACITY.

Definition resolve_root (tbl : table) (option_ : option text) (environment key : string)
    (fallback : text) : uv_code * option text :=
  let from_config :=
    let '(value, valid) := config_string tbl key in
    if negb valid then (UV_EINVAL, None)
    else skyuv_path_absolute win32 (rp_config_root paths) (default fallback value) capacity in
  match option_ with
  | Some value => skyuv_path_absolute win32 (rp_config_root paths) value capacity
  | None =>
      let '(result, value) := uv_os_getenv environment in
      if decide (result = UV_OK) then
        skyuv_path_absolute win32 (rp_config_root paths) value capacity
      else if decide (result ≠ UV_ENOENT) then (result, None)
      else from_config
  end.

(** The state is that of the file system and the table. *)
Definition resolve_output (fuel : nat) (key : string) (root : text) (create_root : bool) :
    M (ST * table) uv_code :=
  '(value, valid) ← gets (λ s, config_string s.2 key);
  if negb valid then mret UV_EINVAL
  else
    match value with
    | None => mret UV_OK
    | Some value =>
        match skyuv_path_absolute win32 root value capacity with
        | (result, None) => mret result
        | (_, Some path) =>
            result ← (if create_root && negb (skyuv_path_is_absolute win32 value)
                      then zoom fst (λ fs s, (fs, s.2)) (skyuv_path_mkdir win32 fuel root)
                      else mret UV_OK);
            if decide (result ≠ UV_OK) then mret result
            else modify (λ s, (s.1, set_string key path s.2)) ;; mret UV_OK
        end
    end.

Definition put_string (key : string) (value : text) : M (ST * table) unit :=
  modify (λ s, (s.1, set_string key value s.2)).

(** [fuel] is for the directories that are made. *)
Definition skyuv_config_load (fuel : nat) (config_file : text) : M (ST * table) Z :=
  let result := lua_load (rp_enabled paths) in
  if negb (result =? LUA_OK) then mret result
  else
    let roots :=
      if rp_enabled paths then
        set_string "skyuv_config_root" (rp_config_root paths)
          (set_string "skyuv_install_root" (rp_install_root paths) ∅)
      else ∅ in
    let '(result, tbl) := lua_call (rp_enabled paths) config_file roots in
    modify (λ s, (s.1, tbl)) ;;
    if negb (result =? LUA_OK) || negb (rp_enabled paths) then mret result
    else
      match resolve_root tbl (rp_log_root paths) "SKYUV_LOG_ROOT" "skyuv_log_root" (chars "log") with
      | (_, None) => mret LUA_ERRRUN
      | (_, Some log_root) =>
          match resolve_root tbl (rp_run_root paths) "SKYUV_RUN_ROOT" "skyuv_run_root"
                  (chars "run") with
          | (_, None) => mret LUA_ERRRUN
          | (_, Some run_root) =>
              put_string "skyuv_install_root" (rp_install_root paths) ;;
              put_string "skyuv_config_root" (rp_config_root paths) ;;
              put_string "skyuv_log_root" log_root ;;
              put_string "skyuv_run_root" run_root ;;
              '(daemon, valid) ← gets (λ s, config_string s.2 "daemon");
              '(service, valid') ← gets (λ s, config_string s.2 "logservice");
              if negb (valid && valid') then mret LUA_ERRRUN
              else if bool_decide (daemon ≠ None) && negb (skyuv_daemon_supported win32)
              then mret LUA_ERRRUN
              else
                result ← (if bool_decide (service = None) ||
                             bool_decide (service = Some (chars "logger"))
                          then resolve_output fuel "logger" log_root true else mret UV_OK);
                result ← (if bool_decide (result = UV_OK) && bool_decide (daemon ≠ None)
                          then resolve_output fuel "daemon" run_root true else mret result);
                if decide (result ≠ UV_OK) then mret LUA_ERRRUN else mret LUA_OK
          end
      end.

End config.

(** ** What the roots and the outputs are *)










Section properties.
Context (win32 : bool) {ST : Type} {FS : FileSystem ST} {CE : ConfigEnv}.
Context (removals : ST → nat) {ML : MkdirLaws win32 removals}.
Context (paths : skyuv_runtime_paths).
Local Notation capacity := SKYUV_RUNTIME_PATH_CAPACITY.







Lemma config_string_set key k v tbl :
  k ≠ key → config_string (set_string k v tbl) key = config_string tbl key.
Proof. intros Hk. unfold config_string, set_string. by rewrite lookup_insert_ne. Qed.












End properties.


(** The configuration of the sample installation, with a relative log file. *)
Definition sample_config : ConfigEnv := {|
  uv_os_getenv _ := (UV_ENOENT, []);
  lua_load _ := LUA_OK;
  lua_call _ _ roots := (LUA_OK, <["logger" := LuaString (chars "skynet.log")]> roots)
|}.


Example config_run :
  match @skyuv_config_load false _ dirs_fs sample_config sample_paths 60
    (rp_config_file sample_paths) (([chars "/"; chars "/opt"], [chars "/opt"]), ∅) with
  | Ret r (fs, tbl) => r = LUA_OK ∧ head fs.1 = Some (chars "/opt/skyuv/etc/log") ∧
      tbl !! "logger" = Some (LuaString (chars "/opt/skyuv/etc/log/skynet.log"))
  | Fault _ => False
  end.
Proof. vm_compute. done. Qed.
