(* ===== verification/Daemon.v ===== *)
(** * The pid file of a daemon (src/src/platform/daemon.c)

    Processes that are started with the same pid file exclude each other by a lock
    on a second file, [<pidfile>.lock], which is never removed.  The functions are
    written as programs that make system calls: between two calls of one process
    any other process may make calls.  The operating system is the state of the
    files, the open files and the locks; each call may also fail, as the
    environment chooses. *)
From S2P Require Import Prelude Paths.

(** ** Files, open files, locks *)

(** An open file: its inode, the process that has it, the file offset. *)
Record open_file := OpenFile {
  of_inode : positive;
  of_process : positive;
  of_offset : nat;
}.

Record os := Os {
  os_dir : gmap string positive;           (** paths of the files there are *)
  os_content : gmap positive text;         (** by inode *)
  os_irregular : gset positive;            (** inodes that are no regular files *)
  os_open : gmap positive open_file;
  os_lock : gmap positive positive;        (** inode, the open file that locked it *)
  os_pid : gmap positive Z;                (** the process id of a process *)
  os_next : positive;                      (** above all inodes and open files *)
}.

Definition eta_os (s : os) : os :=
  Os (os_dir s) (os_content s) (os_irregular s) (os_open s) (os_lock s) (os_pid s) (os_next s).
#[export] Instance set_os_dir : Setter os_dir := ltac:(mk_setter eta_os).
#[export] Instance set_os_content : Setter os_content := ltac:(mk_setter eta_os).
#[export] Instance set_os_open : Setter os_open := ltac:(mk_setter eta_os).
#[export] Instance set_os_lock : Setter os_lock := ltac:(mk_setter eta_os).
#[export] Instance set_os_pid : Setter os_pid := ltac:(mk_setter eta_os).
#[export] Instance set_os_next : Setter os_next := ltac:(mk_setter eta_os).

(** ** System calls *)

Inductive error := EINTR | ENOENT | ESRCH | EWOULDBLOCK | EINVAL | EOTHER.

#[export] Instance error_eq_dec : EqDecision error.
Proof. solve_decision. Defined.

Inductive call :=
| Malloc
| Open (path : string)             (** O_RDWR | O_CREAT | O_NOFOLLOW *)
| Fstat (fd : positive)
| Lstat (path : string)
| SetCloexec (fd : positive)
| Flock (fd : positive)            (** LOCK_EX | LOCK_NB *)
| Close (fd : positive)
| Unlink (path : string)
| Read (fd : positive) (size : nat)
| Kill (pid : Z)                   (** signal 0 *)
| Atexit
| Getpid
| Ftruncate (fd : positive)        (** to 0 *)
| Lseek (fd : positive)            (** to 0, SEEK_SET *)
| Write (fd : positive) (data : text)
| Fsync (fd : positive)
| Fork                             (** daemon(1, 1): the child goes on *)
| OpenNull
| Dup2 (target : Z)
| CloseNull.

Inductive reply :=
| Failed (e : error)
| Succeeded
| Number (z : Z)
| Fd (fd : positive)
| Stat (inode : positive) (regular : bool)
| Data (t : text).

(** What the environment decides of a call: its failure, or how much a write
    writes, the new process id, the number of a descriptor. *)
Inductive choice := Fail (e : error) | Normal (n : Z).

Definition overwrite (off : nat) (data c : text) : text :=
  take off (c ++ replicate (off - length c) zero) ++ data ++ drop (off + length data) c.

Definition close_fd (fd : positive) (s : os) : os :=
  s <| os_lock ::= filter (λ '(_, o), o ≠ fd) |> <| os_open ::= delete fd |>.

Section exec.
Context (p : positive) (s : os).

(** A file that the process has open. *)
Definition own_file (fd : positive) : option open_file :=
  f ← os_open s !! fd; if bool_decide (of_process f = p) then Some f else None.

(** A call without a failure that the environment chose. *)
Definition exec_normal (c : call) (n : Z) : reply * os :=
  match c with
  | Open path =>
      match os_dir s !! path with
      | Some i =>
          (Fd (os_next s),
           s <| os_open ::= insert (os_next s) (OpenFile i p 0) |> <| os_next ::= Pos.succ |>)
      | None =>
          let fd := Pos.succ (os_next s) in
          (Fd fd,
           s <| os_dir ::= insert path (os_next s) |> <| os_content ::= insert (os_next s) [] |>
             <| os_open ::= insert fd (OpenFile (os_next s) p 0) |>
             <| os_next := Pos.succ fd |>)
      end
  | Fstat fd =>
      match own_file fd with
      | Some f => (Stat (of_inode f) (bool_decide (of_inode f ∉ os_irregular s)), s)
      | None => (Failed EOTHER, s)
      end
  | Lstat path =>
      match os_dir s !! path with
      | Some i => (Stat i (bool_decide (i ∉ os_irregular s)), s)
      | None => (Failed ENOENT, s)
      end
  | Flock fd =>
      match own_file fd with
      | Some f =>
          match os_lock s !! of_inode f with
          | Some o => if bool_decide (o = fd) then (Succeeded, s) else (Failed EWOULDBLOCK, s)
          | None => (Succeeded, s <| os_lock ::= insert (of_inode f) fd |>)
          end
      | None => (Failed EOTHER, s)
      end
  | Close fd =>
      match own_file fd with
      | Some f => (Succeeded, close_fd fd s)
      | None => (Failed EOTHER, s)
      end
  | Unlink path =>
      match os_dir s !! path with
      | Some i => (Succeeded, s <| os_dir ::= delete path |>)
      | None => (Failed ENOENT, s)
      end
  | Read fd size =>
      match own_file fd with
      | Some f =>
          let data := take size (drop (of_offset f) (default [] (os_content s !! of_inode f))) in
          (Data data,
           s <| os_open ::=
             insert fd (OpenFile (of_inode f) p (of_offset f + length data)) |>)
      | None => (Failed EOTHER, s)
      end
  | Getpid => (Number (default 0 (os_pid s !! p)), s)
  | Ftruncate fd =>
      match own_file fd with
      | Some f => (Succeeded, s <| os_content ::= insert (of_inode f) [] |>)
      | None => (Failed EOTHER, s)
      end
  | Lseek fd =>
      match own_file fd with
      | Some f => (Number 0, s <| os_open ::= insert fd (OpenFile (of_inode f) p 0) |>)
      | None => (Failed EOTHER, s)
      end
  | Write fd data =>
      match own_file fd with
      | Some f =>
          let part := take (Z.to_nat n) data in
          (Number (Z.of_nat (length part)),
           s <| os_content ::= insert (of_inode f)
                  (overwrite (of_offset f) part (default [] (os_content s !! of_inode f))) |>
             <| os_open ::= insert fd (OpenFile (of_inode f) p (of_offset f + length part)) |>)
      | None => (Failed EOTHER, s)
      end
  | Fork => (Succeeded, s <| os_pid ::= insert p n |>)
  | OpenNull => (Number n, s)
  | _ => (Succeeded, s)
  end.

(** [getpid] does not fail, and closing a file ends its use also when an error is
    reported. *)
Definition exec (c : call) (ch : choice) : reply * os :=
  match c, ch with
  | Getpid, _ => exec_normal Getpid 0
  | Close fd, Fail e => (Failed e, (exec_normal (Close fd) 0).2)
  | _, Fail e => (Failed e, s)
  | _, Normal n => exec_normal c n
  end.

End exec.

(** ** Programs *)

Inductive prog (A : Type) :=
| Done (a : A)
| Sys (c : call) (k : reply → prog A)
| Spin.   (** interrupted for ever *)
Arguments Done {A} _.
Arguments Sys {A} _ _.
Arguments Spin {A}.

#[export] Instance prog_ret : MRet prog := λ A a, Done a.
Fixpoint prog_bind_ {A B} (k : A → prog B) (m : prog A) : prog B :=
  match m with
  | Done a => k a
  | Sys c f => Sys c (λ r, prog_bind_ k (f r))
  | Spin => Spin
  end.
#[export] Instance prog_bind : MBind prog := λ A B, prog_bind_.

Definition sys (c : call) : prog reply := Sys c Done.

Definition failed (r : reply) : bool := match r with Failed _ => true | _ => false end.

(** ** The functions *)

(** The static variables of the file; [None] is -1 or NULL.  Whether the process
    id was written since is recorded only. *)
Record statics := Statics {
  guard_fd : option positive;
  pid_fd : option positive;
  pid_path : option string;
  owns_pid : bool;
  exit_registered : bool;
  published : bool;
}.

Definition eta_statics (s : statics) : statics :=
  Statics (guard_fd s) (pid_fd s) (pid_path s) (owns_pid s) (exit_registered s) (published s).
#[export] Instance set_guard_fd : Setter guard_fd := ltac:(mk_setter eta_statics).
#[export] Instance set_pid_fd : Setter pid_fd := ltac:(mk_setter eta_statics).
#[export] Instance set_pid_path : Setter pid_path := ltac:(mk_setter eta_statics).
#[export] Instance set_owns_pid : Setter owns_pid := ltac:(mk_setter eta_statics).
#[export] Instance set_exit_registered : Setter exit_registered := ltac:(mk_setter eta_statics).
#[export] Instance set_published : Setter published := ltac:(mk_setter eta_statics).

Definition no_statics : statics := Statics None None None false false false.

(** The file at the path is the one that is held. *)
Definition same_file (held current : reply) : bool :=
  match held, current with
  | Stat i _, Stat j _ => bool_decide (i = j)
  | _, _ => false
  end.

Definition skyuv_pid_release (st : statics) : prog statics :=
  st ← match pid_fd st with
       | Some fd =>
           (if owns_pid st then
              held ← sys (Fstat fd);
              if failed held then Done tt
              else
                current ← sys (Lstat (default "" (pid_path st)));
                if failed current then Done tt
                else if same_file held current then
                  sys (Unlink (default "" (pid_path st))) ;; Done tt
                else Done tt
            else Done tt) ;;
           sys (Close fd) ;;
           Done (st <| pid_fd := None |>)
       | None => Done st
       end;
  let st := st <| pid_path := None |> <| owns_pid := false |> <| published := false |> in
  match guard_fd st with
  | Some fd => sys (Close fd) ;; Done (st <| guard_fd := None |>)
  | None => Done st
  end.

Definition lock_file (path : string) : prog (option positive) :=
  fd ← sys (Open path);
  match fd with
  | Fd fd =>
      info ← sys (Fstat fd);
      if negb (match info with Stat _ regular => regular | _ => false end) then
        sys (Close fd) ;; Done None
      else
        r ← sys (SetCloexec fd);
        if failed r then sys (Close fd) ;; Done None
        else
          r ← sys (Flock fd);
          if failed r then sys (Close fd) ;; Done None
          else Done (Some fd)
  | _ => Done None
  end.

(** [strtol] in base 10: the value, whether a digit was read, whether the value
    was in the range of [long]. *)
Definition is_space (c : ascii) : bool :=
  let n := Z.of_nat (nat_of_ascii c) in (n =? 32) || ((9 <=? n) && (n <=? 13)).
Definition digit_of (c : ascii) : option Z :=
  let n := Z.of_nat (nat_of_ascii c) - 48 in
  if (0 <=? n) && (n <=? 9) then Some n else None.
Fixpoint digits (acc : Z) (seen : bool) (t : text) : Z * bool :=
  match t with
  | [] => (acc, seen)
  | c :: t => match digit_of c with
              | Some d => digits (acc * 10 + d) true t
              | None => (acc, seen)
              end
  end.
Fixpoint skip_space (t : text) : text :=
  match t with
  | c :: t' => if is_space c then skip_space t' else t
  | [] => []
  end.
Definition strtol (t : text) : Z * bool * bool :=
  let t := skip_space t in
  let '(negative, t) :=
    match t with
    | "-"%char :: t => (true, t)
    | "+"%char :: t => (false, t)
    | _ => (false, t)
    end in
  let '(value, seen) := digits 0 false t in
  let value := if negative then - value else value in
  (value, seen, (- 2 ^ 63 <=? value) && (value <? 2 ^ 63)).

(** The part of the buffer before the terminator. *)
Fixpoint c_string (t : text) : text :=
  match t with
  | [] => []
  | c :: t => if Ascii.eqb c zero then [] else c :: c_string t
  end.

(** [read] is repeated while it is interrupted; [n] bounds how often. *)
Fixpoint read_retry (n : nat) (fd : positive) : prog (option text) :=
  match n with
  | O => Spin
  | S n =>
      r ← sys (Read fd 63);
      match r with
      | Data t => Done (Some t)
      | Failed EINTR => read_retry n fd
      | _ => Done None
      end
  end.

(** The process that an old file names is there, or cannot be told to be gone. *)
Definition previous_alive (t : text) : prog bool :=
  let '(previous, seen, in_range) := strtol (c_string t) in
  if in_range && seen && (0 <? previous) && (i32 previous =? previous) then
    r ← sys (Kill previous);
    Done (match r with Failed ESRCH => false | _ => true end)
  else Done false.

(** What is done when a step of the acquisition fails. *)
Definition abandon (st : statics) : prog (Z * statics) :=
  st ← skyuv_pid_release st; Done (1, st).

Definition skyuv_pid_acquire (n : nat) (pidfile : option string) (st : statics) :
    prog (Z * statics) :=
  match pidfile with
  | None => Done (1, st)
  | Some pidfile =>
      if bool_decide (pid_fd st ≠ None) || bool_decide (guard_fd st ≠ None) ||
         bool_decide (pidfile = "") then Done (1, st)
      else
        guard ← sys Malloc;
        path ← sys Malloc;
        if failed guard || failed path then
          abandon (if failed path then st <| pid_path := None |> else st <| pid_path := Some pidfile |>)
        else
          let st := st <| pid_path := Some pidfile |> in
          fd ← lock_file (pidfile +:+ ".lock");
          let st := st <| guard_fd := fd |> in
          if bool_decide (fd = None) then abandon st
          else
            fd ← lock_file pidfile;
            let st := st <| pid_fd := fd |> in
            match fd with
            | None => abandon st
            | Some fd =>
                buffer ← read_retry n fd;
                match buffer with
                | None => abandon st
                | Some buffer =>
                    alive ← previous_alive buffer;
                    if (alive : bool) then abandon st
                    else
                      let st := st <| owns_pid := true |> in
                      if negb (exit_registered st) then
                        r ← sys Atexit;
                        if failed r then abandon st
                        else Done (0, st <| exit_registered := true |>)
                      else Done (0, st)
                end
            end
  end.

(** The loop of [write]; [n] bounds the interruptions and the parts. *)
Fixpoint write_all (n : nat) (fd : positive) (data : text) : prog bool :=
  match data with
  | [] => Done true
  | _ =>
      match n with
      | O => Spin
      | S n =>
          r ← sys (Write fd data);
          match r with
          | Failed EINTR => write_all n fd data
          | Number written =>
              if written <=? 0 then Done false else write_all n fd (drop (Z.to_nat written) data)
          | _ => Done false
          end
      end
  end.

(** [snprintf] of "%ld\n". *)
Definition pid_text (pid : Z) : text := chars (pretty pid) ++ ["010"%char].

Definition skyuv_pid_publish (n : nat) (st : statics) : prog (Z * statics) :=
  match pid_fd st with
  | None => Done (1, st)
  | Some fd =>
      if negb (owns_pid st) then Done (1, st)
      else
        pid ← sys Getpid;
        let buffer := pid_text (match pid with Number z => z | _ => 0 end) in
        if (64 <=? Z.of_nat (length buffer)) then abandon st
        else
          r ← sys (Ftruncate fd);
          if failed r then abandon st
          else
            r ← sys (Lseek fd);
            if failed r then abandon st
            else
              ok ← write_all n fd buffer;
              if negb ok then abandon st
              else
                r ← sys (Fsync fd);
                if failed r then abandon st
                else Done (0, st <| published := true |>)
  end.

(** [redirect_fds]: whether it failed. *)
Definition redirect_fds : prog bool :=
  fd ← sys OpenNull;
  match fd with
  | Number fd =>
      a ← sys (Dup2 0);
      result ← (if failed a then Done true
                else b ← sys (Dup2 1);
                     if failed b then Done true else c ← sys (Dup2 2); Done (failed c));
      (if 2 <? fd then sys CloseNull ;; Done tt else Done tt) ;;
      Done result
  | _ => Done true
  end.

(** Systems other than macOS fork. *)
Definition daemon_init (n : nat) (apple : bool) (pidfile : option string) (st : statics) :
    prog (Z * statics) :=
  '(r, st) ← skyuv_pid_acquire n pidfile st;
  if negb (r =? 0) then Done (1, st)
  else
    r ← (if apple then Done Succeeded else sys Fork);
    if failed r then abandon st
    else
      '(r, st) ← skyuv_pid_publish n st;
      if negb (r =? 0) then abandon st
      else
        failure ← redirect_fds;
        if (failure : bool) then abandon st else Done (0, st).

Definition daemon_exit (st : statics) : prog (Z * statics) :=
  st ← skyuv_pid_release st; Done (0, st).
