(* ===== verification/DaemonProtocol.v ===== *)
(** * The protocol of the pid file

    Rely-guarantee reasoning over the programs of [Daemon]: what a process may
    rely on between two of its calls, what each of its calls guarantees to the
    others, and that the functions keep the meaning of the static variables under
    any interleaving. *)
From S2P Require Import Prelude Paths Daemon.

Section protocol.
Context (pidfile : string).
Local Notation P := pidfile.
Local Notation G := (pidfile +:+ ".lock").

(** ** States *)

Record wf (s : os) : Prop := {
  wf_lock i o : os_lock s !! i = Some o → ∃ f, os_open s !! o = Some f ∧ of_inode f = i;
  wf_open o f : os_open s !! o = Some f → (o < os_next s)%positive ∧ (of_inode f < os_next s)%positive;
  wf_dir path i : os_dir s !! path = Some i → (i < os_next s)%positive;
}.

(** [fd] is an open file of process [p]. *)
Definition file (s : os) (p fd : positive) : Prop :=
  ∃ f, os_open s !! fd = Some f ∧ of_process f = p.

(** [fd] is the file at [path], opened and locked by [p]. *)
Definition holds (s : os) (p fd : positive) (path : string) : Prop :=
  ∃ f, os_open s !! fd = Some f ∧ of_process f = p ∧ os_dir s !! path = Some (of_inode f) ∧
       os_lock s !! of_inode f = Some fd.

Definition guarded (s : os) (p : positive) : Prop := ∃ fd, holds s p fd G.

Lemma guarded_unique s p q : guarded s p → guarded s q → p = q.
Proof.
  intros (fd & f & Hf & <- & Hd & Hl) (fd' & f' & Hf' & <- & Hd' & Hl').
  rewrite Hd in Hd'. injection Hd' as E. rewrite E, Hl' in Hl. injection Hl as ->. congruence.
Qed.

(** ** What a process relies on

    Nobody else touches its open files and its locks, the lock file stays where it
    is, and while it holds the lock the pid file and its content stay. *)
Record rely (p : positive) (s s' : os) : Prop := {
  rely_wf : wf s → wf s';
  rely_open fd f : of_process f = p → os_open s !! fd = Some f ↔ os_open s' !! fd = Some f;
  rely_lock i fd : file s p fd → os_lock s !! i = Some fd ↔ os_lock s' !! i = Some fd;
  rely_guard i : os_dir s !! G = Some i → os_dir s' !! G = Some i;
  rely_pidfile : guarded s p → os_dir s' !! P = os_dir s !! P ∧
    ∀ i, os_dir s !! P = Some i → os_content s' !! i = os_content s !! i;
  rely_pid : os_pid s' !! p = os_pid s !! p;
}.

Lemma rely_refl p s : rely p s s.
Proof. split; naive_solver. Qed.

Lemma rely_file p s s' fd : rely p s s' → file s p fd ↔ file s' p fd.
Proof.
  intros R. split; intros (f & Hf & Hp); exists f; split; auto; by apply (rely_open p s s' R).
Qed.

Lemma rely_holds_guard p s s' fd : rely p s s' → holds s p fd G → holds s' p fd G.
Proof.
  intros R (f & Hf & Hp & Hd & Hl). exists f. split_and!; [|done| |].
  - by apply (rely_open p s s' R).
  - by apply (rely_guard p s s' R).
  - apply (rely_lock p s s' R); [by exists f|done].
Qed.

Lemma rely_guarded p s s' : rely p s s' → guarded s p → guarded s' p.
Proof. intros R (fd & Hfd). exists fd. by apply (rely_holds_guard p s). Qed.

Lemma rely_holds_pid p s s' fd : rely p s s' → guarded s p → holds s p fd P → holds s' p fd P.
Proof.
  intros R Hg (f & Hf & Hp & Hd & Hl). exists f. split_and!; [|done| |].
  - by apply (rely_open p s s' R).
  - by rewrite (proj1 (rely_pidfile p s s' R Hg)).
  - apply (rely_lock p s s' R); [by exists f|done].
Qed.

Lemma rely_trans p s1 s2 s3 : rely p s1 s2 → rely p s2 s3 → rely p s1 s3.
Proof.
  intros R1 R2. split.
  - intros Hwf. by apply (rely_wf p s2 s3 R2), (rely_wf p s1 s2 R1).
  - intros fd f Hf. by rewrite (rely_open p s1 s2 R1), (rely_open p s2 s3 R2).
  - intros i fd Hfd. rewrite (rely_lock p s1 s2 R1) by done.
    apply (rely_lock p s2 s3 R2). by apply (rely_file p s1 s2).
  - intros i Hi. by apply (rely_guard p s2 s3 R2), (rely_guard p s1 s2 R1).
  - intros Hg. destruct (rely_pidfile p s1 s2 R1 Hg) as [E1 C1].
    destruct (rely_pidfile p s2 s3 R2) as [E2 C2]; [by apply (rely_guarded p s1)|].
    split; [congruence|]. intros i Hi. rewrite C2, C1; [done|done|congruence].
  - by rewrite (rely_pid p s2 s3 R2), (rely_pid p s1 s2 R1).
Qed.

(** ** Weakest preconditions under interference *)

Fixpoint safe {A} (p : positive) (m : prog A) (Q : A → os → Prop) (s : os) : Prop :=
  match m with
  | Done a => ∀ s', rely p s s' → Q a s'
  | Sys c k => ∀ s', rely p s s' → ∀ ch,
      let '(r, s'') := exec p s' c ch in
      (∀ q, q ≠ p → rely q s' s'') ∧ safe p (k r) Q s''
  | Spin => True
  end.

Lemma safe_rely {A} p (m : prog A) Q s s' : rely p s s' → safe p m Q s → safe p m Q s'.
Proof.
  intros R. destruct m as [a|c k|]; simpl; [| |done].
  - intros H s'' R'. apply H. by eapply rely_trans.
  - intros H s'' R'. apply H. by eapply rely_trans.
Qed.

Lemma safe_bind {A B} p (m : prog A) (k : A → prog B) Q s :
  safe p m (λ a, safe p (k a) Q) s → safe p (m ≫= k) Q s.
Proof.
  revert s. induction m as [a|c f IH|]; intros s; simpl; [| |done].
  - intros H. apply H, rely_refl.
  - intros H s' R ch. specialize (H s' R ch). destruct (exec p s' c ch) as [r s''].
    destruct H as [Hg H]. split; [done|]. by apply IH.
Qed.

Lemma safe_mono {A} p (m : prog A) (Q Q' : A → os → Prop) s :
  safe p m Q s → (∀ a s', Q a s' → Q' a s') → safe p m Q' s.
Proof.
  intros H HQ. revert s H. induction m as [a|c f IH|]; intros s; simpl; [auto| |done].
  intros H s' R ch. specialize (H s' R ch). destruct (exec p s' c ch) as [r s''].
  destruct H as [Hg H]. split; [done|]. by apply IH.
Qed.

(** A result that interference keeps. *)
Lemma safe_done {A} p (a : A) (Q : A → os → Prop) s :
  (∀ s s', rely p s s' → Q a s → Q a s') → Q a s → safe p (Done a) Q s.
Proof. simpl. eauto. Qed.

(** ** What the static variables mean *)

(** A file that is open beside the two that are locked: just opened at a path, or
    left behind by [unlink]. *)
Inductive extra := NoFile | Opened (fd : positive) (path : string) | Orphan (fd : positive).

Definition extra_fd (x : extra) : option positive :=
  match x with NoFile => None | Opened fd _ | Orphan fd => Some fd end.

(** Process [p] has locked [og] at the lock file and [opf] at the pid file, has [x]
    open, and no other file. *)
Record mine (p : positive) (og opf : option positive) (x : extra) (s : os) : Prop := {
  mine_wf : wf s;
  mine_only fd : file s p fd → Some fd ∈ [og; opf; extra_fd x];
  mine_guard g : og = Some g → holds s p g G;
  mine_pid f : opf = Some f → holds s p f P ∧ is_Some og ∧ og ≠ Some f;
  mine_opened fd path : x = Opened fd path →
    (path = G ∧ og = None ∨ path = P ∧ is_Some og ∧ opf = None) ∧
    ∃ f, os_open s !! fd = Some f ∧ of_process f = p ∧ os_dir s !! path = Some (of_inode f) ∧
      (∀ o, os_lock s !! of_inode f = Some o → o ≠ fd);
  mine_orphan fd : x = Orphan fd → file s p fd ∧ opf = None ∧ og ≠ Some fd;
}.

Lemma mine_guarded p og opf x s : mine p og opf x s → is_Some og → guarded s p.
Proof. intros M [g ->]. exists g. by apply (mine_guard _ _ _ _ _ M). Qed.

Lemma mine_rely p og opf x s s' : rely p s s' → mine p og opf x s → mine p og opf x s'.
Proof.
  intros R M. split.
  - by apply (rely_wf p s s' R), (mine_wf _ _ _ _ _ M).
  - intros fd Hfd. apply (mine_only _ _ _ _ _ M). by apply (rely_file p s s').
  - intros g Hg. apply (rely_holds_guard p s s' _ R). by apply (mine_guard _ _ _ _ _ M).
  - intros f Hf. destruct (mine_pid _ _ _ _ _ M f Hf) as (Hh & Hg & Hne). split; [|done].
    apply (rely_holds_pid p s s' _ R); [by eapply mine_guarded|done].
  - intros fd path Hx. destruct (mine_opened _ _ _ _ _ M fd path Hx) as (Hpath & f & Hf & Hp & Hd & Hl).
    split; [done|]. exists f. split_and!; [by apply (rely_open p s s' R)|done| |].
    + destruct Hpath as [[-> _]|(-> & Hg & _)]; [by apply (rely_guard p s s' R)|].
      rewrite (proj1 (rely_pidfile p s s' R ltac:(by eapply mine_guarded))). done.
    + intros o Ho ->. apply (rely_lock p s s' R) in Ho; [|by exists f]. by apply Hl in Ho.
  - intros fd Hx. destruct (mine_orphan _ _ _ _ _ M fd Hx). split; [|done].
    by apply (rely_file p s s').
Qed.

(** ** Calls that change nothing *)

Definition no_effect (c : call) : bool :=
  match c with
  | Malloc | Fstat _ | Lstat _ | SetCloexec _ | Kill _ | Atexit | Getpid | Fsync _ | OpenNull
  | Dup2 _ | CloseNull => true
  | _ => false
  end.

Lemma exec_no_effect p s c ch : no_effect c = true → (exec p s c ch).2 = s.
Proof.
  intros Hc. destruct c; try done; destruct ch; simpl; try done; by repeat case_match.
Qed.

Lemma safe_no_effect {A} p c (k : reply → prog A) Q s :
  no_effect c = true → (∀ r s', rely p s s' → safe p (k r) Q s') → safe p (Sys c k) Q s.
Proof.
  intros Hc H s' R ch. pose proof (exec_no_effect p s' c ch Hc) as E.
  destruct (exec p s' c ch) as [r s'']. simpl in E. subst s''. split.
  - intros q _. apply rely_refl.
  - by apply H.
Qed.

(** ** Opening *)

Ltac os_simpl :=
  unfold close_fd, upd_field, set_os_dir, set_os_content, set_os_open, set_os_lock, set_os_pid,
    set_os_next in *; simpl in *.

(** A file that another process opens, at a path that exists. *)
Lemma rely_insert_open q s fd f n :
  of_process f ≠ q → os_open s !! fd = None → (fd < n)%positive → (os_next s ≤ n)%positive →
  (of_inode f < n)%positive →
  rely q s (Os (os_dir s) (os_content s) (os_irregular s) (<[fd := f]> (os_open s)) (os_lock s)
    (os_pid s) n).
Proof.
  intros Hq Hfd Hlt Hn Hi. split; simpl; try naive_solver.
  - intros [H1 H2 H3]. split; simpl.
    + intros i o Ho. destruct (H1 i o Ho) as (f' & Hf' & <-). exists f'. split; [|done].
      rewrite lookup_insert_ne; [done|congruence].
    + intros o f'. rewrite lookup_insert_Some. intros [[<- <-]|[_ Ho]]; [done|].
      apply H2 in Ho. lia.
    + intros path i Hp. apply H3 in Hp. lia.
  - intros fd' f' Hf'. rewrite lookup_insert_Some. split; [|naive_solver].
    intros Ho. right. split; [congruence|done].
Qed.

(** A file that another process creates: the lock file, or the pid file while it
    holds the lock. *)
Lemma rely_create q s path :
  os_dir s !! path = None → (path = G ∨ (path = P ∧ ¬ guarded s q)) → wf s →
  rely q s (Os (<[path := os_next s]> (os_dir s)) (<[os_next s := []]> (os_content s))
    (os_irregular s) (os_open s) (os_lock s) (os_pid s) (Pos.succ (os_next s))).
Proof.
  intros Hnone Hpath Hwf. split; simpl; try naive_solver.
  - intros [H1 H2 H3]. split; simpl; [done| |].
    + intros o f Ho. apply H2 in Ho. lia.
    + intros path' i. rewrite lookup_insert_Some. intros [[<- <-]|[_ Hi]]; [lia|].
      apply H3 in Hi. lia.
  - intros i Hi. rewrite lookup_insert_ne; [done|congruence].
  - intros Hg. destruct Hpath as [->|[-> Hng]]; [|by destruct Hng].
    destruct Hg as (fd & f & _ & _ & Hd & _). congruence.
Qed.

Lemma PG_ne : P ≠ G.
Proof.
  induction pidfile as [|c rest IH]; [done|]. intros E. injection E as E. by apply IH.
Qed.

(** The state after opening a path at inode [i]. *)
Lemma opened_mine p og opf path s fd i dir content n :
  mine p og opf NoFile s →
  (path = G ∧ og = None ∨ path = P ∧ is_Some og ∧ opf = None) →
  dir !! path = Some i → (∀ path' j, os_dir s !! path' = Some j → dir !! path' = Some j) →
  (∀ path' j, dir !! path' = Some j → (j < n)%positive) →
  os_open s !! fd = None → (fd < n)%positive → (os_next s ≤ n)%positive → (i < n)%positive →
  mine p og opf (Opened fd path)
    (Os dir content (os_irregular s) (<[fd := OpenFile i p 0]> (os_open s)) (os_lock s)
       (os_pid s) n).
Proof.
  intros M Hpath Hi Hdir Hdirn Hfd Hlt Hn Hin. pose proof (mine_wf _ _ _ _ _ M) as [H1 H2 H3].
  assert (∀ fd' path', holds s p fd' path' → holds (Os dir content (os_irregular s)
    (<[fd := OpenFile i p 0]> (os_open s)) (os_lock s) (os_pid s) n) p fd' path') as Hholds.
  { intros fd' path' (f & Hf & Hp & Hd & Hl). exists f. simpl.
    rewrite lookup_insert_ne by congruence. auto. }
  split; simpl.
  - split; simpl; [| |done].
    + intros j o Ho. destruct (H1 j o Ho) as (f & Hf & <-). exists f. split; [|done].
      rewrite lookup_insert_ne; [done|congruence].
    + intros o f. rewrite lookup_insert_Some. intros [[<- <-]|[_ Ho]]; [done|].
      apply H2 in Ho. lia.
  - intros fd' (f & Hf & Hp). simpl in Hf. rewrite lookup_insert_Some in Hf.
    destruct Hf as [[-> _]|[_ Hf]]; [set_solver|].
    assert (Some fd' ∈ [og; opf; None]) by (apply (mine_only _ _ _ _ _ M); by exists f). set_solver.
  - intros g Hg. by apply Hholds, (mine_guard _ _ _ _ _ M).
  - intros f Hf. destruct (mine_pid _ _ _ _ _ M f Hf) as (? & ? & ?). auto.
  - intros fd' path' [= <- <-]. split; [done|]. exists (OpenFile i p 0). simpl.
    rewrite lookup_insert_eq. split_and!; [done..|].
    intros o Ho ->. destruct (H1 i fd Ho) as (f & Hf & _). congruence.
  - done.
Qed.

Lemma safe_open {A} p og opf path (k : reply → prog A) Q s :
  mine p og opf NoFile s →
  (path = G ∧ og = None ∨ path = P ∧ is_Some og ∧ opf = None) →
  (∀ r s', mine p og opf NoFile s' → (∀ fd, r ≠ Fd fd) → safe p (k r) Q s') →
  (∀ fd s', mine p og opf (Opened fd path) s' → safe p (k (Fd fd)) Q s') →
  safe p (Sys (Open path) k) Q s.
Proof.
  intros M0 Hpath Hfail Hok s' R ch. apply (mine_rely _ _ _ _ _ _ R) in M0 as M. clear R M0 s.
  destruct ch as [e|n]; simpl; [split; [intros; apply rely_refl|by apply Hfail]|].
  pose proof (mine_wf _ _ _ _ _ M) as Hwf.
  assert (∀ o, (os_next s' ≤ o)%positive → os_open s' !! o = None) as Hfresh.
  { intros o Ho. destruct (os_open s' !! o) eqn:E; [|done]. apply (wf_open s' Hwf) in E. lia. }
  destruct (os_dir s' !! path) as [i|] eqn:Hi; os_simpl.
  - pose proof (wf_dir s' Hwf path i Hi). split.
    + intros q Hq. apply rely_insert_open; simpl; auto with lia.
    + apply Hok. eapply (opened_mine p og opf path s'); eauto with lia.
      intros path' j Hj. apply (wf_dir s' Hwf) in Hj. lia.
  - split.
    + intros q Hq. eapply rely_trans; [apply (rely_create q s' path); [done| |done]|].
      * destruct Hpath as [[-> _]|(-> & Hg & _)]; [by left|right]. split; [done|].
        intros Hgq. apply Hq. symmetry. eapply guarded_unique; [|done]. by eapply mine_guarded.
      * apply (rely_insert_open q (Os _ _ _ _ _ _ _)); simpl; try done; try lia.
        apply Hfresh. lia.
    + apply Hok. eapply (opened_mine p og opf path s'); try done; try lia.
      * by rewrite lookup_insert_eq.
      * intros path' j Hj. rewrite lookup_insert_ne; [done|congruence].
      * intros path' j. rewrite lookup_insert_Some. intros [[<- <-]|[_ Hj]]; [lia|].
        apply (wf_dir s' Hwf) in Hj. lia.
      * apply Hfresh. lia.
Qed.

(** ** Locking *)

Lemma rely_lock_file q s p fd f :
  os_open s !! fd = Some f → of_process f = p → q ≠ p → os_lock s !! of_inode f = None →
  rely q s (Os (os_dir s) (os_content s) (os_irregular s) (os_open s)
    (<[of_inode f := fd]> (os_lock s)) (os_pid s) (os_next s)).
Proof.
  intros Hf Hp Hq Hl. split; simpl; try naive_solver.
  - intros [H1 H2 H3]. split; simpl; [|done..]. intros i o. rewrite lookup_insert_Some.
    intros [[<- <-]|[_ Ho]]; [eauto|by apply H1].
  - intros i fd' (f' & Hf' & Hp'). rewrite lookup_insert_Some. split.
    + intros Ho. right. split; [congruence|done].
    + intros [[_ <-]|[_ Ho]]; [congruence|done].
Qed.

(** Which of the two locks a path stands for. *)
Definition lock_guard (path : string) (fd : positive) (og : option positive) : option positive :=
  if bool_decide (path = G) then Some fd else og.
Definition lock_pid (path : string) (fd : positive) (opf : option positive) : option positive :=
  if bool_decide (path = G) then opf else Some fd.

Lemma locked_mine p og opf fd path s f :
  mine p og opf (Opened fd path) s → os_open s !! fd = Some f →
  os_lock s !! of_inode f = None →
  mine p (lock_guard path fd og) (lock_pid path fd opf) NoFile
    (Os (os_dir s) (os_content s) (os_irregular s) (os_open s)
       (<[of_inode f := fd]> (os_lock s)) (os_pid s) (os_next s)).
Proof.
  intros M Hf Hl. destruct (mine_opened _ _ _ _ _ M fd path eq_refl)
    as (Hpath & f' & Hf' & Hp & Hd & _). rewrite Hf in Hf'. injection Hf' as <-.
  set (s' := Os _ _ _ _ _ _ _).
  assert (∀ fd' path', holds s p fd' path' → fd' ≠ fd ∧ holds s' p fd' path') as Hholds.
  { intros fd' path' (f' & Hf' & Hp' & Hd' & Hl').
    assert (of_inode f' ≠ of_inode f) by congruence.
    split; [congruence|]. exists f'. simpl. rewrite lookup_insert_ne by done. auto. }
  assert (holds s' p fd path) as Hnew.
  { exists f. simpl. rewrite lookup_insert_eq. auto. }
  assert (wf s') as Hwf.
  { pose proof (mine_wf _ _ _ _ _ M) as [H1 H2 H3]. split; simpl; [|done..].
    intros i o. rewrite lookup_insert_Some. intros [[<- <-]|[_ Ho]]; [eauto|by apply H1]. }
  pose proof PG_ne as HPG. unfold lock_guard, lock_pid.
  destruct Hpath as [[-> ->]|(-> & Hog & ->)];
    [rewrite !bool_decide_true by done|rewrite !bool_decide_false by done].
  - split; [done| | | |done|done].
    + intros fd' Hfd'. pose proof (mine_only _ _ _ _ _ M fd' Hfd'). set_solver.
    + by intros g [= <-].
    + intros f' Hf'. destruct (mine_pid _ _ _ _ _ M f' Hf') as (? & Hn & _). by destruct Hn.
  - split; [done| | | |done|done].
    + intros fd' Hfd'. pose proof (mine_only _ _ _ _ _ M fd' Hfd'). set_solver.
    + intros g Hg. by apply Hholds, (mine_guard _ _ _ _ _ M).
    + intros f' [= <-]. split_and!; [done..|]. intros ->.
      by destruct (Hholds fd G (mine_guard _ _ _ _ _ M fd eq_refl)).
Qed.

Lemma safe_flock {A} p og opf fd path (k : reply → prog A) Q s :
  mine p og opf (Opened fd path) s →
  (∀ r s', failed r = true → mine p og opf (Opened fd path) s' → safe p (k r) Q s') →
  (∀ r s', failed r = false →
     mine p (lock_guard path fd og) (lock_pid path fd opf) NoFile s' → safe p (k r) Q s') →
  safe p (Sys (Flock fd) k) Q s.
Proof.
  intros M0 Hfail Hok s' R ch. apply (mine_rely _ _ _ _ _ _ R) in M0 as M. clear R M0 s.
  destruct ch as [e|n]; simpl; [split; [intros; apply rely_refl|by apply Hfail]|].
  destruct (mine_opened _ _ _ _ _ M fd path eq_refl) as (Hpath & f & Hf & Hp & Hd & Hl).
  assert (own_file p s' fd = Some f) as ->.
  { unfold own_file. rewrite Hf. simpl. by rewrite bool_decide_true. }
  destruct (os_lock s' !! of_inode f) as [o|] eqn:Ho.
  - rewrite bool_decide_false by by apply Hl. split; [intros; apply rely_refl|by apply Hfail].
  - os_simpl. split; [intros q Hq; by apply (rely_lock_file q s' p fd f)|].
    apply Hok; [done|]. by apply locked_mine.
Qed.

(** ** Closing *)

Lemma rely_close q s p fd : file s p fd → q ≠ p → rely q s (close_fd fd s).
Proof.
  intros (f & Hf & Hp) Hq. split; os_simpl; try naive_solver.
  - intros [H1 H2 H3]. split; simpl; [| |done].
    + intros i o. rewrite map_lookup_filter_Some. intros [Ho Hne].
      destruct (H1 i o Ho) as (f' & Hf' & <-). exists f'. by rewrite lookup_delete_ne.
    + intros o f'. rewrite lookup_delete_Some. intros [_ Ho]. by apply H2.
  - intros fd' f' Hf'. rewrite lookup_delete_Some. split; [|naive_solver].
    intros Ho. split; [congruence|done].
  - intros i fd' (f' & Hf' & Hp'). rewrite map_lookup_filter_Some. split; [|naive_solver].
    intros Ho. split; [done|congruence].
Qed.

Lemma close_holds s p fd fd' path :
  holds s p fd' path → fd' ≠ fd → holds (close_fd fd s) p fd' path.
Proof.
  intros (f & Hf & Hp & Hd & Hl) Hne. exists f. os_simpl.
  rewrite lookup_delete_ne, map_lookup_filter_Some by done. auto.
Qed.

(** The locks and the file that are left when [fd] is closed. *)
Definition closed (fd : positive) (o : option positive) : option positive :=
  if bool_decide (o = Some fd) then None else o.
Definition close_extra (fd : positive) (x : extra) : extra :=
  if bool_decide (extra_fd x = Some fd) then NoFile else x.

Lemma closed_Some fd o fd' : closed fd o = Some fd' → o = Some fd' ∧ fd' ≠ fd.
Proof. unfold closed. case_bool_decide; naive_solver. Qed.

Lemma closed_other fd o : o ≠ Some fd → closed fd o = o.
Proof. intros. unfold closed. by rewrite bool_decide_false. Qed.

Lemma close_extra_other fd x x' :
  close_extra fd x = x' → x' ≠ NoFile → x = x' ∧ extra_fd x ≠ Some fd.
Proof. unfold close_extra. case_bool_decide; naive_solver. Qed.

Lemma closed_mine p og opf x fd s :
  mine p og opf x s → (og = Some fd → opf = None ∧ x = NoFile) →
  mine p (closed fd og) (closed fd opf) (close_extra fd x) (close_fd fd s).
Proof.
  intros M Hog. pose proof (mine_wf _ _ _ _ _ M) as [H1 H2 H3]. split.
  - split; os_simpl; [| |done].
    + intros i o. rewrite map_lookup_filter_Some. intros [Ho Hne].
      destruct (H1 i o Ho) as (f' & Hf' & <-). exists f'. by rewrite lookup_delete_ne.
    + intros o f'. rewrite lookup_delete_Some. intros [_ Ho]. by apply H2.
  - intros fd' (f & Hf & Hp). os_simpl. rewrite lookup_delete_Some in Hf. destruct Hf as [Hne Hf].
    assert (Some fd' ∈ [og; opf; extra_fd x]) as Hin by (apply (mine_only _ _ _ _ _ M); by exists f).
    rewrite !elem_of_cons in Hin |- *. destruct Hin as [E|[E|[E|[]%elem_of_nil]]].
    + left. rewrite closed_other; congruence.
    + right; left. rewrite closed_other; congruence.
    + right; right; left. unfold close_extra. rewrite bool_decide_false; congruence.
  - intros g Hg. apply closed_Some in Hg as [-> Hne].
    apply close_holds; [by apply (mine_guard _ _ _ _ _ M)|done].
  - intros f Hf. apply closed_Some in Hf as [-> Hne].
    destruct (mine_pid _ _ _ _ _ M f eq_refl) as (Hh & Hsome & Hne').
    rewrite closed_other by naive_solver. split; [by apply close_holds|done].
  - intros fd' path Hx. apply close_extra_other in Hx as [-> Hne]; [|done]. simpl in Hne.
    destruct (mine_opened _ _ _ _ _ M fd' path eq_refl) as (Hpath & f & Hf & Hp & Hd & Hl).
    split.
    + destruct Hpath as [[-> ->]|(-> & Hsome & ->)]; [by left|right].
      rewrite closed_other by naive_solver. done.
    + exists f. os_simpl. rewrite lookup_delete_ne by congruence. split_and!; [done..|].
      intros o. rewrite map_lookup_filter_Some. intros [Ho _]. by apply Hl.
  - intros fd' Hx. apply close_extra_other in Hx as [-> Hne]; [|done]. simpl in Hne.
    destruct (mine_orphan _ _ _ _ _ M fd' eq_refl) as ((f & Hf & Hp) & -> & Hog').
    split_and!; [|unfold closed; by case_bool_decide|by intros [? _]%closed_Some].
    exists f. os_simpl. rewrite lookup_delete_ne by congruence. done.
Qed.

Lemma safe_close {A} p og opf x fd (k : reply → prog A) Q s :
  mine p og opf x s → file s p fd → (og = Some fd → opf = None ∧ x = NoFile) →
  (∀ r s', mine p (closed fd og) (closed fd opf) (close_extra fd x) s' → safe p (k r) Q s') →
  safe p (Sys (Close fd) k) Q s.
Proof.
  intros M0 Hfile0 Hog Hk s' R ch. apply (mine_rely _ _ _ _ _ _ R) in M0 as M.
  apply (rely_file _ _ _ _ R) in Hfile0 as Hfile. clear R M0 Hfile0 s.
  assert (exec_normal p s' (Close fd) 0 = (Succeeded, close_fd fd s')) as E.
  { simpl. unfold own_file. destruct Hfile as (f & -> & Hp). simpl. by rewrite bool_decide_true. }
  assert (∃ r, exec p s' (Close fd) ch = (r, close_fd fd s')) as [r ->].
  { destruct ch as [e|n]; simpl in *; rewrite E; eauto. }
  split; [intros q Hq; by apply (rely_close q s' p)|]. by apply Hk, closed_mine.
Qed.

(** ** Removing the pid file *)

Lemma safe_unlink {A} p og f (k : reply → prog A) Q s :
  mine p og (Some f) NoFile s →
  (∀ r s', mine p og (Some f) NoFile s' ∨ mine p og None (Orphan f) s' → safe p (k r) Q s') →
  safe p (Sys (Unlink P) k) Q s.
Proof.
  intros M0 Hk s' R ch. apply (mine_rely _ _ _ _ _ _ R) in M0 as M. clear R M0 s.
  destruct ch as [e|n]; simpl; [split; [intros; apply rely_refl|by apply Hk; left]|].
  destruct (mine_pid _ _ _ _ _ M f eq_refl) as ((fl & Hf & Hp & Hd & Hl) & Hsome & Hne).
  rewrite Hd. os_simpl. pose proof PG_ne as HPG. split.
  - intros q Hq. split; simpl; try naive_solver.
    + intros [H1 H2 H3]. split; simpl; [done..|]. intros path i.
      rewrite lookup_delete_Some. intros [_ Hi]. by eapply H3.
    + intros i Hi. by rewrite lookup_delete_ne.
    + intros Hg. destruct Hq. eapply guarded_unique; [done|]. by eapply mine_guarded.
  - apply Hk. right. pose proof (mine_wf _ _ _ _ _ M) as [H1 H2 H3]. split; simpl.
    + split; simpl; [done..|]. intros path i. rewrite lookup_delete_Some. intros [_ Hi].
      by eapply H3.
    + intros fd Hfd. pose proof (mine_only _ _ _ _ _ M fd Hfd). set_solver.
    + intros g Hg. destruct (mine_guard _ _ _ _ _ M g Hg) as (fg & ? & ? & ? & ?).
      exists fg. simpl. by rewrite lookup_delete_ne.
    + done.
    + done.
    + intros fd [= <-]. split_and!; [by exists fl|done|done].
Qed.

(** ** Reading and writing the pid file *)

(** The pid file, open as [f], has content [c], and the offset is [off]. *)
Definition content_is (f : positive) (c : text) (off : nat) (s : os) : Prop :=
  ∃ fl, os_open s !! f = Some fl ∧ of_offset fl = off ∧
        default [] (os_content s !! of_inode fl) = c.

Lemma content_rely p og f c off s s' :
  rely p s s' → mine p og (Some f) NoFile s → content_is f c off s → content_is f c off s'.
Proof.
  intros R M (fl & Hfl & Hoff & Hc).
  destruct (mine_pid _ _ _ _ _ M f eq_refl) as ((fl' & Hfl' & Hp & Hd & _) & Hsome & _).
  rewrite Hfl in Hfl'. injection Hfl' as <-.
  exists fl. split_and!; [by apply (rely_open p s s' R)|done|].
  destruct (rely_pidfile p s s' R) as [_ ->]; [by eapply mine_guarded|done|done].
Qed.

(** The state after the owner changed offset and content of the pid file. *)
Lemma update_file p og f fl s off content c :
  mine p og (Some f) NoFile s → os_open s !! f = Some fl →
  default [] (content !! of_inode fl) = c →
  let s' := Os (os_dir s) content (os_irregular s)
              (<[f := OpenFile (of_inode fl) p off]> (os_open s)) (os_lock s) (os_pid s)
              (os_next s) in
  (∀ q, q ≠ p → rely q s s') ∧ mine p og (Some f) NoFile s' ∧ content_is f c off s'.
Proof.
  intros M Hfl Hc s'.
  destruct (mine_pid _ _ _ _ _ M f eq_refl) as ((fl' & Hfl' & Hp & Hd & Hl) & Hsome & Hne).
  rewrite Hfl in Hfl'. injection Hfl' as <-.
  assert (wf s → wf s') as Hwf.
  { intros [H1 H2 H3]. split; simpl; [| |done].
    - intros i o Ho. destruct (H1 i o Ho) as (f' & Hf' & <-). destruct (decide (f = o)) as [->|].
      + rewrite lookup_insert_eq. eexists. split; [done|]. simpl. congruence.
      + rewrite lookup_insert_ne by done. eauto.
    - intros o f'. rewrite lookup_insert_Some. intros [[<- <-]|[_ Ho]]; [|by apply H2].
      simpl. by apply H2. }
  assert (∀ fd path, holds s p fd path → holds s' p fd path) as Hholds.
  { intros fd path (f' & Hf' & Hp' & Hd' & Hl'). destruct (decide (f = fd)) as [->|].
    - rewrite Hfl in Hf'. injection Hf' as <-. eexists. simpl. rewrite lookup_insert_eq.
      split; [done|]. simpl. auto.
    - exists f'. simpl. rewrite lookup_insert_ne by done. auto. }
  split_and!.
  - intros q Hq. split; simpl; try naive_solver.
    + intros fd f' Hf'. rewrite lookup_insert_Some. split.
      * intros Ho. right. split; [congruence|done].
      * intros [[_ <-]|[_ Ho]]; [by simpl in Hf'; congruence|done].
    + intros Hg. destruct Hq. eapply guarded_unique; [done|]. by eapply mine_guarded.
  - split; [by apply Hwf, (mine_wf _ _ _ _ _ M)| | | |done|done].
    + intros fd (f' & Hf' & Hp'). apply (mine_only _ _ _ _ _ M). simpl in Hf'.
      rewrite lookup_insert_Some in Hf'. destruct Hf' as [[<- _]|[_ Hf']]; [by exists fl|].
      by exists f'.
    + intros g Hg. by apply Hholds, (mine_guard _ _ _ _ _ M).
    + intros f' [= <-]. split; [|done]. apply Hholds. by exists fl.
  - eexists. simpl. rewrite lookup_insert_eq. by split_and!.
Qed.

(** What the owner's calls on the pid file do. *)
Section owner.
Context (p : positive) (og : option positive) (f : positive).
Local Notation owner := (mine p og (Some f) NoFile).

Lemma owner_file s : owner s → ∃ fl, own_file p s f = Some fl ∧ os_open s !! f = Some fl.
Proof.
  intros M. destruct (mine_pid _ _ _ _ _ M f eq_refl) as ((fl & Hfl & Hp & _) & _).
  exists fl. unfold own_file. rewrite Hfl. simpl. by rewrite bool_decide_true.
Qed.

Lemma safe_read {A} size (k : reply → prog A) Q s :
  owner s → (∀ r s', owner s' → safe p (k r) Q s') → safe p (Sys (Read f size) k) Q s.
Proof.
  intros M0 Hk s' R ch. apply (mine_rely _ _ _ _ _ _ R) in M0 as M. clear R M0 s.
  destruct ch as [e|n]; simpl; [split; [intros; apply rely_refl|by apply Hk]|].
  destruct (owner_file s' M) as (fl & -> & Hfl). os_simpl.
  edestruct (update_file p og f fl s') as (Hq & M' & _); [done..|]. split; [exact Hq|by apply Hk].
Qed.

(** [X] is what is known besides, and kept by the calls. *)
Context (X : os → Prop).
Context (X_rely : ∀ s s', rely p s s' → X s → X s').
Context (X_file : ∀ s content open, X s →
  X (Os (os_dir s) content (os_irregular s) open (os_lock s) (os_pid s) (os_next s))).

Lemma safe_truncate {A} (k : reply → prog A) Q s :
  owner s → X s →
  (∀ r s', failed r = true → owner s' → X s' → safe p (k r) Q s') →
  (∀ r s' off, owner s' → X s' → content_is f [] off s' → safe p (k r) Q s') →
  safe p (Sys (Ftruncate f) k) Q s.
Proof.
  intros M0 X0 Hfail Hok s' R ch. apply (mine_rely _ _ _ _ _ _ R) in M0 as M.
  apply (X_rely _ _ R) in X0 as HX. clear R M0 X0 s.
  destruct ch as [e|n]; simpl; [split; [intros; apply rely_refl|by apply Hfail]|].
  destruct (owner_file s' M) as (fl & -> & Hfl). os_simpl.
  destruct (update_file p og f fl s' (of_offset fl) (<[of_inode fl := []]> (os_content s')) [])
    as (Hq & M' & Hc); [done|done|by rewrite lookup_insert_eq|].
  assert (os_open s' !! f = Some (OpenFile (of_inode fl) p (of_offset fl))) as Hid.
  { destruct (mine_pid _ _ _ _ _ M f eq_refl) as ((fl' & Hfl' & Hp & _) & _).
    rewrite Hfl in Hfl' |- *. injection Hfl' as <-. destruct fl; simpl in *. by subst. }
  rewrite (insert_id (os_open s') _ _ Hid) in Hq, M', Hc. split; [exact Hq|]. by eapply Hok; [|apply X_file|].
Qed.

Lemma safe_lseek {A} c off (k : reply → prog A) Q s :
  owner s → X s → content_is f c off s →
  (∀ r s', failed r = true → owner s' → X s' → safe p (k r) Q s') →
  (∀ r s', owner s' → X s' → content_is f c 0 s' → safe p (k r) Q s') →
  safe p (Sys (Lseek f) k) Q s.
Proof.
  intros M0 X0 C0 Hfail Hok s' R ch. pose proof (mine_rely _ _ _ _ _ _ R M0) as M.
  pose proof (X_rely _ _ R X0) as HX. pose proof (content_rely _ _ _ _ _ _ _ R M0 C0) as C.
  clear R M0 X0 C0 s.
  destruct ch as [e|n]; simpl; [split; [intros; apply rely_refl|by apply Hfail]|].
  destruct (owner_file s' M) as (fl & -> & Hfl). os_simpl.
  destruct C as (fl' & Hfl' & _ & Hc). rewrite Hfl in Hfl'. injection Hfl' as <-.
  destruct (update_file p og f fl s' 0 (os_content s') c) as (Hq & M' & Hc'); [done..|].
  split; [exact Hq|]. by apply Hok; [|apply X_file|].
Qed.

Lemma overwrite_end c part : overwrite (length c) part c = c ++ part.
Proof.
  unfold overwrite. rewrite Nat.sub_diag, app_nil_r, take_ge by lia.
  rewrite drop_ge by lia. by rewrite app_nil_r.
Qed.

(** A write at the end appends what it says it has written. *)
Lemma safe_write {A} c data (k : reply → prog A) Q s :
  owner s → X s → content_is f c (length c) s →
  (∀ e s', owner s' → X s' → content_is f c (length c) s' → safe p (k (Failed e)) Q s') →
  (∀ n s', owner s' → X s' →
     content_is f (c ++ take n data) (length (c ++ take n data)) s' →
     safe p (k (Number (Z.of_nat (length (take n data))))) Q s') →
  safe p (Sys (Write f data) k) Q s.
Proof.
  intros M0 X0 C0 Hfail Hok s' R ch. pose proof (mine_rely _ _ _ _ _ _ R M0) as M.
  pose proof (X_rely _ _ R X0) as HX. pose proof (content_rely _ _ _ _ _ _ _ R M0 C0) as C.
  clear R M0 X0 C0 s.
  destruct ch as [e|n]; simpl; [split; [intros; apply rely_refl|by apply Hfail]|].
  destruct (owner_file s' M) as (fl & -> & Hfl). os_simpl.
  destruct C as (fl' & Hfl' & Hoff & Hc). rewrite Hfl in Hfl'. injection Hfl' as <-.
  rewrite Hc, Hoff, overwrite_end.
  edestruct (update_file p og f fl s' (length c + length (take (Z.to_nat n) data))
    (<[of_inode fl := c ++ take (Z.to_nat n) data]> (os_content s'))) as (Hq & M' & Hc');
    [done|done|by rewrite lookup_insert_eq|].
  split; [exact Hq|]. apply Hok; [done|by apply X_file|]. by rewrite length_app.
Qed.

End owner.

End protocol.
