(* ===== verification/DaemonSafety.v ===== *)
(** * One daemon per pid file

    The functions of src/src/platform/daemon.c under interference, and the system
    of all processes that use one pid file. *)
From S2P Require Import Prelude Paths Daemon DaemonProtocol.

Section functions.
Context (pidfile : string).
Local Notation P := pidfile.
Local Notation G := (pidfile +:+ ".lock").
Local Notation safe := (safe pidfile).
Local Notation mine := (mine pidfile).

(** What the static variables of process [p] say of the files. *)
Record files_held (p : positive) (st : statics) (s : os) : Prop := {
  held_mine : mine p (guard_fd st) (pid_fd st) NoFile s;
  held_owns : owns_pid st = true → is_Some (pid_fd st);
  held_path : is_Some (pid_fd st) → pid_path st = Some P;
}.

Record meaning (p : positive) (st : statics) (s : os) : Prop := {
  meaning_held : files_held p st s;
  meaning_published : published st = true → owns_pid st = true ∧
    ∃ f off, pid_fd st = Some f ∧ content_is f (pid_text (default 0 (os_pid s !! p))) off s;
}.

Lemma meaning_rely p st s s' : rely pidfile p s s' → meaning p st s → meaning p st s'.
Proof.
  intros R [[M O Pa] Pu]. split; [split; [by eapply mine_rely|done..]|].
  intros Hpub. destruct (Pu Hpub) as (Ho & f & off & Hf & Hc). split; [done|].
  exists f, off. split; [done|]. rewrite (rely_pid _ _ _ _ R).
  rewrite Hf in M. by eapply content_rely.
Qed.

(** Files are locked that the process does not own yet. *)
Lemma partial_meaning p st s :
  mine p (guard_fd st) (pid_fd st) NoFile s → owns_pid st = false → published st = false →
  (is_Some (pid_fd st) → pid_path st = Some P) → meaning p st s.
Proof. intros M Ho Hp Hpath. split; [split|]; rewrite ?Ho, ?Hp; done. Qed.

(** Nothing is held. *)
Definition released (st : statics) : Prop :=
  guard_fd st = None ∧ pid_fd st = None ∧ owns_pid st = false ∧ published st = false.

Lemma released_meaning p st s : mine p None None NoFile s → released st → meaning p st s.
Proof. intros M (E1 & E2 & E3 & E4). apply partial_meaning; rewrite ?E1, ?E2; done. Qed.

Ltac no_effect := apply safe_no_effect; [done|]; intros ? ? ?.

(** ** Releasing *)

(** The last part of [skyuv_pid_release]: the lock goes last. *)
Lemma release_guard p og s (st : statics) :
  mine p og None NoFile s → guard_fd st = og → pid_fd st = None →
  owns_pid st = false → published st = false →
  safe p (match guard_fd st with
          | Some fd => sys (Close fd) ;; Done (st <| guard_fd := None |>)
          | None => Done st
          end) (λ st' s', meaning p st' s' ∧ released st' ∧ exit_registered st' = exit_registered st) s.
Proof.
  intros M Hg Hp Ho Hpub. destruct (guard_fd st) as [g|] eqn:E.
  - apply safe_bind. subst og. eapply safe_close; [done| |done|].
    { destruct (mine_guard _ _ _ _ _ _ M g eq_refl) as (f & ? & ? & _). by exists f. }
    intros r s' M'. unfold closed, close_extra in M'.
    rewrite bool_decide_true, bool_decide_false in M' by done. simpl in M'.
    intros s1 R1. intros s2 R2. simpl.
    assert (released (st <| guard_fd := None |>)) as Hrel by by split_and!.
    split; [|done]. apply released_meaning; [|done]. by eapply mine_rely; [|eapply mine_rely].
  - subst og. intros s' R. assert (released st) as Hrel by by split_and!.
    split; [|done]. apply released_meaning; [|done]. by eapply mine_rely.
Qed.

(** Whether or not the file at the path was removed, the open file is closed. *)
Lemma safe_close_pid {A} p og f (k : reply → prog A) Q s :
  mine p og (Some f) NoFile s ∨ mine p og None (Orphan f) s →
  (∀ r s', mine p og None NoFile s' → safe p (k r) Q s') → safe p (Sys (Close f) k) Q s.
Proof.
  intros [M|M] Hk.
  - destruct (mine_pid _ _ _ _ _ _ M f eq_refl) as ((fl & ? & ? & _) & _ & Hne).
    eapply safe_close; [done|by exists fl|done|]. intros r s'.
    rewrite (closed_other f og) by done. unfold closed, close_extra.
    rewrite bool_decide_true, bool_decide_false by done. apply Hk.
  - destruct (mine_orphan _ _ _ _ _ _ M f eq_refl) as (Hfile & _ & Hne).
    eapply safe_close; [done|done|done|]. intros r s'.
    rewrite (closed_other f og) by done. unfold closed, close_extra.
    rewrite bool_decide_false, bool_decide_true by done. apply Hk.
Qed.

(** The removal: the file is there as before, or it is left behind. *)
Lemma remove_spec p og f (owns : bool) s :
  mine p og (Some f) NoFile s →
  safe p (if owns then
            held ← sys (Fstat f);
            if failed held then Done tt
            else
              current ← sys (Lstat P);
              if failed current then Done tt
              else if same_file held current then sys (Unlink P) ;; Done tt else Done tt
          else Done tt)
    (λ _ s', mine p og (Some f) NoFile s' ∨ mine p og None (Orphan f) s') s.
Proof.
  intros M.
  assert (∀ s, mine p og (Some f) NoFile s ∨ mine p og None (Orphan f) s →
    safe p (Done tt) (λ _ s', mine p og (Some f) NoFile s' ∨ mine p og None (Orphan f) s') s)
    as Hdone.
  { intros s1 M1. apply safe_done; [|done].
    intros s2 s3 R [?|?]; [left|right]; by eapply mine_rely. }
  destruct owns; [|auto]. apply safe_bind. no_effect. apply safe_done; [eauto using safe_rely|].
  eapply mine_rely in M; [|done]. destruct (failed _); [auto|].
  apply safe_bind. no_effect. apply safe_done; [eauto using safe_rely|].
  eapply mine_rely in M; [|done]. destruct (failed _); [auto|]. destruct (same_file _ _); [|auto].
  apply safe_bind. eapply safe_unlink; [done|]. intros r' s3 M3.
  apply safe_done; [eauto using safe_rely|]. auto.
Qed.

Lemma release_spec p st s :
  files_held p st s →
  safe p (skyuv_pid_release st) (λ st' s',
    meaning p st' s' ∧ released st' ∧ exit_registered st' = exit_registered st) s.
Proof.
  intros [M O Pa]. unfold skyuv_pid_release. apply safe_bind.
  set (st1 := st <| pid_path := None |> <| owns_pid := false |> <| published := false |>).
  pose (st2 := st <| pid_fd := None |> <| pid_path := None |> <| owns_pid := false |>
    <| published := false |>).
  destruct (pid_fd st) as [f|] eqn:Hf.
  2: { intros s' R. apply (release_guard p (guard_fd st) s' st1); try done. by eapply mine_rely. }
  rewrite (Pa ltac:(eauto)). apply safe_bind.
  eapply safe_mono; [by apply remove_spec|]. intros [] s1 M1.
  apply safe_bind, (safe_close_pid _ (guard_fd st)); [done|]. intros r s2 M2.
  apply safe_done; [eauto using safe_rely|]. intros s3 R3.
  exact (release_guard p (guard_fd st) s3 st2 (mine_rely _ _ _ _ _ _ _ R3 M2)
    eq_refl eq_refl eq_refl eq_refl).
Qed.

(** ** Acquiring *)

Definition locked (p : positive) (path : string) (og opf : option positive)
    (r : option positive) (s : os) : Prop :=
  match r with
  | Some fd => mine p (lock_guard pidfile path fd og) (lock_pid pidfile path fd opf) NoFile s
  | None => mine p og opf NoFile s
  end.

Lemma locked_rely p path og opf r s s' :
  rely pidfile p s s' → locked p path og opf r s → locked p path og opf r s'.
Proof. intros R. destruct r; by apply mine_rely. Qed.

(** A file that was opened and not locked is closed again. *)
Lemma close_opened p og opf path fd s :
  mine p og opf (Opened fd path) s →
  safe p (sys (Close fd) ;; Done None) (locked p path og opf) s.
Proof.
  intros M. destruct (mine_opened _ _ _ _ _ _ M fd path eq_refl)
    as (Hpath & f & Hf & Hp & Hd & Hl).
  assert (og ≠ Some fd) as Hog.
  { intros ->. destruct (mine_guard _ _ _ _ _ _ M fd eq_refl) as (f' & Hf' & _ & _ & Hl').
    rewrite Hf in Hf'. injection Hf' as <-. by apply Hl in Hl'. }
  assert (opf ≠ Some fd) as Hopf.
  { destruct Hpath as [[_ ->]|(_ & _ & ->)]; [|done]. intros ->.
    by destruct (mine_pid _ _ _ _ _ _ M fd eq_refl) as (_ & [? ?] & _). }
  apply safe_bind. eapply safe_close; [done|by exists f|done|]. intros r s'.
  rewrite (closed_other fd og), (closed_other fd opf) by done. unfold close_extra.
  rewrite bool_decide_true by done. intros M'. apply safe_done; [eauto using safe_rely|].
  apply safe_done; [|done]. intros ? ? R. by apply mine_rely.
Qed.

Lemma lock_file_spec p path og opf s :
  mine p og opf NoFile s →
  (path = G ∧ og = None ∨ path = P ∧ is_Some og ∧ opf = None) →
  safe p (lock_file path) (locked p path og opf) s.
Proof.
  intros M Hpath. unfold lock_file. apply safe_bind. eapply safe_open; [done|done| |].
  - intros r s1 M1 Hr. apply safe_done; [eauto using safe_rely|].
    destruct r; try (apply safe_done; [intros ? ?; apply locked_rely|done]). by destruct (Hr fd).
  - intros fd s1 M1. apply safe_done; [eauto using safe_rely|].
    apply safe_bind. no_effect. apply safe_done; [eauto using safe_rely|].
    eapply mine_rely in M1; [|done]. destruct (negb _); [by apply close_opened|].
    apply safe_bind. no_effect. apply safe_done; [eauto using safe_rely|].
    eapply mine_rely in M1; [|done]. destruct (failed _); [by apply close_opened|].
    apply safe_bind. eapply safe_flock; [done| |].
    + intros r3 s4 Hr3 M4. apply safe_done; [eauto using safe_rely|]. rewrite Hr3.
      by apply close_opened.
    + intros r3 s4 Hr3 M4. apply safe_done; [eauto using safe_rely|]. rewrite Hr3.
      apply safe_done; [|done]. intros ? ?. apply (locked_rely p path og opf (Some fd)).
Qed.

(** What a function leaves: its result [0] comes with [K]. *)
Definition outcome (p : positive) (K : statics → Prop) (r : Z * statics) (s : os) : Prop :=
  meaning p r.2 s ∧ (r.1 = 0 → K r.2).

Lemma outcome_rely p K r s s' : rely pidfile p s s' → outcome p K r s → outcome p K r s'.
Proof. intros R [M HK]. split; [by eapply meaning_rely|done]. Qed.

Lemma safe_outcome p K r st s :
  meaning p st s → (r = 0 → K st) → safe p (Done (r, st)) (outcome p K) s.
Proof. intros M HK. apply safe_done; [intros ? ?; apply outcome_rely|done]. Qed.

Lemma abandon_spec p K st s : files_held p st s → safe p (abandon st) (outcome p K) s.
Proof.
  intros M. unfold abandon. apply safe_bind. eapply safe_mono; [by apply release_spec|].
  intros st' s' (M' & _). by apply safe_outcome.
Qed.

Lemma read_retry_spec p og f n s :
  mine p og (Some f) NoFile s →
  safe p (read_retry n f) (λ _ s', mine p og (Some f) NoFile s') s.
Proof.
  revert s. induction n as [|n IH]; intros s M; [done|]. simpl read_retry.
  eapply safe_read; [done|]. intros r s' M'.
  assert (∀ t : option text, safe p (Done t) (λ _ s', mine p og (Some f) NoFile s') s') as Hdone.
  { intros t. apply safe_done; [|done]. intros ? ? R. by apply mine_rely. }
  destruct r as [[]| | | | |]; auto.
Qed.

Lemma previous_alive_spec p A t s :
  (∀ s s', rely pidfile p s s' → A s → A s') → A s →
  safe p (previous_alive t) (λ _, A) s.
Proof.
  intros HA Hs. unfold previous_alive. destruct (strtol _) as [[v seen] ok].
  destruct (_ && _); [|by apply safe_done; eauto]. apply safe_bind. no_effect.
  apply safe_done; [eauto using safe_rely|]. apply safe_done; eauto.
Qed.

(** The acquisition from the point where both files are locked. *)
Lemma acquire_locked p n st f s :
  mine p (guard_fd st) (Some f) NoFile s → pid_fd st = Some f → pid_path st = Some P →
  owns_pid st = false → published st = false →
  safe p
    (buffer ← read_retry n f;
     match buffer with
     | None => abandon st
     | Some buffer =>
         alive ← previous_alive buffer;
         if (alive : bool) then abandon st
         else
           let st := st <| owns_pid := true |> in
           if negb (exit_registered st) then
             r ← sys Atexit;
             if failed r then abandon st else Done (0, st <| exit_registered := true |>)
           else Done (0, st)
     end) (outcome p (λ st', owns_pid st' = true ∧ published st' = false)) s.
Proof.
  intros M Hf Hpath Howns Hpub.
  assert (∀ s, mine p (guard_fd st) (Some f) NoFile s → meaning p st s) as Hst.
  { intros s1 M1. apply partial_meaning; by rewrite ?Hf. }
  pose (st' := st <| owns_pid := true |>). pose (st'' := st' <| exit_registered := true |>).
  assert (∀ s, mine p (guard_fd st) (Some f) NoFile s → meaning p st' s ∧ meaning p st'' s) as Hst'.
  { intros s1 M1. split; (split; [split; [by change (mine p (guard_fd st) (pid_fd st) NoFile s1);
      rewrite Hf|by change (true = true → is_Some (pid_fd st)); rewrite Hf|done]|]);
      change (published st = true → true = true ∧ ∃ f off, pid_fd st = Some f ∧
        content_is f (pid_text (default 0 (os_pid s1 !! p))) off s1); by rewrite Hpub. }
  apply safe_bind. eapply safe_mono; [by apply read_retry_spec|]. intros [buffer|] s1 M1;
    [|by apply abandon_spec, meaning_held, Hst].
  apply safe_bind. eapply safe_mono; [apply previous_alive_spec; [|exact M1]; intros ? ?; apply mine_rely|].
  intros [] s2 M2; [by apply abandon_spec, meaning_held, Hst|]. cbv zeta. fold st'.
  destruct (negb (exit_registered st')).
  - apply safe_bind. no_effect. apply safe_done; [eauto using safe_rely|].
    eapply mine_rely in M2; [|done]. apply Hst' in M2 as [H1 H2].
    destruct (failed _); [by apply abandon_spec, meaning_held|]. by apply safe_outcome.
  - apply Hst' in M2 as [H1 H2]. by apply safe_outcome.
Qed.

Lemma acquire_spec p n path st s :
  meaning p st s → (path = None ∨ path = Some P) →
  safe p (skyuv_pid_acquire n path st)
    (outcome p (λ st', owns_pid st' = true ∧ published st' = false)) s.
Proof.
  intros M [->| ->]; [by apply safe_outcome|]. unfold skyuv_pid_acquire.
  destruct (_ || _) eqn:Hbusy; [by apply safe_outcome|].
  apply orb_false_iff in Hbusy as [[Hp Hg]%orb_false_iff _].
  apply bool_decide_eq_false, dec_stable in Hp, Hg.
  assert (owns_pid st = false) as Howns.
  { destruct (owns_pid st) eqn:E; [|done]. apply (held_owns _ _ _ (meaning_held _ _ _ M)) in E as [? E]. congruence. }
  assert (published st = false) as Hpub.
  { destruct (published st) eqn:E; [|done]. apply (meaning_published _ _ _ M) in E as [? _]. congruence. }
  apply meaning_held, held_mine in M. rewrite Hp, Hg in M.
  assert (∀ path s, mine p None None NoFile s → meaning p (st <| pid_path := path |>) s) as Hst.
  { intros path s1 M1. by apply released_meaning. }
  apply safe_bind. no_effect. apply safe_done; [eauto using safe_rely|].
  eapply mine_rely in M; [|done]. apply safe_bind. no_effect.
  apply safe_done; [eauto using safe_rely|]. eapply mine_rely in M; [|done].
  destruct (_ || _); [destruct (failed _); by apply abandon_spec, meaning_held, Hst|].
  apply safe_bind. eapply safe_mono; [eapply lock_file_spec; [done|by left]|].
  intros [g|] s3 M3; simpl in M3; [|by apply abandon_spec, meaning_held, released_meaning].
  rewrite bool_decide_false by done. unfold lock_guard, lock_pid in M3.
  rewrite bool_decide_true in M3 by done.
  apply safe_bind. eapply safe_mono; [eapply lock_file_spec; [done|right; eauto]|].
  intros [f|] s4 M4; simpl in M4.
  - unfold lock_guard, lock_pid in M4. rewrite !bool_decide_false in M4 by apply PG_ne.
    by apply acquire_locked.
  - apply abandon_spec, meaning_held, partial_meaning; done.
Qed.

(** ** Publishing *)

Definition pid_is (p : positive) (pid : option Z) (s : os) : Prop := os_pid s !! p = pid.

Lemma pid_is_rely p pid s s' : rely pidfile p s s' → pid_is p pid s → pid_is p pid s'.
Proof. intros R. unfold pid_is. by rewrite (rely_pid _ _ _ _ R). Qed.

Lemma pid_is_file p pid s content open : pid_is p pid s →
  pid_is p pid (Os (os_dir s) content (os_irregular s) open (os_lock s) (os_pid s) (os_next s)).
Proof. done. Qed.

Definition owner (p : positive) (og : option positive) (f : positive) (pid : option Z) (c : text)
    (s : os) : Prop :=
  mine p og (Some f) NoFile s ∧ pid_is p pid s ∧ content_is f c (length c) s.

Lemma owner_rely p og f pid c s s' :
  rely pidfile p s s' → owner p og f pid c s → owner p og f pid c s'.
Proof.
  intros R (M & Hpid & C). split_and!; [by eapply mine_rely|by eapply pid_is_rely|].
  by eapply content_rely.
Qed.

(** The loop writes all of the buffer, or reports a failure. *)
Lemma write_all_spec p og f pid n c data s :
  owner p og f pid c s →
  safe p (write_all n f data) (λ (ok : bool) s', mine p og (Some f) NoFile s' ∧
    (ok = true → owner p og f pid (c ++ data) s')) s.
Proof.
  assert (∀ c s, mine p og (Some f) NoFile s →
    safe p (Done false) (λ (ok : bool) s', mine p og (Some f) NoFile s' ∧
      (ok = true → owner p og f pid c s')) s) as Hfail.
  { intros c1 s1 M1. apply safe_done; [|done]. intros s2 s3 R [M2 _]. by split; [eapply mine_rely|]. }
  assert (∀ c s, owner p og f pid c s →
    safe p (Done true) (λ (ok : bool) s', mine p og (Some f) NoFile s' ∧
      (ok = true → owner p og f pid (c ++ []) s')) s) as Hok.
  { intros c1 s1 Ow. apply safe_done.
    - intros s2 s3 R [M2 H2]. split; [by eapply mine_rely|]. intros. by eapply owner_rely; [|apply H2].
    - rewrite app_nil_r. split; [apply Ow|done]. }
  revert c data s. induction n as [|n IH]; intros c [|b data] s Ow; [by apply Hok|done|by apply Hok|].
  set (all := b :: data). destruct Ow as (M & Hpid & C).
  change (write_all (S n) f all) with (sys (Write f all) ≫= λ r, match r with
    | Failed EINTR => write_all n f all
    | Number written =>
        if written <=? 0 then Done false else write_all n f (drop (Z.to_nat written) all)
    | _ => Done false
    end).
  apply safe_bind. eapply (safe_write pidfile p og f (pid_is p pid)); try done.
  { apply pid_is_rely. }
  - intros e s1 M1 Hpid1 C1. apply safe_done; [eauto using safe_rely|].
    destruct e; auto. by apply IH.
  - intros m s1 M1 Hpid1 C1. apply safe_done; [eauto using safe_rely|].
    destruct (_ <=? _); [by apply Hfail|].
    rewrite Nat2Z.id.
    assert (drop (length (take m all)) all = drop m all) as ->.
    { rewrite length_take. destruct (decide (m ≤ length all)%nat).
      - by rewrite Nat.min_l. - rewrite Nat.min_r by lia. by rewrite !drop_ge by lia. }
    assert (c ++ all = (c ++ take m all) ++ drop m all) as ->
      by by rewrite <-(assoc_L (++)), take_drop.
    by apply IH.
Qed.

Lemma getpid_spec {A} p og f pid (k : reply → prog A) Q s :
  mine p og (Some f) NoFile s → pid_is p pid s →
  (∀ s', mine p og (Some f) NoFile s' → pid_is p pid s' →
     safe p (k (Number (default 0 pid))) Q s') →
  safe p (Sys Getpid k) Q s.
Proof.
  intros M Hpid Hk s' R ch. apply (mine_rely _ _ _ _ _ _ _ R) in M.
  apply (pid_is_rely _ _ _ _ R) in Hpid.
  assert (exec p s' Getpid ch = (Number (default 0 pid), s')) as ->.
  { destruct ch; simpl; by rewrite Hpid. }
  split; [intros; apply rely_refl|auto].
Qed.

Lemma publish_spec p n st s :
  meaning p st s →
  safe p (skyuv_pid_publish n st)
    (outcome p (λ st', owns_pid st' = true ∧ published st' = true)) s.
Proof.
  intros M. unfold skyuv_pid_publish. destruct (pid_fd st) as [f|] eqn:Hf; [|by apply safe_outcome].
  destruct (owns_pid st) eqn:Ho; [|by apply safe_outcome]. cbn [negb].
  destruct M as [[M O Pa] _]. rewrite Hf in M.
  assert (∀ s, mine p (guard_fd st) (Some f) NoFile s → files_held p st s) as Hheld.
  { intros s1 M1. by split; rewrite ?Hf in *. }
  pose (pid := os_pid s !! p).
  assert (pid_is p pid s) as Hpid by done. generalize dependent pid. intros pid Hpid.
  apply safe_bind, (getpid_spec p (guard_fd st) f pid); [done|done|]. intros s1 M1 Hpid1.
  apply safe_done; [eauto using safe_rely|]. cbv beta iota zeta.
  set (buffer := pid_text (default 0 pid)).
  destruct (64 <=? _); [by apply abandon_spec, Hheld|].
  apply safe_bind. eapply (safe_truncate pidfile p (guard_fd st) f (pid_is p pid)); try done;
    [apply pid_is_rely| |].
  { intros r s2 Hr M2 _. apply safe_done; [eauto using safe_rely|]. rewrite Hr.
    by apply abandon_spec, Hheld. }
  intros r s2 off M2 Hpid2 C2. apply safe_done; [eauto using safe_rely|].
  destruct (failed r); [by apply abandon_spec, Hheld|].
  apply safe_bind. eapply (safe_lseek pidfile p (guard_fd st) f (pid_is p pid)); try done;
    [apply pid_is_rely| |].
  { intros r3 s3 Hr M3 _. apply safe_done; [eauto using safe_rely|]. rewrite Hr.
    by apply abandon_spec, Hheld. }
  intros r3 s3 M3 Hpid3 C3. apply safe_done; [eauto using safe_rely|].
  destruct (failed r3); [by apply abandon_spec, Hheld|].
  apply safe_bind. eapply safe_mono; [by apply (write_all_spec p (guard_fd st) f pid n [])|].
  intros ok s4 [M4 Hok]. destruct ok; cbn [negb]; [|by apply abandon_spec, Hheld].
  specialize (Hok eq_refl). apply safe_bind. no_effect. apply safe_done; [eauto using safe_rely|].
  eapply owner_rely in Hok as (M5 & Hpid5 & C5); [|done].
  destruct (failed _); [by apply abandon_spec, Hheld|]. apply safe_outcome; [|done].
  split; [split; [by change (mine p (guard_fd st) (pid_fd st) NoFile s'); rewrite Hf| |]|].
  - intros _. change (is_Some (pid_fd st)). rewrite Hf. eauto.
  - intros _. apply Pa. eauto.
  - intros _. split; [done|]. exists f, (length buffer). split; [done|].
    unfold pid_is in Hpid5. by rewrite Hpid5.
Qed.

(** ** Becoming a daemon *)

Lemma safe_fork {A} p og f (k : reply → prog A) Q s :
  mine p og (Some f) NoFile s →
  (∀ r s', mine p og (Some f) NoFile s' → safe p (k r) Q s') → safe p (Sys Fork k) Q s.
Proof.
  intros M Hk s' R ch. apply (mine_rely _ _ _ _ _ _ _ R) in M.
  destruct ch as [e|n]; simpl; [split; [intros; apply rely_refl|by apply Hk]|]. split.
  - intros q Hq. split; try naive_solver.
    + intros [H1 H2 H3]. by split.
    + change (<[p := n]> (os_pid s') !! q = os_pid s' !! q). by rewrite lookup_insert_ne.
  - apply Hk. destruct M as [[W1 W2 W3] ? ? ? ? ?]. by split; [split|..].
Qed.

Lemma redirect_spec p A s :
  (∀ s s', rely pidfile p s s' → A s → A s') → A s → safe p redirect_fds (λ _, A) s.
Proof.
  intros HA Hs. unfold redirect_fds.
  assert (∀ B (b : B) s, A s → safe p (Done b) (λ _, A) s) as Hdone.
  { intros B b s1 H1. by apply safe_done. }
  apply safe_bind. no_effect. apply safe_done; [eauto using safe_rely|].
  apply (HA _ _ H) in Hs. destruct r; auto.
  apply safe_bind. no_effect. apply safe_done; [eauto using safe_rely|]. apply (HA _ _ H0) in Hs.
  apply safe_bind. eapply (safe_mono _ _ _ (λ _, A)).
  - destruct (failed _); [auto|]. apply safe_bind. no_effect.
    apply safe_done; [eauto using safe_rely|]. apply (HA _ _ H1) in Hs.
    destruct (failed _); [auto|]. apply safe_bind. no_effect.
    apply safe_done; [eauto using safe_rely|]. apply (HA _ _ H2) in Hs. auto.
  - intros result s3 H3. apply safe_bind. eapply (safe_mono _ _ _ (λ _, A)); [|auto].
    destruct (2 <? z); [|auto]. apply safe_bind. no_effect.
    apply safe_done; [eauto using safe_rely|]. eauto.
Qed.

Lemma daemon_init_spec p n apple path st s :
  meaning p st s → (path = None ∨ path = Some P) →
  safe p (daemon_init n apple path st)
    (outcome p (λ st', owns_pid st' = true ∧ published st' = true)) s.
Proof.
  intros M Hpath. unfold daemon_init. apply safe_bind.
  eapply safe_mono; [by apply acquire_spec|]. intros [r st1] s1 [M1 Hown]. simpl in M1, Hown.
  destruct (Z.eqb_spec r 0) as [->|Hr]; cbn [negb]; [|by apply safe_outcome].
  destruct (Hown eq_refl) as [Ho Hpub].
  destruct (held_owns _ _ _ (meaning_held _ _ _ M1) Ho) as [f Hf].
  assert (∀ s, mine p (guard_fd st1) (Some f) NoFile s → meaning p st1 s) as Hst.
  { intros s2 M2. destruct M1 as [[? ? ?] _]. split; [by split; rewrite ?Hf in *|]. by rewrite Hpub. }
  destruct M1 as [[M1 O1 Pa1] _]. rewrite Hf in M1.
  apply safe_bind. eapply (safe_mono _ _ _ (λ _ s, mine p (guard_fd st1) (Some f) NoFile s)).
  { destruct apple; [apply safe_done; [intros ? ?; apply mine_rely|done]|].
    eapply safe_fork; [done|]. intros r2 s2 M2. apply safe_done; [intros ? ?; apply mine_rely|done]. }
  intros r2 s2 M2. apply Hst in M2. destruct (failed r2); [by apply abandon_spec, meaning_held|].
  apply safe_bind. eapply safe_mono; [by apply publish_spec|]. intros [r3 st3] s3 [M3 H3].
  simpl in M3, H3. destruct (Z.eqb_spec r3 0) as [->|]; cbn [negb];
    [|by apply abandon_spec, meaning_held].
  apply safe_bind. eapply safe_mono;
    [apply (redirect_spec p (meaning p st3)); [intros ? ?; apply meaning_rely|done]|].
  intros [] s4 M4; [by apply abandon_spec, meaning_held|]. apply safe_outcome; [done|]. auto.
Qed.

End functions.

(** ** All processes *)

(** A process between two calls of the functions, in one of them, or gone. *)
Inductive proc := Idle (st : statics) | Busy (m : prog (Z * statics)) | Gone.

(** The functions that a process may call, with the one pid file. *)
Inductive called (pidfile : string) (st : statics) : prog (Z * statics) → Prop :=
| CallAcquire n path : (path = None ∨ path = Some pidfile) →
    called pidfile st (skyuv_pid_acquire n path st)
| CallPublish n : called pidfile st (skyuv_pid_publish n st)
| CallRelease : called pidfile st (st' ← skyuv_pid_release st; Done (0, st'))
| CallInit n apple path : (path = None ∨ path = Some pidfile) →
    called pidfile st (daemon_init n apple path st)
| CallExit : called pidfile st (daemon_exit st).

(** The system closes the files of a process that ends, wherever it is. *)
Definition end_process (p : positive) (s : os) : os :=
  let own o := match os_open s !! o with
               | Some f => bool_decide (of_process f = p)
               | None => false
               end in
  s <| os_lock ::= filter (λ '(_, o), own o = false) |>
    <| os_open ::= filter (λ '(o, _), own o = false) |>.

Inductive system_step (pidfile : string) : os * gmap positive proc → os * gmap positive proc → Prop :=
| StepCall p st m s procs :
    procs !! p = Some (Idle st) → called pidfile st m →
    system_step pidfile (s, procs) (s, <[p := Busy m]> procs)
| StepSys p c k ch r s s' procs :
    procs !! p = Some (Busy (Sys c k)) → exec p s c ch = (r, s') →
    system_step pidfile (s, procs) (s', <[p := Busy (k r)]> procs)
| StepReturn p r st s procs :
    procs !! p = Some (Busy (Done (r, st))) →
    system_step pidfile (s, procs) (s, <[p := Idle st]> procs)
| StepEnd p pr s procs :
    procs !! p = Some pr →
    system_step pidfile (s, procs) (end_process p s, <[p := Gone]> procs).

(** Files may be left from before; nothing is open. *)
Definition fresh_os (s : os) : Prop :=
  os_open s = ∅ ∧ os_lock s = ∅ ∧ ∀ path i, os_dir s !! path = Some i → (i < os_next s)%positive.

Inductive system_reachable (pidfile : string) : os * gmap positive proc → Prop :=
| SystemStart s procs :
    fresh_os s → map_Forall (λ _ pr, pr = Idle no_statics) procs →
    system_reachable pidfile (s, procs)
| SystemNext x y :
    system_reachable pidfile x → system_step pidfile x y → system_reachable pidfile y.

Section system.
Context (pidfile : string).

Definition proc_ok (s : os) (p : positive) (pr : proc) : Prop :=
  match pr with
  | Idle st => meaning pidfile p st s
  | Busy m => safe pidfile p m (λ r s', meaning pidfile p r.2 s') s
  | Gone => True
  end.

Lemma proc_ok_rely s s' p pr : rely pidfile p s s' → proc_ok s p pr → proc_ok s' p pr.
Proof. intros R. destruct pr; simpl; [by apply meaning_rely|by apply safe_rely|done]. Qed.

(** A step of [p] that the others can rely on keeps everybody right. *)
Lemma procs_ok s s' p pr (procs : gmap positive proc) :
  (∀ q, q ≠ p → rely pidfile q s s') → proc_ok s' p pr →
  map_Forall (proc_ok s) procs → map_Forall (proc_ok s') (<[p := pr]> procs).
Proof.
  intros R Hp Hall q pr' Hq. rewrite lookup_insert_Some in Hq. destruct Hq as [[<- <-]|[Hne Hq]]; [done|].
  apply (proc_ok_rely s); [auto|]. by apply Hall.
Qed.

Lemma called_ok p st m s : meaning pidfile p st s → called pidfile st m → proc_ok s p (Busy m).
Proof.
  intros M Hm. destruct Hm; simpl.
  - eapply safe_mono; [by apply acquire_spec|]. by intros ? ? [? _].
  - eapply safe_mono; [by apply publish_spec|]. by intros ? ? [? _].
  - apply safe_bind. eapply safe_mono; [by apply release_spec, meaning_held|].
    intros st' s' (M' & _). apply safe_done; [intros ? ?; apply meaning_rely|done].
  - eapply safe_mono; [by apply daemon_init_spec|]. by intros ? ? [? _].
  - apply safe_bind. eapply safe_mono; [by apply release_spec, meaning_held|].
    intros st' s' (M' & _). apply safe_done; [intros ? ?; apply meaning_rely|done].
Qed.

Lemma end_process_rely p q s : q ≠ p → rely pidfile q s (end_process p s).
Proof.
  intros Hq.
  assert (∀ fd f, os_open s !! fd = Some f → of_process f = q →
    match os_open s !! fd with Some f => bool_decide (of_process f = p) | None => false end = false)
    as Hown.
  { intros fd f -> Hf. apply bool_decide_eq_false. congruence. }
  split; unfold end_process; try naive_solver.
  - intros [H1 H2 H3]. split.
    + intros i o Ho. change (filter (λ '(_, o), match os_open s !! o with
        | Some f => bool_decide (of_process f = p) | None => false end = false) (os_lock s) !! i
        = Some o) in Ho. apply map_lookup_filter_Some in Ho as [Ho Hne].
      destruct (H1 i o Ho) as (f & Hf & Hi). exists f. split; [|done].
      by apply map_lookup_filter_Some.
    + intros o f Ho. apply map_lookup_filter_Some in Ho as [Ho _]. by apply H2.
    + intros path i Hi. by eapply H3.
  - intros fd f Hf. split; [|by intros [? _]%map_lookup_filter_Some].
    intros Ho. apply map_lookup_filter_Some. eauto.
  - intros i fd (f & Hf & Hp). split; [|by intros [? _]%map_lookup_filter_Some].
    intros Ho. apply map_lookup_filter_Some. eauto.
Qed.

Lemma system_ok x : system_reachable pidfile x → wf x.1 ∧ map_Forall (proc_ok x.1) x.2.
Proof.
  induction 1 as [s procs (Ho & Hl & Hd) Hidle|x y _ [Hwf IH] Hstep]; simpl.
  - assert (wf s) as Hwf.
    { split; [by rewrite Hl|by rewrite Ho|done]. }
    split; [done|]. intros p pr Hp. rewrite (Hidle p pr Hp). simpl.
    apply released_meaning; [|done]. split; try done.
    intros fd (f & Hf & _). by rewrite Ho in Hf.
  - destruct Hstep as [p st m s procs Hp Hm|p c k ch r s s' procs Hp E|p r st s procs Hp|
      p pr s procs Hp]; simpl in *.
    + split; [done|]. eapply procs_ok; [intros; apply rely_refl| |done].
      eapply called_ok; [exact (IH p _ Hp)|done].
    + pose proof (IH p _ Hp s (rely_refl pidfile p s) ch) as H. rewrite E in H.
      destruct H as [Hrely Hsafe]. split; [|by eapply procs_ok].
      destruct (Hrely (Pos.succ p)) as [Hw _ _ _ _ _]; [lia|auto].
    + split; [done|]. eapply procs_ok; [intros; apply rely_refl| |done].
      exact (IH p _ Hp s (rely_refl pidfile p s)).
    + split; [|eapply procs_ok; [intros; by apply end_process_rely|done|done]].
      apply (rely_wf pidfile (Pos.succ p) s); [apply end_process_rely; lia|done].
Qed.

End system.

(** C20 One daemon per pid file: for any processes that acquire, publish, release,
    become daemons and end at any point, interleaved call by call, with any
    failures: at most one of those that are not inside a function owns the pid file;
    the file at the path of the pid file is the one it has locked, and its own
    lock on the lock file stands; once it has published, whoever reads the pid file
    finds its process id; and a process that owns nothing has left no file open. *)
Theorem one_daemon pidfile s procs p st :
  system_reachable pidfile (s, procs) → procs !! p = Some (Idle st) →
  (owns_pid st = true →
     (∀ q st', procs !! q = Some (Idle st') → owns_pid st' = true → q = p) ∧
     (∃ fd, pid_fd st = Some fd ∧ holds s p fd pidfile) ∧
     guarded pidfile s p) ∧
  (published st = true →
     ∃ i, os_dir s !! pidfile = Some i ∧
       default [] (os_content s !! i) = pid_text (default 0 (os_pid s !! p))) ∧
  (guard_fd st = None → pid_fd st = None → ∀ fd, ¬ file s p fd).
Proof.
  intros Hr Hp. apply system_ok in Hr as [Hwf Hall]. simpl in *.
  assert (∀ q st', procs !! q = Some (Idle st') → owns_pid st' = true →
    (∃ fd, pid_fd st' = Some fd ∧ holds s q fd pidfile) ∧ guarded pidfile s q) as Hown.
  { intros q st' Hq Ho. pose proof (Hall q _ Hq) as [[M O _] _]. destruct (O Ho) as [fd Hfd].
    destruct (mine_pid _ _ _ _ _ _ M fd Hfd) as (Hh & Hsome & _). split; [eauto|].
    by eapply mine_guarded. }
  pose proof (Hall p _ Hp) as [[M O Pa] Pu]. split_and!.
  - intros Ho. destruct (Hown p st Hp Ho) as [Hfd Hg]. split_and!; [|done|done].
    intros q st' Hq Ho'. eapply guarded_unique; [|exact Hg]. by eapply Hown.
  - intros Hpub. destruct (Pu Hpub) as (Ho & f & off & Hf & fl & Hfl & _ & Hc).
    destruct (Hown p st Hp Ho) as [(fd & Hfd & fl' & Hfl' & _ & Hd & _) _].
    assert (fd = f) as -> by congruence. rewrite Hfl in Hfl'. injection Hfl' as <-. eauto.
  - intros Hg Hf fd Hfile. apply (mine_only _ _ _ _ _ _ M) in Hfile. rewrite Hg, Hf in Hfile.
    rewrite !elem_of_cons in Hfile. destruct Hfile as [?|[?|[?|[]%elem_of_nil]]]; done.
Qed.

(** ** Two processes, one daemon *)

(** A process runs its program alone, no call fails; [steps] bounds the calls. *)
Fixpoint run_alone (steps : nat) (p : positive) (m : prog (Z * statics)) (s : os) :
    option (Z * statics * os) :=
  match m, steps with
  | Done r, _ => Some (r, s)
  | Sys c k, S steps => let '(r, s') := exec p s c (Normal 63) in run_alone steps p (k r) s'
  | _, _ => None
  end.

Lemma run_alone_reachable pidfile steps p m s procs r st s' :
  run_alone steps p m s = Some (r, st, s') →
  system_reachable pidfile (s, <[p := Busy m]> procs) →
  system_reachable pidfile (s', <[p := Idle st]> procs).
Proof.
  revert m s. induction steps as [|n IH]; intros m s E Hr; destruct m as [[r' st']|c k|]; simpl in E;
    try done; try (simplify_eq; rewrite <-(insert_insert_eq procs p (Idle st) (Busy (Done (r, st))));
      eapply SystemNext; [done|]; eapply StepReturn; by rewrite lookup_insert_eq).
  destruct (exec p s c (Normal 63)) as [r1 s1] eqn:E1. eapply IH; [done|].
  rewrite <-(insert_insert_eq procs p (Busy (k r1)) (Busy (Sys c k))).
  eapply SystemNext; [done|]. eapply StepSys; [by rewrite lookup_insert_eq|done].
Qed.

Definition sample_os : os := Os ∅ ∅ ∅ ∅ ∅ {[ 1%positive := 11; 2%positive := 12 ]} 1.
Definition sample_procs : gmap positive proc :=
  {[ 1%positive := Idle no_statics; 2%positive := Idle no_statics ]}.

(** The first process becomes a daemon, then the second one tries. *)
Definition after_first := run_alone 40 1 (daemon_init 5 false (Some "run/pid") no_statics) sample_os.
Definition first_st : statics := from_option (λ x, x.1.2) no_statics after_first.
Definition first_os : os := from_option (λ x, x.2) sample_os after_first.
Definition after_second :=
  run_alone 40 2 (daemon_init 5 false (Some "run/pid") no_statics) first_os.
Definition second_st : statics := from_option (λ x, x.1.2) no_statics after_second.
Definition second_os : os := from_option (λ x, x.2) sample_os after_second.

Lemma first_reachable :
  system_reachable "run/pid" (first_os, <[1%positive := Idle first_st]> sample_procs).
Proof.
  eapply (run_alone_reachable _ 40 1 (daemon_init 5 false (Some "run/pid") no_statics) sample_os
    _ 0); [by vm_compute|].
  eapply SystemNext; [apply SystemStart|eapply StepCall].
  - split_and!; [done|done|]. intros path i Hi. by vm_compute in Hi.
  - apply (map_Forall_insert_2); [done|]. by apply map_Forall_singleton.
  - reflexivity.
  - apply CallInit. by right.
Qed.

Lemma second_reachable :
  system_reachable "run/pid" (second_os,
    <[2%positive := Idle second_st]> (<[1%positive := Idle first_st]> sample_procs)).
Proof.
  eapply (run_alone_reachable _ 40 2 (daemon_init 5 false (Some "run/pid") no_statics) first_os
    _ 1); [by vm_compute|].
  eapply SystemNext; [apply first_reachable|eapply StepCall].
  - reflexivity.
  - apply CallInit. by right.
Qed.

Lemma one_daemon_witness :
  guarded "run/pid" second_os 1 ∧ owns_pid second_st = false ∧ (∀ fd, ¬ file second_os 2 fd) ∧
  (∃ i, os_dir second_os !! "run/pid" = Some i ∧
     default [] (os_content second_os !! i) = ["6"; "3"; "010"]%char).
Proof.
  destruct (one_daemon "run/pid" second_os _ 1 first_st second_reachable)
    as (H1 & H2 & _); [by rewrite lookup_insert_ne, lookup_insert_eq|].
  destruct (one_daemon "run/pid" second_os _ 2 second_st second_reachable)
    as (_ & _ & H3); [by rewrite lookup_insert_eq|].
  split_and!.
  - apply H1. by vm_compute.
  - by vm_compute.
  - apply H3; by vm_compute.
  - destruct H2 as (i & Hi & Hc); [by vm_compute|]. exists i. split; [done|].
    rewrite Hc. by vm_compute.
Defined.
