(* ===== verification/Strsep.v ===== *)
(** * Splitting a string in place (src/src/compat/skynet/skyuv_string.h)

    [skyuv_compat_strsep] for compilers without [strsep]: each call ends the next
    token with a NUL.  Calling it until it returns NULL is splitting the string at
    every delimiter. *)
From S2P Require Import Prelude ClientStdin.

(** The characters, and [*string] as a position in them. *)
Record separated := Separated {
  sp_text : list Z;
  sp_string : option nat;
}.

Definition delimiter (delimiters : list Z) (c : Z) : bool := existsb (Z.eqb c) delimiters.

(** The loop: from [current] on, to the end or to a delimiter; beyond the array
    there is nothing to read. *)
Fixpoint scan (delimiters rest : list Z) (current : nat) : option (option nat) :=
  match rest with
  | [] => None
  | c :: rest =>
      if c =? 0 then Some None
      else if delimiter delimiters c then Some (Some current)
      else scan delimiters rest (S current)
  end.

Definition skyuv_compat_strsep (delimiters : list Z) : M separated (option nat) := λ s,
  match sp_string s with
  | None => Ret None s
  | Some token =>
      match scan delimiters (drop token (sp_text s)) token with
      | None => Fault OutOfBounds
      | Some (Some current) =>
          Ret (Some token) (Separated (<[current := 0]> (sp_text s)) (Some (S current)))
      | Some None => Ret (Some token) (Separated (sp_text s) None)
      end
  end.

(** Until NULL comes back. *)
Fixpoint strsep_all (fuel : nat) (delimiters : list Z) : M separated (list nat) :=
  match fuel with
  | O => throw OutOfFuel
  | S fuel =>
      token ← skyuv_compat_strsep delimiters;
      match token with
      | None => mret []
      | Some token => tokens ← strsep_all fuel delimiters; mret (token :: tokens)
      end
  end.

(** ** The reference *)

Fixpoint split (delimiters l : list Z) : list (list Z) :=
  match l with
  | [] => [[]]
  | c :: l =>
      if delimiter delimiters c then [] :: split delimiters l
      else match split delimiters l with [] => [[c]] | t :: ts => (c :: t) :: ts end
  end.

(** The characters after all calls. *)
Definition cleared_text (delimiters l : list Z) : list Z :=
  (λ c, if delimiter delimiters c then 0 else c) <$> l.

Section proofs.
Context (delimiters : list Z).
Local Notation clear := (cleared_text delimiters).
Implicit Types (l tok rest pre : list Z).

Definition plain (c : Z) : Prop := delimiter delimiters c = false.

Lemma split_plain tok : Forall plain tok → split delimiters tok = [tok].
Proof. induction 1 as [|c tok Hc _ IH]; [done|]. simpl. unfold plain in Hc. by rewrite Hc, IH. Qed.

Lemma split_app tok d rest :
  Forall plain tok → delimiter delimiters d = true →
  split delimiters (tok ++ d :: rest) = tok :: split delimiters rest.
Proof.
  intros Ht Hd. induction Ht as [|c tok Hc _ IH]; simpl; [by rewrite Hd|].
  unfold plain in Hc. by rewrite Hc, IH.
Qed.

(** A string is one token, or a token, a delimiter and the rest. *)
Lemma next_token l :
  Forall plain l ∨ ∃ tok d rest, l = tok ++ d :: rest ∧ Forall plain tok ∧ delimiter delimiters d = true.
Proof.
  induction l as [|c l IH]; [by left|]. destruct (delimiter delimiters c) eqn:Hc.
  - right. by exists [], c, l.
  - destruct IH as [Hl|(tok & d & rest & -> & Ht & Hd)]; [left; by constructor|].
    right. exists (c :: tok), d, rest. split_and!; [done|by constructor|done].
Qed.

Lemma scan_plain tok rest k :
  Forall plain tok → Forall (λ c, c ≠ 0) tok →
  scan delimiters (tok ++ rest) k = scan delimiters rest (k + length tok).
Proof.
  intros Ht. revert k. induction Ht as [|c tok Hc _ IH]; intros k Hz; simpl; [by rewrite Nat.add_0_r|].
  inversion Hz; subst. unfold plain in Hc. rewrite (proj2 (Z.eqb_neq c 0)), Hc, IH by done.
  f_equal. lia.
Qed.

Lemma clear_plain tok : Forall plain tok → clear tok = tok.
Proof. induction 1 as [|c tok Hc _ IH]; [done|]. simpl. unfold plain in Hc. by rewrite Hc, IH. Qed.

Lemma c_string_token tok rest : Forall (λ c, c ≠ 0) tok → c_string (tok ++ 0 :: rest) = tok.
Proof.
  induction 1 as [|c tok Hc _ IH]; [done|]. simpl. by rewrite (proj2 (Z.eqb_neq c 0)), IH by done.
Qed.

Lemma strsep_step fuel s token s1 tokens s2 :
  skyuv_compat_strsep delimiters s = Ret (Some token) s1 → strsep_all fuel delimiters s1 = Ret tokens s2 →
  strsep_all (S fuel) delimiters s = Ret (token :: tokens) s2.
Proof. intros H1 H2. cbn [strsep_all]. unfold mbind, M_bind. by rewrite H1, H2. Qed.

(** The tokens read from the final characters are those of the reference. *)
Lemma strsep_all_ok fuel pre l :
  Forall (λ c, c ≠ 0) l → (length l < fuel)%nat →
  ∃ tokens, strsep_all (S fuel) delimiters (Separated (pre ++ l ++ [0]) (Some (length pre))) =
      Ret tokens (Separated (pre ++ clear l ++ [0]) None) ∧
    Forall (λ k, length pre ≤ k)%nat tokens ∧
    (λ k, c_string (drop k (pre ++ clear l ++ [0]))) <$> tokens = split delimiters l.
Proof.
  induction fuel as [|fuel IH] in pre, l |- *; intros Hz Hfuel; [lia|].
  destruct (next_token l) as [Hl|(tok & d & rest & -> & Ht & Hd)].
  - exists [length pre]. cbn [strsep_all]. unfold mbind, M_bind, skyuv_compat_strsep. simpl sp_string. cbv iota.
    cbn [sp_text]. rewrite drop_app_length, scan_plain, clear_plain, split_plain by done. simpl.
    split_and!; [done|by constructor|]. rewrite drop_app_length. by rewrite c_string_token.
  - rewrite Forall_app, Forall_cons in Hz. destruct Hz as (Hzt & Hzd & Hzr).
    rewrite length_app in Hfuel. simpl in Hfuel.
    destruct (IH (pre ++ tok ++ [0]) rest) as (tokens & Hrun & Hge & Hmap); [done|lia|].
    assert (pre ++ clear (tok ++ d :: rest) ++ [0] = (pre ++ tok ++ [0]) ++ clear rest ++ [0]) as Hclear.
    { unfold cleared_text. rewrite fmap_app, fmap_cons, Hd. fold (clear tok) (clear rest).
      rewrite clear_plain by done. by rewrite <- !app_assoc. }
    exists (length pre :: tokens). rewrite Hclear. split_and!.
    + eapply strsep_step; [|exact Hrun]. unfold skyuv_compat_strsep. cbn [sp_string sp_text].
      rewrite drop_app_length, <- app_assoc, scan_plain by done. simpl scan.
      rewrite (proj2 (Z.eqb_neq d 0)), Hd by done. cbv iota.
      assert (<[(length pre + length tok)%nat := 0]> (pre ++ tok ++ (d :: rest) ++ [0]) =
        (pre ++ tok ++ [0]) ++ rest ++ [0]) as ->.
      { rewrite insert_app_r, <- (Nat.add_0_r (length tok)), insert_app_r. simpl. by rewrite <- !app_assoc. }
      replace (S (length pre + length tok)) with (length (pre ++ tok ++ [0]))
        by (rewrite !length_app; simpl; lia).
      done.
    + constructor; [lia|]. eapply Forall_impl; [exact Hge|]. intros k. rewrite length_app. lia.
    + rewrite fmap_cons, split_app by done. f_equal; [|exact Hmap].
      rewrite <- !app_assoc, drop_app_length. simpl. by apply c_string_token.
Qed.

(** Putting the tokens together again, for one delimiter. *)
Fixpoint join (d : Z) (tokens : list (list Z)) : list Z :=
  match tokens with
  | [] => []
  | [t] => t
  | t :: ts => t ++ d :: join d ts
  end.

End proofs.

Lemma split_nonempty delimiters l : split delimiters l ≠ [].
Proof. destruct l as [|c l]; simpl; [done|]. destruct (delimiter _ _); [done|]. by destruct (split _ _). Qed.

Lemma join_split d l : join d (split [d] l) = l.
Proof.
  induction l as [|c l IH]; [done|]. simpl. unfold delimiter. simpl. rewrite orb_false_r.
  pose proof (split_nonempty [d] l) as Hne. destruct (Z.eqb_spec c d) as [->|].
  - destruct (split [d] l) as [|t ts]; [done|]. simpl. by rewrite <- IH.
  - destruct (split [d] l) as [|t [|t' ts]]; [done|simpl in *; by rewrite IH|]. simpl in *. by rewrite IH.
Qed.

(** C40 Calling strsep until it returns NULL reads nothing beyond the string and
    leaves exactly the tokens that splitting at every delimiter gives, empty ones
    included, in order; with one delimiter, joining them gives the string back. *)
Theorem strsep_splits delimiters l fuel
    (Hl : Forall (λ c, c ≠ 0) l) (Hfuel : (S (length l) < fuel)%nat) :
  ∃ tokens s', strsep_all fuel delimiters (Separated (l ++ [0]) (Some 0%nat)) = Ret tokens s' ∧
    sp_string s' = None ∧
    (λ k, c_string (drop k (sp_text s'))) <$> tokens = split delimiters l ∧
    (∀ d, delimiters = [d] → join d ((λ k, c_string (drop k (sp_text s'))) <$> tokens) = l).
Proof.
  destruct fuel as [|fuel]; [lia|]. destruct (strsep_all_ok delimiters fuel [] l) as (tokens & Hrun & _ & Hmap);
    [done|lia|].
  exists tokens. eexists. split_and!; [exact Hrun|done|exact Hmap|].
  intros d ->. cbn [sp_text]. simpl app in *. rewrite Hmap. apply join_split.
Qed.

(** "a,,b" at commas. *)
Lemma strsep_splits_witness :
  ∃ tokens s', strsep_all 7 [44] (Separated ([97; 44; 44; 98] ++ [0]) (Some 0%nat)) = Ret tokens s' ∧
    tokens = [0; 2; 3]%nat ∧ (λ k, c_string (drop k (sp_text s'))) <$> tokens = [[97]; []; [98]].
Proof.
  destruct (strsep_splits [44] [97; 44; 44; 98] 7) as (tokens & s' & Hrun & _ & Hmap & _);
    [repeat constructor; done|simpl; lia|].
  exists tokens, s'. split_and!; [exact Hrun| |exact Hmap].
  vm_compute in Hrun. by injection Hrun as <- _.
Defined.
