(* ===== verification/Glue.v ===== *)
(** * Platform glue

    Small functions between Skynet, the client and the system: reopening the log
    (src/src/platform/logger.c) and asking the logger to
    (src/src/compat/skynet/skyuv_control.c), keeping the client's module loaded and
    closing the reading side of its connections (src/src/platform/client_module.c,
    client_shutdown.c), and sleeping on Windows
    (src/src/compat/skynet/start/unistd.h). *)
From S2P Require Import Prelude.

(** ** The log file *)

(** The files that are open, by handle, each the name it was opened with. *)
Record log_files := LogFiles {
  lf_open : gmap positive string;
  lf_next : positive;
  lf_time : nat;
  lf_complaints : nat;    (** lines on standard error *)
}.

(** Results of [fopen] and [fclose], by time; [fclose] ends the handle also when it
    reports an error. *)
Class FileSystem := {
  fopen_succeeds : nat → bool;
  fclose_result : nat → Z;
}.

Section logger.
Context `{FileSystem}.
Local Notation F := (M log_files).

Definition fopen (filename : string) : F (option positive) := λ s,
  if fopen_succeeds (lf_time s)
  then Ret (Some (lf_next s))
         (LogFiles (<[lf_next s := filename]> (lf_open s)) (Pos.succ (lf_next s)) (S (lf_time s)) (lf_complaints s))
  else Ret None (LogFiles (lf_open s) (lf_next s) (S (lf_time s)) (lf_complaints s)).

Definition fclose (f : positive) : F Z := λ s,
  match lf_open s !! f with
  | None => Fault UseAfterFree
  | Some _ =>
      Ret (fclose_result (lf_time s))
        (LogFiles (delete f (lf_open s)) (lf_next s) (S (lf_time s)) (lf_complaints s))
  end.

Definition complain : F unit := modify (λ s, LogFiles (lf_open s) (lf_next s) (lf_time s) (S (lf_complaints s))).

Definition skyuv_logger_reopen (current : option positive) (filename : string) : F (option positive) :=
  replacement ← fopen filename;
  match replacement with
  | None => complain ;; mret current
  | Some replacement =>
      match current with
      | None => mret (Some replacement)
      | Some f =>
          result ← fclose f;
          whenM (negb (result =? 0)) complain ;;
          mret (Some replacement)
      end
  end.

(** The logger has one file at most: [current], if it is not NULL, and only that is
    open of the files it opened. *)
Record one_log (current : option positive) (others : gmap positive string) (s : log_files) : Prop := OneLog {
  ol_current f : current = Some f → others !! f = None ∧ is_Some (lf_open s !! f);
  ol_others f : Some f ≠ current → lf_open s !! f = others !! f;
  ol_next f : is_Some (lf_open s !! f) → (f < lf_next s)%positive;
}.

(** The handle that comes back is open, and the only one: if the file cannot be
    opened it is the old one, otherwise a new one with the name, and the old one is
    closed. *)
Lemma reopen_keeps_one current others filename s :
  one_log current others s →
  wp (skyuv_logger_reopen current filename) (λ o s', one_log o others s' ∧
    (o = current ∧ lf_open s' = lf_open s ∨
     ∃ f, o = Some f ∧ Some f ≠ current ∧ lf_open s' !! f = Some filename)) s.
Proof.
  intros [Hc Ho Hn]. assert (lf_open s !! lf_next s = None) as Hfree.
  { destruct (lf_open s !! lf_next s) eqn:E; [|done]. specialize (Hn (lf_next s)). rewrite E in Hn.
    specialize (Hn ltac:(eauto)). lia. }
  assert (Some (lf_next s) ≠ current) as Hne.
  { intros <-. destruct (Hc _ eq_refl) as [_ [x Hx]]. congruence. }
  assert (others !! lf_next s = None) as Hnew by (rewrite <- Ho; done).
  unfold skyuv_logger_reopen. apply wp_bind. unfold wp at 1, fopen. destruct (fopen_succeeds _).
  2: { apply wp_bind, wp_modify, wp_ret. split; [by split|by left]. }
  assert (∀ f h, h = <[lf_next s := filename]> (lf_open s) →
    is_Some (h !! f) → (f < Pos.succ (lf_next s))%positive) as Hlt.
  { intros f h ->. rewrite lookup_insert_is_Some. intros [->|[_ Hx%Hn]]; lia. }
  destruct current as [g|].
  - destruct (Hc g eq_refl) as [Hg [name Hname]]. apply wp_bind. unfold wp at 1, fclose. simpl.
    rewrite lookup_insert_ne, Hname by congruence. apply wp_bind.
    assert (∀ s' : log_files, lf_open s' = delete g (<[lf_next s := filename]> (lf_open s)) →
      lf_next s' = Pos.succ (lf_next s) →
      one_log (Some (lf_next s)) others s' ∧
      (Some (lf_next s) = Some g ∧ lf_open s' = lf_open s ∨
       ∃ f, Some (lf_next s) = Some f ∧ Some f ≠ Some g ∧ lf_open s' !! f = Some filename)) as Hend.
    { intros s' Eo En. assert (lf_open s' !! lf_next s = Some filename) as Hf
        by (rewrite Eo, lookup_delete_ne, lookup_insert_eq by congruence; done).
      split; [split|right; by exists (lf_next s)].
      - intros f [= <-]. by rewrite Hf.
      - intros f Hne'. rewrite Eo. destruct (decide (f = g)) as [->|].
        + by rewrite lookup_delete_eq.
        + rewrite lookup_delete_ne, lookup_insert_ne by congruence. apply Ho. congruence.
      - intros f. rewrite Eo, En. intros [x [_ Hx]%lookup_delete_Some]. eapply Hlt; [done|eauto]. }
    destruct (negb _); [apply wp_modify, wp_ret|apply wp_skip, wp_ret]; by apply Hend.
  - apply wp_ret. split; [split|right; exists (lf_next s)].
    + intros f [= <-]. simpl. by rewrite lookup_insert_eq.
    + intros f Hne'. simpl. rewrite lookup_insert_ne by congruence. by apply Ho.
    + intros f. simpl. by apply Hlt.
    + simpl. by rewrite lookup_insert_eq.
Qed.

End logger.

(** ** Messages to the logger *)

(** [struct skynet_message]; its data is NULL. *)
Record skynet_message := SkynetMessage {
  sm_source : Z;
  sm_session : Z;
  sm_data : option positive;
  sm_sz : Z;
}.

Definition SKYUV_SKYNET_PTYPE_SYSTEM : Z := 4.
Definition SKYUV_SKYNET_MESSAGE_TYPE_SHIFT : Z := (8 - 1) * 8.

(** Skynet: the handle of a name, 0 if there is none, and the result of a push. *)
Class SkynetHandles := {
  skynet_handle_findname : string → Z;
  skynet_context_push : Z → skynet_message → Z;
}.

Section control.
Context `{SkynetHandles}.

(** The answer; the messages that have been pushed are the state. *)
Definition skyuv_skynet_reopen_log : M (list (Z * skynet_message)) bool :=
  let logger := skynet_handle_findname "logger"%string in
  if logger =? 0 then mret false
  else
    let message := SkynetMessage 0 0 None
      (u64 (Z.shiftl SKYUV_SKYNET_PTYPE_SYSTEM SKYUV_SKYNET_MESSAGE_TYPE_SHIFT)) in
    modify (λ l, l ++ [(logger, message)]) ;;
    mret (skynet_context_push logger message =? 0).

(** One message goes to the logger, if there is one, and its size says that it is a
    system message without data. *)
Lemma reopen_log_message l :
  wp skyuv_skynet_reopen_log (λ ok l',
    (skynet_handle_findname "logger"%string = 0 → ok = false ∧ l' = l) ∧
    (skynet_handle_findname "logger"%string ≠ 0 → ∃ m,
       l' = l ++ [(skynet_handle_findname "logger"%string, m)] ∧ sm_data m = None ∧
       Z.shiftr (sm_sz m) SKYUV_SKYNET_MESSAGE_TYPE_SHIFT = SKYUV_SKYNET_PTYPE_SYSTEM ∧
       Z.land (sm_sz m) (2 ^ SKYUV_SKYNET_MESSAGE_TYPE_SHIFT - 1) = 0 ∧
       ok = (skynet_context_push (skynet_handle_findname "logger"%string) m =? 0))) l.
Proof.
  unfold skyuv_skynet_reopen_log. destruct (Z.eqb_spec (skynet_handle_findname "logger"%string) 0).
  - apply wp_ret. done.
  - apply wp_bind, wp_modify, wp_ret. split; [done|]. intros _. by eexists.
Qed.

End control.

(** ** The client's module and connections *)

(** [dladdr] and [dlopen] of the module: whether they find it; the references to it
    that the process holds are the state. *)
Class ModuleLoader := {
  dladdr_finds : bool;
  dlopen_finds : bool;
  UV_ENOENT : Z;
  UV_EIO : Z;
}.

Definition skyuv_client_module_retain `{ModuleLoader} : M nat Z :=
  if negb dladdr_finds then mret UV_ENOENT
  else if negb dlopen_finds then mret UV_EIO
  else modify S ;; mret 0.

(** [uv_fileno], [shutdown] and the error it leaves, as libuv's. *)
Class SocketShutdown := {
  uv_fileno_result : Z;
  shutdown_result : Z;
  last_error : Z;
}.

Definition skyuv_client_shutdown_read `{SocketShutdown} : Z :=
  if negb (uv_fileno_result =? 0) then uv_fileno_result
  else if negb (shutdown_result =? 0) then last_error
  else 0.

(** The module is kept exactly if the answer is 0. *)
Lemma retain_counts `{ModuleLoader} n :
  UV_ENOENT < 0 → UV_EIO < 0 →
  wp skyuv_client_module_retain (λ r n', n' = if r =? 0 then S n else n) n.
Proof.
  intros H1 H2. unfold skyuv_client_module_retain. destruct dladdr_finds, dlopen_finds; simpl;
    [apply wp_bind, wp_modify, wp_ret; done|apply wp_ret..];
    by rewrite (proj2 (Z.eqb_neq _ _)) by lia.
Qed.

(** ** Sleeping on Windows *)

(** The argument of [uv_sleep], an [unsigned int]. *)
Definition skyuv_compat_sleep (seconds : Z) : Z := u32 (seconds * 1000).
Definition skyuv_compat_usleep (microseconds : Z) : Z := u32 (microseconds + 999) / 1000.

(** Not less than was asked for, by less than a millisecond; and what happens at the
    end of the type. *)
Lemma sleeps_long_enough n :
  (0 ≤ n ≤ 4294967 → skyuv_compat_sleep n = n * 1000) ∧
  (0 ≤ n ≤ 4294966296 → n ≤ skyuv_compat_usleep n * 1000 < n + 1000) ∧
  (4294966296 < n ≤ 4294967295 → skyuv_compat_usleep n = 0).
Proof.
  unfold skyuv_compat_sleep, skyuv_compat_usleep, u32. split_and!.
  - intros Hn. rewrite uwrap_small; lia.
  - intros Hn. rewrite uwrap_small by lia. pose proof (Z.div_mod (n + 999) 1000).
    pose proof (Z.mod_pos_bound (n + 999) 1000). lia.
  - intros Hn. unfold uwrap. replace (n + 999) with (n + 999 - 2 ^ 32 + 1 * 2 ^ 32) by lia.
    rewrite Z.mod_add, Z.mod_small by lia. apply Z.div_small. lia.
Qed.
